(* ===== verification/_CoqProject ===== *)
-Q . S2P
Prelude.v
Common.v
QueueIface.v
Interleave.v
WorkSteal.v
OrderedWorkSteal.v
QueueRaces.v
Coroutine.v
Traps.v
Scheduler.v
SchedulerRuns.v
OrderedReady.v
CoPool.v
CoPoolRuns.v
JoinRaces.v
Selector.v
Polling.v
Syscall.v
Calls.v
Msg.v
Operator.v
UringCalls.v
SyscallRuns.v
Beans.v
Config.v
Monitor.v
MonitorRuns.v
Preempt.v
EventLoop.v
EventLoops.v
EventLoopRuns.v
RingRaces.v
Facade.v
FacadeRuns.v
MainMacro.v
Build.v
WinSyscall.v
WinCalls.v
WinRuns.v
WinOperator.v
WinLoop.v
WinHook.v
