(* ===== verification/Prelude.v ===== *)
(** * open-coroutine: a verification library

    ** The program

    open-coroutine runs blocking code on coroutines. Its core crate
    ([core/src]) is built in layers:
    - coroutines ([coroutine]): a state machine, listeners, thread-local stacks
      of the current coroutine and suspender, suspension and resumption over a
      context-switching crate;
    - work-stealing queues ([common/work_steal.rs],
      [common/ordered_work_steal.rs]) that hold ready coroutines and tasks;
    - the scheduler ([scheduler.rs]): a ready queue, timers of delayed
      coroutines, a table of coroutines waiting in system calls;
    - the coroutine pool ([co_pool]): tasks run by worker coroutines, which a
      listener creates and gives back;
    - event loops ([net]): one pool, one selector ([net/selector]) and one
      submission ring ([net/operator]) per thread, and the manager of the loops
      with its join handles;
    - the monitor ([monitor.rs]): a thread that preempts coroutines which run too
      long;
    - beans ([common/beans.rs]), coroutine locals ([coroutine/local.rs]) and the
      configuration ([config.rs]);
    - hooked system calls ([syscall/unix], [syscall/windows]): layers that turn a
      blocking call into non-blocking attempts and waits of the current
      coroutine.

    Around the core lie the hook library ([hook/src]), whose functions replace
    those of the C library, and the facade crate ([open-coroutine/src]) with
    typed tasks.

    A hooked call enters the facade, which puts the current coroutine into the
    state [Syscall]; the nio layer tries, and between attempts waits at the
    event loop, which suspends the coroutine; the scheduler keeps it in its
    table until its deadline or until the selector reports its descriptor.

    ** The files

    - [Prelude]: machine integers, the monad [M] of computations that return,
      panic or run out of fuel, results, tactics, hint databases, list lemmas.
    - [Common]: [common/constants.rs] and the helpers of [common/mod.rs].
    - [QueueIface]: the crates behind the queues as type classes with their
      laws, and the interface [PQueue] that scheduler and pool use.
    - [WorkSteal], [OrderedWorkSteal]: the two queues. [OrderedReady] shows
      that the ordered one implements [PQueue].
    - [Coroutine]: [coroutine] without its handlers. Coroutine objects
      live in a store and are named by handles; a [World] is the store, the
      thread-local stacks, the clock and an extension for the client.
    - [Traps]: the handlers of memory faults, for all targets, and of the
      cancelling signal, with their installation.
    - [Scheduler]: [scheduler.rs]; its state is the extension of the world.
      [SchedulerRuns] has concrete schedulers.
    - [CoPool]: [co_pool]; the pool extends the scheduler. [CoPoolRuns] runs
      whole pools: workers as coroutine bodies, the creator as listener.
    - [Selector]: [net/selector/mod.rs] and [mio_adapter.rs]; [Polling]:
      [polling_adapter.rs], an implementation of the same interface.
    - [Syscall]: the layers of [syscall/unix/mod.rs]; [Calls]: the calls of
      the other files of [syscall/unix]; [Msg]: [recvmsg] and [sendmsg];
      [UringCalls]: the calls of both in a build with the feature [io_uring];
      [SyscallRuns]: a small kernel.
    - [Beans]: [common/beans.rs] and [coroutine/local.rs]; [Config]:
      [config.rs].
    - [Monitor]: [monitor.rs]; its state is a part of the client's extension
      ([HasMon]). [MonitorRuns] puts it into a scheduler's world and runs it.
      [Preempt]: preemption on Windows, with the assembly stubs as programs of
      a small machine.
    - [Operator]: [net/operator/linux/mod.rs], over the interface [Ring].
    - [EventLoop]: [net/event_loop.rs]; a loop extends the pool. [EventLoops]:
      [net/mod.rs] and [net/join.rs], over the interface [LoopOps] of a loop.
      [EventLoopRuns]: whole loops.
    - [Facade]: [hook/src/lib.rs], [hook/src/syscall/unix.rs] and
      [open-coroutine/src/lib.rs], over a heap of boxes ([HasHeap]) and the
      promise of the loops about a task ([TaskContract]). [FacadeRuns]: a table
      of tasks that keeps the promise, and a task from end to end on a whole
      event loop. [MainMacro]: the attribute of [macros/src/lib.rs];
      [Build]: the build script [open-coroutine/build.rs].
    - [Interleave]: threads as programs of atomic actions, every interleaving of
      them, ownership, and the condition variable. [QueueRaces]: the priority
      queue under concurrent use; [JoinRaces]: joining a task while it finishes;
      [RingRaces]: a call handed to the ring by a plain thread.
    - Windows: [WinSyscall]: the layers of [syscall/windows/mod.rs]; [WinCalls]:
      the other files of [syscall/windows]; [WinRuns]: a small Winsock.
      [WinOperator]: [net/operator/windows/mod.rs], over the interface [Port] of
      a completion port; [WinLoop]: the parts of [net/event_loop.rs] that use
      it; [WinHook]: [hook/src/syscall/windows.rs].

    ** What is shown

    Queues: pushes and pops conserve elements and priorities, keep the
    counters exact, return the highest priority first, and a pop fails only
    when everything is empty; pushing onto a handle with a stale counter
    diverges. Under every interleaving of the atomic steps of any number of
    threads no element is lost, copied or invented and stealing is exclusive; a
    thread alone does what the sequential definitions do; the shared counter can
    lose an element from sight. Joining: results are handed out once, a
    registered waiter is woken in every interleaving, one that registers too
    late sleeps on; likewise for a call handed to the ring. Coroutines: every operation implements the documented transition
    relation, finished coroutines stay finished, [resume] reports the true
    state, stack growth is balanced; two leaks are proved (the stale timestamp
    and the current-coroutine stack). Traps: a fault ends the coroutine with the
    right message on every target, the signal cancels a running coroutine, and
    one in a system call hits another coroutine. Scheduler: a scheduling call returns within
    its fuel, keeps the invariant and loses no coroutine; timers fire when due; a
    stale timer can hit a later wait. Pool: tasks run once and their results
    are kept or thrown away as asked, workers stay within bounds and drain a
    stopping pool, submitting works exactly while the pool runs; a cancelled
    worker is leaked. Selector: the records refine the interests granted and the
    poller is registered for exactly those; two ways in which events are
    lost. System calls: the layers bracket the call in the coroutine's state,
    never block, restore the flags, report exactly the bytes moved, and return
    by their deadline; the calls whose behaviour differs from what their names
    promise (vectors, interrupted [connect], [select], [setsockopt], a ring
    time-out) have theorems that say how; where the ring refuses, a call is
    that of a build without it, where it accepts, the caller gets the kernel's
    result and the later layers (the cleaning up of [close] too) are skipped. Messages: with one buffer [recvmsg]
    and [sendmsg] are the plain retry loop, with several a short transfer makes
    the kernel read past the vector. Event loops: a wait wakes exactly the
    coroutines whose events or completions came, and brings a waiting
    coroutine back into its call; results of the ring reach their submitters;
    work is spread evenly; lost wake-ups, a repeated submission and an early
    stop are proved. Operator: every operation submits its own entry, a
    selection ends and loses nothing. Monitor: the queue holds exactly the running
    coroutines, a signal suspends a running coroutine and nothing else, the
    thread ends when told, panics are reported undisturbed; the assembly
    stubs restore everything but the flags. Beans and locals are maps, the
    configuration stays usable. Facade: what a task returns is what its caller
    gets, joins keep their time, stack growth gives the value of its closure,
    the first initialisation decides; a failed task is waited for without end,
    connecting tries the first address only; the attribute starts the runtime
    with exactly the values given; the build script links the last library
    listed, also after a build that failed. Windows: the layers never block
    and keep the set of non-blocking sockets true (and which call ruins it),
    a selection on the completion port ends, takes every completion once and
    wakes its caller, what was submitted comes back with its token, loading
    the library hooks everything or nothing; refused calls leak, failing accepts
    spin.

    ** Conventions, bounds and fuel

    The target is 64-bit Linux ([Preempt], a part of [Monitor] and the files
    named [Win] are for Windows, [Traps] for all targets); [Calls] and [Msg]
    are for a build without the feature [io_uring], [UringCalls], [EventLoop]
    and [Operator] for one with it. Plain additions that
    cannot overflow are written without wrap-around, atomic counters wrap.
    [now()] reads a clock given as a function of the number of readings, so
    two readings may differ. A loop that is not structural takes fuel; the
    theorems give fuel that is enough (for scheduling: the number of
    clock readings up to the deadline; for a worker: the number of tasks plus
    one; for [poll]: the timeout plus one; for a timed read: the limit plus
    one; for a selection of the ring: the backlog plus two; for one of the
    completion port: the nanoseconds of its limit plus one; for the monitor
    thread: the rounds until it is told to stop plus two; for joining any of
    several tasks and for connecting: the nanoseconds of the limit plus one) or
    show that none is. A loop that ends for no fuel is a proved
    divergence. Code outside the repository (queue and poller crates, context
    switches, the C library, hashing, random choice, other threads) is a parameter;
    what is relied on is a class of laws or a hypothesis, with an instance that
    meets it in the files of runs.

    ** Not modelled

    Interleavings of the atomic steps of the other components (the files named
    [Races] interleave those of the queue, of joining and of the ring, the file
    [Beans] those of the factory), and memory models weaker than sequential
    consistency; a steal of a queue into itself, for which its crate documents
    nothing; the build script of the core crate, one call of the C compiler;
    logging and formatting; tests and examples. *)

From stdpp Require Import sorting base numbers strings gmap list.

Open Scope Z_scope.

(** ** Machine integers

    The code is modelled for a 64-bit target: [usize] and [u64] both have
    64 bits, [c_int] is 32 bits wide and [c_longlong] 64. A value is a [Z];
    the operations below write out what Rust does at the limits. *)

Definition u32_max : Z := 2 ^ 32 - 1.
Definition u64_max : Z := 2 ^ 64 - 1.
Definition usize_max : Z := 2 ^ 64 - 1.
Definition i32_max : Z := 2 ^ 31 - 1.
Definition i64_min : Z := - 2 ^ 63.
Definition i64_max : Z := 2 ^ 63 - 1.

Definition in_u32 (x : Z) : Prop := 0 ≤ x ≤ u32_max.
Definition in_u64 (x : Z) : Prop := 0 ≤ x ≤ u64_max.

(** [saturating_add], [saturating_sub] and [saturating_mul] of an unsigned
    type whose largest value is [m]. *)
Definition sat_add (m a b : Z) : Z := Z.min m (a + b).
Definition sat_sub (a b : Z) : Z := Z.max 0 (a - b).
Definition sat_mul (m a b : Z) : Z := Z.min m (a * b).

(** [fetch_add] of an atomic integer with [w] bits wraps around. *)
Definition wrap (w a : Z) : Z := a mod 2 ^ w.

(** [u64::try_from] of a wider unsigned value: the value, or the error. *)
Definition try_u64 (x : Z) : option Z := if x <=? u64_max then Some x else None.

Definition Zlen {A} (l : list A) : Z := Z.of_nat (length l).

(** ** Outcomes

    Rust code either returns, panics (and unwinds with the state as it is at
    that point) or, in a model of an unbounded loop, runs out of fuel. *)

Inductive outcome (S A : Type) : Type :=
| Done (a : A) (s : S)
| Panic (msg : string) (s : S)
| NoFuel.
Arguments Done {S A} a s.
Arguments Panic {S A} msg s.
Arguments NoFuel {S A}.

(** [M S A] is a computation over the mutable state [S]. *)
Definition M (S A : Type) : Type := S → outcome S A.

#[global] Instance M_ret {S} : MRet (M S) := λ A a s, Done a s.
#[global] Instance M_bind {S} : MBind (M S) := λ A B k m s,
  match m s with
  | Done a s' => k a s'
  | Panic msg s' => Panic msg s'
  | NoFuel => NoFuel
  end.

Definition gets {S A} (f : S → A) : M S A := λ s, Done (f s) s.
Definition modify {S} (f : S → S) : M S unit := λ s, Done tt (f s).
Definition panic {S A} (msg : string) : M S A := λ s, Panic msg s.
Definition assert_ {S} (b : bool) (msg : string) : M S unit :=
  λ s, if b then Done tt s else Panic msg s.
Definition out_of_fuel {S A} : M S A := λ _, NoFuel.

(** [catch!]: a panic of the closure becomes an [Err] value; the effects up
    to the panic stay. *)
Definition catch_unwind {S A} (m : M S A) : M S (A + string) := λ s,
  match m s with
  | Done a s' => Done (inl a) s'
  | Panic msg s' => Done (inr msg) s'
  | NoFuel => NoFuel
  end.

(** [std::io::Result]. The error carries its [ErrorKind]; the formatted
    message is kept only where the code passes a literal. *)
Inductive io_error : Type :=
| Other (msg : string)
| TimedOut (msg : string)
| InvalidInput (msg : string)
| Unsupported (msg : string)
| Interrupted
| OsError (errno : Z).

#[global] Instance io_error_eq_dec : EqDecision io_error.
Proof. solve_decision. Defined.

Inductive io_result (A : Type) : Type :=
| IoOk (a : A)
| IoErr (e : io_error).
Arguments IoOk {A} a.
Arguments IoErr {A} e.

Definition is_err {A} (r : io_result A) : bool :=
  match r with IoErr _ => true | IoOk _ => false end.
Definition is_ok {A} (r : io_result A) : bool := negb (is_err r).

(** The [?] operator: go on with the value or return the error. *)
Definition try_ {S A B} (m : M S (io_result A)) (k : A → M S (io_result B)) :
  M S (io_result B) :=
  m ≫= λ r, match r with IoOk a => k a | IoErr e => mret (IoErr e) end.

Declare Scope oc_scope.
Delimit Scope oc_scope with oc.
Notation "x '<-?' m ; k" := (try_ m (λ x, k))
  (at level 20, m at level 100, k at level 200, right associativity) : oc_scope.
Notation "' x '<-?' m ; k" := (try_ m (λ x, k))
  (at level 20, x pattern, m at level 100, k at level 200,
   right associativity) : oc_scope.
Open Scope oc_scope.

(** ** Automation

    [oc] holds the lemmas that close the common side conditions;
    [run] symbolically executes a computation. *)

Create HintDb oc discriminated.
Create Rewrite HintDb oc.

Lemma bind_done {S A B} (m : M S A) (k : A → M S B) s a s' :
  m s = Done a s' → (m ≫= k) s = k a s'.
Proof. intros H. unfold mbind, M_bind. by rewrite H. Qed.

Lemma bind_done_inv {S A B} (m : M S A) (k : A → M S B) s b s' :
  (m ≫= k) s = Done b s' → ∃ a s1, m s = Done a s1 ∧ k a s1 = Done b s'.
Proof.
  unfold mbind, M_bind. destruct (m s) as [a s1| |] eqn:E; naive_solver.
Qed.

Lemma bind_assoc {S A B C} (m : M S A) (k : A → M S B) (h : B → M S C) s :
  ((m ≫= k) ≫= h) s = (m ≫= λ a, k a ≫= h) s.
Proof. unfold mbind, M_bind. by destruct (m s). Qed.

Lemma catch_unwind_no_panic {S A} (m : M S A) s msg s' :
  catch_unwind m s ≠ Panic msg s'.
Proof. unfold catch_unwind. by destruct (m s). Qed.

(** Unfold the monad and its primitives. *)
Ltac munfold :=
  unfold try_, mbind, M_bind, mret, M_ret, gets, modify, assert_, panic in *.
Ltac run := repeat (progress (munfold; simpl in *)).

(** [lia] with the equations of [/] and [mod]. *)
Ltac dlia := Z.to_euclidean_division_equations; lia.

(** Case analysis on every match or if in sight, then clean up. *)
Ltac cases :=
  repeat (case_match; simplify_eq/=; try done).

(** Turn boolean tests of the code into propositions. *)
Ltac breflect :=
  repeat match goal with
  | H : (_ <? _) = true |- _ => apply Z.ltb_lt in H
  | H : (_ <? _) = false |- _ => apply Z.ltb_ge in H
  | H : (_ <=? _) = true |- _ => apply Z.leb_le in H
  | H : (_ <=? _) = false |- _ => apply Z.leb_gt in H
  | H : (_ =? _) = true |- _ => apply Z.eqb_eq in H
  | H : (_ =? _) = false |- _ => apply Z.eqb_neq in H
  | H : (_ && _) = true |- _ => apply andb_true_iff in H; destruct H
  | H : (_ || _) = false |- _ => apply orb_false_iff in H; destruct H
  | H : negb _ = true |- _ => apply negb_true_iff in H
  | H : negb _ = false |- _ => apply negb_false_iff in H
  | H : bool_decide _ = true |- _ => apply bool_decide_eq_true_1 in H
  | H : bool_decide _ = false |- _ => apply bool_decide_eq_false_1 in H
  end.

(** ** Integer lemmas *)

Lemma sat_add_bounds m a b : 0 ≤ m → 0 ≤ a → 0 ≤ b → 0 ≤ sat_add m a b ≤ m.
Proof. unfold sat_add. lia. Qed.

Lemma sat_add_exact m a b : a + b ≤ m → sat_add m a b = a + b.
Proof. unfold sat_add. lia. Qed.

Lemma sat_sub_nonneg a b : 0 ≤ sat_sub a b.
Proof. unfold sat_sub. lia. Qed.

Lemma sat_sub_exact a b : b ≤ a → sat_sub a b = a - b.
Proof. unfold sat_sub. lia. Qed.

Lemma sat_sub_zero a b : sat_sub a b = 0 ↔ a ≤ b.
Proof. unfold sat_sub. lia. Qed.

#[export] Hint Resolve sat_add_bounds sat_sub_nonneg : oc.

(** ** List lemmas *)

Lemma Zlen_nonneg {A} (l : list A) : 0 ≤ Zlen l.
Proof. unfold Zlen. lia. Qed.

Lemma Zlen_nil {A} : Zlen (@nil A) = 0.
Proof. done. Qed.

Lemma Zlen_cons {A} (x : A) l : Zlen (x :: l) = 1 + Zlen l.
Proof. unfold Zlen. simpl. lia. Qed.

Lemma Zlen_app {A} (l k : list A) : Zlen (l ++ k) = Zlen l + Zlen k.
Proof. unfold Zlen. rewrite length_app. lia. Qed.

Lemma Zlen_zero {A} (l : list A) : Zlen l = 0 → l = [].
Proof. unfold Zlen. destruct l; [done|simpl; lia]. Qed.

Lemma Zlen_Permutation {A} (l k : list A) : l ≡ₚ k → Zlen l = Zlen k.
Proof. intros H. unfold Zlen. by rewrite H. Qed.

#[export] Hint Resolve Zlen_nonneg : oc.
#[export] Hint Rewrite @Zlen_nil @Zlen_cons @Zlen_app : oc.

Definition Zsum (l : list Z) : Z := foldr Z.add 0 l.

Lemma Zsum_app l k : Zsum (l ++ k) = Zsum l + Zsum k.
Proof. induction l as [|x l IH]; simpl in *; unfold Zsum in *; simpl; lia. Qed.

(** Replacing the [i]-th block of a list of lists by a block with one element
    moved in or out permutes the concatenation accordingly. *)
Lemma concat_insert_perm {A} (ls : list (list A)) i l l' :
  ls !! i = Some l →
  l ++ concat (<[i:=l']> ls) ≡ₚ l' ++ concat ls.
Proof.
  revert i. induction ls as [|k ls IH]; intros [|i] H; simplify_eq/=.
  - rewrite !app_assoc. apply Permutation_app_tail, Permutation_app_comm.
  - specialize (IH _ H). rewrite !app_assoc.
    rewrite (Permutation_app_comm l k), (Permutation_app_comm l' k).
    rewrite <-!app_assoc. by rewrite IH.
Qed.

Lemma concat_insert_remove {A} (ls : list (list A)) i l l' k :
  ls !! i = Some l → l ≡ₚ k ++ l' → concat ls ≡ₚ k ++ concat (<[i:=l']> ls).
Proof.
  intros Hi Hl. pose proof (concat_insert_perm ls i l l' Hi) as Hp.
  rewrite Hl, (Permutation_app_comm k), <-app_assoc in Hp.
  apply Permutation_app_inv_l in Hp. by rewrite Hp.
Qed.

Lemma concat_insert_add {A} (ls : list (list A)) i l l' k :
  ls !! i = Some l → l' ≡ₚ k ++ l → concat (<[i:=l']> ls) ≡ₚ k ++ concat ls.
Proof.
  intros Hi Hl. apply Permutation_app_inv_l with l.
  rewrite (concat_insert_perm ls i l l' Hi), Hl, (Permutation_app_comm k l).
  by rewrite app_assoc.
Qed.

(** Walking [num] slots from [start], modulo [num], visits every slot. *)
Lemma rotation_complete start num (j : nat) :
  0 ≤ start < num → Z.of_nat j < num →
  j ∈ (λ i, Z.to_nat ((start + i) mod num)) <$> seqZ 0 num.
Proof.
  intros Hs Hj. apply list_elem_of_fmap.
  exists ((Z.of_nat j - start) mod num). split.
  - rewrite Zplus_mod_idemp_r. replace (start + (Z.of_nat j - start)) with (Z.of_nat j) by lia.
    rewrite Z.mod_small by lia. lia.
  - apply elem_of_seqZ. pose proof (Z.mod_pos_bound (Z.of_nat j - start) num). lia.
Qed.

Lemma concat_all_nil {A} (ls : list (list A)) :
  (∀ i k, ls !! i = Some k → k = []) → concat ls = [].
Proof.
  induction ls as [|k ls IH]; intros H; [done|]. simpl.
  rewrite (H 0%nat k eq_refl). simpl. apply IH. intros i k'. apply (H (S i)).
Qed.

Lemma Zlen_concat {A} (ls : list (list A)) : Zlen (concat ls) = Zsum (Zlen <$> ls).
Proof. induction ls as [|l ls IH]; simpl; [done|]. rewrite Zlen_app, IH. done. Qed.
