(* ===== verification/Common.v ===== *)
(** * Common: constants and time arithmetic

    Models [core/src/common/constants.rs] (the state and syscall
    enumerations, for a Linux build) and the pure part of
    [core/src/common/mod.rs]: kernel versions, timeouts, time slices and the
    cached page size and red zone. A [Duration] is its number of
    nanoseconds; the wall clock is an argument. *)

From stdpp Require Import sorting base numbers strings gmap list.
From S2P Require Import Prelude.

(** ** constants.rs *)

Definition DEFAULT_STACK_SIZE : Z := 128 * 1024.
Definition IO_URING_TIMEOUT_USERDATA : Z := u64_max - 1.
(** 10 ms in nanoseconds. *)
Definition SLICE : Z := 10 * 1000000.

Inductive PoolState : Type := PRunning | PStopping | PStopped.

#[global] Instance PoolState_eq_dec : EqDecision PoolState.
Proof. solve_decision. Defined.

(** The names compiled in on Linux and on Windows. *)
Inductive SyscallName : Type :=
| Sleep | sleep | usleep | nanosleep | poll | select | accept4 | epoll_ctl
| epoll_wait | io_uring_enter | iocp | setsockopt | recv | WSARecv | recvfrom
| read | pread | readv | preadv | recvmsg | connect | listen | accept | WSAAccept
| shutdown | close | socket | WSASocketW | ioctlsocket | send | WSASend | sendto
| write | pwrite | writev | pwritev | sendmsg | fsync | renameat | renameat2
| mkdir | mkdirat | rmdir | lseek | openat | link | unlink
| pthread_cond_timedwait | pthread_mutex_trylock | pthread_mutex_lock
| pthread_mutex_unlock | CreateFileW | SetFilePointerEx | WaitOnAddress | WSAPoll
| panicking.

#[global] Instance SyscallName_eq_dec : EqDecision SyscallName.
Proof. solve_decision. Defined.

(** [SyscallName::nio] on Linux. *)
Definition nio : SyscallName := epoll_wait.

Inductive SyscallState : Type :=
| Executing
| SSuspend (timestamp : Z)
| Timeout
| Callback.

#[global] Instance SyscallState_eq_dec : EqDecision SyscallState.
Proof. solve_decision. Defined.

Inductive CoroutineState (Y R : Type) : Type :=
| Ready
| Running
| Suspend (y : Y) (timestamp : Z)
| Syscall (y : Y) (syscall : SyscallName) (state : SyscallState)
| Cancelled
| Complete (r : R)
| Error (msg : string).
Arguments Ready {Y R}.
Arguments Running {Y R}.
Arguments Suspend {Y R} y timestamp.
Arguments Syscall {Y R} y syscall state.
Arguments Cancelled {Y R}.
Arguments Complete {Y R} r.
Arguments Error {Y R} msg.

#[global] Instance CoroutineState_eq_dec {Y R} `{!EqDecision Y, !EqDecision R} :
  EqDecision (CoroutineState Y R).
Proof. solve_decision. Defined.

(** ** mod.rs: versions and time *)

(** [kernel_version]: the arguments are [c_int]s in the range in which the
    shifts do not overflow. *)
Definition kernel_version (major patchlevel sublevel : Z) : Z :=
  Z.shiftl major 16 + Z.shiftl patchlevel 8
    + (if 255 <? sublevel then 255 else sublevel).

(** [now]: [wall] is [SystemTime::now()] in nanoseconds since the epoch;
    before the epoch [expect] panics. *)
Definition now (wall : Z) : option Z :=
  if wall <? 0 then None else Some (default u64_max (try_u64 wall)).

(** [get_timeout_time]: [cur] is what [now()] returns. *)
Definition get_timeout_time (cur dur : Z) : Z :=
  match try_u64 dur with
  | Some d => sat_add u64_max d cur
  | None => u64_max
  end.

(** The [while] loop of [get_slices]; [None] when the fuel is used up. *)
Fixpoint get_slices_loop (fuel : nat) (slice left_total : Z) (result : list Z)
  : option (list Z) :=
  match fuel with
  | O => None
  | S fuel =>
      if slice <? left_total then
        let result := result ++ [slice] in
        let left_total :=
          if slice <=? left_total then left_total - slice else left_total in
        get_slices_loop fuel slice left_total result
      else Some (result ++ [left_total])
  end.

Definition get_slices (fuel : nat) (total slice : Z) : option (list Z) :=
  if total =? 0 then Some [] else get_slices_loop fuel slice total [].

(** [page_size] and [default_red_zone] (not Windows): the cached value and
    the new cache; [sysconf] is what [libc::sysconf(_SC_PAGESIZE)] returns. *)
Definition page_size (sysconf cache : Z) : Z * Z :=
  if cache =? 0 then (sysconf, sysconf) else (cache, cache).

Definition default_red_zone (sysconf pcache cache : Z) : Z * Z * Z :=
  if cache =? 0 then
    let '(p, pcache) := page_size sysconf pcache in
    let ret := 16 * 1024 + p in (ret, pcache, ret)
  else (cache, pcache, cache).

(** ** Properties *)

Section slices.
Context (slice : Z) (slice_pos : 0 < slice).

(** One iteration of the loop consumes one slice, so the number of whole
  slices bounds the iterations. *)
Lemma get_slices_loop_spec fuel left acc :
  0 < left → (Z.to_nat (left / slice) < fuel)%nat →
  ∃ n last,
    get_slices_loop fuel slice left acc
      = Some (acc ++ replicate n slice ++ [last])
    ∧ 0 < last ≤ slice ∧ Z.of_nat n * slice + last = left.
Proof.
  revert left acc. induction fuel as [|fuel IH]; intros left acc Hl Hf; [lia|].
  simpl. destruct (slice <? left) eqn:E; breflect.
  - rewrite (proj2 (Z.leb_le slice left)) by lia.
    destruct (IH (left - slice) (acc ++ [slice])) as (n & last & -> & ? & ?).
    + lia.
    + replace left with ((left - slice) + 1 * slice) in Hf by lia.
      rewrite Z.div_add in Hf by lia.
      assert (0 ≤ (left - slice) / slice) by (apply Z.div_pos; lia). lia.
    + exists (S n), last. rewrite <-app_assoc. split; [done|]. lia.
  - exists 0%nat, left. simpl. split; [done|]. lia.
Qed.
End slices.

(** [get_slices] splits a positive duration into whole slices followed by
    one last part: every part is positive and at most a slice, the parts add
    up to the total, and [total / slice + 1] iterations are enough. *)
Theorem get_slices_partition total slice fuel :
  0 < total → 0 < slice → (Z.to_nat (total / slice) < fuel)%nat →
  ∃ parts, get_slices fuel total slice = Some parts
    ∧ Zsum parts = total
    ∧ Forall (λ p, 0 < p ≤ slice) parts
    ∧ Forall (λ p, p = slice) (removelast parts).
Proof.
  intros Ht Hs Hf. unfold get_slices.
  rewrite (proj2 (Z.eqb_neq total 0)) by lia.
  destruct (get_slices_loop_spec slice Hs fuel total [] Ht Hf)
    as (n & last & -> & Hlast & Hsum).
  eexists; split; [done|]. simpl. repeat split.
  - rewrite Zsum_app. simpl. clear Hf.
    assert (Zsum (replicate n slice) = Z.of_nat n * slice) as ->.
    { clear. induction n as [|n IH]; [done|].
      change (Zsum (replicate (S n) slice)) with (slice + Zsum (replicate n slice)).
      rewrite IH. lia. }
    lia.
  - apply Forall_app; split; [apply Forall_replicate|apply Forall_singleton]; lia.
  - rewrite removelast_last. by apply Forall_replicate.
Qed.

Lemma get_slices_partition_witness :
  ∃ parts, get_slices 4 25 10 = Some parts ∧ Zsum parts = 25
    ∧ Forall (λ p, 0 < p ≤ 10) parts
    ∧ Forall (λ p, p = 10) (removelast parts).
Proof. apply (get_slices_partition 25 10 4); vm_compute; (done || lia). Defined.

(** A zero slice makes the loop of [get_slices] push forever: no amount of
    fuel yields a result for a positive total. *)
Theorem get_slices_zero_slice_diverges total fuel :
  0 < total → get_slices fuel total 0 = None.
Proof.
  intros Ht. unfold get_slices. rewrite (proj2 (Z.eqb_neq total 0)) by lia.
  generalize (@nil Z). revert total Ht.
  induction fuel as [|fuel IH]; intros total Ht acc; [done|].
  simpl. rewrite (proj2 (Z.ltb_lt 0 total)), (proj2 (Z.leb_le 0 total)) by lia.
  apply IH. lia.
Qed.

Lemma get_slices_zero_slice_diverges_witness : get_slices 1000 5 0 = None.
Proof. apply (get_slices_zero_slice_diverges 5 1000). lia. Defined.

(** A timeout time is never in the past and fits the [u64] it is stored in. *)
Lemma get_timeout_time_bounds cur dur :
  in_u64 cur → 0 ≤ dur → cur ≤ get_timeout_time cur dur ≤ u64_max.
Proof.
  unfold in_u64, get_timeout_time, try_u64, sat_add. intros ??. cases; breflect; lia.
Qed.

Lemma get_timeout_time_zero cur : in_u64 cur → get_timeout_time cur 0 = cur.
Proof. unfold in_u64, get_timeout_time, try_u64, sat_add, u64_max. simpl. lia. Qed.

Lemma now_in_u64 wall t : now wall = Some t → in_u64 t.
Proof.
  unfold now, in_u64, try_u64, u64_max. intros. cases; breflect; lia.
Qed.

#[export] Hint Resolve get_timeout_time_bounds now_in_u64 : oc.

(** Comparing two [kernel_version] codes compares the versions
    lexicographically (major, patch level, sub level up to 255) when the
    patch level fits its eight bits, which is what the io_uring support test
    relies on. *)
Theorem kernel_version_lexicographic ma pa sa mb pb sb :
  0 ≤ ma → 0 ≤ mb → 0 ≤ pa ≤ 255 → 0 ≤ pb ≤ 255 → 0 ≤ sa → 0 ≤ sb →
  kernel_version ma pa sa ≤ kernel_version mb pb sb ↔
  ma < mb ∨ (ma = mb ∧ (pa < pb ∨ (pa = pb ∧ Z.min sa 255 ≤ Z.min sb 255))).
Proof.
  intros. unfold kernel_version.
  rewrite !Z.shiftl_mul_pow2 by lia. change (2^16) with 65536. change (2^8) with 256.
  destruct (255 <? sa) eqn:E1, (255 <? sb) eqn:E2; breflect; lia.
Qed.

Lemma kernel_version_lexicographic_witness :
  kernel_version 5 6 0 ≤ kernel_version 5 10 3 ↔
  5 < 5 ∨ (5 = 5 ∧ (6 < 10 ∨ (6 = 10 ∧ Z.min 0 255 ≤ Z.min 3 255))).
Proof. apply (kernel_version_lexicographic 5 6 0 5 10 3); lia. Defined.

(** The first call fills the cache and every later call returns that value. *)
Lemma default_red_zone_cached sysconf pc :
  0 < sysconf →
  let '(r, pc', c) := default_red_zone sysconf pc 0 in
  0 ≤ pc → ∀ sysconf', default_red_zone sysconf' pc' c = (r, pc', c).
Proof.
  intros Hs. unfold default_red_zone, page_size. simpl.
  destruct (pc =? 0) eqn:E; breflect; simpl; intros ? s';
    rewrite (proj2 (Z.eqb_neq _ 0)) by lia; done.
Qed.
