(* ===== verification/QueueIface.v ===== *)
(** * QueueIface: what the queues rely on

    The two work-stealing queues are built from crates whose code is not part
    of the repository: [crossbeam_deque::Injector] (an unbounded FIFO whose
    [steal] may ask for a retry), [st3::fifo::Worker] (a bounded FIFO with
    stealing) and [crossbeam_skiplist::SkipMap] (a map iterated in key order).
    Each is a class of operations together with a class of laws that state the
    documented behaviour; the queue files are parametrised by them. The list
    implementations at the end satisfy the laws, retries, busy steals and
    capacity rounding included, and serve as instances in the witnesses. *)

From stdpp Require Import sorting base numbers strings gmap list.
From S2P Require Import Prelude.

(** ** The priority queue the clients see

    What the scheduler (for coroutines) and the pool (for tasks) rely on: an
    [OrderedLocalQueue] seen through its contents. [None] stands for a call that
    does not return. *)
Class PQueue (T Q : Type) : Type := {
  pq_push : Z → T → Q → option Q;
  pq_pop : Q → option (option T * Q);
  pq_is_empty : Q → bool;
  pq_local_empty : Q → bool;
  pq_elems : Q → list T;
  pq_wf : Q → Prop;
}.

Class PQueueLaws (T Q : Type) `{!PQueue T Q} : Prop := {
  pq_push_spec p x q : pq_wf q → Zlen (pq_elems q) < usize_max →
    ∃ q', pq_push p x q = Some q' ∧ pq_wf q' ∧ pq_elems q' ≡ₚ x :: pq_elems q;
  pq_pop_spec q : pq_wf q →
    ∃ v q', pq_pop q = Some (v, q') ∧ pq_wf q'
      ∧ match v with
        | Some x => pq_elems q ≡ₚ x :: pq_elems q'
        | None => pq_elems q = [] ∧ pq_elems q' = []
        end;
  pq_is_empty_spec q : pq_wf q → pq_is_empty q = true ↔ pq_elems q = [];
}.

(** ** Injector *)

Inductive Steal (T : Type) : Type :=
| StealSuccess (x : T)
| StealRetry
| StealEmpty.
Arguments StealSuccess {T} x.
Arguments StealRetry {T}.
Arguments StealEmpty {T}.

(** [inj_elems] is the logical content, oldest first. [inj_retries] bounds how
    often in a row [steal] answers [Retry] while nobody else uses the queue. *)
Class Injector (T I : Type) : Type := {
  inj_new : I;
  inj_push : I → T → I;
  inj_steal : I → Steal T * I;
  inj_elems : I → list T;
  inj_retries : I → nat;
}.

Class InjectorLaws (T I : Type) `{!Injector T I} : Prop := {
  inj_new_elems : inj_elems (T:=T) inj_new = [];
  inj_push_elems q x : inj_elems (inj_push q x) = inj_elems q ++ [x];
  inj_steal_success q x q' :
    inj_steal q = (StealSuccess x, q') → inj_elems q = x :: inj_elems q';
  inj_steal_empty q q' :
    inj_steal q = (StealEmpty, q') → inj_elems q = [] ∧ inj_elems q' = [];
  inj_steal_retry q q' :
    inj_steal q = (StealRetry, q') →
    inj_elems q' = inj_elems q ∧ (inj_retries q' < inj_retries q)%nat;
}.

(** ** Worker

    [w_push] is [None] for [Err(item)]. [w_steal src dst f] is
    [src.stealer().steal(&dst, f)]: the number of moved items ([None] for an
    error) and the two queues afterwards. [w_busy] says that a concurrent steal
    of this queue is under way, in which case [steal] fails. *)
Class Worker (T W : Type) : Type := {
  w_new : Z → W;
  w_push : W → T → option W;
  w_pop : W → option T * W;
  w_capacity : W → Z;
  w_spare_capacity : W → Z;
  w_is_empty : W → bool;
  w_steal : W → W → (Z → Z) → option Z * W * W;
  w_busy : W → bool;
  w_elems : W → list T;
}.

Class WorkerLaws (T W : Type) `{!Worker T W} : Prop := {
  w_new_elems c : w_elems (w_new c) = [];
  w_new_capacity c : c ≤ w_capacity (w_new c);
  w_len_capacity w : Zlen (w_elems w) ≤ w_capacity w;
  w_push_some w x w' :
    w_push w x = Some w' →
    w_elems w' = w_elems w ++ [x] ∧ w_capacity w' = w_capacity w;
  w_push_none w x : w_push w x = None ↔ w_capacity w ≤ Zlen (w_elems w);
  w_pop_elems w :
    match w_elems w with
    | [] => fst (w_pop w) = None ∧ w_elems (snd (w_pop w)) = []
    | x :: r => fst (w_pop w) = Some x ∧ w_elems (snd (w_pop w)) = r
    end;
  w_pop_capacity w : w_capacity (snd (w_pop w)) = w_capacity w;
  w_spare_spec w : w_spare_capacity w = w_capacity w - Zlen (w_elems w);
  w_is_empty_spec w : w_is_empty w = true ↔ w_elems w = [];
  w_steal_ok src dst f n src' dst' :
    w_steal src dst f = (Some n, src', dst') →
    ∃ moved, w_elems src = moved ++ w_elems src'
      ∧ w_elems dst' = w_elems dst ++ moved
      ∧ Zlen moved = n ∧ 1 ≤ n ≤ f (Zlen (w_elems src))
      ∧ w_capacity src' = w_capacity src ∧ w_capacity dst' = w_capacity dst;
  w_steal_err src dst f src' dst' :
    w_steal src dst f = (None, src', dst') →
    w_elems src' = w_elems src ∧ w_elems dst' = w_elems dst
    ∧ w_capacity src' = w_capacity src ∧ w_capacity dst' = w_capacity dst;
  w_steal_progress src dst f src' dst' :
    w_steal src dst f = (None, src', dst') →
    w_busy src = true ∨ w_elems src = []
    ∨ w_capacity dst ≤ Zlen (w_elems dst) ∨ f (Zlen (w_elems src)) ≤ 0;
}.

(** ** SkipMap

    A skip map is seen through its iteration order: an association list whose
    keys increase strictly. The values are shared queues that are changed in
    place through an entry, which is [sm_set] here. *)

Fixpoint al_get {V} (l : list (Z * V)) (k : Z) : option V :=
  match l with
  | [] => None
  | (j, v) :: l => if j =? k then Some v else al_get l k
  end.

Fixpoint al_set {V} (l : list (Z * V)) (k : Z) (v : V) : list (Z * V) :=
  match l with
  | [] => []
  | (j, u) :: l => if j =? k then (j, v) :: l else (j, u) :: al_set l k v
  end.

(** [get_or_insert_with]: keep the entry or insert the new one in order. *)
Fixpoint al_get_or_insert {V} (l : list (Z * V)) (k : Z) (v : V)
  : list (Z * V) :=
  match l with
  | [] => [(k, v)]
  | (j, u) :: r =>
      if k <? j then (k, v) :: (j, u) :: r
      else if j =? k then (j, u) :: r
      else (j, u) :: al_get_or_insert r k v
  end.

Definition al_sorted {V} (l : list (Z * V)) : Prop :=
  StronglySorted Z.lt (l.*1).

Class SkipMap (SM : Type → Type) : Type := {
  sm_new {V} : SM V;
  sm_iter {V} : SM V → list (Z * V);
  sm_get_or_insert {V} : SM V → Z → V → SM V;
  sm_set {V} : SM V → Z → V → SM V;
}.

Class SkipMapLaws (SM : Type → Type) `{!SkipMap SM} : Prop := {
  sm_new_iter V : sm_iter (@sm_new SM _ V) = [];
  sm_sorted V (m : SM V) : al_sorted (sm_iter m);
  sm_get_or_insert_iter V (m : SM V) k v :
    sm_iter (sm_get_or_insert m k v) = al_get_or_insert (sm_iter m) k v;
  sm_set_iter V (m : SM V) k v : sm_iter (sm_set m k v) = al_set (sm_iter m) k v;
}.

Definition sm_get {SM : Type → Type} `{!SkipMap SM} {V} (m : SM V) (k : Z)
  : option V := al_get (sm_iter m) k.

(** ** Association lists *)

Lemma al_set_keys {V} (l : list (Z * V)) k v : (al_set l k v).*1 = l.*1.
Proof. induction l as [|[j u] l IH]; simpl; [done|]. cases. by f_equal. Qed.

Lemma al_get_set_eq {V} (l : list (Z * V)) k v u :
  al_get l k = Some u → al_get (al_set l k v) k = Some v.
Proof.
  induction l as [|[j w] l IH]; simpl; [done|]. intros H.
  destruct (j =? k) eqn:E; simpl; rewrite E; auto.
Qed.

Lemma al_get_set_ne {V} (l : list (Z * V)) k k' v :
  k ≠ k' → al_get (al_set l k v) k' = al_get l k'.
Proof.
  intros Hne. induction l as [|[j w] l IH]; simpl; [done|].
  destruct (j =? k) eqn:E; simpl; breflect; [|by rewrite IH].
  subst. by rewrite !(proj2 (Z.eqb_neq k k')).
Qed.

Lemma al_get_get_or_insert_eq {V} (l : list (Z * V)) k v :
  al_sorted l →
  al_get (al_get_or_insert l k v) k = Some (default v (al_get l k)).
Proof.
  unfold al_sorted. induction l as [|[j u] l IH]; simpl; intros Hs.
  - by rewrite Z.eqb_refl.
  - apply StronglySorted_inv in Hs as [Hs Hj].
    destruct (k <? j) eqn:E1; simpl; breflect.
    + rewrite Z.eqb_refl, (proj2 (Z.eqb_neq j k)) by lia.
      assert (al_get l k = None) as ->; [|done].
      clear -Hj E1. induction l as [|[i w] l IH]; simpl in *; [done|].
      apply Forall_cons in Hj as [? Hj].
      rewrite (proj2 (Z.eqb_neq i k)) by lia. by apply IH.
    + destruct (j =? k) eqn:E2; simpl; rewrite E2; auto.
Qed.

Lemma al_get_elem_of {V} (l : list (Z * V)) k v :
  al_get l k = Some v → (k, v) ∈ l.
Proof.
  induction l as [|[j u] l IH]; simpl; [done|]. cases; breflect; subst.
  - intros. simplify_eq. set_solver.
  - intros. set_solver.
Qed.

Lemma al_elem_of_get {V} (l : list (Z * V)) k v :
  al_sorted l → (k, v) ∈ l → al_get l k = Some v.
Proof.
  unfold al_sorted. induction l as [|[j u] l IH]; simpl; intros Hs Hin; [set_solver|].
  apply StronglySorted_inv in Hs as [Hs Hj].
  apply elem_of_cons in Hin as [?|Hin]; simplify_eq; [by rewrite Z.eqb_refl|].
  rewrite (proj2 (Z.eqb_neq j k)); [auto|]. intros ->.
  rewrite Forall_forall in Hj. assert (k < k); [|lia].
  apply Hj, list_elem_of_fmap. by exists (k, v).
Qed.

Lemma Forall_get_or_insert {V} (P : Z → Prop) (l : list (Z * V)) k v :
  Forall P (l.*1) → P k → Forall P ((al_get_or_insert l k v).*1).
Proof.
  induction l as [|[j u] l IH]; simpl; intros Hl Hk; [by constructor|].
  apply Forall_cons in Hl as [??]. cases; simpl; repeat constructor; auto.
Qed.

Lemma al_get_or_insert_sorted {V} (l : list (Z * V)) k v :
  al_sorted l → al_sorted (al_get_or_insert l k v).
Proof.
  unfold al_sorted. induction l as [|[j u] l IH]; simpl; intros Hs.
  - repeat constructor.
  - pose proof Hs as Hs0. apply StronglySorted_inv in Hs as [Hs Hj].
    destruct (k <? j) eqn:E1; breflect; simpl.
    + constructor; [done|]. constructor; [done|].
      eapply Forall_impl; [done|]. simpl; lia.
    + destruct (j =? k) eqn:E2; breflect; simpl; [by subst|].
      constructor; [auto|]. apply Forall_get_or_insert; [done|lia].
Qed.

(** ** List implementations *)

Module ListQueues.

Record list_injector (T : Type) := { li_q : list T; li_retries : nat }.
Arguments li_q {T}.
Arguments li_retries {T}.

#[export] Instance list_injector_ops T : Injector T (list_injector T) := {
  inj_new := {| li_q := []; li_retries := 0 |};
  inj_push q x := {| li_q := li_q q ++ [x]; li_retries := li_retries q |};
  inj_steal q :=
    match li_retries q with
    | S r => (StealRetry, {| li_q := li_q q; li_retries := r |})
    | O => match li_q q with
           | [] => (StealEmpty, q)
           | x :: l => (StealSuccess x, {| li_q := l; li_retries := 0 |})
           end
    end;
  inj_elems := li_q;
  inj_retries := li_retries;
}.

#[export] Instance list_injector_laws T : InjectorLaws T (list_injector T).
Proof.
  split; simpl; try done.
  all: intros [l [|r]]; simpl; try destruct l; naive_solver lia.
Qed.

(** Capacities are rounded up to a power of two; a busy queue refuses the
    given number of steals. *)
Record list_worker (T : Type) :=
  { lw_cap : Z; lw_q : list T; lw_busy : nat; lw_ok : Zlen lw_q ≤ lw_cap }.
Arguments lw_cap {T}.
Arguments lw_q {T}.
Arguments lw_busy {T}.
Arguments lw_ok {T}.

Definition lw_round (c : Z) : Z := 2 ^ Z.log2_up c.

Lemma lw_new_ok {T} c : Zlen (@nil T) ≤ lw_round c.
Proof. unfold Zlen, lw_round. simpl. apply Z.pow_nonneg. lia. Qed.

(** Rebuild a worker around a new content, provided it fits. *)
Definition lw_with {T} (w : list_worker T) (l : list T) (b : nat)
  : option (list_worker T) :=
  match decide (Zlen l ≤ lw_cap w) with
  | left H => Some {| lw_cap := lw_cap w; lw_q := l; lw_busy := b; lw_ok := H |}
  | right _ => None
  end.

Definition lw_push {T} (w : list_worker T) (x : T) : option (list_worker T) :=
  lw_with w (lw_q w ++ [x]) (lw_busy w).

Definition lw_pop {T} (w : list_worker T) : option T * list_worker T :=
  match lw_q w with
  | [] => (None, w)
  | x :: l => (Some x, default w (lw_with w l (lw_busy w)))
  end.

Definition lw_steal {T} (src dst : list_worker T) (f : Z → Z)
  : option Z * list_worker T * list_worker T :=
  match lw_busy src with
  | S b => (None, default src (lw_with src (lw_q src) b), dst)
  | O =>
      let n := Z.min (f (Zlen (lw_q src)))
                 (Z.min (Zlen (lw_q src)) (lw_cap dst - Zlen (lw_q dst))) in
      if n <=? 0 then (None, src, dst)
      else
        match lw_with src (drop (Z.to_nat n) (lw_q src)) 0,
              lw_with dst (lw_q dst ++ take (Z.to_nat n) (lw_q src)) (lw_busy dst)
        with
        | Some src', Some dst' => (Some n, src', dst')
        | _, _ => (None, src, dst)
        end
  end.

#[export] Instance list_worker_ops T : Worker T (list_worker T) := {
  w_new c := {| lw_cap := lw_round c; lw_q := []; lw_busy := 0;
                lw_ok := lw_new_ok c |};
  w_push := lw_push;
  w_pop := lw_pop;
  w_capacity := lw_cap;
  w_spare_capacity w := lw_cap w - Zlen (lw_q w);
  w_is_empty w := match lw_q w with [] => true | _ => false end;
  w_steal := lw_steal;
  w_busy w := match lw_busy w with O => false | S _ => true end;
  w_elems := lw_q;
}.

Lemma lw_with_some {T} (w w' : list_worker T) l b :
  lw_with w l b = Some w' → lw_q w' = l ∧ lw_cap w' = lw_cap w.
Proof. unfold lw_with. destruct (decide _); naive_solver. Qed.

Lemma lw_with_fits {T} (w : list_worker T) l b :
  Zlen l ≤ lw_cap w → ∃ w', lw_with w l b = Some w'.
Proof. unfold lw_with. intros. destruct (decide _); naive_solver. Qed.

Lemma lw_steal_cases {T} (src dst : list_worker T) f :
  (∃ n src' dst', lw_steal src dst f = (Some n, src', dst') ∧
     1 ≤ n ≤ f (Zlen (lw_q src)) ∧ n ≤ Zlen (lw_q src) ∧
     lw_q src' = drop (Z.to_nat n) (lw_q src) ∧ lw_cap src' = lw_cap src ∧
     lw_q dst' = lw_q dst ++ take (Z.to_nat n) (lw_q src) ∧ lw_cap dst' = lw_cap dst)
  ∨ (∃ src', lw_steal src dst f = (None, src', dst) ∧
     lw_q src' = lw_q src ∧ lw_cap src' = lw_cap src ∧
     (lw_busy src ≠ O ∨ lw_q src = [] ∨ lw_cap dst ≤ Zlen (lw_q dst)
      ∨ f (Zlen (lw_q src)) ≤ 0)).
Proof.
  unfold lw_steal. destruct (lw_busy src) as [|b].
  - set (n := Z.min _ _). destruct (n <=? 0) eqn:En; breflect.
    + right. exists src. split_and!; try done. right.
      destruct (lw_q src) eqn:E; [by left|]. right. subst n.
      autorewrite with oc in *. pose proof (Zlen_nonneg l). lia.
    + left. pose proof (lw_ok src). unfold Zlen in *.
      destruct (lw_with_fits src (drop (Z.to_nat n) (lw_q src)) 0) as [s' Hs'].
      { unfold Zlen. rewrite length_drop. lia. }
      destruct (lw_with_fits dst (lw_q dst ++ take (Z.to_nat n) (lw_q src)) (lw_busy dst))
        as [d' Hd'].
      { unfold Zlen. rewrite length_app, length_take. lia. }
      rewrite Hs', Hd'. apply lw_with_some in Hs' as [??], Hd' as [??].
      exists n, s', d'. split_and!; auto; lia.
  - right. destruct (lw_with_fits src (lw_q src) b (lw_ok src)) as [s' Hs'].
    rewrite Hs'. apply lw_with_some in Hs' as [??]. exists s'. naive_solver.
Qed.

#[export] Instance list_worker_laws T : WorkerLaws T (list_worker T).
Proof.
  split; simpl.
  - done.
  - intros c. unfold lw_round. destruct (decide (1 < c)).
    + pose proof (Z.log2_up_spec c ltac:(lia)). lia.
    + rewrite Z.log2_up_eqn0 by lia. lia.
  - intros w. apply lw_ok.
  - intros w x w' ?%lw_with_some. naive_solver.
  - intros w x. unfold lw_push, lw_with. autorewrite with oc.
    destruct (decide _) as [H|H]; pose proof H as H';
      rewrite Zlen_app, Zlen_cons, Zlen_nil in H'; split; intros; try done; lia.
  - intros w. unfold lw_pop. destruct (lw_q w) as [|x l] eqn:E; [done|]. simpl.
    destruct (lw_with_fits w l (lw_busy w)) as [w' Hw'].
    { pose proof (lw_ok w). rewrite E in *. autorewrite with oc in *. lia. }
    rewrite Hw'. simpl. by destruct (lw_with_some _ _ _ _ Hw').
  - intros w. unfold lw_pop. destruct (lw_q w) as [|x l] eqn:E; [done|]. simpl.
    unfold lw_with. by destruct (decide _).
  - done.
  - intros w. by destruct (lw_q w).
  - intros src dst f n src' dst' H.
    destruct (lw_steal_cases src dst f) as [(n0 & s0 & d0 & E & ? & ? & Hs & ? & Hd & ?)|(s0 & E & _)];
      rewrite E in H; simplify_eq.
    exists (take (Z.to_nat n) (lw_q src)). rewrite Hs, take_drop. split_and!; auto; try lia.
    unfold Zlen in *. rewrite length_take. lia.
  - intros src dst f src' dst' H.
    destruct (lw_steal_cases src dst f) as [(n0 & s0 & d0 & E & _)|(s0 & E & ? & ? & _)];
      rewrite E in H; simplify_eq. done.
  - intros src dst f src' dst' H.
    destruct (lw_steal_cases src dst f) as [(n0 & s0 & d0 & E & _)|(s0 & E & ? & ? & Hc)];
      rewrite E in H; simplify_eq.
    destruct Hc as [Hb|Hc]; [left; by destruct (lw_busy src)|by right].
Qed.

Record list_skipmap (V : Type) :=
  { ls_l : list (Z * V); ls_sorted : al_sorted ls_l }.
Arguments ls_l {V}.
Arguments ls_sorted {V}.

Lemma ls_new_sorted V : al_sorted (@nil (Z * V)).
Proof. constructor. Qed.

Lemma ls_set_sorted {V} (m : list_skipmap V) k v : al_sorted (al_set (ls_l m) k v).
Proof. unfold al_sorted. rewrite al_set_keys. apply ls_sorted. Qed.

#[export] Instance list_skipmap_ops : SkipMap list_skipmap := {
  sm_new V := {| ls_l := []; ls_sorted := ls_new_sorted V |};
  sm_iter V m := ls_l m;
  sm_get_or_insert V m k v :=
    {| ls_l := al_get_or_insert (ls_l m) k v;
       ls_sorted := al_get_or_insert_sorted _ k v (ls_sorted m) |};
  sm_set V m k v :=
    {| ls_l := al_set (ls_l m) k v; ls_sorted := ls_set_sorted m k v |};
}.

#[export] Instance list_skipmap_laws : SkipMapLaws list_skipmap.
Proof. split; simpl; try done. intros V m. apply ls_sorted. Qed.
End ListQueues.
