(* ===== verification/Interleave.v ===== *)
(** * Interleave: threads that share a state

    The other files run one method after another. Here a method is a program of
    atomic actions on a shared state (one load, one store, one call of a
    concurrent container), threads interleave their actions in any order, and a
    property is shown for every interleaving. The memory model is sequential
    consistency.

    [Actions] says what the atomic actions are; [Resources] says what a thread
    hands to the shared state with an action and what it gets back; [owns] is
    the discipline under which a program neither drops nor copies what it holds.
    [conserved] is the theorem that the discipline pays for: whatever the
    schedule, nothing is lost, copied or invented. *)

From stdpp Require Import sorting base numbers strings gmap list relations.
From S2P Require Import Prelude.

(** Permutations of appended blocks, by rotating the right-hand side. *)
Ltac perm_rotate n :=
  match goal with
  | |- ?l ≡ₚ ?l => reflexivity
  | |- ?x ++ ?a ≡ₚ ?x ++ ?b => apply Permutation_app_head; perm_rotate constr:(8%nat)
  | |- ?x ++ ?a ≡ₚ ?y ++ ?b =>
      lazymatch n with O => fail | S ?m =>
      rewrite (Permutation_app_comm y b); rewrite <- ?app_assoc; perm_rotate m end
  end.
Ltac perm :=
  lazymatch goal with
  | |- ?l ≡ₚ ?k =>
      rewrite <-(app_nil_r l), <-(app_nil_r k); rewrite <- ?app_assoc;
      perm_rotate constr:(8%nat)
  end.

Lemma concat_delete_perm {A} (ls : list (list A)) i l :
  ls !! i = Some l → concat ls ≡ₚ l ++ concat (delete i ls).
Proof.
  revert i. induction ls as [|k ls IH]; intros [|i] H; simplify_eq/=; [done|].
  rewrite (IH _ H). perm.
Qed.

(** ** Programs *)

(** [exec a σ] is [None] while the action has to wait. *)
Class Actions (S Act : Type) : Type := {
  resp : Act → Type;
  exec : ∀ a : Act, S → option (resp a * S);
}.

(** Why a thread stops without a result. *)
Inductive stop : Type :=
| Fuel
| Panics (msg : string).

Section programs.
Context {S Act : Type} `{!Actions S Act}.

Inductive prog (A : Type) : Type :=
| Ret (a : A)
| Do (act : Act) (k : resp act → prog A)
| Stop (s : stop).
#[global] Arguments Ret {A} a.
#[global] Arguments Do {A} act k.
#[global] Arguments Stop {A} s.

Fixpoint pbind {A B} (k : A → prog B) (p : prog A) : prog B :=
  match p with
  | Ret a => k a
  | Do act c => Do act (λ r, pbind k (c r))
  | Stop s => Stop s
  end.

#[global] Instance prog_ret : MRet prog := @Ret.
#[global] Instance prog_bind : MBind prog := @pbind.

(** One action as a program. *)
Definition act (a : Act) : prog (resp a) := Do a Ret.

(** ** Interleaving *)

Definition config (A : Type) : Type := list (prog A) * S.

Inductive step {A} : config A → config A → Prop :=
| step_thread i a k r ts σ σ' :
    ts !! i = Some (Do a k) → exec a σ = Some (r, σ') →
    step (ts, σ) (<[i:=k r]> ts, σ').

Definition reachable {A} : relation (config A) := rtc step.

(** The step of a given thread, and a whole schedule. *)
Definition step_of {A} (i : nat) (c : config A) : option (config A) :=
  match c.1 !! i with
  | Some (Do a k) => '(r, σ) ← exec a c.2; Some (<[i:=k r]> c.1, σ)
  | _ => None
  end.

Fixpoint run_schedule {A} (sched : list nat) (c : config A) : option (config A) :=
  match sched with
  | [] => Some c
  | i :: sched => c ← step_of i c; run_schedule sched c
  end.

Lemma step_of_step {A} i (c c' : config A) : step_of i c = Some c' → step c c'.
Proof.
  destruct c as [ts σ]. unfold step_of. simpl. intros H.
  destruct (ts !! i) as [[| |]|] eqn:Ei; try done.
  destruct (exec act0 σ) as [[r σ']|] eqn:Ex; simplify_eq/=. by econstructor.
Qed.

Lemma step_step_of {A} (c c' : config A) : step c c' → ∃ i, step_of i c = Some c'.
Proof. intros [i a k r ts σ σ' Hi Hx]. exists i. unfold step_of. simpl. by rewrite Hi, Hx. Qed.

Lemma run_schedule_reachable {A} sched (c c' : config A) :
  run_schedule sched c = Some c' → reachable c c'.
Proof.
  revert c. induction sched as [|i sched IH]; simpl; intros c H; simplify_eq; [constructor|].
  destruct (step_of i c) as [c1|] eqn:E; simplify_eq/=.
  eapply rtc_l; [by eapply step_of_step|by apply IH].
Qed.

(** The step of a thread whose next action is known. *)
Definition continue {A} (i : nat) (ts : list (prog A)) {X} (k : X → prog A)
  (x : option (X * S)) : option (config A) :=
  match x with Some (x, σ) => Some (<[i:=k x]> ts, σ) | None => None end.

Lemma step_of_do {A} i (ts : list (prog A)) σ (a : Act) (k : resp a → prog A) :
  ts !! i = Some (act a ≫= k) → step_of i (ts, σ) = continue i ts k (exec a σ).
Proof. intros H. unfold step_of. cbn [fst snd]. rewrite H. done. Qed.

Lemma reach_do {A} i (ts : list (prog A)) σ (a : Act) (k : resp a → prog A) x σ' c :
  ts !! i = Some (act a ≫= k) → exec a σ = Some (x, σ') →
  reachable (<[i:=k x]> ts, σ') c → reachable (ts, σ) c.
Proof.
  intros Hi Hx Hr. eapply rtc_l; [|exact Hr]. apply (step_of_step i).
  by rewrite (step_of_do i ts σ a k Hi), Hx.
Qed.

(** The results of a run in which every thread has returned, with what [f] sees
    of the state. *)
Definition observe {A X} (f : S → X) (c : option (config A)) : option (list A * X) :=
  match c with
  | Some (ts, σ) =>
      match mapM (λ t, match t with Ret a => Some a | _ => None end) ts with
      | Some outs => Some (outs, f σ)
      | None => None
      end
  | None => None
  end.

Lemma observe_reachable {A X} (f : S → X) sched (c : config A) outs x :
  observe f (run_schedule sched c) = Some (outs, x) →
  ∃ σ, reachable c (Ret <$> outs, σ) ∧ f σ = x.
Proof.
  destruct (run_schedule sched c) as [[ts σ]|] eqn:E; simpl; [|discriminate].
  apply run_schedule_reachable in E.
  destruct (mapM _ ts) as [outs'|] eqn:Em; [|discriminate]. injection 1 as <- <-.
  exists σ. split; [|done]. apply mapM_Some in Em.
  assert (ts = Ret <$> outs') as <-; [|done]. clear E.
  induction Em as [|t a ts outs Ht _ IH]; [done|]. by destruct t; simplify_eq/=.
Qed.

(** An invariant of the steps holds in every reachable configuration. *)
Lemma invariant_reachable {A} (P : config A → Prop) c c' :
  (∀ c1 c2, P c1 → step c1 c2 → P c2) → P c → reachable c c' → P c'.
Proof. intros HP Hc H. induction H; eauto. Qed.

(** Programs are finite, so every interleaving ends: a step replaces the program
    of one thread by what is left of it. *)
Definition next {A} (p' p : prog A) : Prop :=
  match p with Do a k => ∃ r, p' = k r | _ => False end.

Definition one_left {A} (ts' ts : list (prog A)) : Prop :=
  ∃ i p p', ts !! i = Some p ∧ next p' p ∧ ts' = <[i:=p']> ts.

Lemma one_left_wf {A} (ts : list (prog A)) : Acc one_left ts.
Proof.
  induction ts as [|t ts IH].
  { constructor. intros ts' (i & p & p' & H & _). by rewrite lookup_nil in H. }
  revert t. induction IH as [ts _ IH]. intros t.
  assert (∀ i p p', ts !! i = Some p → next p' p → one_left (<[i:=p']> ts) ts) as Hrest
    by (intros i p p' ??; by exists i, p, p').
  induction t as [x|a c IHt|s]; constructor; intros ts' ([|i] & p & p' & Hi & Hp & ->);
    simpl in *; try (by eapply IH, Hrest); injection Hi as <-; [done| |done].
  destruct Hp as [r ->]. apply IHt.
Qed.

Lemma steps_end {A} (c : config A) : sn step c.
Proof.
  destruct c as [ts σ]. revert σ. induction (one_left_wf ts) as [ts _ IH]. intros σ.
  constructor. intros c' H. unfold flip in H.
  apply step_step_of in H as [i Hi]. unfold step_of in Hi. simpl in Hi.
  destruct (ts !! i) as [p|] eqn:E; [|discriminate].
  destruct p as [x|a k|s]; [discriminate| |discriminate].
  destruct (exec a σ) as [[r σ']|]; [|discriminate]. injection Hi as <-.
  apply IH. exists i, (Do a k), (k r). split_and!; [done|by exists r|done].
Qed.

(** ** A thread that runs alone *)

Fixpoint run_alone {A} (p : prog A) (σ : S) : option (A * S) :=
  match p with
  | Ret a => Some (a, σ)
  | Do a k => '(r, σ) ← exec a σ; run_alone (k r) σ
  | Stop _ => None
  end.

Lemma run_alone_bind {A B} (p : prog A) (k : A → prog B) σ :
  run_alone (p ≫= k) σ = '(a, σ) ← run_alone p σ; run_alone (k a) σ.
Proof.
  unfold mbind at 1, prog_bind. revert σ. induction p as [a|a c IH|s]; intros σ; simpl; try done.
  destruct (exec a σ) as [[r σ']|]; [|done]. simpl. apply IH.
Qed.

Lemma run_alone_reachable {A} i (p : prog A) ts σ a σ' :
  ts !! i = Some p → run_alone p σ = Some (a, σ') →
  reachable (ts, σ) (<[i:=Ret a]> ts, σ').
Proof.
  revert ts σ. induction p as [a0|a0 c IH|s]; intros ts σ Hi Hr; simplify_eq/=.
  - rewrite list_insert_id by done. constructor.
  - destruct (exec a0 σ) as [[r σ1]|] eqn:Ex; simplify_eq/=.
    eapply rtc_l; [by eapply step_thread|].
    replace (<[i:=Ret a]> ts) with (<[i:=Ret a]> (<[i:=c r]> ts))
      by apply list_insert_insert_eq.
    apply (IH r); [|done]. apply list_lookup_insert_eq. by eapply lookup_lt_Some.
Qed.
End programs.

#[global] Arguments prog {S} Act {_} A.
#[global] Arguments config {S} Act {_} A.

(** ** Ownership *)

(** [give]: what the thread hands over with the action; [got]: what it has
    back with the response; [held]: what the shared state holds. *)
Class Resources (S Act R : Type) `{!Actions S Act} : Type := {
  give : Act → list R;
  got : ∀ a : Act, resp a → list R;
  held : S → list R;
  valid : list R → Prop;
}.

Class ResourceLaws (S Act R : Type) `{!Actions S Act, !Resources S Act R} : Prop := {
  #[global] valid_proper :: Proper ((≡ₚ) ==> iff) (valid (Act := Act) (S := S) (R := R));
  exec_conserves (a : Act) (σ : S) r σ' rest :
    valid (S := S) (Act := Act) (give (S := S) a ++ held (Act := Act) σ ++ rest) →
    exec a σ = Some (r, σ') →
    give (S := S) a ++ held (Act := Act) σ ≡ₚ got a r ++ held (Act := Act) σ';
}.

Section ownership.
Context {S Act R : Type} `{!Actions S Act, !Resources S Act R}.
#[local] Abbreviation give := (give (S := S) (Act := Act) (R := R)).
#[local] Abbreviation held := (held (S := S) (Act := Act) (R := R)).
#[local] Abbreviation valid := (valid (S := S) (Act := Act) (R := R)).

(** [owns res l p]: started with [l] in hand, [p] never drops, copies or
    invents a resource and ends with what [res] says of its result. *)
Fixpoint owns {A} (res : A → list R → Prop) (l : list R) (p : prog Act A) : Prop :=
  match p with
  | Ret a => ∃ l', l ≡ₚ l' ∧ res a l'
  | Do a k => ∃ l', l ≡ₚ give a ++ l' ∧ ∀ r, owns res (got a r ++ l') (k r)
  | Stop _ => True
  end.

#[global] Arguments owns {A} res l p : simpl never.

#[global] Instance owns_proper {A} (res : A → list R → Prop) :
  Proper ((≡ₚ) ==> (=) ==> iff) (owns res).
Proof.
  intros l1 l2 Hl p ? <-. destruct p as [a|a k|s]; unfold owns; [| |done].
  all: by setoid_rewrite Hl.
Qed.

Lemma owns_ret {A} (res : A → list R → Prop) l a : res a l → owns res l (Ret a).
Proof. intros. by exists l. Qed.

Lemma owns_do {A} (res : A → list R → Prop) l l' a (k : resp a → prog Act A) :
  l ≡ₚ give a ++ l' → (∀ r, owns res (got a r ++ l') (k r)) → owns res l (Do a k).
Proof. intros. by exists l'. Qed.

Lemma owns_bind {A B} (res : A → list R → Prop) (res' : B → list R → Prop)
    l fr (p : prog Act A) (k : A → prog Act B) :
  owns res l p → (∀ a l1, res a l1 → owns res' (l1 ++ fr) (k a)) →
  owns res' (l ++ fr) (p ≫= k).
Proof.
  unfold mbind, prog_bind. intros Hp Hk. revert l Hp.
  induction p as [a|a c IH|s]; intros l Hp; [| |done].
  - destruct Hp as (l' & Hl & Ha). eapply owns_proper; [by rewrite Hl|done|by apply Hk].
  - destruct Hp as (l' & Hl & Hc). exists (l' ++ fr). rewrite Hl, app_assoc. split; [done|].
    intros r. rewrite app_assoc. by apply IH.
Qed.

(** The step of an action in front of a program. *)
Lemma owns_act {B} (res : B → list R → Prop) l l' a (k : resp a → prog Act B) :
  l ≡ₚ give a ++ l' → (∀ r, owns res (got a r ++ l') (k r)) →
  owns res l (act a ≫= k).
Proof. intros. by apply owns_do with l'. Qed.

(** Every thread owns its share, and the shares and the shared state make up
    the total. *)
Definition balanced {A} (res : A → list R → Prop) (tot : list R) (c : config Act A)
  : Prop :=
  ∃ ls, Forall2 (owns res) ls c.1 ∧ concat ls ++ held c.2 ≡ₚ tot.

(** What two threads are about to hand over is in the total twice. *)
Lemma give_disjoint {A} (res : A → list R → Prop) tot ts σ i j a a' k k' :
  balanced res tot (ts, σ) → ts !! i = Some (Do a k) → ts !! j = Some (Do a' k') →
  i ≠ j → ∃ rest, give a ++ give a' ++ rest ≡ₚ tot.
Proof.
  intros (ls & Ho & Ht) Hi Hj Hij. simpl in *.
  destruct (Forall2_lookup_r _ _ _ _ _ Ho Hi) as (li & Hli & (ri & Ei & _)).
  destruct (Forall2_lookup_r _ _ _ _ _ Ho Hj) as (lj & Hlj & (rj & Ej & _)).
  pose proof (concat_delete_perm (<[i:=[]]> ls) j lj) as Hp.
  rewrite list_lookup_insert_ne in Hp by done. specialize (Hp Hlj).
  pose proof (concat_insert_perm ls i li [] Hli) as Hq. simpl in Hq.
  exists (ri ++ rj ++ concat (delete j (<[i:=[]]> ls)) ++ held σ).
  rewrite <-Ht, <-Hq, Hp, Ei, Ej. perm.
Qed.

(** When every thread has returned, the results account for the total. *)
Lemma balanced_done {A} (res : A → list R → Prop) tot (outs : list A) σ :
  balanced res tot (Ret <$> outs, σ) →
  ∃ ls, Forall2 res outs ls ∧ concat ls ++ held σ ≡ₚ tot.
Proof.
  intros (ls & Ho & Ht). simpl in *.
  assert (∃ ls', Forall2 res outs ls' ∧ concat ls ≡ₚ concat ls') as (ls' & H1 & H2).
  { clear Ht. revert ls Ho. induction outs as [|a outs IH]; intros ls Ho.
    - apply Forall2_nil_inv_r in Ho as ->. by exists [].
    - apply Forall2_cons_inv_r in Ho as (l & ls0 & (l' & Hl & Hr) & Ho & ->).
      destruct (IH _ Ho) as (ls' & ? & Hc). exists (l' :: ls'). split; [by constructor|].
      simpl. by rewrite Hl, Hc. }
  exists ls'. by rewrite <-H2.
Qed.

(** At any moment, what the returned threads have is a part of the total. *)
Definition returned_with {A} (f : A → list R) (t : prog Act A) : list R :=
  match t with Ret a => f a | _ => [] end.

Lemma balanced_returned {A} (f : A → list R) tot ts σ :
  balanced (λ a l, l = f a) tot (ts, σ) →
  concat (returned_with f <$> ts) ++ held σ ⊆+ tot.
Proof.
  intros (ls & Ho & Ht). simpl in *. rewrite <-Ht. apply submseteq_app; [|done]. clear Ht.
  induction Ho as [|l t ls ts Hl _ IH]; simpl; [done|]. apply submseteq_app; [|done].
  destruct t as [a| |]; simpl; [|apply submseteq_nil_l..].
  by destruct Hl as (l' & -> & ->).
Qed.

Context `{!ResourceLaws S Act R}.

Lemma balanced_step {A} (res : A → list R → Prop) tot (c c' : config Act A) :
  valid tot → balanced res tot c → step c c' → balanced res tot c'.
Proof.
  intros Hv (ls & Ho & Ht) Hs. destruct Hs as [i a k r ts σ σ' Hi Hx]. simpl in *.
  destruct (Forall2_lookup_r _ _ _ _ _ Ho Hi) as (l & Hl & (l' & El & Hk)).
  exists (<[i:=got a r ++ l']> ls). split; [by apply Forall2_insert|simpl].
  pose proof (concat_insert_perm ls i l (got a r ++ l') Hl) as Hp.
  assert (give a ++ held σ ≡ₚ got a r ++ held σ') as Hc.
  { apply (exec_conserves a σ r σ' (l' ++ concat (delete i ls))); [|done].
    refine (proj2 (valid_proper _ tot _) Hv).
    rewrite <-Ht, (concat_delete_perm ls i l Hl), El. perm. }
  rewrite <-Ht. rewrite El in Hp. apply (Permutation_app_inv_l (give a ++ l')).
  rewrite app_assoc, Hp. transitivity ((got a r ++ held σ') ++ l' ++ concat ls); [perm|].
  rewrite <-Hc. perm.
Qed.

Theorem conserved {A} (res : A → list R → Prop) tot (c c' : config Act A) :
  valid tot → balanced res tot c → reachable c c' → balanced res tot c'.
Proof.
  intros Hv Hb Hr. apply (invariant_reachable (balanced res tot) c c'); [|done|done].
  intros c1 c2 H1 H2. by eapply balanced_step.
Qed.
End ownership.

(** ** A mutex with a condition variable

    [Arc<(Mutex<V>, Condvar)>]: the value, how many threads sleep, and how many
    of them have been notified. A thread that sleeps has left the mutex; a
    notification wakes one sleeper, and the end of a time limit wakes without
    one. *)

Record cell (V : Type) : Type := mkCell {
  c_value : V;
  c_asleep : nat;
  c_notified : nat;
}.
Arguments mkCell {V} c_value c_asleep c_notified.
Arguments c_value {V} c.
Arguments c_asleep {V} c.
Arguments c_notified {V} c.

(** What [wait_while] finds when it looks under the mutex. *)
Inductive looked (V : Type) : Type :=
| LDone (v : V)
| LTimedOut
| LAsleep.
Arguments LDone {V} v.
Arguments LTimedOut {V}.
Arguments LAsleep {V}.

Section condvar.
Context {V : Type}.
Implicit Types c : cell V.

(** [wait_while(pending)]: go on, give up, or fall asleep, which leaves the
    mutex. *)
Definition look (pending : V → bool) (expired : bool) c : option (looked V * cell V) :=
  Some (if pending (c_value c) then
          if expired then (LTimedOut, c)
          else (LAsleep, mkCell (c_value c) (S (c_asleep c)) (c_notified c))
        else (LDone (c_value c), c)).

(** Wake up, because of a notification or because the time is over. *)
Definition wake (expired : bool) c : option (unit * cell V) :=
  match c_asleep c, c_notified c with
  | S n, S m => Some (tt, mkCell (c_value c) n m)
  | S n, O => if expired then Some (tt, mkCell (c_value c) n O) else None
  | O, _ => None
  end.

(** Set the value and [notify_one], under the mutex. *)
Definition signal (v : V) c : option (unit * cell V) :=
  Some (tt, mkCell v (c_asleep c)
              (if bool_decide (c_notified c < c_asleep c)%nat
               then S (c_notified c) else c_notified c)).

Definition with_cell {A} (cs : list (cell V)) (a : nat) (f : cell V → option (A * cell V))
  : option (A * list (cell V)) :=
  match cs !! a with
  | Some c => match f c with
              | Some (r, c) => Some (r, <[a:=c]> cs)
              | None => None
              end
  | None => None
  end.

Lemma with_cell_at {A} cs a c (f : cell V → option (A * cell V)) :
  cs !! a = Some c →
  with_cell cs a f = (match f c with Some (r, c) => Some (r, <[a:=c]> cs) | None => None end).
Proof. intros H. unfold with_cell. by rewrite H. Qed.

Lemma set_cell_at (cs : list (cell V)) a c c' : cs !! a = Some c → <[a:=c']> cs !! a = Some c'.
Proof. intros H. apply list_lookup_insert_eq. by eapply lookup_lt_Some. Qed.
End condvar.
