(* ===== verification/WorkSteal.v ===== *)
(** * WorkSteal: the unordered work-stealing queue

    Models [core/src/common/work_steal.rs]: [WorkStealQueue] (a shared FIFO
    with a separate element counter and one bounded FIFO per thread) and
    [LocalQueue] (a thread's handle). The methods run to completion one after
    another; the interleaving of the atomic steps is modelled for the
    priority queue, in [QueueRaces]. A handle refers to its local queue by position. *)

From stdpp Require Import sorting base numbers strings gmap list.
From S2P Require Import Prelude QueueIface.

Section work_steal.
Context {T I W : Type} `{!Injector T I, !Worker T W}.

#[local] Instance worker_inhabited : Inhabited W := populate (w_new 0).

(** ** WorkStealQueue *)

Record WorkStealQueue : Type := mkWSQ {
  shared_queue : I;
  ws_len : Z;
  local_queues : list W;
  ws_index : Z;
}.

Definition set_shared (q : WorkStealQueue) (sq : I) : WorkStealQueue :=
  mkWSQ sq (ws_len q) (local_queues q) (ws_index q).
Definition set_len (q : WorkStealQueue) (n : Z) : WorkStealQueue :=
  mkWSQ (shared_queue q) n (local_queues q) (ws_index q).
Definition set_local (q : WorkStealQueue) (i : nat) (w : W) : WorkStealQueue :=
  mkWSQ (shared_queue q) (ws_len q) (<[i:=w]> (local_queues q)) (ws_index q).

Definition ws_new (local_queues_size local_capacity : Z) : WorkStealQueue :=
  mkWSQ inj_new 0
    (replicate (Z.to_nat local_queues_size) (w_new local_capacity)) 0.

Definition ws_is_empty (q : WorkStealQueue) : bool := ws_len q =? 0.

Definition ws_push (item : T) (q : WorkStealQueue) : WorkStealQueue :=
  let q := set_shared q (inj_push (shared_queue q) item) in
  set_len q (sat_add usize_max (ws_len q) 1).

(** The retry loop of [pop]. *)
Fixpoint ws_pop_loop (fuel : nat) (q : WorkStealQueue)
  : option (option T * WorkStealQueue) :=
  match fuel with
  | O => None
  | S fuel =>
      match inj_steal (shared_queue q) with
      | (StealSuccess item, sq) =>
          let q := set_shared q sq in
          Some (Some item, set_len q (sat_sub (ws_len q) 1))
      | (StealRetry, sq) => ws_pop_loop fuel (set_shared q sq)
      | (StealEmpty, sq) => Some (None, set_shared q sq)
      end
  end.

Definition ws_pop (fuel : nat) (q : WorkStealQueue)
  : option (option T * WorkStealQueue) :=
  if ws_is_empty q then Some (None, q) else ws_pop_loop fuel q.

(** ** LocalQueue *)

Record LocalQueue : Type := mkLQ {
  lq_tick : Z;
  lq_stealing : bool;
  lq_queue : nat;
}.

(** [local_queue]; [None] when there is no local queue to hand out (the
    remainder by zero panics). *)
Definition local_queue (q : WorkStealQueue) : option (LocalQueue * WorkStealQueue) :=
  let index := ws_index q in
  let ws_index' :=
    if index =? usize_max then 0 else wrap 64 (index + 1) in
  let q := mkWSQ (shared_queue q) (ws_len q) (local_queues q) ws_index' in
  if Zlen (local_queues q) =? 0 then None
  else
    let index := Z.to_nat (index mod Zlen (local_queues q)) in
    _ ← local_queues q !! index;
    Some (mkLQ 0 false index, q).

Definition my_queue (l : LocalQueue) (q : WorkStealQueue) : W :=
  local_queues q !!! lq_queue l.

Definition my_pop (l : LocalQueue) (q : WorkStealQueue) : option T * WorkStealQueue :=
  let '(v, w) := w_pop (my_queue l q) in (v, set_local q (lq_queue l) w).

Definition lq_is_empty (l : LocalQueue) (q : WorkStealQueue) : bool :=
  w_is_empty (my_queue l q).

Definition lq_is_full (l : LocalQueue) (q : WorkStealQueue) : bool :=
  w_spare_capacity (my_queue l q) =? 0.

Definition lq_len (l : LocalQueue) (q : WorkStealQueue) : Z :=
  sat_sub (w_capacity (my_queue l q)) (w_spare_capacity (my_queue l q)).

Definition max_steal (l : LocalQueue) (q : WorkStealQueue) : Z :=
  sat_sub (sat_add usize_max (w_capacity (my_queue l q)) 1 / 2) (lq_len l q).

Definition can_steal (l : LocalQueue) (q : WorkStealQueue) : bool :=
  sat_add usize_max (w_capacity (my_queue l q)) 1 / 2
    <=? w_spare_capacity (my_queue l q).

(** [compare_exchange(false, true)]. *)
Definition try_lock (l : LocalQueue) : bool * LocalQueue :=
  if lq_stealing l then (false, l)
  else (true, mkLQ (lq_tick l) true (lq_queue l)).

Definition release_lock (l : LocalQueue) : LocalQueue :=
  mkLQ (lq_tick l) false (lq_queue l).

(** [for _ in 0..count]: pop one local element and push it to the shared queue. *)
Fixpoint spill (n : nat) (l : LocalQueue) (q : WorkStealQueue) : WorkStealQueue :=
  match n with
  | O => q
  | S n =>
      let '(v, q) := my_pop l q in
      let q := match v with Some item => ws_push item q | None => q end in
      spill n l q
  end.

Definition lq_push (item : T) (l : LocalQueue) (q : WorkStealQueue) : WorkStealQueue :=
  match w_push (my_queue l q) item with
  | Some w => set_local q (lq_queue l) w
  | None =>
      let count := lq_len l q / 2 in
      let q := spill (Z.to_nat count) l q in
      ws_push item q
  end.

(** [tick]: the wrapping [fetch_add], then the reset at the limit. *)
Definition tick (l : LocalQueue) : Z * LocalQueue :=
  let val := lq_tick l in
  let l := mkLQ (wrap 32 (val + 1)) (lq_stealing l) (lq_queue l) in
  if val =? u32_max then (0, mkLQ 0 (lq_stealing l) (lq_queue l))
  else (sat_add u32_max val 1, l).

(** [std::ptr::eq(&raw const another, &raw const self.queue)] compares the
    addresses of two reference variables, a local one and a field, not the
    queues they refer to: it is never true. *)
Definition ptr_eq_another_self : bool := false.

(** The [for i in 0..num] loop over the siblings, the given positions being
    [(start + i) % num]; [true] when a steal succeeded. *)
Fixpoint steal_loop (idxs : list nat) (l : LocalQueue) (q : WorkStealQueue)
  : bool * WorkStealQueue :=
  match idxs with
  | [] => (false, q)
  | i :: idxs =>
      match local_queues q !! i with
      | None => steal_loop idxs l q
      | Some another =>
          if negb (can_steal l q) then (false, q)
          else if ptr_eq_another_self then steal_loop idxs l q
          else if w_is_empty another then steal_loop idxs l q
          else
            let '(r, another', mine) :=
              w_steal another (my_queue l q) (λ n,
                Z.min (Z.min n (max_steal l q))
                  (sat_add usize_max
                     (sat_sub (w_capacity another) (w_spare_capacity another)) 1
                   / 2)) in
            let q := set_local (set_local q i another') (lq_queue l) mine in
            match r with
            | Some _ => (true, q)
            | None => steal_loop idxs l q
            end
      end
  end.

Definition steal_order (start : Z) (num : Z) : list nat :=
  (λ i, Z.to_nat ((start + i) mod num)) <$> seqZ 0 num.

(** The second half of [pop], run when the own queue is empty: steal from the
    siblings under the lock, otherwise fall back to the shared queue. *)
Definition pop_steal (fuel : nat) (start : Z) (l : LocalQueue) (q : WorkStealQueue)
  : option (option T * LocalQueue * WorkStealQueue) :=
  let '(locked, l) := try_lock l in
  let '(stolen, q) :=
    if locked then steal_loop (steal_order start (Zlen (local_queues q))) l q
    else (false, q) in
  let l := if locked then release_lock l else l in
  if stolen then
    let '(v, q) := my_pop l q in Some (v, l, q)
  else
    last ← ws_pop fuel q;
    let '(v, q) := last in Some (v, l, q).

(** [pop]; [start] is [rand::rng().random_range(0..num)]. *)
Definition lq_pop (fuel : nat) (start : Z) (l : LocalQueue) (q : WorkStealQueue)
  : option (option T * LocalQueue * WorkStealQueue) :=
  let '(t, l) := tick l in
  first ← (if t mod 61 =? 0 then ws_pop fuel q else Some (None, q));
  match first with
  | (Some val, q) => Some (Some val, l, q)
  | (None, q) =>
      match my_pop l q with
      | (Some val, q) => Some (Some val, l, q)
      | (None, q) => pop_steal fuel start l q
      end
  end.
End work_steal.

Arguments WorkStealQueue : clear implicits.

(** ** Invariant and contents *)

Section properties.
Context {T I W : Type} `{!Injector T I, !Worker T W}
  `{!InjectorLaws T I, !WorkerLaws T W}.
#[local] Existing Instance worker_inhabited.
Implicit Types (q : WorkStealQueue I W) (l : LocalQueue).

(** Everything the queue holds: the local queues in order, then the shared one. *)
Definition ws_elems q : list T :=
  concat (w_elems <$> local_queues q) ++ inj_elems (shared_queue q).

(** The counter is the number of shared elements, and every local queue has
    room for at least one element. *)
Definition ws_wf q : Prop :=
  ws_len q = Zlen (inj_elems (shared_queue q))
  ∧ Forall (λ w, 1 ≤ w_capacity w) (local_queues q).

(** The handle refers to an existing local queue. *)
Definition lq_wf l q : Prop := (lq_queue l < length (local_queues q))%nat.

Lemma my_queue_lookup l q :
  lq_wf l q → local_queues q !! lq_queue l = Some (my_queue l q).
Proof. apply list_lookup_lookup_total_lt. Qed.

Lemma ws_pop_loop_spec fuel q :
  (inj_retries (shared_queue q) < fuel)%nat →
  ∃ v q', ws_pop_loop fuel q = Some (v, q')
    ∧ local_queues q' = local_queues q ∧ ws_index q' = ws_index q
    ∧ match v with
      | Some x => inj_elems (shared_queue q) = x :: inj_elems (shared_queue q')
                  ∧ ws_len q' = sat_sub (ws_len q) 1
      | None => inj_elems (shared_queue q) = [] ∧ inj_elems (shared_queue q') = []
                ∧ ws_len q' = ws_len q
      end.
Proof.
  revert q. induction fuel as [|fuel IH]; intros q Hf; [lia|]. simpl.
  destruct (inj_steal (shared_queue q)) as [[x| |] sq] eqn:E.
  - eexists _, _. split_and!; try done. simpl. by apply inj_steal_success in E.
  - apply inj_steal_retry in E as [He Hr].
    destruct (IH (set_shared q sq)) as (v & q' & -> & ? & ? & Hv); [simpl; lia|].
    exists v, q'. simpl in *. rewrite He in Hv. done.
  - apply inj_steal_empty in E. eexists _, _. naive_solver.
Qed.

(** [pop] of the shared queue is the head of the FIFO, and [None] exactly when
    the FIFO is empty. *)
Lemma ws_pop_spec fuel q :
  ws_wf q → (inj_retries (shared_queue q) < fuel)%nat →
  ∃ v q', ws_pop fuel q = Some (v, q') ∧ ws_wf q'
    ∧ local_queues q' = local_queues q
    ∧ match v with
      | Some x => inj_elems (shared_queue q) = x :: inj_elems (shared_queue q')
      | None => inj_elems (shared_queue q) = [] ∧ inj_elems (shared_queue q') = []
                ∧ ws_len q' = 0
      end.
Proof.
  intros [Hl Hc] Hf. unfold ws_pop, ws_is_empty.
  destruct (ws_len q =? 0) eqn:E; breflect.
  - assert (inj_elems (shared_queue q) = []) by (apply Zlen_zero; lia).
    by exists None, q.
  - destruct (ws_pop_loop_spec fuel q Hf) as (v & q' & -> & Hq & ? & Hv).
    exists v, q'. split_and!; try done.
    + split; [|by rewrite Hq]. destruct v as [x|].
      * destruct Hv as [He ->]. rewrite Hl, He. autorewrite with oc.
        pose proof (Zlen_nonneg (inj_elems (shared_queue q'))). unfold sat_sub. lia.
      * destruct Hv as (He & -> & ->). by rewrite Hl, He.
    + destruct v; [naive_solver|]. destruct Hv as (He & ? & ?).
      rewrite He in Hl. done.
Qed.

Lemma ws_push_elems q x : ws_elems (ws_push x q) ≡ₚ x :: ws_elems q.
Proof.
  unfold ws_elems. simpl. rewrite inj_push_elems, app_assoc.
  by rewrite <-Permutation_cons_append.
Qed.

Lemma ws_push_wf q x :
  ws_wf q → ws_len q < usize_max → ws_wf (ws_push x q).
Proof.
  intros [Hl Hc] Hm. split; [|done]. simpl. rewrite inj_push_elems.
  autorewrite with oc. unfold sat_add. lia.
Qed.

(** Contents after an update of one local queue. *)
Lemma set_local_elems q i w0 w (k : list T) :
  local_queues q !! i = Some w0 → w_elems w0 ≡ₚ k ++ w_elems w →
  ws_elems q ≡ₚ k ++ ws_elems (set_local q i w).
Proof.
  intros Hi Hw. unfold ws_elems. simpl. rewrite list_fmap_insert, app_assoc.
  apply Permutation_app_tail. apply concat_insert_remove with (w_elems w0); [|done].
  by rewrite list_lookup_fmap, Hi.
Qed.

Lemma set_local_elems_add q i w0 w (k : list T) :
  local_queues q !! i = Some w0 → w_elems w ≡ₚ k ++ w_elems w0 →
  ws_elems (set_local q i w) ≡ₚ k ++ ws_elems q.
Proof.
  intros Hi Hw. unfold ws_elems. simpl. rewrite list_fmap_insert, app_assoc.
  apply Permutation_app_tail. apply concat_insert_add with (w_elems w0); [|done].
  by rewrite list_lookup_fmap, Hi.
Qed.

(** The local pop: the head of the own queue. *)
Lemma my_pop_spec l q v q' :
  ws_wf q → lq_wf l q → my_pop l q = (v, q') →
  ws_wf q' ∧ lq_wf l q' ∧ shared_queue q' = shared_queue q ∧ ws_len q' = ws_len q
  ∧ match v with
    | Some x => ws_elems q ≡ₚ x :: ws_elems q'
                ∧ ∃ r, w_elems (my_queue l q) = x :: r ∧ w_elems (my_queue l q') = r
    | None => ws_elems q ≡ₚ ws_elems q' ∧ w_elems (my_queue l q) = []
              ∧ w_elems (my_queue l q') = []
    end.
Proof.
  intros [Hl Hc] Hw. unfold my_pop. pose proof (my_queue_lookup _ _ Hw) as Hm.
  pose proof (w_pop_elems (my_queue l q)) as Hp.
  pose proof (w_pop_capacity (T:=T) (my_queue l q)) as Hcap.
  destruct (w_pop (my_queue l q)) as [u w'] eqn:E. simpl in *. intros ?; simplify_eq.
  assert (my_queue l (set_local q (lq_queue l) w') = w') as Hmy.
  { unfold my_queue. simpl. by apply list_lookup_total_insert_eq. }
  split_and!; try done.
  - split; [done|]. simpl. apply Forall_insert; [done|]. rewrite Hcap.
    rewrite Forall_lookup in Hc. eauto.
  - unfold lq_wf. simpl. by rewrite length_insert.
  - destruct (w_elems (my_queue l q)) as [|x r] eqn:Ee; destruct Hp as [-> Hp].
    + rewrite Hmy. split_and!; try done.
      apply (set_local_elems _ _ _ w' [] Hm). by rewrite Ee, Hp.
    + rewrite Hmy. split; [|by exists r].
      apply (set_local_elems _ _ _ w' [x] Hm). by rewrite Ee, Hp.
Qed.

Lemma my_pop_lengths l q v q' :
  my_pop l q = (v, q') → length (local_queues q') = length (local_queues q).
Proof.
  unfold my_pop. destruct (w_pop _) as [u w]. intros; simplify_eq. apply length_insert.
Qed.

Lemma my_pop_lookup_ne l q v q' i :
  my_pop l q = (v, q') → i ≠ lq_queue l →
  local_queues q' !! i = local_queues q !! i.
Proof.
  unfold my_pop. destruct (w_pop _) as [u w]. intros; simplify_eq.
  by apply list_lookup_insert_ne.
Qed.

(** ** LocalQueue::push *)

Lemma spill_spec n l q :
  ws_wf q → lq_wf l q → ws_len q + Z.of_nat n ≤ usize_max →
  ws_wf (spill n l q) ∧ lq_wf l (spill n l q)
  ∧ ws_elems (spill n l q) ≡ₚ ws_elems q
  ∧ ws_len (spill n l q) ≤ ws_len q + Z.of_nat n.
Proof.
  revert q. induction n as [|n IH]; intros q Hq Hl Hm; simpl; [auto with lia|].
  destruct (my_pop l q) as [v q1] eqn:E.
  destruct (my_pop_spec _ _ _ _ Hq Hl E) as (Hq1 & Hl1 & _ & Hlen & Hv).
  destruct v as [x|].
  - destruct Hv as [Hv _].
    destruct (IH (ws_push x q1)) as (? & ? & He & Hle).
    + apply ws_push_wf; [done|lia].
    + done.
    + simpl. unfold sat_add. lia.
    + split_and!; try done.
      * by rewrite He, ws_push_elems, Hv.
      * simpl in Hle. unfold sat_add in Hle. lia.
  - destruct Hv as (Hv & _). destruct (IH q1) as (? & ? & He & Hle); try done; [lia|].
    split_and!; try done; [by rewrite He, Hv|lia].
Qed.

Lemma lq_len_spec l q : lq_len l q = Zlen (w_elems (my_queue l q)).
Proof.
  unfold lq_len, sat_sub. rewrite w_spare_spec.
  pose proof (Zlen_nonneg (w_elems (my_queue l q))). lia.
Qed.

(** [LocalQueue::push] never loses or duplicates work: afterwards the local
    queues and the shared queue together hold exactly the old elements and
    the new one, whether the element fits locally or half of the queue is
    spilled to the shared queue first, and the shared counter stays exact. *)
Theorem lq_push_conserves l q x :
  ws_wf q → lq_wf l q →
  ws_len q + w_capacity (my_queue l q) < usize_max →
  ws_elems (lq_push x l q) ≡ₚ x :: ws_elems q
  ∧ ws_wf (lq_push x l q) ∧ lq_wf l (lq_push x l q).
Proof.
  intros Hq Hl Hm. unfold lq_push. pose proof (my_queue_lookup _ _ Hl) as Hi.
  destruct (w_push (my_queue l q) x) as [w|] eqn:E.
  - apply w_push_some in E as [He Hcap]. split_and!.
    + apply (set_local_elems_add _ _ _ _ [x] Hi).
      rewrite He. symmetry. apply Permutation_cons_append.
    + destruct Hq as [? Hc]. split; [done|]. simpl. apply Forall_insert; [done|].
      rewrite Hcap. exact (Forall_lookup_1 _ _ _ _ Hc Hi).
    + unfold lq_wf. simpl. by rewrite length_insert.
  - pose proof (w_len_capacity (T:=T) (my_queue l q)).
    pose proof (Zlen_nonneg (w_elems (my_queue l q))).
    assert (lq_len l q / 2 ≤ w_capacity (my_queue l q)).
    { rewrite lq_len_spec. dlia. }
    destruct (spill_spec (Z.to_nat (lq_len l q / 2)) l q Hq Hl) as (Hw & ? & He & ?).
    { rewrite lq_len_spec in *. dlia. }
    split_and!.
    + by rewrite ws_push_elems, He.
    + apply ws_push_wf; [done|]. rewrite lq_len_spec in *. dlia.
    + done.
Qed.

(** ** LocalQueue::pop *)

Lemma tick_queue l t l' : tick l = (t, l') → lq_queue l' = lq_queue l ∧ lq_stealing l' = lq_stealing l.
Proof. unfold tick. cases; naive_solver. Qed.

(** No other thread is in the middle of a steal from a sibling of [l]. *)
Definition siblings_idle l q : Prop :=
  ∀ i w, i ≠ lq_queue l → local_queues q !! i = Some w → w_busy w = false.

(** Stealing moves elements between local queues and makes the own queue
    non-empty exactly when it reports success. *)
Lemma steal_loop_spec idxs l q b q' :
  ws_wf q → lq_wf l q → w_elems (my_queue l q) = [] →
  siblings_idle l q →
  steal_loop idxs l q = (b, q') →
  ws_wf q' ∧ lq_wf l q' ∧ ws_elems q ≡ₚ ws_elems q'
  ∧ shared_queue q' = shared_queue q
  ∧ if b then w_elems (my_queue l q') ≠ []
    else q' = q ∧ ∀ i w, i ∈ idxs → local_queues q !! i = Some w → w_elems w = [].
Proof.
  intros Hq Hl He Hb. revert q'. induction idxs as [|i idxs IH]; intros q'; simpl.
  { intros. simplify_eq. split_and!; try done. set_solver. }
  destruct (local_queues q !! i) as [w|] eqn:Hi; [|].
  2: { intros (?&?&?&?&Hf)%IH. split_and!; try done. destruct b; [done|].
       destruct Hf as [-> Hf]. split; [done|]. intros j w [->|?]%elem_of_cons; naive_solver. }
  pose proof Hq as [Hlen Hcaps].
  pose proof (my_queue_lookup _ _ Hl) as Hm.
  assert (1 ≤ w_capacity (my_queue l q)) as Hcap by exact (Forall_lookup_1 _ _ _ _ Hcaps Hm).
  assert (can_steal l q = true) as ->.
  { unfold can_steal, sat_add. rewrite w_spare_spec, He. autorewrite with oc.
    apply Z.leb_le. unfold usize_max. dlia. }
  simpl. destruct (w_is_empty w) eqn:Hwe.
  { apply w_is_empty_spec in Hwe. intros (?&?&?&?&Hf)%IH. split_and!; try done.
    destruct b; [done|]. destruct Hf as [-> Hf]. split; [done|].
    intros j w' [->|?]%elem_of_cons; naive_solver. }
  assert (w_elems w ≠ []) as Hne.
  { intros H. apply w_is_empty_spec in H. congruence. }
  assert (i ≠ lq_queue l) as Hil by (intros ->; congruence).
  destruct (w_steal w (my_queue l q) _) as [[r w'] mine] eqn:Es.
  destruct r as [n|].
  - intros ?; simplify_eq.
    apply w_steal_ok in Es as (moved & Hs & Hd & Hn & Hb1 & Hc1 & Hc2).
    rewrite He in Hd. simpl in Hd.
    set (q1 := set_local q i w').
    assert (local_queues q1 !! lq_queue l = Some (my_queue l q)) as Hm1.
    { simpl. by rewrite list_lookup_insert_ne. }
    split_and!.
    + split; [done|]. simpl.
      apply Forall_insert; [apply Forall_insert; [done|]|].
      * rewrite Hc1. exact (Forall_lookup_1 _ _ _ _ Hcaps Hi).
      * by rewrite Hc2.
    + unfold lq_wf in *. simpl. by rewrite !length_insert.
    + rewrite (set_local_elems q i w w' moved Hi) by by rewrite Hs.
      symmetry. apply (set_local_elems_add q1 _ _ _ moved Hm1).
      by rewrite He, Hd, app_nil_r.
    + done.
    + assert (my_queue l (set_local q1 (lq_queue l) mine) = mine) as ->.
      { unfold my_queue. simpl. apply list_lookup_total_insert_eq.
        rewrite length_insert. exact Hl. }
      rewrite Hd. intros ->. autorewrite with oc in Hn. lia.
  - exfalso. apply w_steal_progress in Es as [Hx|[Hx|[Hx|Hx]]].
    + specialize (Hb i w Hil Hi). congruence.
    + done.
    + rewrite He in Hx. autorewrite with oc in Hx. lia.
    + unfold max_steal, sat_sub, sat_add in Hx.
      rewrite lq_len_spec, He, !w_spare_spec in Hx. autorewrite with oc in Hx.
      destruct (w_elems w) eqn:Ew; [done|]. autorewrite with oc in Hx.
      pose proof (Zlen_nonneg l0). pose proof (w_len_capacity (T:=T) w) as Hlw.
      rewrite Ew in Hlw. autorewrite with oc in Hlw. unfold usize_max in Hx. dlia.
Qed.

Lemma steal_order_complete start num j :
  0 ≤ start < num → Z.of_nat j < num → j ∈ steal_order start num.
Proof. apply rotation_complete. Qed.

Lemma ws_elems_nil q :
  (∀ i w, local_queues q !! i = Some w → w_elems w = []) →
  inj_elems (shared_queue q) = [] → ws_elems q = [].
Proof.
  intros Hl Hs. unfold ws_elems. rewrite Hs, app_nil_r. apply concat_all_nil.
  intros i k. rewrite list_lookup_fmap_Some. naive_solver.
Qed.

(** The part of [pop] after the shared queue has been tried. *)
Lemma ws_pop_shared_elems fuel q :
  ws_wf q → (inj_retries (shared_queue q) < fuel)%nat →
  ∃ v q', ws_pop fuel q = Some (v, q') ∧ ws_wf q'
    ∧ local_queues q' = local_queues q
    ∧ match v with
      | Some x => ws_elems q ≡ₚ x :: ws_elems q'
      | None => ws_elems q = ws_elems q' ∧ inj_elems (shared_queue q) = []
                ∧ ws_len q' = 0
      end.
Proof.
  intros Hq Hf. destruct (ws_pop_spec fuel q Hq Hf) as (v & q' & -> & ? & Hl & Hv).
  exists v, q'. split_and!; try done. unfold ws_elems. rewrite Hl.
  destruct v; [|by destruct Hv as (-> & -> & ?)].
  rewrite Hv. symmetry. apply Permutation_middle.
Qed.

(** The fallback to the shared queue when nothing could be stolen. *)
Lemma pop_fallback fuel q :
  ws_wf q → (inj_retries (shared_queue q) < fuel)%nat ∨ ws_len q = 0 →
  ∃ v q', ws_pop fuel q = Some (v, q') ∧ ws_wf q'
    ∧ local_queues q' = local_queues q
    ∧ match v with
      | Some x => ws_elems q ≡ₚ x :: ws_elems q'
      | None => ws_elems q = ws_elems q' ∧ inj_elems (shared_queue q) = []
      end.
Proof.
  intros Hq [Hr|Hr].
  - destruct (ws_pop_shared_elems fuel q Hq Hr) as (v & q' & -> & ? & ? & Hv).
    exists v, q'. split_and!; try done. destruct v; [done|]. by destruct Hv as (? & ? & ?).
  - exists None, q. unfold ws_pop, ws_is_empty. rewrite Hr. simpl.
    split_and!; try done. apply Zlen_zero. destruct Hq as [<- _]. done.
Qed.

Lemma pop_steal_spec fuel start l q :
  ws_wf q → lq_wf l q → lq_stealing l = false → w_elems (my_queue l q) = [] →
  siblings_idle l q → (inj_retries (shared_queue q) < fuel)%nat ∨ ws_len q = 0 →
  0 ≤ start < Zlen (local_queues q) →
  ∃ v l' q', pop_steal fuel start l q = Some (v, l', q')
    ∧ ws_wf q' ∧ lq_wf l' q' ∧ lq_stealing l' = false
    ∧ match v with
      | Some x => ws_elems q ≡ₚ x :: ws_elems q'
      | None => ws_elems q = [] ∧ ws_elems q' = []
      end.
Proof.
  intros Hq Hl Hs He Hi Hr Hst. unfold pop_steal, try_lock. rewrite Hs.
  set (l2 := mkLQ (lq_tick l) true (lq_queue l)).
  set (idxs := steal_order start (Zlen (local_queues q))).
  destruct (steal_loop idxs l2 q) as [b q3] eqn:Est.
  destruct (steal_loop_spec idxs l2 q b q3 Hq Hl He Hi Est)
    as (Hq3 & Hl3 & He3 & Hsq3 & Hb). destruct b.
  - destruct (my_pop (release_lock l2) q3) as [v q4] eqn:Ep.
    destruct (my_pop_spec _ _ _ _ Hq3 Hl3 Ep) as (Hq4 & Hl4 & _ & _ & Hv4).
    eexists _, _, _. split_and!; try done. destruct v as [x|].
    + by rewrite He3; destruct Hv4.
    + by destruct Hv4 as (_ & Hv4 & _).
  - destruct Hb as [-> Hb].
    destruct (pop_fallback fuel q Hq Hr) as (v & q4 & -> & Hq4 & Hlq4 & Hv4).
    simpl. eexists _, _, _. split_and!; try done.
    + unfold lq_wf in *. simpl in *. by rewrite Hlq4.
    + destruct v as [x|]; [done|]. destruct Hv4 as [<- Hn]. split;
        (apply ws_elems_nil; [|done]; intros i w Hiw; apply (Hb i w); [|done];
         apply lookup_lt_Some in Hiw as Hlt; apply steal_order_complete;
         [done|unfold Zlen; lia]).
Qed.

Lemma pop_first_spec fuel (b : bool) q :
  ws_wf q → (inj_retries (shared_queue q) < fuel)%nat →
  ∃ v q1, (if b then ws_pop fuel q else Some (None, q)) = Some (v, q1)
    ∧ ws_wf q1 ∧ local_queues q1 = local_queues q
    ∧ match v with
      | Some x => ws_elems q ≡ₚ x :: ws_elems q1
      | None => ws_elems q = ws_elems q1
                ∧ ((inj_retries (shared_queue q1) < fuel)%nat ∨ ws_len q1 = 0)
      end.
Proof.
  intros Hq Hf. destruct b.
  - destruct (ws_pop_shared_elems fuel q Hq Hf) as (v & q1 & -> & ? & ? & Hv).
    exists v, q1. split_and!; try done. destruct v; [done|].
    destruct Hv as (? & _ & ?). by split; [|right].
  - exists None, q. split_and!; try done. by left.
Qed.

(** [LocalQueue::pop] conserves work and is complete: it always returns
    (the fuel only has to exceed the retries the shared queue can ask for); a
    returned element leaves the queues and everything else stays; and [None]
    means that the shared queue and every local queue are empty, provided the
    stealing lock is free and no sibling is being stolen from. *)
Theorem lq_pop_complete fuel start l q :
  ws_wf q → lq_wf l q → lq_stealing l = false → siblings_idle l q →
  (inj_retries (shared_queue q) < fuel)%nat →
  0 ≤ start < Zlen (local_queues q) →
  ∃ v l' q', lq_pop fuel start l q = Some (v, l', q')
    ∧ ws_wf q' ∧ lq_wf l' q' ∧ lq_stealing l' = false
    ∧ match v with
      | Some x => ws_elems q ≡ₚ x :: ws_elems q'
      | None => ws_elems q = [] ∧ ws_elems q' = []
      end.
Proof.
  intros Hq Hl Hs Hi Hf Hst. unfold lq_pop. destruct (tick l) as [t l1] eqn:Et.
  apply tick_queue in Et as [Hlq Hls]. rewrite Hs in Hls.
  destruct (pop_first_spec fuel (t mod 61 =? 0) q Hq Hf)
    as (v & q1 & -> & Hq1 & Hlq1 & Hv). simpl.
  assert (lq_wf l1 q1) as Hl1 by (unfold lq_wf; by rewrite Hlq, Hlq1).
  destruct v as [x|]; [by eexists _, _, _|]. destruct Hv as [Hv Hr].
  destruct (my_pop l1 q1) as [v q2] eqn:Ep.
  destruct (my_pop_spec _ _ _ _ Hq1 Hl1 Ep) as (Hq2 & Hl2 & Hsq & Hlen & Hv2).
  destruct v as [x|].
  { eexists _, _, _. split_and!; try done. by rewrite Hv; destruct Hv2. }
  destruct Hv2 as (Hv2 & _ & He2).
  destruct (pop_steal_spec fuel start l1 q2) as (v & l3 & q3 & -> & ? & ? & ? & Hv3);
    try done.
  - intros i w Hne Hiw. apply (Hi i w); [congruence|].
    by rewrite <-Hlq1, <-(my_pop_lookup_ne l1 q1 None q2 i Ep Hne).
  - by rewrite Hsq, Hlen.
  - apply my_pop_lengths in Ep. unfold Zlen in *. by rewrite Ep, Hlq1.
  - eexists _, _, _. split_and!; try done. destruct v as [x|].
    + by rewrite Hv, Hv2.
    + destruct Hv3 as [Hn ?]. split; [|done]. apply Permutation_nil_r.
      by rewrite Hv, Hv2, Hn.
Qed.

(** Work on the shared queue is not starved: whenever the tick counter
    reaches a multiple of 61, [pop] takes the oldest shared element, whatever
    the local queue holds. *)
Theorem lq_pop_shared_turn fuel start l q x r :
  ws_wf q → (inj_retries (shared_queue q) < fuel)%nat →
  0 ≤ lq_tick l < u32_max → (lq_tick l + 1) mod 61 = 0 →
  inj_elems (shared_queue q) = x :: r →
  ∃ l' q', lq_pop fuel start l q = Some (Some x, l', q')
    ∧ inj_elems (shared_queue q') = r ∧ local_queues q' = local_queues q
    ∧ lq_tick l' = lq_tick l + 1.
Proof.
  intros Hq Hf Ht Hm He. unfold lq_pop, tick.
  rewrite (proj2 (Z.eqb_neq (lq_tick l) u32_max)) by lia.
  rewrite sat_add_exact by lia. rewrite Hm. simpl.
  destruct (ws_pop_spec fuel q Hq Hf) as (v & q' & -> & _ & Hl & Hv). simpl.
  destruct v as [y|]; rewrite He in Hv; [|by destruct Hv]. simplify_eq.
  eexists _, _. split_and!; try done. simpl. unfold wrap, u32_max in *.
  rewrite Z.mod_small; lia.
Qed.

(** The handles are dealt out in turn. *)
Lemma local_queue_round_robin q :
  0 ≤ ws_index q < usize_max → 0 < Zlen (local_queues q) →
  ∃ q', local_queue q
      = Some (mkLQ 0 false (Z.to_nat (ws_index q mod Zlen (local_queues q))), q')
    ∧ ws_index q' = ws_index q + 1 ∧ local_queues q' = local_queues q
    ∧ lq_wf (mkLQ 0 false (Z.to_nat (ws_index q mod Zlen (local_queues q)))) q'.
Proof.
  intros Hi Hn. unfold local_queue. simpl.
  rewrite (proj2 (Z.eqb_neq (Zlen (local_queues q)) 0)) by lia.
  rewrite (proj2 (Z.eqb_neq (ws_index q) usize_max)) by lia.
  pose proof (Z.mod_pos_bound (ws_index q) (Zlen (local_queues q)) Hn).
  set (i := Z.to_nat _) in *.
  assert (i < length (local_queues q))%nat as Hlt by (unfold Zlen in *; lia).
  destruct (lookup_lt_is_Some_2 _ _ Hlt) as [w Hw]. rewrite Hw. simpl.
  eexists. split_and!; try done. simpl. unfold wrap, usize_max in *.
  rewrite Z.mod_small; lia.
Qed.
End properties.

(** ** Witnesses and the documented examples *)

Module WorkStealExamples.
Import ListQueues.
Abbreviation queue := (WorkStealQueue (list_injector Z) (list_worker Z)).

(** [let queue = WorkStealQueue::new(1, 2); for i in 0..4 { local.push(i) }]. *)
Definition handle : LocalQueue := mkLQ 0 false 0.
Definition pushed : queue :=
  lq_push 3 handle (lq_push 2 handle (lq_push 1 handle
    (lq_push 0 handle (ws_new 1 2)))).

Definition two_locals : queue :=
  lq_push 5 (mkLQ 0 false 0) (lq_push 4 (mkLQ 0 false 0) (ws_new 2 64)).

(** Pop [n] times. *)
Fixpoint pops (n : nat) (l : LocalQueue) (q : queue) : list (option Z) :=
  match n with
  | O => []
  | S n => match lq_pop 5 0 l q with
           | Some (v, l, q) => v :: pops n l q
           | None => []
           end
  end.

(** The doc test of [LocalQueue::push]. *)
Example doc_push_order :
  pops 5 handle pushed = [Some 1; Some 3; Some 0; Some 2; None].
Proof. vm_compute. reflexivity. Qed.

(** The doc test of [LocalQueue::pop]: the second handle drains its own queue
    and then steals the work of the first. *)
Example doc_pop_steals :
  pops 7 (mkLQ 0 false 1)
    (lq_push 1 (mkLQ 0 false 1) (lq_push 0 (mkLQ 0 false 1)
      (lq_push 5 handle (lq_push 4 handle (lq_push 3 handle
        (lq_push 2 handle (ws_new 2 64)))))))
  = [Some 0; Some 1; Some 2; Some 3; Some 4; Some 5; None].
Proof. vm_compute. reflexivity. Qed.

Lemma two_locals_wf : ws_wf two_locals.
Proof. split; [done|]. repeat constructor; vm_compute; done. Qed.

Lemma two_locals_idle l : siblings_idle l two_locals.
Proof. intros [|[|i]] w _ H; vm_compute in H; simplify_eq; done. Qed.

Lemma lq_push_conserves_witness :
  ws_elems (lq_push 6 handle two_locals) ≡ₚ 6 :: ws_elems two_locals
  ∧ ws_wf (lq_push 6 handle two_locals) ∧ lq_wf handle (lq_push 6 handle two_locals).
Proof.
  apply (lq_push_conserves handle two_locals 6);
    [apply two_locals_wf|vm_compute; lia|vm_compute; done].
Defined.

Lemma lq_pop_complete_witness :
  ∃ v l' q', lq_pop 3 1 (mkLQ 0 false 1) two_locals = Some (v, l', q')
    ∧ ws_wf q' ∧ lq_wf l' q' ∧ lq_stealing l' = false
    ∧ match v with
      | Some x => ws_elems two_locals ≡ₚ x :: ws_elems q'
      | None => ws_elems two_locals = [] ∧ ws_elems q' = []
      end.
Proof.
  apply (lq_pop_complete 3 1 (mkLQ 0 false 1) two_locals);
    [apply two_locals_wf|vm_compute; lia|done|apply two_locals_idle
    |vm_compute; lia|vm_compute; done].
Defined.

Lemma lq_pop_shared_turn_witness :
  ∃ l' q', lq_pop 3 0 (mkLQ 60 false 0) (ws_push 9 two_locals) = Some (Some 9, l', q')
    ∧ inj_elems (shared_queue q') = []
    ∧ local_queues q' = local_queues (ws_push 9 two_locals)
    ∧ lq_tick l' = lq_tick (mkLQ 60 false 0) + 1.
Proof.
  apply (lq_pop_shared_turn 3 0 (mkLQ 60 false 0) (ws_push 9 two_locals) 9 []);
    [apply ws_push_wf; [apply two_locals_wf|vm_compute; done]
    |vm_compute; lia|vm_compute; done|done|done].
Defined.
End WorkStealExamples.
