(* ===== verification/OrderedWorkSteal.v ===== *)
(** * OrderedWorkSteal: the priority work-stealing queue

    Models [core/src/common/ordered_work_steal.rs], the ready queue of the
    schedulers and the task queue of the pools: a shared and several local skip
    maps from a priority (smaller first) to a FIFO. The shared queue and each
    handle keep an element counter beside the maps. Methods run to completion
    one after another ([QueueRaces] interleaves their atomic steps); a handle names its local map by position. *)

From stdpp Require Import sorting base numbers strings gmap list.
From S2P Require Import Prelude QueueIface.

Definition HIGHEST_PRECEDENCE : Z := i64_min.
Definition LOWEST_PRECEDENCE : Z := i64_max.
Definition DEFAULT_PRECEDENCE : Z := 0.

(** The trait [Ordered]. *)
Class Ordered (T : Type) : Type := priority : T → option Z.

(** A handle: [OrderedLocalQueue]. *)
Record OrderedLocalQueue : Type := mkOLQ {
  ol_tick : Z;
  ol_stealing : bool;
  ol_queue : nat;
  ol_len : Z;
}.

Section ordered_work_steal.
Context {T I W : Type} {SM : Type → Type}
  `{!Injector T I, !Worker T W, !SkipMap SM}.

#[local] Instance skipmap_inhabited {V} : Inhabited (SM V) := populate sm_new.

(** ** OrderedWorkStealQueue *)

Record OrderedWorkStealQueue : Type := mkOWSQ {
  o_shared : SM I;
  o_len : Z;
  o_local_capacity : Z;
  o_locals : list (SM W);
  o_index : Z;
}.

Definition o_set_shared (q : OrderedWorkStealQueue) (m : SM I) : OrderedWorkStealQueue :=
  mkOWSQ m (o_len q) (o_local_capacity q) (o_locals q) (o_index q).
Definition o_set_len (q : OrderedWorkStealQueue) (n : Z) : OrderedWorkStealQueue :=
  mkOWSQ (o_shared q) n (o_local_capacity q) (o_locals q) (o_index q).
Definition o_set_local (q : OrderedWorkStealQueue) (i : nat) (m : SM W)
  : OrderedWorkStealQueue :=
  mkOWSQ (o_shared q) (o_len q) (o_local_capacity q) (<[i:=m]> (o_locals q)) (o_index q).

Definition o_new (local_queues_size local_capacity : Z) : OrderedWorkStealQueue :=
  mkOWSQ sm_new 0 local_capacity
    (replicate (Z.to_nat local_queues_size) sm_new) 0.

Definition o_is_empty (q : OrderedWorkStealQueue) : bool := o_len q =? 0.

(** [push_with_priority] of the shared queue: find or create the FIFO of the
    priority, push in place, count. *)
Definition o_push_with_priority (p : Z) (item : T) (q : OrderedWorkStealQueue)
  : OrderedWorkStealQueue :=
  let m := sm_get_or_insert (o_shared q) p inj_new in
  let m := match sm_get m p with
           | Some inj => sm_set m p (inj_push inj item)
           | None => m
           end in
  let q := o_set_shared q m in
  o_set_len q (sat_add usize_max (o_len q) 1).

Definition o_push `{!Ordered T} (item : T) (q : OrderedWorkStealQueue)
  : OrderedWorkStealQueue :=
  o_push_with_priority (default DEFAULT_PRECEDENCE (priority item)) item q.

(** The inner [loop] of [pop] on one entry. *)
Fixpoint steal_retry (fuel : nat) (inj : I) : option (option T * I) :=
  match fuel with
  | O => None
  | S fuel =>
      match inj_steal inj with
      | (StealSuccess item, inj) => Some (Some item, inj)
      | (StealRetry, inj) => steal_retry fuel inj
      | (StealEmpty, inj) => Some (None, inj)
      end
  end.

(** The [for entry in &self.shared_queue] loop, over the keys in order. *)
Fixpoint o_pop_entries (fuel : nat) (keys : list Z) (q : OrderedWorkStealQueue)
  : option (option T * OrderedWorkStealQueue) :=
  match keys with
  | [] => Some (None, q)
  | k :: keys =>
      match sm_get (o_shared q) k with
      | None => o_pop_entries fuel keys q
      | Some inj =>
          match steal_retry fuel inj with
          | None => None
          | Some (Some item, inj) =>
              let q := o_set_shared q (sm_set (o_shared q) k inj) in
              Some (Some item, o_set_len q (sat_sub (o_len q) 1))
          | Some (None, inj) =>
              o_pop_entries fuel keys (o_set_shared q (sm_set (o_shared q) k inj))
          end
      end
  end.

Definition o_pop (fuel : nat) (q : OrderedWorkStealQueue)
  : option (option T * OrderedWorkStealQueue) :=
  if o_is_empty q then Some (None, q)
  else o_pop_entries fuel ((sm_iter (o_shared q)).*1) q.

Definition o_local_queue (q : OrderedWorkStealQueue)
  : option (OrderedLocalQueue * OrderedWorkStealQueue) :=
  let index := o_index q in
  let o_index' := if index =? usize_max then 0 else wrap 64 (index + 1) in
  let q := mkOWSQ (o_shared q) (o_len q) (o_local_capacity q) (o_locals q) o_index' in
  if Zlen (o_locals q) =? 0 then None
  else
    let index := Z.to_nat (index mod Zlen (o_locals q)) in
    _ ← o_locals q !! index;
    Some (mkOLQ 0 false index 0, q).

(** ** OrderedLocalQueue *)

Implicit Types l : OrderedLocalQueue.

Definition my_map l (q : OrderedWorkStealQueue) : SM W := o_locals q !!! ol_queue l.

Definition ol_set_len l (n : Z) : OrderedLocalQueue :=
  mkOLQ (ol_tick l) (ol_stealing l) (ol_queue l) n.

Definition is_local_empty l : bool := ol_len l =? 0.
Definition is_global_empty (q : OrderedWorkStealQueue) : bool := o_is_empty q.

(** [len]: the elements of the shared queue and of all local queues. *)
Definition ol_full_len (q : OrderedWorkStealQueue) : Z :=
  o_len q + Zsum ((λ m : SM W,
    Zsum ((λ '(_, w), w_capacity w - w_spare_capacity w) <$> sm_iter m))
      <$> o_locals q).

Definition ol_is_empty (q : OrderedWorkStealQueue) : bool := ol_full_len q =? 0.

Definition is_local_full l (q : OrderedWorkStealQueue) : bool :=
  o_local_capacity q <=? ol_len l.

Definition o_max_steal l (q : OrderedWorkStealQueue) : Z :=
  sat_sub (sat_add usize_max (o_local_capacity q) 1 / 2) (ol_len l).

Definition o_can_steal l (q : OrderedWorkStealQueue) : bool :=
  ol_len l <? sat_add usize_max (o_local_capacity q) 1 / 2.

Definition o_try_lock l : bool * OrderedLocalQueue :=
  if ol_stealing l then (false, l)
  else (true, mkOLQ (ol_tick l) true (ol_queue l) (ol_len l)).

Definition o_release_lock l : OrderedLocalQueue :=
  mkOLQ (ol_tick l) false (ol_queue l) (ol_len l).

(** Pop the FIFO of one priority of the own map. *)
Definition entry_pop l (k : Z) (q : OrderedWorkStealQueue)
  : option T * OrderedWorkStealQueue :=
  match sm_get (my_map l q) k with
  | None => (None, q)
  | Some w =>
      let '(v, w) := w_pop w in
      (v, o_set_local q (ol_queue l) (sm_set (my_map l q) k w))
  end.

(** One pass of [for entry in self.queue.iter().rev()]. *)
Fixpoint ptg_pass (keys : list Z) (done count : Z) l (q : OrderedWorkStealQueue)
  : Z * OrderedWorkStealQueue :=
  match keys with
  | [] => (done, q)
  | k :: keys =>
      if count <=? done then (done, q)
      else
        match entry_pop l k q with
        | (Some item, q) =>
            ptg_pass keys (done + 1) count l (o_push_with_priority k item q)
        | (None, q) => ptg_pass keys done count l q
        end
  end.

(** [while done < count]. *)
Fixpoint ptg_loop (fuel : nat) (done count : Z) l (q : OrderedWorkStealQueue)
  : option OrderedWorkStealQueue :=
  if done <? count then
    match fuel with
    | O => None
    | S fuel =>
        let '(done, q) :=
          ptg_pass (reverse ((sm_iter (my_map l q)).*1)) done count l q in
        ptg_loop fuel done count l q
    end
  else Some q.

Definition push_to_global (fuel : nat) (p : Z) (item : T) l (q : OrderedWorkStealQueue)
  : option (OrderedLocalQueue * OrderedWorkStealQueue) :=
  let count := ol_len l / 2 in
  q ← ptg_loop fuel 0 count l q;
  let l := ol_set_len l (sat_sub (ol_len l) count) in
  Some (l, o_push_with_priority p item q).

Definition ol_push_with_priority (fuel : nat) (p : Z) (item : T) l
  (q : OrderedWorkStealQueue) : option (OrderedLocalQueue * OrderedWorkStealQueue) :=
  if is_local_full l q then push_to_global fuel p item l q
  else
    let m := sm_get_or_insert (my_map l q) p (w_new (o_local_capacity q)) in
    let q := o_set_local q (ol_queue l) m in
    match w ← sm_get m p; w_push w item with
    | None => push_to_global fuel p item l q
    | Some w =>
        let q := o_set_local q (ol_queue l) (sm_set m p w) in
        Some (ol_set_len l (sat_add usize_max (ol_len l) 1), q)
    end.

Definition ol_push `{!Ordered T} (fuel : nat) (item : T) l (q : OrderedWorkStealQueue)
  : option (OrderedLocalQueue * OrderedWorkStealQueue) :=
  ol_push_with_priority fuel (default DEFAULT_PRECEDENCE (priority item)) item l q.

Definition o_tick l : Z * OrderedLocalQueue :=
  let val := ol_tick l in
  if val =? u32_max then (0, mkOLQ 0 (ol_stealing l) (ol_queue l) (ol_len l))
  else (sat_add u32_max val 1,
        mkOLQ (wrap 32 (val + 1)) (ol_stealing l) (ol_queue l) (ol_len l)).

(** [pop_local]: the first non-empty FIFO in priority order. *)
Fixpoint pop_local_entries (keys : list Z) l (q : OrderedWorkStealQueue)
  : option T * OrderedLocalQueue * OrderedWorkStealQueue :=
  match keys with
  | [] => (None, l, q)
  | k :: keys =>
      match entry_pop l k q with
      | (Some val, q) => (Some val, ol_set_len l (sat_sub (ol_len l) 1), q)
      | (None, q) => pop_local_entries keys l q
      end
  end.

Definition pop_local l (q : OrderedWorkStealQueue)
  : option T * OrderedLocalQueue * OrderedWorkStealQueue :=
  pop_local_entries ((sm_iter (my_map l q)).*1) l q.

(** The inner loop of the steal: the entries of one sibling. *)
Fixpoint steal_entries (i : nat) (keys : list Z) l (q : OrderedWorkStealQueue)
  : bool * OrderedLocalQueue * OrderedWorkStealQueue :=
  match keys with
  | [] => (false, l, q)
  | k :: keys =>
      match another ← o_locals q !! i; sm_get another k with
      | None => steal_entries i keys l q
      | Some worker =>
          if w_is_empty worker then steal_entries i keys l q
          else
            let q := o_set_local q (ol_queue l)
              (sm_get_or_insert (my_map l q) k (w_new (o_local_capacity q))) in
            match sm_get (my_map l q) k with
            | None => steal_entries i keys l q
            | Some into_queue =>
                let '(r, worker', into') :=
                  w_steal worker into_queue (λ n,
                    Z.min (Z.min n (o_max_steal l q))
                      (sat_add usize_max
                         (sat_sub (w_capacity worker) (w_spare_capacity worker)) 1
                       / 2)) in
                let q := o_set_local q i (sm_set (o_locals q !!! i) k worker') in
                let q := o_set_local q (ol_queue l) (sm_set (my_map l q) k into') in
                match r with
                | Some _ =>
                    let n := sat_add usize_max (ol_len l)
                               (w_capacity into' - w_spare_capacity into') in
                    (true, ol_set_len l n, q)
                | None => steal_entries i keys l q
                end
            end
      end
  end.

(** [std::ptr::eq(&raw const another, &raw const self.queue)]: the addresses of
    two reference variables, never equal. *)
Definition o_ptr_eq_another_self : bool := false.

(** The [for i in 0..num] loop over the siblings. *)
Fixpoint steal_siblings (idxs : list nat) l (q : OrderedWorkStealQueue)
  : bool * OrderedLocalQueue * OrderedWorkStealQueue :=
  match idxs with
  | [] => (false, l, q)
  | i :: idxs =>
      match o_locals q !! i with
      | None => steal_siblings idxs l q
      | Some another =>
          if negb (o_can_steal l q) then (false, l, q)
          else if o_ptr_eq_another_self then steal_siblings idxs l q
          else
            match steal_entries i ((sm_iter another).*1) l q with
            | (true, l, q) => (true, l, q)
            | (false, l, q) => steal_siblings idxs l q
            end
      end
  end.

Definition o_steal_order (start num : Z) : list nat :=
  (λ i, Z.to_nat ((start + i) mod num)) <$> seqZ 0 num.

(** The second half of [pop], when the own map is empty. *)
Definition o_pop_steal (fuel : nat) (start : Z) l (q : OrderedWorkStealQueue)
  : option (option T * OrderedLocalQueue * OrderedWorkStealQueue) :=
  let '(locked, l) := o_try_lock l in
  let '(stolen, l, q) :=
    if locked then steal_siblings (o_steal_order start (Zlen (o_locals q))) l q
    else (false, l, q) in
  let l := if locked then o_release_lock l else l in
  if stolen then Some (pop_local l q)
  else
    last ← o_pop fuel q;
    let '(v, q) := last in Some (v, l, q).

(** [pop]; [start] is the random index of the first sibling. *)
Definition ol_pop (fuel : nat) (start : Z) l (q : OrderedWorkStealQueue)
  : option (option T * OrderedLocalQueue * OrderedWorkStealQueue) :=
  let '(t, l) := o_tick l in
  first ← (if t mod 61 =? 0 then o_pop fuel q else Some (None, q));
  match first with
  | (Some val, q) => Some (Some val, l, q)
  | (None, q) =>
      match pop_local l q with
      | (Some val, l, q) => Some (Some val, l, q)
      | (None, l, q) => o_pop_steal fuel start l q
      end
  end.
End ordered_work_steal.

Arguments OrderedWorkStealQueue : clear implicits.

(** ** Contents of a map of queues *)

Section contents.
Context {T V : Type} (f : V → list T).
Implicit Types l : list (Z * V).

(** Every element with its priority, in iteration order. *)
Definition tag (k : Z) (xs : list T) : list (Z * T) := (λ x, (k, x)) <$> xs.
Definition al_elems l : list (Z * T) := concat ((λ kv, tag kv.1 (f kv.2)) <$> l).

Lemma al_elems_set l k v0 v :
  al_get l k = Some v0 →
  tag k (f v0) ++ al_elems (al_set l k v) ≡ₚ tag k (f v) ++ al_elems l.
Proof.
  unfold al_elems. induction l as [|[j u] l IH]; simpl; [done|].
  destruct (j =? k) eqn:E; breflect; intros; simplify_eq/=.
  - rewrite !app_assoc. apply Permutation_app_tail, Permutation_app_comm.
  - rewrite !app_assoc, (Permutation_app_comm (tag k (f v0))),
      (Permutation_app_comm (tag k (f v))), <-!app_assoc. by rewrite IH.
Qed.

Lemma al_elems_set_same l k v0 v :
  al_get l k = Some v0 → f v = f v0 → al_elems (al_set l k v) ≡ₚ al_elems l.
Proof.
  intros Hk He. pose proof (al_elems_set l k v0 v Hk) as Hp. rewrite He in Hp.
  by apply Permutation_app_inv_l in Hp.
Qed.

(** Moving a block of elements out of, or into, the queue of one priority. *)
Lemma al_elems_set_remove l k v0 v xs :
  al_get l k = Some v0 → f v0 = xs ++ f v →
  al_elems l ≡ₚ tag k xs ++ al_elems (al_set l k v).
Proof.
  intros Hk He. pose proof (al_elems_set l k v0 v Hk) as Hp. rewrite He in Hp.
  unfold tag in Hp. rewrite fmap_app, (Permutation_app_comm (_ <$> xs)), <-app_assoc in Hp.
  symmetry. by apply Permutation_app_inv_l in Hp.
Qed.

Lemma al_elems_set_add l k v0 v xs :
  al_get l k = Some v0 → f v = f v0 ++ xs →
  al_elems (al_set l k v) ≡ₚ tag k xs ++ al_elems l.
Proof.
  intros Hk He. pose proof (al_elems_set l k v0 v Hk) as Hp. rewrite He in Hp.
  unfold tag in Hp. rewrite fmap_app, <-app_assoc in Hp.
  by apply Permutation_app_inv_l in Hp.
Qed.

Lemma al_elems_set_head l k v0 v x :
  al_get l k = Some v0 → f v0 = x :: f v →
  al_elems l ≡ₚ (k, x) :: al_elems (al_set l k v).
Proof. intros Hk He. by apply (al_elems_set_remove l k v0 v [x]). Qed.

Lemma al_elems_set_push l k v0 v x :
  al_get l k = Some v0 → f v = f v0 ++ [x] →
  al_elems (al_set l k v) ≡ₚ (k, x) :: al_elems l.
Proof. intros Hk He. by apply (al_elems_set_add l k v0 v [x]). Qed.

Lemma al_elems_get_or_insert l k v :
  f v = [] → al_elems (al_get_or_insert l k v) = al_elems l.
Proof.
  intros He. unfold al_elems. induction l as [|[j u] l IH]; simpl.
  - by rewrite He.
  - destruct (k <? j); simpl; [by rewrite He|]. destruct (j =? k); simpl; [done|].
    f_equal. exact IH.
Qed.

Lemma elem_of_al_elems l p x :
  al_sorted l → (p, x) ∈ al_elems l ↔ ∃ v, al_get l p = Some v ∧ x ∈ f v.
Proof.
  intros Hs. unfold al_elems. rewrite list_elem_of_In, in_concat. split.
  - intros (ys & Hys & Hx). apply list_elem_of_In, list_elem_of_fmap in Hys.
    destruct Hys as ([k v] & -> & Hkv). apply list_elem_of_In in Hx.
    unfold tag in Hx. apply list_elem_of_fmap in Hx as (y & Hy & Hx). simplify_eq/=.
    exists v. split; [by apply al_elem_of_get|done].
  - intros (v & Hv & Hx). apply al_get_elem_of in Hv.
    exists (tag p (f v)). rewrite <-!list_elem_of_In. split.
    + apply list_elem_of_fmap. by exists (p, v).
    + unfold tag. apply list_elem_of_fmap. by exists x.
Qed.
End contents.

Section properties.
Context {T I W : Type} {SM : Type → Type}
  `{!Injector T I, !Worker T W, !SkipMap SM}
  `{!InjectorLaws T I, !WorkerLaws T W, !SkipMapLaws SM}.
#[local] Existing Instance skipmap_inhabited.
Implicit Types (q : OrderedWorkStealQueue I W SM) (l : OrderedLocalQueue).

Definition shared_elems q : list (Z * T) := al_elems inj_elems (sm_iter (o_shared q)).
Definition map_elems (m : SM W) : list (Z * T) := al_elems w_elems (sm_iter m).
Definition my_elems l q : list (Z * T) := map_elems (my_map l q).

(** Everything the queue holds, with its priority. *)
Definition o_elems q : list (Z * T) :=
  concat (map_elems <$> o_locals q) ++ shared_elems q.

(** The shared counter is exact, and the local FIFOs have the capacity the
    queue was created with. *)
Definition o_wf q : Prop :=
  o_len q = Zlen (shared_elems q) ∧ 1 ≤ o_local_capacity q
  ∧ Forall (λ m : SM W, Forall (λ kv, o_local_capacity q ≤ w_capacity kv.2) (sm_iter m))
      (o_locals q).

Definition ol_wf l q : Prop := (ol_queue l < length (o_locals q))%nat.

(** The handle's counter agrees with its local map. *)
Definition ol_exact l q : Prop := ol_len l = Zlen (my_elems l q).

Lemma sm_get_set_eq {V} (m : SM V) k v u :
  sm_get m k = Some u → sm_get (sm_set m k v) k = Some v.
Proof. unfold sm_get. rewrite sm_set_iter. apply al_get_set_eq. Qed.

Lemma sm_get_set_ne {V} (m : SM V) k k' v :
  k ≠ k' → sm_get (sm_set m k v) k' = sm_get m k'.
Proof. unfold sm_get. rewrite sm_set_iter. apply al_get_set_ne. Qed.

Lemma sm_get_goi {V} (m : SM V) k v :
  sm_get (sm_get_or_insert m k v) k = Some (default v (sm_get m k)).
Proof.
  unfold sm_get. rewrite sm_get_or_insert_iter. apply al_get_get_or_insert_eq, sm_sorted.
Qed.

(** ** The shared queue *)

Lemma o_push_elems p x q :
  shared_elems (o_push_with_priority p x q) ≡ₚ (p, x) :: shared_elems q.
Proof.
  unfold shared_elems, o_push_with_priority. simpl. rewrite sm_get_goi.
  set (inj := default inj_new (sm_get (o_shared q) p)).
  rewrite sm_set_iter. rewrite (al_elems_set_push _ _ _ inj _ x).
  - rewrite sm_get_or_insert_iter, al_elems_get_or_insert; [done|apply inj_new_elems].
  - exact (sm_get_goi (o_shared q) p inj_new).
  - apply inj_push_elems.
Qed.

Lemma o_push_locals p x q : o_locals (o_push_with_priority p x q) = o_locals q.
Proof. done. Qed.

Lemma o_push_wf p x q :
  o_wf q → o_len q < usize_max → o_wf (o_push_with_priority p x q).
Proof.
  intros (Hl & Hc & Hw) Hm. split_and!; [|done|done].
  rewrite (Zlen_Permutation _ _ (o_push_elems p x q)). autorewrite with oc.
  simpl. unfold sat_add. lia.
Qed.

Lemma o_push_all p x q : o_elems (o_push_with_priority p x q) ≡ₚ (p, x) :: o_elems q.
Proof.
  unfold o_elems. rewrite o_push_elems, o_push_locals. symmetry. apply Permutation_middle.
Qed.

Lemma steal_retry_spec fuel (inj : I) :
  (inj_retries inj < fuel)%nat →
  ∃ v inj', steal_retry fuel inj = Some (v, inj')
    ∧ match v with
      | Some x => inj_elems inj = x :: inj_elems inj'
      | None => inj_elems inj = [] ∧ inj_elems inj' = []
      end.
Proof.
  revert inj. induction fuel as [|fuel IH]; intros inj Hf; [lia|]. simpl.
  destruct (inj_steal inj) as [[x| |] inj'] eqn:E.
  - apply inj_steal_success in E. by eexists _, _.
  - apply inj_steal_retry in E as [He ?].
    destruct (IH inj') as (v & inj'' & -> & Hv); [lia|].
    exists v, inj''. by rewrite He in Hv.
  - apply inj_steal_empty in E. by eexists _, _.
Qed.

(** The fuel exceeds the retries the FIFOs of [keys] ask for. *)
Definition retries_below (fuel : nat) (keys : list Z) q : Prop :=
  ∀ k inj, k ∈ keys → sm_get (o_shared q) k = Some inj → (inj_retries inj < fuel)%nat.

Lemma shared_elem_key q k y inj :
  (k, y) ∈ shared_elems q → sm_get (o_shared q) k = Some inj → y ∈ inj_elems inj.
Proof.
  unfold shared_elems, sm_get. intros (u & Hu & Hy)%elem_of_al_elems ?; [|apply sm_sorted].
  by simplify_eq.
Qed.

Lemma shared_elem_no_key q k y :
  (k, y) ∈ shared_elems q → sm_get (o_shared q) k ≠ None.
Proof.
  unfold shared_elems, sm_get. intros (u & Hu & Hy)%elem_of_al_elems; [|apply sm_sorted].
  congruence.
Qed.

(** The scan takes the head of the first non-empty FIFO among the keys. *)
Definition scan_post (keys : list Z) q (v : option T) q' : Prop :=
  o_locals q' = o_locals q ∧ o_local_capacity q' = o_local_capacity q
  ∧ match v with
    | Some x => ∃ k inj r, sm_get (o_shared q) k = Some inj
        ∧ inj_elems inj = x :: r
        ∧ shared_elems q ≡ₚ (k, x) :: shared_elems q'
        ∧ o_len q' = sat_sub (o_len q) 1
        ∧ ∀ p y, (p, y) ∈ shared_elems q → p ∈ keys → k ≤ p
    | None => shared_elems q ≡ₚ shared_elems q' ∧ o_len q' = o_len q
        ∧ ∀ p y, (p, y) ∈ shared_elems q → p ∉ keys
    end.

(** A key whose FIFO is empty or missing does not change the result. *)
Lemma scan_post_skip k (keys : list Z) q v q' :
  (∀ y, (k, y) ∉ shared_elems q) → scan_post keys q v q' → scan_post (k :: keys) q v q'.
Proof.
  intros Hk (? & ? & Hv). split_and!; try done. destruct v as [x|].
  - destruct Hv as (k' & inj & r & ? & ? & ? & ? & Hm). exists k', inj, r.
    split_and!; try done. intros p y Hin [->|?]%elem_of_cons; [by destruct (Hk y)|eauto].
  - destruct Hv as (? & ? & Hn). split_and!; try done.
    intros p y Hin [->|?]%elem_of_cons; [by destruct (Hk y)|by eapply Hn].
Qed.

(** An empty FIFO may be replaced by another empty one. *)
Lemma scan_post_touch k (keys : list Z) q inj inj' v q' :
  sm_get (o_shared q) k = Some inj → inj_elems inj = [] → inj_elems inj' = [] →
  k ∉ keys →
  scan_post keys (o_set_shared q (sm_set (o_shared q) k inj')) v q' →
  scan_post keys q v q'.
Proof.
  intros Hk He He' Hnk (? & ? & Hv). simpl in *.
  assert (shared_elems (o_set_shared q (sm_set (o_shared q) k inj')) ≡ₚ shared_elems q)
    as Hq1.
  { unfold shared_elems. simpl. rewrite sm_set_iter.
    apply al_elems_set_same with inj; [done|congruence]. }
  split_and!; try done. destruct v as [x|].
  - destruct Hv as (k' & inj2 & r & Hg & ? & Hp & ? & Hm). exists k', inj2, r.
    assert (k ≠ k') as Hne.
    { intros <-. rewrite (sm_get_set_eq _ _ _ inj) in Hg by done. congruence. }
    rewrite sm_get_set_ne in Hg by done. split_and!; try done; [by rewrite <-Hq1|].
    intros p y Hin. rewrite <-Hq1 in Hin. by apply (Hm p y).
  - destruct Hv as (Hp & ? & Hn). split_and!; try done; [by rewrite <-Hq1|].
    intros p y Hin. rewrite <-Hq1 in Hin. by apply (Hn p y).
Qed.

Lemma o_pop_entries_spec fuel keys q :
  retries_below fuel keys q → StronglySorted Z.lt keys →
  ∃ v q', o_pop_entries fuel keys q = Some (v, q') ∧ scan_post keys q v q'.
Proof.
  revert q. induction keys as [|k keys IH]; intros q Hr Hs; simpl.
  { exists None, q. split; [done|]. split_and!; try done. intros p y _. apply not_elem_of_nil. }
  apply StronglySorted_inv in Hs as [Hs Hk]. rewrite Forall_forall in Hk.
  destruct (sm_get (o_shared q) k) as [inj|] eqn:Eg.
  2: { destruct (IH q) as (v & q' & -> & Hv); [|done|].
       - intros k' inj ?. apply Hr. set_solver.
       - exists v, q'. split; [done|]. apply scan_post_skip; [|done].
         intros y Hin. by apply shared_elem_no_key in Hin. }
  destruct (steal_retry_spec fuel inj) as (v & inj' & -> & Hv); [apply (Hr k); [set_solver|done]|].
  destruct v as [x|].
  - eexists _, _. split; [done|]. split_and!; try done. exists k, inj, (inj_elems inj').
    split_and!; try done.
    + unfold shared_elems. simpl. rewrite sm_set_iter. by apply al_elems_set_head with inj.
    + intros p y _ [->|Hp]%elem_of_cons; [lia|]. apply Hk in Hp. lia.
  - destruct Hv as [He He'].
    assert (k ∉ keys) as Hnk by (intros Hin; apply Hk in Hin; lia).
    destruct (IH (o_set_shared q (sm_set (o_shared q) k inj'))) as (v & q' & -> & Hv);
      [|done|].
    + intros k' inj2 Hin. simpl. rewrite sm_get_set_ne by set_solver. apply Hr. set_solver.
    + exists v, q'. split; [done|]. apply scan_post_skip.
      * intros y Hin. apply (shared_elem_key _ _ _ _ Hin) in Eg. rewrite He in Eg. set_solver.
      * by apply scan_post_touch with k inj inj'.
Qed.

Lemma shared_elem_in_keys q p y :
  (p, y) ∈ shared_elems q → p ∈ (sm_iter (o_shared q)).*1.
Proof.
  unfold shared_elems. intros (v & Hv & _)%elem_of_al_elems; [|apply sm_sorted].
  apply al_get_elem_of in Hv. apply list_elem_of_fmap. by exists (p, v).
Qed.

Lemma o_pop_spec fuel q :
  o_wf q → retries_below fuel ((sm_iter (o_shared q)).*1) q →
  ∃ v q', o_pop fuel q = Some (v, q') ∧ o_wf q' ∧ o_locals q' = o_locals q
    ∧ o_local_capacity q' = o_local_capacity q
    ∧ match v with
      | Some x => ∃ k inj r, sm_get (o_shared q) k = Some inj
          ∧ inj_elems inj = x :: r
          ∧ shared_elems q ≡ₚ (k, x) :: shared_elems q'
          ∧ ∀ p y, (p, y) ∈ shared_elems q → k ≤ p
      | None => shared_elems q = [] ∧ shared_elems q' = [] ∧ o_len q' = 0
      end.
Proof.
  intros (Hl & Hc & Hw) Hr. unfold o_pop, o_is_empty.
  destruct (o_len q =? 0) eqn:E; breflect.
  { assert (shared_elems q = []) by (apply Zlen_zero; lia). by exists None, q. }
  destruct (o_pop_entries_spec fuel _ q Hr) as (v & q' & -> & Hloc & Hcap & Hv);
    [apply sm_sorted|].
  assert (o_wf q' ↔ o_len q' = Zlen (shared_elems q')) as Hwf.
  { unfold o_wf. rewrite Hloc, Hcap. naive_solver. }
  exists v, q'. rewrite Hwf. destruct v as [x|].
  - destruct Hv as (k & inj & r & ? & ? & Hp & Hlen & Hm).
    pose proof (Zlen_Permutation _ _ Hp) as Hz. autorewrite with oc in Hz.
    pose proof (Zlen_nonneg (shared_elems q')).
    split_and!; try done; [rewrite Hlen, Hl; unfold sat_sub; lia|].
    exists k, inj, r. split_and!; try done.
    intros p y Hin. eapply Hm; [done|]. by eapply shared_elem_in_keys.
  - destruct Hv as (Hp & Hlen & Hn). exfalso.
    destruct (shared_elems q) as [|[p y] es] eqn:Es; [by rewrite Hl in E|].
    apply (Hn p y); [set_solver|]. apply (shared_elem_in_keys q p y).
    rewrite Es. set_solver.
Qed.

(** The shared queue hands out work by priority: [pop] returns the oldest
    element of the smallest priority present, removes only it, and returns
    [None] exactly when the shared queue is empty; it always returns when the
    fuel exceeds the retries the FIFOs ask for. *)
Theorem o_pop_highest_priority fuel q :
  o_wf q → retries_below fuel ((sm_iter (o_shared q)).*1) q →
  ∃ v q', o_pop fuel q = Some (v, q') ∧ o_wf q' ∧ o_locals q' = o_locals q
    ∧ match v with
      | Some x => ∃ k inj r, sm_get (o_shared q) k = Some inj
          ∧ inj_elems inj = x :: r
          ∧ shared_elems q ≡ₚ (k, x) :: shared_elems q'
          ∧ ∀ p y, (p, y) ∈ shared_elems q → k ≤ p
      | None => shared_elems q = [] ∧ shared_elems q' = []
      end.
Proof.
  intros Hq Hr. destruct (o_pop_spec fuel q Hq Hr) as (v & q' & -> & ? & ? & _ & Hv).
  exists v, q'. split_and!; try done. destruct v; [done|]. by destruct Hv as (? & ? & _).
Qed.

(** ** A handle and its local map *)

Lemma my_map_lookup l q : ol_wf l q → o_locals q !! ol_queue l = Some (my_map l q).
Proof. apply list_lookup_lookup_total_lt. Qed.

Lemma my_map_set l q m : ol_wf l q → my_map l (o_set_local q (ol_queue l) m) = m.
Proof. intros Hl. unfold my_map. simpl. by apply list_lookup_total_insert_eq. Qed.

Lemma o_set_local_remove q i m0 m (k : list (Z * T)) :
  o_locals q !! i = Some m0 → map_elems m0 ≡ₚ k ++ map_elems m →
  o_elems q ≡ₚ k ++ o_elems (o_set_local q i m).
Proof.
  intros Hi Hm. unfold o_elems. simpl. rewrite list_fmap_insert, app_assoc.
  apply Permutation_app_tail. apply concat_insert_remove with (map_elems m0); [|done].
  by rewrite list_lookup_fmap, Hi.
Qed.

Lemma o_set_local_add q i m0 m (k : list (Z * T)) :
  o_locals q !! i = Some m0 → map_elems m ≡ₚ k ++ map_elems m0 →
  o_elems (o_set_local q i m) ≡ₚ k ++ o_elems q.
Proof.
  intros Hi Hm. unfold o_elems. simpl. rewrite list_fmap_insert, app_assoc.
  apply Permutation_app_tail. apply concat_insert_add with (map_elems m0); [|done].
  by rewrite list_lookup_fmap, Hi.
Qed.

Lemma o_set_local_wf q i m :
  o_wf q → Forall (λ kv, o_local_capacity q ≤ w_capacity kv.2) (sm_iter m) →
  o_wf (o_set_local q i m).
Proof.
  intros (? & ? & ?) Hm. split_and!; try done. simpl. by apply Forall_insert.
Qed.

Lemma my_map_caps l q :
  o_wf q → ol_wf l q →
  Forall (λ kv, o_local_capacity q ≤ w_capacity kv.2) (sm_iter (my_map l q)).
Proof. intros (_ & _ & Hw) Hl. exact (Forall_lookup_1 _ _ _ _ Hw (my_map_lookup _ _ Hl)). Qed.

Lemma al_get_caps (c : Z) (kvs : list (Z * W)) k w :
  Forall (λ kv, c ≤ w_capacity kv.2) kvs → al_get kvs k = Some w → c ≤ w_capacity w.
Proof.
  intros Hf Hg. apply al_get_elem_of in Hg. rewrite Forall_forall in Hf.
  exact (Hf _ Hg).
Qed.

Lemma al_set_caps (c : Z) (kvs : list (Z * W)) k w :
  Forall (λ kv, c ≤ w_capacity kv.2) kvs → c ≤ w_capacity w →
  Forall (λ kv, c ≤ w_capacity kv.2) (al_set kvs k w).
Proof.
  intros Hf Hw. induction Hf as [|[j u] kvs ? ? IH]; simpl; [done|].
  case_match; by constructor.
Qed.

Lemma al_goi_caps (c : Z) (kvs : list (Z * W)) k w :
  Forall (λ kv, c ≤ w_capacity kv.2) kvs → c ≤ w_capacity w →
  Forall (λ kv, c ≤ w_capacity kv.2) (al_get_or_insert kvs k w).
Proof.
  intros Hf Hw. induction Hf as [|[j u] kvs ? ? IH]; simpl; [by constructor|].
  repeat case_match; repeat constructor; done.
Qed.

Lemma my_elems_key l q k y :
  (k, y) ∈ my_elems l q → ∃ w, sm_get (my_map l q) k = Some w ∧ y ∈ w_elems w.
Proof. unfold my_elems, map_elems. intros ?%elem_of_al_elems; [done|apply sm_sorted]. Qed.

(** What an update of the own map leaves alone. *)
Definition same_frame l q q' : Prop :=
  o_shared q' = o_shared q ∧ o_len q' = o_len q
  ∧ o_local_capacity q' = o_local_capacity q
  ∧ length (o_locals q') = length (o_locals q)
  ∧ (∀ i, i ≠ ol_queue l → o_locals q' !! i = o_locals q !! i).

Lemma set_my_map_frame l q m : same_frame l q (o_set_local q (ol_queue l) m).
Proof.
  split_and!; try done; simpl; [by rewrite length_insert|].
  intros i Hi. by rewrite list_lookup_insert_ne.
Qed.

Lemma same_frame_trans l q1 q2 q3 :
  same_frame l q1 q2 → same_frame l q2 q3 → same_frame l q1 q3.
Proof.
  intros (? & ? & ? & ? & Ha) (? & ? & ? & ? & Hb).
  split_and!; try congruence. intros i Hi. by rewrite Hb, Ha.
Qed.

Lemma entry_pop_spec l k q v q' :
  o_wf q → ol_wf l q → entry_pop l k q = (v, q') →
  o_wf q' ∧ same_frame l q q'
  ∧ (sm_iter (my_map l q')).*1 = (sm_iter (my_map l q)).*1
  ∧ match v with
    | Some x => my_elems l q ≡ₚ (k, x) :: my_elems l q' ∧ o_elems q ≡ₚ (k, x) :: o_elems q'
        ∧ ∃ w r, sm_get (my_map l q) k = Some w ∧ w_elems w = x :: r
    | None => my_elems l q ≡ₚ my_elems l q' ∧ o_elems q ≡ₚ o_elems q'
        ∧ ∀ y, (k, y) ∉ my_elems l q
    end.
Proof.
  intros Hq Hl. unfold entry_pop.
  destruct (sm_get (my_map l q) k) as [w|] eqn:Eg.
  2: { intros; simplify_eq. split_and!; try done.
       intros y (w & ? & _)%my_elems_key. congruence. }
  pose proof (w_pop_elems w) as Hp. pose proof (w_pop_capacity (T:=T) w) as Hcap.
  destruct (w_pop w) as [u w'] eqn:Ew. simpl in *. intros; simplify_eq.
  assert (o_wf (o_set_local q (ol_queue l) (sm_set (my_map l q) k w'))) as Hwf.
  { apply o_set_local_wf; [done|]. rewrite sm_set_iter.
    pose proof (my_map_caps l q Hq Hl) as Hcaps.
    apply al_set_caps; [done|]. rewrite Hcap. by eapply al_get_caps. }
  split_and!; [done|apply set_my_map_frame|..].
  { rewrite my_map_set by done. by rewrite sm_set_iter, al_set_keys. }
  pose proof (my_map_lookup _ _ Hl) as Hm.
  assert (my_elems l (o_set_local q (ol_queue l) (sm_set (my_map l q) k w'))
    = map_elems (sm_set (my_map l q) k w')) as ->.
  { unfold my_elems. by rewrite my_map_set. }
  change (my_elems l q) with (map_elems (my_map l q)).
  assert (map_elems (sm_set (my_map l q) k w')
    = al_elems w_elems (al_set (sm_iter (my_map l q)) k w')) as Hset.
  { unfold map_elems. by rewrite sm_set_iter. }
  destruct (w_elems w) as [|x r] eqn:Ee; destruct Hp as [-> Hp].
  - assert (map_elems (my_map l q) ≡ₚ map_elems (sm_set (my_map l q) k w')) as Hsame.
    { rewrite Hset. symmetry. apply al_elems_set_same with w; [done|congruence]. }
    split_and!; [done|by apply (o_set_local_remove _ _ _ _ [] Hm)|].
    intros y (u & Hu & Hy)%my_elems_key. simplify_eq. rewrite Ee in Hy. set_solver.
  - assert (map_elems (my_map l q) ≡ₚ (k, x) :: map_elems (sm_set (my_map l q) k w'))
      as Hhd.
    { rewrite Hset. apply al_elems_set_head with w; [done|]. by rewrite Ee, Hp. }
    split_and!; [done|by apply (o_set_local_remove _ _ _ _ [(k, x)] Hm)|by exists w, r].
Qed.

(** ** OrderedLocalQueue::push_with_priority *)

Lemma frame_wf l q q' : same_frame l q q' → ol_wf l q → ol_wf l q'.
Proof. intros (_ & _ & _ & Hn & _). unfold ol_wf. by rewrite Hn. Qed.

(** What one pass over the own FIFOs does, [n] being the moved elements. *)
Definition spilled l q q' (n : Z) : Prop :=
  o_wf q' ∧ ol_wf l q' ∧ o_elems q' ≡ₚ o_elems q
  ∧ Zlen (my_elems l q') = Zlen (my_elems l q) - n ∧ 0 ≤ n
  ∧ o_len q' ≤ o_len q + n ∧ o_local_capacity q' = o_local_capacity q.

Lemma spilled_trans l q1 q2 q3 n m :
  spilled l q1 q2 n → spilled l q2 q3 m → spilled l q1 q3 (n + m).
Proof.
  intros (? & ? & He & ? & ? & ? & ?) (? & ? & He' & ? & ? & ? & ?).
  split_and!; try done; try lia; try congruence. by rewrite He', He.
Qed.

Lemma entry_pop_spill l k q v q1 :
  o_wf q → ol_wf l q → o_len q < usize_max → entry_pop l k q = (v, q1) →
  match v with
  | Some x => spilled l q (o_push_with_priority k x q1) 1
  | None => spilled l q q1 0 ∧ my_elems l q ≡ₚ my_elems l q1
            ∧ ∀ y, (k, y) ∉ my_elems l q
  end.
Proof.
  intros Hq Hl Hm E. destruct (entry_pop_spec _ _ _ _ _ Hq Hl E) as (Hq1 & Hf & _ & Hv).
  pose proof (frame_wf _ _ _ Hf Hl). destruct Hf as (_ & Hlen & Hc & _ & _).
  destruct v as [x|].
  - destruct Hv as (Hm1 & He1 & _). pose proof (Zlen_Permutation _ _ Hm1) as Hz.
    autorewrite with oc in Hz. split_and!; try done.
    + apply o_push_wf; [done|lia].
    + by rewrite o_push_all, He1.
    + change (my_elems l (o_push_with_priority k x q1)) with (my_elems l q1). lia.
    + simpl. unfold sat_add. lia.
  - destruct Hv as (Hm1 & He1 & Hn). pose proof (Zlen_Permutation _ _ Hm1).
    split_and!; try done; try lia. split_and!; try done; try lia.
Qed.

Lemma ptg_pass_spec keys done count l q done' q' :
  o_wf q → ol_wf l q → done ≤ count → o_len q + (count - done) < usize_max →
  ptg_pass keys done count l q = (done', q') →
  spilled l q q' (done' - done) ∧ done' ≤ count
  ∧ (done < count → (∃ p y, p ∈ keys ∧ (p, y) ∈ my_elems l q) → done < done').
Proof.
  revert done q. induction keys as [|k keys IH]; intros done q Hq Hl Hd Hm; simpl.
  { intros; simplify_eq. rewrite Z.sub_diag. split_and!; try done; try lia.
    - split_and!; try done; lia.
    - intros _ (p & y & Hp & _). by apply not_elem_of_nil in Hp. }
  destruct (count <=? done) eqn:E; breflect.
  { intros; simplify_eq. rewrite Z.sub_diag. split_and!; try lia. split_and!; try done; lia. }
  destruct (entry_pop l k q) as [v q1] eqn:Ep.
  pose proof (entry_pop_spill l k q v q1 Hq Hl ltac:(lia) Ep) as Hs. destruct v as [x|].
  - intros Hr. pose proof Hs as (Hq2 & Hl2 & _ & _ & _ & Hlen & _).
    apply IH in Hr as (Hs' & ? & _); [|done|done|lia|lia].
    pose proof Hs' as (_ & _ & _ & _ & ? & _). split_and!; [|done|lia].
    replace (done' - done) with (1 + (done' - (done + 1))) by lia.
    by eapply spilled_trans.
  - destruct Hs as (Hs & Hperm & Hk). pose proof Hs as (Hq2 & Hl2 & _ & _ & _ & Hlen & _).
    intros Hr. apply IH in Hr as (Hs' & ? & Hprog); [|done|done|done|lia]. split_and!.
    + by apply (spilled_trans _ _ _ _ 0 _ Hs) in Hs'.
    + done.
    + intros ? (p & y & [->|Hp]%elem_of_cons & Hin); [by destruct (Hk y)|].
      apply Hprog; [done|]. exists p, y. split; [done|]. by rewrite <-Hperm.
Qed.

Lemma my_elems_nonempty l q :
  0 < Zlen (my_elems l q) →
  ∃ p y, p ∈ reverse ((sm_iter (my_map l q)).*1) ∧ (p, y) ∈ my_elems l q.
Proof.
  destruct (my_elems l q) as [|[p y] es] eqn:E; [done|]. intros _.
  exists p, y. split; [|set_solver]. apply elem_of_reverse.
  assert ((p, y) ∈ my_elems l q) as (w & Hw & _)%my_elems_key by (rewrite E; set_solver).
  apply al_get_elem_of in Hw. apply list_elem_of_fmap. by exists (p, w).
Qed.

Lemma ptg_loop_spec fuel done count l q :
  o_wf q → ol_wf l q → done ≤ count → o_len q + (count - done) < usize_max →
  count - done ≤ Zlen (my_elems l q) → count - done ≤ Z.of_nat fuel →
  ∃ q', ptg_loop fuel done count l q = Some q' ∧ spilled l q q' (count - done).
Proof.
  revert done q. induction fuel as [|fuel IH]; intros done q Hq Hl Hd Hm Hc Hf; simpl.
  { assert (done = count) as -> by lia. rewrite Z.ltb_irrefl, Z.sub_diag.
    exists q. split; [done|]. split_and!; try done; lia. }
  destruct (done <? count) eqn:E; breflect.
  2: { assert (done = count) as -> by lia. rewrite Z.sub_diag.
       exists q. split; [done|]. split_and!; try done; lia. }
  destruct (ptg_pass _ done count l q) as [done1 q1] eqn:Ep.
  destruct (ptg_pass_spec _ _ _ _ _ _ _ Hq Hl Hd Hm Ep) as (Hs & Hle & Hprog).
  assert (done < done1) by (apply Hprog; [done|]; apply my_elems_nonempty; lia).
  pose proof Hs as (Hq1 & Hl1 & _ & Hz & _ & Hlen & _).
  destruct (IH done1 q1) as (q2 & Hq2 & Hs2); try done; try lia.
  exists q2. split; [done|].
  replace (count - done) with ((done1 - done) + (count - done1)) by lia.
  by eapply spilled_trans.
Qed.

(** The spill path of [push_with_priority]: with an exact counter it
    terminates and keeps the counter exact. *)
Lemma push_to_global_spec fuel p x l q :
  o_wf q → ol_wf l q → ol_exact l q → o_len q + ol_len l < usize_max →
  ol_len l ≤ Z.of_nat fuel →
  ∃ l' q', push_to_global fuel p x l q = Some (l', q')
    ∧ o_elems q' ≡ₚ (p, x) :: o_elems q ∧ o_wf q' ∧ ol_wf l' q' ∧ ol_exact l' q'
    ∧ ol_queue l' = ol_queue l.
Proof.
  intros Hq Hl Hx Hm Hf. unfold push_to_global, ol_exact in *.
  pose proof (Zlen_nonneg (my_elems l q)).
  assert (0 ≤ ol_len l / 2 ≤ ol_len l) by dlia.
  destruct (ptg_loop_spec fuel 0 (ol_len l / 2) l q) as (q1 & -> & Hs); try done; try lia.
  destruct Hs as (Hq1 & Hl1 & He & Hz & _ & Hlen & _). simpl.
  eexists _, _. split; [done|]. split_and!; try done.
  - by rewrite o_push_all, He.
  - apply o_push_wf; [done|lia].
  - change (my_elems (ol_set_len l (sat_sub (ol_len l) (ol_len l / 2)))
      (o_push_with_priority p x q1)) with (my_elems l q1).
    simpl. unfold sat_sub. lia.
Qed.

(** Creating the FIFO of a priority in the own map changes no content. *)
Lemma goi_my_map l q p m q1 :
  o_wf q → ol_wf l q →
  m = sm_get_or_insert (my_map l q) p (w_new (o_local_capacity q)) →
  q1 = o_set_local q (ol_queue l) m →
  map_elems m = my_elems l q ∧ o_wf q1 ∧ ol_wf l q1 ∧ o_elems q1 ≡ₚ o_elems q
  ∧ my_map l q1 = m
  ∧ ∃ w, sm_get m p = Some w ∧ o_local_capacity q ≤ w_capacity w.
Proof.
  intros Hq Hl Em ->.
  assert (map_elems m = my_elems l q) as Hme.
  { unfold map_elems. rewrite Em, sm_get_or_insert_iter.
    apply al_elems_get_or_insert, w_new_elems. }
  assert (Forall (λ kv, o_local_capacity q ≤ w_capacity kv.2) (sm_iter m)) as Hcaps.
  { rewrite Em, sm_get_or_insert_iter.
    apply al_goi_caps; [by apply my_map_caps|apply w_new_capacity]. }
  split_and!; try done.
  - by apply o_set_local_wf.
  - unfold ol_wf. simpl. by rewrite length_insert.
  - apply (o_set_local_add _ _ _ _ [] (my_map_lookup _ _ Hl)). by rewrite Hme.
  - by apply my_map_set.
  - pose proof (sm_get_goi (my_map l q) p (w_new (o_local_capacity q))) as Hg.
    rewrite <-Em in Hg. eexists. split; [exact Hg|]. by eapply al_get_caps.
Qed.

(** Pushing into that FIFO. *)
Lemma push_my_map l q p m w w' x :
  o_wf q → ol_wf l q → sm_get m p = Some w → w_elems w' = w_elems w ++ [x] →
  w_capacity w' = w_capacity w → my_map l q = m →
  let q' := o_set_local q (ol_queue l) (sm_set m p w') in
  o_elems q' ≡ₚ (p, x) :: o_elems q ∧ o_wf q'
  ∧ my_elems l q' ≡ₚ (p, x) :: my_elems l q.
Proof.
  intros Hq Hl Hg Hwe Hwc <- q'.
  assert (map_elems (sm_set (my_map l q) p w') ≡ₚ (p, x) :: my_elems l q) as Hset.
  { unfold my_elems, map_elems. rewrite sm_set_iter. by apply al_elems_set_push with w. }
  split_and!.
  - by apply (o_set_local_add q _ _ _ [(p, x)] (my_map_lookup _ _ Hl)).
  - apply o_set_local_wf; [done|]. rewrite sm_set_iter.
    pose proof (my_map_caps l q Hq Hl). apply al_set_caps; [done|].
    rewrite Hwc. by eapply al_get_caps.
  - unfold q', my_elems at 1. by rewrite my_map_set.
Qed.

Lemma ol_push_spec fuel p x l q :
  o_wf q → ol_wf l q → ol_exact l q → o_len q + ol_len l < usize_max →
  ol_len l ≤ Z.of_nat fuel →
  ∃ l' q', ol_push_with_priority fuel p x l q = Some (l', q')
    ∧ o_elems q' ≡ₚ (p, x) :: o_elems q ∧ o_wf q' ∧ ol_wf l' q' ∧ ol_exact l' q'
    ∧ ol_queue l' = ol_queue l.
Proof.
  intros Hq Hl Hx Hm Hf. unfold ol_push_with_priority.
  destruct (is_local_full l q); [by apply push_to_global_spec|].
  destruct (goi_my_map l q p _ _ Hq Hl eq_refl eq_refl)
    as (Hme & Hq1 & Hl1 & He1 & Hmy & w & Hw & _).
  set (m := sm_get_or_insert _ _ _) in *. set (q1 := o_set_local q _ m) in *.
  assert (ol_exact l q1) as Hx1.
  { unfold ol_exact, my_elems in *. by rewrite Hmy, Hme. }
  rewrite Hw. simpl. destruct (w_push w x) as [w'|] eqn:Ew.
  - apply w_push_some in Ew as [Hwe Hwc].
    destruct (push_my_map l q1 p m w w' x Hq1 Hl1 Hw Hwe Hwc Hmy) as (He & Hwf & Hset).
    eexists _, _. split; [done|]. split_and!; try done.
    + by rewrite He, He1.
    + unfold ol_wf in *. simpl in *. by rewrite length_insert.
    + unfold ol_exact in *. change (my_elems (ol_set_len l ?n) ?q) with (my_elems l q).
      rewrite (Zlen_Permutation _ _ Hset). autorewrite with oc. simpl. unfold sat_add.
      pose proof (Zlen_nonneg (shared_elems q)). destruct Hq as (Hql & _). lia.
  - destruct (push_to_global_spec fuel p x l q1) as (l' & q' & -> & He & ?); try done.
    eexists _, _. split; [done|]. by rewrite He, He1.
Qed.

(** C4. [OrderedLocalQueue::push_with_priority] terminates and conserves work
    while the handle's counter is exact: the element is added under its
    priority, nothing is lost or duplicated when half of the local queue moves
    to the shared queue, and both counters stay exact. *)
Theorem ol_push_conserves fuel p x l q :
  o_wf q → ol_wf l q → ol_exact l q → o_len q + ol_len l < usize_max →
  ol_len l ≤ Z.of_nat fuel →
  ∃ l' q', ol_push_with_priority fuel p x l q = Some (l', q')
    ∧ o_elems q' ≡ₚ (p, x) :: o_elems q ∧ o_wf q' ∧ ol_wf l' q' ∧ ol_exact l' q'
    ∧ ol_queue l' = ol_queue l.
Proof. apply ol_push_spec. Qed.

(** ** OrderedLocalQueue::pop *)

Definition pop_local_post (keys : list Z) l q (v : option T) l' q' : Prop :=
  o_wf q' ∧ same_frame l q q' ∧ ol_queue l' = ol_queue l
  ∧ ol_stealing l' = ol_stealing l
  ∧ match v with
    | Some x => ∃ k, my_elems l q ≡ₚ (k, x) :: my_elems l q'
        ∧ o_elems q ≡ₚ (k, x) :: o_elems q' ∧ ol_len l' = sat_sub (ol_len l) 1
        ∧ ∀ p y, (p, y) ∈ my_elems l q → p ∈ keys → k ≤ p
    | None => l' = l ∧ my_elems l q ≡ₚ my_elems l q' ∧ o_elems q ≡ₚ o_elems q'
        ∧ ∀ p y, (p, y) ∈ my_elems l q → p ∉ keys
    end.

Lemma pop_local_entries_spec keys l q v l' q' :
  o_wf q → ol_wf l q → StronglySorted Z.lt keys →
  pop_local_entries keys l q = (v, l', q') → pop_local_post keys l q v l' q'.
Proof.
  revert q. induction keys as [|k keys IH]; intros q Hq Hl Hs; simpl.
  { intros; simplify_eq. split_and!; try done. intros p y _. apply not_elem_of_nil. }
  apply StronglySorted_inv in Hs as [Hs Hk]. rewrite Forall_forall in Hk.
  destruct (entry_pop l k q) as [u q1] eqn:Ep.
  destruct (entry_pop_spec _ _ _ _ _ Hq Hl Ep) as (Hq1 & Hf & _ & Hv).
  destruct u as [x|].
  - intros; simplify_eq. destruct Hv as (? & ? & _). split_and!; try done.
    exists k. split_and!; try done.
    intros p y _ [->|Hp]%elem_of_cons; [lia|]. apply Hk in Hp. lia.
  - destruct Hv as (Hm & He & Hn). intros Hr.
    apply IH in Hr as (Hq2 & Hf2 & ? & ? & Hv); [|done|by eapply frame_wf|done].
    split_and!; try done; [by eapply same_frame_trans|]. destruct v as [x|].
    + destruct Hv as (k' & ? & ? & ? & Hmin). exists k'.
      split_and!; [by rewrite Hm|by rewrite He|done|].
      intros p y Hin [->|?]%elem_of_cons; [by destruct (Hn y)|].
      rewrite Hm in Hin. eauto.
    + destruct Hv as (-> & ? & ? & Hno).
      split_and!; [done|by rewrite Hm|by rewrite He|].
      intros p y Hin [->|?]%elem_of_cons; [by destruct (Hn y)|].
      rewrite Hm in Hin. by eapply Hno.
Qed.

Lemma my_elem_in_keys l q p y :
  (p, y) ∈ my_elems l q → p ∈ (sm_iter (my_map l q)).*1.
Proof.
  intros (w & Hw%al_get_elem_of & _)%my_elems_key.
  apply list_elem_of_fmap. by exists (p, w).
Qed.

Lemma pop_local_spec l q v l' q' :
  o_wf q → ol_wf l q → pop_local l q = (v, l', q') →
  o_wf q' ∧ same_frame l q q' ∧ ol_queue l' = ol_queue l ∧ ol_stealing l' = ol_stealing l
  ∧ (ol_exact l q → ol_exact l' q')
  ∧ match v with
    | Some x => ∃ k, my_elems l q ≡ₚ (k, x) :: my_elems l' q'
        ∧ o_elems q ≡ₚ (k, x) :: o_elems q'
        ∧ ∀ p y, (p, y) ∈ my_elems l q → k ≤ p
    | None => l' = l ∧ my_elems l q = [] ∧ my_elems l q' = [] ∧ o_elems q ≡ₚ o_elems q'
    end.
Proof.
  intros Hq Hl Hp. apply pop_local_entries_spec in Hp as (? & Hf & Hlq & ? & Hv);
    [|done|done|apply sm_sorted].
  assert (my_elems l' q' = my_elems l q') as Hmy.
  { unfold my_elems, my_map. by rewrite Hlq. }
  unfold ol_exact. rewrite Hmy. split_and!; try done.
  - destruct v as [x|].
    + destruct Hv as (k & Hm & _ & -> & _). intros ->.
      rewrite (Zlen_Permutation _ _ Hm). autorewrite with oc.
      pose proof (Zlen_nonneg (my_elems l q')). unfold sat_sub. lia.
    + destruct Hv as (-> & Hm & _). intros ->. by apply Zlen_Permutation.
  - destruct v as [x|].
    + destruct Hv as (k & ? & ? & ? & Hmin). exists k. split_and!; try done.
      intros p y Hin. eapply Hmin; [done|]. by eapply my_elem_in_keys.
    + destruct Hv as (-> & Hm & ? & Hno). assert (my_elems l q = []) as Hnil;
        [|split_and!; try done; apply Permutation_nil_r; by rewrite <-Hm, Hnil].
      destruct (my_elems l q) as [|[p y] es] eqn:E; [done|]. exfalso.
      assert ((p, y) ∈ my_elems l q) as Hin by (rewrite E; by apply elem_of_cons; left).
      rewrite <-E in Hno. apply (Hno p y Hin). by apply (my_elem_in_keys l q p y).
Qed.

(** A thread works on its own queue by priority: [pop_local] returns an
    element of the smallest priority in the local queue and removes only it,
    and returns [None] exactly when the local queue is empty; an exact counter
    stays exact. *)
Theorem pop_local_highest_priority l q v l' q' :
  o_wf q → ol_wf l q → pop_local l q = (v, l', q') →
  o_wf q' ∧ (ol_exact l q → ol_exact l' q')
  ∧ match v with
    | Some x => ∃ k, my_elems l q ≡ₚ (k, x) :: my_elems l' q'
        ∧ o_elems q ≡ₚ (k, x) :: o_elems q'
        ∧ ∀ p y, (p, y) ∈ my_elems l q → k ≤ p
    | None => my_elems l q = [] ∧ o_elems q ≡ₚ o_elems q'
    end.
Proof.
  intros Hq Hl Hp. destruct (pop_local_spec _ _ _ _ _ Hq Hl Hp) as (? & _ & _ & _ & ? & Hv).
  split_and!; try done. destruct v; [done|]. by destruct Hv as (_ & ? & _ & ?).
Qed.

(** No other thread is in the middle of a steal from a sibling of [l]. *)
Definition o_siblings_idle l q : Prop :=
  ∀ i m k w, i ≠ ol_queue l → o_locals q !! i = Some m →
    sm_get m k = Some w → w_busy w = false.

(** The FIFOs of an empty map are empty, and a key without elements has no
    tagged element. *)
Lemma map_get_nil (m : SM W) k w :
  map_elems m = [] → sm_get m k = Some w → w_elems w = [].
Proof.
  intros He Hk. destruct (w_elems w) as [|y r] eqn:E; [done|].
  assert ((k, y) ∈ map_elems m) as Hin.
  { apply elem_of_al_elems; [apply sm_sorted|]. exists w. rewrite E. set_solver. }
  rewrite He in Hin. by apply not_elem_of_nil in Hin.
Qed.

Lemma map_no_elem (m : SM W) k y :
  (∀ w, sm_get m k = Some w → w_elems w = []) → (k, y) ∉ map_elems m.
Proof.
  intros Hk (w & Hw & Hy)%elem_of_al_elems; [|apply sm_sorted].
  rewrite (Hk w Hw) in Hy. by apply not_elem_of_nil in Hy.
Qed.

(** What a successful steal guarantees: work moved to the own, now non-empty,
    queue, whose counter is exact. *)
Definition stolen l q l' q' : Prop :=
  o_wf q' ∧ ol_wf l' q' ∧ ol_queue l' = ol_queue l ∧ ol_stealing l' = ol_stealing l
  ∧ o_elems q ≡ₚ o_elems q' ∧ o_shared q' = o_shared q
  ∧ ol_exact l' q' ∧ my_elems l' q' ≠ [].

(** Stealing one batch from the FIFO [k] of the sibling [i]. *)
Lemma steal_batch l q i k another worker into f n worker' into' :
  o_wf q → ol_wf l q → my_elems l q = [] → i ≠ ol_queue l →
  o_locals q !! i = Some another → sm_get another k = Some worker →
  sm_get (my_map l q) k = Some into →
  w_steal worker into f = (Some n, worker', into') → n ≤ usize_max → ol_len l = 0 →
  let q2 := o_set_local q i (sm_set (o_locals q !!! i) k worker') in
  let q3 := o_set_local q2 (ol_queue l) (sm_set (my_map l q2) k into') in
  stolen l q
    (ol_set_len l (sat_add usize_max (ol_len l) (w_capacity into' - w_spare_capacity into')))
    q3.
Proof.
  intros Hq Hl He Hi Ha Hw Hinto Hs Hn Hlen q2 q3.
  apply w_steal_ok in Hs as (moved & Hsrc & Hdst & Hmv & Hb & Hc1 & Hc2).
  assert (o_locals q !!! i = another) as Hai by by apply list_lookup_total_correct.
  assert (w_elems into = []) as Hie.
  { by apply map_get_nil with (my_map l q) k. }
  rewrite Hie in Hdst. simpl in Hdst.
  assert (my_map l q2 = my_map l q) as Hmm.
  { unfold my_map, q2. simpl. rewrite !list_lookup_total_alt. by rewrite list_lookup_insert_ne. }
  assert (ol_wf l q2) as Hl2 by (unfold ol_wf, q2; simpl; by rewrite length_insert).
  assert (o_wf q2) as Hq2.
  { apply o_set_local_wf; [done|]. rewrite Hai, sm_set_iter.
    destruct Hq as (_ & _ & Hcs). pose proof (Forall_lookup_1 _ _ _ _ Hcs Ha) as Hca.
    simpl in Hca. apply al_set_caps; [done|]. rewrite Hc1.
    exact (al_get_caps _ _ _ _ Hca Hw). }
  assert (map_elems (sm_set (my_map l q2) k into') ≡ₚ tag k moved ++ my_elems l q) as Hset.
  { unfold my_elems, map_elems. rewrite Hmm, sm_set_iter.
    apply al_elems_set_add with into; [done|]. by rewrite Hdst, Hie. }
  assert (my_elems (ol_set_len l (sat_add usize_max (ol_len l)
    (w_capacity into' - w_spare_capacity into'))) q3 ≡ₚ tag k moved) as Hmy.
  { unfold my_elems, q3, my_map at 1. simpl. rewrite list_lookup_total_insert_eq by done.
    by rewrite Hset, He, app_nil_r. }
  split_and!; try done.
  - apply o_set_local_wf; [done|]. rewrite sm_set_iter.
    pose proof (my_map_caps l q2 Hq2 Hl2) as Hca. apply al_set_caps; [done|].
    rewrite Hc2. eapply al_get_caps; [done|]. rewrite Hmm. done.
  - unfold ol_wf, q3. simpl. by rewrite !length_insert.
  - rewrite (o_set_local_remove q i another (sm_set another k worker') (tag k moved) Ha).
    + unfold q3. rewrite (o_set_local_add q2 (ol_queue l) (my_map l q2) _ (tag k moved)).
      * unfold q2. by rewrite Hai.
      * by apply my_map_lookup.
      * by rewrite Hset, Hmm.
    + unfold map_elems. rewrite sm_set_iter. by apply al_elems_set_remove with worker.
  - unfold ol_exact. rewrite (Zlen_Permutation _ _ Hmy). simpl. rewrite Hlen, w_spare_spec, Hdst.
    unfold tag, Zlen in *. rewrite length_fmap. unfold sat_add. lia.
  - intros Hnil. rewrite Hnil in Hmy. apply Permutation_nil_l in Hmy.
    destruct moved; [|done]. autorewrite with oc in Hmv. lia.
Qed.

(** With an idle, non-empty victim and an empty own queue the steal succeeds. *)
Lemma steal_succeeds l q (worker into : W) :
  o_wf q → ol_len l = 0 → w_elems worker ≠ [] → w_elems into = [] →
  o_local_capacity q ≤ w_capacity into → w_busy worker = false →
  ∃ n worker' into',
    w_steal worker into (λ n,
      Z.min (Z.min n (o_max_steal l q))
        (sat_add usize_max
           (sat_sub (w_capacity worker) (w_spare_capacity worker)) 1 / 2))
    = (Some n, worker', into') ∧ n ≤ usize_max.
Proof.
  intros (_ & Hc & _) Hlen Hw Hi Hcap Hb.
  destruct (w_steal worker into _) as [[[n|] worker'] into'] eqn:E.
  - exists n, worker', into'. split; [done|].
    apply w_steal_ok in E as (moved & _ & _ & _ & Hn & _).
    unfold o_max_steal, sat_sub, sat_add, usize_max in *. dlia.
  - exfalso. apply w_steal_progress in E as [E|[E|[E|E]]]; [congruence|done|..].
    + rewrite Hi in E. autorewrite with oc in E. lia.
    + unfold o_max_steal, sat_sub, sat_add in E. rewrite Hlen, w_spare_spec in E.
      destruct (w_elems worker) as [|x r]; [done|]. autorewrite with oc in E.
      pose proof (Zlen_nonneg r). unfold usize_max in E. dlia.
Qed.

Lemma stolen_from l q q1 l' q' :
  o_elems q1 ≡ₚ o_elems q → o_shared q1 = o_shared q →
  stolen l q1 l' q' → stolen l q l' q'.
Proof.
  intros He Hs (? & ? & ? & ? & He' & Hs' & ? & ?). split_and!; try done.
  - by rewrite <-He.
  - congruence.
Qed.

Lemma steal_entries_spec i keys another l q b l' q' :
  o_wf q → ol_wf l q → my_elems l q = [] → ol_len l = 0 → o_siblings_idle l q →
  o_locals q !! i = Some another → steal_entries i keys l q = (b, l', q') →
  if b then stolen l q l' q'
  else l' = l ∧ q' = q ∧ ∀ p y, p ∈ keys → (p, y) ∉ map_elems another.
Proof.
  intros Hq Hl He Hlen Hidle Ha. induction keys as [|k keys IH]; simpl.
  { intros; simplify_eq. split_and!; try done. intros p y Hp. by apply not_elem_of_nil in Hp. }
  assert ((∀ w, sm_get another k = Some w → w_elems w = []) →
    steal_entries i keys l q = (b, l', q') →
    if b then stolen l q l' q'
    else l' = l ∧ q' = q ∧ ∀ p y, p ∈ k :: keys → (p, y) ∉ map_elems another) as Hskip.
  { intros Hk Hr. apply IH in Hr. destruct b; [done|]. destruct Hr as (? & ? & Hn).
    split_and!; try done. intros p y [->|?]%elem_of_cons; [by apply map_no_elem|by apply Hn]. }
  rewrite Ha. simpl. destruct (sm_get another k) as [worker|] eqn:Ew; simpl;
    [|by apply Hskip].
  destruct (w_is_empty worker) eqn:Eempty.
  { apply w_is_empty_spec in Eempty. apply Hskip. by intros; simplify_eq. }
  assert (w_elems worker ≠ []) as Hne.
  { intros Hnil. apply w_is_empty_spec in Hnil. congruence. }
  assert (i ≠ ol_queue l) as Hi.
  { intros ->. rewrite (my_map_lookup _ _ Hl) in Ha. simplify_eq.
    apply Hne. by apply map_get_nil with (my_map l q) k. }
  destruct (goi_my_map l q k _ _ Hq Hl eq_refl eq_refl)
    as (Hme & Hq1 & Hl1 & He1 & Hmy & into & Hinto & Hcap).
  set (q1 := o_set_local q _ _) in *. rewrite Hmy, Hinto.
  assert (my_elems l q1 = []) as Hmy1 by (unfold my_elems; by rewrite Hmy, Hme).
  rewrite <-Hmy in Hinto. pose proof (map_get_nil _ _ _ Hmy1 Hinto) as Hie.
  destruct (steal_succeeds l q1 worker into Hq1 Hlen Hne Hie Hcap)
    as (n & worker' & into' & Hst & Hn); [by apply (Hidle i another k)|].
  rewrite Hst. intros; simplify_eq.
  apply (stolen_from _ _ q1); [done|done|].
  eapply steal_batch; [exact Hq1|exact Hl1|exact Hmy1|exact Hi| |exact Ew|exact Hinto
    |exact Hst|exact Hn|exact Hlen].
  simpl. by rewrite list_lookup_insert_ne.
Qed.

Lemma steal_siblings_spec idxs l q b l' q' :
  o_wf q → ol_wf l q → my_elems l q = [] → ol_len l = 0 → o_siblings_idle l q →
  steal_siblings idxs l q = (b, l', q') →
  if b then stolen l q l' q'
  else l' = l ∧ q' = q
       ∧ ∀ i m, i ∈ idxs → o_locals q !! i = Some m → map_elems m = [].
Proof.
  intros Hq Hl He Hlen Hidle. assert (o_can_steal l q = true) as Hcan.
  { unfold o_can_steal, sat_add. rewrite Hlen. destruct Hq as (_ & Hc & _). apply Z.ltb_lt.
    unfold usize_max. dlia. }
  induction idxs as [|i idxs IH]; simpl.
  { intros; simplify_eq. split_and!; try done. intros i m Hi. by apply not_elem_of_nil in Hi. }
  assert ((∀ m, o_locals q !! i = Some m → map_elems m = []) →
    steal_siblings idxs l q = (b, l', q') →
    if b then stolen l q l' q'
    else l' = l ∧ q' = q
         ∧ ∀ j m, j ∈ i :: idxs → o_locals q !! j = Some m → map_elems m = []) as Hskip.
  { intros Hn Hr. apply IH in Hr. destruct b; [done|]. destruct Hr as (? & ? & Hr).
    split_and!; try done. intros j m [->|Hj]%elem_of_cons Hm; [by apply Hn|by apply (Hr j)]. }
  destruct (o_locals q !! i) as [another|] eqn:Ea; [|by apply Hskip].
  rewrite Hcan. simpl. destruct (steal_entries i _ l q) as [[b1 l1] q1] eqn:Es.
  apply (steal_entries_spec _ _ another) in Es; try done. destruct b1; [by intros; simplify_eq|].
  destruct Es as (-> & -> & Hn). apply Hskip. intros m Hm. simplify_eq.
  destruct (map_elems m) as [|[p y] r] eqn:E; [done|].
  assert ((p, y) ∈ map_elems m) as Hin by (rewrite E; by apply elem_of_cons; left).
  exfalso. apply (Hn p y); [|by apply elem_of_cons; left]. apply elem_of_al_elems in Hin as (w & Hw & _); [|apply sm_sorted].
  apply al_get_elem_of in Hw. apply list_elem_of_fmap. by exists (p, w).
Qed.

Lemma o_steal_order_complete start num (i : nat) :
  0 ≤ start < num → Z.of_nat i < num → i ∈ o_steal_order start num.
Proof. apply rotation_complete. Qed.

Lemma o_elems_nil q :
  (∀ i m, o_locals q !! i = Some m → map_elems m = []) → shared_elems q = [] →
  o_elems q = [].
Proof.
  intros Hn Hs. unfold o_elems. rewrite Hs, app_nil_r. apply concat_all_nil.
  intros i k. rewrite list_lookup_fmap_Some. naive_solver.
Qed.

(** The shared queue can be drained with this fuel, or is known to be empty. *)
Definition drainable (fuel : nat) q : Prop :=
  retries_below fuel ((sm_iter (o_shared q)).*1) q ∨ o_len q = 0.

Lemma o_pop_drain fuel q :
  o_wf q → drainable fuel q →
  ∃ v q', o_pop fuel q = Some (v, q') ∧ o_wf q' ∧ o_locals q' = o_locals q
    ∧ match v with
      | Some x => ∃ k, o_elems q ≡ₚ (k, x) :: o_elems q'
      | None => o_elems q ≡ₚ o_elems q' ∧ shared_elems q = [] ∧ shared_elems q' = []
                ∧ o_len q' = 0
      end.
Proof.
  intros Hq [Hr|Hz].
  - destruct (o_pop_spec fuel q Hq Hr) as (v & q' & -> & ? & Hl & _ & Hv).
    exists v, q'. split_and!; try done. unfold o_elems. rewrite Hl. destruct v as [x|].
    + destruct Hv as (k & _ & _ & _ & _ & Hp & _). exists k. rewrite Hp.
      symmetry. apply Permutation_middle.
    + destruct Hv as (-> & -> & ?). by split_and!.
  - exists None, q. unfold o_pop, o_is_empty. rewrite Hz. simpl.
    assert (shared_elems q = []) by (apply Zlen_zero; destruct Hq; lia). by split_and!.
Qed.

(** What [pop] establishes, with or without an element. *)
Definition popped q (v : option T) q' : Prop :=
  match v with
  | Some x => ∃ k, o_elems q ≡ₚ (k, x) :: o_elems q'
  | None => o_elems q = [] ∧ o_elems q' = []
  end.

Lemma o_pop_steal_spec fuel start l q :
  o_wf q → ol_wf l q → ol_exact l q → ol_stealing l = false → my_elems l q = [] →
  o_siblings_idle l q → drainable fuel q → 0 ≤ start < Zlen (o_locals q) →
  ∃ v l' q', o_pop_steal fuel start l q = Some (v, l', q')
    ∧ o_wf q' ∧ ol_wf l' q' ∧ ol_exact l' q' ∧ ol_stealing l' = false ∧ popped q v q'.
Proof.
  intros Hq Hl Hx Hs He Hi Hr Hst. unfold o_pop_steal, o_try_lock. rewrite Hs.
  assert (ol_len l = 0) as Hlen by (rewrite Hx, He; done).
  set (l2 := mkOLQ (ol_tick l) true (ol_queue l) (ol_len l)).
  destruct (steal_siblings _ l2 q) as [[b l3] q3] eqn:Est.
  apply steal_siblings_spec in Est; try done. destruct b.
  - destruct Est as (Hq3 & Hl3 & Hlq3 & _ & He3 & _ & Hx3 & Hne).
    destruct (pop_local (o_release_lock l3) q3) as [[v l4] q4] eqn:Ep.
    pose proof (pop_local_spec (o_release_lock l3) _ _ _ _ Hq3 Hl3 Ep) as (Hq4 & Hf4 & Hlq4 & Hs4 & Hx4 & Hv4).
    exists v, l4, q4. split_and!; try done.
    + pose proof (frame_wf (o_release_lock l3) _ _ Hf4 Hl3) as Hw. unfold ol_wf in *. by rewrite Hlq4.
    + by apply Hx4.
    + destruct v as [x|]; simpl.
      * destruct Hv4 as (k & _ & Hp & _). exists k. by rewrite He3.
      * by destruct Hv4 as (_ & Hn & _).
  - destruct Est as (-> & -> & Hn).
    destruct (o_pop_drain fuel q Hq Hr) as (v & q4 & -> & Hq4 & Hl4 & Hv4). simpl.
    eexists _, _, _. split_and!; try done.
    + unfold ol_wf. simpl. by rewrite Hl4.
    + unfold ol_exact, my_elems, my_map. simpl. rewrite Hl4. apply Hx.
    + destruct v as [x|]; [done|]. destruct Hv4 as (Hp & Hn1 & Hn2 & _). simpl.
      assert (o_elems q = []) as Hnil; [|split; [done|]; apply Permutation_nil_r;
        by rewrite <-Hp, Hnil].
      apply o_elems_nil; [|done]. intros i m Him. apply (Hn i m); [|done].
      apply lookup_lt_Some in Him as Hlt. apply o_steal_order_complete; [done|].
      unfold Zlen. lia.
Qed.

Lemma popped_from q q1 v q' : o_elems q ≡ₚ o_elems q1 → popped q1 v q' → popped q v q'.
Proof.
  intros He. destruct v as [x|]; simpl.
  - intros [k Hk]. exists k. by rewrite He.
  - intros [Hn ?]. split; [|done]. apply Permutation_nil_r. by rewrite He, Hn.
Qed.

Lemma o_tick_queue l t l' :
  o_tick l = (t, l') →
  ol_queue l' = ol_queue l ∧ ol_stealing l' = ol_stealing l ∧ ol_len l' = ol_len l.
Proof. unfold o_tick. cases; naive_solver. Qed.

Lemma idle_frame l q q' : same_frame l q q' → o_siblings_idle l q → o_siblings_idle l q'.
Proof.
  intros (_ & _ & _ & _ & Hf) Hi i m k w Hne. rewrite Hf by done. by apply Hi.
Qed.

Lemma drainable_frame fuel l q q' : same_frame l q q' → drainable fuel q → drainable fuel q'.
Proof. intros (Hs & Hl & _). unfold drainable, retries_below. by rewrite Hs, Hl. Qed.

(** The turn of the shared queue, taken or skipped. *)
Lemma first_turn fuel (b : bool) q :
  o_wf q → retries_below fuel ((sm_iter (o_shared q)).*1) q →
  ∃ v q1, (if b then o_pop fuel q else Some (None, q)) = Some (v, q1)
    ∧ o_wf q1 ∧ o_locals q1 = o_locals q
    ∧ match v with
      | Some x => ∃ k, o_elems q ≡ₚ (k, x) :: o_elems q1
      | None => o_elems q ≡ₚ o_elems q1 ∧ drainable fuel q1
      end.
Proof.
  intros Hq Hr. destruct b; [|by exists None, q; split_and!; try done; left].
  destruct (o_pop_drain fuel q Hq (or_introl Hr)) as (v & q1 & -> & ? & ? & Hv).
  exists v, q1. split_and!; try done. destruct v; [done|].
  destruct Hv as (? & _ & _ & ?). by split; [|right].
Qed.

Lemma ol_pop_spec fuel start l q :
  o_wf q → ol_wf l q → ol_exact l q → ol_stealing l = false →
  o_siblings_idle l q → retries_below fuel ((sm_iter (o_shared q)).*1) q →
  0 ≤ start < Zlen (o_locals q) →
  ∃ v l' q', ol_pop fuel start l q = Some (v, l', q')
    ∧ o_wf q' ∧ ol_wf l' q' ∧ ol_exact l' q' ∧ ol_stealing l' = false ∧ popped q v q'.
Proof.
  intros Hq Hl Hx Hs Hi Hr Hst. unfold ol_pop. destruct (o_tick l) as [t l1] eqn:Et.
  apply o_tick_queue in Et as (Hlq & Hls & Hln). rewrite Hs in Hls.
  destruct (first_turn fuel (t mod 61 =? 0) q Hq Hr)
    as (v & q1 & -> & Hq1 & Hlq1 & Hv). simpl.
  assert (ol_wf l1 q1) as Hl1 by (unfold ol_wf; by rewrite Hlq, Hlq1).
  assert (ol_exact l1 q1) as Hx1.
  { unfold ol_exact, my_elems, my_map. rewrite Hlq, Hlq1, Hln. apply Hx. }
  destruct v as [x|]; [by eexists _, _, _|]. destruct Hv as [Hv Hr1].
  destruct (pop_local l1 q1) as [[v l2] q2] eqn:Ep.
  pose proof (pop_local_spec _ _ _ _ _ Hq1 Hl1 Ep) as (Hq2 & Hf2 & Hlq2 & Hs2 & Hx2 & Hv2).
  pose proof (frame_wf _ _ _ Hf2 Hl1) as Hl2.
  destruct v as [x|].
  { eexists _, _, _. split_and!; try done.
    - unfold ol_wf in *. by rewrite Hlq2.
    - by apply Hx2.
    - by rewrite Hs2.
    - destruct Hv2 as (k & _ & Hp & _). exists k. by rewrite Hv. }
  destruct Hv2 as (-> & He1 & He2 & Hp2).
  destruct (o_pop_steal_spec fuel start l1 q2) as (v & l3 & q3 & -> & ? & ? & ? & ? & Hv3);
    try done.
  - by apply Hx2.
  - eapply idle_frame; [done|]. intros i m k w Hne. rewrite Hlq1. apply Hi. congruence.
  - by eapply drainable_frame.
  - destruct Hf2 as (_ & _ & _ & Hlen2 & _). unfold Zlen in *. by rewrite Hlen2, Hlq1.
  - eexists _, _, _. split_and!; try done. by apply (popped_from q q2); [rewrite Hv, Hp2|].
Qed.

(** C3. [OrderedLocalQueue::pop] conserves work and is complete: it returns
    (the fuel only has to exceed the retries the shared FIFOs can ask for), a
    returned element leaves the queues and everything else stays, and [None]
    means that the shared and all local queues are empty, provided the
    handle's counter is exact, its stealing lock is free and no sibling is in
    the middle of being stolen from. The handle's counter stays exact. *)
Theorem ol_pop_complete fuel start l q :
  o_wf q → ol_wf l q → ol_exact l q → ol_stealing l = false →
  o_siblings_idle l q → retries_below fuel ((sm_iter (o_shared q)).*1) q →
  0 ≤ start < Zlen (o_locals q) →
  ∃ v l' q', ol_pop fuel start l q = Some (v, l', q')
    ∧ o_wf q' ∧ ol_wf l' q' ∧ ol_exact l' q' ∧ ol_stealing l' = false ∧ popped q v q'.
Proof. apply ol_pop_spec. Qed.

(** The own queue and the shared queue are parts of the whole. *)
Lemma local_bound l q :
  ol_wf l q → Zlen (my_elems l q) + Zlen (shared_elems q) ≤ Zlen (o_elems q).
Proof.
  intros Hl. unfold o_elems. rewrite Zlen_app.
  assert (concat (map_elems <$> o_locals q) ≡ₚ my_elems l q
    ++ concat (<[ol_queue l := []]> (map_elems <$> o_locals q))) as Hp.
  { apply concat_insert_remove with (my_elems l q); [|by rewrite app_nil_r].
    rewrite list_lookup_fmap, (my_map_lookup l q Hl). done. }
  rewrite (Zlen_Permutation _ _ Hp), Zlen_app.
  pose proof (Zlen_nonneg (concat (<[ol_queue l := []]> (map_elems <$> o_locals q)))). lia.
Qed.

(** [len] counts every element of the shared and of all local queues. *)
Lemma ol_full_len_spec q : o_wf q → ol_full_len q = Zlen (o_elems q).
Proof.
  intros (Hl & _). unfold ol_full_len, o_elems. rewrite Zlen_app, Hl.
  assert (∀ m : SM W, Zsum ((λ '(_, w), w_capacity w - w_spare_capacity w) <$> sm_iter m)
    = Zlen (map_elems m)) as Hm.
  { intros m. unfold map_elems, al_elems. induction (sm_iter m) as [|[k w] r IH]; [done|].
    rewrite !fmap_cons. simpl concat. rewrite Zlen_app, <-IH. simpl.
    assert (Zlen (tag k (w_elems w)) = Zlen (w_elems w)) as ->.
    { unfold Zlen, tag. by rewrite length_fmap. }
    unfold Zsum. simpl. rewrite w_spare_spec. lia. }
  rewrite Zlen_concat, <-list_fmap_compose.
  rewrite (list_fmap_ext _ (Zlen ∘ map_elems) (o_locals q)); [lia|].
  intros i m _. apply Hm.
Qed.

(** ** A stale counter *)

Lemma ptg_loop_starves fuel d count l q :
  o_wf q → ol_wf l q → o_len q + (count - d) < usize_max →
  Zlen (my_elems l q) < count - d → ptg_loop fuel d count l q = None.
Proof.
  revert d q. induction fuel as [|fuel IH]; intros d q Hq Hl Hm Hz; simpl;
    pose proof (Zlen_nonneg (my_elems l q)); rewrite (proj2 (Z.ltb_lt d count)) by lia;
    [done|].
  destruct (ptg_pass _ d count l q) as [d1 q1] eqn:Ep.
  apply ptg_pass_spec in Ep as ((Hq1 & Hl1 & _ & Hz1 & _ & Hlen & _) & _); [|done|done|lia|lia].
  apply IH; [done|done|lia|lia].
Qed.

(** The counter of a handle is only ever decremented by the handle itself,
    so it overstates the local queue after a sibling has stolen from it. Once
    the counter says the queue is full while fewer than half of that many
    elements are left, [push_with_priority] never returns: the spill loop waits
    for elements that are not there, whatever the number of iterations. *)
Theorem ol_push_stale_counter_diverges fuel p x l q :
  o_wf q → ol_wf l q → o_len q + ol_len l < usize_max →
  o_local_capacity q ≤ ol_len l → Zlen (my_elems l q) < ol_len l / 2 →
  ol_push_with_priority fuel p x l q = None.
Proof.
  intros Hq Hl Hm Hc Hz. unfold ol_push_with_priority, is_local_full.
  rewrite (proj2 (Z.leb_le _ _) Hc). unfold push_to_global.
  pose proof (Zlen_nonneg (my_elems l q)).
  by rewrite ptg_loop_starves by (try done; dlia).
Qed.
End properties.

(** ** Witnesses and the documented examples *)

Module OrderedWorkStealExamples.
Import ListQueues.
Abbreviation queue :=
  (OrderedWorkStealQueue (list_injector Z) (list_worker Z) list_skipmap).

Definition handle (i : nat) : OrderedLocalQueue := mkOLQ 0 false i 0.

(** Push a list of prioritised values through one handle. *)
Fixpoint pushes (xs : list (Z * Z)) (l : OrderedLocalQueue) (q : queue)
  : option (OrderedLocalQueue * queue) :=
  match xs with
  | [] => Some (l, q)
  | (p, x) :: xs =>
      match ol_push_with_priority 9 p x l q with
      | Some (l, q) => pushes xs l q
      | None => None
      end
  end.

Fixpoint pops (n : nat) (l : OrderedLocalQueue) (q : queue) : list (option Z) :=
  match n with
  | O => []
  | S n => match ol_pop 5 0 l q with
           | Some (v, l, q) => v :: pops n l q
           | None => []
           end
  end.

(** Both handles of a queue, after some pushes through each. *)
Definition setup (xs ys : list (Z * Z)) (cap : Z)
  : option (OrderedLocalQueue * OrderedLocalQueue * queue) :=
  match pushes xs (handle 0) (o_new 2 cap) with
  | Some (l0, q) =>
      match pushes ys (handle 1) q with
      | Some (l1, q) => Some (l0, l1, q)
      | None => None
      end
  | None => None
  end.

Definition get_l0 (s : option (OrderedLocalQueue * OrderedLocalQueue * queue)) :=
  match s with Some (l, _, _) => l | None => handle 0 end.
Definition get_l1 (s : option (OrderedLocalQueue * OrderedLocalQueue * queue)) :=
  match s with Some (_, l, _) => l | None => handle 1 end.
Definition get_q (s : option (OrderedLocalQueue * OrderedLocalQueue * queue)) : queue :=
  match s with Some (_, _, q) => q | None => o_new 2 2 end.
Definition elem_values (s : option (OrderedLocalQueue * queue))
  : list (Z * Z) * list (Z * Z) :=
  match s with
  | Some (l, q) => (my_elems l q, shared_elems q)
  | None => ([], [])
  end.

(** Highest priority first; the elements of one priority in FIFO order. *)
Example doc_priority_order :
  pops 6 (get_l0 (setup [(2, 20); (1, 10); (0, 1); (1, 11)] [] 64))
    (get_q (setup [(2, 20); (1, 10); (0, 1); (1, 11)] [] 64))
  = [Some 1; Some 10; Some 11; Some 20; None; None].
Proof. vm_compute. reflexivity. Qed.

(** The spill takes one element of every priority, from the lowest priority
    upwards, and starts over: with the FIFOs 0, 0, 0, 1 it moves the element
    of priority 1 and one of priority 0. *)
Example spill_takes_every_priority :
  elem_values (pushes [(0, 1); (0, 2); (0, 3); (1, 4); (1, 5)] (handle 0) (o_new 1 4))
  = ([(0, 2); (0, 3)], [(0, 1); (1, 4); (1, 5)]).
Proof. vm_compute. reflexivity. Qed.

(** Two elements pushed by handle 0, each stolen by handle 1 before the next. *)
Definition robbed : OrderedLocalQueue * queue :=
  match ol_push_with_priority 9 0 1 (handle 0) (o_new 2 2) with
  | Some (l0, q) =>
      match ol_pop 5 0 (handle 1) q with
      | Some (_, l1, q) =>
          match ol_push_with_priority 9 0 2 l0 q with
          | Some (l0, q) =>
              match ol_pop 5 0 l1 q with
              | Some (_, _, q) => (l0, q)
              | None => (l0, q)
              end
          | None => (l0, q)
          end
      | None => (l0, q)
      end
  | None => (handle 0, o_new 2 2)
  end.

Example robbed_is_empty : o_elems (robbed.2) = [] ∧ ol_len (robbed.1) = 2.
Proof. vm_compute. done. Qed.

Lemma robbed_wf : o_wf (robbed.2).
Proof.
  split; [vm_compute; reflexivity|]. split; [vm_compute; discriminate|].
  vm_compute. repeat constructor; discriminate.
Qed.

Lemma ol_push_stale_counter_diverges_witness :
  o_elems (robbed.2) = [] ∧ ol_push_with_priority 100 0 3 (robbed.1) (robbed.2) = None.
Proof.
  split; [vm_compute; done|].
  apply (ol_push_stale_counter_diverges 100 0 3 (robbed.1) (robbed.2));
    [apply robbed_wf|vm_compute; lia|vm_compute; done|vm_compute; done|vm_compute; done].
Defined.

Definition sample := setup [(2, 20); (1, 10); (0, 1)] [(5, 50)] 64.
Definition l0 := get_l0 sample.
Definition l1 := get_l1 sample.
Definition q0 := o_push_with_priority 1 11 (o_push_with_priority 3 30 (get_q sample)).

Lemma q0_wf : o_wf q0.
Proof.
  split; [vm_compute; reflexivity|]. split; [vm_compute; discriminate|].
  vm_compute. repeat constructor; discriminate.
Qed.

Lemma q0_idle l : o_siblings_idle l q0.
Proof.
  intros [|[|i]] m k w _ Hm Hk%al_get_elem_of; vm_compute in Hm; simplify_eq;
    vm_compute in Hk;
    repeat (apply elem_of_cons in Hk as [Hk|Hk]; [by simplify_eq|]);
    by apply not_elem_of_nil in Hk.
Qed.

Lemma q0_retries : retries_below 1 ((sm_iter (o_shared q0)).*1) q0.
Proof.
  intros k inj Hk. vm_compute in Hk.
  repeat (apply elem_of_cons in Hk as [->|Hk];
    [vm_compute; intros; simplify_eq; simpl; lia|]).
  by apply not_elem_of_nil in Hk.
Qed.

Lemma o_pop_highest_priority_witness :
  ∃ v q', o_pop 1 q0 = Some (v, q') ∧ o_wf q' ∧ o_locals q' = o_locals q0
  ∧ v = Some 11.
Proof.
  destruct (o_pop_highest_priority 1 q0 q0_wf q0_retries) as (v & q' & Hp & ? & ? & Hv).
  exists v, q'. split_and!; try done. vm_compute in Hp. by simplify_eq.
Defined.

Lemma ol_push_conserves_witness :
  ∃ l' q', ol_push_with_priority 9 4 40 l0 q0 = Some (l', q')
    ∧ o_elems q' ≡ₚ (4, 40) :: o_elems q0 ∧ o_wf q' ∧ ol_wf l' q' ∧ ol_exact l' q'
    ∧ ol_queue l' = ol_queue l0.
Proof.
  apply (ol_push_conserves 9 4 40 l0 q0);
    [apply q0_wf|vm_compute; lia|vm_compute; done|vm_compute; done|vm_compute; done].
Defined.

Lemma pop_local_highest_priority_witness :
  o_wf (pop_local l0 q0).2 ∧ (pop_local l0 q0).1.1 = Some 1.
Proof.
  destruct (pop_local l0 q0) as [[v l'] q'] eqn:E.
  destruct (pop_local_highest_priority l0 q0 v l' q' q0_wf ltac:(vm_compute; lia) E)
    as (Hw & _ & _).
  split; [exact Hw|]. vm_compute in E. by simplify_eq.
Defined.

Lemma ol_pop_complete_witness :
  ∃ v l' q', ol_pop 1 1 l1 q0 = Some (v, l', q')
    ∧ o_wf q' ∧ ol_wf l' q' ∧ ol_exact l' q' ∧ ol_stealing l' = false ∧ popped q0 v q'.
Proof.
  apply (ol_pop_complete 1 1 l1 q0);
    [apply q0_wf|vm_compute; lia|vm_compute; done|done|apply q0_idle|apply q0_retries
    |vm_compute; done].
Defined.
End OrderedWorkStealExamples.
