(* ===== verification/QueueRaces.v ===== *)
(** * QueueRaces: the priority queue under concurrent use

    [OrderedWorkSteal] runs the methods of [common/ordered_work_steal.rs] one
    after another. Here they are programs of atomic actions: loads and stores of
    the counters, the tick and the lock [stealing], and calls of the injector, the
    workers and the skip maps, whose iterators look for the next key when they
    are asked for it. A program that runs alone does what the sequential
    definition does; programs of several threads interleave.

    [get_or_insert_with] and the push that follows it are one action, and so are
    the steal and the closure that bounds it. A steal of a worker into itself, for
    which the crate documents nothing, is not enabled. *)

From stdpp Require Import sorting base numbers strings gmap list relations.
From S2P Require Import Prelude QueueIface OrderedWorkSteal Interleave.

(** The iterators of a skip map: the first key beyond the cursor, where
    [beyond] is [<] for the iteration and [>] for the reversed one. *)
Fixpoint key_after (beyond : Z → Z → bool) (cur : option Z) (keys : list Z)
  : option Z :=
  match keys with
  | [] => None
  | k :: keys =>
      if (match cur with None => true | Some c => beyond c k end) then Some k
      else key_after beyond cur keys
  end.

Definition next_key : option Z → list Z → option Z := key_after Z.ltb.
Definition prev_key (cur : option Z) (keys : list Z) : option Z :=
  key_after Z.gtb cur (reverse keys).

(** ** Actions *)

Inductive qact (T : Type) : Type :=
| ALen
| AStoreLen (n : Z)
| AInjPush (p : Z) (x : T)
| AInjSteal (k : Z)
| ASharedNext (cur : option Z)
| ALocalLen (h : nat)
| AStoreLocalLen (h : nat) (n : Z)
| AFetchTick (h : nat)
| AStoreTick (h : nat) (n : Z)
| ATryLock (h : nat)
| AReleaseLock (h : nat)
| AWPush (h : nat) (p : Z) (x : T)
| AWPop (h : nat) (k : Z)
| AOwnNext (h : nat) (cur : option Z)
| AOwnPrev (h : nat) (cur : option Z)
| ANext (i : nat) (cur : option Z)
| AWIsEmpty (i : nat) (k : Z)
| AWSteal (h i : nat) (k : Z)
| AWLen (h : nat) (k : Z).
Arguments ALen {T}.
Arguments AStoreLen {T} n.
Arguments AInjPush {T} p x.
Arguments AInjSteal {T} k.
Arguments ASharedNext {T} cur.
Arguments ALocalLen {T} h.
Arguments AStoreLocalLen {T} h n.
Arguments AFetchTick {T} h.
Arguments AStoreTick {T} h n.
Arguments ATryLock {T} h.
Arguments AReleaseLock {T} h.
Arguments AWPush {T} h p x.
Arguments AWPop {T} h k.
Arguments AOwnNext {T} h cur.
Arguments AOwnPrev {T} h cur.
Arguments ANext {T} i cur.
Arguments AWIsEmpty {T} i k.
Arguments AWSteal {T} h i k.
Arguments AWLen {T} h k.

(** [AWPush] answers the item that was refused, [AWSteal] whether it was [Ok]. *)
Definition qresp {T} (a : qact T) : Type :=
  match a with
  | ALen | ALocalLen _ | AFetchTick _ | AWLen _ _ => Z
  | AInjSteal _ => Steal T
  | ASharedNext _ | AOwnNext _ _ | AOwnPrev _ _ | ANext _ _ => option Z
  | ATryLock _ | AWIsEmpty _ _ | AWSteal _ _ _ => bool
  | AWPush _ _ _ | AWPop _ _ => option T
  | AStoreLen _ | AInjPush _ _ | AStoreLocalLen _ _ | AStoreTick _ _
  | AReleaseLock _ => unit
  end.

Section queue_races.
Context {T I W : Type} {SM : Type → Type}
  `{!Injector T I, !Worker T W, !SkipMap SM}.
#[local] Existing Instance skipmap_inhabited.

(** The queue and the handles, which several threads may use. *)
Record shared : Type := mkShared {
  s_q : OrderedWorkStealQueue I W SM;
  s_handles : list OrderedLocalQueue;
}.
Implicit Types σ : shared.

Definition set_q σ (q : OrderedWorkStealQueue I W SM) : shared :=
  mkShared q (s_handles σ).
Definition set_h σ (h : nat) (l : OrderedLocalQueue) : shared :=
  mkShared (s_q σ) (<[h:=l]> (s_handles σ)).

Definition set_stealing (b : bool) (l : OrderedLocalQueue) : OrderedLocalQueue :=
  mkOLQ (ol_tick l) b (ol_queue l) (ol_len l).
Definition set_tick (n : Z) (l : OrderedLocalQueue) : OrderedLocalQueue :=
  mkOLQ n (ol_stealing l) (ol_queue l) (ol_len l).

(** A handle and its map. *)
Definition own σ (h : nat) : option (OrderedLocalQueue * SM W) :=
  l ← s_handles σ !! h;
  m ← o_locals (s_q σ) !! ol_queue l;
  Some (l, m).

(** The push of [get_or_insert_with(..).value().push(item)] on either map. *)
Definition inj_push_at (p : Z) (x : T) (q : OrderedWorkStealQueue I W SM)
  : OrderedWorkStealQueue I W SM :=
  let m := sm_get_or_insert (o_shared q) p inj_new in
  o_set_shared q (match sm_get m p with
                  | Some inj => sm_set m p (inj_push inj x)
                  | None => m
                  end).

Definition w_push_at (l : OrderedLocalQueue) (m : SM W) (p : Z) (x : T)
  (q : OrderedWorkStealQueue I W SM) : option T * OrderedWorkStealQueue I W SM :=
  let m := sm_get_or_insert m p (w_new (o_local_capacity q)) in
  match w ← sm_get m p; w_push w x with
  | None => (Some x, o_set_local q (ol_queue l) m)
  | Some w => (None, o_set_local q (ol_queue l) (sm_set m p w))
  end.

(** [worker.stealer().steal(into_queue, ..)] of the entry [k] of map [i]. *)
Definition w_steal_at (l : OrderedLocalQueue) (i : nat) (k : Z)
  (q : OrderedWorkStealQueue I W SM) : bool * OrderedWorkStealQueue I W SM :=
  match another ← o_locals q !! i; sm_get another k with
  | None => (false, q)
  | Some worker =>
      let q := o_set_local q (ol_queue l)
        (sm_get_or_insert (my_map l q) k (w_new (o_local_capacity q))) in
      match sm_get (my_map l q) k with
      | None => (false, q)
      | Some into_queue =>
          let '(r, worker', into') :=
            w_steal worker into_queue (λ n,
              Z.min (Z.min n (o_max_steal l q))
                (sat_add usize_max
                   (sat_sub (w_capacity worker) (w_spare_capacity worker)) 1
                 / 2)) in
          let q := o_set_local q i (sm_set (o_locals q !!! i) k worker') in
          let q := o_set_local q (ol_queue l) (sm_set (my_map l q) k into') in
          (match r with Some _ => true | None => false end, q)
      end
  end.

(** An action on a handle, on a handle and its map, on a map. *)
Definition with_h {A} σ (h : nat) (f : OrderedLocalQueue → A * shared)
  : option (A * shared) :=
  l ← s_handles σ !! h; Some (f l).

Definition with_own {A} σ (h : nat) (f : OrderedLocalQueue → SM W → A * shared)
  : option (A * shared) :=
  '(l, m) ← own σ h; Some (f l m).

Definition with_map {A} σ (i : nat) (f : SM W → A * shared) : option (A * shared) :=
  m ← o_locals (s_q σ) !! i; Some (f m).

Definition on_q {A} σ (r : A * OrderedWorkStealQueue I W SM) : A * shared :=
  (r.1, set_q σ r.2).

Definition qexec (a : qact T) σ : option (qresp a * shared) :=
  let q := s_q σ in
  match a return option (qresp a * shared) with
  | ALen => Some (o_len q, σ)
  | AStoreLen n => Some (tt, set_q σ (o_set_len q n))
  | AInjPush p x => Some (tt, set_q σ (inj_push_at p x q))
  | AInjSteal k =>
      Some (match sm_get (o_shared q) k with
            | None => (StealEmpty, σ)
            | Some inj =>
                let '(r, inj) := inj_steal inj in
                (r, set_q σ (o_set_shared q (sm_set (o_shared q) k inj)))
            end)
  | ASharedNext cur => Some (next_key cur ((sm_iter (o_shared q)).*1), σ)
  | ALocalLen h => with_h σ h (λ l, (ol_len l, σ))
  | AStoreLocalLen h n => with_h σ h (λ l, (tt, set_h σ h (ol_set_len l n)))
  | AFetchTick h =>
      with_h σ h (λ l, (ol_tick l, set_h σ h (set_tick (wrap 32 (ol_tick l + 1)) l)))
  | AStoreTick h n => with_h σ h (λ l, (tt, set_h σ h (set_tick n l)))
  | ATryLock h =>
      with_h σ h (λ l, if ol_stealing l then (false, σ)
                       else (true, set_h σ h (set_stealing true l)))
  | AReleaseLock h => with_h σ h (λ l, (tt, set_h σ h (set_stealing false l)))
  | AWPush h p x => with_own σ h (λ l m, on_q σ (w_push_at l m p x q))
  | AWPop h k => with_own σ h (λ l _, on_q σ (entry_pop l k q))
  | AOwnNext h cur => with_own σ h (λ _ m, (next_key cur ((sm_iter m).*1), σ))
  | AOwnPrev h cur =>
      with_own σ h (λ _ m, (prev_key cur ((sm_iter m).*1), σ))
  | ANext i cur => with_map σ i (λ m, (next_key cur ((sm_iter m).*1), σ))
  | AWIsEmpty i k =>
      with_map σ i (λ m, (match sm_get m k with
                          | Some w => w_is_empty w
                          | None => true
                          end, σ))
  | AWSteal h i k =>
      if decide (ol_queue <$> s_handles σ !! h = Some i) then None
      else with_own σ h (λ l _, on_q σ (w_steal_at l i k q))
  | AWLen h k =>
      with_own σ h (λ _ m, (match sm_get m k with
                            | Some w => w_capacity w - w_spare_capacity w
                            | None => 0
                            end, σ))
  end.

#[global] Instance queue_actions : Actions shared (qact T) := {
  resp := qresp;
  exec := qexec;
}.

(** ** The methods as programs

    [fuel] bounds the turns of each loop; [cap] and [num] are the capacity and
    the number of the local queues, which never change. *)

#[local] Abbreviation qprog := (prog (S := shared) (qact T)).
Definition qdo (a : qact T) : qprog (qresp a) := act a.

(** [push_with_priority] of the shared queue. *)
Definition c_shared_push (p : Z) (x : T) : qprog unit :=
  _ ← qdo (AInjPush p x);
  n ← qdo ALen;
  _ ← qdo (AStoreLen (sat_add usize_max n 1));
  Ret tt.

(** [pop] of the shared queue. *)
Fixpoint c_steal_retry (fuel : nat) (k : Z) : qprog (option T) :=
  match fuel with
  | O => Stop Fuel
  | S fuel =>
      r ← qdo (AInjSteal k);
      match (r : Steal T) with
      | StealSuccess x =>
          n ← qdo ALen;
          _ ← qdo (AStoreLen (sat_sub n 1));
          Ret (Some x)
      | StealRetry => c_steal_retry fuel k
      | StealEmpty => Ret None
      end
  end.

Fixpoint c_shared_entries (fuel rfuel : nat) (cur : option Z) : qprog (option T) :=
  match fuel with
  | O => Stop Fuel
  | S fuel =>
      next ← qdo (ASharedNext cur);
      match (next : option Z) with
      | None => Ret None
      | Some k =>
          v ← c_steal_retry rfuel k;
          match v with
          | Some x => Ret (Some x)
          | None => c_shared_entries fuel rfuel (Some k)
          end
      end
  end.

Definition c_shared_pop (fuel : nat) : qprog (option T) :=
  n ← qdo ALen;
  if n =? 0 then Ret None else c_shared_entries fuel fuel None.

(** [push_to_global]: one pass over the entries from the lowest priority on,
    the passes until enough is moved, the whole. *)
Fixpoint c_ptg_pass (fuel : nat) (cur : option Z) (done count : Z) (h : nat)
  : qprog Z :=
  match fuel with
  | O => Stop Fuel
  | S fuel =>
      next ← qdo (AOwnPrev h cur);
      match (next : option Z) with
      | None => Ret done
      | Some k =>
          if count <=? done then Ret done
          else
            v ← qdo (AWPop h k);
            match (v : option T) with
            | Some item =>
                _ ← c_shared_push k item;
                c_ptg_pass fuel (Some k) (done + 1) count h
            | None => c_ptg_pass fuel (Some k) done count h
            end
      end
  end.

Fixpoint c_ptg_loop (fuel pfuel : nat) (done count : Z) (h : nat) : qprog unit :=
  if done <? count then
    match fuel with
    | O => Stop Fuel
    | S fuel =>
        done ← c_ptg_pass pfuel None done count h;
        c_ptg_loop fuel pfuel done count h
    end
  else Ret tt.

Definition c_push_to_global (fuel : nat) (p : Z) (item : T) (h : nat) : qprog unit :=
  len ← qdo (ALocalLen h);
  let count := len / 2 in
  _ ← c_ptg_loop fuel fuel 0 count h;
  len ← qdo (ALocalLen h);
  _ ← qdo (AStoreLocalLen h (sat_sub len count));
  c_shared_push p item.

(** [push_with_priority] of a handle. *)
Definition c_push (fuel : nat) (cap : Z) (p : Z) (item : T) (h : nat) : qprog unit :=
  len ← qdo (ALocalLen h);
  if cap <=? len then c_push_to_global fuel p item h
  else
    r ← qdo (AWPush h p item);
    match (r : option T) with
    | Some item => c_push_to_global fuel p item h
    | None =>
        len ← qdo (ALocalLen h);
        _ ← qdo (AStoreLocalLen h (sat_add usize_max len 1));
        Ret tt
    end.

Definition c_tick (h : nat) : qprog Z :=
  val ← qdo (AFetchTick h);
  if val =? u32_max then
    _ ← qdo (AStoreTick h 0);
    Ret 0
  else Ret (sat_add u32_max val 1).

Fixpoint c_pop_local (fuel : nat) (cur : option Z) (h : nat) : qprog (option T) :=
  match fuel with
  | O => Stop Fuel
  | S fuel =>
      next ← qdo (AOwnNext h cur);
      match (next : option Z) with
      | None => Ret None
      | Some k =>
          v ← qdo (AWPop h k);
          match (v : option T) with
          | Some val =>
              len ← qdo (ALocalLen h);
              _ ← qdo (AStoreLocalLen h (sat_sub len 1));
              Ret (Some val)
          | None => c_pop_local fuel (Some k) h
          end
      end
  end.

(** The loops of the steal: the entries of one sibling, the siblings. *)
Fixpoint c_steal_entries (fuel : nat) (cur : option Z) (h i : nat) : qprog bool :=
  match fuel with
  | O => Stop Fuel
  | S fuel =>
      next ← qdo (ANext i cur);
      match (next : option Z) with
      | None => Ret false
      | Some k =>
          empty ← qdo (AWIsEmpty i k);
          if (empty : bool) then c_steal_entries fuel (Some k) h i
          else
            ok ← qdo (AWSteal h i k);
            if (ok : bool) then
              len ← qdo (ALocalLen h);
              n ← qdo (AWLen h k);
              _ ← qdo (AStoreLocalLen h (sat_add usize_max len n));
              Ret true
            else c_steal_entries fuel (Some k) h i
      end
  end.

Fixpoint c_steal_siblings (fuel : nat) (cap : Z) (idxs : list nat) (h : nat)
  : qprog bool :=
  match idxs with
  | [] => Ret false
  | i :: idxs =>
      len ← qdo (ALocalLen h);
      if negb (len <? sat_add usize_max cap 1 / 2) then Ret false
      else if o_ptr_eq_another_self then c_steal_siblings fuel cap idxs h
      else
        stolen ← c_steal_entries fuel None h i;
        if (stolen : bool) then Ret true else c_steal_siblings fuel cap idxs h
  end.

Definition c_pop_steal (fuel : nat) (cap num start : Z) (h : nat) : qprog (option T) :=
  locked ← qdo (ATryLock h);
  if (locked : bool) then
    stolen ← c_steal_siblings fuel cap (o_steal_order start num) h;
    _ ← qdo (AReleaseLock h);
    if (stolen : bool) then c_pop_local fuel None h else c_shared_pop fuel
  else c_shared_pop fuel.

(** [pop] of a handle. *)
Definition c_pop (fuel : nat) (cap num start : Z) (h : nat) : qprog (option T) :=
  t ← c_tick h;
  first ← (if t mod 61 =? 0 then c_shared_pop fuel else Ret None);
  match (first : option T) with
  | Some val => Ret (Some val)
  | None =>
      v ← c_pop_local fuel None h;
      match (v : option T) with
      | Some val => Ret (Some val)
      | None => c_pop_steal fuel cap num start h
      end
  end.

(** ** Threads

    A thread makes a sequence of calls on any of the handles and on the shared
    queue; its result is what it popped, in order. *)
Inductive qop : Type :=
| OpPush (h : nat) (p : Z) (x : T)
| OpPop (h : nat) (start : Z)
| OpSharedPush (p : Z) (x : T)
| OpSharedPop.

Definition c_op (fuel : nat) (cap num : Z) (o : qop) : qprog (list T) :=
  match o with
  | OpPush h p x => _ ← c_push fuel cap p x h; Ret []
  | OpPop h start => v ← c_pop fuel cap num start h; Ret (option_list v)
  | OpSharedPush p x => _ ← c_shared_push p x; Ret []
  | OpSharedPop => v ← c_shared_pop fuel; Ret (option_list v)
  end.

Fixpoint c_thread (fuel : nat) (cap num : Z) (ops : list qop) : qprog (list T) :=
  match ops with
  | [] => Ret []
  | o :: ops =>
      xs ← c_op fuel cap num o;
      ys ← c_thread fuel cap num ops;
      Ret (xs ++ ys)
  end.

Definition op_pushes (o : qop) : list (Z * T) :=
  match o with
  | OpPush _ p x | OpSharedPush p x => [(p, x)]
  | OpPop _ _ | OpSharedPop => []
  end.

(** ** What is conserved

    An element with its priority, or the right to steal into the queue of a
    handle. *)
Inductive qres : Type :=
| Elem (e : Z * T)
| Lock (h : nat).

Definition qgive (a : qact T) : list qres :=
  match a with
  | AInjPush p x | AWPush _ p x => [Elem (p, x)]
  | AReleaseLock h | AWSteal h _ _ => [Lock h]
  | _ => []
  end.

Definition qgot (a : qact T) : qresp a → list qres :=
  match a return qresp a → list qres with
  | AInjSteal k => λ r, match r with StealSuccess x => [Elem (k, x)] | _ => [] end
  | AWPush _ p _ => λ r, match r with Some x => [Elem (p, x)] | None => [] end
  | AWPop _ k => λ r, match r with Some x => [Elem (k, x)] | None => [] end
  | ATryLock h => λ b, if b then [Lock h] else []
  | AWSteal h _ _ => λ _, [Lock h]
  | _ => λ _, []
  end.

Definition free_locks (hs : list OrderedLocalQueue) : list nat :=
  filter (λ h, ol_stealing <$> hs !! h = Some false) (seq 0 (length hs)).

Definition qheld σ : list qres :=
  (Elem <$> o_elems (s_q σ)) ++ (Lock <$> free_locks (s_handles σ)).

Definition lock_of (r : qres) : option nat :=
  match r with Lock h => Some h | Elem _ => None end.
Definition elem_of_res (r : qres) : option (Z * T) :=
  match r with Elem e => Some e | Lock _ => None end.

Definition locks (l : list qres) : list nat := omap lock_of l.
Definition elems (l : list qres) : list (Z * T) := omap elem_of_res l.

#[global] Instance queue_resources : Resources shared (qact T) qres := {
  give := qgive;
  got := qgot;
  held := qheld;
  valid l := NoDup (locks l);
}.
End queue_races.
Arguments shared : clear implicits.
Arguments qop : clear implicits.
Arguments qres : clear implicits.

Section conservation.
Context {T I W : Type} {SM : Type → Type}
  `{!Injector T I, !Worker T W, !SkipMap SM}
  `{!InjectorLaws T I, !WorkerLaws T W, !SkipMapLaws SM}.
#[local] Existing Instance skipmap_inhabited.
Implicit Types (q : OrderedWorkStealQueue I W SM) (σ : shared I W SM).

(** *** Elements *)

Lemma entry_remove q i (m : SM W) k (w w' : W) (xs : list T) :
  o_locals q !! i = Some m → sm_get m k = Some w → w_elems w = xs ++ w_elems w' →
  o_elems q ≡ₚ tag k xs ++ o_elems (o_set_local q i (sm_set m k w')).
Proof.
  intros Hi Hk He. apply (o_set_local_remove q i m _ _ Hi). unfold map_elems.
  rewrite sm_set_iter. by apply al_elems_set_remove with w.
Qed.

Lemma entry_add q i (m : SM W) k (w w' : W) (xs : list T) :
  o_locals q !! i = Some m → sm_get m k = Some w → w_elems w' = w_elems w ++ xs →
  o_elems (o_set_local q i (sm_set m k w')) ≡ₚ tag k xs ++ o_elems q.
Proof.
  intros Hi Hk He. apply (o_set_local_add q i m _ _ Hi). unfold map_elems.
  rewrite sm_set_iter. by apply al_elems_set_add with w.
Qed.

Lemma goi_elems q i (m : SM W) k c :
  o_locals q !! i = Some m →
  o_elems (o_set_local q i (sm_get_or_insert m k (w_new c))) ≡ₚ o_elems q.
Proof.
  intros Hi. apply (o_set_local_add q i m _ [] Hi). unfold map_elems.
  by rewrite sm_get_or_insert_iter, al_elems_get_or_insert by apply w_new_elems.
Qed.

Lemma inj_steal_elems q k inj r inj' :
  sm_get (o_shared q) k = Some inj → inj_steal inj = (r, inj') →
  o_elems q ≡ₚ
    match r with StealSuccess x => [(k, x)] | _ => [] end
    ++ o_elems (o_set_shared q (sm_set (o_shared q) k inj')).
Proof.
  intros Hk Hs. unfold o_elems. simpl.
  rewrite Permutation_app_swap_app. apply Permutation_app_head.
  unfold shared_elems. simpl. rewrite sm_set_iter. destruct r as [x| |].
  - apply inj_steal_success in Hs. by apply al_elems_set_head with inj.
  - apply inj_steal_retry in Hs as [Hs _]. symmetry. by apply al_elems_set_same with inj.
  - apply inj_steal_empty in Hs as [H1 H2]. symmetry.
    apply al_elems_set_same with inj; [done|congruence].
Qed.

Lemma o_set_local_twice q i (m m' : SM W) :
  o_set_local (o_set_local q i m) i m' = o_set_local q i m'.
Proof. unfold o_set_local. simpl. f_equal. apply list_insert_insert_eq. Qed.

Lemma w_push_at_elems (l : OrderedLocalQueue) (m : SM W) p (x : T) q r q' :
  o_locals q !! ol_queue l = Some m → w_push_at l m p x q = (r, q') →
  (p, x) :: o_elems q ≡ₚ
    match r with Some y => [(p, y)] | None => [] end ++ o_elems q'.
Proof.
  intros Hm. unfold w_push_at. rewrite sm_get_goi. simpl.
  set (m1 := sm_get_or_insert m p _). set (w := default _ _).
  assert (sm_get m1 p = Some w) as Hg by apply sm_get_goi.
  pose proof (goi_elems q _ m p (o_local_capacity q) Hm) as Hgoi. fold m1 in Hgoi.
  destruct (w_push w x) as [w'|] eqn:Ew; intros; simplify_eq; simpl.
  - apply w_push_some in Ew as [He _].
    pose proof (entry_add (o_set_local q (ol_queue l) m1) (ol_queue l) m1 p w w' [x]) as Ha.
    rewrite o_set_local_twice in Ha. rewrite Ha, Hgoi; try done.
    apply list_lookup_insert_eq. by eapply lookup_lt_Some.
  - by rewrite Hgoi.
Qed.

Lemma entry_pop_elems (l : OrderedLocalQueue) k q v q' :
  (ol_queue l < length (o_locals q))%nat → entry_pop l k q = (v, q') →
  o_elems q ≡ₚ match v with Some x => [(k, x)] | None => [] end ++ o_elems q'.
Proof.
  intros Hl. unfold entry_pop. destruct (sm_get (my_map l q) k) as [w|] eqn:Ek.
  2: { by intros; simplify_eq. }
  pose proof (w_pop_elems w) as Hw. destruct (w_pop w) as [u w'] eqn:Ew.
  intros; simplify_eq/=. pose proof (my_map_lookup l q Hl) as Hm.
  destruct (w_elems w) as [|x r] eqn:E; destruct Hw as [-> Hw].
  - apply (entry_remove q _ _ k w w' [] Hm Ek). by rewrite E, Hw.
  - apply (entry_remove q _ _ k w w' [x] Hm Ek). by rewrite E, Hw.
Qed.

Lemma w_steal_at_elems (l : OrderedLocalQueue) i k q b q' :
  (ol_queue l < length (o_locals q))%nat → i ≠ ol_queue l →
  w_steal_at l i k q = (b, q') → o_elems q ≡ₚ o_elems q'.
Proof.
  intros Hl Hi. unfold w_steal_at.
  destruct (another ← o_locals q !! i; sm_get another k) as [worker|] eqn:Ea.
  2: { by intros; simplify_eq. }
  destruct (o_locals q !! i) as [another|] eqn:Ei; [|done]. simpl in Ea.
  pose proof (my_map_lookup l q Hl) as Hm.
  pose proof (goi_elems q _ _ k (o_local_capacity q) Hm) as Hgoi.
  set (m1 := sm_get_or_insert _ _ _) in *. set (q1 := o_set_local q _ m1) in *.
  assert (my_map l q1 = m1) as -> by by apply my_map_set.
  destruct (sm_get m1 k) as [into|] eqn:Em; [|by intros; simplify_eq].
  destruct (w_steal _ _ _) as [[r worker'] into'] eqn:Es. intros; simplify_eq.
  assert (o_locals q1 !! i = Some another) as Ei1.
  { unfold q1. simpl. by rewrite list_lookup_insert_ne. }
  rewrite (list_lookup_total_correct _ _ _ Ei1).
  set (q2 := o_set_local q1 i _).
  assert (o_locals q2 !! ol_queue l = Some m1) as Hm2.
  { unfold q2, q1. simpl. rewrite list_lookup_insert_ne, list_lookup_insert_eq; done. }
  assert (my_map l q2 = m1) as -> by by apply list_lookup_total_correct.
  assert (∃ xs, w_elems worker = xs ++ w_elems worker' ∧ w_elems into' = w_elems into ++ xs)
    as (xs & H1 & H2).
  { destruct r as [n|].
    - apply w_steal_ok in Es as (xs & ? & ? & _). by exists xs.
    - apply w_steal_err in Es as (E1 & E2 & _). exists []. by rewrite E1, E2, app_nil_r. }
  rewrite (entry_add q2 _ m1 k into into' xs Hm2 Em H2).
  rewrite <-Hgoi. by apply (entry_remove q1 i another k worker worker' xs).
Qed.

(** *** Locks *)

Lemma elem_of_free_locks hs h :
  h ∈ free_locks hs ↔ ∃ l, hs !! h = Some l ∧ ol_stealing l = false.
Proof.
  unfold free_locks. rewrite list_elem_of_filter, elem_of_seq.
  destruct (hs !! h) as [l|] eqn:E; simpl; [|naive_solver]. apply lookup_lt_Some in E.
  split; [naive_solver|]. intros (? & ? & ?). simplify_eq. split; [by f_equal|lia].
Qed.

Lemma free_locks_NoDup hs : NoDup (free_locks hs).
Proof. apply NoDup_filter, NoDup_seq. Qed.

(** A handle whose flag stays the same, is raised, is lowered. *)
Lemma free_locks_same hs h l l' :
  hs !! h = Some l → ol_stealing l' = ol_stealing l →
  free_locks (<[h:=l']> hs) ≡ₚ free_locks hs.
Proof.
  intros Hh Hl. apply NoDup_Permutation; [apply free_locks_NoDup..|]. intros j.
  rewrite !elem_of_free_locks. destruct (decide (j = h)) as [->|].
  - rewrite list_lookup_insert_eq by by eapply lookup_lt_Some. naive_solver congruence.
  - by rewrite list_lookup_insert_ne.
Qed.

Lemma free_locks_flip hs h l l' :
  hs !! h = Some l → ol_stealing l = false → ol_stealing l' = true →
  free_locks hs ≡ₚ h :: free_locks (<[h:=l']> hs).
Proof.
  intros Hh Hl Hl'. pose proof (lookup_lt_Some _ _ _ Hh).
  apply NoDup_Permutation; [apply free_locks_NoDup|constructor; [|apply free_locks_NoDup]|].
  - rewrite elem_of_free_locks, list_lookup_insert_eq by done. naive_solver congruence.
  - intros j. rewrite elem_of_cons, !elem_of_free_locks. destruct (decide (j = h)) as [->|].
    + naive_solver.
    + rewrite list_lookup_insert_ne by done. naive_solver.
Qed.

(** *** The law *)

Lemma with_h_inv {A} σ h (f : OrderedLocalQueue → A * shared I W SM) r :
  with_h σ h f = Some r → ∃ l, s_handles σ !! h = Some l ∧ f l = r.
Proof. unfold with_h. destruct (s_handles σ !! h); intros; simplify_eq/=; eauto. Qed.

Lemma with_own_inv {A} σ h (f : OrderedLocalQueue → SM W → A * shared I W SM) r :
  with_own σ h f = Some r → ∃ l m, s_handles σ !! h = Some l
    ∧ o_locals (s_q σ) !! ol_queue l = Some m ∧ f l m = r.
Proof.
  unfold with_own, own. destruct (s_handles σ !! h) as [l|]; [|done]. simpl.
  destruct (o_locals (s_q σ) !! ol_queue l) eqn:E; intros; simplify_eq/=.
  by eexists _, _.
Qed.

Lemma with_map_inv {A} σ i (f : SM W → A * shared I W SM) r :
  with_map σ i f = Some r → ∃ m, o_locals (s_q σ) !! i = Some m ∧ f m = r.
Proof. unfold with_map. destruct (o_locals (s_q σ) !! i); intros; simplify_eq/=; eauto. Qed.

Lemma held_q σ q' (a b : list (Z * T)) :
  a ++ o_elems (s_q σ) ≡ₚ b ++ o_elems q' →
  (Elem <$> a) ++ qheld σ ≡ₚ (Elem <$> b) ++ qheld (set_q σ q').
Proof.
  intros H. unfold qheld. simpl. rewrite !app_assoc. apply Permutation_app_tail.
  rewrite <-!fmap_app. by rewrite H.
Qed.

Lemma held_h σ h l l' :
  s_handles σ !! h = Some l → ol_stealing l' = ol_stealing l →
  qheld (T:=T) σ ≡ₚ qheld (set_h σ h l').
Proof.
  intros Hh Hl. unfold qheld. simpl. apply Permutation_app_head.
  by rewrite (free_locks_same _ h l l').
Qed.

Lemma held_lock σ h l l' :
  s_handles σ !! h = Some l → ol_stealing l = false → ol_stealing l' = true →
  qheld (T:=T) σ ≡ₚ [Lock h] ++ qheld (set_h σ h l').
Proof.
  intros Hh H1 H2. unfold qheld. simpl. rewrite (free_locks_flip _ h l l' Hh H1 H2).
  symmetry. apply Permutation_middle.
Qed.

(** Who has the right to steal is not the free one. *)
Lemma lock_not_free σ h l rest :
  NoDup (locks ([Lock h] ++ qheld (T:=T) σ ++ rest)) → s_handles σ !! h = Some l →
  ol_stealing l = true.
Proof.
  intros Hv Hh. destruct (ol_stealing l) eqn:E; [done|]. exfalso.
  unfold locks in Hv. simpl in Hv. apply NoDup_cons in Hv as [Hn _]. apply Hn.
  apply list_elem_of_omap. exists (Lock h). split; [|done].
  apply elem_of_app. left. unfold qheld. apply elem_of_app. right.
  apply list_elem_of_fmap_2, elem_of_free_locks. by exists l.
Qed.

Ltac invert_exec :=
  repeat match goal with
  | H : with_h _ _ _ = Some _ |- _ => apply with_h_inv in H as (? & ? & ?)
  | H : with_own _ _ _ = Some _ |- _ => apply with_own_inv in H as (? & ? & ? & ? & ?)
  | H : with_map _ _ _ = Some _ |- _ => apply with_map_inv in H as (? & ? & ?)
  end; simplify_eq/=.

#[global] Instance queue_resource_laws : ResourceLaws (shared I W SM) (qact T) (qres T).
Proof.
  split; [intros l1 l2 H; simpl; unfold locks; by rewrite H|].
  intros a σ r σ' rest Hv Hx. cbn [give got held valid exec queue_resources queue_actions] in *.
  destruct a; cbn [qexec qgive qgot] in *; invert_exec; try done.
  - apply (held_q σ _ [(p, x)] []). symmetry. exact (o_push_all p x (s_q σ)).
  - destruct (sm_get (o_shared (s_q σ)) k) as [inj|] eqn:Ek; simplify_eq/=; [|done].
    destruct (inj_steal inj) as [r0 inj'] eqn:Es; simplify_eq/=.
    pose proof (inj_steal_elems (s_q σ) k inj r inj' Ek Es) as He.
    destruct r; exact (held_q σ _ [] _ He).
  - by apply held_h with x.
  - by apply held_h with x.
  - by apply held_h with x.
  - destruct (ol_stealing x) eqn:E; simplify_eq; [done|]. by apply (held_lock σ h x).
  - assert (ol_stealing x = true) as Ht by by apply (lock_not_free σ h x rest).
    rewrite (held_lock (set_h σ h (set_stealing false x)) h (set_stealing false x) x); try done.
    + simpl. unfold set_h. simpl. by rewrite list_insert_insert_eq, list_insert_id.
    + simpl. apply list_lookup_insert_eq. by eapply lookup_lt_Some.
  - unfold on_q in *. destruct (w_push_at _ _ _ _ _) as [r0 q'] eqn:Ew; simplify_eq/=.
    pose proof (w_push_at_elems _ _ _ _ _ _ _ H0 Ew) as He.
    destruct r; exact (held_q σ _ [(p, x)] _ He).
  - unfold on_q in *. destruct (entry_pop _ _ _) as [r0 q'] eqn:Ew; simplify_eq/=.
    assert (ol_queue x < length (o_locals (s_q σ)))%nat as Hl by by eapply lookup_lt_Some.
    pose proof (entry_pop_elems _ _ _ _ _ Hl Ew) as He.
    destruct r; exact (held_q σ _ [] _ He).
  - destruct (decide _) as [|Hne]; [done|]. invert_exec. unfold on_q in *.
    destruct (w_steal_at _ _ _ _) as [r0 q'] eqn:Ew; simplify_eq/=.
    assert (ol_queue x < length (o_locals (s_q σ)))%nat as Hl by by eapply lookup_lt_Some.
    apply perm_skip, (held_q σ _ [] []).
    eapply w_steal_at_elems; [exact Hl| |done]. intros ->. apply Hne. by simplify_option_eq.
Qed.

(** *** The programs keep what they hold *)

Implicit Types (fr l : list (qres T)).

(** The result of a pop is an element; a push, a scan or a number is nothing. *)
Definition res_elem (v : option T) (l : list (qres T)) : Prop :=
  match v with Some x => ∃ p, l = [Elem (p, x)] | None => l = [] end.
Definition res_none {A} (_ : A) (l : list (qres T)) : Prop := l = [].
Definition res_lock {A} (h : nat) (_ : A) (l : list (qres T)) : Prop := l = [Lock h].
Definition res_elems (xs : list T) (l : list (qres T)) : Prop :=
  ∃ es, l = Elem <$> es ∧ es.*2 = xs.

#[local] Abbreviation qowns := (owns (S := shared I W SM) (Act := qact T)).

(** An action that neither gives nor gets. *)
Lemma owns_plain {B} (res : B → list (qres T) → Prop) l (a : qact T) k :
  qgive a = [] → (∀ r, qgot a r = []) → (∀ r, qowns res l (k r)) →
  qowns res l (qdo (I:=I) (W:=W) (SM:=SM) a ≫= k).
Proof.
  intros Hg Hr Hk. apply owns_act with l; simpl; [by rewrite Hg|].
  intros r. rewrite Hr. apply Hk.
Qed.

Lemma owns_seq {A B} (res : A → list (qres T) → Prop) (res' : B → list (qres T) → Prop)
    l (p : prog (qact T) A) k :
  qowns res l p → (∀ a l1, res a l1 → qowns res' l1 (k a)) → qowns res' l (p ≫= k).
Proof.
  intros Hp Hk. rewrite <-(app_nil_r l). apply owns_bind with res; [done|].
  intros a l1 H1. rewrite app_nil_r. by apply Hk.
Qed.

(** A program that ends with nothing in hand, run with [fr] set aside. *)
Lemma owns_aside {A B} (res' : B → list (qres T) → Prop) l fr (p : prog (qact T) A) k :
  qowns res_none l p → (∀ a, qowns res' fr (k a)) → qowns res' (l ++ fr) (p ≫= k).
Proof. intros Hp Hk. apply owns_bind with res_none; [done|]. by intros a l1 ->. Qed.

Ltac plain := apply owns_plain; [done|done|intros ?].
Tactic Notation "exchange" "as" simple_intropattern(r) :=
  apply owns_act with []; [done|]; intros r; cbn [got queue_resources qgot app].

Lemma shared_push_owns p (x : T) :
  qowns res_none [Elem (p, x)] (c_shared_push (I:=I) (W:=W) (SM:=SM) p x).
Proof. exchange as []. plain. plain. by apply owns_ret. Qed.

Lemma steal_retry_owns fuel k :
  qowns res_elem [] (c_steal_retry (I:=I) (W:=W) (SM:=SM) fuel k).
Proof.
  induction fuel as [|fuel IH]; [done|]. exchange as [x| |]; [|done|by apply owns_ret].
  plain. plain. apply owns_ret. by exists k.
Qed.

Lemma shared_pop_owns fuel : qowns res_elem [] (c_shared_pop (I:=I) (W:=W) (SM:=SM) fuel).
Proof.
  plain. case_match; [by apply owns_ret|]. generalize (@None Z), fuel at 1.
  intros cur n. revert cur. induction n as [|n IH]; intros cur; [done|]. plain.
  destruct r0 as [k|]; [|by apply owns_ret].
  eapply owns_seq; [apply steal_retry_owns|]. intros [x|] l1 H1.
  - by apply owns_ret.
  - simpl in H1. subst. apply IH.
Qed.

Lemma ptg_pass_owns fuel cur d c h :
  qowns res_none [] (c_ptg_pass (I:=I) (W:=W) (SM:=SM) fuel cur d c h).
Proof.
  revert cur d. induction fuel as [|fuel IH]; intros cur d; [done|]. plain.
  destruct r as [k|]; [|by apply owns_ret]. case_match; [by apply owns_ret|].
  exchange as [x|]; [|apply IH].
  apply (owns_aside _ [_] []); [apply shared_push_owns|]. intros _. apply IH.
Qed.

Lemma ptg_loop_owns fuel pfuel d c h :
  qowns res_none [] (c_ptg_loop (I:=I) (W:=W) (SM:=SM) fuel pfuel d c h).
Proof.
  revert d. induction fuel as [|fuel IH]; intros d; simpl; (case_match; [|by apply owns_ret]); [done|].
  apply (owns_aside _ [] []); [apply ptg_pass_owns|]. intros d'. apply IH.
Qed.

Lemma push_to_global_owns fuel p (x : T) h :
  qowns res_none [Elem (p, x)] (c_push_to_global (I:=I) (W:=W) (SM:=SM) fuel p x h).
Proof.
  plain. apply (owns_aside _ []); [apply ptg_loop_owns|]. intros _. plain. plain.
  apply shared_push_owns.
Qed.

Lemma push_owns fuel cap p (x : T) h :
  qowns res_none [Elem (p, x)] (c_push (I:=I) (W:=W) (SM:=SM) fuel cap p x h).
Proof.
  plain. case_match; [apply push_to_global_owns|]. exchange as [y|]; [apply push_to_global_owns|]. plain. plain. by apply owns_ret.
Qed.

Lemma pop_local_owns fuel cur h :
  qowns res_elem [] (c_pop_local (I:=I) (W:=W) (SM:=SM) fuel cur h).
Proof.
  revert cur. induction fuel as [|fuel IH]; intros cur; [done|]. plain.
  destruct r as [k|]; [|by apply owns_ret]. exchange as [x|]; [|apply IH]. plain. plain. apply owns_ret. by exists k.
Qed.

Lemma steal_entries_owns fuel cur h i :
  qowns (res_lock h) [Lock h] (c_steal_entries (I:=I) (W:=W) (SM:=SM) fuel cur h i).
Proof.
  revert cur. induction fuel as [|fuel IH]; intros cur; [done|]. plain.
  destruct r as [k|]; [|by apply owns_ret]. plain. case_match; [apply IH|].
  exchange as [|]; [|apply IH].
  plain. plain. plain. by apply owns_ret.
Qed.

Lemma steal_siblings_owns fuel cap idxs h :
  qowns (res_lock h) [Lock h] (c_steal_siblings (I:=I) (W:=W) (SM:=SM) fuel cap idxs h).
Proof.
  induction idxs as [|i idxs IH]; [by apply owns_ret|]. simpl. plain.
  case_match; [by apply owns_ret|].
  eapply owns_seq; [apply steal_entries_owns|]. intros [|] l1 ->; [by apply owns_ret|done].
Qed.

Lemma pop_owns fuel cap num start h :
  qowns res_elem [] (c_pop (I:=I) (W:=W) (SM:=SM) fuel cap num start h).
Proof.
  apply owns_seq with res_none.
  { plain. case_match; [plain|]; by apply owns_ret. }
  intros t l1 ->. apply owns_seq with res_elem.
  { case_match; [apply shared_pop_owns|by apply owns_ret]. }
  intros [v|] l1 Hl; [by apply owns_ret|]. simpl in Hl. subst.
  apply owns_seq with res_elem; [apply pop_local_owns|].
  intros [v|] l1 Hl; [by apply owns_ret|]. simpl in Hl. subst.
  exchange as [|]; [|apply shared_pop_owns].
  eapply owns_seq; [apply steal_siblings_owns|]. intros b l1 ->.
  exchange as [].
  case_match; [apply pop_local_owns|apply shared_pop_owns].
Qed.

Definition ops_pushes (ops : list (qop T)) : list (Z * T) := concat (op_pushes <$> ops).

Lemma op_owns fuel cap num o :
  qowns res_elems (Elem <$> op_pushes o) (c_op (I:=I) (W:=W) (SM:=SM) fuel cap num o).
Proof.
  assert (∀ v l, res_elem v l → qowns res_elems l (Ret (option_list v))) as Hv.
  { intros [x|] l Hl; simpl in *; [destruct Hl as [p ->]|subst]; apply owns_ret;
      [by exists [(p, x)]|by exists []]. }
  assert (qowns res_elems [] (Ret [])) as Hn by (apply owns_ret; by exists []).
  destruct o; cbn [c_op op_pushes].
  - apply (owns_aside _ [_] []); [apply push_owns|]. by intros [].
  - eapply owns_seq; [apply pop_owns|]. apply Hv.
  - apply (owns_aside _ [_] []); [apply shared_push_owns|]. by intros [].
  - eapply owns_seq; [apply shared_pop_owns|]. apply Hv.
Qed.

Lemma thread_owns fuel cap num ops :
  qowns res_elems (Elem <$> ops_pushes ops)
    (c_thread (I:=I) (W:=W) (SM:=SM) fuel cap num ops).
Proof.
  unfold ops_pushes. induction ops as [|o ops IH]; [apply owns_ret; by exists []|].
  rewrite fmap_cons. cbn [concat c_thread].
  rewrite fmap_app. eapply owns_bind; [apply op_owns|]. intros xs l1 (es & -> & <-).
  rewrite Permutation_app_comm. eapply owns_bind; [apply IH|].
  intros ys l2 (es' & -> & <-). rewrite Permutation_app_comm. apply owns_ret.
  exists (es ++ es'). by rewrite !fmap_app.
Qed.

(** *** Every interleaving *)

#[local] Instance elems_proper : Proper ((≡ₚ) ==> (≡ₚ)) (elems (T:=T)).
Proof. apply omap_Permutation. Qed.
#[local] Instance locks_proper : Proper ((≡ₚ) ==> (≡ₚ)) (locks (T:=T)).
Proof. apply omap_Permutation. Qed.

Lemma elems_Elem (es : list (Z * T)) : elems (Elem <$> es) = es.
Proof. unfold elems. induction es as [|e es IH]; [done|]. csimpl. by rewrite IH. Qed.

Lemma elems_Lock hs : elems (T:=T) (Lock <$> hs) = [].
Proof. unfold elems. by induction hs. Qed.

Lemma locks_Elem (es : list (Z * T)) : locks (Elem <$> es) = [].
Proof. unfold locks. by induction es. Qed.

Lemma locks_Lock hs : locks (T:=T) (Lock <$> hs) = hs.
Proof. unfold locks. induction hs as [|h hs IH]; [done|]. csimpl. by rewrite IH. Qed.

Lemma elems_app (l k : list (qres T)) : elems (l ++ k) = elems l ++ elems k.
Proof. apply omap_app. Qed.

Lemma locks_app (l k : list (qres T)) : locks (l ++ k) = locks l ++ locks k.
Proof. apply omap_app. Qed.

Lemma elems_held σ : elems (qheld σ) = o_elems (s_q σ).
Proof. unfold qheld. by rewrite elems_app, elems_Elem, elems_Lock, app_nil_r. Qed.

Lemma locks_held σ : locks (T:=T) (qheld σ) = free_locks (s_handles σ).
Proof. unfold qheld. by rewrite locks_app, locks_Elem, locks_Lock. Qed.

Definition threads (fuel : nat) (cap num : Z) (opss : list (list (qop T)))
  : list (prog (S := shared I W SM) (qact T) (list T)) :=
  c_thread fuel cap num <$> opss.
Definition all_pushes (opss : list (list (qop T))) : list (Z * T) :=
  concat (ops_pushes <$> opss).
Definition total opss σ : list (qres T) := (Elem <$> all_pushes opss) ++ qheld σ.

Lemma threads_balanced fuel cap num opss σ :
  balanced res_elems (total opss σ) (threads fuel cap num opss, σ).
Proof.
  exists ((λ ops, Elem <$> ops_pushes ops) <$> opss). simpl. split.
  - apply Forall2_fmap, Forall_Forall2_diag, Forall_true. intros ops. apply thread_owns.
  - unfold total, all_pushes. apply Permutation_app_tail.
    induction opss as [|ops opss IH]; [done|]. csimpl. by rewrite fmap_app, IH.
Qed.

Lemma locks_total opss σ : locks (total opss σ) = free_locks (s_handles σ).
Proof. unfold total. by rewrite locks_app, locks_Elem, locks_held. Qed.

Lemma elems_total opss σ : elems (total opss σ) = all_pushes opss ++ o_elems (s_q σ).
Proof. unfold total. by rewrite elems_app, elems_Elem, elems_held. Qed.

Lemma threads_stay_balanced fuel cap num opss σ0 ts σ :
  reachable (threads fuel cap num opss, σ0) (ts, σ) →
  balanced res_elems (total opss σ0) (ts, σ).
Proof.
  apply conserved, threads_balanced. simpl. rewrite locks_total. apply free_locks_NoDup.
Qed.


(** C6. Whatever the interleaving, no two threads are ever about to steal into the
    queue of the same handle: the flag [stealing] excludes the second, also when
    both threads use the handle at the same time. *)
Theorem steal_exclusive fuel cap num opss σ0 ts σ i j h a b k a' b' k' :
  reachable (threads fuel cap num opss, σ0) (ts, σ) →
  ts !! i = Some (Do (AWSteal h a b) k) → ts !! j = Some (Do (AWSteal h a' b') k') →
  i = j.
Proof.
  intros Hb%threads_stay_balanced Hi Hj. destruct (decide (i = j)) as [|Hij]; [done|].
  destruct (give_disjoint _ _ _ _ _ _ _ _ _ _ Hb Hi Hj Hij) as [rest Hr]. simpl in Hr.
  pose proof (free_locks_NoDup (s_handles σ0)) as Hn. rewrite <-(locks_total opss) in Hn.
  unfold locks in Hn. rewrite <-Hr in Hn. simpl in Hn.
  apply NoDup_cons in Hn as [Hn _]. set_solver.
Qed.
End conservation.

(** ** A thread that runs alone

    Without interference the programs do what the sequential definitions say. *)

Section alone.
Context {T I W : Type} {SM : Type → Type}
  `{!Injector T I, !Worker T W, !SkipMap SM}
  `{!InjectorLaws T I, !WorkerLaws T W, !SkipMapLaws SM}.
#[local] Existing Instance skipmap_inhabited.
Implicit Types (q : OrderedWorkStealQueue I W SM) (l : OrderedLocalQueue).

Section iteration.
Context (R : Z → Z → Prop) (beyond : Z → Z → bool)
  (beyond_spec : ∀ x y, beyond x y = true ↔ R x y)
  (R_irrefl : ∀ x, ¬ R x x) (R_trans : ∀ x y z, R x y → R y z → R x z).

Lemma key_after_skip c pre keys :
  Forall (λ k, ¬ R c k) pre → key_after beyond (Some c) (pre ++ keys)
    = key_after beyond (Some c) keys.
Proof.
  induction 1 as [|k pre Hk _ IH]; simpl; [done|].
  destruct (beyond c k) eqn:E; [by apply beyond_spec in E|done].
Qed.

(** After the keys [pre] comes the first of the others. *)
Lemma key_after_next pre keys :
  StronglySorted R (pre ++ keys) → key_after beyond (last pre) (pre ++ keys) = head keys.
Proof.
  intros Hs. destruct pre as [|c pre _] using rev_ind; [by destruct keys|].
  rewrite last_snoc. rewrite <-!app_assoc in *. simpl in *.
  change (c :: keys) with ([c] ++ keys). rewrite app_assoc, key_after_skip.
  - apply StronglySorted_app_1_r in Hs. apply StronglySorted_inv in Hs as [_ Hc].
    destruct keys as [|k keys]; [done|]. apply Forall_cons in Hc as [Hk _]. simpl.
    by rewrite (proj2 (beyond_spec c k) Hk).
  - apply Forall_app. split; [|repeat constructor; apply R_irrefl].
    apply Forall_forall. intros k Hk Hck.
    apply (R_irrefl c). eapply R_trans; [exact Hck|].
    apply (StronglySorted_app_1_elem_of _ _ _ _ _ Hs); set_solver.
Qed.
End iteration.

Lemma next_key_next pre keys :
  StronglySorted Z.lt (pre ++ keys) → next_key (last pre) (pre ++ keys) = head keys.
Proof. apply key_after_next; [apply Z.ltb_lt|lia|lia]. Qed.

Lemma sorted_reverse (keys : list Z) :
  StronglySorted Z.lt keys → StronglySorted Z.gt (reverse keys).
Proof.
  induction 1 as [|k keys _ IH Hk]; [constructor|]. rewrite reverse_cons.
  apply StronglySorted_app_2; [|done|repeat constructor].
  intros x y Hx ->%list_elem_of_singleton. rewrite elem_of_reverse in Hx.
  rewrite Forall_forall in Hk. apply Hk in Hx. lia.
Qed.

Lemma prev_key_next (keys pre post : list Z) :
  StronglySorted Z.lt keys → reverse keys = pre ++ post →
  prev_key (last pre) keys = head post.
Proof.
  intros Hs%sorted_reverse Hp. unfold prev_key. rewrite Hp in *.
  apply (key_after_next Z.gt); [apply Z.gtb_gt|lia|lia|done].
Qed.

(** *** One thread with its handle *)

Context (hs : list OrderedLocalQueue) (h : nat) (h_lt : (h < length hs)%nat).

Definition st l q : shared I W SM := mkShared q (<[h:=l]> hs).

Lemma st_handle l q : s_handles (st l q) !! h = Some l.
Proof. by apply list_lookup_insert_eq. Qed.

Lemma st_set_h l l' q : set_h (st l q) h l' = st l' q.
Proof. unfold set_h, st. simpl. by rewrite list_insert_insert_eq. Qed.

Lemma st_set_q l q q' : set_q (st l q) q' = st l q'.
Proof. done. Qed.

Lemma st_with_h {A} l q (f : OrderedLocalQueue → A * shared I W SM) :
  with_h (st l q) h f = Some (f l).
Proof. unfold with_h. by rewrite st_handle. Qed.

Lemma st_with_own {A} l q (f : OrderedLocalQueue → SM W → A * shared I W SM) :
  ol_wf l q → with_own (st l q) h f = Some (f l (my_map l q)).
Proof.
  intros Hl. unfold with_own, own. rewrite st_handle. simpl. by rewrite my_map_lookup.
Qed.

Lemma st_with_map {A} l q i (m : SM W) (f : SM W → A * shared I W SM) :
  o_locals q !! i = Some m → with_map (st l q) i f = Some (f m).
Proof. intros Hi. unfold with_map. simpl. by rewrite Hi. Qed.

Lemma run_do {A} (a : qact T) (k : qresp a → prog (qact T) A) (σ : shared I W SM) :
  run_alone (qdo a ≫= k) σ = '(r, σ) ← qexec a σ; run_alone (k r) σ.
Proof. done. Qed.

Lemma run_bind {A B} (p : prog (qact T) A) (k : A → prog (qact T) B) σ a σ' :
  run_alone p σ = Some (a, σ') → run_alone (p ≫= k) σ = run_alone (k a) σ'.
Proof. intros H. by rewrite run_alone_bind, H. Qed.

(** Execute the action in front. *)
Ltac exec :=
  lazymatch goal with
  | |- run_alone (qdo ?a ≫= ?k) ?σ = _ => refine (eq_trans (run_do a k σ) _)
  end; cbn [qexec]; rewrite ?st_with_h, ?st_with_own by done;
  cbn [mbind option_bind]; unfold on_q; rewrite ?st_set_h, ?st_set_q.

Definition few_keys {V} (fuel : nat) (m : SM V) : Prop := (length (sm_iter m) < fuel)%nat.

(** *** The shared queue *)

Lemma shared_push_alone p (x : T) l q :
  run_alone (c_shared_push p x) (st l q) = Some (tt, st l (o_push_with_priority p x q)).
Proof. done. Qed.

Lemma steal_retry_alone rfuel k l q :
  (0 < rfuel)%nat →
  match sm_get (o_shared q) k with
  | None => run_alone (c_steal_retry (T:=T) rfuel k) (st l q) = Some (None, st l q)
  | Some inj => ∀ v inj', steal_retry 1 inj = Some (v, inj') →
      let q1 := o_set_shared q (sm_set (o_shared q) k inj') in
      run_alone (c_steal_retry rfuel k) (st l q)
      = Some (v, st l (match v with
                       | Some _ => o_set_len q1 (sat_sub (o_len q) 1)
                       | None => q1
                       end))
  end.
Proof.
  intros Hr. destruct rfuel as [|rfuel]; [lia|]. cbn [c_steal_retry].
  destruct (sm_get (o_shared q) k) as [inj|] eqn:Eg.
  - intros v inj' Hs. exec. cbn [st s_q]. rewrite Eg. cbn [steal_retry] in Hs.
    by destruct (inj_steal inj) as [[x| |] inj1]; simplify_eq.
  - exec. cbn [st s_q]. by rewrite Eg.
Qed.

Lemma shared_entries_alone fuel rfuel pre keys l q v q' :
  o_pop_entries 1 keys q = Some (v, q') → (sm_iter (o_shared q)).*1 = pre ++ keys →
  (length keys < fuel)%nat → (0 < rfuel)%nat →
  run_alone (c_shared_entries fuel rfuel (last pre)) (st l q) = Some (v, st l q').
Proof.
  intros Ho Hk Hf Hr. revert fuel pre q Ho Hk Hf.
  induction keys as [|k keys IH]; intros [|fuel] pre q Ho Hk Hf; simpl in Hf; try lia.
  all: cbn [c_shared_entries]; exec; cbn [st s_q].
  all: rewrite Hk, next_key_next by (rewrite <-Hk; apply sm_sorted); cbn [head hd_error].
  { by simplify_eq/=. }
  cbn [o_pop_entries] in Ho. pose proof (steal_retry_alone rfuel k l q Hr) as Hst.
  assert (∀ q1, (sm_iter (o_shared q1)).*1 = pre ++ k :: keys →
    o_pop_entries 1 keys q1 = Some (v, q') →
    run_alone (c_shared_entries fuel rfuel (Some k)) (st l q1) = Some (v, st l q'))
    as Hnext.
  { intros q1 Hk1 Ho1. rewrite <-(last_snoc k pre). apply IH; [done| |lia].
    by rewrite <-app_assoc. }
  destruct (sm_get (o_shared q) k) as [inj|] eqn:Eg.
  2: { rewrite (run_bind _ _ _ _ _ Hst). by apply Hnext. }
  destruct (steal_retry 1 inj) as [[u inj']|]; [|done].
  rewrite (run_bind _ _ _ _ _ (Hst _ _ eq_refl)). destruct u as [x|]; [by simplify_eq|].
  apply Hnext; [|done]. simpl. by rewrite sm_set_iter, al_set_keys.
Qed.

Lemma shared_pop_alone fuel l q v q' :
  o_pop 1 q = Some (v, q') → few_keys fuel (o_shared q) →
  run_alone (c_shared_pop fuel) (st l q) = Some (v, st l q').
Proof.
  intros Ho Hf. unfold c_shared_pop. exec. cbn [st s_q]. unfold o_pop, o_is_empty in Ho.
  unfold few_keys in Hf. destruct (o_len q =? 0); [by simplify_eq|].
  apply (shared_entries_alone _ _ [] _ _ _ _ _ Ho); [done| |lia]. by rewrite length_fmap.
Qed.

(** *** Pushing *)

Lemma o_push_my_map l p (x : T) q : my_map l (o_push_with_priority p x q) = my_map l q.
Proof. done. Qed.

Lemma entry_pop_keys l k q (v : option T) q' :
  ol_wf l q → entry_pop l k q = (v, q') →
  ol_wf l q' ∧ (sm_iter (my_map l q')).*1 = (sm_iter (my_map l q)).*1.
Proof.
  intros Hl. unfold entry_pop. destruct (sm_get (my_map l q) k) as [w|]; [|by intros; simplify_eq].
  destruct (w_pop w) as [u w']. intros; simplify_eq. split.
  - unfold ol_wf. simpl. by rewrite length_insert.
  - by rewrite my_map_set, sm_set_iter, al_set_keys.
Qed.

Lemma ptg_pass_alone fuel pre post d c l q d' q' :
  ptg_pass post d c l q = (d', q') → ol_wf l q →
  reverse ((sm_iter (my_map l q)).*1) = pre ++ post → (length post < fuel)%nat →
  run_alone (c_ptg_pass (T:=T) fuel (last pre) d c h) (st l q) = Some (d', st l q')
  ∧ ol_wf l q' ∧ (sm_iter (my_map l q')).*1 = (sm_iter (my_map l q)).*1.
Proof.
  revert fuel pre d q. induction post as [|k post IH];
    intros [|fuel] pre d q Hp Hl Hk Hf; simpl in Hf; try lia.
  all: cbn [c_ptg_pass]; cbn [ptg_pass] in Hp.
  - simplify_eq. split; [|done]. exec.
    by rewrite (prev_key_next _ _ _ (sm_sorted _ _) Hk).
  - destruct (c <=? d) eqn:Ed.
    { simplify_eq. split; [|done]. exec.
      by rewrite (prev_key_next _ _ _ (sm_sorted _ _) Hk). }
    destruct (entry_pop l k q) as [v q1] eqn:Ep.
    destruct (entry_pop_keys _ _ _ _ _ Hl Ep) as [Hl1 Hk1].
    destruct v as [x|].
    + destruct (IH fuel (pre ++ [k]) (d + 1) (o_push_with_priority k x q1))
        as (IH1 & IH2 & IH3); [done|done| |lia|].
      { rewrite o_push_my_map, Hk1, <-app_assoc. done. }
      rewrite o_push_my_map, Hk1 in IH3. split; [|done].
      exec. rewrite (prev_key_next _ _ _ (sm_sorted _ _) Hk). cbn [head hd_error].
      exec. cbn [st s_q]. rewrite Ep. cbn [fst snd].
      rewrite (run_bind _ _ _ _ _ (shared_push_alone k x l q1)).
      by rewrite last_snoc in IH1.
    + destruct (IH fuel (pre ++ [k]) d q1) as (IH1 & IH2 & IH3); [done|done| |lia|].
      { rewrite Hk1, <-app_assoc. done. }
      rewrite Hk1 in IH3. split; [|done].
      exec. rewrite (prev_key_next _ _ _ (sm_sorted _ _) Hk). cbn [head hd_error].
      exec. cbn [st s_q]. rewrite Ep. by rewrite last_snoc in IH1.
Qed.

Lemma ptg_loop_alone fuel pfuel d c l q q' :
  ptg_loop fuel d c l q = Some q' → ol_wf l q → few_keys pfuel (my_map l q) →
  run_alone (c_ptg_loop (T:=T) fuel pfuel d c h) (st l q) = Some (tt, st l q').
Proof.
  revert d q. induction fuel as [|fuel IH]; intros d q Hp Hl Hf.
  all: cbn [ptg_loop c_ptg_loop] in *; destruct (d <? c); try by simplify_eq.
  destruct (ptg_pass _ d c l q) as [d1 q1] eqn:Ep.
  destruct (ptg_pass_alone pfuel [] _ _ _ _ _ _ _ Ep Hl eq_refl) as (H1 & H2 & H3).
  { rewrite length_reverse, length_fmap. done. }
  rewrite (run_bind _ _ _ _ _ H1). apply IH; [done..|].
  unfold few_keys. rewrite <-(length_fmap fst), H3, length_fmap. done.
Qed.

Lemma push_to_global_alone fuel p (x : T) l q l' q' :
  push_to_global fuel p x l q = Some (l', q') → ol_wf l q → few_keys fuel (my_map l q) →
  run_alone (c_push_to_global fuel p x h) (st l q) = Some (tt, st l' q').
Proof.
  unfold push_to_global. intros Hp Hl Hf.
  destruct (ptg_loop fuel 0 (ol_len l / 2) l q) as [q1|] eqn:Eq; [|done].
  cbn in Hp. simplify_eq. unfold c_push_to_global. exec.
  rewrite (run_bind _ _ _ _ _ (ptg_loop_alone _ _ _ _ _ _ _ Eq Hl Hf)).
  exec. exec. apply shared_push_alone.
Qed.

Lemma al_goi_length {V} (kvs : list (Z * V)) p v :
  (length (al_get_or_insert kvs p v) ≤ S (length kvs))%nat.
Proof. induction kvs as [|[j u] kvs IH]; simpl; [lia|]. repeat case_match; simpl; lia. Qed.

Lemma few_keys_goi fuel l q p c :
  ol_wf l q → few_keys fuel (my_map l q) →
  let m := sm_get_or_insert (my_map l q) p (w_new (T:=T) c) in
  few_keys (S fuel) (my_map l (o_set_local q (ol_queue l) m)).
Proof.
  intros Hl Hf m. unfold few_keys in *. rewrite my_map_set by done. unfold m.
  rewrite sm_get_or_insert_iter.
  pose proof (al_goi_length (sm_iter (my_map l q)) p (w_new c)). lia.
Qed.

Lemma push_alone fuel p (x : T) l q l' q' :
  ol_push_with_priority fuel p x l q = Some (l', q') → ol_wf l q →
  few_keys (pred fuel) (my_map l q) →
  run_alone (c_push fuel (o_local_capacity q) p x h) (st l q) = Some (tt, st l' q').
Proof.
  unfold ol_push_with_priority, is_local_full, c_push. intros Hp Hl Hf.
  destruct fuel as [|fuel]; [unfold few_keys in Hf; simpl in Hf; lia|]. simpl in Hf.
  exec. destruct (o_local_capacity q <=? ol_len l).
  { apply push_to_global_alone; [done..|]. unfold few_keys in *. lia. }
  exec. unfold w_push_at. cbn [st s_q].
  destruct (w ← _; w_push w x) as [w'|]; cbn [fst snd]; rewrite ?st_set_q; simplify_eq.
  - exec. exec. by rewrite o_set_local_twice.
  - apply push_to_global_alone; [done| |by apply few_keys_goi].
    unfold ol_wf. simpl. by rewrite length_insert.
Qed.

(** *** Popping *)

Lemma tick_alone l q t l' :
  o_tick l = (t, l') → run_alone (c_tick (T:=T) h) (st l q) = Some (t, st l' q).
Proof.
  unfold o_tick, c_tick. intros Ht. exec. destruct (ol_tick l =? u32_max); simplify_eq; [|done].
  by exec.
Qed.

Lemma pop_local_alone fuel l q (v : option T) l' q' :
  pop_local l q = (v, l', q') → ol_wf l q → few_keys fuel (my_map l q) →
  run_alone (c_pop_local fuel None h) (st l q) = Some (v, st l' q').
Proof.
  unfold pop_local, few_keys. intros Hp Hl Hf. rewrite <-(length_fmap fst) in Hf.
  assert ((sm_iter (my_map l q)).*1 = [] ++ (sm_iter (my_map l q)).*1) as Hk by done.
  revert Hp Hk Hf. change (@None Z) with (last (@nil Z)). generalize (@nil Z) as pre.
  generalize ((sm_iter (my_map l q)).*1) at 1 3 4 as keys. intros keys. revert fuel q Hl.
  induction keys as [|k keys IH]; intros [|fuel] q Hl pre Hp Hk Hf; simpl in Hf; try lia.
  all: cbn [c_pop_local pop_local_entries] in *; exec.
  all: rewrite Hk, next_key_next by (rewrite <-Hk; apply sm_sorted); cbn [head hd_error].
  { by simplify_eq. }
  exec. cbn [st s_q]. destruct (entry_pop l k q) as [u q1] eqn:Ep. cbn [fst snd].
  destruct (entry_pop_keys _ _ _ _ _ Hl Ep) as [Hl1 Hk1].
  destruct u as [x|]; [simplify_eq; by exec; exec|].
  rewrite <-(last_snoc k pre). apply IH; [done|done| |lia]. by rewrite Hk1, Hk, <-app_assoc.
Qed.

(** Used slots of an entry of the own map. *)
Definition entry_len (m : SM W) (k : Z) : Z :=
  match sm_get m k with
  | Some w => w_capacity w - w_spare_capacity (T:=T) w
  | None => 0
  end.

(** One turn of the sequential loop in terms of the atomic steal. *)
Lemma steal_entries_turn i k keys another worker l q b q1 :
  ol_wf l q → o_locals q !! i = Some another → sm_get another k = Some worker →
  w_is_empty (T:=T) worker = false → w_steal_at (T:=T) l i k q = (b, q1) →
  steal_entries (T:=T) i (k :: keys) l q =
    if b then (true, ol_set_len l (sat_add usize_max (ol_len l) (entry_len (my_map l q1) k)), q1)
    else steal_entries (T:=T) i keys l q1.
Proof.
  intros Hl Ha Hw He. unfold w_steal_at. cbn [steal_entries]. rewrite Ha. simpl.
  rewrite Hw, He. rewrite my_map_set by done. rewrite sm_get_goi.
  set (m1 := sm_get_or_insert _ _ _). set (into := default _ _).
  set (q2 := o_set_local q _ m1). destruct (w_steal worker into _) as [[r worker'] into'].
  intros; simplify_eq. destruct r as [n|]; [|done]. f_equal. f_equal. f_equal. f_equal.
  set (q3 := o_set_local q2 i _).
  assert (ol_wf l q3) as Hl3 by (unfold ol_wf, q3, q2; simpl; by rewrite !length_insert).
  unfold entry_len. rewrite my_map_set by done.
  assert (∃ u, sm_get (my_map l q3) k = Some u) as [u Hu].
  { destruct (decide (i = ol_queue l)) as [->|Hne].
    - unfold q3. rewrite my_map_set by (unfold ol_wf, q2; simpl; by rewrite length_insert).
      exists worker'. apply sm_get_set_eq with into. unfold q2. simpl.
      rewrite list_lookup_total_insert_eq by done. apply sm_get_goi.
    - exists into. unfold my_map, q3, q2. simpl. rewrite list_lookup_total_alt.
      rewrite list_lookup_insert_ne, list_lookup_insert_eq by done. apply sm_get_goi. }
  by rewrite (sm_get_set_eq _ _ _ _ Hu).
Qed.

Definition one_more_key l q q' : Prop :=
  (length (sm_iter (my_map l q')) ≤ S (length (sm_iter (my_map l q))))%nat.

Lemma w_steal_at_keys l i k q b q1 :
  ol_wf l q → i ≠ ol_queue l → w_steal_at (T:=T) l i k q = (b, q1) → one_more_key l q q1.
Proof.
  intros Hl Hi. unfold w_steal_at, one_more_key.
  destruct (another ← _; sm_get another k); [|by intros; simplify_eq; lia].
  rewrite my_map_set, sm_get_goi by done. set (m1 := sm_get_or_insert _ _ _).
  set (q2 := o_set_local q _ m1). destruct (w_steal _ _ _) as [[r worker'] into'].
  intros; simplify_eq. set (q3 := o_set_local q2 i _).
  assert (ol_wf l q3) as Hl3 by (unfold ol_wf, q3, q2; simpl; by rewrite !length_insert).
  rewrite my_map_set, sm_set_iter by done.
  rewrite <-(length_fmap fst), al_set_keys, length_fmap.
  assert (my_map l q3 = m1) as ->.
  { unfold my_map, q3, q2. simpl. rewrite list_lookup_total_alt.
    by rewrite list_lookup_insert_ne, list_lookup_insert_eq by done. }
  unfold m1. rewrite sm_get_or_insert_iter. apply al_goi_length.
Qed.

(** What the steals assume while nobody interferes: an empty own map, a true
    counter and idle siblings. *)
Definition ready_to_steal l q : Prop :=
  o_wf q ∧ ol_wf l q ∧ my_elems (T:=T) l q = [] ∧ ol_len l = 0 ∧ o_siblings_idle (T:=T) l q.

(** Then a non-empty entry is not one's own, and stealing from it succeeds. *)
Lemma steal_at_succeeds i k another worker l q :
  ready_to_steal l q → o_locals q !! i = Some another → sm_get another k = Some worker →
  w_is_empty (T:=T) worker = false →
  i ≠ ol_queue l ∧ ∃ q1, w_steal_at (T:=T) l i k q = (true, q1) ∧ ol_wf l q1.
Proof.
  intros (Hq & Hl & He & Hlen & Hidle) Ha Ew Ee. split.
  { intros ->. rewrite (my_map_lookup _ _ Hl) in Ha. simplify_eq.
    apply (map_get_nil _ _ _ He) in Ew. apply w_is_empty_spec in Ew. congruence. }
  destruct (w_steal_at (T:=T) l i k q) as [b q1] eqn:Est. exists q1.
  pose proof (steal_entries_turn i k [] another worker l q b q1 Hl Ha Ew Ee Est) as H1.
  destruct b; (apply (steal_entries_spec i [k] another) in H1; try done).
  - by destruct H1 as (_ & Hl1 & _).
  - destruct H1 as (_ & _ & Hn). exfalso.
    assert (w_elems worker ≠ []) as Hne by (rewrite <-w_is_empty_spec; congruence).
    destruct (w_elems worker) as [|y r] eqn:Ey; [done|].
    apply (Hn k y); [set_solver|]. apply elem_of_al_elems; [apply sm_sorted|].
    exists worker. rewrite Ey. set_solver.
Qed.

(** One turn of the sequential loop: skip, or steal and stop. *)
Lemma steal_entries_cases i k keys another l q :
  ready_to_steal l q → o_locals q !! i = Some another →
  (match sm_get another k with Some w => w_is_empty (T:=T) w | None => true end = true
   ∧ steal_entries (T:=T) i (k :: keys) l q = steal_entries (T:=T) i keys l q)
  ∨ (match sm_get another k with Some w => w_is_empty (T:=T) w | None => true end = false
     ∧ i ≠ ol_queue l ∧ ∃ q1, w_steal_at (T:=T) l i k q = (true, q1) ∧ ol_wf l q1
     ∧ steal_entries (T:=T) i (k :: keys) l q
       = (true, ol_set_len l (sat_add usize_max (ol_len l) (entry_len (my_map l q1) k)), q1)).
Proof.
  intros Hr Ha. pose proof Hr as (_ & Hl & _).
  destruct (sm_get another k) as [worker|] eqn:Ew.
  2: { left. cbn [steal_entries]. rewrite Ha. simpl. by rewrite Ew. }
  destruct (w_is_empty worker) eqn:Ee.
  { left. cbn [steal_entries]. rewrite Ha. simpl. by rewrite Ew, Ee. }
  right. split; [done|].
  destruct (steal_at_succeeds i k another worker l q Hr Ha Ew Ee) as (Hi & q1 & Hs & Hl1).
  split; [done|]. exists q1. split_and!; try done.
  by rewrite (steal_entries_turn i k keys another worker l q true q1).
Qed.

Lemma steal_entries_keys i keys another l q b l' q' :
  ready_to_steal l q → o_locals q !! i = Some another →
  steal_entries (T:=T) i keys l q = (b, l', q') → one_more_key l q q'.
Proof.
  intros Hr Ha. induction keys as [|k keys IH]; intros Hs.
  { simplify_eq/=. unfold one_more_key. lia. }
  destruct (steal_entries_cases i k keys another l q Hr Ha)
    as [[_ E]|(_ & Hi & q1 & Hst & _ & E)]; rewrite E in Hs; [by apply IH|].
  simplify_eq. eapply w_steal_at_keys; [apply Hr|done|done].
Qed.

Lemma steal_entries_alone fuel i pre keys another l q b l' q' :
  ready_to_steal l q → o_locals q !! i = Some another → (sm_iter another).*1 = pre ++ keys →
  steal_entries (T:=T) i keys l q = (b, l', q') → (length keys < fuel)%nat →
  run_alone (c_steal_entries (T:=T) fuel (last pre) h i) (st l q) = Some (b, st l' q').
Proof.
  intros Hr Ha. revert fuel pre.
  induction keys as [|k keys IH]; intros [|fuel] pre Hk Hs Hf; simpl in Hf; try lia.
  all: cbn [c_steal_entries]; exec; rewrite (st_with_map _ _ _ _ _ Ha); cbn [mbind option_bind].
  all: rewrite Hk, next_key_next by (rewrite <-Hk; apply sm_sorted); cbn [head hd_error].
  { by simplify_eq/=. }
  exec. rewrite (st_with_map _ _ _ _ _ Ha). cbn [mbind option_bind].
  pose proof Hr as (_ & Hl & _).
  destruct (steal_entries_cases i k keys another l q Hr Ha)
    as [[-> E]|(-> & Hi & q1 & Hst & Hl1 & E)]; rewrite E in Hs.
  { rewrite <-(last_snoc k pre). apply IH; [by rewrite <-app_assoc|done|lia]. }
  exec. rewrite st_handle, decide_False by (cbn; congruence).
  cbn [mbind option_bind st s_q]. rewrite Hst. cbn [fst snd].
  exec. exec. exec. by simplify_eq.
Qed.

(** Every map has fewer than [fuel] priorities. *)
Definition all_few_keys (fuel : nat) q : Prop :=
  few_keys fuel (o_shared q) ∧ Forall (few_keys fuel) (o_locals q).

Lemma steal_siblings_alone fuel idxs l q b l' q' :
  ready_to_steal l q → Forall (λ i, i < length (o_locals q))%nat idxs →
  Forall (few_keys fuel) (o_locals q) →
  steal_siblings (T:=T) idxs l q = (b, l', q') →
  run_alone (c_steal_siblings (T:=T) fuel (o_local_capacity q) idxs h) (st l q)
  = Some (b, st l' q') ∧ one_more_key l q q'.
Proof.
  intros Hr Hin Hf. induction Hin as [|i idxs Hi _ IH]; intros Hs.
  all: cbn [c_steal_siblings steal_siblings] in *.
  { simplify_eq. split; [done|]. unfold one_more_key. lia. }
  destruct (lookup_lt_is_Some_2 _ _ Hi) as [another Ha]. rewrite Ha in Hs.
  assert (few_keys fuel another) as Hfa by exact (Forall_lookup_1 _ _ _ _ Hf Ha).
  unfold few_keys in Hfa. rewrite <-(length_fmap fst) in Hfa.
  destruct (steal_entries _ _ l q) as [[b1 l1] q1] eqn:Es.
  pose proof (steal_entries_alone fuel i [] _ another l q b1 l1 q1 Hr Ha eq_refl Es Hfa) as He.
  pose proof (steal_entries_keys i _ another l q b1 l1 q1 Hr Ha Es) as Hkeys.
  assert (b1 = false → l1 = l ∧ q1 = q) as Hsame.
  { intros ->. destruct Hr as (? & ? & ? & ? & ?).
    by apply (steal_entries_spec i _ another) in Es as (-> & -> & _). }
  destruct (negb (o_can_steal l q)) eqn:Ec.
  { simplify_eq. split; [|unfold one_more_key; lia]. exec.
    change (ol_len l' <? _) with (o_can_steal l' q'). by rewrite Ec. }
  assert (∀ r, run_alone (if b1 then Ret true
       else c_steal_siblings fuel (o_local_capacity q) idxs h) (st l1 q1) = r →
    run_alone (c_steal_siblings fuel (o_local_capacity q) (i :: idxs) h) (st l q) = r) as Hstep.
  { intros r <-. cbn [c_steal_siblings]. exec.
    change (ol_len l <? _) with (o_can_steal l q). rewrite Ec. cbn [o_ptr_eq_another_self].
    by rewrite (run_bind _ _ _ _ _ He). }
  destruct b1; simplify_eq/=.
  - split; [by apply Hstep|done].
  - destruct (Hsame eq_refl) as [-> ->]. destruct (IH Hs) as [IH1 IH2].
    split; [by apply Hstep|done].
Qed.

Lemma steal_order_bound start num :
  Forall (λ i, i < Z.to_nat num)%nat (o_steal_order start num).
Proof.
  apply Forall_fmap, Forall_forall. intros i Hi. apply elem_of_seqZ in Hi. simpl.
  pose proof (Z.mod_pos_bound (start + i) num). lia.
Qed.

Lemma pop_steal_alone fuel start l q (v : option T) l' q' :
  ready_to_steal l q → ol_stealing l = false → all_few_keys (pred fuel) q →
  o_pop_steal 1 start l q = Some (v, l', q') →
  run_alone (c_pop_steal fuel (o_local_capacity q) (Zlen (o_locals q)) start h) (st l q)
  = Some (v, st l' q').
Proof.
  intros Hr Hst [Hf1 Hf2] Hs. unfold c_pop_steal, o_pop_steal, o_try_lock in *.
  exec. rewrite Hst in *. cbn [mbind option_bind] in *.
  change (set_stealing true l) with (mkOLQ (ol_tick l) true (ol_queue l) (ol_len l)).
  set (l1 := mkOLQ (ol_tick l) true (ol_queue l) (ol_len l)) in *.
  assert (ready_to_steal l1 q) as Hr1 by done.
  pose proof (steal_order_bound start (Zlen (o_locals q))) as Hidx.
  unfold Zlen at 1 in Hidx. rewrite Nat2Z.id in Hidx.
  destruct (steal_siblings _ l1 q) as [[b l2] q2] eqn:Es.
  destruct (steal_siblings_alone fuel _ l1 q b l2 q2 Hr1 Hidx) as [Hrun Hkeys]; [|done|].
  { eapply Forall_impl; [exact Hf2|]. unfold few_keys. simpl. lia. }
  rewrite (run_bind _ _ _ _ _ Hrun). exec.
  destruct Hr1 as (? & Hl1 & ? & ? & ?).
  apply steal_siblings_spec in Es; try done. destruct b.
  - destruct Es as (_ & Hl2 & Hlq & _). apply pop_local_alone; [by simplify_eq|done|].
    pose proof (Forall_lookup_1 _ _ _ _ Hf2 (my_map_lookup _ _ Hl1)) as Hf.
    unfold few_keys, one_more_key, my_map in *. simpl in *. rewrite Hlq. simpl. lia.
  - destruct Es as (-> & -> & _). destruct (o_pop 1 q) as [[u q3]|] eqn:Eo; [|done].
    cbn in Hs. simplify_eq. apply shared_pop_alone; [done|]. unfold few_keys in *. lia.
Qed.

Lemma few_keys_same fuel {V} (m m' : SM V) :
  (sm_iter m').*1 = (sm_iter m).*1 → few_keys fuel m → few_keys fuel m'.
Proof.
  intros E. unfold few_keys.
  by rewrite <-(length_fmap fst (sm_iter m')), E, length_fmap.
Qed.

Lemma o_pop_keys fuel q (v : option T) q' :
  o_pop fuel q = Some (v, q') → (sm_iter (o_shared q')).*1 = (sm_iter (o_shared q)).*1.
Proof.
  unfold o_pop. destruct (o_is_empty q); [by intros; simplify_eq|].
  generalize ((sm_iter (o_shared q)).*1) at 1. intros keys. revert q.
  induction keys as [|k keys IH]; intros q; simpl; [by intros; simplify_eq|].
  destruct (sm_get (o_shared q) k) as [inj|]; [|apply IH].
  destruct (steal_retry fuel inj) as [[[x|] inj']|]; [| |done]; intros H.
  - simplify_eq. simpl. by rewrite sm_set_iter, al_set_keys.
  - apply IH in H. rewrite H. simpl. by rewrite sm_set_iter, al_set_keys.
Qed.

Lemma pop_local_keys l q (v : option T) l' q' :
  ol_wf l q → pop_local l q = (v, l', q') →
  (sm_iter (my_map l q')).*1 = (sm_iter (my_map l q)).*1.
Proof.
  unfold pop_local. generalize ((sm_iter (my_map l q)).*1) at 1. intros keys. revert q.
  induction keys as [|k keys IH]; intros q Hl; simpl; [by intros; simplify_eq|].
  destruct (entry_pop l k q) as [u q1] eqn:Ep.
  destruct (entry_pop_keys _ _ _ _ _ Hl Ep) as [Hl1 Hk1].
  destruct u as [x|]; [by intros; simplify_eq|]. intros H. by rewrite (IH q1 Hl1 H).
Qed.

Lemma all_few_keys_local fuel l q q' :
  ol_wf l q → all_few_keys fuel q → same_frame l q q' →
  (sm_iter (my_map l q')).*1 = (sm_iter (my_map l q)).*1 → all_few_keys fuel q'.
Proof.
  intros Hl [H1 H2] (Hs & _ & _ & Hn & Hloc) Hk. split; [by rewrite Hs|].
  apply Forall_lookup. intros i m Hi. destruct (decide (i = ol_queue l)) as [->|Hne].
  - rewrite my_map_lookup in Hi by (unfold ol_wf; by rewrite Hn). simplify_eq.
    eapply few_keys_same; [done|]. exact (Forall_lookup_1 _ _ _ _ H2 (my_map_lookup _ _ Hl)).
  - rewrite Hloc in Hi by done. by apply (Forall_lookup_1 _ _ _ _ H2 Hi).
Qed.

(** The whole [pop]. *)
Lemma pop_alone fuel start l q (v : option T) l' q' :
  o_wf q → ol_wf l q → ol_exact (T:=T) l q → ol_stealing l = false →
  o_siblings_idle (T:=T) l q → retries_below 1 ((sm_iter (o_shared q)).*1) q →
  all_few_keys (pred fuel) q → ol_pop 1 start l q = Some (v, l', q') →
  run_alone (c_pop fuel (o_local_capacity q) (Zlen (o_locals q)) start h) (st l q)
  = Some (v, st l' q').
Proof.
  intros Hq Hl Hx Hst Hidle Hret Hf Hp. unfold ol_pop in Hp. unfold c_pop.
  destruct (o_tick l) as [t l1] eqn:Et.
  rewrite (run_bind _ _ _ _ _ (tick_alone _ q _ _ Et)).
  apply o_tick_queue in Et as (Hlq & Hls & Hln).
  destruct (first_turn 1 (t mod 61 =? 0) q Hq Hret) as (u & q1 & Eu & Hq1 & Hlq1 & Hu).
  rewrite Eu in Hp. cbn [mbind option_bind] in Hp.
  assert (all_few_keys (pred fuel) q1 ∧ o_local_capacity q1 = o_local_capacity q) as [Hf1 Hcap].
  { destruct (t mod 61 =? 0); [|by simplify_eq]. unfold all_few_keys. rewrite Hlq1.
    destruct Hf as [Hfs Hfl]. split_and!; [|done|].
    - eapply few_keys_same; [by eapply o_pop_keys|done].
    - destruct (o_pop_spec 1 q Hq Hret) as (? & ? & E & _ & _ & ? & _). by simplify_eq. }
  assert (run_alone (if t mod 61 =? 0 then c_shared_pop fuel else Ret None) (st l1 q)
    = Some (u, st l1 q1)) as Hfirst.
  { destruct (t mod 61 =? 0); [|by simplify_eq]. apply shared_pop_alone; [done|].
    destruct Hf as [Hfs _]. unfold few_keys in *. lia. }
  rewrite (run_bind _ _ _ _ _ Hfirst). destruct u as [x|]; [by simplify_eq|].
  assert (ol_wf l1 q1) as Hl1 by (unfold ol_wf; by rewrite Hlq, Hlq1).
  destruct (pop_local l1 q1) as [[w l2] q2] eqn:Ep.
  assert (few_keys fuel (my_map l1 q1)) as Hf1'.
  { pose proof (Forall_lookup_1 _ _ _ _ (proj2 Hf1) (my_map_lookup _ _ Hl1)) as Hm.
    unfold few_keys in *. simpl in Hm. lia. }
  rewrite (run_bind _ _ _ _ _ (pop_local_alone fuel _ _ _ _ _ Ep Hl1 Hf1')).
  destruct w as [x|]; [by simplify_eq|].
  pose proof (pop_local_keys _ _ _ _ _ Hl1 Ep) as Hk2.
  apply pop_local_spec in Ep as (Hq2 & Hfr & _ & _ & _ & -> & He1 & He2 & _); try done.
  pose proof Hfr as (_ & _ & Hc2 & Hn2 & _).
  rewrite <-Hcap, <-Hlq1, <-Hc2. unfold Zlen. rewrite <-Hn2. fold (Zlen (o_locals q2)).
  apply pop_steal_alone; [|congruence|by eapply all_few_keys_local|done].
  split_and!; [done|by eapply frame_wf|done|..].
  - rewrite Hln, Hx. unfold my_elems, my_map in *. rewrite Hlq, Hlq1 in He1. by rewrite He1.
  - eapply idle_frame; [done|]. intros i m k w Hne. rewrite Hlq1. apply Hidle. congruence.
Qed.
End alone.

Section alone_theorem.
Context {T I W : Type} {SM : Type → Type}
  `{!Injector T I, !Worker T W, !SkipMap SM}
  `{!InjectorLaws T I, !WorkerLaws T W, !SkipMapLaws SM}.

(** C7. The programs of atomic actions refine the sequential methods: a thread
    that is not interfered with (the injectors ask for no retry, no sibling is
    being stolen from) runs [pop] and [push_with_priority] to the end, whatever
    the other handles are, with the very result, handle and queue that the
    sequential definitions give. The fuel has to exceed the number of
    priorities of every map by two, and the handle's counter. *)
Theorem methods_run_alone fuel start p (x : T) l (q : OrderedWorkStealQueue I W SM) hs h :
  hs !! h = Some l → o_wf (T:=T) q → ol_wf l q → ol_exact (T:=T) l q →
  ol_stealing l = false → o_siblings_idle (T:=T) l q →
  retries_below (T:=T) 1 ((sm_iter (o_shared q)).*1) q →
  0 ≤ start < Zlen (o_locals q) → o_len q + ol_len l < usize_max →
  all_few_keys (pred fuel) q → ol_len l ≤ Z.of_nat fuel →
  (∃ v l' q', ol_pop 1 start l q = Some (v, l', q')
     ∧ run_alone (c_pop (T:=T) fuel (o_local_capacity q) (Zlen (o_locals q)) start h)
         (mkShared q hs) = Some (v, mkShared q' (<[h:=l']> hs)))
  ∧ (∃ l' q', ol_push_with_priority fuel p x l q = Some (l', q')
     ∧ run_alone (c_push fuel (o_local_capacity q) p x h)
         (mkShared q hs) = Some (tt, mkShared q' (<[h:=l']> hs))).
Proof.
  intros Hh Hq Hl Hx Hst Hi Hr Hs Hm Hf Hfuel. pose proof (lookup_lt_Some _ _ _ Hh) as Hlt.
  assert (mkShared q hs = st hs h l q) as -> by (unfold st; by rewrite list_insert_id).
  split.
  - destruct (ol_pop_spec 1 start l q Hq Hl Hx Hst Hi Hr Hs) as (v & l' & q' & E & _).
    exists v, l', q'. split; [done|]. by apply pop_alone.
  - destruct (ol_push_spec fuel p x l q Hq Hl Hx Hm Hfuel) as (l' & q' & E & _).
    exists l', q'. split; [done|]. apply push_alone; try done.
    exact (Forall_lookup_1 _ _ _ _ (proj2 Hf) (my_map_lookup _ _ Hl)).
Qed.
End alone_theorem.

(** ** Concrete threads *)

Module QueueRaceExamples.
Import ListQueues OrderedWorkStealExamples.
Abbreviation qshared := (shared (list_injector Z) (list_worker Z) list_skipmap).

Definition empty2 : qshared := mkShared (o_new 2 4) [handle 0; handle 1].

(** What is seen of the state: the elements and the shared counter. *)
Definition queue_seen (σ : qshared) : list (Z * Z) * Z := (o_elems (s_q σ), o_len (s_q σ)).

(** Two threads push into the shared queue; both read the counter before
    either writes it. A third thread pops twice. *)
Definition race_ops : list (list (qop Z)) :=
  [[OpSharedPush 0 7]; [OpSharedPush 0 8]; [OpSharedPop; OpSharedPop]].
Definition race_schedule : list nat :=
  [0; 1; 0; 1; 0; 1; 2; 2; 2; 2; 2; 2]%nat.

Example race_outcome :
  observe queue_seen (run_schedule race_schedule (threads 9 4 2 race_ops, empty2))
  = Some ([[]; []; [7]], ([(0, 8)], 0)).
Proof. vm_compute. reflexivity. Qed.

(** The counter of the shared queue is read and written in two steps. Two
    threads that push at the same time can count one element only: after both
    have returned and one element was popped, the counter is zero, the queue says
    that it is empty, and no later [pop] finds the element that is still in it. *)
Theorem lost_count_strands_element :
  ∃ σ, reachable (threads 9 4 2 race_ops, empty2) (Ret <$> [[]; []; [7]], σ)
  ∧ o_elems (s_q σ) = [(0, 8)] ∧ o_is_empty (s_q σ) = true
  ∧ ∀ fuel, o_pop (T:=Z) fuel (s_q σ) = Some (None, s_q σ).
Proof.
  destruct (observe_reachable _ _ _ _ _ race_outcome) as (σ & Hr & [= He Hn]).
  assert (o_is_empty (s_q σ) = true) as Hempty by (unfold o_is_empty; by rewrite Hn).
  exists σ. split_and!; try done. intros fuel. unfold o_pop. by rewrite Hempty.
Qed.

(** A thread pops through handle 0 while another pushes through it: the own
    queue, which is not skipped, is stolen from by its owner. *)
Definition self_ops : list (list (qop Z)) := [[OpPop 0 0]; [OpPush 0 5 50]].
Definition self_schedule : list nat := [0; 0; 0; 1; 1; 1; 1; 0; 0; 0]%nat.

Definition about_to_steal (c : option (config (S := qshared) (qact Z) (list Z)))
  : option (nat * nat * Z) :=
  match c with
  | Some (Do (AWSteal h i k) _ :: _, _) => Some (h, i, k)
  | _ => None
  end.

Example owner_steals_from_itself :
  about_to_steal (run_schedule self_schedule (threads 9 4 2 self_ops, empty2))
  = Some (0%nat, 0%nat, 5).
Proof. vm_compute. reflexivity. Qed.

(** A steal between two handles while the victim pushes. *)
Definition steal_ops : list (list (qop Z)) :=
  [[OpPush 0 1 10; OpPush 0 1 11]; [OpPop 1 0]].
Definition steal_begin : list nat := [0; 0; 0; 0; 1; 1; 1; 1; 1; 0; 0; 1]%nat.
Definition steal_end : list nat := ([1; 1; 1; 1; 1; 1; 1; 1; 1] ++ [0; 0])%nat.

Example steal_outcome :
  observe queue_seen (run_schedule (steal_begin ++ steal_end) (threads 9 4 2 steal_ops, empty2))
  = Some ([[]; [10]], ([(1, 11)], 0)).
Proof. vm_compute. reflexivity. Qed.


(** The thread whose step is the steal. *)
Definition stealing_thread (c : option (config (S := qshared) (qact Z) (list Z)))
  : option (nat * nat * Z) :=
  match c with
  | Some ([_; Do (AWSteal h i k) _], _) => Some (h, i, k)
  | _ => None
  end.

Lemma stealing_thread_inv ts σ h i k :
  stealing_thread (Some (ts, σ)) = Some (h, i, k) →
  ∃ t0 kont, ts = [t0; Do (AWSteal h i k) kont].
Proof.
  destruct ts as [|t0 [|t1 ts]]; simpl; try done.
  destruct t1 as [|a kont|]; try done; destruct a; try done; destruct ts; try done.
  intros; simplify_eq. by eexists _, _.
Qed.

Lemma steal_exclusive_witness :
  ∃ ts σ k, reachable (threads 9 4 2 steal_ops, empty2) (ts, σ)
    ∧ ts !! 1%nat = Some (Do (AWSteal 1 0 1) k)
    ∧ ∀ j a b k', ts !! j = Some (Do (AWSteal 1 a b) k') → 1%nat = j.
Proof.
  assert (stealing_thread (run_schedule steal_begin (threads 9 4 2 steal_ops, empty2))
    = Some (1%nat, 0%nat, 1)) as H by (vm_compute; reflexivity).
  destruct (run_schedule _ _) as [[ts σ]|] eqn:E; [|done].
  pose proof (run_schedule_reachable _ _ _ E) as Hr. clear E.
  apply stealing_thread_inv in H as (t0 & k & ->).
  exists [t0; Do (AWSteal 1 0 1) k], σ, k. split_and!; [exact Hr|reflexivity|].
  intros j a b k' Hj.
  exact (steal_exclusive 9 4 2 steal_ops empty2 _ σ 1 j 1 0 1 k a b k' Hr eq_refl Hj).
Defined.

Lemma methods_run_alone_witness :
  (∃ v l' q', ol_pop 1 1 l1 q0 = Some (v, l', q')
     ∧ run_alone (c_pop 9 64 2 1 1) (mkShared q0 [l0; l1])
       = Some (v, mkShared q' [l0; l']))
  ∧ (∃ l' q', ol_push_with_priority 9 4 40 l1 q0 = Some (l', q')
     ∧ run_alone (c_push 9 64 4 40 1) (mkShared q0 [l0; l1])
       = Some (tt, mkShared q' [l0; l'])).
Proof.
  apply (methods_run_alone 9 1 4 40 l1 q0 [l0; l1] 1);
    [done|apply q0_wf|vm_compute; lia|vm_compute; done|done|apply q0_idle|apply q0_retries
    |vm_compute; done|vm_compute; done| |vm_compute; done].
  split; [vm_compute; lia|]. vm_compute. repeat constructor.
Defined.
End QueueRaceExamples.
