(* ===== verification/Coroutine.v ===== *)
(** * Coroutine: states, listeners, suspension and resumption

    Models [core/src/coroutine]: the state machine of [state.rs], the listener
    broadcast of [listener.rs], the thread-local stacks of [suspender.rs] and
    of the macro [impl_current_for!], the coroutine record and
    [resume_with] of [mod.rs], and [new], [raw_resume] and [maybe_grow_with]
    of [korosensei.rs]. Coroutine objects live in a store and are named by
    handles (their addresses); the thread-local stacks, the clock and an
    extension chosen by the client complete the world. Low-level context
    switching (the [corosensei] crate) together with the user's closure is the
    parameter [inner_resume], listener objects are the parameter
    [listener_call]. *)

From stdpp Require Import sorting base numbers strings gmap list.
From S2P Require Import Prelude Common.

(** A handle names a coroutine object. *)
Abbreviation handle := nat (only parsing).

Record StackInfo : Type := mkStackInfo { stack_top : Z; stack_bottom : Z }.

(** What [corosensei::Coroutine::resume] returns: a yielded value, or the end
    of the closure with its value or the message of a caught panic or trap. *)
Inductive CoroutineResult (Y R : Type) : Type :=
| CrYield (y : Y)
| CrReturn (r : R + string).
Arguments CrYield {Y R} y.
Arguments CrReturn {Y R} r.

(** The callbacks of the trait [Listener] with their arguments. *)
Inductive event (Y R : Type) : Type :=
| on_state_changed (old_state new_state : CoroutineState Y R)
| on_ready (old_state : CoroutineState Y R)
| on_running (old_state : CoroutineState Y R)
| on_suspend (old_state : CoroutineState Y R)
| on_syscall (old_state : CoroutineState Y R)
| on_cancel (old_state : CoroutineState Y R)
| on_complete (old_state : CoroutineState Y R) (result : R)
| on_error (old_state : CoroutineState Y R) (message : string).
Arguments on_state_changed {Y R}.
Arguments on_ready {Y R}.
Arguments on_running {Y R}.
Arguments on_suspend {Y R}.
Arguments on_syscall {Y R}.
Arguments on_cancel {Y R}.
Arguments on_complete {Y R}.
Arguments on_error {Y R}.

(** The thread-local stacks: pushes and pops at the front. *)
Record Tls : Type := mkTls {
  TIMESTAMP : list Z;
  CANCEL : list bool;
  SUSPENDER : list handle;
  COROUTINE : list handle;
  STACK_INFOS : list StackInfo;
}.

Section coroutine.
Context {Param Y R I X : Type} `{!EqDecision Y, !EqDecision R}.
Abbreviation state_t := (CoroutineState Y R).

Record Coroutine : Type := mkCo {
  co_id : Z;
  co_name : string;
  co_inner : I;
  co_state : state_t;
  co_stack_infos : list StackInfo;
  co_listeners : list nat;
  co_local : gmap string Z;
  co_priority : option Z;
}.

Record World : Type := mkWorld {
  cos : gmap handle Coroutine;
  tls : Tls;
  w_tick : nat;
  ext : X;
}.

(** The results of the successive calls of [now()]. *)
Variable clock : nat → Z.
(** The listener objects: which callback does what. *)
Variable listener_call : nat → handle → event Y R → M World unit.
(** [corosensei] running the closure of the coroutine to its next suspension. *)
Variable inner_resume : handle → Param → M World (CoroutineResult Y R).

Implicit Types (h : handle) (w : World) (c : Coroutine).

Definition set_cos (f : gmap handle Coroutine → gmap handle Coroutine) w : World :=
  mkWorld (f (cos w)) (tls w) (w_tick w) (ext w).
Definition set_tls (f : Tls → Tls) w : World :=
  mkWorld (cos w) (f (tls w)) (w_tick w) (ext w).
Definition set_ext (f : X → X) w : World :=
  mkWorld (cos w) (tls w) (w_tick w) (f (ext w)).

Definition co_set_state (s : state_t) c : Coroutine :=
  mkCo (co_id c) (co_name c) (co_inner c) s (co_stack_infos c) (co_listeners c)
    (co_local c) (co_priority c).
Definition co_set_stack_infos (l : list StackInfo) c : Coroutine :=
  mkCo (co_id c) (co_name c) (co_inner c) (co_state c) l (co_listeners c)
    (co_local c) (co_priority c).
Definition co_add_listener (l : nat) c : Coroutine :=
  mkCo (co_id c) (co_name c) (co_inner c) (co_state c) (co_stack_infos c)
    (co_listeners c ++ [l]) (co_local c) (co_priority c).

(** Dereference a handle. *)
Definition with_co {A} h (k : Coroutine → M World A) : M World A := λ w,
  match cos w !! h with
  | Some c => k c w
  | None => Panic "dangling coroutine" w
  end.

Definition now_ : M World Z := λ w,
  Done (clock (w_tick w)) (mkWorld (cos w) (tls w) (S (w_tick w)) (ext w)).

(** [Coroutine::state] *)
Definition state h : M World state_t := with_co h (λ c, mret (co_state c)).

Definition set_state h (s : state_t) : M World unit :=
  modify (set_cos (alter (co_set_state s) h)).

(** ** listener.rs *)

(** [broadcast!]: every listener in turn, each behind [catch!]. *)
Fixpoint broadcast_to (ls : list nat) h (ev : event Y R) : M World unit :=
  match ls with
  | [] => mret tt
  | l :: ls => _ ← catch_unwind (listener_call l h ev); broadcast_to ls h ev
  end.

Definition broadcast h (ev : event Y R) : M World unit :=
  with_co h (λ c, broadcast_to (co_listeners c) h ev).

(** ** state.rs *)

Definition change_state h (new_state : state_t) : M World state_t :=
  old_state ← state h;
  _ ← set_state h new_state;
  _ ← broadcast h (on_state_changed old_state new_state);
  mret old_state.

(** [Err(Error::other(format!("{} unexpected {current}->..")))] *)
Definition unexpected : M World (io_result unit) := mret (IoErr (Other "unexpected state")).

(** suspend -> ready *)
Definition ready h : M World (io_result unit) :=
  current ← state h;
  match current with
  | Ready => mret (IoOk tt)
  | Suspend _ timestamp =>
      n ← now_;
      if timestamp <=? n then
        old_state ← change_state h Ready;
        _ ← broadcast h (on_ready old_state);
        mret (IoOk tt)
      else unexpected
  | _ => unexpected
  end.

(** ready -> running, syscall -> running, suspend -> running *)
Definition running h : M World (io_result unit) :=
  current ← state h;
  match current with
  | Running => mret (IoOk tt)
  | Ready | Syscall _ _ Executing =>
      old_state ← change_state h Running;
      _ ← broadcast h (on_running old_state);
      mret (IoOk tt)
  | Suspend _ timestamp =>
      n ← now_;
      if timestamp <=? n then
        old_state ← change_state h Running;
        _ ← broadcast h (on_running old_state);
        mret (IoOk tt)
      else unexpected
  | Syscall _ _ (Callback | Timeout) => mret (IoOk tt)
  | _ => unexpected
  end.

(** running -> suspend *)
Definition suspend h (val : Y) (timestamp : Z) : M World (io_result unit) :=
  current ← state h;
  if decide (current = Running) then
    old_state ← change_state h (Suspend val timestamp);
    _ ← broadcast h (on_suspend old_state);
    mret (IoOk tt)
  else unexpected.

(** running -> syscall, syscall -> syscall *)
Definition syscall h (val : Y) (name : SyscallName) (syscall_state : SyscallState)
  : M World (io_result unit) :=
  current ← state h;
  let go :=
    old_state ← change_state h (Syscall val name syscall_state);
    _ ← broadcast h (on_syscall old_state);
    mret (IoOk tt) in
  match current with
  | Running => go
  | Syscall _ original_syscall _ =>
      if decide (original_syscall = name) then go else unexpected
  | _ => unexpected
  end.

(** running -> cancel *)
Definition cancel h : M World (io_result unit) :=
  current ← state h;
  if decide (current = Running) then
    old_state ← change_state h Cancelled;
    _ ← broadcast h (on_cancel old_state);
    mret (IoOk tt)
  else unexpected.

(** running -> complete *)
Definition complete h (val : R) : M World (io_result unit) :=
  current ← state h;
  if decide (current = Running) then
    old_state ← change_state h (Complete val);
    _ ← broadcast h (on_complete old_state val);
    mret (IoOk tt)
  else unexpected.

(** running -> error *)
Definition error h (msg : string) : M World (io_result unit) :=
  current ← state h;
  if decide (current = Running) then
    old_state ← change_state h (Error msg);
    _ ← broadcast h (on_error old_state msg);
    mret (IoOk tt)
  else unexpected.

(** ** impl_current_for! and suspender.rs *)

Definition tls_push_co h (t : Tls) : Tls :=
  mkTls (TIMESTAMP t) (CANCEL t) (SUSPENDER t) (h :: COROUTINE t) (STACK_INFOS t).
Definition tls_pop_co (t : Tls) : Tls :=
  mkTls (TIMESTAMP t) (CANCEL t) (SUSPENDER t) (tail (COROUTINE t)) (STACK_INFOS t).
Definition tls_push_susp h (t : Tls) : Tls :=
  mkTls (TIMESTAMP t) (CANCEL t) (h :: SUSPENDER t) (COROUTINE t) (STACK_INFOS t).
Definition tls_pop_susp (t : Tls) : Tls :=
  mkTls (TIMESTAMP t) (CANCEL t) (tail (SUSPENDER t)) (COROUTINE t) (STACK_INFOS t).
Definition tls_set_timestamp (l : list Z) (t : Tls) : Tls :=
  mkTls l (CANCEL t) (SUSPENDER t) (COROUTINE t) (STACK_INFOS t).
Definition tls_set_cancel (l : list bool) (t : Tls) : Tls :=
  mkTls (TIMESTAMP t) l (SUSPENDER t) (COROUTINE t) (STACK_INFOS t).
Definition tls_set_stack_infos (l : list StackInfo) (t : Tls) : Tls :=
  mkTls (TIMESTAMP t) (CANCEL t) (SUSPENDER t) (COROUTINE t) l.

(** [Coroutine::init_current], [current] and [clean_current]. *)
Definition init_current h : M World unit := modify (set_tls (tls_push_co h)).
Definition current : M World (option handle) := gets (λ w, head (COROUTINE (tls w))).
Definition clean_current : M World unit := modify (set_tls tls_pop_co).

(** [Suspender::init_current] and [clean_current]. *)
Definition susp_init_current h : M World unit := modify (set_tls (tls_push_susp h)).
Definition susp_clean_current : M World unit := modify (set_tls tls_pop_susp).

(** [suspend_with]: the part before the switch and the part after it. *)
Definition suspend_enter : M World unit := susp_clean_current.
Definition suspend_leave h : M World unit := susp_init_current h.

(** [until_with], [delay_with] and [Suspender::cancel] up to the switch. *)
Definition until_enter (timestamp : Z) : M World unit :=
  _ ← modify (set_tls (λ t, tls_set_timestamp (timestamp :: TIMESTAMP t) t));
  suspend_enter.
Definition delay_enter (delay : Z) : M World unit :=
  n ← now_; until_enter (get_timeout_time n delay).
Definition cancel_enter : M World unit :=
  _ ← modify (set_tls (λ t, tls_set_cancel (true :: CANCEL t) t));
  suspend_enter.

(** [Suspender::timestamp] *)
Definition timestamp : M World Z := λ w,
  Done (default 0 (head (TIMESTAMP (tls w))))
    (set_tls (λ t, tls_set_timestamp (tail (TIMESTAMP t)) t) w).

(** [Suspender::is_cancel] *)
Definition is_cancel : M World bool := λ w,
  Done (default false (head (CANCEL (tls w))))
    (set_tls (λ t, tls_set_cancel (tail (CANCEL t)) t) w).

(** ** korosensei.rs and mod.rs: creation and resumption *)

(** [Coroutine::new] once the stack is allocated; [page] is the page size,
    [alloc] the stack allocator, [hash] the hash of the name. *)
Definition co_new (hash : string → Z) (alloc : Z → io_result StackInfo) (page : Z)
  (name : string) (f : I) (stack_size priority : option Z) : io_result Coroutine :=
  let stack_size := Z.max (default DEFAULT_STACK_SIZE stack_size) page in
  match alloc stack_size with
  | IoErr e => IoErr e
  | IoOk stack => IoOk (mkCo (hash name) name f Ready [stack] [] ∅ priority)
  end.

(** The closure handed to [corosensei]: the part before the user's function
    and the part after its return. A panic of the user's function leaves
    through [catch!] without the second part. *)
Definition body_enter h : M World unit := susp_init_current h.
Definition body_return : M World unit := susp_clean_current.

Definition raw_resume h (arg : Param) : M World (io_result state_t) :=
  r ← inner_resume h arg;
  match r with
  | CrYield y =>
      current ← state h;
      match current with
      | Running =>
          b ← is_cancel;
          if (b : bool) then
            _ <-? cancel h; mret (IoOk Cancelled)
          else
            t ← timestamp;
            _ <-? suspend h y t; mret (IoOk (Suspend y t))
      | Syscall y name st => mret (IoOk (Syscall y name st))
      | _ => mret (IoErr (Other "unexpected state"))
      end
  | CrReturn (inl returns) =>
      _ <-? complete h returns; mret (IoOk (Complete returns))
  | CrReturn (inr message) =>
      _ <-? error h message; mret (IoOk (Error message))
  end.

Definition resume_with h (arg : Param) : M World (io_result state_t) :=
  current ← state h;
  match current with
  | Complete r => mret (IoOk (Complete r))
  | Error e => mret (IoOk (Error e))
  | _ =>
      _ ← init_current h;
      _ <-? running h;
      r ← raw_resume h arg;
      _ ← clean_current;
      mret r
  end.

(** ** Stacks *)

Definition stack_ptr_in_bounds c (stack_ptr : Z) : bool :=
  existsb (λ info, (stack_bottom info <=? stack_ptr) && (stack_ptr <? stack_top info))
    (co_stack_infos c).

Definition set_stack_infos h (f : list StackInfo → list StackInfo) : M World unit :=
  modify (set_cos (alter (λ c, co_set_stack_infos (f (co_stack_infos c)) c) h)).

Definition pop_back {A} (l : list A) : list A := take (length l - 1) l.

(** [on_stack(stack, callback)] below a guard that pops the stack info when
    the callback returns or unwinds. *)
Definition on_stack_guarded {A} h (stack : StackInfo) (callback : M World A) : M World A :=
  λ w,
  match (set_stack_infos h (λ l, l ++ [stack]);; callback) w with
  | Done a w => (set_stack_infos h pop_back;; mret a) w
  | Panic msg w => (set_stack_infos h pop_back;; panic msg) w
  | NoFuel => NoFuel
  end.

(** [maybe_grow_with]; [sp] is the stack pointer, [alloc] the stack
    allocator. The subtraction of [remaining_stack] must not underflow. *)
Definition maybe_grow_with {A} (alloc : Z → io_result StackInfo) (sp : Z)
  (red_zone stack_size : Z) (callback : M World A) : M World (io_result A) :=
  co ← current;
  match co with
  | Some h =>
      with_co h (λ c,
        match last (co_stack_infos c) with
        | None => panic "called `Option::unwrap()` on a `None` value"
        | Some info =>
            if sp <? stack_bottom info then panic "attempt to subtract with overflow"
            else if red_zone <=? sp - stack_bottom info then
              a ← callback; mret (IoOk a)
            else
              match alloc stack_size with
              | IoErr e => mret (IoErr e)
              | IoOk stack => a ← on_stack_guarded h stack callback; mret (IoOk a)
              end
        end)
  | None =>
      infos ← gets (λ w, STACK_INFOS (tls w));
      let grow :=
        match alloc stack_size with
        | IoErr e => mret (IoErr e)
        | IoOk stack =>
            _ ← modify (set_tls (λ t, tls_set_stack_infos (STACK_INFOS t ++ [stack]) t));
            a ← callback;
            _ ← modify (set_tls (λ t, tls_set_stack_infos (pop_back (STACK_INFOS t)) t));
            mret (IoOk a)
        end in
      match last infos with
      | Some info =>
          if sp <? stack_bottom info then panic "attempt to subtract with overflow"
          else if red_zone <=? sp - stack_bottom info then
            a ← callback; mret (IoOk a)
          else grow
      | None => grow
      end
  end.

End coroutine.

Arguments Coroutine : clear implicits.
Arguments World : clear implicits.

(** The operations of the state machine, as data. *)
Inductive op (Y R : Type) : Type :=
| OpReady
| OpRunning
| OpSuspend (val : Y) (timestamp : Z)
| OpSyscall (val : Y) (name : SyscallName) (st : SyscallState)
| OpCancel
| OpComplete (val : R)
| OpError (msg : string).
Arguments OpReady {Y R}.
Arguments OpRunning {Y R}.
Arguments OpSuspend {Y R}.
Arguments OpSyscall {Y R}.
Arguments OpCancel {Y R}.
Arguments OpComplete {Y R}.
Arguments OpError {Y R}.

(** The documented transitions, at time [n]. *)
Inductive co_step {Y R : Type} (n : Z)
  : CoroutineState Y R → op Y R → CoroutineState Y R → Prop :=
| step_ready_again : co_step n Ready OpReady Ready
| step_due y t : t ≤ n → co_step n (Suspend y t) OpReady Ready
| step_running_again : co_step n Running OpRunning Running
| step_start : co_step n Ready OpRunning Running
| step_syscall_over y nm : co_step n (Syscall y nm Executing) OpRunning Running
| step_due_running y t : t ≤ n → co_step n (Suspend y t) OpRunning Running
| step_callback y nm :
    co_step n (Syscall y nm Callback) OpRunning (Syscall y nm Callback)
| step_timeout y nm :
    co_step n (Syscall y nm Timeout) OpRunning (Syscall y nm Timeout)
| step_suspend y t : co_step n Running (OpSuspend y t) (Suspend y t)
| step_syscall y nm st : co_step n Running (OpSyscall y nm st) (Syscall y nm st)
| step_syscall_inner y0 st0 y nm st :
    co_step n (Syscall y0 nm st0) (OpSyscall y nm st) (Syscall y nm st)
| step_cancel : co_step n Running OpCancel Cancelled
| step_complete r : co_step n Running (OpComplete r) (Complete r)
| step_error m : co_step n Running (OpError m) (Error m).

(** No transition leaves these states. *)
Definition terminal {Y R} (s : CoroutineState Y R) : bool :=
  match s with Cancelled | Complete _ | Error _ => true | _ => false end.

Section properties.
Context {Param Y R I X : Type} `{!EqDecision Y, !EqDecision R}.
Abbreviation W := (World Y R I X).
Abbreviation Co := (Coroutine Y R I).
Context (clock : nat → Z)
  (listener_call : nat → handle → event Y R → M W unit)
  (inner_resume : handle → Param → M W (CoroutineResult Y R)).
Implicit Types (h : handle) (w : W) (c : Co) (s : CoroutineState Y R).

Definition co_set_local (l : gmap string Z) c : Co :=
  mkCo (co_id c) (co_name c) (co_inner c) (co_state c) (co_stack_infos c)
    (co_listeners c) l (co_priority c).

Definition co_state_of w h : option (CoroutineState Y R) := co_state <$> cos w !! h.

(** A change that leaves every coroutine in its state and the thread-local
    stacks alone; coroutines may be added and the clock may advance. *)
Definition keeps w w' : Prop :=
  tls w' = tls w ∧ (w_tick w ≤ w_tick w')%nat
  ∧ ∀ h c, cos w !! h = Some c → ∃ l, cos w' !! h = Some (co_set_local l c).

#[global] Instance keeps_preorder : PreOrder keeps.
Proof.
  split.
  - intros w. split_and!; try done. intros h c Hc. exists (co_local c). by destruct c.
  - intros w1 w2 w3 (Ht & Hk & Hc) (Ht' & Hk' & Hc').
    split_and!; [congruence|lia|].
    intros h c (l & Hl)%Hc. apply Hc' in Hl as (l' & Hl'). exists l'. by destruct c.
Qed.

Definition tick_world w : W := mkWorld (cos w) (tls w) (S (w_tick w)) (ext w).

(** What callbacks may do besides, chosen by the client: a relation on worlds
    that is a preorder on the changes above and allows reading the clock. *)
Class Allowed (wrel : W → W → Prop) : Prop := {
  allowed_refl w : wrel w w;
  allowed_tick w : wrel w (tick_world w);
  allowed_trans w1 w2 w3 :
    keeps w1 w2 → wrel w1 w2 → keeps w2 w3 → wrel w2 w3 → wrel w1 w3;
}.

Context (wrel : W → W → Prop) `{!Allowed wrel}.

Definition frame w w' : Prop := keeps w w' ∧ wrel w w'.

#[global] Instance frame_preorder : PreOrder frame.
Proof.
  split.
  - intros w. split; [done|]. apply allowed_refl.
  - intros w1 w2 w3 [Hk Hr] [Hk' Hr']. split; [by etrans|].
    by apply (allowed_trans w1 w2 w3).
Qed.

(** Listeners return or panic, and keep to the frame. *)
Definition listeners_ok : Prop := ∀ l h ev w, ∃ w',
  frame w w'
  ∧ (listener_call l h ev w = Done tt w' ∨ ∃ msg, listener_call l h ev w = Panic msg w').

(** [h] has moved to state [s]; everything else is framed. *)
Definition moved h s w w' : Prop := frame (set_cos (alter (co_set_state s) h) w) w'.

Lemma moved_state h s w w' : is_Some (cos w !! h) → moved h s w w' → co_state_of w' h = Some s.
Proof.
  intros [c Hc] [(_ & _ & Hw) _]. unfold co_state_of.
  destruct (Hw h (co_set_state s c)) as [l ->]; [|done].
  simpl. by rewrite lookup_alter_eq, Hc.
Qed.

Lemma moved_other h h' s w w' :
  h ≠ h' → is_Some (cos w !! h') → moved h s w w' → co_state_of w' h' = co_state_of w h'.
Proof.
  intros Hne [c Hc] [(_ & _ & Hw) _]. unfold co_state_of.
  destruct (Hw h' c) as [l ->]; [|by rewrite Hc]. simpl. by rewrite lookup_alter_ne.
Qed.

Lemma frame_state w w' h : is_Some (cos w !! h) → frame w w' → co_state_of w' h = co_state_of w h.
Proof.
  intros [c Hc] [(_ & _ & Hw) _]. unfold co_state_of.
  destruct (Hw h c Hc) as [l ->]. by rewrite Hc.
Qed.

Lemma frame_dom w w' h : is_Some (cos w !! h) → frame w w' → is_Some (cos w' !! h).
Proof. intros [c Hc] [(_ & _ & Hw) _]. destruct (Hw h c Hc) as [l ->]. by eexists. Qed.

Lemma moved_dom h h' s w w' : is_Some (cos w !! h') → moved h s w w' → is_Some (cos w' !! h').
Proof.
  intros Hc Hm. eapply frame_dom; [|exact Hm]. simpl.
  destruct (decide (h = h')) as [->|Hne].
  - rewrite lookup_alter_eq. by apply fmap_is_Some.
  - by rewrite lookup_alter_ne.
Qed.

Lemma moved_frame h s w w1 w2 : moved h s w w1 → frame w1 w2 → moved h s w w2.
Proof. unfold moved. by intros ->. Qed.

Lemma moved_tls h s w w' : moved h s w w' → tls w' = tls w.
Proof. by intros [(-> & _) _]. Qed.

(** Staying in the present state is a move. *)
Lemma moved_same w h c : cos w !! h = Some c → moved h (co_state c) w w.
Proof.
  intros Hc. assert (set_cos (alter (co_set_state (co_state c)) h) w = w) as Heq.
  { destruct w. unfold set_cos. simpl in *. f_equal. apply map_eq. intros h'.
    destruct (decide (h = h')) as [<-|Hne]; [|by rewrite lookup_alter_ne].
    rewrite lookup_alter_eq, Hc. simpl. by destruct c. }
  unfold moved. rewrite Heq. reflexivity.
Qed.

Lemma tick_frame w : frame w (tick_world w).
Proof.
  split; [|apply allowed_tick]. split_and!; simpl; try done; [lia|].
  intros h c Hc. exists (co_local c). by destruct c.
Qed.

(** One operation on one coroutine. *)
Definition run_op h (o : op Y R) : M W (io_result unit) :=
  match o with
  | OpReady => ready clock listener_call h
  | OpRunning => running clock listener_call h
  | OpSuspend val t => suspend listener_call h val t
  | OpSyscall val nm st => syscall listener_call h val nm st
  | OpCancel => cancel listener_call h
  | OpComplete val => complete listener_call h val
  | OpError msg => error listener_call h msg
  end.

(** A sequence of operations on any coroutines, whatever each returns. *)
Fixpoint run_ops (os : list (handle * op Y R)) : M W unit :=
  match os with
  | [] => mret tt
  | (h, o) :: os => _ ← run_op h o; run_ops os
  end.

Section with_listeners.
Context (lok : listeners_ok).

Lemma broadcast_to_spec ls h ev w :
  ∃ w', broadcast_to listener_call ls h ev w = Done tt w' ∧ frame w w'.
Proof.
  revert w. induction ls as [|l ls IH]; intros w; simpl; [by exists w|].
  destruct (lok l h ev w) as (w1 & Hf & Hc). destruct (IH w1) as (w2 & Hb & Hf2).
  exists w2. split; [|by etrans]. unfold mbind, M_bind, catch_unwind.
  by destruct Hc as [->|[msg ->]].
Qed.

Lemma broadcast_spec h ev w :
  is_Some (cos w !! h) → ∃ w', broadcast listener_call h ev w = Done tt w' ∧ frame w w'.
Proof. intros [c Hc]. unfold broadcast, with_co. rewrite Hc. apply broadcast_to_spec. Qed.

Lemma change_state_spec h s w c :
  cos w !! h = Some c →
  ∃ w', change_state listener_call h s w = Done (co_state c) w' ∧ moved h s w w'.
Proof.
  intros Hc. unfold change_state, state, set_state, with_co.
  munfold. rewrite Hc.
  destruct (broadcast_spec h (on_state_changed (co_state c) s)
    (set_cos (alter (co_set_state s) h) w)) as (w' & -> & Hf).
  { simpl. rewrite lookup_alter_eq, Hc. by eexists. }
  by exists w'.
Qed.

(** A state change followed by its own callback. *)
Lemma transition_spec h s (ev : CoroutineState Y R → event Y R) w c :
  cos w !! h = Some c →
  ∃ w', (old_state ← change_state listener_call h s;
         _ ← broadcast listener_call h (ev old_state); mret (IoOk tt)) w = Done (IoOk tt) w'
    ∧ moved h s w w'.
Proof.
  intros Hc. destruct (change_state_spec h s w c Hc) as (w1 & Hs & Hm).
  destruct (broadcast_spec h (ev (co_state c)) w1) as (w2 & Hb & Hf).
  { eapply moved_dom; [|done]. by eexists. }
  exists w2. split; [|by eapply moved_frame]. munfold. by rewrite Hs, Hb.
Qed.

(** What an operation may end in, for the state it starts from. *)
Definition op_post h (o : op Y R) w c (r : io_result unit) w' : Prop :=
  match r with
  | IoOk _ => ∃ s, co_step (clock (w_tick w)) (co_state c) o s ∧ moved h s w w'
  | IoErr _ => frame w w' ∧ ∀ s, ¬ co_step (clock (w_tick w)) (co_state c) o s
  end.

Lemma post_same h o w c :
  cos w !! h = Some c → co_step (clock (w_tick w)) (co_state c) o (co_state c) →
  op_post h o w c (IoOk tt) w.
Proof. intros Hc Hs. exists (co_state c). split; [done|]. by apply moved_same. Qed.

Lemma post_unexpected h o w c :
  (∀ s, ¬ co_step (clock (w_tick w)) (co_state c) o s) →
  op_post h o w c (IoErr (Other "unexpected state")) w.
Proof. by split. Qed.

Lemma post_transition h o s (ev : CoroutineState Y R → event Y R) w w1 c :
  cos w !! h = Some c → co_step (clock (w_tick w)) (co_state c) o s →
  w1 = w ∨ w1 = tick_world w →
  ∃ r w', (old_state ← change_state listener_call h s;
           _ ← broadcast listener_call h (ev old_state); mret (IoOk tt)) w1 = Done r w'
    ∧ op_post h o w c r w'.
Proof.
  intros Hc Hs Hw. assert (cos w1 !! h = Some c) as Hc1 by by destruct Hw as [->| ->].
  destruct (transition_spec h s ev w1 c Hc1) as (w' & Ht & Hm).
  exists (IoOk tt), w'. split; [done|]. exists s. split; [done|].
  unfold moved in *. etrans; [|exact Hm].
  destruct Hw as [->| ->]; [done|]. exact (tick_frame (set_cos (alter (co_set_state s) h) w)).
Qed.

(** Solve one branch of an operation: it stays, fails or makes a transition. *)
Ltac branch E Hc ev :=
  first
  [ eexists _, _; split; [reflexivity|]; apply post_same; [exact Hc|rewrite E; by constructor]
  | eexists _, _; split; [reflexivity|]; apply post_unexpected; rewrite E;
    by intros ? Hs; inversion Hs
  | apply (post_transition _ _ _ ev); [exact Hc|rewrite E; by constructor|by left] ].

(** A guard on the clock in front of a transition. *)
Lemma post_due h o s (ev : CoroutineState Y R → event Y R) w c y t :
  cos w !! h = Some c → co_state c = Suspend y t →
  (∀ s', co_step (clock (w_tick w)) (Suspend y t) o s' ↔ t ≤ clock (w_tick w) ∧ s' = s) →
  ∃ r w', (n ← now_ clock;
           if t <=? n then
             old_state ← change_state listener_call h s;
             _ ← broadcast listener_call h (ev old_state); mret (IoOk tt)
           else unexpected) w = Done r w' ∧ op_post h o w c r w'.
Proof.
  intros Hc E Ho. erewrite bind_done by reflexivity. pose proof (tick_frame w).
  destruct (t <=? clock (w_tick w)) eqn:Et; breflect.
  - apply post_transition; [done|rewrite E; by apply Ho|by right].
  - eexists _, _. split; [reflexivity|]. split; [done|]. rewrite E.
    intros s' [? _]%Ho. lia.
Qed.

Lemma run_op_spec h o w c :
  cos w !! h = Some c → ∃ r w', run_op h o w = Done r w' ∧ op_post h o w c r w'.
Proof.
  intros Hc. destruct o; simpl;
    unfold ready, running, suspend, syscall, cancel, complete, error;
    (rewrite (bind_done _ _ _ (co_state c) w); [|unfold state, with_co; by rewrite Hc]);
    destruct (co_state c) as [| |y t|y nm' st'| |r|m] eqn:E; simpl;
    try branch E Hc (@on_ready Y R); try branch E Hc (@on_running Y R);
    try branch E Hc (@on_suspend Y R); try branch E Hc (@on_syscall Y R);
    try branch E Hc (@on_cancel Y R).
  - apply (post_due _ _ _ on_ready _ _ y); try done.
    split; [by inversion 1|intros [? ->]; by constructor].
  - apply (post_due _ _ _ on_running _ _ y); try done.
    split; [by inversion 1|intros [? ->]; by constructor].
  - destruct st'; branch E Hc (@on_running Y R).
  - destruct (decide (nm' = name)) as [->|Hne]; branch E Hc (@on_syscall Y R).
  - branch E Hc (λ o : CoroutineState Y R, on_complete o val).
  - branch E Hc (λ o : CoroutineState Y R, on_error o msg).
Qed.

Lemma run_op_dom h h' o w r w' :
  is_Some (cos w !! h) → is_Some (cos w !! h') → run_op h o w = Done r w' →
  is_Some (cos w' !! h').
Proof.
  intros [c Hc] Hh' Hr. destruct (run_op_spec h o w c Hc) as (r' & w1 & Hr' & Hp).
  rewrite Hr in Hr'. injection Hr' as <- <-. destruct r.
  - destruct Hp as (s & _ & Hm). by eapply moved_dom.
  - destruct Hp as [Hf _]. by eapply frame_dom.
Qed.

Lemma terminal_no_step n s o s' : terminal s = true → ¬ @co_step Y R n s o s'.
Proof. destruct s; simpl; intros ? Hs; by inversion Hs. Qed.

(** No operation on any coroutine moves a finished one. *)
Lemma run_op_terminal h h' o w r w' s :
  is_Some (cos w !! h) → co_state_of w h' = Some s → terminal s = true →
  run_op h o w = Done r w' → co_state_of w' h' = Some s.
Proof.
  intros [c Hc] Hs Ht Hr. destruct (run_op_spec h o w c Hc) as (r' & w1 & Hr' & Hp).
  assert (is_Some (cos w !! h')) as Hd.
  { unfold co_state_of in Hs. by destruct (cos w !! h'). }
  rewrite Hr in Hr'. injection Hr' as <- <-. destruct r.
  - destruct Hp as (s' & Hstep & Hm). destruct (decide (h = h')) as [->|Hne].
    + unfold co_state_of in Hs. rewrite Hc in Hs. simplify_eq/=.
      by apply terminal_no_step in Hstep.
    + by rewrite (moved_other h h' s' w w').
  - by rewrite (frame_state w w' h') by (done || apply Hp).
Qed.

(** C2. Every state operation of a coroutine returns and follows the documented
    state machine, exactly: it succeeds when the machine has a transition for it
    and then the coroutine is in the state the machine names; otherwise it
    reports an error and the coroutine keeps its state. Other coroutines and
    the thread-local stacks are left alone, whatever the listeners do within
    their frame, panics included. *)
Theorem run_op_refines h o w c :
  cos w !! h = Some c →
  ∃ r w', run_op h o w = Done r w' ∧ tls w' = tls w
    ∧ (∀ h', h' ≠ h → is_Some (cos w !! h') → co_state_of w' h' = co_state_of w h')
    ∧ match r with
      | IoOk _ => ∃ s, co_step (clock (w_tick w)) (co_state c) o s ∧ co_state_of w' h = Some s
      | IoErr _ => co_state_of w' h = Some (co_state c)
                   ∧ ∀ s, ¬ co_step (clock (w_tick w)) (co_state c) o s
      end.
Proof.
  intros Hc. destruct (run_op_spec h o w c Hc) as (r & w' & Hr & Hp).
  assert (is_Some (cos w !! h)) as Hd by by eexists.
  exists r, w'. split; [done|]. destruct r as [[]|e].
  - destruct Hp as (s & Hs & Hm). split_and!.
    + by eapply moved_tls.
    + intros h' Hne Hh'. by eapply moved_other.
    + exists s. split; [done|]. by apply (moved_state h s w).
  - destruct Hp as (Hf & Hn). split_and!; [apply Hf| | |done].
    + intros h' _ Hh'. by apply frame_state.
    + rewrite (frame_state w w' h Hd Hf). unfold co_state_of. by rewrite Hc.
Qed.

(** C34. A finished coroutine stays as it is: after any sequence of state
    operations on any coroutines, each of which may fail or succeed, a
    coroutine that was complete, failed or cancelled still is, with the same
    result or message, and the sequence itself runs to its end. *)
Theorem terminal_absorbing os w h s :
  co_state_of w h = Some s → terminal s = true →
  Forall (λ o, is_Some (cos w !! o.1)) os →
  ∃ w', run_ops os w = Done tt w' ∧ co_state_of w' h = Some s.
Proof.
  revert w. induction os as [|[h' o] os IH]; intros w Hs Ht Hd; simpl; [by exists w|].
  apply Forall_cons in Hd as [[c Hc] Hd]. simpl in Hc.
  destruct (run_op_spec h' o w c Hc) as (r & w1 & Hr & _).
  erewrite bind_done by exact Hr. apply IH; [|done|].
  - by eapply (run_op_terminal h' h).
  - eapply Forall_impl; [exact Hd|]. intros [h2 o2] H2. simpl in *.
    by eapply (run_op_dom h' h2).
Qed.

(** *** Resuming *)

Lemma run_op_done_dom h o w r w' : run_op h o w = Done r w' → is_Some (cos w !! h).
Proof.
  destruct (cos w !! h) as [c|] eqn:E; [by eexists|].
  destruct o; simpl; unfold ready, running, suspend, syscall, cancel, complete, error,
    mbind, M_bind, state, with_co; by rewrite E.
Qed.

Lemma run_op_done h o w r w' :
  run_op h o w = Done r w' → ∃ c, cos w !! h = Some c ∧ op_post h o w c r w'.
Proof.
  intros Hr. destruct (run_op_done_dom _ _ _ _ _ Hr) as [c Hc]. exists c. split; [done|].
  destruct (run_op_spec h o w c Hc) as (r' & w1 & Hr' & Hp).
  rewrite Hr in Hr'. by injection Hr' as <- <-.
Qed.

(** The state an operation that succeeded leaves behind. *)
Lemma run_op_ok h o w u w' :
  run_op h o w = Done (IoOk u) w' →
  ∃ c s, cos w !! h = Some c ∧ co_step (clock (w_tick w)) (co_state c) o s
    ∧ co_state_of w' h = Some s ∧ tls w' = tls w.
Proof.
  intros (c & Hc & s & Hs & Hm)%run_op_done. exists c, s. split_and!; try done.
  - eapply moved_state; [|done]. by eexists.
  - by eapply moved_tls.
Qed.

Lemma run_op_err h o w e w' :
  run_op h o w = Done (IoErr e) w' → tls w' = tls w.
Proof. by intros (c & _ & [(Ht & _) _] & _)%run_op_done. Qed.

Lemma run_op_tls h o w r w' : run_op h o w = Done r w' → tls w' = tls w.
Proof.
  destruct r; intros Hr; [by apply run_op_ok in Hr as (_ & _ & _ & _ & _ & ?)|].
  by eapply run_op_err.
Qed.

Lemma try_done_inv {S A B} (m : M S (io_result A)) (k : A → M S (io_result B)) st r st' :
  try_ m k st = Done r st' →
  ∃ q st1, m st = Done q st1
    ∧ match q with IoOk a => k a st1 = Done r st' | IoErr e => r = IoErr e ∧ st' = st1 end.
Proof.
  intros (q & st1 & Hm & Hk)%bind_done_inv. exists q, st1. split; [done|].
  destruct q; [done|]. by injection Hk as <- <-.
Qed.

Abbreviation raw_resume' := (raw_resume listener_call inner_resume).
Abbreviation resume_with' := (resume_with clock listener_call inner_resume).

(** An operation at the end of [raw_resume], then the value it returns. *)
Lemma finish_op h o s w s' w' :
  (∀ n s0 s1, @co_step Y R n s0 o s1 → s1 = s) →
  try_ (run_op h o) (λ _, mret (IoOk s)) w = Done (IoOk s') w' →
  s' = s ∧ co_state_of w' h = Some s.
Proof.
  intros Ho (q & w1 & Hop & Hk)%try_done_inv. destruct q as [u|e]; [|by destruct Hk].
  injection Hk as <- <-. apply run_op_ok in Hop as (c & s1 & _ & Hs & Hst & _).
  apply Ho in Hs as ->. done.
Qed.

Lemma raw_resume_ok h arg w s w' :
  raw_resume' h arg w = Done (IoOk s) w' → co_state_of w' h = Some s.
Proof.
  unfold raw_resume. intros (r & w1 & _ & Hk)%bind_done_inv.
  destruct r as [y|[returns|message]].
  - apply bind_done_inv in Hk as (cur & w2 & Hcur & Hk).
    unfold state, with_co in Hcur. destruct (cos w1 !! h) as [c|] eqn:Hc; [|done].
    injection Hcur as <- <-. destruct (co_state c) eqn:E; try done.
    + apply bind_done_inv in Hk as (b & w3 & _ & Hk). destruct b.
      * apply (finish_op h OpCancel) in Hk as [-> ?]; [done|]. by inversion 1.
      * apply bind_done_inv in Hk as (t & w4 & _ & Hk).
        apply (finish_op h (OpSuspend y t)) in Hk as [-> ?]; [done|]. by inversion 1.
    + injection Hk as <- <-. unfold co_state_of. rewrite Hc. simpl. by rewrite E.
  - apply (finish_op h (OpComplete returns)) in Hk as [-> ?]; [done|]. by inversion 1.
  - apply (finish_op h (OpError message)) in Hk as [-> ?]; [done|]. by inversion 1.
Qed.

(** The state [resume_with] reports is the state the coroutine is in: for
    every coroutine body, a resumption that returns [Ok(s)] leaves the
    coroutine in state [s]. *)
Theorem resume_reports_state h arg w s w' :
  resume_with' h arg w = Done (IoOk s) w' → co_state_of w' h = Some s.
Proof.
  unfold resume_with. intros (cur & w1 & Hcur & Hk)%bind_done_inv.
  unfold state, with_co in Hcur. destruct (cos w !! h) as [c|] eqn:Hc; [|done].
  injection Hcur as <- <-.
  assert (
    (_ ← init_current h; _ <-? running clock listener_call h;
     r ← raw_resume' h arg; _ ← clean_current; mret r) w = Done (IoOk s) w' →
    co_state_of w' h = Some s) as Hrun.
  { intros (u & w2 & _ & H2)%bind_done_inv.
    apply try_done_inv in H2 as (q & w3 & _ & H3). destruct q; [|by destruct H3].
    apply bind_done_inv in H3 as (r & w4 & H4 & H5).
    apply bind_done_inv in H5 as (u' & w5 & H5 & H6). injection H6 as -> ->.
    apply raw_resume_ok in H4. injection H5 as <- <-. exact H4. }
  destruct (co_state c) eqn:E; try exact (Hrun Hk).
  all: injection Hk as <- <-; unfold co_state_of; rewrite Hc; simpl; by rewrite E.
Qed.

(** The states from which a resumption goes through, at time [n]. *)
Definition accepts_resume (n : Z) s : bool :=
  match s with
  | Complete _ | Error _ | Ready | Running => true
  | Suspend _ t => t <=? n
  | Syscall _ _ (Executing | Callback | Timeout) => true
  | Syscall _ _ (SSuspend _) | Cancelled => false
  end.

Lemma accepts_running n s :
  accepts_resume n s = true → (∀ r, s ≠ Complete r) → (∀ m, s ≠ Error m) →
  ∃ s', @co_step Y R n s OpRunning s'.
Proof.
  destruct s as [| |y t|y nm []| |r|m]; simpl; intros Ha Hr Hm; breflect; try done;
    first [eexists; by constructor|by destruct (Hr r)|by destruct (Hm m)].
Qed.

Lemma rejects_running n s s' : accepts_resume n s = false → ¬ @co_step Y R n s OpRunning s'.
Proof. intros Ha Hs. inversion Hs; subst; simpl in Ha; breflect; try done; lia. Qed.

Lemma raw_resume_tls h arg w r w' :
  (∀ w r w', inner_resume h arg w = Done r w' → COROUTINE (tls w') = COROUTINE (tls w)) →
  raw_resume' h arg w = Done r w' → COROUTINE (tls w') = COROUTINE (tls w).
Proof.
  intros Hin. unfold raw_resume. intros (q & w1 & Hi & Hk)%bind_done_inv.
  apply Hin in Hi as <-.
  assert (∀ o s wa, try_ (run_op h o) (λ _, mret (IoOk s)) wa = Done r w' →
    tls w' = tls wa) as Hop.
  { intros o s wa (q' & w2 & Hr & Hk')%try_done_inv. apply run_op_tls in Hr as <-.
    destruct q'; [by injection Hk' as <- <-|by destruct Hk' as [_ ->]]. }
  destruct q as [y|[returns|message]].
  - apply bind_done_inv in Hk as (cur & w2 & Hcur & Hk).
    unfold state, with_co in Hcur. destruct (cos w1 !! h) as [c|]; [|done].
    injection Hcur as <- <-. destruct (co_state c); try by injection Hk as <- <-.
    apply bind_done_inv in Hk as (b & w3 & Hb & Hk). injection Hb as <- <-.
    destruct (default false _).
    + by apply (Hop OpCancel) in Hk as ->.
    + apply bind_done_inv in Hk as (t & w4 & Ht & Hk). injection Ht as <- <-.
      by apply (Hop (OpSuspend y _)) in Hk as ->.
  - by apply (Hop (OpComplete returns)) in Hk as ->.
  - by apply (Hop (OpError message)) in Hk as ->.
Qed.

(** The stack of current coroutines: a resumption that is accepted leaves it
    as it found it (for bodies that do); one that is rejected, because the
    coroutine is cancelled, sleeping or waiting in a system call, returns an
    error and leaves the coroutine on the stack as the current one. *)
Theorem resume_current_stack h arg w c r w' :
  (∀ w r w', inner_resume h arg w = Done r w' → COROUTINE (tls w') = COROUTINE (tls w)) →
  cos w !! h = Some c → resume_with' h arg w = Done r w' →
  COROUTINE (tls w')
    = (if accepts_resume (clock (w_tick w)) (co_state c) then [] else [h])
      ++ COROUTINE (tls w)
  ∧ (accepts_resume (clock (w_tick w)) (co_state c) = false → is_err r = true).
Proof.
  intros Hin Hc. unfold resume_with. intros (cur & w1 & Hcur & Hk)%bind_done_inv.
  unfold state, with_co in Hcur. rewrite Hc in Hcur. injection Hcur as <- <-.
  assert ((∃ r, co_state c = Complete r) ∨ (∃ m, co_state c = Error m)
    ∨ (∀ r, co_state c ≠ Complete r) ∧ (∀ m, co_state c ≠ Error m)
      ∧ (_ ← init_current h; _ <-? running clock listener_call h;
         r ← raw_resume' h arg; _ ← clean_current; mret r) w = Done r w')
    as [[v E]|[[m E]|(Hnc & Hne & Hgo)]].
  { destruct (co_state c); eauto 6; right; right; split_and!; try done. }
  1-2: rewrite E in *; by injection Hk as <- <-.
  clear Hk. apply bind_done_inv in Hgo as (u & w2 & Hi & Hgo). injection Hi as <- <-.
  apply try_done_inv in Hgo as (q & w3 & Hrun & Hgo).
  apply (run_op_done h OpRunning) in Hrun as (c' & Hc' & Hp). simpl in Hc'.
  rewrite Hc in Hc'. injection Hc' as <-. simpl in Hp.
  destruct q as [[]|e].
  - destruct Hp as (s & Hs & Hm). apply moved_tls in Hm. simpl in Hs.
    destruct (accepts_resume _ _) eqn:Ea; [|by apply rejects_running with (s' := s) in Ea].
    apply bind_done_inv in Hgo as (r' & w4 & Hraw & Hgo).
    apply bind_done_inv in Hgo as (u' & w5 & Hcl & Hgo). injection Hgo as <- <-.
    injection Hcl as <- <-. split; [|done]. simpl.
    apply raw_resume_tls in Hraw; [|done]. rewrite Hraw, Hm. done.
  - destruct Hgo as [-> ->]. destruct Hp as [[(Ht & _) _] Hn]. rewrite Ht.
    destruct (accepts_resume _ _) eqn:Ea; [|done]. exfalso.
    destruct (accepts_running _ _ Ea Hnc Hne) as [s Hs]. by apply (Hn s).
Qed.

Lemma raw_resume_in_syscall h arg w y w1 y' nm st :
  inner_resume h arg w = Done (CrYield y) w1 →
  co_state_of w1 h = Some (Syscall y' nm st) →
  raw_resume' h arg w = Done (IoOk (Syscall y' nm st)) w1.
Proof.
  intros Hi Hs. unfold raw_resume. erewrite bind_done by exact Hi.
  unfold mbind, M_bind, state, with_co, co_state_of in *.
  destruct (cos w1 !! h) as [c|]; [|done]. injection Hs as Hs. simpl. by rewrite Hs.
Qed.

Lemma raw_resume_suspends h arg w y w1 :
  inner_resume h arg w = Done (CrYield y) w1 →
  co_state_of w1 h = Some Running → head (CANCEL (tls w1)) ≠ Some true →
  ∃ w2, raw_resume' h arg w
      = Done (IoOk (Suspend y (default 0 (head (TIMESTAMP (tls w1)))))) w2
    ∧ co_state_of w2 h = Some (Suspend y (default 0 (head (TIMESTAMP (tls w1)))))
    ∧ TIMESTAMP (tls w2) = tail (TIMESTAMP (tls w1)).
Proof.
  intros Hi Hs Hcan. unfold raw_resume. erewrite bind_done by exact Hi.
  unfold co_state_of in Hs. destruct (cos w1 !! h) as [c|] eqn:Hc; [|done].
  injection Hs as Hs.
  erewrite bind_done by (unfold state, with_co; by rewrite Hc). rewrite Hs.
  erewrite bind_done by reflexivity.
  assert (default false (head (CANCEL (tls w1))) = false) as ->.
  { by destruct (head (CANCEL (tls w1))) as [[]|]. }
  erewrite bind_done by reflexivity. simpl.
  set (t := default 0 (head (TIMESTAMP (tls w1)))). set (w2 := set_tls _ _).
  destruct (run_op_spec h (OpSuspend y t) w2 c) as (r & w3 & Hr & Hp); [done|].
  destruct r as [[]|e].
  - destruct Hp as (s & Hstep & Hm). inversion Hstep; subst s.
    exists w3. split_and!.
    + unfold try_. erewrite bind_done by exact Hr. done.
    + eapply moved_state; [|exact Hm]. by eexists.
    + apply moved_tls in Hm. by rewrite Hm.
  - destruct Hp as [_ Hn]. destruct (Hn (Suspend y t)). rewrite Hs. constructor.
Qed.

(** A deadline leaks from a wait inside a system call to the next plain
    suspension: [until] pushes its timestamp, but a coroutine that yields in a
    system-call state does not pop it, so when the coroutine later suspends
    without any deadline (its body pushed none and popped none in between) it is
    put to sleep until the old timestamp. *)
Theorem stale_timestamp_reused h a1 w1 y1 w2 y nm st t ts a2 w3 y2 w4 :
  inner_resume h a1 w1 = Done (CrYield y1) w2 →
  co_state_of w2 h = Some (Syscall y nm st) → TIMESTAMP (tls w2) = t :: ts →
  inner_resume h a2 w3 = Done (CrYield y2) w4 →
  co_state_of w4 h = Some Running → CANCEL (tls w4) = [] →
  TIMESTAMP (tls w4) = TIMESTAMP (tls w2) →
  raw_resume' h a1 w1 = Done (IoOk (Syscall y nm st)) w2
  ∧ ∃ w5, raw_resume' h a2 w3 = Done (IoOk (Suspend y2 t)) w5
      ∧ co_state_of w5 h = Some (Suspend y2 t).
Proof.
  intros H1 Hs1 Ht H2 Hs2 Hcan Ht2. split; [by eapply raw_resume_in_syscall|].
  destruct (raw_resume_suspends h a2 w3 y2 w4 H2 Hs2) as (w5 & Hr & Hs & _).
  { by rewrite Hcan. }
  rewrite Ht2, Ht in Hr, Hs. by exists w5.
Qed.
End with_listeners.

(** *** Growing the stack *)

Definition infos_of w h : option (list StackInfo) := co_stack_infos <$> cos w !! h.

Lemma pop_back_app {A} (l : list A) x : pop_back (l ++ [x]) = l.
Proof.
  unfold pop_back. rewrite length_app. simpl.
  replace (length l + 1 - 1)%nat with (length l) by lia. apply take_app_length.
Qed.

Lemma set_infos_of h f w u w' :
  set_stack_infos h f w = Done u w' → infos_of w' h = f <$> infos_of w h.
Proof.
  intros [= <- <-]. unfold infos_of. simpl. rewrite lookup_alter_eq.
  by destruct (cos w !! h).
Qed.

(** The world in which a computation ended, by return or by panic. *)
Definition ends {A} (m : M W A) w w' : Prop :=
  (∃ a, m w = Done a w') ∨ ∃ msg, m w = Panic msg w'.

Lemma on_stack_guarded_ends {A} h stack (callback : M W A) w w' :
  (∀ w w', ends callback w w' → infos_of w' h = infos_of w h) →
  ends (on_stack_guarded h stack callback) w w' → infos_of w' h = infos_of w h.
Proof.
  intros Hcb. unfold on_stack_guarded, ends. erewrite bind_done by reflexivity.
  set (w1 := set_cos (alter (λ c, co_set_stack_infos (co_stack_infos c ++ [stack]) c) h) w).
  assert (infos_of w1 h = (λ l, l ++ [stack]) <$> infos_of w h) as H1.
  { by eapply (set_infos_of h (λ l, l ++ [stack]) w tt). }
  assert (∀ w2, infos_of w2 h = infos_of w1 h →
    pop_back <$> infos_of w2 h = infos_of w h) as Hpop.
  { intros w2 ->. rewrite H1. destruct (infos_of w h); simpl; [|done]. by rewrite pop_back_app. }
  intros [(a & Ha)|(msg & Ha)]; destruct (callback w1) as [b w2|m w2|] eqn:Ecb; try done;
    injection Ha as <- <-.
  - rewrite <-(Hpop w2) by (apply Hcb; left; by eexists). unfold infos_of. simpl.
    rewrite lookup_alter_eq. by destruct (cos w2 !! h).
  - rewrite <-(Hpop w2) by (apply Hcb; right; by eexists). unfold infos_of. simpl.
    rewrite lookup_alter_eq. by destruct (cos w2 !! h).
Qed.

Lemma bind_ok_ends {A} (m : M W A) w w' :
  ends (a ← m; mret (IoOk a)) w w' → ends m w w'.
Proof.
  intros [(a & H)|(msg & H)]; unfold mbind, M_bind in H;
    destruct (m w) as [b w1|msg' w1|] eqn:E; try done; injection H as <- <-.
  - left. by eexists.
  - right. by eexists.
Qed.

(** Inside a coroutine [maybe_grow_with] is balanced: however the callback
    ends, by returning or by unwinding, and whether or not a new stack was
    used, the coroutine's record of its stacks is afterwards what it was. *)
Theorem maybe_grow_balanced {A} alloc sp red_zone stack_size (callback : M W A) h w w' :
  head (COROUTINE (tls w)) = Some h →
  (∀ w w', ends callback w w' → infos_of w' h = infos_of w h) →
  ends (maybe_grow_with alloc sp red_zone stack_size callback) w w' →
  infos_of w' h = infos_of w h.
Proof.
  intros Hcur Hcb. unfold maybe_grow_with, current, ends.
  erewrite bind_done by reflexivity. rewrite Hcur. unfold with_co.
  destruct (cos w !! h) as [c|]; [|intros [(a & Ha)|(msg & Ha)]; [done|by injection Ha as <- <-]].
  destruct (last (co_stack_infos c)) as [info|];
    [|intros [(a & Ha)|(msg & Ha)]; [done|by injection Ha as <- <-]].
  destruct (sp <? stack_bottom info);
    [intros [(a & Ha)|(msg & Ha)]; [done|by injection Ha as <- <-]|].
  destruct (red_zone <=? sp - stack_bottom info).
  { intros He. apply Hcb. by apply bind_ok_ends. }
  destruct (alloc stack_size) as [stack|e].
  - intros He. eapply on_stack_guarded_ends; [done|]. by apply bind_ok_ends.
  - intros [(a & Ha)|(msg & Ha)]; [by injection Ha as <- <-|done].
Qed.
End properties.

(** ** A scripted coroutine body, for concrete runs *)

Module CoroutineExamples.
(** The calls a body makes, in order. *)
Inductive act : Type :=
| ASuspend
| AUntil (timestamp : Z)
| ACancel
| AState (o : op unit (option Z))
| APanic (msg : string)
| AReturn (r : option Z).

(** A body that is yet to start, or is suspended inside [suspend_with]. *)
Record script : Type := mkScript { started : bool; rest : list act }.

Abbreviation W := (World unit (option Z) script unit).

Definition clock (k : nat) : Z := 1000 + Z.of_nat k.
Definition listener_call (l : nat) (h : handle) (ev : event unit (option Z)) : M W unit :=
  if Nat.eqb l 7 then panic "listener" else mret tt.

Definition save (h : handle) (k : list act) : M W unit :=
  modify (set_cos (alter (λ c, mkCo (co_id c) (co_name c) (mkScript true k) (co_state c)
    (co_stack_infos c) (co_listeners c) (co_local c) (co_priority c)) h)).

Fixpoint play (h : handle) (acts : list act) : M W (CoroutineResult unit (option Z)) :=
  match acts with
  | [] => _ ← body_return; mret (CrReturn (inl None))
  | ASuspend :: k => _ ← save h k; _ ← suspend_enter; mret (CrYield tt)
  | AUntil t :: k => _ ← save h k; _ ← until_enter t; mret (CrYield tt)
  | ACancel :: k => _ ← save h k; _ ← cancel_enter; mret (CrYield tt)
  | AState o :: k => _ ← run_op clock listener_call h o; play h k
  | APanic msg :: _ => mret (CrReturn (inr msg))
  | AReturn r :: _ => _ ← body_return; mret (CrReturn (inl r))
  end.

Definition inner_resume (h : handle) (_ : unit) : M W (CoroutineResult unit (option Z)) :=
  with_co h (λ c,
    _ ← (if started (co_inner c) then suspend_leave h else body_enter h);
    play h (rest (co_inner c))).

Definition resume (h : handle) := resume_with clock listener_call inner_resume h tt.

Definition co (acts : list act) : Coroutine unit (option Z) script :=
  mkCo 42 "co" (mkScript false acts) Ready [mkStackInfo 5000 1000] [7%nat; 8%nat] ∅ None.
Definition world (c : Coroutine unit (option Z) script) : W :=
  mkWorld {[ 0%nat := c ]} (mkTls [] [] [] [] []) 0 tt.

(** The state of coroutine 0 and the thread-local stacks after a run. *)
Definition observe {A} (r : outcome W A)
  : option (A * option (CoroutineState unit (option Z)) * Tls) :=
  match r with
  | Done a w => Some (a, co_state_of w 0, tls w)
  | _ => None
  end.

(** A generator: two suspensions, then a result. *)
Example generator_run :
  observe ((resume 0;; resume 0;; resume 0) (world (co [ASuspend; AUntil 7; AReturn (Some 3)])))
  = Some (IoOk (Complete (Some 3)), Some (Complete (Some 3)), mkTls [] [] [] [] []).
Proof. vm_compute. reflexivity. Qed.

(** A panic of the body becomes the state [Error]; the suspender stays on its
    stack. *)
Example panicking_body :
  observe (resume 0 (world (co [APanic "boom"])))
  = Some (IoOk (Error "boom"), Some (Error "boom"), mkTls [] [] [0%nat] [] []).
Proof. vm_compute. reflexivity. Qed.

(** A cancelled coroutine cannot be resumed. *)
Example cancelled_body :
  observe ((resume 0;; resume 0) (world (co [ACancel])))
  = Some (IoErr (Other "unexpected state"), Some Cancelled, mkTls [] [] [] [0%nat] []).
Proof. vm_compute. reflexivity. Qed.

(** The listeners of the examples leave the rest of the world alone. *)
Definition same_ext (w w' : W) : Prop := ext w' = ext w.

#[export] Instance same_ext_allowed : Allowed same_ext.
Proof. split; unfold same_ext; try done. intros; congruence. Qed.

Lemma listeners_fine : listeners_ok listener_call same_ext.
Proof.
  intros l h ev w. exists w. split; [reflexivity|]. unfold listener_call.
  destruct (Nat.eqb l 7); [right; by eexists|by left].
Qed.

Lemma run_op_refines_witness :
  ∃ r w', run_op clock listener_call 0 OpRunning (world (co [])) = Done r w'
    ∧ co_state_of w' 0 = Some Running.
Proof.
  destruct (run_op_refines clock listener_call same_ext listeners_fine 0 OpRunning
    (world (co [])) (co []) eq_refl) as (r & w' & Hr & _ & _ & Hp).
  exists r, w'. split; [exact Hr|]. vm_compute in Hr. injection Hr as <- <-.
  destruct Hp as (s & Hs & Hst). by inversion Hs; subst.
Defined.

Definition finished : W := world (mkCo 42 "co" (mkScript false []) (Complete None) [] [7%nat] ∅ None).

Lemma terminal_absorbing_witness :
  ∃ w', run_ops clock listener_call [(0%nat, OpRunning); (0%nat, OpReady)] finished = Done tt w'
    ∧ co_state_of w' 0 = Some (Complete None).
Proof.
  apply (terminal_absorbing clock listener_call same_ext listeners_fine
    [(0%nat, OpRunning); (0%nat, OpReady)] finished 0 (Complete None));
    [done|done|repeat constructor; by eexists].
Defined.

Lemma resume_reports_state_witness :
  match resume 0 (world (co [ASuspend])) with
  | Done (IoOk s) w' => co_state_of w' 0 = Some s ∧ s = Suspend tt 0
  | _ => False
  end.
Proof.
  destruct (resume 0 (world (co [ASuspend]))) as [[s|e] w'| |] eqn:E;
    [|vm_compute in E; done..].
  split.
  - apply (resume_reports_state clock listener_call inner_resume same_ext listeners_fine
      0 tt (world (co [ASuspend])) s w' E).
  - vm_compute in E. by injection E as <- <-.
Defined.

(** Scripted bodies leave the stack of current coroutines alone. *)
Lemma play_balanced h acts w r w' :
  play h acts w = Done r w' → COROUTINE (tls w') = COROUTINE (tls w).
Proof.
  revert w. induction acts as [|a acts IH]; intros w; simpl.
  { by intros [= <- <-]. }
  destruct a as [|t| |o|m|v]; try by intros [= <- <-].
  intros (q & w1 & Hq & Hk)%bind_done_inv. apply IH in Hk as ->.
  by apply (run_op_tls clock listener_call same_ext listeners_fine) in Hq as ->.
Qed.

Lemma inner_balanced h arg w r w' :
  inner_resume h arg w = Done r w' → COROUTINE (tls w') = COROUTINE (tls w).
Proof.
  unfold inner_resume, with_co. destruct (cos w !! h) as [c|]; [|done].
  intros (u & w1 & Hu & Hk)%bind_done_inv. apply play_balanced in Hk as ->.
  by destruct (started (co_inner c)); injection Hu as <- <-.
Qed.

(** Both sides: a fresh coroutine, and one that sleeps until time 9999. *)
Definition sleeping : W :=
  world (mkCo 42 "co" (mkScript true []) (Suspend tt 9999) [] [] ∅ None).

Lemma resume_current_stack_witness :
  (∀ r w', resume 0 (world (co [ASuspend])) = Done r w' → COROUTINE (tls w') = [])
  ∧ (∀ r w', resume 0 sleeping = Done r w' → COROUTINE (tls w') = [0%nat] ∧ is_err r = true).
Proof.
  split; intros r w' Hr.
  - destruct (resume_current_stack clock listener_call inner_resume same_ext listeners_fine
      0 tt (world (co [ASuspend])) (co [ASuspend]) r w'
      (inner_balanced 0 tt) eq_refl Hr) as [Hs _]. exact Hs.
  - destruct (resume_current_stack clock listener_call inner_resume same_ext listeners_fine
      0 tt sleeping _ r w' (inner_balanced 0 tt) eq_refl Hr) as [Hs He].
    split; [exact Hs|by apply He].
Defined.

(** A body that waits in a system call until time 5000 and, once it is over,
    suspends without a deadline. *)
Definition leaky : list act :=
  [AState (OpSyscall tt nanosleep (SSuspend 5000)); AUntil 5000;
   AState (OpSyscall tt nanosleep Executing); AState OpRunning; ASuspend].

Definition running_leaky : W :=
  world (mkCo 42 "co" (mkScript false leaky) Running [] [] ∅ None).

(** The world a run ended in. *)
Definition after {A} (r : outcome W A) : W :=
  match r with Done _ w | Panic _ w => w | NoFuel => world (co []) end.

(** The wait is over: the scheduler has moved the coroutine to [Callback]. *)
Definition woken : W :=
  after ((inner_resume 0 tt;; run_op clock listener_call 0 (OpSyscall tt nanosleep Callback))
    running_leaky).

Lemma stale_timestamp_reused_witness :
  raw_resume listener_call inner_resume 0 tt running_leaky
    = Done (IoOk (Syscall tt nanosleep (SSuspend 5000))) (after (inner_resume 0 tt running_leaky))
  ∧ ∃ w5, raw_resume listener_call inner_resume 0 tt woken = Done (IoOk (Suspend tt 5000)) w5
      ∧ co_state_of w5 0 = Some (Suspend tt 5000).
Proof.
  apply (stale_timestamp_reused clock listener_call inner_resume same_ext listeners_fine 0 tt
    running_leaky tt _ tt nanosleep (SSuspend 5000) 5000 [] tt woken tt
    (after (inner_resume 0 tt woken))); vm_compute; reflexivity.
Defined.

(** A callback that panics on a freshly grown stack. *)
Definition in_co : W :=
  mkWorld {[ 0%nat := co [] ]} (mkTls [] [] [] [0%nat] []) 0 tt.

Lemma maybe_grow_balanced_witness :
  infos_of (after (maybe_grow_with (λ _, IoOk (mkStackInfo 90 10)) 1500 4096 8192
    (@panic W unit "boom") in_co)) 0 = infos_of in_co 0.
Proof.
  apply (maybe_grow_balanced (λ _, IoOk (mkStackInfo 90 10)) 1500 4096 8192
    (@panic W unit "boom") 0 in_co); [done| |].
  - intros w w' [(a & Ha)|(msg & Ha)]; [done|by injection Ha as <- <-].
  - right. exists "boom". vm_compute. reflexivity.
Defined.
End CoroutineExamples.
