(* ===== verification/Traps.v ===== *)
(** * Traps: faults and cancelling signals

    Models the handlers of [core/src/coroutine/korosensei.rs] (a memory fault
    inside a coroutine ends that coroutine instead of the process) and of
    [core/src/coroutine/mod.rs] (SIGVTALRM cancels the running coroutine), for
    all the targets of the source, and [resume_with] with the installation of
    both. A machine context is a map from the fields of [uc_mcontext], or of
    [ContextRecord] on Windows, to their values. Parameters: the registers that
    [corosensei] prepares, and the kernel's answers about handlers and masks. *)

From stdpp Require Import sorting base numbers strings gmap list.
From S2P Require Import Prelude Common Coroutine.

(** ** Targets and registers *)

Inductive Target : Type :=
| LinuxX64 | LinuxX86 | AppleX64 | LinuxAarch64 | LinuxArm | LinuxRiscv64 | AppleAarch64
| LinuxLoongarch64 | WindowsX64 | WindowsX86.

(** [corosensei::trap::TrapHandlerRegs], which differs between the targets. *)
Record RegsX64 : Type := mkX64 { rip : Z; rsp : Z; rbp : Z; rdi : Z; rsi : Z }.
Record RegsX86 : Type := mkX86 { eip : Z; esp : Z; ebp : Z; ecx : Z; edx : Z }.
Record RegsWinX86 : Type := mkWinX86 {
  w_eip : Z; w_esp : Z; w_ebp : Z; w_eax : Z; w_ebx : Z; w_ecx : Z; w_edx : Z }.
Record RegsAarch64 : Type := mkAarch64 {
  a_pc : Z; a_sp : Z; a_x0 : Z; a_x1 : Z; a_x29 : Z; a_lr : Z }.
Record RegsArm : Type := mkArm {
  m_pc : Z; m_r0 : Z; m_r1 : Z; m_r7 : Z; m_r11 : Z; m_r13 : Z; m_r14 : Z;
  cpsr_thumb : bool; cpsr_endian : bool }.
Record RegsRiscv : Type := mkRiscv {
  r_pc : Z; r_ra : Z; r_sp : Z; r_a0 : Z; r_a1 : Z; r_s0 : Z }.
Record RegsLoongarch : Type := mkLoongarch {
  l_pc : Z; l_sp : Z; l_a0 : Z; l_a1 : Z; l_fp : Z; l_ra : Z }.

Definition TrapHandlerRegs (t : Target) : Type :=
  match t with
  | LinuxX64 | AppleX64 | WindowsX64 => RegsX64
  | LinuxX86 => RegsX86
  | WindowsX86 => RegsWinX86
  | LinuxAarch64 | AppleAarch64 => RegsAarch64
  | LinuxArm => RegsArm
  | LinuxRiscv64 => RegsRiscv
  | LinuxLoongarch64 => RegsLoongarch
  end.

Abbreviation MContext := (gmap string Z) (only parsing).
Definition reg (f : string) (c : MContext) : Z := default 0 (c !! f).

(** [i32::from_ne_bytes(x.to_ne_bytes())] and back. *)
Definition as_i32 (x : Z) : Z := if x <=? i32_max then x else x - 2 ^ 32.
Definition as_u32 (x : Z) : Z := if x <? 0 then x + 2 ^ 32 else x.

(** [if on { *cpsr |= mask } else { *cpsr &= !mask }] *)
Definition set_flag (on : bool) (mask cpsr : Z) : Z :=
  if on then Z.lor cpsr mask else Z.ldiff cpsr mask.

Section traps.
Context {W : Type}.

(** [c_longlong::try_from(x).expect("overflow")] and
    [u64::try_from(x).expect("overflow")]. *)
Definition to_i64 (x : Z) : M W Z := _ ← assert_ (x <=? i64_max) "overflow"; mret x.
Definition to_u64 (x : Z) : M W Z := _ ← assert_ (0 <=? x) "overflow"; mret x.

(** The stack pointer at the fault. *)
Definition fault_sp (t : Target) (c : MContext) : M W Z :=
  match t with
  | LinuxX64 => to_u64 (reg "gregs[REG_RSP]" c)
  | LinuxX86 => mret (as_u32 (reg "gregs[REG_ESP]" c))
  | AppleX64 => to_u64 (reg "__ss.__rsp" c)
  | LinuxAarch64 => to_u64 (reg "sp" c)
  | LinuxArm => to_u64 (reg "arm_sp" c)
  | LinuxRiscv64 => to_u64 (reg "__gregs[REG_SP]" c)
  | AppleAarch64 => mret (reg "__ss.__sp" c)
  | LinuxLoongarch64 => to_u64 (reg "__gregs[3]" c)
  | WindowsX64 => mret (reg "Rsp" c)
  | WindowsX86 => mret (reg "Esp" c)
  end.

(** The registers into the context. *)
Definition load_x64_linux (r : RegsX64) (c : MContext) : M W MContext :=
  rip ← to_i64 (rip r);
  rsp ← to_i64 (rsp r);
  rbp ← to_i64 (rbp r);
  rdi ← to_i64 (rdi r);
  rsi ← to_i64 (rsi r);
  mret (<["gregs[REG_RSI]" := rsi]> (<["gregs[REG_RDI]" := rdi]> (<["gregs[REG_RBP]" := rbp]>
    (<["gregs[REG_RSP]" := rsp]> (<["gregs[REG_RIP]" := rip]> c))))).

Definition load_x86_linux (r : RegsX86) (c : MContext) : MContext :=
  <["gregs[REG_EDX]" := as_i32 (edx r)]> (<["gregs[REG_ECX]" := as_i32 (ecx r)]>
    (<["gregs[REG_EBP]" := as_i32 (ebp r)]> (<["gregs[REG_ESP]" := as_i32 (esp r)]>
    (<["gregs[REG_EIP]" := as_i32 (eip r)]> c)))).

Definition load_x64_apple (r : RegsX64) (c : MContext) : MContext :=
  <["__ss.__rsi" := rsi r]> (<["__ss.__rdi" := rdi r]> (<["__ss.__rbp" := rbp r]>
    (<["__ss.__rsp" := rsp r]> (<["__ss.__rip" := rip r]> c)))).

Definition load_aarch64_linux (r : RegsAarch64) (c : MContext) : MContext :=
  <["regs[30]" := a_lr r]> (<["regs[29]" := a_x29 r]> (<["regs[1]" := a_x1 r]>
    (<["regs[0]" := a_x0 r]> (<["sp" := a_sp r]> (<["pc" := a_pc r]> c))))).

Definition load_arm_linux (r : RegsArm) (c : MContext) : MContext :=
  let c := <["arm_lr" := m_r14 r]> (<["arm_sp" := m_r13 r]> (<["arm_fp" := m_r11 r]>
    (<["arm_r7" := m_r7 r]> (<["arm_r1" := m_r1 r]> (<["arm_r0" := m_r0 r]>
    (<["arm_pc" := m_pc r]> c)))))) in
  let c := <["arm_cpsr" := set_flag (cpsr_thumb r) 32 (reg "arm_cpsr" c)]> c in
  <["arm_cpsr" := set_flag (cpsr_endian r) 512 (reg "arm_cpsr" c)]> c.

Definition load_riscv_linux (r : RegsRiscv) (c : MContext) : MContext :=
  <["__gregs[REG_S0]" := r_s0 r]> (<["__gregs[REG_A0+1]" := r_a1 r]> (<["__gregs[REG_A0]" := r_a0 r]>
    (<["__gregs[REG_SP]" := r_sp r]> (<["__gregs[REG_RA]" := r_ra r]>
    (<["__gregs[REG_PC]" := r_pc r]> c))))).

Definition load_aarch64_apple (r : RegsAarch64) (c : MContext) : MContext :=
  <["__ss.__lr" := a_lr r]> (<["__ss.__fp" := a_x29 r]> (<["__ss.__x[1]" := a_x1 r]>
    (<["__ss.__x[0]" := a_x0 r]> (<["__ss.__sp" := a_sp r]> (<["__ss.__pc" := a_pc r]> c))))).

Definition load_loongarch64 (r : RegsLoongarch) (c : MContext) : MContext :=
  <["__gregs[22]" := l_fp r]> (<["__gregs[5]" := l_a1 r]> (<["__gregs[4]" := l_a0 r]>
    (<["__gregs[3]" := l_sp r]> (<["__gregs[1]" := l_ra r]> (<["__pc" := l_pc r]> c))))).

Definition load_x64_windows (r : RegsX64) (c : MContext) : MContext :=
  <["Rsi" := rsi r]> (<["Rdi" := rdi r]> (<["Rbp" := rbp r]> (<["Rsp" := rsp r]>
    (<["Rip" := rip r]> c)))).

Definition load_x86_windows (r : RegsWinX86) (c : MContext) : MContext :=
  <["Edx" := w_edx r]> (<["Ecx" := w_ecx r]> (<["Ebx" := w_ebx r]> (<["Eax" := w_eax r]>
    (<["Ebp" := w_ebp r]> (<["Esp" := w_esp r]> (<["Eip" := w_eip r]> c)))))).

Definition load_regs (t : Target) : TrapHandlerRegs t → MContext → M W MContext :=
  match t with
  | LinuxX64 => load_x64_linux
  | LinuxX86 => λ r c, mret (load_x86_linux r c)
  | AppleX64 => λ r c, mret (load_x64_apple r c)
  | LinuxAarch64 => λ r c, mret (load_aarch64_linux r c)
  | LinuxArm => λ r c, mret (load_arm_linux r c)
  | LinuxRiscv64 => λ r c, mret (load_riscv_linux r c)
  | AppleAarch64 => λ r c, mret (load_aarch64_apple r c)
  | LinuxLoongarch64 => λ r c, mret (load_loongarch64 r c)
  | WindowsX64 => λ r c, mret (load_x64_windows r c)
  | WindowsX86 => λ r c, mret (load_x86_windows r c)
  end.
End traps.

(** ** Signals *)

Inductive Signal : Type := SIGBUS | SIGSEGV | SIGVTALRM.
#[global] Instance Signal_eq_dec : EqDecision Signal.
Proof. solve_decision. Defined.
#[global] Instance Signal_countable : Countable Signal.
Proof.
  apply (inj_countable' (λ s, match s with SIGBUS => 0 | SIGSEGV => 1 | SIGVTALRM => 2 end%nat)
    (λ n, match n with 0 => SIGBUS | 1 => SIGSEGV | _ => SIGVTALRM end%nat)).
  by intros [].
Defined.

Inductive SigHandler : Type := TrapHandler | SigvtalrmHandler.
Inductive SaFlags : Type := SA_ONSTACK | SA_RESTART.
Record SigAction : Type := mkSigAction {
  sa_handler : SigHandler;
  sa_flags : SaFlags;
  sa_mask : gset Signal;
}.

(** The static flags, the handlers of the process and the mask of the thread. *)
Record Sig : Type := mkSig {
  TRAP_HANDLER_INITED : bool;
  CANCEL_HANDLER_INITED : bool;
  sig_actions : gmap Signal SigAction;
  vectored : bool;
  sig_mask : gset Signal;
}.

Class HasSig (X : Type) : Type := { sig : X → Sig; set_sig : Sig → X → X }.
Class HasSigLaws (X : Type) `{!HasSig X} : Prop := {
  sig_set_sig (s : Sig) (x : X) : sig (set_sig s x) = s;
}.

Definition EXCEPTION_ACCESS_VIOLATION : Z := -1073741819.
Definition EXCEPTION_STACK_OVERFLOW : Z := -1073741571.
Definition EXCEPTION_CONTINUE_SEARCH : Z := 0.
Definition EXCEPTION_CONTINUE_EXECUTION : Z := -1.

Definition is_windows (t : Target) : bool :=
  match t with WindowsX64 | WindowsX86 => true | _ => false end.

Section handlers.
Context {Param Y R I X : Type} `{!EqDecision Y, !EqDecision R, !HasSig X}.
Abbreviation W := (World Y R I X).
Abbreviation Co := (Coroutine Y R I).

Variable t : Target.
(** [trap_handler().setup_trap_handler(..)]: where to go on so that the coroutine
    ends with this message. *)
Variable prepare : handle → string → M W (TrapHandlerRegs t).
(** Whether the kernel installs a handler. *)
Variable sigaction_ok : Signal → bool.
Variable vectored_ok : bool.
Variable clock : nat → Z.
Variable listener_call : nat → handle → event Y R → M W unit.
Variable inner_resume : handle → Param → M W (CoroutineResult Y R).

Definition on_sig (f : Sig → Sig) : M W unit := modify (set_ext (λ x, set_sig (f (sig x)) x)).
Definition from_sig {A} (f : Sig → A) : M W A := gets (λ w, f (sig (ext w))).

(** What the coroutine ends with. *)
Definition trap_message (c : Co) (sp : Z) : string :=
  if stack_ptr_in_bounds c sp then "invalid memory reference" else "stack overflow".

Definition redirect (h : handle) (sp : Z) (context : MContext) : M W MContext :=
  with_co h (λ c,
    regs ← prepare h (trap_message c sp);
    load_regs t regs context).

(** [trap_handler] on unix: the context to go on with. *)
Definition trap_handler (context : MContext) : M W MContext :=
  sp ← fault_sp t context;
  co ← current;
  match co with
  | Some h => redirect h sp context
  | None => mret context
  end.

(** [trap_handler] on Windows: the answer and the context. *)
Definition trap_handler_windows (code : Z) (context : MContext) : M W (Z * MContext) :=
  if (code =? EXCEPTION_ACCESS_VIOLATION) || (code =? EXCEPTION_STACK_OVERFLOW) then
    co ← current;
    context ← match co with
              | Some h => sp ← fault_sp t context; redirect h sp context
              | None => mret context
              end;
    mret (EXCEPTION_CONTINUE_EXECUTION, context)
  else mret (EXCEPTION_CONTINUE_SEARCH, context).

Definition sigaction (s : Signal) (a : SigAction) (msg : string) : M W unit :=
  if sigaction_ok s then
    on_sig (λ g, mkSig (TRAP_HANDLER_INITED g) (CANCEL_HANDLER_INITED g) (<[s := a]> (sig_actions g))
      (vectored g) (sig_mask g))
  else panic msg.

Definition setup_trap_handler : M W unit :=
  inited ← from_sig TRAP_HANDLER_INITED;
  if (inited : bool) then mret tt
  else
    _ ← on_sig (λ g, mkSig true (CANCEL_HANDLER_INITED g) (sig_actions g) (vectored g) (sig_mask g));
    if is_windows t then
      if vectored_ok then
        on_sig (λ g, mkSig (TRAP_HANDLER_INITED g) (CANCEL_HANDLER_INITED g) (sig_actions g) true (sig_mask g))
      else panic "failed to add exception handler"
    else
      let sa := mkSigAction TrapHandler SA_ONSTACK {[ SIGBUS; SIGSEGV ]} in
      _ ← sigaction SIGBUS sa "install SIGBUS handler failed !";
      sigaction SIGSEGV sa "install SIGSEGV handler failed !".

Definition setup_sigvtalrm_handler : M W unit :=
  inited ← from_sig CANCEL_HANDLER_INITED;
  if (inited : bool) then mret tt
  else
    _ ← on_sig (λ g, mkSig (TRAP_HANDLER_INITED g) true (sig_actions g) (vectored g) (sig_mask g));
    sigaction SIGVTALRM (mkSigAction SigvtalrmHandler SA_RESTART {[ SIGVTALRM ]})
      "install SIGVTALRM handler failed !".

(** [sigvtalrm_handler] up to the switch out of the coroutine; [get_ok] and
    [set_ok] are whether the mask of the thread can be read and set. The result
    says whether the coroutine is switched away. *)
Definition sigvtalrm_handler (get_ok set_ok : bool) : M W bool :=
  if get_ok then
    _ ← assert_ set_ok "Failed to remove SIGVTALRM signal mask!";
    _ ← on_sig (λ g, mkSig (TRAP_HANDLER_INITED g) (CANCEL_HANDLER_INITED g) (sig_actions g) (vectored g)
          (sig_mask g ∖ {[ SIGVTALRM ]}));
    susp ← gets (λ w, head (SUSPENDER (tls w)));
    match susp with
    | Some _ => _ ← cancel_enter; mret true
    | None => mret false
    end
  else mret false.

(** [resume_with] installs both handlers right before it enters the coroutine. *)
Definition armed_resume (h : handle) (arg : Param) : M W (CoroutineResult Y R) :=
  _ ← (if is_windows t then mret tt else setup_sigvtalrm_handler);
  _ ← setup_trap_handler;
  inner_resume h arg.
Definition handled_resume_with (h : handle) (arg : Param) : M W (io_result (CoroutineState Y R)) :=
  resume_with clock listener_call armed_resume h arg.
End handlers.

(** ** Registers and context *)

(** The registers that a context holds. *)
Definition read_regs (t : Target) (c : MContext) : TrapHandlerRegs t :=
  match t with
  | LinuxX64 => mkX64 (reg "gregs[REG_RIP]" c) (reg "gregs[REG_RSP]" c) (reg "gregs[REG_RBP]" c)
                  (reg "gregs[REG_RDI]" c) (reg "gregs[REG_RSI]" c)
  | LinuxX86 => mkX86 (as_u32 (reg "gregs[REG_EIP]" c)) (as_u32 (reg "gregs[REG_ESP]" c))
                  (as_u32 (reg "gregs[REG_EBP]" c)) (as_u32 (reg "gregs[REG_ECX]" c))
                  (as_u32 (reg "gregs[REG_EDX]" c))
  | AppleX64 => mkX64 (reg "__ss.__rip" c) (reg "__ss.__rsp" c) (reg "__ss.__rbp" c)
                  (reg "__ss.__rdi" c) (reg "__ss.__rsi" c)
  | LinuxAarch64 => mkAarch64 (reg "pc" c) (reg "sp" c) (reg "regs[0]" c) (reg "regs[1]" c)
                  (reg "regs[29]" c) (reg "regs[30]" c)
  | LinuxArm => mkArm (reg "arm_pc" c) (reg "arm_r0" c) (reg "arm_r1" c) (reg "arm_r7" c)
                  (reg "arm_fp" c) (reg "arm_sp" c) (reg "arm_lr" c)
                  (Z.testbit (reg "arm_cpsr" c) 5) (Z.testbit (reg "arm_cpsr" c) 9)
  | LinuxRiscv64 => mkRiscv (reg "__gregs[REG_PC]" c) (reg "__gregs[REG_RA]" c) (reg "__gregs[REG_SP]" c)
                  (reg "__gregs[REG_A0]" c) (reg "__gregs[REG_A0+1]" c) (reg "__gregs[REG_S0]" c)
  | AppleAarch64 => mkAarch64 (reg "__ss.__pc" c) (reg "__ss.__sp" c) (reg "__ss.__x[0]" c)
                  (reg "__ss.__x[1]" c) (reg "__ss.__fp" c) (reg "__ss.__lr" c)
  | LinuxLoongarch64 => mkLoongarch (reg "__pc" c) (reg "__gregs[3]" c) (reg "__gregs[4]" c)
                  (reg "__gregs[5]" c) (reg "__gregs[22]" c) (reg "__gregs[1]" c)
  | WindowsX64 => mkX64 (reg "Rip" c) (reg "Rsp" c) (reg "Rbp" c) (reg "Rdi" c) (reg "Rsi" c)
  | WindowsX86 => mkWinX86 (reg "Eip" c) (reg "Esp" c) (reg "Ebp" c) (reg "Eax" c) (reg "Ebx" c)
                  (reg "Ecx" c) (reg "Edx" c)
  end.

(** The fields that hold them. *)
Definition reg_fields (t : Target) : list string :=
  match t with
  | LinuxX64 => ["gregs[REG_RIP]"; "gregs[REG_RSP]"; "gregs[REG_RBP]"; "gregs[REG_RDI]"; "gregs[REG_RSI]"]
  | LinuxX86 => ["gregs[REG_EIP]"; "gregs[REG_ESP]"; "gregs[REG_EBP]"; "gregs[REG_ECX]"; "gregs[REG_EDX]"]
  | AppleX64 => ["__ss.__rip"; "__ss.__rsp"; "__ss.__rbp"; "__ss.__rdi"; "__ss.__rsi"]
  | LinuxAarch64 => ["pc"; "sp"; "regs[0]"; "regs[1]"; "regs[29]"; "regs[30]"]
  | LinuxArm => ["arm_pc"; "arm_r0"; "arm_r1"; "arm_r7"; "arm_fp"; "arm_sp"; "arm_lr"; "arm_cpsr"]
  | LinuxRiscv64 => ["__gregs[REG_PC]"; "__gregs[REG_RA]"; "__gregs[REG_SP]"; "__gregs[REG_A0]";
      "__gregs[REG_A0+1]"; "__gregs[REG_S0]"]
  | AppleAarch64 => ["__ss.__pc"; "__ss.__sp"; "__ss.__x[0]"; "__ss.__x[1]"; "__ss.__fp"; "__ss.__lr"]
  | LinuxLoongarch64 => ["__pc"; "__gregs[3]"; "__gregs[4]"; "__gregs[5]"; "__gregs[22]"; "__gregs[1]"]
  | WindowsX64 => ["Rip"; "Rsp"; "Rbp"; "Rdi"; "Rsi"]
  | WindowsX86 => ["Eip"; "Esp"; "Ebp"; "Eax"; "Ebx"; "Ecx"; "Edx"]
  end.

(** What the conversions of the two x86 targets of Linux need. *)
Definition regs_fit (t : Target) : TrapHandlerRegs t → Prop :=
  match t with
  | LinuxX64 => λ r, rip r ≤ i64_max ∧ rsp r ≤ i64_max ∧ rbp r ≤ i64_max ∧ rdi r ≤ i64_max ∧ rsi r ≤ i64_max
  | LinuxX86 => λ r, in_u32 (eip r) ∧ in_u32 (esp r) ∧ in_u32 (ebp r) ∧ in_u32 (ecx r) ∧ in_u32 (edx r)
  | _ => λ _, True
  end.

(** Everything else is as it was, the other flags of [arm_cpsr] included. *)
Definition same_elsewhere (t : Target) (c c' : MContext) : Prop :=
  (∀ f, f ∉ reg_fields t → c' !! f = c !! f)
  ∧ ∀ i, i ≠ 5 → i ≠ 9 → 0 ≤ i → Z.testbit (reg "arm_cpsr" c') i = Z.testbit (reg "arm_cpsr" c) i.

Lemma reg_insert_eq f v c : reg f (<[f := v]> c) = v.
Proof. unfold reg. by rewrite lookup_insert_eq. Qed.
Lemma reg_insert_ne f g v c : f ≠ g → reg g (<[f := v]> c) = reg g c.
Proof. intros Hne. unfold reg. by rewrite lookup_insert_ne. Qed.

Lemma as_u32_i32 x : in_u32 x → as_u32 (as_i32 x) = x.
Proof. unfold in_u32, as_u32, as_i32, u32_max, i32_max. intros ?. cases; breflect; lia. Qed.

Lemma set_flag_bit on k cpsr i : 0 ≤ k → 0 ≤ i →
  Z.testbit (set_flag on (2 ^ k) cpsr) i = if decide (i = k) then on else Z.testbit cpsr i.
Proof.
  intros Hk Hi. unfold set_flag. destruct on.
  - rewrite Z.lor_spec, Z.pow2_bits_eqb by done. destruct (decide (i = k)) as [->|Hne].
    + by rewrite Z.eqb_refl, orb_true_r.
    + rewrite (proj2 (Z.eqb_neq _ _)) by congruence. by rewrite orb_false_r.
  - rewrite Z.ldiff_spec, Z.pow2_bits_eqb by done. destruct (decide (i = k)) as [->|Hne].
    + by rewrite Z.eqb_refl, andb_false_r.
    + rewrite (proj2 (Z.eqb_neq _ _)) by congruence. by rewrite andb_true_r.
Qed.

(** Reads a field through a row of writes. *)
Ltac regs_simpl :=
  repeat first [rewrite reg_insert_eq | rewrite reg_insert_ne by done].

#[local] Arguments Z.testbit : simpl never.

(** The context after the handler holds exactly the registers that were
    prepared. *)
Lemma load_regs_roundtrip {W} t r c (w : W) : regs_fit t r →
  ∃ c', load_regs t r c w = Done c' w ∧ read_regs t c' = r ∧ same_elsewhere t c c'.
Proof.
  assert (Hf : ∀ f (l : list string), f ∉ l → ∀ g, g ∈ l → g ≠ f) by set_solver.
  intros Hr. destruct t, r; simpl in Hr; unfold in_u32 in Hr; (eexists; split;
    [cbn [load_regs]; try reflexivity; unfold load_x64_linux, to_i64; simpl;
     do 5 (rewrite (proj2 (Z.leb_le _ _)) by tauto; cbn); reflexivity|]).
  all: unfold load_x86_linux, load_x64_apple, load_aarch64_linux, load_arm_linux, load_riscv_linux,
    load_aarch64_apple, load_loongarch64, load_x64_windows, load_x86_windows; simpl.
  all: split; [regs_simpl; rewrite ?as_u32_i32 by (unfold in_u32; tauto); try reflexivity|].
  all: try (split; [intros f Hn; simpl in Hn; rewrite !lookup_insert_ne by (eapply Hf; [exact Hn|set_solver]);
    reflexivity|intros i Hi5 Hi9 Hi; regs_simpl; try reflexivity]).
  all: change 32 with (2 ^ 5); change 512 with (2 ^ 9); rewrite !set_flag_bit by lia.
  - done.
  - by rewrite !decide_False by done.
Qed.

(** ** Faults *)

Section properties.
Context {Param Y R I X : Type} `{!EqDecision Y, !EqDecision R, !HasSig X}.
Abbreviation W := (World Y R I X).
Context (t : Target) (prepare : handle → string → M W (TrapHandlerRegs t)).
Context (clock : nat → Z) (listener_call : nat → handle → event Y R → M W unit).
Context (wrel : W → W → Prop) `{!Allowed wrel} (lok : listeners_ok listener_call wrel).
Implicit Types (w : W) (h : handle) (context : MContext).

(** The handler of the target. *)
Definition on_fault (code : Z) (context : MContext) : M W MContext :=
  if is_windows t then r ← trap_handler_windows t prepare code context; mret r.2
  else trap_handler t prepare context.

(** The codes of the faults it takes. *)
Definition is_fault (code : Z) : Prop :=
  is_windows t = true → code = EXCEPTION_ACCESS_VIOLATION ∨ code = EXCEPTION_STACK_OVERFLOW.

Lemma on_fault_current code context sp h c regs w :
  is_fault code → head (COROUTINE (tls w)) = Some h → cos w !! h = Some c →
  fault_sp t context w = Done sp w → prepare h (trap_message c sp) w = Done regs w → regs_fit t regs →
  ∃ context', on_fault code context w = Done context' w ∧ read_regs t context' = regs
    ∧ same_elsewhere t context context'.
Proof.
  intros Hcode Hh Hc Hsp Hp Hfit.
  destruct (load_regs_roundtrip t regs context w Hfit) as (context' & Hl & Hr & Hs).
  assert (Hred : redirect t prepare h sp context w = Done context' w).
  { unfold redirect, with_co. rewrite Hc. by erewrite bind_done by exact Hp. }
  exists context'. split; [|done]. unfold on_fault, is_fault in *. destruct (is_windows t).
  - unfold trap_handler_windows.
    assert ((code =? EXCEPTION_ACCESS_VIOLATION) || (code =? EXCEPTION_STACK_OVERFLOW) = true) as ->.
    { destruct (Hcode eq_refl) as [-> | ->]; done. }
    rewrite bind_assoc. erewrite bind_done by reflexivity. rewrite Hh.
    rewrite bind_assoc. erewrite bind_done by (erewrite bind_done by exact Hsp; exact Hred). done.
  - unfold trap_handler. erewrite bind_done by exact Hsp. erewrite bind_done by reflexivity. by rewrite Hh.
Qed.

(** The messages of the handlers. *)
Definition messages : list string := ["invalid memory reference"; "stack overflow"].

Lemma trap_message_in (c : Coroutine Y R I) sp : trap_message c sp ∈ messages.
Proof. unfold trap_message, messages. destruct (stack_ptr_in_bounds c sp); set_solver. Qed.

(** What [corosensei] promises: it prepares registers, and a thread that goes
    on with them ends the coroutine with the given message. *)
Record Unwinds (return_to : MContext → M W (CoroutineResult Y R)) : Prop := {
  prepare_done h msg w : msg ∈ messages → ∃ regs, prepare h msg w = Done regs w ∧ regs_fit t regs;
  return_ends h msg w regs context : msg ∈ messages → prepare h msg w = Done regs w → read_regs t context = regs →
    return_to context w = Done (CrReturn (inr msg)) w;
}.

(** An operation that the state of the coroutine allows. *)
Lemma finish_done h o s w c :
  cos w !! h = Some c → (∀ n, co_step n (co_state c) o s) → (∀ n s1, co_step n (co_state c) o s1 → s1 = s) →
  ∃ w', try_ (run_op clock listener_call h o) (λ _, mret (IoOk s)) w = Done (IoOk s) w'
    ∧ co_state_of w' h = Some s ∧ tls w' = tls w ∧ wrel (set_cos (alter (co_set_state s) h) w) w'
    ∧ ∀ h', h' ≠ h → is_Some (cos w !! h') → co_state_of w' h' = co_state_of w h'.
Proof.
  intros Hc Hs Hdet. destruct (run_op_spec clock listener_call wrel lok h o w c Hc) as (r & w1 & Hr & Hp).
  destruct r as [u|e]; [|destruct Hp as [_ Hno]; destruct (Hno s); apply Hs].
  destruct Hp as (s1 & Hs1 & Hm). apply Hdet in Hs1 as ->.
  exists w1. split; [unfold try_; by erewrite bind_done by exact Hr|]. split_and!.
  - eapply moved_state; [by eexists|exact Hm].
  - exact (moved_tls _ _ _ _ _ Hm).
  - apply Hm.
  - intros h' Hne Hin. eapply moved_other; [|done|exact Hm]. congruence.
Qed.


(** Outside of coroutines the handlers change nothing and say that the thread
    goes on: it faults again at the same instruction. *)
Theorem fault_in_thread_repeats code context sp w :
  is_fault code → head (COROUTINE (tls w)) = None → fault_sp t context w = Done sp w →
  on_fault code context w = Done context w
  ∧ (is_windows t = true → trap_handler_windows t prepare code context w
       = Done (EXCEPTION_CONTINUE_EXECUTION, context) w).
Proof.
  intros Hcode Hh Hsp.
  assert (is_windows t = true → trap_handler_windows t prepare code context w
    = Done (EXCEPTION_CONTINUE_EXECUTION, context) w) as Hw.
  { intros Ht. unfold trap_handler_windows.
    assert ((code =? EXCEPTION_ACCESS_VIOLATION) || (code =? EXCEPTION_STACK_OVERFLOW) = true) as ->.
    { destruct (Hcode Ht) as [-> | ->]; done. }
    erewrite bind_done by reflexivity. by rewrite Hh. }
  split; [|done]. unfold on_fault. destruct (is_windows t).
  - by erewrite bind_done by exact (Hw eq_refl).
  - unfold trap_handler. erewrite bind_done by exact Hsp. erewrite bind_done by reflexivity. by rewrite Hh.
Qed.

(** ** The cancelling signal *)

Context `{!HasSigLaws X}.

(** A body that is hit by the signal and yields [y]. *)
Definition signalled (y : Y) (_ : handle) (_ : Param) : M W (CoroutineResult Y R) :=
  _ ← sigvtalrm_handler true true; mret (CrYield y).

(** The world after the handler. *)
Definition after_signal w : W :=
  set_tls tls_pop_susp (set_tls (λ t, tls_set_cancel (true :: CANCEL t) t)
    (set_ext (λ x, set_sig (let g := sig x in mkSig (TRAP_HANDLER_INITED g) (CANCEL_HANDLER_INITED g)
       (sig_actions g) (vectored g) (sig_mask g ∖ {[ SIGVTALRM ]})) x) w)).

Lemma signalled_done y h arg w :
  is_Some (head (SUSPENDER (tls w))) → signalled y h arg w = Done (CrYield y) (after_signal w).
Proof.
  intros [hs Hs]. unfold signalled, sigvtalrm_handler. rewrite bind_assoc.
  erewrite bind_done by reflexivity. rewrite bind_assoc. erewrite bind_done by reflexivity.
  rewrite bind_assoc. erewrite bind_done by reflexivity. simpl. rewrite Hs. done.
Qed.

(** SIGVTALRM cancels a running coroutine: the handler unblocks the signal
    and switches away, the resumption reports [Cancelled], the mark is used up
    and the other coroutines stay as they are. *)
Theorem signal_cancels y h arg w c :
  cos w !! h = Some c → co_state c = Running → is_Some (head (SUSPENDER (tls w))) →
  ∃ w', raw_resume listener_call (signalled y) h arg w = Done (IoOk Cancelled) w'
    ∧ co_state_of w' h = Some Cancelled
    ∧ CANCEL (tls w') = CANCEL (tls w) ∧ SUSPENDER (tls w') = tail (SUSPENDER (tls w))
    ∧ ∀ h', h' ≠ h → is_Some (cos w !! h') → co_state_of w' h' = co_state_of w h'.
Proof.
  intros Hc Hst Hs. unfold raw_resume. erewrite bind_done by (by apply signalled_done). cbv beta iota.
  erewrite bind_done by (unfold state, with_co; simpl; by rewrite Hc). rewrite Hst.
  erewrite bind_done by reflexivity. simpl.
  match goal with |- context [try_ _ _ ?w0] => set (w1 := w0) end.
  destruct (finish_done h OpCancel Cancelled w1 c Hc) as (w' & Hd & Hco & Ht & _ & Ho).
  - rewrite Hst. constructor.
  - rewrite Hst. by inversion 1.
  - exists w'. split; [exact Hd|]. rewrite Ht. by split_and!.
Qed.

(** A signal that arrives while the coroutine is in a system call does not
    cancel it: the mark stays behind on the thread, and the next coroutine
    that runs there and yields is cancelled instead. *)
Theorem signal_in_syscall_hits_next y h arg w c y0 nm st :
  cos w !! h = Some c → co_state c = Syscall y0 nm st → is_Some (head (SUSPENDER (tls w))) →
  ∃ w1, raw_resume listener_call (signalled y) h arg w = Done (IoOk (Syscall y0 nm st)) w1
    ∧ CANCEL (tls w1) = true :: CANCEL (tls w)
    ∧ ∀ h2 c2 y2, cos w1 !! h2 = Some c2 → co_state c2 = Running →
        ∃ w2, raw_resume listener_call (λ _ _, mret (CrYield y2)) h2 arg w1 = Done (IoOk Cancelled) w2
          ∧ co_state_of w2 h2 = Some Cancelled.
Proof.
  intros Hc Hst Hs. exists (after_signal w). split_and!; [|done|].
  - unfold raw_resume. erewrite bind_done by (by apply signalled_done). cbv beta iota.
    erewrite bind_done by (unfold state, with_co; simpl; by rewrite Hc). by rewrite Hst.
  - intros h2 c2 y2 Hc2 Hst2. unfold raw_resume. erewrite bind_done by reflexivity. cbv beta iota.
    erewrite bind_done by (unfold state, with_co; simpl in *; by rewrite Hc2). rewrite Hst2.
    erewrite bind_done by reflexivity. simpl.
    match goal with |- context [try_ _ _ ?w0] => set (w1 := w0) end.
    destruct (finish_done h2 OpCancel Cancelled w1 c2 Hc2) as (w' & Hd & Hco & _ & _ & _).
    + rewrite Hst2. constructor.
    + rewrite Hst2. by inversion 1.
    + by exists w'.
Qed.

(** ** Installation *)

Context (sigaction_ok : Signal → bool) (vectored_ok : bool).
Abbreviation setup := (setup_trap_handler t sigaction_ok vectored_ok).

(** The first resumption installs the handler of faults for both signals, later
    ones nothing; but a first one that fails is taken for done. *)
Theorem trap_handler_installed_once w :
  is_windows t = false → TRAP_HANDLER_INITED (sig (ext w)) = false →
  (sigaction_ok SIGBUS = true → sigaction_ok SIGSEGV = true →
   ∃ w', setup w = Done tt w' ∧ setup w' = Done tt w'
     ∧ sig_actions (sig (ext w')) = <[SIGSEGV := mkSigAction TrapHandler SA_ONSTACK {[ SIGBUS; SIGSEGV ]}]>
         (<[SIGBUS := mkSigAction TrapHandler SA_ONSTACK {[ SIGBUS; SIGSEGV ]}]> (sig_actions (sig (ext w)))))
  ∧ (sigaction_ok SIGBUS = false →
     ∃ msg w', setup w = Panic msg w' ∧ sig_actions (sig (ext w')) = sig_actions (sig (ext w))
       ∧ setup w' = Done tt w').
Proof.
  intros Ht Hi.
  assert (∀ w' : W, TRAP_HANDLER_INITED (sig (ext w')) = true → setup w' = Done tt w') as Hagain.
  { intros w' H. unfold setup_trap_handler. erewrite bind_done by reflexivity. by rewrite H. }
  split.
  - intros Hb Hv. unfold setup_trap_handler at 1. erewrite bind_done by reflexivity. rewrite Hi.
    erewrite bind_done by reflexivity. rewrite Ht. unfold sigaction. rewrite Hb, Hv.
    erewrite bind_done by reflexivity. eexists. split; [reflexivity|].
    split; [apply Hagain|]; simpl; by rewrite !sig_set_sig.
  - intros Hb. unfold setup_trap_handler at 1. erewrite bind_done by reflexivity. rewrite Hi.
    erewrite bind_done by reflexivity. rewrite Ht. unfold sigaction. rewrite Hb.
    eexists _, _. split; [reflexivity|]. split; [|apply Hagain]; simpl; by rewrite !sig_set_sig.
Qed.
End properties.

(** ** A coroutine that faults *)

Module TrapExamples.
Abbreviation W := (World unit (option Z) unit Sig).

#[export] Instance sig_self : HasSig Sig := { sig x := x; set_sig s _ := s }.

Definition silent (_ : nat) (_ : handle) (_ : event unit (option Z)) : M W unit := mret tt.
Definition anything (_ _ : W) : Prop := True.
#[export] Instance anything_allowed : Allowed anything.
Proof. done. Qed.
Lemma silent_ok : listeners_ok silent anything.
Proof. intros l h ev w. exists w. split; [split; [reflexivity|done]|by left]. Qed.

(** The registers tell the message. *)
Definition prepare (_ : handle) (msg : string) : M W (TrapHandlerRegs LinuxX64) :=
  mret (mkX64 4194304 8192 0 0 (if decide (msg = "stack overflow") then 1 else 0)).
Definition return_to (c : MContext) : M W (CoroutineResult unit (option Z)) :=
  mret (CrReturn (inr (if reg "gregs[REG_RSI]" c =? 1 then "stack overflow" else "invalid memory reference"))).

Lemma prepared : Unwinds LinuxX64 prepare return_to.
Proof.
  split.
  - intros h msg w _. eexists. split; [reflexivity|]. unfold regs_fit, i64_max. simpl.
    by destruct (decide (msg = _)).
  - intros h msg w regs context Hm [= <-]. simpl. intros [= _ _ _ _ Hr]. unfold return_to. rewrite Hr.
    apply elem_of_cons in Hm as [->|Hm]; [done|]. by apply list_elem_of_singleton in Hm as ->.
Qed.

Definition one : Coroutine unit (option Z) unit :=
  mkCo 9 "worker" tt Running [mkStackInfo 65536 32768] [] ∅ None.
Definition world : W :=
  mkWorld {[ 1%nat := one ]} (mkTls [] [] [1%nat] [1%nat] []) 0 (mkSig false false ∅ false ∅).

(** Both messages, through the handler. *)
Definition faulting (sp : Z) (h : handle) (_ : unit) : M W (CoroutineResult unit (option Z)) :=
  c ← on_fault LinuxX64 prepare 0 {[ "gregs[REG_RSP]" := sp ]}; return_to c.

Example wild_pointer :
  match raw_resume silent (faulting 40000) 1%nat tt world with
  | Done r _ => r = IoOk (Error "invalid memory reference")
  | _ => False
  end.
Proof. vm_compute. done. Qed.
Example deep_recursion :
  match raw_resume silent (faulting 32000) 1%nat tt world with
  | Done r _ => r = IoOk (Error "stack overflow")
  | _ => False
  end.
Proof. vm_compute. done. Qed.


(** A signal in a system call cancels the next coroutine of the thread. *)
Definition in_syscall : W :=
  mkWorld {[ 1%nat := co_set_state (Syscall tt Common.recv Executing) one; 2%nat := one ]}
    (mkTls [] [] [1%nat] [1%nat] []) 0 (mkSig true true ∅ false {[ SIGVTALRM ]}).

Example victim :
  match raw_resume silent (signalled tt) 1%nat tt in_syscall with
  | Done r w1 => r = IoOk (Syscall tt Common.recv Executing) ∧
      match raw_resume silent (λ _ _, mret (CrYield tt)) 2%nat tt w1 with
      | Done r2 _ => r2 = IoOk Cancelled
      | _ => False
      end
  | _ => False
  end.
Proof. vm_compute. done. Qed.
End TrapExamples.
