(* ===== verification/Scheduler.v ===== *)
(** * Scheduler: ready queue, timers and the system-call table

    Models [core/src/scheduler.rs]. Coroutines are handles into the store of
    [Coroutine]; the scheduler's containers hold handles, a dropped coroutine
    is one no container mentions any more. The ready queue is used through the
    interface [PQueue] of [QueueIface]; the two binary heaps are lists sorted by timestamp
    (the order of equal timestamps, which [BinaryHeap] leaves open, is
    insertion order here). The pool above the scheduler is the extension [X]. *)

From stdpp Require Import sorting base numbers strings gmap list.
From S2P Require Import Prelude Common QueueIface Coroutine.

(** A min-heap of timers. *)
Section timers.
Context {A : Type}.

(** [BinaryHeap::push] with the reversed order of [SuspendItem]. *)
Fixpoint heap_push (t : Z) (a : A) (l : list (Z * A)) : list (Z * A) :=
  match l with
  | [] => [(t, a)]
  | (t', a') :: l' => if t <? t' then (t, a) :: l else (t', a') :: heap_push t a l'
  end.

Definition heap_sorted (l : list (Z * A)) : Prop := StronglySorted (λ x y, x.1 ≤ y.1) l.

Lemma heap_push_perm t a l : heap_push t a l ≡ₚ (t, a) :: l.
Proof.
  induction l as [|[t' a'] l IH]; simpl; [done|]. destruct (t <? t'); [done|].
  rewrite IH. by apply Permutation_swap.
Qed.

Lemma heap_push_sorted t a l : heap_sorted l → heap_sorted (heap_push t a l).
Proof.
  intros Hs. induction Hs as [|[t' a'] l Hs IH Hf]; simpl; [by repeat constructor|].
  destruct (t <? t') eqn:E; breflect.
  - constructor; [by constructor|]. constructor; [simpl; lia|].
    eapply Forall_impl; [exact Hf|]. simpl. intros. lia.
  - constructor; [done|]. rewrite heap_push_perm. constructor; [simpl; lia|done].
Qed.
End timers.

Section scheduler.
Context {Q I X : Type} `{!PQueue handle Q}.

(** [SchedulableCoroutine]: no parameter, yields [()], returns an optional word. *)
Abbreviation Ret := (option Z).

Record Sched : Type := mkSched {
  s_name : string;
  s_stack_size : Z;
  s_listeners : list nat;
  s_ready : Q;
  s_suspend : list (Z * handle);
  s_syscall : gmap Z handle;
  s_syscall_suspend : list (Z * Z);
  RUNNING_COROUTINES : gmap Z Z;
  CANCEL_COROUTINES : gset Z;
  SCHEDULER : nat;
  s_ext : X;
}.

Abbreviation W := (World unit Ret I Sched).
Abbreviation Co := (Coroutine unit Ret I).

Variable clock : nat → Z.
Variable listener_call : nat → handle → event unit Ret → M W unit.
Variable inner_resume : handle → unit → M W (CoroutineResult unit Ret).
(** [pthread_self()] *)
Variable current_thread : Z.

Implicit Types (h : handle) (w : W).

Definition upd_ready (f : Q) (s : Sched) : Sched :=
  mkSched (s_name s) (s_stack_size s) (s_listeners s) f (s_suspend s) (s_syscall s)
    (s_syscall_suspend s) (RUNNING_COROUTINES s) (CANCEL_COROUTINES s) (SCHEDULER s) (s_ext s).
Definition upd_suspend (l : list (Z * handle)) (s : Sched) : Sched :=
  mkSched (s_name s) (s_stack_size s) (s_listeners s) (s_ready s) l (s_syscall s)
    (s_syscall_suspend s) (RUNNING_COROUTINES s) (CANCEL_COROUTINES s) (SCHEDULER s) (s_ext s).
Definition upd_syscall (m : gmap Z handle) (s : Sched) : Sched :=
  mkSched (s_name s) (s_stack_size s) (s_listeners s) (s_ready s) (s_suspend s) m
    (s_syscall_suspend s) (RUNNING_COROUTINES s) (CANCEL_COROUTINES s) (SCHEDULER s) (s_ext s).
Definition upd_syscall_suspend (l : list (Z * Z)) (s : Sched) : Sched :=
  mkSched (s_name s) (s_stack_size s) (s_listeners s) (s_ready s) (s_suspend s) (s_syscall s)
    l (RUNNING_COROUTINES s) (CANCEL_COROUTINES s) (SCHEDULER s) (s_ext s).
Definition upd_running (m : gmap Z Z) (s : Sched) : Sched :=
  mkSched (s_name s) (s_stack_size s) (s_listeners s) (s_ready s) (s_suspend s) (s_syscall s)
    (s_syscall_suspend s) m (CANCEL_COROUTINES s) (SCHEDULER s) (s_ext s).
Definition upd_cancel (m : gset Z) (s : Sched) : Sched :=
  mkSched (s_name s) (s_stack_size s) (s_listeners s) (s_ready s) (s_suspend s) (s_syscall s)
    (s_syscall_suspend s) (RUNNING_COROUTINES s) m (SCHEDULER s) (s_ext s).
Definition upd_current (n : nat) (s : Sched) : Sched :=
  mkSched (s_name s) (s_stack_size s) (s_listeners s) (s_ready s) (s_suspend s) (s_syscall s)
    (s_syscall_suspend s) (RUNNING_COROUTINES s) (CANCEL_COROUTINES s) n (s_ext s).

(** [Scheduler::new]: [ready] is a local handle of the global queue; the static
    tables are still empty. *)
Definition sched_new (name : string) (stack_size : Z) (ready : Q) (x : X) : Sched :=
  mkSched name stack_size [] ready [] ∅ [] ∅ ∅ 0 x.

Definition on_sched (f : Sched → Sched) : M W unit := modify (set_ext f).
Definition sched {A} (f : Sched → A) : M W A := gets (λ w, f (ext w)).

(** [self.ready.push(co)] *)
Definition push_ready h : M W unit :=
  with_co h (λ c w,
    match pq_push (default 0 (co_priority c)) h (s_ready (ext w)) with
    | Some q => Done tt (set_ext (upd_ready q) w)
    | None => NoFuel
    end).

(** [self.ready.pop()] *)
Definition pop_ready : M W (option handle) := λ w,
  match pq_pop (s_ready (ext w)) with
  | Some (v, q) => Done v (set_ext (upd_ready q) w)
  | None => NoFuel
  end.

(** [add_listener] of the scheduler. *)
Definition sched_add_listener (l : nat) : M W unit :=
  on_sched (λ s, mkSched (s_name s) (s_stack_size s) (s_listeners s ++ [l]) (s_ready s)
    (s_suspend s) (s_syscall s) (s_syscall_suspend s) (RUNNING_COROUTINES s)
    (CANCEL_COROUTINES s) (SCHEDULER s) (s_ext s)).

Definition submit_raw_co (co : Co) : M W (io_result Z) :=
  listeners ← sched s_listeners;
  let co := foldl (λ c l, co_add_listener l c) co listeners in
  h ← gets (λ w, fresh (dom (cos w)));
  _ ← modify (set_cos (insert h co));
  _ ← push_ready h;
  mret (IoOk (co_id co)).

(** [submit_co]; [uuid] is the random part of the name. *)
Definition submit_co (hash : string → Z) (alloc : Z → io_result StackInfo) (page : Z)
  (uuid : string) (f : I) (stack_size priority : option Z) : M W (io_result Z) :=
  s ← sched id;
  match co_new hash alloc page (s_name s +:+ "@" +:+ uuid) f
          (Some (default (s_stack_size s) stack_size)) priority with
  | IoErr e => mret (IoErr e)
  | IoOk co => submit_raw_co co
  end.

Definition try_resume (co_id : Z) : M W unit :=
  m ← sched s_syscall;
  match m !! co_id with
  | None => mret tt
  | Some co =>
      _ ← on_sched (upd_syscall (delete co_id m));
      st ← state co;
      match st with
      | Syscall val nm (SSuspend _) =>
          r ← syscall listener_call co val nm Callback;
          match r with
          | IoOk _ => push_ready co
          | IoErr _ => panic "change syscall state failed"
          end
      | _ => panic "try_resume unexpect CoroutineState"
      end
  end.

(** The first loop of [check_ready]. *)
Fixpoint check_suspend (fuel : nat) : M W (io_result unit) :=
  match fuel with
  | O => out_of_fuel
  | S fuel =>
      l ← sched s_suspend;
      match l with
      | [] => mret (IoOk tt)
      | (timestamp, co) :: l =>
          n ← now_ clock;
          if n <? timestamp then mret (IoOk tt)
          else
            _ ← on_sched (upd_suspend l);
            _ <-? ready clock listener_call co;
            _ ← push_ready co;
            check_suspend fuel
      end
  end.

(** The second loop of [check_ready]. *)
Fixpoint check_syscall_suspend (fuel : nat) : M W (io_result unit) :=
  match fuel with
  | O => out_of_fuel
  | S fuel =>
      l ← sched s_syscall_suspend;
      match l with
      | [] => mret (IoOk tt)
      | (timestamp, co_id) :: l =>
          n ← now_ clock;
          if n <? timestamp then mret (IoOk tt)
          else
            _ ← on_sched (upd_syscall_suspend l);
            m ← sched s_syscall;
            match m !! co_id with
            | None => check_syscall_suspend fuel
            | Some co =>
                _ ← on_sched (upd_syscall (delete co_id m));
                st ← state co;
                match st with
                | Syscall val nm (SSuspend _) =>
                    _ <-? syscall listener_call co val nm Timeout;
                    _ ← push_ready co;
                    check_syscall_suspend fuel
                | _ => panic "check_ready should never execute to here"
                end
            end
      end
  end.

(** Each iteration pops one timer and none is pushed, so the present number of
    timers bounds the iterations. *)
Definition check_ready : M W (io_result unit) :=
  s ← sched id;
  _ <-? check_suspend (S (length (s_suspend s)));
  check_syscall_suspend (S (length (s_syscall_suspend s))).

(** What a resumed coroutine is filed under. [None]: go on scheduling. *)
Definition dispatch h (id : Z) (st : CoroutineState unit Ret)
  (results : gmap Z (Ret + string)) : M W (io_result (gmap Z (Ret + string))) :=
  match st with
  | Syscall _ _ state =>
      _ ← on_sched (λ s, upd_syscall (<[id := h]> (s_syscall s)) s);
      _ ← match state with
          | SSuspend t =>
              on_sched (λ s, upd_syscall_suspend (heap_push t id (s_syscall_suspend s)) s)
          | _ => mret tt
          end;
      mret (IoOk results)
  | Suspend _ t =>
      n ← now_ clock;
      _ ← (if n <? t then on_sched (λ s, upd_suspend (heap_push t h (s_suspend s)) s)
           else push_ready h);
      mret (IoOk results)
  | Cancelled => mret (IoOk results)
  | Complete result =>
      _ ← assert_ (bool_decide (results !! id = None)) "not consume result";
      mret (IoOk (<[id := inl result]> results))
  | Error message =>
      _ ← assert_ (bool_decide (results !! id = None)) "not consume result";
      mret (IoOk (<[id := inr message]> results))
  | _ => mret (IoErr (Other "try_timeout_schedule should never execute to here"))
  end.

(** The body of the loop for a coroutine taken from the ready queue. *)
Definition run_ready h (results : gmap Z (Ret + string))
  : M W (io_result (gmap Z (Ret + string))) :=
  with_co h (λ c,
    let id := co_id c in
    cancelled ← sched CANCEL_COROUTINES;
    if decide (id ∈ cancelled) then
      _ ← on_sched (λ s, upd_cancel (CANCEL_COROUTINES s ∖ {[ id ]}) s);
      mret (IoOk results)
    else
      _ ← on_sched (λ s, upd_running (<[id := current_thread]> (RUNNING_COROUTINES s)) s);
      st <-? resume_with clock listener_call inner_resume h tt;
      _ ← on_sched (λ s, upd_running (delete id (RUNNING_COROUTINES s)) s);
      dispatch h id st results).

Fixpoint do_schedule (fuel : nat) (timeout_time : Z) (results : gmap Z (Ret + string))
  : M W (io_result (Z * gmap Z (Ret + string))) :=
  match fuel with
  | O => out_of_fuel
  | S fuel =>
      n ← now_ clock;
      let left_time := sat_sub timeout_time n in
      if left_time =? 0 then mret (IoOk (0, results))
      else
        _ <-? check_ready;
        v ← pop_ready;
        match v with
        | None => mret (IoOk (left_time, results))
        | Some co =>
            results <-? run_ready co results;
            do_schedule fuel timeout_time results
        end
  end.

Definition try_timeout_schedule (fuel : nat) (timeout_time : Z)
  : M W (io_result (Z * gmap Z (Ret + string))) :=
  _ ← on_sched (λ s, upd_current (S (SCHEDULER s)) s);
  r ← do_schedule fuel timeout_time ∅;
  _ ← on_sched (λ s, upd_current (pred (SCHEDULER s)) s);
  mret r.

Definition try_timed_schedule (fuel : nat) (dur : Z)
  : M W (io_result (Z * gmap Z (Ret + string))) :=
  n ← now_ clock;
  try_timeout_schedule fuel (get_timeout_time n dur).

Definition try_schedule (fuel : nat) : M W (io_result (gmap Z (Ret + string))) :=
  r <-? try_timeout_schedule fuel u64_max; mret (IoOk r.2).

Definition try_cancel_coroutine (co_id : Z) : M W unit :=
  on_sched (λ s, upd_cancel (CANCEL_COROUTINES s ∪ {[ co_id ]}) s).

Definition get_scheduling_thread (co_id : Z) : M W (option Z) :=
  sched (λ s, RUNNING_COROUTINES s !! co_id).

(** [Drop]: thirty seconds to finish, then nothing may be left. *)
Definition sched_drop (fuel : nat) : M W unit :=
  r ← try_timed_schedule fuel (30 * 1000000000);
  match r with
  | IoErr _ => panic "Failed to stop scheduler"
  | IoOk _ =>
      s ← sched id;
      _ ← assert_ (pq_is_empty (s_ready s))
        "There are still coroutines to be carried out in the ready queue";
      _ ← assert_ (bool_decide (s_suspend s = []))
        "There are still coroutines to be carried out in the suspend queue";
      assert_ (bool_decide (s_syscall s = ∅))
        "There are still coroutines to be carried out in the syscall queue"
  end.
End scheduler.

Arguments Sched : clear implicits.

Section properties.
Context {Q I X : Type} `{!PQueue handle Q, !PQueueLaws handle Q}.
Abbreviation S' := (Sched Q X).
Abbreviation W := (World unit (option Z) I S').
Abbreviation Co := (Coroutine unit (option Z) I).
Implicit Types (h : handle) (w : W) (c : Co) (s : S') (hs : list handle)
  (results : gmap Z (option Z + string)).

(** Every coroutine the scheduler holds. *)
Definition containers s : list handle :=
  pq_elems (s_ready s) ++ (s_suspend s).*2 ++ (map_to_list (s_syscall s)).*2.

(** ... together with those that are being handled. *)
Definition owned hs w : list handle := hs ++ containers (ext w).

Definition ids_unique w : Prop := ∀ h1 h2 c1 c2,
  cos w !! h1 = Some c1 → cos w !! h2 = Some c2 → co_id c1 = co_id c2 → h1 = h2.

(** Names are unique and the coroutines fit in memory. *)
Definition store_ok w : Prop := ids_unique w ∧ Z.of_nat (size (cos w)) < usize_max.

(** What callbacks and coroutine bodies may do to the scheduler: submit new
    coroutines. *)
Definition sched_rel w w' : Prop :=
  s_suspend (ext w') = s_suspend (ext w) ∧ s_syscall (ext w') = s_syscall (ext w)
  ∧ s_syscall_suspend (ext w') = s_syscall_suspend (ext w)
  ∧ CANCEL_COROUTINES (ext w') = CANCEL_COROUTINES (ext w)
  ∧ (pq_wf (s_ready (ext w)) → pq_wf (s_ready (ext w')))
  ∧ (store_ok w → store_ok w')
  ∧ ∃ new, pq_elems (s_ready (ext w')) ≡ₚ new ++ pq_elems (s_ready (ext w)) ∧ NoDup new
      ∧ ∀ h, h ∈ new → cos w !! h = None ∧ co_state_of w' h = Some Ready.

#[export] Instance sched_rel_allowed : Allowed sched_rel.
Proof.
  split.
  - intros w. split_and!; try done. exists []. split_and!; try done; [constructor|].
    intros h Hh. by apply not_elem_of_nil in Hh.
  - intros w. split_and!; try done. exists []. split_and!; try done; [constructor|].
    intros h Hh. by apply not_elem_of_nil in Hh.
  - intros w1 w2 w3 Hk (?&?&?&?&?&?&new1&Hp1&Hn1&Hd1) Hk' (?&?&?&?&?&?&new2&Hp2&Hn2&Hd2).
    split_and!; try congruence; try by auto.
    exists (new2 ++ new1). split_and!.
    + by rewrite Hp2, Hp1, app_assoc.
    + apply NoDup_app. split_and!; try done. intros h Hh2 Hh1.
      apply Hd2 in Hh2 as [Hh2 _]. apply Hd1 in Hh1 as [_ Hh1].
      unfold co_state_of in Hh1. by rewrite Hh2 in Hh1.
    + intros h [Hh|Hh]%elem_of_app.
      * apply Hd2 in Hh as [Hh2 ?]. split; [|done].
        destruct (cos w1 !! h) as [c|] eqn:E; [|done].
        destruct Hk as (_ & _ & Hc). destruct (Hc h c E) as [l Hl]. congruence.
      * apply Hd1 in Hh as [? Hh1]. split; [done|].
        unfold co_state_of in *. destruct (cos w2 !! h) as [c|] eqn:E; [|done].
        destruct Hk' as (_ & _ & Hc). destruct (Hc h c E) as [l ->]. done.
Qed.

(** *** Submitting *)

(** A submitted coroutine is one of the changes callbacks may make. *)
Lemma submit_spec (co : Co) w :
  pq_wf (s_ready (ext w)) → Zlen (pq_elems (s_ready (ext w))) < usize_max →
  co_state co = Ready →
  (∀ h c, cos w !! h = Some c → co_id c ≠ co_id co) →
  Z.of_nat (size (cos w)) + 1 < usize_max →
  ∃ w', submit_raw_co co w = Done (IoOk (co_id co)) w' ∧ frame sched_rel w w'
    ∧ ∃ h c, cos w !! h = None ∧ cos w' !! h = Some c ∧ co_id c = co_id co
        ∧ co_listeners c = co_listeners co ++ s_listeners (ext w)
        ∧ h ∈ pq_elems (s_ready (ext w')).
Proof.
  intros Hwf Hroom Hst Hid Hsz. unfold submit_raw_co. erewrite bind_done by reflexivity.
  assert (∀ ls (c : Co), co_id (foldl (λ c l, co_add_listener l c) c ls) = co_id c
    ∧ co_state (foldl (λ c l, co_add_listener l c) c ls) = co_state c
    ∧ co_listeners (foldl (λ c l, co_add_listener l c) c ls) = co_listeners c ++ ls) as Hfold.
  { induction ls as [|l ls IH]; intros c; simpl; [by rewrite app_nil_r|].
    destruct (IH (co_add_listener l c)) as (-> & -> & ->). simpl. by rewrite <-app_assoc. }
  destruct (Hfold (s_listeners (ext w)) co) as (Hcid & Hcst & Hcl).
  set (c := foldl _ co (s_listeners (ext w))) in *.
  erewrite bind_done by reflexivity. set (h := fresh (dom (cos w))).
  assert (cos w !! h = None) as Hfresh.
  { apply not_elem_of_dom. apply is_fresh. }
  erewrite bind_done by reflexivity. unfold push_ready, with_co.
  unfold mbind, M_bind. simpl. rewrite lookup_insert_eq.
  destruct (pq_push_spec (default 0 (co_priority c)) h (s_ready (ext w)) Hwf Hroom)
    as (q & -> & Hwf' & Hq).
  eexists. split; [by rewrite Hcid|]. split.
  2: { exists h, c. split_and!; try done.
       - simpl. by rewrite lookup_insert_eq.
       - simpl. rewrite Hq. set_solver. }
  split.
  - split_and!; try done. intros h' c' Hc'. exists (co_local c'). simpl.
    rewrite lookup_insert_ne by congruence. rewrite Hc'. by destruct c'.
  - split_and!; try done; simpl.
    + intros [Hu _]. split.
      * intros h1 h2 c1 c2. simpl. rewrite !lookup_insert_Some.
        intros [[<- <-]|[? H1]] [[<- <-]|[? H2]] Heq; try done.
        -- exfalso. apply (Hid h2 c2 H2). congruence.
        -- exfalso. apply (Hid h1 c1 H1). congruence.
        -- by apply (Hu h1 h2 c1 c2).
      * simpl. rewrite map_size_insert_None by done. lia.
    + exists [h]. split_and!; [done|by repeat constructor; set_solver|].
      intros h' ->%list_elem_of_singleton. split; [done|].
      unfold co_state_of. simpl. rewrite lookup_insert_eq. simpl. by rewrite Hcst, Hst.
Qed.

(** *** The invariant *)

Context (clock : nat → Z) (clock_mono : ∀ i j, (i ≤ j)%nat → clock i ≤ clock j).

(** The states in which a coroutine sits in the ready queue at time [n]. *)
Definition runnable (n : Z) (st : CoroutineState unit (option Z)) : bool :=
  match st with
  | Ready => true
  | Suspend _ t => t <=? n
  | Syscall _ _ (Callback | Timeout) => true
  | _ => false
  end.

(** The invariant of the scheduler while [hs] are being handled. *)
Record inv hs w : Prop := {
  inv_wf : pq_wf (s_ready (ext w));
  inv_nodup : NoDup (owned hs w);
  inv_hand h : h ∈ hs → is_Some (cos w !! h);
  inv_ready h : h ∈ pq_elems (s_ready (ext w)) →
    ∃ st, co_state_of w h = Some st ∧ runnable (clock (w_tick w)) st = true;
  inv_heap : heap_sorted (s_suspend (ext w));
  inv_suspend t h : (t, h) ∈ s_suspend (ext w) → co_state_of w h = Some (Suspend tt t);
  inv_syscall i h : s_syscall (ext w) !! i = Some h →
    ∃ c nm t, cos w !! h = Some c ∧ co_id c = i ∧ co_state c = Syscall tt nm (SSuspend t);
  inv_heap2 : heap_sorted (s_syscall_suspend (ext w));
  inv_store : store_ok w;
}.

Lemma runnable_mono n m st : n ≤ m → runnable n st = true → runnable m st = true.
Proof. destruct st as [| |y t|y nm []| | |]; simpl; intros; breflect; try done. apply Z.leb_le. lia. Qed.

Lemma state_dom w h st : co_state_of w h = Some st → is_Some (cos w !! h).
Proof. unfold co_state_of. by destruct (cos w !! h). Qed.

Lemma elem_of_syscall s h :
  h ∈ (map_to_list (s_syscall s)).*2 ↔ ∃ i, s_syscall s !! i = Some h.
Proof.
  rewrite list_elem_of_fmap. split.
  - intros ([i h'] & -> & Hm%elem_of_map_to_list). by exists i.
  - intros [i Hi]. exists (i, h). split; [done|]. by apply elem_of_map_to_list.
Qed.

Lemma elem_of_suspend s h : h ∈ (s_suspend s).*2 ↔ ∃ t, (t, h) ∈ s_suspend s.
Proof.
  rewrite list_elem_of_fmap. split.
  - intros ([t h'] & -> & Hm). by exists t.
  - intros [t Ht]. by exists (t, h).
Qed.

(** Owned coroutines exist. *)
Lemma inv_dom hs w h : inv hs w → h ∈ owned hs w → is_Some (cos w !! h).
Proof.
  intros Hi. unfold owned, containers. rewrite !elem_of_app.
  intros [Hh|[Hh|[Hh|Hh]]].
  - by apply (inv_hand _ _ Hi).
  - destruct (inv_ready _ _ Hi h Hh) as (st & Hst & _). by eapply state_dom.
  - apply elem_of_suspend in Hh as [t Ht]. eapply state_dom. by apply (inv_suspend _ _ Hi t).
  - apply elem_of_syscall in Hh as [i Hh].
    destruct (inv_syscall _ _ Hi i h Hh) as (c & _ & _ & Hc & _). by eexists.
Qed.

(** Progress from one point of a run to another: nothing that is owned gets
    lost before it is settled, and what is not owned any more is left alone. *)
Definition settled w results' w' h : Prop :=
  ∃ c, cos w' !! h = Some c
    ∧ match co_state c with
      | Complete r => results' !! co_id c = Some (inl r)
      | Error m => results' !! co_id c = Some (inr m)
      | Cancelled => True
      | _ => co_id c ∈ CANCEL_COROUTINES (ext w) ∧ co_id c ∉ CANCEL_COROUTINES (ext w')
      end.

Record progress hs w results hs' w' results' : Prop := {
  pr_tick : (w_tick w ≤ w_tick w')%nat;
  pr_cancel : CANCEL_COROUTINES (ext w') ⊆ CANCEL_COROUTINES (ext w);
  pr_ids h c : cos w !! h = Some c → ∃ c', cos w' !! h = Some c' ∧ co_id c' = co_id c;
  pr_outside h : is_Some (cos w !! h) → h ∉ owned hs w →
    (h ∉ owned hs' w') ∧ co_state_of w' h = co_state_of w h;
  pr_results : results ⊆ results';
  pr_owned h : h ∈ owned hs w → h ∈ owned hs' w' ∨ settled w results' w' h;
}.

Lemma progress_refl hs w results : progress hs w results hs w results.
Proof. split; try done; eauto. Qed.

Lemma progress_trans hs1 w1 r1 hs2 w2 r2 hs3 w3 r3 :
  progress hs1 w1 r1 hs2 w2 r2 → progress hs2 w2 r2 hs3 w3 r3 →
  progress hs1 w1 r1 hs3 w3 r3.
Proof.
  intros P1 P2. split.
  - pose proof (pr_tick _ _ _ _ _ _ P1). pose proof (pr_tick _ _ _ _ _ _ P2). lia.
  - etrans; [apply (pr_cancel _ _ _ _ _ _ P2)|apply (pr_cancel _ _ _ _ _ _ P1)].
  - intros h c (c' & Hc' & <-)%(pr_ids _ _ _ _ _ _ P1).
    by apply (pr_ids _ _ _ _ _ _ P2) in Hc'.
  - intros h Hd Hn. destruct (pr_outside _ _ _ _ _ _ P1 h Hd Hn) as [Hn2 Hs2].
    assert (is_Some (cos w2 !! h)) as Hd2.
    { destruct Hd as [c (c' & -> & _)%(pr_ids _ _ _ _ _ _ P1)]. by eexists. }
    destruct (pr_outside _ _ _ _ _ _ P2 h Hd2 Hn2) as [? ->]. done.
  - etrans; [apply (pr_results _ _ _ _ _ _ P1)|apply (pr_results _ _ _ _ _ _ P2)].
  - intros h Hh. destruct (pr_owned _ _ _ _ _ _ P1 h Hh) as [H2|Hset].
    + destruct (pr_owned _ _ _ _ _ _ P2 h H2) as [H3|(c & Hc & Hst)]; [by left|right].
      exists c. split; [done|]. pose proof (pr_cancel _ _ _ _ _ _ P1).
      destruct (co_state c); naive_solver.
    + destruct (decide (h ∈ owned hs2 w2)) as [H2|H2].
      { destruct (pr_owned _ _ _ _ _ _ P2 h H2) as [H3|(c & Hc & Hst)]; [by left|right].
        exists c. split; [done|]. pose proof (pr_cancel _ _ _ _ _ _ P1).
        destruct (co_state c); naive_solver. }
      right. destruct Hset as (c & Hc & Hst).
      destruct (pr_outside _ _ _ _ _ _ P2 h) as [H3 Hs3]; [by eexists|done|].
      destruct (pr_ids _ _ _ _ _ _ P2 h c Hc) as (c3 & Hc3 & Hid).
      exists c3. split; [done|]. unfold co_state_of in Hs3. rewrite Hc, Hc3 in Hs3.
      injection Hs3 as ->. rewrite Hid. pose proof (pr_results _ _ _ _ _ _ P2) as Hr.
      pose proof (pr_cancel _ _ _ _ _ _ P2).
      destruct (co_state c); try done; try (by eapply lookup_weaken); set_solver.
Qed.

(** Framed changes keep the invariant. *)
Lemma rel_inv hs w w' results :
  (w_tick w ≤ w_tick w')%nat →
  (∀ h c, cos w !! h = Some c → ∃ l, cos w' !! h = Some (co_set_local l c)) →
  sched_rel w w' → inv hs w → inv hs w' ∧ progress hs w results hs w' results.
Proof.
  intros Htk Hc (Hsu & Hsy & Hss & Hca & Hwf & Hid & new & Hp & Hnd & Hnew) Hi.
  assert (∀ h st, co_state_of w h = Some st → co_state_of w' h = Some st) as Hst.
  { intros h st. unfold co_state_of. destruct (cos w !! h) as [c|] eqn:E; [|done].
    by destruct (Hc h c E) as [l ->]. }
  assert (owned hs w' ≡ₚ new ++ owned hs w) as Ho.
  { unfold owned, containers. rewrite Hsu, Hsy, Hp. solve_Permutation. }
  split; [split|split].
  - apply Hwf, Hi.
  - rewrite Ho. apply NoDup_app. split_and!; [done| |apply Hi].
    intros h Hh Ho'. apply Hnew in Hh as [Hh _].
    destruct (inv_dom hs w h Hi Ho') as [c Hc']. congruence.
  - intros h Hh. destruct (inv_hand _ _ Hi h Hh) as [c E].
    destruct (Hc h c E) as [l ->]. by eexists.
  - intros h. rewrite Hp, elem_of_app. intros [Hh|Hh].
    + apply Hnew in Hh as [_ ?]. by exists Ready.
    + destruct (inv_ready _ _ Hi h Hh) as (st & Hs & Hr). exists st. split; [by apply Hst|].
      eapply runnable_mono; [|done]. by apply clock_mono.
  - rewrite Hsu. apply Hi.
  - intros t h. rewrite Hsu. intros Hh. by apply Hst, (inv_suspend _ _ Hi).
  - intros i h. rewrite Hsy. intros Hh.
    destruct (inv_syscall _ _ Hi i h Hh) as (c & nm & t & Hc' & ? & ?).
    destruct (Hc h c Hc') as [l Hl]. eexists _, nm, t. by split_and!.
  - rewrite Hss. apply Hi.
  - apply Hid, Hi.
  - done.
  - by rewrite Hca.
  - intros h c Hc'. destruct (Hc h c Hc') as [l Hl]. eexists. by split.
  - intros h [c E] Hn. split.
    + rewrite Ho, elem_of_app. intros [Hh|Hh]; [|done].
      apply Hnew in Hh as [Hh _]. congruence.
    + unfold co_state_of. destruct (Hc h c E) as [l ->]. by rewrite E.
  - done.
  - intros h Hh. left. rewrite Ho. set_solver.
Qed.

Lemma frame_inv hs w w' results :
  frame sched_rel w w' → inv hs w → inv hs w' ∧ progress hs w results hs w' results.
Proof. intros [(_ & Htk & Hc) Hr]. by apply rel_inv. Qed.

(** Changing a coroutine that is being handled. *)
Lemma alter_inv hs h (f : Co → Co) w :
  h ∈ hs → (∀ c, cos w !! h = Some c → co_id (f c) = co_id c) → inv hs w →
  inv hs (set_cos (alter f h) w).
Proof.
  intros Hh Hf Hi.
  assert (∀ h', h' ∈ containers (ext w) → h' ≠ h) as Hne.
  { intros h' Hc ->. pose proof (inv_nodup _ _ Hi) as Hnd. unfold owned in Hnd.
    apply NoDup_app in Hnd as (_ & Hdis & _). by apply (Hdis h). }
  assert (∀ h', h' ∈ containers (ext w) →
    co_state_of (set_cos (alter f h) w) h' = co_state_of w h') as Hst.
  { intros h' Hc%Hne. unfold co_state_of. simpl. by rewrite lookup_alter_ne. }
  unfold containers in Hne, Hst.
  split; simpl; try apply Hi.
  - intros h' Hh'. destruct (decide (h = h')) as [->|Hn].
    + rewrite lookup_alter_eq. apply fmap_is_Some. by apply (inv_hand _ _ Hi).
    + rewrite lookup_alter_ne by done. by apply (inv_hand _ _ Hi).
  - intros h' Hh'. rewrite Hst by set_solver. by apply (inv_ready _ _ Hi).
  - intros t h' Hh'. rewrite Hst; [by apply (inv_suspend _ _ Hi)|].
    rewrite !elem_of_app. right. left. apply elem_of_suspend. by exists t.
  - intros i h' Hh'. rewrite lookup_alter_ne; [by apply (inv_syscall _ _ Hi)|].
    apply not_eq_sym, Hne. rewrite !elem_of_app. right. right. apply elem_of_syscall. by exists i.
  - split; [|simpl; rewrite <-size_dom, dom_alter_L, size_dom; apply Hi].
    intros h1 h2 c1 c2 H1 H2 Heq. simpl in *.
    assert (∀ h' c', alter f h (cos w) !! h' = Some c' →
      ∃ c0, cos w !! h' = Some c0 ∧ co_id c0 = co_id c') as Hid.
    { intros h' c'. destruct (decide (h = h')) as [<-|Hn].
      - rewrite lookup_alter_eq. intros (c0 & ? & ->)%fmap_Some. exists c0.
        split; [done|]. symmetry. by apply Hf.
      - rewrite lookup_alter_ne by done. by exists c'. }
    apply Hid in H1 as (d1 & Hd1 & ?), H2 as (d2 & Hd2 & ?).
    apply (proj1 (inv_store _ _ Hi) h1 h2 d1 d2); congruence.
Qed.

Lemma alter_progress hs h (f : Co → Co) w results :
  h ∈ hs → (∀ c, cos w !! h = Some c → co_id (f c) = co_id c) →
  progress hs w results hs (set_cos (alter f h) w) results.
Proof.
  intros Hh Hf. split; try done; simpl.
  - intros h' c Hc. destruct (decide (h = h')) as [<-|Hn].
    + rewrite lookup_alter_eq, Hc. eexists. split; [done|]. by apply Hf.
    + rewrite lookup_alter_ne, Hc by done. by eexists.
  - intros h' _ Hn. split; [done|]. unfold co_state_of. simpl.
    rewrite lookup_alter_ne; [done|]. intros ->. apply Hn. unfold owned. set_solver.
  - intros h' Hh'. by left.
Qed.

Lemma moved_inv hs h st w w' results :
  h ∈ hs → moved sched_rel h st w w' → inv hs w →
  inv hs w' ∧ progress hs w results hs w' results.
Proof.
  intros Hh Hm Hi. destruct (frame_inv hs _ w' results Hm) as [Hi' Hp]; [by apply alter_inv|].
  split; [done|]. eapply progress_trans; [|exact Hp]. by apply alter_progress.
Qed.

(** Changes of the scheduler that only move owned handles around. *)
Lemma ext_progress hs hs' w w' results :
  cos w' = cos w → (w_tick w ≤ w_tick w')%nat →
  CANCEL_COROUTINES (ext w') = CANCEL_COROUTINES (ext w) →
  owned hs w ≡ₚ owned hs' w' → progress hs w results hs' w' results.
Proof.
  intros Hc Ht Hca Ho. split; try done.
  - by rewrite Hca.
  - rewrite Hc. eauto.
  - intros h _ Hn. unfold co_state_of. rewrite Hc. by rewrite <-Ho.
  - intros h Hh. left. by rewrite <-Ho.
Qed.

(** The ready queue keeps what it has. *)
Definition kept w w' : Prop := ∀ h, h ∈ pq_elems (s_ready (ext w)) →
  h ∈ pq_elems (s_ready (ext w')) ∧ co_state_of w' h = co_state_of w h.

#[export] Instance kept_preorder : PreOrder kept.
Proof.
  split; [by intros w h|]. intros w1 w2 w3 H1 H2 h Hh.
  destruct (H1 h Hh) as [Hh2 <-]. by apply H2.
Qed.

Lemma inv_room hs w : inv hs w → Zlen (pq_elems (s_ready (ext w))) < usize_max.
Proof.
  intros Hi. destruct (inv_store _ _ Hi) as [_ Hsz].
  assert (NoDup (pq_elems (s_ready (ext w)))) as Hnd.
  { pose proof (inv_nodup _ _ Hi) as Hnd. unfold owned, containers in Hnd.
    apply NoDup_app in Hnd as (_ & _ & Hnd). by apply NoDup_app in Hnd as (? & _). }
  assert (length (pq_elems (s_ready (ext w))) ≤ size (cos w))%nat; [|unfold Zlen; lia].
  rewrite <-size_dom, <-(size_list_to_set (C:=gset handle) _ Hnd). apply subseteq_size.
  intros h Hh%elem_of_list_to_set. apply elem_of_dom.
  destruct (inv_ready _ _ Hi h Hh) as (st & Hst & _). by eapply state_dom.
Qed.

Lemma push_ready_spec h hs w st results :
  inv (h :: hs) w → co_state_of w h = Some st → runnable (clock (w_tick w)) st = true →
  ∃ w', push_ready h w = Done tt w' ∧ inv hs w' ∧ progress (h :: hs) w results hs w' results
    ∧ w_tick w' = w_tick w ∧ tls w' = tls w ∧ cos w' = cos w
    ∧ s_suspend (ext w') = s_suspend (ext w)
    ∧ s_syscall (ext w') = s_syscall (ext w)
    ∧ s_syscall_suspend (ext w') = s_syscall_suspend (ext w)
    ∧ kept w w' ∧ h ∈ pq_elems (s_ready (ext w')).
Proof.
  intros Hi Hst Hr. destruct (inv_hand _ _ Hi h) as [c Hc]; [set_solver|].
  unfold push_ready, with_co. rewrite Hc.
  destruct (pq_push_spec (default 0 (co_priority c)) h (s_ready (ext w)))
    as (q & -> & Hwf & Hq); [apply Hi|by eapply inv_room|].
  set (w' := set_ext (upd_ready q) w).
  assert (owned (h :: hs) w ≡ₚ owned hs w') as Ho.
  { unfold owned, containers, w'. simpl. rewrite Hq. solve_Permutation. }
  exists w'. split; [done|]. split; [|split_and!; try done; [by apply ext_progress|..]].
  2: { intros h' Hh'. simpl. rewrite Hq. set_solver. }
  2: { simpl. rewrite Hq. set_solver. }
  split; simpl; try apply Hi; try done.
  - rewrite <-Ho. apply Hi.
  - intros h' Hh'. apply (inv_hand _ _ Hi). set_solver.
  - intros h'. rewrite Hq, elem_of_cons. intros [->|Hh']; [by exists st|].
    by apply (inv_ready _ _ Hi).
Qed.

Lemma pop_ready_spec w results :
  inv [] w →
  ∃ v w', pop_ready w = Done v w' ∧ w_tick w' = w_tick w ∧ cos w' = cos w
    ∧ match v with
      | None => inv [] w' ∧ progress [] w results [] w' results
                ∧ pq_elems (s_ready (ext w')) = [] ∧ s_suspend (ext w') = s_suspend (ext w)
                ∧ s_syscall_suspend (ext w') = s_syscall_suspend (ext w)
      | Some h => inv [h] w' ∧ progress [] w results [h] w' results
                  ∧ ∃ st, co_state_of w' h = Some st ∧ runnable (clock (w_tick w')) st = true
      end.
Proof.
  intros Hi. unfold pop_ready.
  destruct (pq_pop_spec (s_ready (ext w))) as (v & q & -> & Hwf & Hv); [apply Hi|].
  set (w' := set_ext (upd_ready q) w). exists v, w'. split_and!; try done.
  destruct v as [h|].
  - assert (owned [] w ≡ₚ owned [h] w') as Ho.
    { unfold owned, containers, w'. simpl. by rewrite Hv. }
    assert (h ∈ pq_elems (s_ready (ext w))) as Hin by (rewrite Hv; set_solver).
    split_and!; [|by apply ext_progress|by apply (inv_ready _ _ Hi)].
    split; simpl; try apply Hi; try done.
    + rewrite <-Ho. apply Hi.
    + intros h' ->%list_elem_of_singleton. destruct (inv_ready _ _ Hi h Hin) as (st & Hst & _).
      by eapply state_dom.
    + intros h' Hh'. apply (inv_ready _ _ Hi). rewrite Hv. set_solver.
  - destruct Hv as [Hq Hq'].
    assert (owned [] w ≡ₚ owned [] w') as Ho.
    { unfold owned, containers, w'. simpl. by rewrite Hq, Hq'. }
    split_and!; try done; [|by apply ext_progress].
    split; simpl; try apply Hi; try done.
    + rewrite <-Ho. apply Hi.
    + rewrite Hq'. set_solver.
Qed.

Lemma frame_kept hs w w' : inv hs w → frame sched_rel w w' → kept w w'.
Proof.
  intros Hi Hf h Hh. destruct (inv_ready _ _ Hi h Hh) as (st & Hst & _). split.
  - destruct Hf as [_ (_ & _ & _ & _ & _ & _ & new & Hp & _)]. rewrite Hp. set_solver.
  - apply (frame_state sched_rel); [|done]. by eapply state_dom.
Qed.

Lemma moved_kept hs h st w w' : inv hs w → h ∈ hs → moved sched_rel h st w w' → kept w w'.
Proof.
  intros Hi Hh Hm h' Hh'. assert (h ≠ h') as Hne.
  { intros ->. pose proof (inv_nodup _ _ Hi) as Hnd. unfold owned, containers in Hnd.
    apply NoDup_app in Hnd as (_ & Hdis & _). apply (Hdis h'); set_solver. }
  destruct (frame_kept hs _ _ (alter_inv hs h (co_set_state st) w Hh (λ _ _, eq_refl) Hi) Hm h' Hh') as [? ->].
  split; [done|]. unfold co_state_of. simpl. by rewrite lookup_alter_ne.
Qed.

(** Timers that callbacks cannot touch. *)
Lemma moved_timers h st w w' :
  moved sched_rel h st w w' →
  s_suspend (ext w') = s_suspend (ext w) ∧ s_syscall (ext w') = s_syscall (ext w)
  ∧ s_syscall_suspend (ext w') = s_syscall_suspend (ext w).
Proof. by intros [_ (? & ? & ? & _)]. Qed.

Lemma tick_inv hs w results :
  inv hs w → inv hs (tick_world w) ∧ progress hs w results hs (tick_world w) results.
Proof. intros Hi. apply frame_inv; [|done]. apply tick_frame, _. Qed.

(** Time may pass. *)
Lemma later_inv hs w (k : nat) :
  inv hs w → (w_tick w ≤ k)%nat → inv hs (mkWorld (cos w) (tls w) k (ext w)).
Proof.
  intros Hi Hk. apply (rel_inv hs w _ ∅); try done.
  - intros h c Hc. exists (co_local c). simpl. rewrite Hc. by destruct c.
  - split_and!; try done. exists []. split_and!; try done; [constructor|].
    intros h Hh. by apply not_elem_of_nil in Hh.
Qed.

Section with_listeners.
Context (listener_call : nat → handle → event unit (option Z) → M W unit)
  (lok : listeners_ok listener_call sched_rel).

(** An operation that the state machine allows, on a coroutine being handled. *)
Lemma op_spec hs h o st st' w results :
  inv hs w → h ∈ hs → co_state_of w h = Some st →
  (∀ n, clock (w_tick w) ≤ n → co_step n st o st') →
  (∀ n st2, co_step n st o st2 → st2 = st') →
  ∃ w', run_op clock listener_call h o w = Done (IoOk tt) w' ∧ inv hs w'
    ∧ progress hs w results hs w' results ∧ co_state_of w' h = Some st' ∧ kept w w'
    ∧ tls w' = tls w ∧ s_suspend (ext w') = s_suspend (ext w)
    ∧ s_syscall (ext w') = s_syscall (ext w)
    ∧ s_syscall_suspend (ext w') = s_syscall_suspend (ext w).
Proof.
  intros Hi Hh Hst Hstep Hdet. unfold co_state_of in Hst.
  destruct (cos w !! h) as [c|] eqn:Hc; [|done]. injection Hst as <-.
  destruct (run_op_spec clock listener_call sched_rel lok h o w c Hc) as ([[]|e] & w' & Hr & Hp).
  - destruct Hp as (s2 & Hs2 & Hm). apply Hdet in Hs2 as ->.
    exists w'. split; [done|]. destruct (moved_inv hs h st' w w' results Hh Hm Hi).
    split_and!; try done; try by eapply moved_timers.
    + eapply (moved_state sched_rel); [|exact Hm]. by eexists.
    + by eapply moved_kept.
    + by eapply (moved_tls sched_rel).
  - destruct Hp as [_ Hn]. destruct (Hn st'). by apply Hstep.
Qed.

(** Taking the first timer. *)
Lemma pop_suspend_inv w t h l results :
  inv [] w → s_suspend (ext w) = (t, h) :: l →
  let w' := set_ext (upd_suspend l) w in
  inv [h] w' ∧ progress [] w results [h] w' results.
Proof.
  intros Hi Hl w'. assert (owned [] w ≡ₚ owned [h] w') as Ho.
  { unfold owned, containers, w'. simpl. rewrite Hl. simpl. solve_Permutation. }
  split; [|by apply ext_progress]. split; simpl; try apply Hi.
  - rewrite <-Ho. apply Hi.
  - intros h' ->%list_elem_of_singleton. eapply state_dom. apply (inv_suspend _ _ Hi t).
    rewrite Hl. set_solver.
  - pose proof (inv_heap _ _ Hi) as Hs. rewrite Hl in Hs. by inversion Hs.
  - intros t' h' Hh'. apply (inv_suspend _ _ Hi). rewrite Hl. set_solver.
Qed.

Lemma heap_first {A} (t : Z) (a : A) l n :
  heap_sorted ((t, a) :: l) → n < t → ∀ t' a', (t', a') ∈ (t, a) :: l → n < t'.
Proof.
  intros Hs Hn t' a' [?|Hin]%elem_of_cons; [by simplify_eq|].
  inversion Hs as [|x l' Hs' Hf]; subst. rewrite Forall_forall in Hf.
  apply Hf in Hin. simpl in Hin. lia.
Qed.

Lemma check_suspend_spec fuel w results :
  inv [] w → (length (s_suspend (ext w)) < fuel)%nat →
  ∃ w', check_suspend clock listener_call fuel w = Done (IoOk tt) w' ∧ inv [] w'
    ∧ progress [] w results [] w' results ∧ kept w w'
    ∧ s_syscall (ext w') = s_syscall (ext w)
    ∧ s_syscall_suspend (ext w') = s_syscall_suspend (ext w)
    ∧ (∀ t h, (t, h) ∈ s_suspend (ext w') → clock (w_tick w) < t)
    ∧ (∀ t h, (t, h) ∈ s_suspend (ext w) → t ≤ clock (w_tick w) →
         h ∈ pq_elems (s_ready (ext w')) ∧ co_state_of w' h = Some Ready).
Proof.
  revert w. induction fuel as [|fuel IH]; intros w Hi Hf; [lia|]. simpl.
  erewrite bind_done by reflexivity. simpl.
  destruct (s_suspend (ext w)) as [|[t h] l] eqn:El.
  { exists w. split_and!; try done.
    - apply progress_refl.
    - rewrite El. set_solver.
    - set_solver. }
  erewrite bind_done by reflexivity. fold (tick_world w).
  destruct (tick_inv [] w results Hi) as [Hi1 Hp1].
  destruct (clock (w_tick w) <? t) eqn:Et; breflect.
  { pose proof (inv_heap _ _ Hi) as Hs. rewrite El in Hs.
    exists (tick_world w). split_and!; try done.
    - simpl. rewrite El. by apply heap_first.
    - intros t' h' Hin Hle. pose proof (heap_first t h l _ Hs Et t' h' Hin). lia. }
  erewrite bind_done by reflexivity.
  destruct (pop_suspend_inv (tick_world w) t h l results Hi1 El) as [Hi2 Hp2].
  set (w2 := set_ext (upd_suspend l) (tick_world w)) in *.
  assert (co_state_of w2 h = Some (Suspend tt t)) as Hst.
  { change (co_state_of w h = Some (Suspend tt t)). apply (inv_suspend _ _ Hi).
    rewrite El. set_solver. }
  destruct (op_spec [h] h OpReady _ Ready w2 results Hi2 ltac:(set_solver) Hst)
    as (w3 & Hr & Hi3 & Hp3 & Hst3 & Hk3 & _ & Hsu3 & Hsy3 & Hss3).
  { intros n Hn. constructor. pose proof (clock_mono (w_tick w) (S (w_tick w))). simpl in Hn. lia. }
  { by inversion 1. }
  unfold try_. erewrite bind_done by exact Hr.
  destruct (push_ready_spec h [] w3 Ready results Hi3 Hst3 eq_refl)
    as (w4 & Hpush & Hi4 & Hp4 & _ & _ & Hc4 & Hsu4 & Hsy4 & Hss4 & Hk4 & Hin4).
  erewrite bind_done by exact Hpush.
  assert (s_suspend (ext w4) = l) as Hl4 by (rewrite Hsu4, Hsu3; done).
  destruct (IH w4) as (w5 & Hrec & Hi5 & Hp5 & Hk5 & Hsy5 & Hss5 & Hlate & Hdue);
    [done|rewrite Hl4; simpl in *; lia|].
  assert (progress [] w results [] w4 results) as Hp14.
  { eapply progress_trans; [exact Hp1|]. eapply progress_trans; [exact Hp2|].
    by eapply progress_trans. }
  assert (clock (w_tick w) ≤ clock (w_tick w4)) as Hclk.
  { apply clock_mono, (pr_tick _ _ _ _ _ _ Hp14). }
  assert (kept w w4) as Hkw by (etrans; [|etrans; [exact Hk3|exact Hk4]]; by intros h').
  exists w5. split_and!.
  - done.
  - done.
  - by eapply progress_trans.
  - by etrans.
  - by rewrite Hsy5, Hsy4, Hsy3.
  - by rewrite Hss5, Hss4, Hss3.
  - intros t' h' Hin. apply Hlate in Hin. lia.
  - intros t' h' [?|Hin]%elem_of_cons Hle.
    + simplify_eq. destruct (Hk5 h Hin4) as [? ->]. split; [done|].
      unfold co_state_of. by rewrite Hc4.
    + apply (Hdue t' h'); [by rewrite Hl4|lia].
Qed.

(** Changes of the timers of system calls. *)
Lemma syscall_timer_inv hs w l results :
  inv hs w → heap_sorted l →
  inv hs (set_ext (upd_syscall_suspend l) w)
  ∧ progress hs w results hs (set_ext (upd_syscall_suspend l) w) results.
Proof.
  intros Hi Hs. split; [|by apply ext_progress]. split; simpl; try apply Hi. done.
Qed.

(** Taking a coroutine out of the system-call table. *)
Lemma take_syscall_inv hs w i h results :
  inv hs w → s_syscall (ext w) !! i = Some h →
  let w' := set_ext (upd_syscall (delete i (s_syscall (ext w)))) w in
  inv (h :: hs) w' ∧ progress hs w results (h :: hs) w' results
  ∧ ∃ nm t, co_state_of w' h = Some (Syscall tt nm (SSuspend t)).
Proof.
  intros Hi Hl w'. assert (owned hs w ≡ₚ owned (h :: hs) w') as Ho.
  { unfold owned, containers, w'. simpl.
    rewrite <-(map_to_list_delete _ _ _ Hl). simpl. solve_Permutation. }
  destruct (inv_syscall _ _ Hi i h Hl) as (c & nm & t & Hc & Hid & Hst).
  split_and!; [|by apply ext_progress|].
  - split; simpl; try apply Hi.
    + rewrite <-Ho. apply Hi.
    + intros h' [->|Hh']%elem_of_cons; [by eexists|]. by apply (inv_hand _ _ Hi).
    + intros i' h' Hh'. apply (inv_syscall _ _ Hi).
      by apply lookup_delete_Some in Hh' as [_ ?].
  - exists nm, t. unfold co_state_of. simpl. rewrite Hc. simpl. by rewrite Hst.
Qed.

(** Wake a coroutine that waits in a system call, with the given outcome. *)
Lemma wake_spec hs w h nm t st results :
  inv (h :: hs) w → co_state_of w h = Some (Syscall tt nm (SSuspend t)) →
  st = Callback ∨ st = Timeout →
  ∃ w1 w', run_op clock listener_call h (OpSyscall tt nm st) w = Done (IoOk tt) w1
    ∧ push_ready h w1 = Done tt w' ∧ inv hs w' ∧ progress (h :: hs) w results hs w' results
    ∧ kept w w' ∧ h ∈ pq_elems (s_ready (ext w'))
    ∧ co_state_of w' h = Some (Syscall tt nm st) ∧ tls w' = tls w
    ∧ s_suspend (ext w') = s_suspend (ext w) ∧ s_syscall (ext w') = s_syscall (ext w)
    ∧ s_syscall_suspend (ext w') = s_syscall_suspend (ext w).
Proof.
  intros Hi Hst Hor.
  destruct (op_spec (h :: hs) h (OpSyscall tt nm st) _ (Syscall tt nm st) w results Hi
    ltac:(set_solver) Hst) as (w1 & Hr & Hi1 & Hp1 & Hst1 & Hk1 & Ht1 & Hsu1 & Hsy1 & Hss1).
  { intros n _. constructor. }
  { by inversion 1. }
  destruct (push_ready_spec h hs w1 (Syscall tt nm st) results Hi1 Hst1)
    as (w2 & Hpush & Hi2 & Hp2 & _ & Ht2 & Hc2 & Hsu2 & Hsy2 & Hss2 & Hk2 & Hin2).
  { by destruct Hor as [->| ->]. }
  exists w1, w2. split_and!; try done; try congruence.
  - by eapply progress_trans.
  - by etrans.
  - unfold co_state_of in *. by rewrite Hc2.
Qed.

Lemma check_syscall_suspend_spec fuel w results :
  inv [] w → (length (s_syscall_suspend (ext w)) < fuel)%nat →
  ∃ w', check_syscall_suspend clock listener_call fuel w = Done (IoOk tt) w' ∧ inv [] w'
    ∧ progress [] w results [] w' results ∧ kept w w'
    ∧ s_suspend (ext w') = s_suspend (ext w)
    ∧ (∀ t i, (t, i) ∈ s_syscall_suspend (ext w') → clock (w_tick w) < t)
    ∧ (∀ t i h, (t, i) ∈ s_syscall_suspend (ext w) → t ≤ clock (w_tick w) →
         s_syscall (ext w) !! i = Some h →
         h ∈ pq_elems (s_ready (ext w'))
         ∧ ∃ nm, co_state_of w' h = Some (Syscall tt nm Timeout)).
Proof.
  revert w. induction fuel as [|fuel IH]; intros w Hi Hf; [lia|]. simpl.
  erewrite bind_done by reflexivity. simpl.
  destruct (s_syscall_suspend (ext w)) as [|[t i] l] eqn:El.
  { exists w. split_and!; try done.
    - apply progress_refl.
    - rewrite El. set_solver.
    - set_solver. }
  erewrite bind_done by reflexivity. fold (tick_world w).
  destruct (tick_inv [] w results Hi) as [Hi1 Hp1].
  pose proof (inv_heap2 _ _ Hi) as Hs. rewrite El in Hs.
  destruct (clock (w_tick w) <? t) eqn:Et; breflect.
  { exists (tick_world w). split_and!; try done.
    - simpl. rewrite El. by apply heap_first.
    - intros t' i' h' Hin Hle. pose proof (heap_first t i l _ Hs Et t' i' Hin). lia. }
  erewrite bind_done by reflexivity.
  destruct (syscall_timer_inv [] (tick_world w) l results Hi1) as [Hi2 Hp2];
    [by inversion Hs|].
  set (w2 := set_ext (upd_syscall_suspend l) (tick_world w)) in *.
  erewrite bind_done by reflexivity.
  assert (progress [] w results [] w2 results) as Hp12 by by eapply progress_trans.
  assert (kept w w2) as Hk12 by by intros h'.
  destruct (s_syscall (ext w2) !! i) as [h|] eqn:Ei.
  - erewrite bind_done by reflexivity.
    destruct (take_syscall_inv [] w2 i h results Hi2 Ei) as (Hi3 & Hp3 & nm & t' & Hst).
    set (w3 := set_ext (upd_syscall _) w2) in *.
    destruct (wake_spec [] w3 h nm t' Timeout results Hi3 Hst)
      as (w4 & w5 & Hop & Hpush & Hi5 & Hp5 & Hk5 & Hin5 & Hst5 & _ & Hsu5 & Hsy5 & Hss5);
      [by right|].
    assert (state h w3 = Done (Syscall tt nm (SSuspend t')) w3) as Hstate.
    { unfold state, with_co, co_state_of in *. destruct (cos w3 !! h); [|done].
      by injection Hst as <-. }
    erewrite bind_done by exact Hstate. cbv beta iota. unfold try_.
    erewrite bind_done by exact Hop. cbv beta iota. erewrite bind_done by exact Hpush.
    assert (progress [] w results [] w5 results) as Hp15.
    { eapply progress_trans; [exact Hp12|]. by eapply progress_trans. }
    assert (clock (w_tick w) ≤ clock (w_tick w5)) as Hclk.
    { apply clock_mono, (pr_tick _ _ _ _ _ _ Hp15). }
    destruct (IH w5) as (w6 & Hrec & Hi6 & Hp6 & Hk6 & Hsu6 & Hlate & Hdue);
      [done|rewrite Hss5; simpl in *; lia|].
    assert (kept w w5) as Hk15 by (etrans; [exact Hk12|exact Hk5]).
    exists w6. split_and!; try done.
    + by eapply progress_trans.
    + by etrans.
    + by rewrite Hsu6, Hsu5.
    + intros t2 i2 Hin. apply Hlate in Hin. lia.
    + intros t2 i2 h2 Hin Hle Hh2. destruct (decide (i2 = i)) as [->|Hne].
      * change (s_syscall (ext w) !! i = Some h) in Ei. simplify_eq.
        destruct (Hk6 h Hin5) as [? ->]. split; [done|]. by exists nm.
      * apply (Hdue t2 i2 h2); [|lia|].
        -- rewrite Hss5. apply elem_of_cons in Hin as [?|?]; [by simplify_eq|done].
        -- rewrite Hsy5. simpl. by rewrite lookup_delete_ne.
  - assert (clock (w_tick w) ≤ clock (w_tick w2)) as Hclk by (apply clock_mono; simpl; lia).
    destruct (IH w2) as (w6 & Hrec & Hi6 & Hp6 & Hk6 & Hsu6 & Hlate & Hdue);
      [done|simpl in *; lia|].
    exists w6. split_and!; try done.
    + by eapply progress_trans.
    + intros t2 i2 Hin. apply Hlate in Hin. lia.
    + intros t2 i2 h2 [?|Hin]%elem_of_cons Hle Hh2.
      * simplify_eq. change (s_syscall (ext w) !! i = None) in Ei. congruence.
      * apply (Hdue t2 i2 h2); [done|lia|done].
Qed.

(** *** Resuming a coroutine *)

Context (inner_resume : handle → unit → M W (CoroutineResult unit (option Z)))
  (current_thread : Z).

(** Well-behaved bodies: a resumed body runs to its next suspension or to its
    end; it yields as a running coroutine or waiting in a system call, returns
    as a running one, leaves the states of other coroutines alone and may
    submit new ones. *)
Definition bodies_ok : Prop := ∀ h w c,
  cos w !! h = Some c →
  co_state c = Running
    ∨ (∃ y nm, co_state c = Syscall y nm Callback ∨ co_state c = Syscall y nm Timeout) →
  ∃ r w' c', inner_resume h tt w = Done r w' ∧ sched_rel w w' ∧ (w_tick w ≤ w_tick w')%nat
    ∧ (∀ h' c', h' ≠ h → cos w !! h' = Some c' → ∃ l, cos w' !! h' = Some (co_set_local l c'))
    ∧ cos w' !! h = Some c' ∧ co_id c' = co_id c
    ∧ match r with
      | CrYield _ => co_state c' = Running ∨ ∃ nm t, co_state c' = Syscall tt nm (SSuspend t)
      | CrReturn _ => co_state c' = Running
      end.

(** A body run by the scheduler keeps the scheduler's invariant. *)
Lemma body_inv h w c w' c' results :
  inv [h] w → cos w !! h = Some c → sched_rel w w' → (w_tick w ≤ w_tick w')%nat →
  (∀ h' c', h' ≠ h → cos w !! h' = Some c' → ∃ l, cos w' !! h' = Some (co_set_local l c')) →
  cos w' !! h = Some c' → co_id c' = co_id c →
  inv [h] w' ∧ progress [h] w results [h] w' results.
Proof.
  intros Hi Hc (Hsu & Hsy & Hss & Hca & Hwf & Hid & new & Hp & Hnd & Hnew) Htk Hoth Hc' Heq.
  set (w0 := set_cos (alter (λ _, c') h) w).
  assert (∀ c0, cos w !! h = Some c0 → co_id c' = co_id c0) as Hf by (intros; simplify_eq; done).
  assert (inv [h] w0) as Hi0 by (apply alter_inv; [set_solver|done|done]).
  destruct (rel_inv [h] w0 w' results) as [Hi' Hp']; try done.
  - intros h' c0. simpl. destruct (decide (h = h')) as [<-|Hn].
    + rewrite lookup_alter_eq, Hc. simpl. intros [= <-]. exists (co_local c').
      rewrite Hc'. by destruct c'.
    + rewrite lookup_alter_ne by done. by apply Hoth.
  - split_and!; try done.
    + intros _. apply Hid, Hi.
    + exists new. split_and!; try done. intros h' Hh'. apply Hnew in Hh' as [Hn ?].
      split; [|done]. simpl. rewrite lookup_alter_ne; [done|]. intros ->. congruence.
  - split; [done|]. eapply progress_trans; [|exact Hp']. apply alter_progress; [set_solver|done].
Qed.

Lemma tls_inv hs f w results :
  inv hs w → inv hs (set_tls f w) ∧ progress hs w results hs (set_tls f w) results.
Proof. intros Hi. split; [|by apply ext_progress]. split; simpl; apply Hi. Qed.

(** The states a resumption can end in. *)
Definition filed (st : CoroutineState unit (option Z)) : bool :=
  match st with
  | Syscall _ _ (SSuspend _) | Suspend _ _ | Cancelled | Complete _ | Error _ => true
  | _ => false
  end.

(** [resume]'s last operation, and the state it reports. *)
Lemma finish_spec h o st' w results :
  inv [h] w → co_state_of w h = Some Running →
  (∀ n, co_step n Running o st') → (∀ n st2, co_step n Running o st2 → st2 = st') →
  ∃ w', try_ (run_op clock listener_call h o) (λ _, mret (IoOk st')) w = Done (IoOk st') w'
    ∧ inv [h] w' ∧ progress [h] w results [h] w' results ∧ co_state_of w' h = Some st'.
Proof.
  intros Hi Hst Hs Hd.
  destruct (op_spec [h] h o Running st' w results Hi) as (w' & Hr & ? & ? & ? & _);
    [set_solver|done|by intros; apply Hs|done|].
  exists w'. split_and!; try done. unfold try_. by erewrite bind_done by exact Hr.
Qed.

Lemma state_done w h st : co_state_of w h = Some st → state h w = Done st w.
Proof.
  unfold state, with_co, co_state_of. destruct (cos w !! h); [|done]. by intros [= <-].
Qed.

Lemma raw_resume_spec h w c results :
  bodies_ok → inv [h] w → cos w !! h = Some c →
  co_state c = Running
    ∨ (∃ y nm, co_state c = Syscall y nm Callback ∨ co_state c = Syscall y nm Timeout) →
  ∃ st w', raw_resume listener_call inner_resume h tt w = Done (IoOk st) w'
    ∧ inv [h] w' ∧ progress [h] w results [h] w' results
    ∧ co_state_of w' h = Some st ∧ filed st = true.
Proof.
  intros Hb Hi Hc Hst.
  destruct (Hb h w c Hc Hst) as (r & w1 & c1 & Hin & Hrel & Htk & Hoth & Hc1 & Hid & Hr).
  destruct (body_inv h w c w1 c1 results Hi Hc Hrel Htk Hoth Hc1 Hid) as [Hi1 Hp1].
  assert (co_state_of w1 h = Some (co_state c1)) as Hst1 by (unfold co_state_of; by rewrite Hc1).
  unfold raw_resume. erewrite bind_done by exact Hin.
  assert (∀ o st w2, (∀ n, co_step n Running o st) →
    (∀ n st2, co_step n Running o st2 → st2 = st) → filed st = true → inv [h] w2 →
    progress [h] w results [h] w2 results → co_state_of w2 h = Some Running →
    ∃ st' w', try_ (run_op clock listener_call h o) (λ _, mret (IoOk st)) w2 = Done (IoOk st') w'
      ∧ inv [h] w' ∧ progress [h] w results [h] w' results
      ∧ co_state_of w' h = Some st' ∧ filed st' = true) as Hfin.
  { intros o st w2 Hs Hd Hfl Hi2 Hp2 Hst2.
    destruct (finish_spec h o st w2 results Hi2 Hst2 Hs Hd) as (w' & ? & ? & ? & ?).
    exists st, w'. split_and!; try done. by eapply progress_trans. }
  destruct r as [y|[v|m]].
  - erewrite bind_done by (by apply state_done). destruct Hr as [Hr|(nm & t & Hr)]; rewrite Hr in *.
    + erewrite bind_done by reflexivity.
      set (w2 := set_tls _ w1).
      destruct (tls_inv [h] (λ t, tls_set_cancel (tail (CANCEL t)) t) w1 results Hi1) as [Hi2 Hp2].
      assert (progress [h] w results [h] w2 results) as Hp12 by by eapply progress_trans.
      destruct (default false (head (CANCEL (tls w1)))).
      * apply (Hfin OpCancel Cancelled w2); try done; [by constructor|by inversion 1].
      * erewrite bind_done by reflexivity. set (t := default 0 _).
        set (w3 := set_tls _ w2).
        destruct (tls_inv [h] (λ t, tls_set_timestamp (tail (TIMESTAMP t)) t) w2 results Hi2)
          as [Hi3 Hp3].
        apply (Hfin (OpSuspend y t) (Suspend y t) w3); try done;
          [by constructor|by inversion 1|by eapply progress_trans].
    + eexists _, _. by split_and!.
  - apply (Hfin (OpComplete v) (Complete v) w1); try done;
      [by constructor|by inversion 1|by rewrite Hst1, Hr].
  - apply (Hfin (OpError m) (Error m) w1); try done;
      [by constructor|by inversion 1|by rewrite Hst1, Hr].
Qed.

(** What [running] does to a runnable coroutine. *)
Definition started (st : CoroutineState unit (option Z)) : CoroutineState unit (option Z) :=
  match st with Syscall y nm st => Syscall y nm st | _ => Running end.

Lemma resume_spec h w st results :
  bodies_ok → inv [h] w → co_state_of w h = Some st → runnable (clock (w_tick w)) st = true →
  ∃ st' w', resume_with clock listener_call inner_resume h tt w = Done (IoOk st') w'
    ∧ inv [h] w' ∧ progress [h] w results [h] w' results
    ∧ co_state_of w' h = Some st' ∧ filed st' = true.
Proof.
  intros Hb Hi Hst Hr. unfold resume_with. erewrite bind_done by (by apply state_done).
  destruct (tls_inv [h] (tls_push_co h) w results Hi) as [Hi1 Hp1].
  set (w1 := set_tls (tls_push_co h) w) in *.
  assert (co_state_of w1 h = Some st) as Hst1 by done.
  destruct (op_spec [h] h OpRunning st (started st) w1 results Hi1)
    as (w2 & Hrun & Hi2 & Hp2 & Hst2 & _); [set_solver|done| | |].
  { intros n Hn. destruct st as [| |y t|y nm []| | |]; simpl in Hr; try done; try constructor.
    apply Z.leb_le in Hr. simpl in Hn. lia. }
  { intros n st2 Hs. destruct st as [| |y t|y nm []| | |]; try done; by inversion Hs. }
  destruct (inv_hand _ _ Hi2 h) as [c Hc]; [set_solver|].
  destruct (raw_resume_spec h w2 c results Hb Hi2 Hc) as (st' & w3 & Hraw & Hi3 & Hp3 & Hst3 & Hfl).
  { unfold co_state_of in Hst2. rewrite Hc in Hst2. injection Hst2 as ->.
    destruct st as [| |y t|y nm []| | |]; simpl in Hr; try done; eauto. }
  destruct (tls_inv [h] tls_pop_co w3 results Hi3) as [Hi4 Hp4].
  exists st', (set_tls tls_pop_co w3). split_and!; try done.
  - assert (∀ A (k1 k2 : A), match st with Complete _ | Error _ => k1 | _ => k2 end = k2) as Hm.
    { intros. by destruct st as [| |y t|y nm []| | |]. }
    assert ((_ ← init_current h; _ <-? running clock listener_call h;
             r ← raw_resume listener_call inner_resume h tt; _ ← clean_current; mret r) w
            = Done (IoOk st') (set_tls tls_pop_co w3)) as Hgo.
    { erewrite bind_done by reflexivity. unfold try_. erewrite bind_done by exact Hrun.
      cbv beta iota. by erewrite bind_done by exact Hraw. }
    by destruct st as [| |y t|y nm []| | |].
  - eapply progress_trans; [exact Hp1|]. eapply progress_trans; [exact Hp2|].
    by eapply progress_trans.
Qed.

(** The results collected so far belong to finished coroutines the scheduler
    no longer holds. *)
Definition results_ok hs results w : Prop := ∀ i v, results !! i = Some v →
  ∃ h c, cos w !! h = Some c ∧ co_id c = i ∧ (h ∉ owned hs w)
    ∧ match v with inl r => co_state c = Complete r | inr m => co_state c = Error m end.

Lemma results_ok_progress hs w results hs' w' results' :
  progress hs w results hs' w' results' → results_ok hs results w → results_ok hs' results w'.
Proof.
  intros Hp Hr i v (h & c & Hc & Hid & Hn & Hst)%Hr.
  destruct (pr_outside _ _ _ _ _ _ Hp h) as [Hn' Hs']; [by eexists|done|].
  destruct (pr_ids _ _ _ _ _ _ Hp h c Hc) as (c' & Hc' & Hid').
  exists h, c'. unfold co_state_of in Hs'. rewrite Hc, Hc' in Hs'. injection Hs' as ->.
  split_and!; try done. congruence.
Qed.

(** Filing a coroutine: letting go of it once it is settled. *)
Lemma drop_inv h w : inv [h] w → inv [] w ∧ h ∉ containers (ext w).
Proof.
  intros Hi. pose proof (inv_nodup _ _ Hi) as Hnd. unfold owned in Hnd.
  apply NoDup_app in Hnd as (_ & Hdis & Hnd). split.
  - split; try apply Hi; [done|]. intros h' Hh'. by apply not_elem_of_nil in Hh'.
  - apply Hdis. set_solver.
Qed.

Lemma drop_progress h w results results' :
  results ⊆ results' → inv [h] w → settled w results' w h →
  progress [h] w results [] w results'.
Proof.
  intros Hsub Hi Hset. split; try done.
  - eauto.
  - intros h' _ Hn. split; [|done]. unfold owned in *. set_solver.
  - unfold owned. intros h' [->%list_elem_of_singleton|Hh']%elem_of_app; [by right|by left].
Qed.

(** Filing under the timers and in the system-call table. *)
Lemma file_suspend_inv h w t results :
  inv [h] w → co_state_of w h = Some (Suspend tt t) →
  let w' := set_ext (λ s, upd_suspend (heap_push t h (s_suspend s)) s) w in
  inv [] w' ∧ progress [h] w results [] w' results.
Proof.
  intros Hi Hst w'. assert (owned [h] w ≡ₚ owned [] w') as Ho.
  { unfold owned, containers, w'. simpl. rewrite heap_push_perm. simpl. solve_Permutation. }
  split; [|by apply ext_progress]. split; simpl; try apply Hi.
  - rewrite <-Ho. apply Hi.
  - intros h' Hh'. by apply not_elem_of_nil in Hh'.
  - apply heap_push_sorted, Hi.
  - intros t' h'. rewrite heap_push_perm. intros [?|Hin]%elem_of_cons; [by simplify_eq|].
    by apply (inv_suspend _ _ Hi).
Qed.

Lemma file_syscall_inv h w c nm t results :
  inv [h] w → cos w !! h = Some c → co_state c = Syscall tt nm (SSuspend t) →
  let w' := set_ext (λ s, upd_syscall (<[co_id c := h]> (s_syscall s)) s) w in
  inv [] w' ∧ progress [h] w results [] w' results.
Proof.
  intros Hi Hc Hst w'.
  destruct (drop_inv h w Hi) as [_ Hnot].
  assert (s_syscall (ext w) !! co_id c = None) as Hnone.
  { destruct (s_syscall (ext w) !! co_id c) as [h'|] eqn:E; [|done].
    destruct (inv_syscall _ _ Hi _ _ E) as (c' & _ & _ & Hc' & Hid & _).
    assert (h = h') as -> by (by apply (proj1 (inv_store _ _ Hi) h h' c c')).
    destruct Hnot. unfold containers. rewrite !elem_of_app. right. right.
    apply elem_of_syscall. by eexists. }
  assert (owned [h] w ≡ₚ owned [] w') as Ho.
  { unfold owned, containers, w'. simpl. rewrite map_to_list_insert by done. simpl.
    solve_Permutation. }
  split; [|by apply ext_progress]. split; simpl; try apply Hi.
  - rewrite <-Ho. apply Hi.
  - intros h' Hh'. by apply not_elem_of_nil in Hh'.
  - intros i h' [[<- <-]|[_ Hh']]%lookup_insert_Some; [by exists c, nm, t|].
    by apply (inv_syscall _ _ Hi).
Qed.

(** A result never overwrites another one. *)
Lemma results_none h w c results :
  results_ok [h] results w → cos w !! h = Some c → ids_unique w → results !! co_id c = None.
Proof.
  intros Hr Hc Hid. destruct (results !! co_id c) as [v|] eqn:E; [|done]. exfalso.
  apply Hr in E as (h' & c' & Hc' & Heq & Hn & _). apply Hn.
  rewrite (Hid h' h c' c Hc' Hc Heq). unfold owned. set_solver.
Qed.

Lemma settle_spec h w c results v :
  inv [h] w → results_ok [h] results w → cos w !! h = Some c →
  match v with inl r => co_state c = Complete r | inr m => co_state c = Error m end →
  inv [] w ∧ progress [h] w results [] w (<[co_id c := v]> results)
  ∧ results_ok [] (<[co_id c := v]> results) w ∧ results !! co_id c = None.
Proof.
  intros Hi Hr Hc Hv. destruct (drop_inv h w Hi) as [Hi' Hn].
  pose proof (results_none h w c results Hr Hc (proj1 (inv_store _ _ Hi))) as Hnone.
  split_and!; [done| | |done].
  - apply drop_progress; [by apply insert_subseteq|done|]. exists c. split; [done|].
    destruct v; rewrite Hv; by rewrite lookup_insert_eq.
  - intros i v' [[<- <-]|[Hne Hi0]]%lookup_insert_Some.
    + exists h, c. by split_and!.
    + apply Hr in Hi0 as (h' & c' & ? & ? & Hn' & ?). exists h', c'. split_and!; try done.
      unfold owned in *. set_solver.
Qed.

Lemma dispatch_spec h w c st results :
  inv [h] w → results_ok [h] results w → cos w !! h = Some c → co_state c = st →
  filed st = true →
  ∃ results' w', dispatch clock h (co_id c) st results w = Done (IoOk results') w'
    ∧ inv [] w' ∧ progress [h] w results [] w' results' ∧ results_ok [] results' w'.
Proof.
  intros Hi Hr Hc Hst Hfl.
  assert (co_state_of w h = Some st) as Hst' by (unfold co_state_of; rewrite Hc; simpl; by rewrite Hst).
  destruct st as [| |[] t|[] nm [|t| |]| |r|m]; try done; simpl.
  - erewrite bind_done by reflexivity. fold (tick_world w).
    destruct (tick_inv [h] w results Hi) as [Hi1 Hp1].
    destruct (clock (w_tick w) <? t) eqn:Et; breflect.
    + destruct (file_suspend_inv h (tick_world w) t results Hi1 Hst') as [Hi2 Hp2].
      eexists results, _. split; [reflexivity|].
      assert (progress [h] w results [] (set_ext (λ s, upd_suspend (heap_push t h (s_suspend s)) s)
        (tick_world w)) results) as Hp by by eapply progress_trans.
      split_and!; try done. by eapply results_ok_progress.
    + destruct (push_ready_spec h [] (tick_world w) (Suspend tt t) results Hi1 Hst')
        as (w2 & Hpush & Hi2 & Hp2 & _).
      { simpl. apply Z.leb_le. pose proof (clock_mono (w_tick w) (S (w_tick w))). lia. }
      erewrite bind_done by exact Hpush. exists results, w2.
      assert (progress [h] w results [] w2 results) as Hp by by eapply progress_trans.
      split_and!; try done. by eapply results_ok_progress.
  - erewrite bind_done by reflexivity.
    destruct (file_syscall_inv h w c nm t results Hi Hc Hst) as [Hi1 Hp1].
    erewrite bind_done by reflexivity.
    destruct (syscall_timer_inv [] _ (heap_push t (co_id c) (s_syscall_suspend (ext w)))
      results Hi1) as [Hi2 Hp2]; [apply heap_push_sorted, Hi|].
    eexists results, _. split; [reflexivity|].
    pose proof (progress_trans _ _ _ _ _ _ _ _ _ Hp1 Hp2) as Hp.
    split_and!; try done. by eapply results_ok_progress.
  - destruct (drop_inv h w Hi) as [Hi' _]. exists results, w.
    assert (progress [h] w results [] w results) as Hp.
    { apply drop_progress; try done. exists c. split; [done|]. by rewrite Hst. }
    split_and!; try done. by eapply results_ok_progress.
  - destruct (settle_spec h w c results (inl r) Hi Hr Hc Hst) as (Hi' & Hp & Hr' & Hnone).
    unfold mbind, M_bind, assert_. rewrite bool_decide_eq_true_2 by done. simpl.
    eexists _, _. by split_and!.
  - destruct (settle_spec h w c results (inr m) Hi Hr Hc Hst) as (Hi' & Hp & Hr' & Hnone).
    unfold mbind, M_bind, assert_. rewrite bool_decide_eq_true_2 by done. simpl.
    eexists _, _. by split_and!.
Qed.

(** Bookkeeping that concerns no container. *)
Lemma running_inv hs w m results :
  inv hs w → inv hs (set_ext (upd_running m) w)
  ∧ progress hs w results hs (set_ext (upd_running m) w) results.
Proof. intros Hi. split; [|by apply ext_progress]. split; simpl; apply Hi. Qed.

Lemma run_ready_spec h w st results :
  bodies_ok → inv [h] w → results_ok [h] results w →
  co_state_of w h = Some st → runnable (clock (w_tick w)) st = true →
  ∃ results' w', run_ready clock listener_call inner_resume current_thread h results w
      = Done (IoOk results') w'
    ∧ inv [] w' ∧ progress [h] w results [] w' results' ∧ results_ok [] results' w'.
Proof.
  intros Hb Hi Hr Hst Hrun. destruct (inv_hand _ _ Hi h) as [c Hc]; [set_solver|].
  unfold run_ready, with_co. rewrite Hc. erewrite bind_done by reflexivity.
  destruct (decide (co_id c ∈ CANCEL_COROUTINES (ext w))) as [Hin|Hin].
  - erewrite bind_done by reflexivity. set (w' := set_ext _ w).
    assert (inv [h] w') as Hi' by (split; simpl; apply Hi).
    destruct (drop_inv h w' Hi') as [Hi0 Hn].
    assert (progress [h] w results [] w' results) as Hp.
    { split; try done; simpl.
      - set_solver.
      - eauto.
      - intros h' _ Hn'. split; [|done]. unfold owned in *. simpl in *. set_solver.
      - unfold owned. intros h' [->%list_elem_of_singleton|Hh']%elem_of_app; [|by left].
        right. exists c. split; [done|]. unfold co_state_of in Hst. rewrite Hc in Hst.
        injection Hst as ->. assert (co_id c ∉ CANCEL_COROUTINES (ext w')) by set_solver.
        by destruct st as [| |y t|y nm []| | |]. }
    exists results, w'. split_and!; try done. by eapply results_ok_progress.
  - erewrite bind_done by reflexivity.
    destruct (running_inv [h] w (<[co_id c := current_thread]> (RUNNING_COROUTINES (ext w)))
      results Hi) as [Hi1 Hp1].
    set (w1 := set_ext (upd_running _) w) in *.
    destruct (resume_spec h w1 st results Hb Hi1 Hst Hrun)
      as (st' & w2 & Hres & Hi2 & Hp2 & Hst2 & Hfl).
    unfold try_. erewrite bind_done by exact Hres. cbv beta iota.
    erewrite bind_done by reflexivity.
    destruct (running_inv [h] w2 (delete (co_id c) (RUNNING_COROUTINES (ext w2))) results Hi2)
      as [Hi3 Hp3].
    set (w3 := set_ext (upd_running _) w2) in *.
    assert (progress [h] w results [h] w3 results) as Hp13.
    { eapply progress_trans; [exact Hp1|]. by eapply progress_trans. }
    destruct (pr_ids _ _ _ _ _ _ Hp13 h c Hc) as (c' & Hc' & Hid).
    destruct (dispatch_spec h w3 c' st' results Hi3) as (results' & w4 & Hd & Hi4 & Hp4 & Hr4);
      try done.
    + by eapply results_ok_progress.
    + change (co_state_of w3 h = Some st') in Hst2. unfold co_state_of in Hst2.
      rewrite Hc' in Hst2. by injection Hst2.
    + rewrite Hid in Hd. exists results', w4. split_and!; [exact Hd|done| |done].
      by eapply progress_trans.
Qed.

Lemma check_ready_spec w results :
  inv [] w →
  ∃ w', check_ready clock listener_call w = Done (IoOk tt) w' ∧ inv [] w'
    ∧ progress [] w results [] w' results
    ∧ (∀ t h, (t, h) ∈ s_suspend (ext w') → clock (w_tick w) < t)
    ∧ (∀ t i, (t, i) ∈ s_syscall_suspend (ext w') → clock (w_tick w) < t)
    ∧ (∀ t h, (t, h) ∈ s_suspend (ext w) → t ≤ clock (w_tick w) →
         h ∈ pq_elems (s_ready (ext w')) ∧ co_state_of w' h = Some Ready)
    ∧ (∀ t i h, (t, i) ∈ s_syscall_suspend (ext w) → t ≤ clock (w_tick w) →
         s_syscall (ext w) !! i = Some h →
         h ∈ pq_elems (s_ready (ext w'))
         ∧ ∃ nm, co_state_of w' h = Some (Syscall tt nm Timeout)).
Proof.
  intros Hi. unfold check_ready. erewrite bind_done by reflexivity. unfold id.
  destruct (check_suspend_spec (S (length (s_suspend (ext w)))) w results Hi)
    as (w1 & H1 & Hi1 & Hp1 & Hk1 & Hsy1 & Hss1 & Hl1 & Hd1); [lia|].
  unfold try_. erewrite bind_done by exact H1. cbv beta iota.
  destruct (check_syscall_suspend_spec (S (length (s_syscall_suspend (ext w)))) w1 results Hi1)
    as (w2 & H2 & Hi2 & Hp2 & Hk2 & Hsu2 & Hl2 & Hd2); [rewrite Hss1; lia|].
  assert (clock (w_tick w) ≤ clock (w_tick w1)) as Hclk.
  { apply clock_mono, (pr_tick _ _ _ _ _ _ Hp1). }
  exists w2. split_and!; try done.
  - by eapply progress_trans.
  - intros t h. rewrite Hsu2. apply Hl1.
  - intros t i Ht. apply Hl2 in Ht. lia.
  - intros t h Ht Hle. destruct (Hd1 t h Ht Hle) as [Hin Hst].
    destruct (Hk2 h Hin) as [? ->]. done.
  - intros t i h Ht Hle Hh. apply (Hd2 t i h); [by rewrite Hss1|lia|by rewrite Hsy1].
Qed.

Lemma do_schedule_spec fuel timeout results w (n : nat) :
  bodies_ok → inv [] w → results_ok [] results w →
  timeout ≤ clock n → (n < w_tick w + fuel)%nat → (0 < fuel)%nat →
  ∃ left results' w',
    do_schedule clock listener_call inner_resume current_thread fuel timeout results w
      = Done (IoOk (left, results')) w'
    ∧ inv [] w' ∧ progress [] w results [] w' results' ∧ results_ok [] results' w'
    ∧ 0 ≤ left
    ∧ (0 < left → pq_elems (s_ready (ext w')) = []
         ∧ ∃ k, (w_tick w ≤ k)%nat ∧ left = timeout - clock k
           ∧ (∀ t h, (t, h) ∈ s_suspend (ext w') → clock k < t)
           ∧ (∀ t i, (t, i) ∈ s_syscall_suspend (ext w') → clock k < t)).
Proof.
  intros Hb. revert results w. induction fuel as [|fuel IH]; intros results w Hi Hr Hto Hf Hpos; [lia|].
  simpl. erewrite bind_done by reflexivity. fold (tick_world w).
  destruct (tick_inv [] w results Hi) as [Hi1 Hp1].
  destruct (sat_sub timeout (clock (w_tick w)) =? 0) eqn:El; breflect.
  { exists 0, results, (tick_world w). split_and!; try done; try lia. }
  assert (clock (w_tick w) < timeout) as Hlt by (unfold sat_sub in El; lia).
  assert (w_tick w < n)%nat as Htn.
  { destruct (decide (n ≤ w_tick w)%nat) as [Hn|Hn]; [|lia]. apply clock_mono in Hn. lia. }
  destruct (check_ready_spec (tick_world w) results Hi1)
    as (w2 & Hck & Hi2 & Hp2 & Hl2 & Hl2' & _ & _).
  unfold try_. erewrite bind_done by exact Hck. cbv beta iota.
  destruct (pop_ready_spec w2 results Hi2) as (v & w3 & Hpop & Ht3 & Hc3 & Hv).
  erewrite bind_done by exact Hpop.
  assert (progress [] w results [] w2 results) as Hp12 by by eapply progress_trans.
  assert (clock (w_tick w) ≤ clock (S (w_tick w))) as Hclk by (apply clock_mono; lia).
  destruct v as [h|].
  - destruct Hv as (Hi3 & Hp3 & st & Hst & Hrun).
    assert (progress [] w results [h] w3 results) as Hp13 by by eapply progress_trans.
    destruct (run_ready_spec h w3 st results Hb Hi3) as (results' & w4 & Hrr & Hi4 & Hp4 & Hr4);
      [by eapply results_ok_progress|done|done|].
    assert (progress [] w results [] w4 results') as Hp14 by by eapply progress_trans.
    erewrite bind_done by exact Hrr. cbv beta iota.
    pose proof (pr_tick _ _ _ _ _ _ Hp2) as Htk. simpl in Htk.
    pose proof (pr_tick _ _ _ _ _ _ Hp4) as Htk4.
    destruct (IH results' w4) as (left & results'' & w5 & Hd & Hi5 & Hp5 & Hr5 & Hle & Hlast);
      try done; try lia.
    exists left, results'', w5. split_and!; try done.
    + by eapply progress_trans.
    + intros (? & k & Hk & ?)%Hlast. split; [done|]. exists k. split; [lia|done].
  - destruct Hv as (Hi3 & Hp3 & Hempty & Hsu3 & Hss3).
    assert (progress [] w results [] w3 results) as Hp13 by by eapply progress_trans.
    eexists _, results, w3. split_and!; try done.
    + by eapply results_ok_progress.
    + unfold sat_sub. lia.
    + intros _. split; [done|]. exists (w_tick w). split_and!; try done.
      * unfold sat_sub. lia.
      * intros t h. rewrite Hsu3. intros Hin%Hl2. simpl in Hin. lia.
      * intros t i. rewrite Hss3. intros Hin%Hl2'. simpl in Hin. lia.
Qed.

(** C1. Scheduling is total and loses no coroutine. Within its time budget
    (the clock reaches the deadline at its [n]-th reading, and the fuel covers
    the readings until then) [try_timeout_schedule] returns [Ok]: the invariant
    holds again, every coroutine that was held is still held or has completed
    or failed with its outcome in the results, has been cancelled, or was
    dropped on request; every result belongs to a finished coroutine; and when
    time is left, the ready queue is empty and no timer was due at the last
    look at the clock. *)
Theorem schedule_total fuel timeout w (n : nat) :
  bodies_ok → inv [] w → timeout ≤ clock n → (n < w_tick w + fuel)%nat → (0 < fuel)%nat →
  ∃ left results w',
    try_timeout_schedule clock listener_call inner_resume current_thread fuel timeout w
      = Done (IoOk (left, results)) w'
    ∧ inv [] w'
    ∧ (∀ h, h ∈ containers (ext w) → h ∈ containers (ext w') ∨ settled w results w' h)
    ∧ results_ok [] results w'
    ∧ (0 < left → pq_elems (s_ready (ext w')) = []
         ∧ ∃ k, left = timeout - clock k
           ∧ (∀ t h, (t, h) ∈ s_suspend (ext w') → clock k < t)
           ∧ (∀ t i, (t, i) ∈ s_syscall_suspend (ext w') → clock k < t)).
Proof.
  intros Hb Hi Hto Hf Hpos. unfold try_timeout_schedule. erewrite bind_done by reflexivity.
  set (w0 := set_ext _ w).
  assert (inv [] w0) as Hi0 by (split; simpl; apply Hi).
  destruct (do_schedule_spec fuel timeout ∅ w0 n Hb Hi0) as
    (left & results & w1 & Hd & Hi1 & Hp1 & Hr1 & _ & Hlast);
    [intros i v; by rewrite lookup_empty|done|exact Hf|done|].
  erewrite bind_done by exact Hd. erewrite bind_done by reflexivity.
  eexists left, results, _. split; [reflexivity|]. split_and!.
  - split; simpl; apply Hi1.
  - intros h Hh. exact (pr_owned _ _ _ _ _ _ Hp1 h Hh).
  - exact Hr1.
  - intros Hl. destruct (Hlast Hl) as (He & k & _ & ?). split; [exact He|]. by exists k.
Qed.

(** Timers fire when they are due, and only then: [check_ready] succeeds,
    makes every coroutine whose delay is over ready, times out every coroutine
    whose wait in a system call is over its deadline, leaves only timers that
    were not due when it started, and loses no coroutine. *)
Theorem check_ready_wakes_due w :
  inv [] w →
  ∃ w', check_ready clock listener_call w = Done (IoOk tt) w' ∧ inv [] w'
    ∧ (∀ h, h ∈ containers (ext w) → h ∈ containers (ext w') ∨ settled w ∅ w' h)
    ∧ (∀ t h, (t, h) ∈ s_suspend (ext w') → clock (w_tick w) < t)
    ∧ (∀ t i, (t, i) ∈ s_syscall_suspend (ext w') → clock (w_tick w) < t)
    ∧ (∀ t h, (t, h) ∈ s_suspend (ext w) → t ≤ clock (w_tick w) →
         h ∈ pq_elems (s_ready (ext w')) ∧ co_state_of w' h = Some Ready)
    ∧ (∀ t i h, (t, i) ∈ s_syscall_suspend (ext w) → t ≤ clock (w_tick w) →
         s_syscall (ext w) !! i = Some h →
         h ∈ pq_elems (s_ready (ext w'))
         ∧ ∃ nm, co_state_of w' h = Some (Syscall tt nm Timeout)).
Proof.
  intros Hi. destruct (check_ready_spec w ∅ Hi) as (w' & Hck & Hi' & Hp & Hrest).
  exists w'. split_and!; try done; try apply Hrest. apply (pr_owned _ _ _ _ _ _ Hp).
Qed.

(** A timer outlives the wait it was set for: when a wait in a system call
    ends early its timer stays, and once it is due it times out whatever system
    call the same coroutine is waiting in then, even one whose own deadline
    [deadline] lies in the future. *)
Theorem stale_timer_times_out w t i h c nm deadline :
  inv [] w → (t, i) ∈ s_syscall_suspend (ext w) → s_syscall (ext w) !! i = Some h →
  cos w !! h = Some c → co_state c = Syscall tt nm (SSuspend deadline) →
  t ≤ clock (w_tick w) < deadline →
  ∃ w' nm', check_ready clock listener_call w = Done (IoOk tt) w'
    ∧ co_state_of w' h = Some (Syscall tt nm' Timeout).
Proof.
  intros Hi Ht Hsys _ _ [Hle _].
  destruct (check_ready_spec w ∅ Hi) as (w' & Hck & _ & _ & _ & _ & _ & Hdue).
  destruct (Hdue t i h Ht Hle Hsys) as [_ [nm' Hst]]. by exists w', nm'.
Qed.

(** An operation on one coroutine leaves the state of another alone. *)
Lemma op_other h h' o w r w' :
  run_op clock listener_call h o w = Done r w' → h ≠ h' → is_Some (cos w !! h') →
  co_state_of w' h' = co_state_of w h'.
Proof.
  intros Hr Hne Hd. destruct (run_op_done_dom clock listener_call h o w r w' Hr) as [c Hc].
  destruct (run_op_spec clock listener_call sched_rel lok h o w c Hc) as (r' & w1 & Hr' & Hp).
  rewrite Hr in Hr'. injection Hr' as <- <-. destruct r.
  - destruct Hp as (st & _ & Hm). by eapply (moved_other sched_rel h h').
  - destruct Hp as [Hf _]. by eapply (frame_state sched_rel).
Qed.

Lemma try_resume_held hs w i :
  inv hs w →
  match s_syscall (ext w) !! i with
  | None => try_resume listener_call i w = Done tt w
  | Some h => ∃ nm w', try_resume listener_call i w = Done tt w' ∧ inv hs w'
      ∧ h ∈ pq_elems (s_ready (ext w')) ∧ co_state_of w' h = Some (Syscall tt nm Callback)
      ∧ s_syscall (ext w') = delete i (s_syscall (ext w))
      ∧ s_suspend (ext w') = s_suspend (ext w)
      ∧ progress hs w ∅ hs w' ∅ ∧ kept w w' ∧ tls w' = tls w
      ∧ ∀ h', h' ∈ hs → co_state_of w' h' = co_state_of w h'
  end.
Proof.
  clear inner_resume. intros Hi. unfold try_resume. erewrite bind_done by reflexivity.
  destruct (s_syscall (ext w) !! i) as [h|] eqn:Ei; [|done].
  erewrite bind_done by reflexivity.
  destruct (take_syscall_inv hs w i h ∅ Hi Ei) as (Hi1 & Hp1 & nm & t & Hst).
  set (w1 := set_ext (upd_syscall _) w) in *.
  destruct (wake_spec hs w1 h nm t Callback ∅ Hi1 Hst)
    as (w2 & w3 & Hop & Hpush & Hi3 & Hp3 & Hk3 & Hin3 & Hst3 & Ht3 & Hsu3 & Hsy3 & _); [by left|].
  erewrite bind_done by (by apply state_done). cbv beta iota.
  erewrite bind_done by exact Hop. cbv beta iota.
  exists nm, w3. split_and!; try done; [by eapply progress_trans|].
  intros h' Hh'. assert (h ≠ h') as Hne.
  { intros <-. pose proof (inv_nodup _ _ Hi1) as Hnd. unfold owned in Hnd. simpl in Hnd.
    apply NoDup_cons in Hnd as [Hn _]. apply Hn. set_solver. }
  assert (co_state_of w3 h' = co_state_of w2 h') as ->.
  { revert Hpush. unfold push_ready, with_co. destruct (cos w2 !! h); [|done].
    destruct (pq_push _ _ _); [|done]. by intros [= <-]. }
  rewrite (op_other h h' _ w1 _ w2 Hop Hne); [done|]. apply (inv_hand _ _ Hi h' Hh').
Qed.

Lemma try_resume_aux w i :
  inv [] w →
  match s_syscall (ext w) !! i with
  | None => try_resume listener_call i w = Done tt w
  | Some h => ∃ nm w', try_resume listener_call i w = Done tt w' ∧ inv [] w'
      ∧ h ∈ pq_elems (s_ready (ext w')) ∧ co_state_of w' h = Some (Syscall tt nm Callback)
      ∧ s_syscall (ext w') = delete i (s_syscall (ext w))
      ∧ s_suspend (ext w') = s_suspend (ext w)
      ∧ ∀ h', h' ∈ containers (ext w) → h' ∈ containers (ext w') ∨ settled w ∅ w' h'
  end.
Proof.
  intros Hi. pose proof (try_resume_held [] w i Hi) as H.
  destruct (s_syscall (ext w) !! i) as [h|]; [|done].
  destruct H as (nm & w' & ? & ? & ? & ? & ? & ? & Hp & _). exists nm, w'. split_and!; try done.
  exact (pr_owned _ _ _ _ _ _ Hp).
Qed.

Lemma resume_inv w i :
  inv [] w → ∃ w', try_resume listener_call i w = Done tt w' ∧ inv [] w'.
Proof.
  intros Hi. pose proof (try_resume_aux w i Hi) as Ht.
  destruct (s_syscall (ext w) !! i); [|by exists w].
  destruct Ht as (nm & w' & ? & ? & _). by exists w'.
Qed.

(** [try_resume] moves a waiting coroutine to the ready queue, marked as
    called back, and touches nothing when the coroutine is not in the
    system-call table; in both cases it returns. *)
Theorem try_resume_spec w i :
  inv [] w →
  match s_syscall (ext w) !! i with
  | None => try_resume listener_call i w = Done tt w
  | Some h => ∃ nm w', try_resume listener_call i w = Done tt w' ∧ inv [] w'
      ∧ h ∈ pq_elems (s_ready (ext w')) ∧ co_state_of w' h = Some (Syscall tt nm Callback)
      ∧ s_syscall (ext w') = delete i (s_syscall (ext w))
      ∧ s_suspend (ext w') = s_suspend (ext w)
      ∧ ∀ h', h' ∈ containers (ext w) → h' ∈ containers (ext w') ∨ settled w ∅ w' h'
  end.
Proof. apply try_resume_aux. Qed.
End with_listeners.
End properties.
