(* ===== verification/SchedulerRuns.v ===== *)
(** * SchedulerRuns: concrete schedulers

    A first-in first-out ready queue that meets the interface of [Scheduler],
    scripted coroutine bodies that meet its assumptions, and runs of the
    scheduler on them: the applications of the scheduler's theorems. *)

From stdpp Require Import sorting base numbers strings gmap list.
From S2P Require Import Prelude Common QueueIface Coroutine Scheduler.

(** ** A list as a ready queue *)

#[export] Instance fifo : PQueue handle (list handle) := {
  pq_push _ h q := Some (q ++ [h]);
  pq_pop q := Some (head q, tail q);
  pq_is_empty q := bool_decide (q = []);
  pq_local_empty q := bool_decide (q = []);
  pq_elems q := q;
  pq_wf _ := True;
}.

#[export] Instance fifo_laws : PQueueLaws handle (list handle).
Proof.
  split; simpl.
  - intros _ h q _ _. exists (q ++ [h]). split_and!; try done.
    simpl. by rewrite Permutation_app_comm.
  - intros q _. exists (head q), (tail q). split_and!; try done. destruct q; by simpl.
  - intros q _. by rewrite bool_decide_eq_true.
Qed.

(** ** Scripted bodies *)

Inductive act : Type :=
| Yield
| Sleep (timestamp : Z)
| Wait (name : SyscallName) (timestamp : Z)
| Quit
| Finish (r : option Z)
| Fail_ (msg : string).

Abbreviation S' := (Sched (list handle) unit).
Abbreviation W := (World unit (option Z) (list act) S').
Abbreviation Co := (Coroutine unit (option Z) (list act)).

Definition clock (k : nat) : Z := 100 * Z.of_nat k.
Definition listener_call (l : nat) (h : handle) (ev : event unit (option Z)) : M W unit := mret tt.

(** The coroutine enters state [st] with [k] left to do, the thread-local
    stacks change by [f], and the switch reports [r]. *)
Definition switch (h : handle) (st : CoroutineState unit (option Z)) (k : list act)
  (f : Tls → Tls) (r : CoroutineResult unit (option Z))
  : M W (CoroutineResult unit (option Z)) :=
  _ ← modify (set_cos (alter (λ c, mkCo (co_id c) (co_name c) k st (co_stack_infos c)
        (co_listeners c) (co_local c) (co_priority c)) h));
  _ ← modify (set_tls f);
  mret r.

Definition push_timestamp (t : Z) (s : Tls) : Tls := tls_set_timestamp (t :: TIMESTAMP s) s.
Definition push_cancel (s : Tls) : Tls := tls_set_cancel (true :: CANCEL s) s.

Definition inner_resume (h : handle) (_ : unit) : M W (CoroutineResult unit (option Z)) :=
  with_co h (λ c,
    match co_inner c with
    | [] => switch h Running [] id (CrReturn (inl None))
    | Yield :: k => switch h Running k id (CrYield tt)
    | Sleep t :: k => switch h Running k (push_timestamp t) (CrYield tt)
    | Wait nm t :: k => switch h (Syscall tt nm (SSuspend t)) k id (CrYield tt)
    | Quit :: k => switch h Running k push_cancel (CrYield tt)
    | Finish r :: k => switch h Running k id (CrReturn (inl r))
    | Fail_ m :: k => switch h Running k id (CrReturn (inr m))
    end).

Lemma run_clock_mono i j : (i ≤ j)%nat → clock i ≤ clock j.
Proof. unfold clock. lia. Qed.

Lemma run_listeners_fine : listeners_ok listener_call (@sched_rel (list handle) (list act) unit fifo).
Proof. intros l h ev w. exists w. split; [reflexivity|by left]. Qed.

(** A switch only concerns its own coroutine. *)
Lemma switch_ok h st k f r (w : W) c :
  cos w !! h = Some c →
  (∀ v, r = CrReturn v → st = Running) →
  (∀ y, r = CrYield y → st = Running ∨ ∃ nm t, st = Syscall tt nm (SSuspend t)) →
  ∃ r' w' c', switch h st k f r w = Done r' w' ∧ sched_rel w w' ∧ (w_tick w ≤ w_tick w')%nat
    ∧ (∀ h' c', h' ≠ h → cos w !! h' = Some c' → ∃ l, cos w' !! h' = Some (co_set_local l c'))
    ∧ cos w' !! h = Some c' ∧ co_id c' = co_id c
    ∧ match r' with
      | CrYield _ => co_state c' = Running ∨ ∃ nm t, co_state c' = Syscall tt nm (SSuspend t)
      | CrReturn _ => co_state c' = Running
      end.
Proof.
  intros Hc Hret Hy.
  assert (sched_rel w (set_tls f (set_cos (alter (λ c, mkCo (co_id c) (co_name c) k st
    (co_stack_infos c) (co_listeners c) (co_local c) (co_priority c)) h) w))) as Hrel.
  { split_and!; try done.
    - intros [Hu Hs]. split; [|simpl; by rewrite <-size_dom, dom_alter_L, size_dom].
      intros h1 h2 c1 c2. simpl. rewrite !lookup_alter_Some.
      intros [[<- (d1 & Hd1 & ->)]|[? H1]] [[<- (d2 & Hd2 & ->)]|[? H2]]; simpl; try done.
      + intros Heq. by apply (Hu h h2 d1 c2).
      + intros Heq. by apply (Hu h1 h c1 d2).
      + intros Heq. by apply (Hu h1 h2 c1 c2).
    - exists []. split_and!; [done|constructor|]. intros h' Hh'. by apply not_elem_of_nil in Hh'. }
  eexists r, _, _. split; [reflexivity|]. split; [exact Hrel|]. split; [done|]. split; [|split].
  - intros h' c' Hne Hc'. exists (co_local c'). simpl. rewrite lookup_alter_ne by done.
    rewrite Hc'. by destruct c'.
  - simpl. rewrite lookup_alter_eq, Hc. reflexivity.
  - split; [done|]. simpl. destruct r; eauto.
Qed.

Lemma bodies_fine : bodies_ok inner_resume.
Proof.
  intros h w c Hc _. unfold inner_resume, with_co. rewrite Hc.
  destruct (co_inner c) as [|[] k]; apply switch_ok; try done; try (by left); eauto.
Qed.

(** ** Runs *)

Definition empty_sched : S' := sched_new "s" 131072 [] tt.
Definition empty_world : W := mkWorld ∅ (mkTls [] [] [] [] []) 0 empty_sched.
Definition co (id : Z) (k : list act) : Co := mkCo id "co" k Ready [] [] ∅ None.

(** The world a run ended in. *)
Definition after {A} (r : outcome W A) : W :=
  match r with Done _ w | Panic _ w => w | NoFuel => empty_world end.

Definition submit (id : Z) (k : list act) (w : W) : W := after (submit_raw_co (co id k) w).
Definition schedule (fuel : nat) (t : Z) : M W (io_result (Z * gmap Z (option Z + string))) :=
  try_timeout_schedule clock listener_call inner_resume 1 fuel t.

Definition outcome_of {A} (r : outcome W A) : option A :=
  match r with Done a _ => Some a | _ => None end.

(** Results by coroutine id. *)
Definition results_of (r : outcome W (io_result (Z * gmap Z (option Z + string))))
  : option (list (Z * (option Z + string))) :=
  match r with Done (IoOk (_, m)) _ => Some (map_to_list m) | _ => None end.

Definition three : W :=
  submit 3 [Fail_ "boom"] (submit 2 [Sleep 1500; Finish (Some 2)]
    (submit 1 [Yield; Yield; Finish (Some 1)] empty_world)).

(** Three coroutines: one yields twice, one sleeps, one panics. The first call
    returns when nothing is ready; the second one finds the sleeper awake. *)
Example three_run :
  results_of (schedule 40 5000 three) = Some [(3, inr "boom"); (1, inl (Some 1))]
  ∧ s_suspend (ext (after (schedule 40 5000 three))) = [(1500, 1%nat)]
  ∧ results_of (schedule 40 5000 (after (schedule 40 5000 three))) = Some [(2, inl (Some 2))].
Proof. vm_compute. done. Qed.

(** A request to cancel a coroutine that is not running: it is dropped unrun. *)
Example cancelled_run :
  results_of ((try_cancel_coroutine 1;; schedule 40 5000) three) = Some [(3, inr "boom")].
Proof. vm_compute. done. Qed.

(** Every world built by submitting meets the invariant. *)
Lemma empty_inv : inv clock [] empty_world.
Proof.
  split; simpl; try done; try (by constructor); try (intros; set_solver).
Qed.

Lemma submit_inv id k w :
  inv clock [] w → (∀ h c, cos w !! h = Some c → co_id c ≠ id) →
  Z.of_nat (size (cos w)) < 1000 → inv clock [] (submit id k w).
Proof.
  intros Hi Hid Hs. pose proof (inv_room clock _ _ Hi).
  destruct (submit_spec (co id k) w) as (w' & Hw & Hf & _); try done; [unfold usize_max; lia|].
  unfold submit. rewrite Hw. simpl.
  by destruct (frame_inv clock run_clock_mono [] w w' ∅ Hf Hi).
Qed.

(** All the coroutines of a concrete world, by computation. *)
Definition has_id (w : W) (id : Z) : bool :=
  existsb (λ c, co_id c.2 =? id) (map_to_list (cos w)).

Lemma has_id_spec w id h c : has_id w id = false → cos w !! h = Some c → co_id c ≠ id.
Proof.
  intros Hn Hc Heq. apply Bool.not_true_iff_false in Hn. apply Hn. apply existsb_exists.
  exists (h, c). split; [|by apply Z.eqb_eq]. apply list_elem_of_In.
  by apply elem_of_map_to_list.
Qed.

Lemma three_inv : inv clock [] three.
Proof.
  apply submit_inv; [apply submit_inv; [apply submit_inv; [apply empty_inv|..]|..]|..];
    try (by vm_compute); intros h c; apply has_id_spec; by vm_compute.
Qed.

Lemma schedule_total_witness :
  ∃ left results w', schedule 60 5000 three = Done (IoOk (left, results)) w' ∧ inv clock [] w'
    ∧ results !! 1 = Some (inl (Some 1)).
Proof.
  destruct (schedule_total clock run_clock_mono listener_call run_listeners_fine inner_resume 1 60 5000
    three 50 bodies_fine three_inv) as (left & results & w' & Hr & Hi & _); [done|lia|lia|].
  exists left, results, w'. split_and!; [exact Hr|exact Hi|].
  vm_compute in Hr. injection Hr as <- <- <-. vm_compute. reflexivity.
Defined.

(** At time 2000 the sleeper of the first run is due. *)
Definition sleeper : W := after (schedule 60 5000 three).

Lemma schedule_inv fuel t (n : nat) w :
  inv clock [] w → t ≤ clock n → (n < w_tick w + fuel)%nat → (0 < fuel)%nat →
  inv clock [] (after (schedule fuel t w)).
Proof.
  intros Hi Ht Hn Hf. unfold schedule, try_timeout_schedule.
  erewrite bind_done by reflexivity. set (w0 := set_ext _ w).
  assert (inv clock [] w0) as Hi0 by (split; simpl; apply Hi).
  destruct (do_schedule_spec clock run_clock_mono listener_call run_listeners_fine inner_resume 1
    fuel t ∅ w0 n bodies_fine Hi0) as (left & results & w1 & Hd & Hi1 & _);
    [intros i v; by rewrite lookup_empty|done|exact Hn|done|].
  erewrite bind_done by exact Hd. simpl. split; simpl; apply Hi1.
Qed.

Lemma sleeper_inv : inv clock [] sleeper.
Proof. apply (schedule_inv 60 5000 50); [apply three_inv|done|vm_compute; lia|lia]. Qed.

Lemma check_ready_wakes_due_witness :
  ∃ w', check_ready clock listener_call sleeper = Done (IoOk tt) w'
    ∧ co_state_of w' 1%nat = Some Ready.
Proof.
  destruct (check_ready_wakes_due clock run_clock_mono listener_call run_listeners_fine sleeper sleeper_inv)
    as (w' & Hck & _ & _ & _ & _ & Hdue & _).
  exists w'. split; [exact Hck|]. apply (Hdue 1500 1%nat); [|by vm_compute].
  vm_compute. left.
Defined.

(** A coroutine that waits until 4000, is called back at once, and waits again
    until 900000. *)
Definition waiting : W := after (schedule 40 2000 (submit 1 [Wait read 4000; Wait write 900000] empty_world)).
Definition waiting_again : W :=
  after ((try_resume listener_call 1;; schedule 60 4000) waiting).

Lemma waiting_inv : inv clock [] waiting.
Proof.
  apply (schedule_inv 40 2000 20); [|done|vm_compute; lia|lia].
  apply submit_inv; [apply empty_inv| |by vm_compute].
  intros h c; apply has_id_spec; by vm_compute.
Qed.

Lemma try_resume_spec_witness :
  ∃ nm w', try_resume listener_call 1 waiting = Done tt w' ∧ inv clock [] w'
    ∧ co_state_of w' 0%nat = Some (Syscall tt nm Callback).
Proof.
  pose proof (try_resume_spec clock run_clock_mono listener_call run_listeners_fine waiting 1 waiting_inv)
    as Ht.
  assert (s_syscall (ext waiting) !! 1 = Some 0%nat) as Hs by (vm_compute; reflexivity).
  rewrite Hs in Ht. destruct Ht as (nm & w' & Hr & Hi & _ & Hst & _). by exists nm, w'.
Defined.

(** Both timers are in the heap; the first one belongs to the finished wait. *)
Example two_timers :
  s_syscall_suspend (ext waiting_again) = [(4000, 1); (900000, 1)].
Proof. vm_compute. reflexivity. Qed.

Lemma waiting_again_inv : inv clock [] waiting_again.
Proof.
  destruct (resume_inv clock run_clock_mono listener_call run_listeners_fine waiting 1 waiting_inv)
    as (w' & Hr & Hi).
  unfold waiting_again. erewrite bind_done by exact Hr.
  apply (schedule_inv 60 4000 40); [exact Hi|done| |lia].
  vm_compute in Hr. injection Hr as <-. simpl. lia.
Qed.

Lemma stale_timer_times_out_witness :
  ∃ w' nm', check_ready clock listener_call
      (mkWorld (cos waiting_again) (tls waiting_again) 45 (ext waiting_again)) = Done (IoOk tt) w'
    ∧ co_state_of w' 0%nat = Some (Syscall tt nm' Timeout).
Proof.
  apply (stale_timer_times_out clock run_clock_mono listener_call run_listeners_fine
    (mkWorld (cos waiting_again) (tls waiting_again) 45 (ext waiting_again))
    4000 1 0%nat (mkCo 1 "co" [] (Syscall tt write (SSuspend 900000)) [] [] ∅ None) write 900000);
    [|vm_compute; left|vm_compute; reflexivity|vm_compute; reflexivity|done|by vm_compute].
  apply (later_inv clock run_clock_mono [] waiting_again); [apply waiting_again_inv|vm_compute; lia].
Defined.
