(* ===== verification/OrderedReady.v ===== *)
(** * OrderedReady: the priority queue as the scheduler's ready queue

    The scheduler is verified against the interface [PQueue]; here the
    handle and the shared queue of [OrderedWorkSteal] implement it, for a
    scheduler whose sibling queues are not in use. The fuel of the two
    operations is computed from the queue: the local counter for a push, the
    retries the shared queues can ask for a pop. *)

From stdpp Require Import sorting base numbers strings gmap list.
From S2P Require Import Prelude QueueIface OrderedWorkSteal Coroutine.

Section ordered_ready.
Context {T I W : Type} {SM : Type → Type}
  `{!Injector T I, !Worker T W, !SkipMap SM}
  `{!InjectorLaws T I, !WorkerLaws T W, !SkipMapLaws SM}.
#[local] Existing Instance skipmap_inhabited.
Abbreviation queue := (OrderedWorkStealQueue I W SM).
Implicit Types (q : queue) (l : OrderedLocalQueue) (i j : nat).

(** The local queues other than the own one. *)
Definition others l q q' : Prop :=
  ∀ i, i ≠ ol_queue l → o_locals q' !! i = o_locals q !! i.

Lemma others_refl l q : others l q q.
Proof. done. Qed.

Lemma others_trans l q1 q2 q3 : others l q1 q2 → others l q2 q3 → others l q1 q3.
Proof. intros H1 H2 i Hi. by rewrite H2, H1. Qed.

Lemma set_my_others l q m : others l q (o_set_local q (ol_queue l) m).
Proof. intros i Hi. simpl. by rewrite list_lookup_insert_ne. Qed.

Lemma entry_pop_others l k q v q' : entry_pop l k q = (v, q') → others l q q'.
Proof.
  unfold entry_pop. destruct (sm_get (my_map l q) k); [|by intros; simplify_eq].
  destruct (w_pop w). intros; simplify_eq. apply set_my_others.
Qed.

Lemma ptg_pass_others keys d count l q d' q' :
  ptg_pass keys d count l q = (d', q') → others l q q'.
Proof.
  revert d q. induction keys as [|k keys IH]; intros d q; simpl; [by intros; simplify_eq|].
  destruct (count <=? d); [by intros; simplify_eq|].
  destruct (entry_pop l k q) as [[x|] q1] eqn:E; intros Hr; apply IH in Hr;
    apply entry_pop_others in E; by eapply others_trans.
Qed.

Lemma ptg_loop_others fuel d count l q q' :
  ptg_loop fuel d count l q = Some q' → others l q q'.
Proof.
  revert d q. induction fuel as [|fuel IH]; intros d q; simpl;
    (destruct (d <? count); [|by intros; simplify_eq]); [done|].
  destruct (ptg_pass _ d count l q) as [d1 q1] eqn:E. intros Hr. apply IH in Hr.
  apply ptg_pass_others in E. by eapply others_trans.
Qed.

Lemma push_to_global_others fuel p x l q l' q' :
  push_to_global fuel p x l q = Some (l', q') →
  others l q q' ∧ ol_stealing l' = ol_stealing l.
Proof.
  unfold push_to_global. destruct (ptg_loop _ _ _ _ _) as [q1|] eqn:E; [|done].
  intros; simplify_eq/=. apply ptg_loop_others in E. split; [|done]. intros i Hi. by apply E.
Qed.

Lemma push_others fuel p x l q l' q' :
  ol_push_with_priority fuel p x l q = Some (l', q') →
  others l q q' ∧ ol_stealing l' = ol_stealing l.
Proof.
  unfold ol_push_with_priority. destruct (is_local_full l q); [apply push_to_global_others|].
  destruct (w ← _; w_push w x) as [w|]; intros Hr.
  - simplify_eq/=. split; [|done]. eapply others_trans; apply set_my_others.
  - apply push_to_global_others in Hr as [Ho Hs]. split; [|done].
    eapply others_trans; [apply set_my_others|done].
Qed.

Lemma o_pop_locals fuel q v q' : o_pop fuel q = Some (v, q') → o_locals q' = o_locals q.
Proof.
  unfold o_pop. destruct (o_is_empty q); [by intros; simplify_eq|].
  generalize ((sm_iter (o_shared q)).*1). intros keys. revert q.
  induction keys as [|k keys IH]; intros q; simpl; [by intros; simplify_eq|].
  destruct (sm_get (o_shared q) k) as [inj|]; [|apply IH].
  destruct (steal_retry fuel inj) as [[[x|] inj']|]; [by intros; simplify_eq| |done].
  intros Hr. by apply IH in Hr.
Qed.

Lemma pop_local_others l q v l' q' :
  pop_local l q = (v, l', q') → others l q q' ∧ ol_queue l' = ol_queue l.
Proof.
  unfold pop_local. generalize ((sm_iter (my_map l q)).*1). intros keys. revert q.
  induction keys as [|k keys IH]; intros q; simpl; [by intros; simplify_eq|].
  destruct (entry_pop l k q) as [[x|] q1] eqn:E; apply entry_pop_others in E; intros Hr.
  - by simplify_eq.
  - apply IH in Hr as [Ho ?]. split; [by eapply others_trans|done].
Qed.

(** "Stealing" from the own queue touches the own queue only. *)
Lemma steal_self_others keys l q b l' q' :
  steal_entries (ol_queue l) keys l q = (b, l', q') → others l q q' ∧ ol_queue l' = ol_queue l.
Proof.
  revert q. induction keys as [|k keys IH]; intros q; simpl; [by intros; simplify_eq|].
  destruct (another ← _; sm_get another k) as [worker|]; [|apply IH].
  destruct (w_is_empty worker); [apply IH|].
  destruct (sm_get _ k) as [into|].
  - destruct (w_steal worker into _) as [[[n|] worker'] into']; intros Hr.
    + simplify_eq/=. split; [|done].
      repeat (eapply others_trans; [|apply set_my_others]). apply others_refl.
    + apply IH in Hr as [Ho ?]. split; [|done]. eapply others_trans; [|exact Ho].
      repeat (eapply others_trans; [|apply set_my_others]). apply others_refl.
  - intros Hr. apply IH in Hr as [Ho ?]. split; [|done].
    eapply others_trans; [apply set_my_others|done].
Qed.

(** The other local queues have never been used. *)
Definition unused l q : Prop :=
  ∀ i m, i ≠ ol_queue l → o_locals q !! i = Some m → sm_iter m = [].

Lemma unused_others l q q' : others l q q' → unused l q → unused l q'.
Proof. intros Ho Hu i m Hi. rewrite (Ho i Hi). by apply Hu. Qed.

Lemma steal_siblings_others idxs l q b l' q' :
  unused l q → steal_siblings idxs l q = (b, l', q') → others l q q' ∧ ol_queue l' = ol_queue l.
Proof.
  revert l q. induction idxs as [|i idxs IH]; intros l q Hu; simpl; [by intros; simplify_eq|].
  destruct (o_locals q !! i) as [another|] eqn:Ei; [|by apply IH].
  destruct (negb _); [by intros; simplify_eq|]. simpl.
  destruct (decide (i = ol_queue l)) as [->|Hne].
  - destruct (steal_entries _ _ l q) as [[b1 l1] q1] eqn:E. apply steal_self_others in E as [Ho Hq].
    destruct b1; [by intros; simplify_eq|]. intros Hr.
    apply IH in Hr as [Ho' Hq'].
    + split; [|congruence]. intros j Hj. rewrite Ho' by congruence. by apply Ho.
    + intros j m Hj. rewrite Ho by congruence. apply Hu. congruence.
  - rewrite (Hu i another Hne Ei). simpl. by apply IH.
Qed.

Lemma pop_steal_others fuel start l q v l' q' :
  unused l q → o_pop_steal fuel start l q = Some (v, l', q') →
  others l q q' ∧ ol_queue l' = ol_queue l.
Proof.
  intros Hu. unfold o_pop_steal, o_try_lock.
  destruct (ol_stealing l); simpl.
  - destruct (o_pop fuel q) as [[v1 q1]|] eqn:E; [|done]. intros; simplify_eq/=.
    apply o_pop_locals in E. split; [|done]. intros i _. by rewrite E.
  - set (l2 := mkOLQ (ol_tick l) true (ol_queue l) (ol_len l)).
    destruct (steal_siblings _ l2 q) as [[b l3] q3] eqn:Es.
    apply steal_siblings_others in Es as [Ho3 Hq3]; [|done]. simpl in Hq3. destruct b.
    + destruct (pop_local (o_release_lock l3) q3) as [[v4 l4] q4] eqn:Ep.
      apply pop_local_others in Ep as [Ho4 Hq4]. simpl in *. intros; simplify_eq.
      split; [|congruence]. intros i Hi. rewrite Ho4 by (simpl; congruence). by apply Ho3.
    + destruct (o_pop fuel q3) as [[v4 q4]|] eqn:Ep; [|done]. intros; simplify_eq/=.
      apply o_pop_locals in Ep. split; [|congruence]. intros i Hi. rewrite Ep. by apply Ho3.
Qed.

Lemma pop_others fuel start l q v l' q' :
  unused l q → ol_pop fuel start l q = Some (v, l', q') →
  others l q q' ∧ ol_queue l' = ol_queue l.
Proof.
  intros Hu. unfold ol_pop. destruct (o_tick l) as [t l1] eqn:Et.
  apply o_tick_queue in Et as (Hlq & _ & _).
  destruct (if t mod 61 =? 0 then o_pop fuel q else Some (None, q)) as [[v1 q1]|] eqn:E1; [|done].
  assert (o_locals q1 = o_locals q) as Hq1.
  { destruct (t mod 61 =? 0); [by eapply o_pop_locals|by simplify_eq]. }
  simpl. destruct v1 as [x|].
  { intros; simplify_eq. split; [|done]. intros i _. by rewrite Hq1. }
  destruct (pop_local l1 q1) as [[v2 l2] q2] eqn:E2.
  apply pop_local_others in E2 as [Ho2 Hq2].
  assert (others l q q2) as Ho12.
  { intros i Hi. rewrite Ho2 by congruence. by rewrite Hq1. }
  destruct v2 as [x|].
  { intros; simplify_eq. split; [done|congruence]. }
  intros Hr. apply pop_steal_others in Hr as [Ho3 Hq3].
  - split; [|congruence]. intros i Hi. rewrite Ho3 by congruence. by apply Ho12.
  - intros i m Hi. rewrite Ho12 by congruence. apply Hu. congruence.
Qed.

(** ** The ready queue *)

Record ready_queue : Type := mkRQ {
  r_queue : queue;
  r_local : OrderedLocalQueue;
  r_random : nat → Z;
  r_draws : nat;
}.

(** More retries than any shared queue asks for. *)
Definition pop_fuel q : nat :=
  S (foldr Nat.max 0%nat ((λ kv, inj_retries kv.2) <$> sm_iter (o_shared q))).

#[export] Instance ordered_ready : PQueue T ready_queue := {
  pq_push p h r :=
    match ol_push_with_priority (Z.to_nat (ol_len (r_local r))) p h (r_local r) (r_queue r) with
    | Some (l, q) => Some (mkRQ q l (r_random r) (r_draws r))
    | None => None
    end;
  pq_pop r :=
    match ol_pop (pop_fuel (r_queue r))
            (r_random r (r_draws r) mod Zlen (o_locals (r_queue r)))
            (r_local r) (r_queue r) with
    | Some (v, l, q) => Some (v, mkRQ q l (r_random r) (S (r_draws r)))
    | None => None
    end;
  pq_is_empty r := ol_is_empty (r_queue r);
  pq_local_empty r := is_local_empty (r_local r) && is_global_empty (r_queue r);
  pq_elems r := (o_elems (T:=T) (r_queue r)).*2;
  pq_wf r := o_wf (r_queue r) ∧ ol_wf (r_local r) (r_queue r)
    ∧ ol_exact (r_local r) (r_queue r) ∧ ol_stealing (r_local r) = false
    ∧ unused (r_local r) (r_queue r);
}.

Lemma pop_fuel_enough q : retries_below (pop_fuel q) ((sm_iter (o_shared q)).*1) q.
Proof.
  intros k inj _ Hk. apply al_get_elem_of in Hk. unfold pop_fuel.
  assert (inj_retries inj ≤ foldr Nat.max 0 ((λ kv, inj_retries kv.2) <$> sm_iter (o_shared q)))%nat;
    [|lia].
  revert Hk. generalize (sm_iter (o_shared q)). intros r.
  induction r as [|[k' inj'] r IH]; [by intros Hk%not_elem_of_nil|].
  intros [?|Hk]%elem_of_cons; [simplify_eq; apply Nat.le_max_l|].
  etrans; [by apply IH|]. apply Nat.le_max_r.
Qed.

Lemma unused_idle l q : unused l q → o_siblings_idle l q.
Proof.
  intros Hu i m k w Hi Hm Hk. unfold sm_get in Hk. by rewrite (Hu i m Hi Hm) in Hk.
Qed.

(** The priority queue keeps the promises the scheduler relies on: a push
    returns and adds its coroutine, a pop returns and takes one out, and finds
    nothing only when the queue is empty. *)
Lemma ordered_ready_ok : PQueueLaws T ready_queue.
Proof.
  split.
  - intros p h r (Hq & Hl & Hx & Hs & Hu) Hroom. simpl in *.
    pose proof (local_bound _ _ Hl) as Hb.
    assert (Zlen (o_elems (r_queue r)).*2 = Zlen (o_elems (r_queue r))) as Hz.
    { unfold Zlen. by rewrite length_fmap. }
    assert (0 ≤ ol_len (r_local r)) as Hnn by (rewrite Hx; apply Zlen_nonneg).
    destruct (ol_push_spec (Z.to_nat (ol_len (r_local r))) p h _ _ Hq Hl Hx)
      as (l' & q' & Hpush & He & Hq' & Hl' & Hx' & Hlq).
    { rewrite Hx. destruct Hq as (-> & _). lia. }
    { lia. }
    rewrite Hpush. eexists. split; [done|]. apply push_others in Hpush as [Ho Hs'].
    simpl. split.
    + split_and!; try done; [congruence|]. intros i m. rewrite Hlq. intros Hi.
      rewrite Ho by done. by apply Hu.
    + by rewrite He.
  - intros r (Hq & Hl & Hx & Hs & Hu). simpl in *.
    destruct (ol_pop_spec (pop_fuel (r_queue r))
      (r_random r (r_draws r) mod Zlen (o_locals (r_queue r))) _ _ Hq Hl Hx Hs)
      as (v & l' & q' & Hpop & Hq' & Hl' & Hx' & Hs' & Hv).
    { by apply unused_idle. }
    { apply pop_fuel_enough. }
    { apply Z.mod_pos_bound. unfold ol_wf, Zlen in *. lia. }
    rewrite Hpop. eexists _, _. split; [done|].
    apply pop_others in Hpop as [Ho Hlq]; [|done]. simpl. split.
    + split_and!; try done. intros i m. rewrite Hlq. intros Hi. rewrite Ho by done. by apply Hu.
    + destruct v as [h|]; simpl in Hv.
      * destruct Hv as [k Hk]. by rewrite Hk.
      * destruct Hv as [Hn Hn']. by rewrite Hn, Hn'.
  - intros r (Hq & _). simpl. unfold ol_is_empty. rewrite ol_full_len_spec, Z.eqb_eq by done.
    split; [intros Hz%Zlen_zero; by rewrite Hz|]. intros Hn.
    by apply fmap_nil_inv in Hn as ->.
Qed.

#[export] Instance ordered_ready_laws : PQueueLaws T ready_queue := ordered_ready_ok.

End ordered_ready.

(** ** A concrete queue *)

Module OrderedReadyExamples.
Import ListQueues.


Definition new : @ready_queue (list_injector handle) (list_worker handle) list_skipmap :=
  mkRQ (o_new 2 4) (mkOLQ 0 false 0 0) (λ _, 0) 0.

Definition push (p : Z) (h : handle)
  (r : @ready_queue (list_injector handle) (list_worker handle) list_skipmap) :=
  default r (pq_push p h r).

Fixpoint drain (n : nat) (r : @ready_queue (list_injector handle) (list_worker handle) list_skipmap)
  : list (option handle) :=
  match n with
  | O => []
  | S n => match pq_pop r with Some (v, r) => v :: drain n r | None => [] end
  end.

(** Coroutines come out by priority. *)
Example drained_by_priority :
  drain 4 (push 0 1 (push (-5) 2 (push 9 3 new)))
  = [Some 2%nat; Some 1%nat; Some 3%nat; None].
Proof. vm_compute. reflexivity. Qed.
End OrderedReadyExamples.
