(* ===== verification/CoPool.v ===== *)
(** * CoPool: the coroutine pool

    Models [core/src/co_pool]: the pool's state machine ([state.rs]), tasks
    ([task.rs]), the listener that keeps the number of workers
    ([creator.rs]) and the pool itself ([mod.rs]). The pool is the extension of
    the scheduler's state. Parameters: the task queue through the interface
    [PQueue], the closures of tasks ([call]) and workers ([worker]), names and
    stacks of new coroutines, what other threads do while a thread waits for a
    result ([env_wait]), and the delivery of a signal. *)

From stdpp Require Import sorting base numbers strings gmap list.
From S2P Require Import Prelude Common QueueIface Coroutine Scheduler.

(** [Task]; [F] is the type of the boxed closures. *)
Record Task (F : Type) : Type := mkTask {
  t_id : Z;
  t_name : string;
  t_func : F;
  t_param : option Z;
  t_priority : option Z;
}.
Arguments mkTask {F}.
Arguments t_id {F}.
Arguments t_name {F}.
Arguments t_func {F}.
Arguments t_param {F}.
Arguments t_priority {F}.

Section co_pool.
Context {RQ TQ I F X : Type} `{!PQueue handle RQ, !PQueue (Task F) TQ}.
Abbreviation Ret := (option Z).

Record Pool : Type := mkPool {
  p_state : PoolState;
  p_task_queue : TQ;
  p_running : Z;
  p_pop_fail_times : Z;
  p_min_size : Z;
  p_max_size : Z;
  p_keep_alive_time : Z;
  p_blocker : bool;
  p_waits : gmap Z nat;
  p_pending : gmap nat bool;
  p_results : gmap Z (Ret + string);
  p_no_waits : gset Z;
  RUNNING_TASKS : gmap Z Z;
  CANCEL_TASKS : gset Z;
  COROUTINE_POOL : nat;
  p_ext : X;
}.

Abbreviation Sc := (Sched RQ Pool).
Abbreviation W := (World unit Ret I Sc).

Variable clock : nat → Z.
Variable listener_call : nat → handle → event unit Ret → M W unit.
Variable inner_resume : handle → unit → M W (CoroutineResult unit Ret).
Variable current_thread : Z.
Variable call : F → option Z → M W Ret.
Variable worker : Z → I.
Variable hash : string → Z.
Variable alloc : Z → io_result StackInfo.
Variable page : Z.
Variable uuid : W → string.
Variable env_wait : nat → Z → M W unit.
Variable signal : Z → M W unit.

Definition upd_pool (f : Pool → Pool) (s : Sc) : Sc :=
  mkSched (s_name s) (s_stack_size s) (s_listeners s) (s_ready s) (s_suspend s) (s_syscall s)
    (s_syscall_suspend s) (RUNNING_COROUTINES s) (CANCEL_COROUTINES s) (SCHEDULER s)
    (f (s_ext s)).

Definition the_pool (w : W) : Pool := s_ext (ext w).
Definition pool {A} (f : Pool → A) : M W A := gets (λ w, f (the_pool w)).
Definition on_pool (f : Pool → Pool) : M W unit := modify (set_ext (upd_pool f)).

(** Field updates. *)
Definition p_set_state (x : PoolState) (p : Pool) : Pool :=
  mkPool x (p_task_queue p) (p_running p) (p_pop_fail_times p) (p_min_size p) (p_max_size p)
    (p_keep_alive_time p) (p_blocker p) (p_waits p) (p_pending p) (p_results p) (p_no_waits p)
    (RUNNING_TASKS p) (CANCEL_TASKS p) (COROUTINE_POOL p) (p_ext p).
Definition p_set_queue (x : TQ) (p : Pool) : Pool :=
  mkPool (p_state p) x (p_running p) (p_pop_fail_times p) (p_min_size p) (p_max_size p)
    (p_keep_alive_time p) (p_blocker p) (p_waits p) (p_pending p) (p_results p) (p_no_waits p)
    (RUNNING_TASKS p) (CANCEL_TASKS p) (COROUTINE_POOL p) (p_ext p).
Definition p_set_running (x : Z) (p : Pool) : Pool :=
  mkPool (p_state p) (p_task_queue p) x (p_pop_fail_times p) (p_min_size p) (p_max_size p)
    (p_keep_alive_time p) (p_blocker p) (p_waits p) (p_pending p) (p_results p) (p_no_waits p)
    (RUNNING_TASKS p) (CANCEL_TASKS p) (COROUTINE_POOL p) (p_ext p).
Definition p_set_pop_fail (x : Z) (p : Pool) : Pool :=
  mkPool (p_state p) (p_task_queue p) (p_running p) x (p_min_size p) (p_max_size p)
    (p_keep_alive_time p) (p_blocker p) (p_waits p) (p_pending p) (p_results p) (p_no_waits p)
    (RUNNING_TASKS p) (CANCEL_TASKS p) (COROUTINE_POOL p) (p_ext p).
Definition p_set_sizes (mi ma ka : Z) (p : Pool) : Pool :=
  mkPool (p_state p) (p_task_queue p) (p_running p) (p_pop_fail_times p) mi ma
    ka (p_blocker p) (p_waits p) (p_pending p) (p_results p) (p_no_waits p)
    (RUNNING_TASKS p) (CANCEL_TASKS p) (COROUTINE_POOL p) (p_ext p).
Definition p_set_blocker (x : bool) (p : Pool) : Pool :=
  mkPool (p_state p) (p_task_queue p) (p_running p) (p_pop_fail_times p) (p_min_size p)
    (p_max_size p) (p_keep_alive_time p) x (p_waits p) (p_pending p) (p_results p) (p_no_waits p)
    (RUNNING_TASKS p) (CANCEL_TASKS p) (COROUTINE_POOL p) (p_ext p).
Definition p_set_waits (x : gmap Z nat) (y : gmap nat bool) (p : Pool) : Pool :=
  mkPool (p_state p) (p_task_queue p) (p_running p) (p_pop_fail_times p) (p_min_size p)
    (p_max_size p) (p_keep_alive_time p) (p_blocker p) x y (p_results p) (p_no_waits p)
    (RUNNING_TASKS p) (CANCEL_TASKS p) (COROUTINE_POOL p) (p_ext p).
Definition p_set_results (x : gmap Z (Ret + string)) (p : Pool) : Pool :=
  mkPool (p_state p) (p_task_queue p) (p_running p) (p_pop_fail_times p) (p_min_size p)
    (p_max_size p) (p_keep_alive_time p) (p_blocker p) (p_waits p) (p_pending p) x (p_no_waits p)
    (RUNNING_TASKS p) (CANCEL_TASKS p) (COROUTINE_POOL p) (p_ext p).
Definition p_set_no_waits (x : gset Z) (p : Pool) : Pool :=
  mkPool (p_state p) (p_task_queue p) (p_running p) (p_pop_fail_times p) (p_min_size p)
    (p_max_size p) (p_keep_alive_time p) (p_blocker p) (p_waits p) (p_pending p) (p_results p) x
    (RUNNING_TASKS p) (CANCEL_TASKS p) (COROUTINE_POOL p) (p_ext p).
Definition p_set_running_tasks (x : gmap Z Z) (p : Pool) : Pool :=
  mkPool (p_state p) (p_task_queue p) (p_running p) (p_pop_fail_times p) (p_min_size p)
    (p_max_size p) (p_keep_alive_time p) (p_blocker p) (p_waits p) (p_pending p) (p_results p)
    (p_no_waits p) x (CANCEL_TASKS p) (COROUTINE_POOL p) (p_ext p).
Definition p_set_cancel (x : gset Z) (p : Pool) : Pool :=
  mkPool (p_state p) (p_task_queue p) (p_running p) (p_pop_fail_times p) (p_min_size p)
    (p_max_size p) (p_keep_alive_time p) (p_blocker p) (p_waits p) (p_pending p) (p_results p)
    (p_no_waits p) (RUNNING_TASKS p) x (COROUTINE_POOL p) (p_ext p).
Definition p_set_current (x : nat) (p : Pool) : Pool :=
  mkPool (p_state p) (p_task_queue p) (p_running p) (p_pop_fail_times p) (p_min_size p)
    (p_max_size p) (p_keep_alive_time p) (p_blocker p) (p_waits p) (p_pending p) (p_results p)
    (p_no_waits p) (RUNNING_TASKS p) (CANCEL_TASKS p) x (p_ext p).

(** [CoroutinePool::new]: a scheduler with the listener [creator], whose
    extension is the pool; [task_queue] is a local handle of the global queue. *)
Definition pool_new (name : string) (stack_size : Z) (ready : RQ) (task_queue : TQ)
  (creator : nat) (min_size max_size keep_alive_time : Z) (x : X) : Sc :=
  let pool := mkPool PRunning task_queue 0 0 min_size max_size keep_alive_time false ∅ ∅ ∅ ∅
                ∅ ∅ 0 x in
  let s := sched_new name stack_size ready pool in
  mkSched (s_name s) (s_stack_size s) (s_listeners s ++ [creator]) (s_ready s) (s_suspend s)
    (s_syscall s) (s_syscall_suspend s) (RUNNING_COROUTINES s) (CANCEL_COROUTINES s)
    (SCHEDULER s) (s_ext s).

(** ** state.rs *)

Definition p_change_state (old_state new_state : PoolState) : M W (io_result PoolState) :=
  current ← pool p_state;
  if decide (current = new_state) then mret (IoOk old_state)
  else if decide (current = old_state) then
    _ ← on_pool (p_set_state new_state);
    mret (IoOk old_state)
  else mret (IoErr (Other "unexpected state")).

Definition stopping : M W (io_result PoolState) := p_change_state PRunning PStopping.
Definition stopped : M W (io_result PoolState) := p_change_state PStopping PStopped.

(** ** task.rs *)

Definition task_new (name : string) (func : F) (param : option Z) (priority : option Z)
  : Task F := mkTask (hash name) name func param priority.

(** [Task::run]: the name and the result, or the message of the panic. *)
Definition task_run (task : Task F) : M W (string * (Ret + string)) :=
  r ← catch_unwind (call (t_func task) (t_param task));
  mret (t_name task, r).

(** ** mod.rs: sizes *)

Definition set_min_size (min_size : Z) : M W unit :=
  on_pool (λ p, p_set_sizes min_size (p_max_size p) (p_keep_alive_time p) p).
Definition set_max_size (max_size : Z) : M W unit :=
  on_pool (λ p, p_set_sizes (p_min_size p) max_size (p_keep_alive_time p) p).
Definition set_keep_alive_time (keep_alive_time : Z) : M W unit :=
  on_pool (λ p, p_set_sizes (p_min_size p) (p_max_size p) keep_alive_time p).
Definition pool_is_empty : M W bool := pool (λ p, pq_is_empty (p_task_queue p)).
Definition pool_is_local_empty : M W bool := pool (λ p, pq_local_empty (p_task_queue p)).

(** ** mod.rs: workers *)

Definition can_recycle (p : Pool) : bool :=
  match p_state p with PRunning => false | PStopping | PStopped => true end.

(** [CoroutinePool::submit_co] *)
Definition pool_submit_co (f : I) (stack_size priority : option Z) : M W (io_result unit) :=
  p ← pool id;
  if p_max_size p <=? p_running p then
    mret (IoErr (Other "The coroutine pool has reached its maximum size !"))
  else
    u ← gets uuid;
    _ <-? submit_co hash alloc page u f stack_size priority;
    _ ← on_pool (λ p, p_set_running (wrap 64 (p_running p + 1)) p);
    mret (IoOk tt).

Definition try_grow : M W (io_result unit) :=
  e ← pool_is_empty;
  if (e : bool) then mret (IoOk tt)
  else
    create_time ← now_ clock;
    pool_submit_co (worker create_time) None None.

(** creator.rs: [CoroutineCreator::on_state_changed]. *)
Definition creator (ev : event unit Ret) : M W unit :=
  cur ← pool COROUTINE_POOL;
  match ev with
  | on_state_changed _ new_state =>
      match new_state with
      | Suspend _ _ | Syscall _ _ _ =>
          match cur with O => mret tt | S _ => _ ← try_grow; mret tt end
      | Complete _ =>
          match cur with
          | O => mret tt
          | S _ => on_pool (λ p, p_set_running (sat_sub (p_running p) 1) p)
          end
      | Cancelled | Error _ =>
          match cur with
          | O => mret tt
          | S _ =>
              _ ← on_pool (λ p, p_set_running (sat_sub (p_running p) 1) p);
              _ ← try_grow; mret tt
          end
      | _ => mret tt
      end
  | _ => mret tt
  end.

Definition reset_pop_fail_times : M W unit := on_pool (p_set_pop_fail 0).

(** [CondvarBlocker::block] consumes a notification; [notify] leaves one. *)
Definition blocker_block : M W unit := on_pool (p_set_blocker false).
Definition blocker_notify : M W unit := on_pool (p_set_blocker true).

(** ** mod.rs: tasks and results *)

Definition notify (task_id : Z) : M W unit :=
  p ← pool id;
  match p_waits p !! task_id with
  | Some arc =>
      on_pool (p_set_waits (delete task_id (p_waits p)) (<[arc := false]> (p_pending p)))
  | None => mret tt
  end.

Definition submit_raw_task (task : Task F) : M W unit :=
  p ← pool id;
  match pq_push (default 0 (t_priority task)) task (p_task_queue p) with
  | Some q => _ ← on_pool (p_set_queue q); blocker_notify
  | None => out_of_fuel
  end.

Definition submit_task (name : option string) (func : F) (param : option Z)
  (priority : option Z) : M W (io_result Z) :=
  p ← pool id;
  match p_state p with
  | PRunning =>
      s ← sched s_name;
      u ← gets uuid;
      let task := task_new (default (s +:+ "@" +:+ u) name) func param priority in
      _ ← submit_raw_task task;
      mret (IoOk (t_id task))
  | PStopping | PStopped =>
      mret (IoErr (Other "The coroutine pool is stopping or stopped !"))
  end.

Definition try_take_task_result (task_id : Z) : M W (option (Ret + string)) :=
  p ← pool id;
  _ ← on_pool (p_set_results (delete task_id (p_results p)));
  mret (p_results p !! task_id).

Definition clean_task_result (task_id : Z) : M W unit :=
  r ← try_take_task_result task_id;
  match r with
  | Some _ => mret tt
  | None =>
      _ ← on_pool (λ p, p_set_no_waits (p_no_waits p ∪ {[ task_id ]}) p);
      on_pool (λ p, p_set_cancel (CANCEL_TASKS p ∖ {[ task_id ]}) p)
  end.

(** What [try_run] does with the task it has popped. *)
Definition run_task (task : Task F) : M W unit :=
  let task_id := t_id task in
  p ← pool id;
  if decide (task_id ∈ CANCEL_TASKS p) then
    on_pool (p_set_cancel (CANCEL_TASKS p ∖ {[ task_id ]}))
  else
    co ← current;
    _ ← match co with
        | Some h => with_co h (λ c,
            on_pool (λ p, p_set_running_tasks (<[task_id := co_id c]> (RUNNING_TASKS p)) p))
        | None => mret tt
        end;
    '(_, result) ← task_run task;
    _ ← on_pool (λ p, p_set_running_tasks (delete task_id (RUNNING_TASKS p)) p);
    p ← pool id;
    if decide (task_id ∈ p_no_waits p) then
      on_pool (p_set_no_waits (p_no_waits p ∖ {[ task_id ]}))
    else
      _ ← on_pool (p_set_results (<[task_id := result]> (p_results p)));
      _ ← assert_ (bool_decide (p_results p !! task_id = None))
        "The previous result was not retrieved in a timely manner";
      notify task_id.

Definition try_run : M W (option unit) :=
  p ← pool id;
  match pq_pop (p_task_queue p) with
  | None => out_of_fuel
  | Some (None, q) => _ ← on_pool (p_set_queue q); mret None
  | Some (Some task, q) =>
      _ ← on_pool (p_set_queue q);
      _ ← run_task task;
      mret (Some tt)
  end.

(** The closure of [try_grow], up to its next suspension or its end. *)
Fixpoint worker_run (fuel : nat) (create_time : Z) : M W (CoroutineResult unit Ret) :=
  match fuel with
  | O => out_of_fuel
  | S fuel =>
      cur ← pool COROUTINE_POOL;
      _ ← assert_ (negb (Nat.eqb cur 0)) "current pool not found";
      r ← try_run;
      match r with
      | Some _ => _ ← reset_pop_fail_times; worker_run fuel create_time
      | None =>
          running ← pool p_running;
          n ← now_ clock;
          p ← pool id;
          if ((p_keep_alive_time p <=? sat_sub n create_time) && (p_min_size p <? running))
             || can_recycle p
          then mret (CrReturn (inl None))
          else
            _ ← on_pool (λ p, p_set_pop_fail (wrap 64 (p_pop_fail_times p + 1)) p);
            fails ← pool p_pop_fail_times;
            if fails <? running then mret (CrYield tt)
            else
              _ ← blocker_block;
              _ ← reset_pop_fail_times;
              worker_run fuel create_time
      end
  end.

(** [wait_task_result] inside a coroutine: help with the tasks meanwhile. *)
Fixpoint wait_loop (fuel : nat) (task_id timeout_time : Z) : M W (io_result (Ret + string)) :=
  match fuel with
  | O => out_of_fuel
  | S fuel =>
      _ ← try_run;
      r ← try_take_task_result task_id;
      match r with
      | Some r => mret (IoOk r)
      | None =>
          n ← now_ clock;
          if sat_sub timeout_time n =? 0 then mret (IoErr (TimedOut "wait timeout"))
          else wait_loop fuel task_id timeout_time
      end
  end.

Definition wait_task_result (fuel : nat) (task_id wait_time : Z)
  : M W (io_result (Ret + string)) :=
  r ← try_take_task_result task_id;
  match r with
  | Some r => _ ← notify task_id; mret (IoOk r)
  | None =>
      co ← current;
      match co with
      | Some _ =>
          n ← now_ clock;
          wait_loop fuel task_id (get_timeout_time n wait_time)
      | None =>
          p ← pool id;
          arc ← match p_waits p !! task_id with
                | Some arc => mret arc
                | None =>
                    let arc := fresh (dom (p_pending p)) in
                    _ ← on_pool (p_set_waits (<[task_id := arc]> (p_waits p))
                          (<[arc := true]> (p_pending p)));
                    mret arc
                end;
          _ ← env_wait arc wait_time;
          r ← try_take_task_result task_id;
          match r with
          | Some r => _ ← notify task_id; mret (IoOk r)
          | None => mret (IoErr (TimedOut "wait timeout"))
          end
      end
  end.

(** [try_cancel_task]: a signal for a running task, a request otherwise. *)
Definition try_cancel_task (task_id : Z) : M W unit :=
  p ← pool id;
  match RUNNING_TASKS p !! task_id with
  | Some co_id =>
      t ← get_scheduling_thread co_id;
      match t with
      | Some pthread => signal pthread
      | None => try_cancel_coroutine co_id
      end
  | None => on_pool (λ p, p_set_cancel (CANCEL_TASKS p ∪ {[ task_id ]}) p)
  end.

(** ** mod.rs: scheduling and stopping *)

Definition try_timeout_schedule_task (fuel : nat) (timeout_time : Z) : M W (io_result Z) :=
  p ← pool id;
  match p_state p with
  | PStopped => mret (IoErr (Other "The coroutine pool is stopped !"))
  | PRunning | PStopping =>
      _ ← try_grow;
      _ ← on_pool (λ p, p_set_current (S (COROUTINE_POOL p)) p);
      r ← try_timeout_schedule clock listener_call inner_resume current_thread fuel timeout_time;
      _ ← on_pool (λ p, p_set_current (pred (COROUTINE_POOL p)) p);
      mret match r with IoOk (left_time, _) => IoOk left_time | IoErr e => IoErr e end
  end.

Definition try_schedule_task (fuel : nat) : M W (io_result unit) :=
  _ <-? try_timeout_schedule_task fuel u64_max; mret (IoOk tt).

Definition try_timed_schedule_task (fuel : nat) (dur : Z) : M W (io_result Z) :=
  n ← now_ clock; try_timeout_schedule_task fuel (get_timeout_time n dur).

(** [do_clean]: the iteration holds a reference into [waits], and [notify]
    removes from [waits]; removing while holding a reference of the same shard
    blocks for ever. *)
Definition do_clean : M W unit :=
  p ← pool id;
  match map_to_list (p_waits p) with
  | [] => mret tt
  | (task_id, _) :: _ =>
      _ ← on_pool (p_set_results
            (<[task_id := inr "The coroutine pool has stopped"]> (p_results p)));
      out_of_fuel
  end.

(** The loop of [do_stop]; its sleep of a millisecond only lets time pass. *)
Fixpoint stop_loop (fuel sfuel : nat) (timeout_time : Z) : M W (io_result unit) :=
  match fuel with
  | O => out_of_fuel
  | S fuel =>
      _ <-? try_timeout_schedule_task sfuel timeout_time;
      running ← pool p_running;
      if running =? 0 then mret (IoOk tt)
      else
        n ← now_ clock;
        if sat_sub timeout_time n =? 0 then mret (IoOk tt)
        else stop_loop fuel sfuel timeout_time
  end.

Definition do_stop (fuel sfuel : nat) (dur : Z) : M W (io_result unit) :=
  n ← now_ clock;
  _ <-? stop_loop fuel sfuel (get_timeout_time n dur);
  old <-? stopped;
  _ ← assert_ (bool_decide (old = PStopping)) "assertion failed";
  _ ← do_clean;
  mret (IoOk tt).

Definition stop (fuel sfuel : nat) (dur : Z) : M W (io_result unit) :=
  p ← pool id;
  match p_state p with
  | PRunning =>
      old <-? stopping;
      _ ← assert_ (bool_decide (old = PRunning)) "assertion failed";
      do_stop fuel sfuel dur
  | PStopping => do_stop fuel sfuel dur
  | PStopped => _ ← do_clean; mret (IoOk tt)
  end.

(** [Drop], of a thread that is not unwinding; a warning about tasks left over
    is not modelled. *)
Definition pool_drop (fuel sfuel : nat) : M W unit :=
  r ← stop fuel sfuel (30 * 1000000000);
  match r with
  | IoErr _ => panic "Failed to stop coroutine pool"
  | IoOk _ =>
      p ← pool id;
      _ ← assert_ (bool_decide (p_state p = PStopped)) "The coroutine pool is not stopped !";
      assert_ (p_running p =? 0) "There are still tasks in progress !"
  end.
End co_pool.

Arguments Pool : clear implicits.

Section properties.
Context {RQ TQ I F X : Type} `{!PQueue handle RQ, !PQueue (Task F) TQ}
  `{!PQueueLaws handle RQ, !PQueueLaws (Task F) TQ}.
Abbreviation P := (Pool TQ X).
Abbreviation Sc := (Sched RQ P).
Abbreviation W := (World unit (option Z) I Sc).
Implicit Types (w : W) (p : P) (h : handle) (task : Task F).
Context (clock : nat → Z) (call : F → option Z → M W (option Z)).

(** ** Running one task *)

(** What the end of a task does to the pool. *)
Definition finish_task (task_id : Z) (result : option Z + string) p : P :=
  let p := p_set_running_tasks (delete task_id (RUNNING_TASKS p)) p in
  if decide (task_id ∈ p_no_waits p) then
    p_set_no_waits (p_no_waits p ∖ {[ task_id ]}) p
  else
    let p := p_set_results (<[task_id := result]> (p_results p)) p in
    match p_waits p !! task_id with
    | Some arc => p_set_waits (delete task_id (p_waits p)) (<[arc := false]> (p_pending p)) p
    | None => p
    end.

(** A task that neither suspends nor uses the pool; it may panic. *)
Definition quiet (f : F) (param : option Z) (result : option Z + string) : Prop :=
  ∀ w, ∃ w', catch_unwind (call f param) w = Done result w'
    ∧ the_pool w' = the_pool w ∧ cos w' = cos w ∧ tls w' = tls w.

Lemma quiet_unique f param r1 r2 w : quiet f param r1 → quiet f param r2 → r1 = r2.
Proof.
  intros H1 H2. destruct (H1 w) as (? & E1 & _), (H2 w) as (? & E2 & _). congruence.
Qed.

(** The current coroutine, if any, exists. *)
Definition current_ok w : Prop :=
  ∀ h, head (COROUTINE (tls w)) = Some h → is_Some (cos w !! h).

Lemma on_pool_world (f : P → P) w u w' :
  on_pool f w = Done u w' →
  the_pool w' = f (the_pool w) ∧ cos w' = cos w ∧ tls w' = tls w ∧ w_tick w' = w_tick w
  ∧ w' = set_ext (upd_pool f) w.
Proof. by intros [= <- <-]. Qed.

Lemma the_pool_upd (f : P → P) w : the_pool (set_ext (upd_pool f) w) = f (the_pool w).
Proof. done. Qed.

Lemma notify_world task_id w :
  ∃ w', notify task_id w = Done tt w' ∧ cos w' = cos w ∧ tls w' = tls w
    ∧ w_tick w' = w_tick w
    ∧ the_pool w' = match p_waits (the_pool w) !! task_id with
                    | Some arc => p_set_waits (delete task_id (p_waits (the_pool w)))
                        (<[arc := false]> (p_pending (the_pool w))) (the_pool w)
                    | None => the_pool w
                    end.
Proof.
  unfold notify. erewrite bind_done by reflexivity. unfold id.
  destruct (p_waits (the_pool w) !! task_id) eqn:E; eexists; split_and!; try done.
Qed.

Lemma run_task_spec task result w :
  quiet (t_func task) (t_param task) result → current_ok w →
  t_id task ∉ CANCEL_TASKS (the_pool w) →
  p_results (the_pool w) !! t_id task = None ∨ t_id task ∈ p_no_waits (the_pool w) →
  ∃ w', run_task call task w = Done tt w'
    ∧ the_pool w' = finish_task (t_id task) result (the_pool w)
    ∧ cos w' = cos w ∧ tls w' = tls w.
Proof.
  intros Hq Hcur Hcan Hres. unfold run_task. erewrite bind_done by reflexivity. unfold id.
  destruct (decide (t_id task ∈ CANCEL_TASKS (the_pool w))) as [?|_]; [done|].
  erewrite bind_done by reflexivity.
  assert (∃ m w1, (match head (COROUTINE (tls w)) with
    | Some h => with_co h (λ c, on_pool (λ p, p_set_running_tasks
        (<[t_id task := co_id c]> (RUNNING_TASKS p)) p))
    | None => mret tt
    end) w = Done tt w1 ∧ the_pool w1 = p_set_running_tasks m (the_pool w)
    ∧ delete (t_id task) m = delete (t_id task) (RUNNING_TASKS (the_pool w))
    ∧ cos w1 = cos w ∧ tls w1 = tls w) as (m & w1 & Hm & Hp1 & Hdel & Hc1 & Ht1).
  { destruct (head (COROUTINE (tls w))) as [h|] eqn:Eh.
    - destruct (Hcur h Eh) as [c Hc]. unfold with_co. rewrite Hc.
      eexists (<[t_id task := co_id c]> (RUNNING_TASKS (the_pool w))), _.
      split_and!; try done. by rewrite delete_insert_eq.
    - exists (RUNNING_TASKS (the_pool w)), w. split_and!; try done. by destruct (the_pool w). }
  erewrite bind_done by exact Hm.
  destruct (Hq w1) as (w2 & Hcall & Hp2 & Hc2 & Ht2).
  assert (task_run call task w1 = Done (t_name task, result) w2) as Hrun.
  { unfold task_run. by erewrite bind_done by exact Hcall. }
  erewrite bind_done by exact Hrun. cbv beta iota. erewrite bind_done by reflexivity.
  erewrite bind_done by reflexivity. unfold finish_task, id.
  set (w3 := set_ext _ w2).
  assert (the_pool w3 = p_set_running_tasks (delete (t_id task) (RUNNING_TASKS (the_pool w)))
    (the_pool w)) as Hp3.
  { unfold w3. rewrite the_pool_upd, Hp2, Hp1. simpl. by rewrite Hdel. }
  assert (cos w3 = cos w ∧ tls w3 = tls w) as [Hc3 Ht3] by (split; simpl; congruence).
  rewrite Hp3. simpl.
  destruct (decide (t_id task ∈ p_no_waits (the_pool w))) as [Hn|Hn].
  - eexists. split; [reflexivity|]. split_and!; try done.
    by rewrite the_pool_upd, Hp3.
  - destruct Hres as [Hres|?]; [|done]. erewrite bind_done by reflexivity.
    set (w4 := set_ext _ w3).
    erewrite bind_done by (unfold assert_; by rewrite bool_decide_eq_true_2).
    destruct (notify_world (t_id task) w4) as (w5 & Hn5 & Hc5 & Ht5 & _ & Hp5).
    exists w5. split; [done|].
    assert (the_pool w4 = p_set_results (<[t_id task := result]> (p_results (the_pool w)))
      (p_set_running_tasks (delete (t_id task) (RUNNING_TASKS (the_pool w))) (the_pool w))) as Hp4.
    { unfold w4. by rewrite the_pool_upd, Hp3. }
    rewrite Hp5, Hp4, Hc5, Ht5. simpl. by split_and!.
Qed.

Lemma try_run_pop w :
  pq_wf (p_task_queue (the_pool w)) →
  ∃ v q, pq_pop (p_task_queue (the_pool w)) = Some (v, q) ∧ pq_wf q
    ∧ try_run call w
      = match v with
        | None => Done None (set_ext (upd_pool (p_set_queue q)) w)
        | Some task => (_ ← run_task call task; mret (Some tt))
                         (set_ext (upd_pool (p_set_queue q)) w)
        end
    ∧ match v with
      | Some task => pq_elems (p_task_queue (the_pool w)) ≡ₚ task :: pq_elems q
      | None => pq_elems (p_task_queue (the_pool w)) = [] ∧ pq_elems q = []
      end.
Proof.
  intros Hw. destruct (pq_pop_spec (p_task_queue (the_pool w)) Hw) as (v & q & Hq & Hwf & Hv).
  exists v, q. split_and!; try done. unfold try_run. erewrite bind_done by reflexivity. unfold id.
  rewrite Hq. by destruct v.
Qed.

Lemma try_run_aux w :
  pq_wf (p_task_queue (the_pool w)) → current_ok w →
  (∀ task, task ∈ pq_elems (p_task_queue (the_pool w)) →
     (∃ result, quiet (t_func task) (t_param task) result)
     ∧ (p_results (the_pool w) !! t_id task = None ∨ t_id task ∈ p_no_waits (the_pool w))) →
  ∃ v w', try_run call w = Done v w' ∧ cos w' = cos w ∧ tls w' = tls w
    ∧ pq_wf (p_task_queue (the_pool w'))
    ∧ match v with
      | None => pq_elems (p_task_queue (the_pool w)) = []
      | Some _ => ∃ task q, pq_elems (p_task_queue (the_pool w)) ≡ₚ task :: pq_elems q
          ∧ if decide (t_id task ∈ CANCEL_TASKS (the_pool w))
            then the_pool w' = p_set_cancel (CANCEL_TASKS (the_pool w) ∖ {[ t_id task ]})
                   (p_set_queue q (the_pool w))
            else ∃ result, quiet (t_func task) (t_param task) result
                   ∧ the_pool w' = finish_task (t_id task) result
                       (p_set_queue q (the_pool w))
      end.
Proof.
  intros Hw Hcur Htasks. destruct (try_run_pop w Hw) as (v & q & Hpop & Hwf & -> & Hv).
  set (w1 := set_ext (upd_pool (p_set_queue q)) w). destruct v as [task|].
  - destruct (Htasks task) as [[result Hq] Hr]; [rewrite Hv; set_solver|].
    destruct (decide (t_id task ∈ CANCEL_TASKS (the_pool w))) as [Hin|Hin].
    + assert (run_task call task w1 = Done tt (set_ext (upd_pool
        (p_set_cancel (CANCEL_TASKS (the_pool w) ∖ {[ t_id task ]}))) w1)) as Hrun.
      { unfold run_task. erewrite bind_done by reflexivity. unfold id.
        by destruct (decide (t_id task ∈ CANCEL_TASKS (the_pool w1))). }
      erewrite bind_done by exact Hrun. eexists (Some tt), _. split; [reflexivity|].
      split_and!; try done. exists task, q. split; [done|].
      by destruct (decide (t_id task ∈ CANCEL_TASKS (the_pool w))).
    + destruct (run_task_spec task result w1 Hq) as (w2 & Hrun & Hp & Hc & Ht); try done.
      erewrite bind_done by exact Hrun. eexists (Some tt), w2. split; [reflexivity|].
      assert (p_task_queue (the_pool w2) = q) as Hq2.
      { rewrite Hp. unfold finish_task. repeat case_match; done. }
      split_and!; try done; [by rewrite Hq2|]. exists task, q. split; [done|].
      destruct (decide (t_id task ∈ CANCEL_TASKS (the_pool w))); [done|]. by exists result.
  - eexists None, w1. split_and!; try done. by destruct Hv.
Qed.


(** ** Workers *)

Lemma finish_task_frame task_id result p :
  p_state (finish_task task_id result p) = p_state p
  ∧ COROUTINE_POOL (finish_task task_id result p) = COROUTINE_POOL p
  ∧ CANCEL_TASKS (finish_task task_id result p) = CANCEL_TASKS p
  ∧ p_task_queue (finish_task task_id result p) = p_task_queue p
  ∧ p_running (finish_task task_id result p) = p_running p
  ∧ (∀ i, i ≠ task_id → p_results (finish_task task_id result p) !! i = p_results p !! i)
  ∧ (∀ i, i ≠ task_id →
       i ∈ p_no_waits (finish_task task_id result p) ↔ i ∈ p_no_waits p)
  ∧ (task_id ∉ p_no_waits p → p_results (finish_task task_id result p) !! task_id = Some result).
Proof.
  unfold finish_task. simpl. destruct (decide (task_id ∈ p_no_waits p)) as [Hn|Hn]; simpl.
  - split_and!; try done. intros i Hi. set_solver.
  - destruct (p_waits p !! task_id); simpl; split_and!; try done; intros; simpl;
      by rewrite ?lookup_insert_ne, ?lookup_insert_eq by done.
Qed.

(** The tasks in the queue can all be run. *)
Definition tasks_ok p : Prop :=
  NoDup (t_id <$> pq_elems (p_task_queue p))
  ∧ ∀ task, task ∈ pq_elems (p_task_queue p) →
      (∃ result, quiet (t_func task) (t_param task) result)
      ∧ (p_results p !! t_id task = None ∨ t_id task ∈ p_no_waits p).

(** One task less. *)
Lemma try_run_step w :
  pq_wf (p_task_queue (the_pool w)) → current_ok w → tasks_ok (the_pool w) →
  pq_elems (p_task_queue (the_pool w)) ≠ [] →
  ∃ task w', try_run call w = Done (Some tt) w' ∧ cos w' = cos w ∧ tls w' = tls w
    ∧ pq_wf (p_task_queue (the_pool w')) ∧ tasks_ok (the_pool w')
    ∧ pq_elems (p_task_queue (the_pool w))
        ≡ₚ task :: pq_elems (p_task_queue (the_pool w'))
    ∧ p_state (the_pool w') = p_state (the_pool w)
    ∧ COROUTINE_POOL (the_pool w') = COROUTINE_POOL (the_pool w)
    ∧ (∀ i, i ≠ t_id task →
         (i ∈ CANCEL_TASKS (the_pool w') ↔ i ∈ CANCEL_TASKS (the_pool w))
         ∧ (i ∈ p_no_waits (the_pool w') ↔ i ∈ p_no_waits (the_pool w))
         ∧ p_results (the_pool w') !! i = p_results (the_pool w) !! i)
    ∧ (t_id task ∉ CANCEL_TASKS (the_pool w) → t_id task ∉ p_no_waits (the_pool w) →
         ∃ result, quiet (t_func task) (t_param task) result
           ∧ p_results (the_pool w') !! t_id task = Some result).
Proof.
  intros Hw Hcur [Hnd Hok] Hne.
  destruct (try_run_aux w Hw Hcur Hok) as (v & w' & Hr & Hc & Ht & Hw' & Hv).
  destruct v as [[]|]; [|done]. destruct Hv as (task & q & Hp & Hv).
  exists task, w'. split; [done|].
  assert (p_task_queue (the_pool w') = q
    ∧ p_state (the_pool w') = p_state (the_pool w)
    ∧ COROUTINE_POOL (the_pool w') = COROUTINE_POOL (the_pool w)
    ∧ (∀ i, i ≠ t_id task →
         (i ∈ CANCEL_TASKS (the_pool w') ↔ i ∈ CANCEL_TASKS (the_pool w))
         ∧ (i ∈ p_no_waits (the_pool w') ↔ i ∈ p_no_waits (the_pool w))
         ∧ p_results (the_pool w') !! i = p_results (the_pool w) !! i)
    ∧ (t_id task ∉ CANCEL_TASKS (the_pool w) → t_id task ∉ p_no_waits (the_pool w) →
         ∃ result, quiet (t_func task) (t_param task) result
           ∧ p_results (the_pool w') !! t_id task = Some result))
    as (Hq & Hs & Hcp & Hoth & Hmine).
  { destruct (decide (t_id task ∈ CANCEL_TASKS (the_pool w))) as [Hin|Hin].
    - rewrite Hv. split_and!; try done. intros i Hi. simpl. split_and!; try done. set_solver.
    - destruct Hv as (result & Hqt & ->).
      destruct (finish_task_frame (t_id task) result (p_set_queue q (the_pool w)))
        as (? & ? & Hca & ? & _ & Hres & Hnw & Hme).
      split_and!; try done.
      + intros i Hi. rewrite Hca. split_and!; try done; [by apply Hnw|by apply Hres].
      + intros _ Hn. exists result. split; [done|]. by apply Hme. }
  rewrite Hp, fmap_cons in Hnd. apply NoDup_cons in Hnd as [Hni Hnd].
  assert (tasks_ok (the_pool w')) as Hok'.
  { split; [by rewrite Hq|]. rewrite Hq. intros task' Hin.
    assert (t_id task' ≠ t_id task) as Hne'.
    { intros Heq. apply Hni. rewrite <-Heq. by apply list_elem_of_fmap_2. }
    destruct (Hok task') as [Hqu Hor]; [rewrite Hp; set_solver|]. split; [done|].
    destruct (Hoth _ Hne') as (_ & Hnw & ->). rewrite Hnw. done. }
  split_and!; try done; by rewrite Hq.
Qed.


(** ** The number of workers *)

Context (worker : Z → I) (hash : string → Z) (alloc : Z → io_result StackInfo) (page : Z)
  (uuid : W → string).

Definition bounded p : Prop := 0 ≤ p_running p ≤ p_max_size p ∧ p_max_size p ≤ usize_max.

(** Room for [n] more coroutines in the ready queue. *)
Definition room (n : nat) w : Prop :=
  pq_wf (s_ready (ext w)) ∧ Zlen (pq_elems (s_ready (ext w))) + Z.of_nat n ≤ usize_max.

Lemma submit_raw_co_pool (co : Coroutine unit (option Z) I) n w :
  room (S n) w →
  ∃ w', submit_raw_co co w = Done (IoOk (co_id co)) w' ∧ the_pool w' = the_pool w ∧ room n w'.
Proof.
  intros [Hwf Hroom]. unfold submit_raw_co. erewrite bind_done by reflexivity.
  set (c := foldl _ co _).
  assert (co_id c = co_id co) as Hid.
  { unfold c. generalize (s_listeners (ext w)). intros ls. revert co c.
    induction ls as [|l ls IH]; intros co c; [done|]. simpl in *. unfold c. simpl. by rewrite IH. }
  erewrite bind_done by reflexivity. set (h := fresh (dom (cos w))).
  erewrite bind_done by reflexivity. unfold push_ready, with_co, mbind, M_bind. simpl.
  rewrite lookup_insert_eq.
  destruct (pq_push_spec (default 0 (co_priority c)) h (s_ready (ext w)) Hwf) as (q & -> & Hq & He);
    [lia|].
  eexists. split; [by rewrite Hid|]. split; [done|]. split; simpl; [done|].
  rewrite (Zlen_Permutation _ _ He). autorewrite with oc. lia.
Qed.

Lemma pool_submit_co_pool f stack_size priority n w :
  room (S n) w → bounded (the_pool w) →
  ∃ r w', pool_submit_co hash alloc page uuid f stack_size priority w = Done r w'
    ∧ bounded (the_pool w') ∧ room n w'
    ∧ the_pool w' = p_set_running
        (p_running (the_pool w) + match r with IoOk _ => 1 | IoErr _ => 0 end) (the_pool w).
Proof.
  intros Hroom [Hb Hmax]. assert (room n w) as Hroom' by (destruct Hroom; split; [done|lia]).
  unfold pool_submit_co. erewrite bind_done by reflexivity. unfold id.
  assert (the_pool w = p_set_running (p_running (the_pool w) + 0) (the_pool w)) as Hsame.
  { rewrite Z.add_0_r. by destruct (the_pool w). }
  destruct (p_max_size (the_pool w) <=? p_running (the_pool w)) eqn:E; breflect.
  { eexists _, w. split_and!; try done. }
  erewrite bind_done by reflexivity. unfold submit_co, try_.
  rewrite bind_assoc. erewrite bind_done by reflexivity.
  destruct (co_new _ _ _ _ _ _ _) as [co|e].
  - destruct (submit_raw_co_pool co n w Hroom) as (w1 & H1 & Hp1 & Hr1).
    erewrite bind_done by exact H1. cbv beta iota. erewrite bind_done by reflexivity.
    eexists _, _. split; [reflexivity|]. rewrite the_pool_upd, Hp1.
    assert (wrap 64 (p_running (the_pool w) + 1) = p_running (the_pool w) + 1) as ->.
    { unfold wrap, usize_max in *. rewrite Z.mod_small; lia. }
    split_and!; try done. split; simpl; lia.
  - eexists _, w. split; [reflexivity|]. by split_and!.
Qed.

Lemma try_grow_pool n w :
  room (S n) w → bounded (the_pool w) →
  ∃ r w', try_grow clock worker hash alloc page uuid w = Done r w'
    ∧ bounded (the_pool w') ∧ room n w'.
Proof.
  intros Hroom Hb. unfold try_grow. erewrite bind_done by reflexivity.
  destruct (pq_is_empty (p_task_queue (the_pool w))).
  - eexists _, w. split; [reflexivity|]. split; [done|]. destruct Hroom. split; [done|lia].
  - erewrite bind_done by reflexivity.
    destruct (pool_submit_co_pool (worker (clock (w_tick w))) None None n (tick_world w))
      as (r & w' & Hr & ? & ? & _); try done. by exists r, w'.
Qed.

(** What changes the number of workers. *)
Inductive worker_op : Type :=
| WSubmit (f : I) (stack_size priority : option Z)
| WGrow
| WEvent (ev : event unit (option Z)).

Definition run_worker_op (o : worker_op) : M W unit :=
  match o with
  | WSubmit f ss pr => _ ← pool_submit_co hash alloc page uuid f ss pr; mret tt
  | WGrow => _ ← try_grow clock worker hash alloc page uuid; mret tt
  | WEvent ev => creator clock worker hash alloc page uuid ev
  end.

Fixpoint run_worker_ops (os : list worker_op) : M W unit :=
  match os with
  | [] => mret tt
  | o :: os => _ ← run_worker_op o; run_worker_ops os
  end.

Lemma room_weaken n m w : (m ≤ n)%nat → room n w → room m w.
Proof. intros Hm [? ?]. split; [done|lia]. Qed.

Lemma shrink_bounded p : bounded p → bounded (p_set_running (sat_sub (p_running p) 1) p).
Proof. intros [??]. split; [|done]. simpl. unfold sat_sub. lia. Qed.

Lemma creator_pool ev n w :
  room (S n) w → bounded (the_pool w) →
  ∃ w', creator clock worker hash alloc page uuid ev w = Done tt w'
    ∧ bounded (the_pool w') ∧ room n w'.
Proof.
  intros Hroom Hb. pose proof (room_weaken (S n) n w ltac:(lia) Hroom) as Hroom'.
  assert (∀ w1, room (S n) w1 → bounded (the_pool w1) →
    ∃ w', (_ ← try_grow clock worker hash alloc page uuid; mret tt) w1 = Done tt w'
      ∧ bounded (the_pool w') ∧ room n w') as Hgrow.
  { intros w1 Hr1 Hb1. destruct (try_grow_pool n w1 Hr1 Hb1) as (r & w' & Hr & ? & ?).
    erewrite bind_done by exact Hr. by exists w'. }
  unfold creator. erewrite bind_done by reflexivity.
  destruct ev as [old new| | | | | | |]; try (by exists w).
  destruct new; try (by exists w);
    destruct (COROUTINE_POOL (the_pool w)); try (by exists w); try (by apply Hgrow).
  - erewrite bind_done by reflexivity. apply Hgrow; [done|]. by apply shrink_bounded.
  - eexists. split; [reflexivity|]. split; [by apply shrink_bounded|done].
  - erewrite bind_done by reflexivity. apply Hgrow; [done|]. by apply shrink_bounded.
Qed.

(** C20. The pool never has more workers than its maximum: whatever sequence of
    submissions, attempts to grow and state changes of its coroutines (each of
    which may grow the pool or give a worker back) takes place, every call
    returns and the worker count stays between zero and the maximum, without
    wrapping around. *)
Theorem workers_bounded os w :
  room (length os) w → bounded (the_pool w) →
  ∃ w', run_worker_ops os w = Done tt w' ∧ bounded (the_pool w').
Proof.
  revert w. induction os as [|o os IH]; intros w Hroom Hb; [by exists w|]. simpl.
  assert (∃ w1, run_worker_op o w = Done tt w1 ∧ bounded (the_pool w1) ∧ room (length os) w1)
    as (w1 & H1 & Hb1 & Hr1).
  { destruct o as [f ss pr| |ev]; simpl.
    - destruct (pool_submit_co_pool f ss pr (length os) w Hroom Hb) as (r & w' & Hr & ? & ? & _).
      erewrite bind_done by exact Hr. by exists w'.
    - destruct (try_grow_pool (length os) w Hroom Hb) as (r & w' & Hr & ? & ?).
      erewrite bind_done by exact Hr. by exists w'.
    - by apply creator_pool. }
  erewrite bind_done by exact H1. by apply IH.
Qed.

(** ** Results *)

Lemma try_take_world task_id w :
  ∃ w', try_take_task_result task_id w = Done (p_results (the_pool w) !! task_id) w'
    ∧ the_pool w' = p_set_results (delete task_id (p_results (the_pool w))) (the_pool w)
    ∧ cos w' = cos w ∧ tls w' = tls w ∧ w_tick w' = w_tick w ∧ s_name (ext w') = s_name (ext w).
Proof.
  unfold try_take_task_result. erewrite bind_done by reflexivity.
  erewrite bind_done by reflexivity. eexists. split; [reflexivity|]. by split_and!.
Qed.

(** A submitted task is in the queue. *)
Lemma submit_task_queue name func param priority w :
  p_state (the_pool w) = PRunning →
  pq_wf (p_task_queue (the_pool w)) → Zlen (pq_elems (p_task_queue (the_pool w))) < usize_max →
  let task := task_new hash (default (s_name (ext w) +:+ "@" +:+ uuid w) name) func param priority in
  ∃ q w', submit_task hash uuid name func param priority w = Done (IoOk (t_id task)) w'
    ∧ the_pool w' = p_set_blocker true (p_set_queue q (the_pool w))
    ∧ pq_wf q ∧ pq_elems q ≡ₚ task :: pq_elems (p_task_queue (the_pool w))
    ∧ cos w' = cos w ∧ tls w' = tls w ∧ w_tick w' = w_tick w.
Proof.
  intros Hs Hw Hroom task. unfold submit_task. erewrite bind_done by reflexivity. unfold id.
  rewrite Hs. erewrite bind_done by reflexivity. erewrite bind_done by reflexivity. fold task.
  destruct (pq_push_spec (default 0 (t_priority task)) task (p_task_queue (the_pool w)) Hw Hroom)
    as (q & Hq & Hwf & He).
  assert (submit_raw_task task w = Done tt (set_ext (upd_pool (p_set_blocker true))
    (set_ext (upd_pool (p_set_queue q)) w))) as Hr.
  { unfold submit_raw_task. erewrite bind_done by reflexivity.
    change (id (the_pool w)) with (the_pool w). by rewrite Hq. }
  erewrite bind_done by exact Hr. eexists q, _. split; [reflexivity|]. by split_and!.
Qed.

(** A pool accepts work exactly while it runs: on a running pool
    [submit_task] returns the id of a task that is now in the queue; on a pool
    that is stopping or stopped it reports an error and changes nothing. *)
Theorem submit_task_iff_running name func param priority w :
  pq_wf (p_task_queue (the_pool w)) → Zlen (pq_elems (p_task_queue (the_pool w))) < usize_max →
  let task := task_new hash (default (s_name (ext w) +:+ "@" +:+ uuid w) name) func param priority in
  ∃ r w', submit_task hash uuid name func param priority w = Done r w'
    ∧ if decide (p_state (the_pool w) = PRunning)
      then r = IoOk (t_id task)
           ∧ pq_elems (p_task_queue (the_pool w'))
             ≡ₚ task :: pq_elems (p_task_queue (the_pool w))
      else is_err r = true ∧ w' = w.
Proof.
  intros Hw Hroom task.
  destruct (decide (p_state (the_pool w) = PRunning)) as [Hs|Hs].
  - destruct (submit_task_queue name func param priority w Hs Hw Hroom)
      as (q & w' & Hr & Hp & _ & He & _).
    eexists _, w'. split; [exact Hr|]. split; [done|]. by rewrite Hp.
  - unfold submit_task. erewrite bind_done by reflexivity. unfold id.
    destruct (p_state (the_pool w)); try done; by eexists _, w.
Qed.


(** *** Handles that were dropped *)

Context (clock_mono : ∀ i j, (i ≤ j)%nat → clock i ≤ clock j)
  (call_mono : ∀ f param w r w',
     catch_unwind (call f param) w = Done r w' → (w_tick w ≤ w_tick w')%nat).

Lemma notify_tick i w u w' : notify i w = Done u w' → w_tick w' = w_tick w.
Proof. destruct (notify_world i w) as (w1 & -> & _ & _ & ? & _). by intros [= _ <-]. Qed.

Lemma run_task_tick task w u w' : run_task call task w = Done u w' → (w_tick w ≤ w_tick w')%nat.
Proof.
  unfold run_task. intros (p & w0 & [= <- <-] & H)%bind_done_inv.
  destruct (decide _); [by injection H as _ <-|].
  apply bind_done_inv in H as (co & w1 & [= <- <-] & H).
  apply bind_done_inv in H as (v & w2 & H2 & H).
  assert (w_tick w2 = w_tick w) as Hk2.
  { revert H2. destruct (head (COROUTINE (tls w))) as [h|]; [|by intros [= _ <-]].
    unfold with_co. destruct (cos w !! h); [|done]. by intros [= _ <-]. }
  apply bind_done_inv in H as ([nm result] & w3 & H3 & H).
  assert (w_tick w2 ≤ w_tick w3)%nat as Hk3.
  { revert H3. unfold task_run. intros (r & w4 & Hc & [= _ _ <-])%bind_done_inv.
    by eapply call_mono. }
  apply bind_done_inv in H as (x & w4 & [= _ <-] & H).
  apply bind_done_inv in H as (p & w5 & [= <- <-] & H).
  destruct (decide _); [injection H as _ <-; simpl; lia|].
  apply bind_done_inv in H as (y & w6 & [= _ <-] & H).
  apply bind_done_inv in H as (z & w7 & H7 & H).
  revert H7. unfold assert_. destruct (bool_decide _); [|done]. intros [= _ <-].
  apply notify_tick in H. simpl in H. lia.
Qed.

Lemma try_run_tick w v w' : try_run call w = Done v w' → (w_tick w ≤ w_tick w')%nat.
Proof.
  unfold try_run. intros (p & w0 & [= <- <-] & H)%bind_done_inv.
  destruct (pq_pop _) as [[[task|] q]|]; [| |done].
  - apply bind_done_inv in H as (x & w1 & [= _ <-] & H).
    apply bind_done_inv in H as (y & w2 & H2 & [= _ <-]). by apply run_task_tick in H2.
  - apply bind_done_inv in H as (x & w1 & [= _ <-] & [= _ <-]). done.
Qed.

(** Nobody brings the result: the wait ends with its time. *)
Lemma wait_loop_idle fuel i deadline w (n : nat) :
  pq_wf (p_task_queue (the_pool w)) → pq_elems (p_task_queue (the_pool w)) = [] →
  p_results (the_pool w) !! i = None →
  deadline ≤ clock n → (n < w_tick w + fuel)%nat → (0 < fuel)%nat →
  ∃ w', wait_loop clock call fuel i deadline w = Done (IoErr (TimedOut "wait timeout")) w'.
Proof.
  revert w. induction fuel as [|fuel IH]; intros w Hw He Hn Hd Hf Hpos; [lia|].
  cbn [wait_loop]. destruct (try_run_pop w Hw) as (v & q & _ & Hwq & Hr & Hv).
  destruct v as [task|]; [rewrite He in Hv; by apply Permutation_nil_cons in Hv|].
  destruct Hv as [_ Heq]. erewrite bind_done by exact Hr. set (w1 := set_ext _ w) in *.
  destruct (try_take_world i w1) as (w2 & Htk & Hp2 & _ & _ & Hk2 & _).
  erewrite bind_done by exact Htk. change (p_results (the_pool w1)) with (p_results (the_pool w)).
  rewrite Hn. cbv beta iota. erewrite bind_done by reflexivity. rewrite Hk2.
  change (w_tick w1) with (w_tick w).
  destruct (sat_sub deadline (clock (w_tick w)) =? 0) eqn:E; breflect; [by eexists|].
  assert (w_tick w < n)%nat as Hlt.
  { apply Nat.nle_gt. intros Hle%clock_mono. unfold sat_sub in E. lia. }
  apply IH.
  - change (pq_wf (p_task_queue (the_pool w2))). by rewrite Hp2.
  - change (pq_elems (p_task_queue (the_pool w2)) = []). by rewrite Hp2.
  - change (p_results (the_pool w2) !! i = None). rewrite Hp2. by apply lookup_delete_eq.
  - done.
  - simpl. lia.
  - lia.
Qed.

(** Dropping a handle whose result is gone. *)
Lemma clean_marks i w :
  p_results (the_pool w) !! i = None →
  ∃ w1, clean_task_result i w = Done tt w1
    ∧ the_pool w1 = p_set_cancel (CANCEL_TASKS (the_pool w) ∖ {[ i ]})
        (p_set_no_waits (p_no_waits (the_pool w) ∪ {[ i ]})
          (p_set_results (delete i (p_results (the_pool w))) (the_pool w)))
    ∧ cos w1 = cos w ∧ tls w1 = tls w ∧ w_tick w1 = w_tick w.
Proof.
  intros Hres. unfold clean_task_result.
  destruct (try_take_world i w) as (w0 & Htk & Hp0 & Hc0 & Ht0 & Hk0 & _).
  erewrite bind_done by exact Htk. rewrite Hres. cbv beta iota.
  erewrite bind_done by reflexivity. eexists. split; [reflexivity|].
  rewrite !the_pool_upd, Hp0. by split_and!.
Qed.

(** One task is queued and nobody wants its result. *)
Lemma unwanted_task_runs task result w :
  pq_wf (p_task_queue (the_pool w)) → current_ok w →
  pq_elems (p_task_queue (the_pool w)) = [task] → quiet (t_func task) (t_param task) result →
  t_id task ∈ p_no_waits (the_pool w) → t_id task ∉ CANCEL_TASKS (the_pool w) →
  p_results (the_pool w) !! t_id task = None →
  ∃ v w', try_run call w = Done v w' ∧ pq_wf (p_task_queue (the_pool w'))
    ∧ pq_elems (p_task_queue (the_pool w')) = [] ∧ p_results (the_pool w') !! t_id task = None.
Proof.
  intros Hw Hc He Hq Hn Hca Hres. destruct (try_run_aux w Hw Hc) as (v & w1 & Hr & _ & _ & Hw1 & Hv).
  { rewrite He. intros t ->%list_elem_of_singleton. split; [by exists result|]. by left. }
  exists v, w1. split; [done|]. split; [done|]. destruct v as [[]|]; [|by rewrite He in Hv].
  destruct Hv as (t & q & Hpq & Hv). rewrite He in Hpq.
  apply Permutation_singleton_l in Hpq. injection Hpq as -> Hq'.
  rewrite decide_False in Hv by done. destruct Hv as (r & _ & ->).
  unfold finish_task. cbn [p_no_waits p_set_queue p_set_running_tasks].
  by rewrite decide_True.
Qed.

Lemma unwanted_wait task result h env_wait wait_time fuel w (n : nat) :
  head (COROUTINE (tls w)) = Some h → is_Some (cos w !! h) →
  pq_wf (p_task_queue (the_pool w)) → pq_elems (p_task_queue (the_pool w)) = [task] →
  quiet (t_func task) (t_param task) result →
  t_id task ∈ p_no_waits (the_pool w) → t_id task ∉ CANCEL_TASKS (the_pool w) →
  p_results (the_pool w) !! t_id task = None →
  get_timeout_time (clock (w_tick w)) wait_time ≤ clock n → (n < w_tick w + fuel)%nat →
  ∃ w', wait_task_result clock call env_wait (S fuel) (t_id task) wait_time w
    = Done (IoErr (TimedOut "wait timeout")) w'.
Proof.
  intros Hh Hd Hw He Hq Hnw Hca Hres Hdl Hf. set (i := t_id task) in *. unfold wait_task_result.
  destruct (try_take_world i w) as (w1 & Htk1 & Hp1 & Hc1 & Ht1 & Hk1 & _).
  erewrite bind_done by exact Htk1. rewrite Hres. cbv beta iota. erewrite bind_done by reflexivity.
  rewrite Ht1, Hh. cbv beta iota. erewrite bind_done by reflexivity. fold (tick_world w1).
  set (w2 := tick_world w1). rewrite Hk1. set (deadline := get_timeout_time _ _) in *.
  assert (the_pool w2 = p_set_results (delete i (p_results (the_pool w))) (the_pool w)) as Hp2 by done.
  destruct (unwanted_task_runs task result w2) as (v & w3 & Hrun & Hw3 & He3 & Hn3);
    rewrite ?Hp2; try done.
  { intros h'. change (tls w2) with (tls w1). change (cos w2) with (cos w1).
    rewrite Hc1, Ht1, Hh. by intros [= <-]. }
  { simpl. by rewrite lookup_delete_eq. }
  pose proof (try_run_tick _ _ _ Hrun) as Hk3. simpl in Hk3.
  cbn [wait_loop]. erewrite bind_done by exact Hrun.
  destruct (try_take_world i w3) as (w4 & Htk4 & Hp4 & _ & _ & Hk4 & _).
  erewrite bind_done by exact Htk4. fold i in Hn3. rewrite Hn3. cbv beta iota.
  erewrite bind_done by reflexivity.
  destruct (sat_sub deadline (clock (w_tick w4)) =? 0) eqn:E; breflect; [by eexists|].
  assert (w_tick w4 < n)%nat.
  { apply Nat.nle_gt. intros Hle%clock_mono. unfold sat_sub in E. lia. }
  apply (wait_loop_idle fuel i deadline (tick_world w4) n).
  - change (pq_wf (p_task_queue (the_pool w4))). by rewrite Hp4.
  - change (pq_elems (p_task_queue (the_pool w4)) = []). by rewrite Hp4.
  - change (p_results (the_pool w4) !! i = None). rewrite Hp4. by apply lookup_delete_eq.
  - done.
  - simpl. lia.
  - lia.
Qed.

(** A handle dropped after its task was joined poisons the task's name: the
    result is gone, so the drop notes that nobody will want it, for ever. The
    next task with that name runs, but its result is thrown away, and whoever
    waits for it waits until the time limit and is told that it timed out. *)
Theorem dropped_handle_poisons name func param priority result h env_wait wait_time fuel w (n : nat) :
  p_state (the_pool w) = PRunning → head (COROUTINE (tls w)) = Some h → is_Some (cos w !! h) →
  pq_wf (p_task_queue (the_pool w)) → pq_elems (p_task_queue (the_pool w)) = [] →
  quiet func param result → p_results (the_pool w) !! hash name = None →
  get_timeout_time (clock (w_tick w)) wait_time ≤ clock n → (n < w_tick w + fuel)%nat →
  ∃ w1 w2 w3, clean_task_result (hash name) w = Done tt w1
    ∧ submit_task hash uuid (Some name) func param priority w1 = Done (IoOk (hash name)) w2
    ∧ wait_task_result clock call env_wait (S fuel) (hash name) wait_time w2
      = Done (IoErr (TimedOut "wait timeout")) w3.
Proof.
  clear worker alloc page. intros Hs Hh Hd Hw He Hq Hres Hdl Hf.
  destruct (clean_marks (hash name) w Hres) as (w1 & H1 & Hp1 & Hc1 & Ht1 & Hk1).
  destruct (submit_task_queue (Some name) func param priority w1) as
    (q & w2 & Hr2 & Hp2 & Hwq & Heq & Hc2 & Ht2 & Hk2); rewrite ?Hp1; try done; [simpl; by rewrite He|].
  rewrite Hp1 in Heq. simpl in Heq. rewrite He in Heq.
  symmetry in Heq. apply Permutation_singleton_l in Heq.
  destruct (unwanted_wait (task_new hash name func param priority) result h env_wait wait_time
    fuel w2 n) as [w3 H3]; rewrite ?Hp2, ?Hp1; simpl; try done; try congruence.
  - set_solver.
  - set_solver.
  - by rewrite lookup_delete_eq.
  - by exists w1, w2, w3.
Qed.
End properties.
