(* ===== verification/CoPoolRuns.v ===== *)
(** * CoPoolRuns: a concrete pool

    The pool of [CoPool] on first-in first-out queues, with its own workers as
    the bodies of its coroutines and its creator as their listener: runs of
    whole pools, and the applications of the pool's theorems. *)

From stdpp Require Import sorting base numbers strings gmap list.
From S2P Require Import Prelude Common QueueIface Coroutine Scheduler CoPool.

(** ** Lists as queues *)

#[export] Instance list_queue (T : Type) : PQueue T (list T) := {
  pq_push _ x q := Some (q ++ [x]);
  pq_pop q := Some (head q, tail q);
  pq_is_empty q := match q with [] => true | _ => false end;
  pq_local_empty q := match q with [] => true | _ => false end;
  pq_elems q := q;
  pq_wf _ := True;
}.

#[export] Instance list_queue_laws (T : Type) : PQueueLaws T (list T).
Proof.
  split; simpl.
  - intros _ x q _ _. exists (q ++ [x]). split_and!; try done.
    simpl. by rewrite Permutation_app_comm.
  - intros q _. exists (head q), (tail q). split_and!; try done. destruct q; by simpl.
  - intros q _. by destruct q.
Qed.

(** ** Tasks *)

Inductive job : Type := Echo | Give (v : Z) | Boom.

Abbreviation TQ := (list (Task job)).
Abbreviation W := (World unit (option Z) Z (Sched (list handle) (Pool TQ unit))).

Definition call (f : job) (param : option Z) : M W (option Z) :=
  match f with
  | Echo => mret param
  | Give v => mret (Some v)
  | Boom => panic "boom"
  end.

(** Slow at first, then a hundred seconds from one look to the next. *)
Definition clock (k : nat) : Z := 100 * Z.of_nat k + 100000000000 * Z.of_nat (k - 20).
(** The code hashes names; here a name's length tells names apart. *)
Definition hash (name : string) : Z := Z.of_nat (String.length name).
Definition alloc (size : Z) : io_result StackInfo := IoOk (mkStackInfo size 0).
Definition uuid (w : W) : string := String.concat "" (replicate (size (cos w)) "x").
Definition worker (create_time : Z) : Z := create_time.
Definition inner_resume (h : handle) (_ : unit) : M W (CoroutineResult unit (option Z)) :=
  with_co h (λ c, worker_run clock call 50 (co_inner c)).
Definition listener_call (_ : nat) (_ : handle) (ev : event unit (option Z)) : M W unit :=
  creator clock worker hash alloc 4096 uuid ev.

Definition new_world (min_size max_size : Z) : W :=
  mkWorld ∅ (mkTls [] [] [] [] []) 0
    (pool_new "pool" 131072 [] [] 0 min_size max_size 0 tt).

Definition after {A} (r : outcome W A) (w : W) : W :=
  match r with Done _ w' | Panic _ w' => w' | NoFuel => w end.

Definition submit (name : string) (f : job) (param : option Z) (w : W) : W :=
  after (submit_task hash uuid (Some name) f param None w) w.
Definition schedule (w : W) : W :=
  after (try_timeout_schedule_task clock listener_call inner_resume 1 worker hash alloc 4096 uuid
    60 3000 w) w.
Definition drop_pool (w : W) : outcome W unit :=
  pool_drop clock listener_call inner_resume 1 worker hash alloc 4096 uuid 30 60 w.

(** Three tasks, one of which panics. *)
Definition busy : W := submit "ccc" Boom None (submit "bb" (Give 7) None
  (submit "a" Echo (Some 1) (new_world 0 2))).

(** One scheduling call runs them all; the worker ends and is given back, and
    the pool can be dropped. *)
Example busy_run :
  map_to_list (p_results (the_pool (schedule busy)))
    = [(3, inr "boom"); (2, inl (Some 7)); (1, inl (Some 1))]
  ∧ p_running (the_pool (schedule busy)) = 0
  ∧ match drop_pool (schedule busy) with
    | Done _ w => p_state (the_pool w) = PStopped
    | _ => False
    end.
Proof. vm_compute. done. Qed.

(** A pool with one task; its worker has been created and waits in the ready
    queue when it is cancelled. *)
Definition with_worker : W :=
  let w := submit "a" Echo (Some 1) (new_world 0 2) in
  after (try_grow clock worker hash alloc 4096 uuid w) w.
Definition cancel_worker (w : W) : W :=
  match cos w !! 0%nat with
  | Some c => after (try_cancel_coroutine (co_id c) w) w
  | None => w
  end.

(** A cancelled worker is never given back: the scheduler drops the
    coroutine of a pool's worker when its cancellation was asked for, and no
    listener hears of it. The pool goes on counting it: with everything done
    and every queue empty the pool still has a worker, so that dropping it
    waits for the whole time limit and then panics. Without the cancellation
    the same pool is dropped without complaint. *)
Theorem cancelled_worker_leaks :
  (let w := schedule (cancel_worker with_worker) in
   p_results (the_pool w) = {[ 1 := inl (Some 1) ]} ∧ p_task_queue (the_pool w) = []
   ∧ s_ready (ext w) = [] ∧ s_suspend (ext w) = [] ∧ s_syscall (ext w) = ∅
   ∧ p_running (the_pool w) = 1
   ∧ ∃ w', drop_pool w = Panic "There are still tasks in progress !" w')
  ∧ match drop_pool (schedule with_worker) with
    | Done _ w => p_state (the_pool w) = PStopped
    | _ => False
    end.
Proof. vm_compute. split_and!; try done. eexists. reflexivity. Qed.

(** ** The theorems of the pool, applied *)

Definition job_result (f : job) (param : option Z) : option Z + string :=
  match f with Echo => inl param | Give v => inl (Some v) | Boom => inr "boom" end.

Lemma jobs_quiet f param : quiet call f param (job_result f param).
Proof. intros w. exists w. by destruct f. Qed.

Lemma no_current w : COROUTINE (tls w) = [] → current_ok (w : W).
Proof. intros Ht h. by rewrite Ht. Qed.


(** The same pool, stopping. *)
Definition stopping_pool : W :=
  set_ext (upd_pool (λ p, p_set_current 1 (p_set_state PStopping p))) busy.

Definition boom_task : Task job := mkTask 3 "ccc" Boom None None.

Lemma boom_queued : boom_task ∈ pq_elems (p_task_queue (the_pool stopping_pool)).
Proof.
  assert (pq_elems (p_task_queue (the_pool stopping_pool))
    = [mkTask 1 "a" Echo (Some 1) None; mkTask 2 "bb" (Give 7) None None; boom_task]) as ->
    by (vm_compute; reflexivity).
  set_solver.
Qed.

Lemma stopping_tasks : tasks_ok call (the_pool stopping_pool).
Proof.
  split.
  - apply (bool_decide_eq_true_1 _). vm_compute. reflexivity.
  - intros task _. split; [eexists; apply jobs_quiet|]. left. reflexivity.
Qed.


(** Two workers fit, the third submission is refused. *)
Definition grow_ops : list worker_op :=
  [WGrow; WSubmit 0 None None; WGrow; WEvent (on_state_changed Running (Complete None))].

Lemma workers_bounded_witness :
  ∃ w', run_worker_ops clock worker hash alloc 4096 uuid grow_ops busy = Done tt w'
    ∧ bounded (the_pool w') ∧ p_running (the_pool w') = 2.
Proof.
  destruct (workers_bounded clock worker hash alloc 4096 uuid grow_ops busy) as (w' & Hr & Hb).
  - split; [done|]. unfold usize_max. vm_compute. discriminate.
  - unfold bounded, usize_max. vm_compute. split; [split|]; discriminate.
  - exists w'. split; [exact Hr|]. split; [exact Hb|].
    vm_compute in Hr. injection Hr as <-. reflexivity.
Defined.

Lemma submit_task_iff_running_witness :
  ∃ r w', submit_task hash uuid (Some "dddd") Echo None None busy = Done r w' ∧ r = IoOk 4
    ∧ pq_elems (p_task_queue (the_pool w'))
      ≡ₚ mkTask 4 "dddd" Echo None None :: pq_elems (p_task_queue (the_pool busy)).
Proof.
  destruct (submit_task_iff_running hash uuid (Some "dddd") Echo None None busy)
    as (r & w' & Hr & Hs).
  - done.
  - unfold usize_max. vm_compute. reflexivity.
  - rewrite decide_True in Hs by reflexivity. destruct Hs as [Hs1 Hs2].
    exists r, w'. split; [exact Hr|]. split; [exact Hs1|exact Hs2].
Defined.

(** A coroutine of an idle pool submits a task and waits for it. *)
Definition in_coroutine : W :=
  mkWorld {[ 0%nat := mkCo 9 "worker" 0 Running [] [] ∅ None ]} (mkTls [] [] [0%nat] [0%nat] []) 0
    (ext (new_world 0 2)).


Lemma clock_monotone i j : (i ≤ j)%nat → clock i ≤ clock j.
Proof. unfold clock. lia. Qed.

Lemma calls_keep_time f param (w : W) r w' :
  catch_unwind (call f param) w = Done r w' → (w_tick w ≤ w_tick w')%nat.
Proof. destruct f; by intros [= _ <-]. Qed.

(** A task is submitted, joined and its handle dropped; its name is used again. *)
Definition joined : W :=
  let w := submit "a" (Give 7) None in_coroutine in
  after (wait_task_result clock call (λ _ _, mret tt) 1 1 0 w) w.

Lemma dropped_handle_poisons_witness :
  ∃ w1 w2 w3, clean_task_result (hash "a") joined = Done tt w1
    ∧ submit_task hash uuid (Some "a") (Give 8) None None w1 = Done (IoOk (hash "a")) w2
    ∧ wait_task_result clock call (λ _ _, mret tt) 100 (hash "a") 1000 w2
      = Done (IoErr (TimedOut "wait timeout")) w3.
Proof.
  apply (dropped_handle_poisons clock call hash uuid clock_monotone calls_keep_time "a" (Give 8) None
    None (inl (Some 8)) 0%nat (λ _ _, mret tt) 1000 99 joined 90).
  - reflexivity.
  - reflexivity.
  - by eexists.
  - done.
  - reflexivity.
  - apply (jobs_quiet (Give 8) None).
  - reflexivity.
  - vm_compute. discriminate.
  - assert (w_tick joined = 1%nat) as -> by (vm_compute; reflexivity). lia.
Defined.
