(* ===== verification/JoinRaces.v ===== *)
(** * JoinRaces: joining a task while it finishes

    [CoPool] runs [wait_task_result], [clean_task_result] and the end of
    [try_run] one after another. In the program a thread joins while a worker of
    another thread stores the result. Here these methods of [co_pool/mod.rs] are
    programs of atomic actions on the maps [results], [waits] and [no_waits] and
    on the mutex and the condition variable of a waiter.

    A waiter that sleeps has left the mutex; a notification wakes one sleeper,
    and a time limit wakes without one. [wait_timeout_while] looks at the flag
    again after it was woken. *)

From stdpp Require Import sorting base numbers strings gmap list relations.
From S2P Require Import Prelude Interleave.

Inductive jact (R : Type) : Type :=
| JTryTake (id : Z)
| JInsertResult (id : Z) (r : R)
| JGetWait (id : Z)
| JInsertWait (id : Z)
| JRemoveWait (id : Z)
| JSignal (a : nat)
| JNow
| JCheck (a : nat) (deadline : Z)
| JWake (a : nat) (deadline : Z)
| JUnwanted (id : Z)
| JSetUnwanted (id : Z) (b : bool)
| JTick.
Arguments JTryTake {R} id.
Arguments JInsertResult {R} id r.
Arguments JGetWait {R} id.
Arguments JInsertWait {R} id.
Arguments JRemoveWait {R} id.
Arguments JSignal {R} a.
Arguments JNow {R}.
Arguments JCheck {R} a deadline.
Arguments JWake {R} a deadline.
Arguments JUnwanted {R} id.
Arguments JSetUnwanted {R} id b.
Arguments JTick {R}.

Definition jresp {R} (a : jact R) : Type :=
  match a with
  | JTryTake _ | JInsertResult _ _ => option R
  | JGetWait _ | JRemoveWait _ => option nat
  | JInsertWait _ => bool * nat
  | JNow => Z
  | JCheck _ _ => looked bool
  | JUnwanted _ => bool
  | JSignal _ | JWake _ _ | JSetUnwanted _ _ | JTick => unit
  end.

Section join_races.
Context {R : Type}.

(** The shared part of a pool, and the clock. *)
Record joins : Type := mkJoins {
  j_results : gmap Z R;
  j_waits : gmap Z nat;
  j_no_waits : gset Z;
  j_waiters : list (cell bool);
  j_clock : Z;
}.
Implicit Types σ : joins.

Definition set_results σ m : joins :=
  mkJoins m (j_waits σ) (j_no_waits σ) (j_waiters σ) (j_clock σ).
Definition set_waits σ m : joins :=
  mkJoins (j_results σ) m (j_no_waits σ) (j_waiters σ) (j_clock σ).
Definition set_no_waits σ s : joins :=
  mkJoins (j_results σ) (j_waits σ) s (j_waiters σ) (j_clock σ).
Definition set_waiters σ ws : joins :=
  mkJoins (j_results σ) (j_waits σ) (j_no_waits σ) ws (j_clock σ).
Definition set_clock σ n : joins :=
  mkJoins (j_results σ) (j_waits σ) (j_no_waits σ) (j_waiters σ) n.

Definition with_waiter {A} σ (a : nat) (f : cell bool → option (A * cell bool))
  : option (A * joins) :=
  match with_cell (j_waiters σ) a f with
  | Some (r, ws) => Some (r, set_waiters σ ws)
  | None => None
  end.

Definition jexec (a : jact R) σ : option (jresp a * joins) :=
  match a return option (jresp a * joins) with
  | JTryTake id =>
      Some (j_results σ !! id, set_results σ (delete id (j_results σ)))
  | JInsertResult id r =>
      Some (j_results σ !! id, set_results σ (<[id:=r]> (j_results σ)))
  | JGetWait id => Some (j_waits σ !! id, σ)
  | JInsertWait id =>
      let a := length (j_waiters σ) in
      Some ((bool_decide (j_waits σ !! id = None), a),
            set_waiters (set_waits σ (<[id:=a]> (j_waits σ)))
              (j_waiters σ ++ [mkCell true 0 0]))
  | JRemoveWait id =>
      Some (j_waits σ !! id, set_waits σ (delete id (j_waits σ)))
  | JSignal a => with_waiter σ a (signal false)
  | JNow => Some (j_clock σ, σ)
  | JCheck a deadline => with_waiter σ a (look id (deadline <=? j_clock σ))
  | JWake a deadline => with_waiter σ a (wake (deadline <=? j_clock σ))
  | JUnwanted id => Some (bool_decide (id ∈ j_no_waits σ), σ)
  | JSetUnwanted id b =>
      Some (tt, set_no_waits σ (if b then j_no_waits σ ∪ {[id]} else j_no_waits σ ∖ {[id]}))
  | JTick => Some (tt, set_clock σ (j_clock σ + 1))
  end.

#[global] Instance join_actions : Actions joins (jact R) := {
  resp := jresp;
  exec := jexec;
}.

#[local] Abbreviation jprog := (prog (S := joins) (jact R)).
Definition jdo (a : jact R) : jprog (jresp a) := act a.

(** ** The methods *)

(** What becomes of a thread: the caller of [wait_task_result] has the result
    or the error of the time limit; the others are done, and may have thrown
    away the result of a task that nobody wants. *)
Inductive jout : Type :=
| Got (id : Z) (r : R)
| WaitTimedOut
| Finished
| ThrownAway (id : Z) (r : R).

Definition c_notify (id : Z) : jprog unit :=
  r ← jdo (JRemoveWait id);
  match (r : option nat) with
  | Some a => _ ← jdo (JSignal a); Ret tt
  | None => Ret tt
  end.

(** [cvar.wait_timeout_while(lock, wait_time, |&mut pending| pending)]; each turn
    follows a wake-up. *)
Fixpoint c_wait_while (fuel : nat) (a : nat) (deadline : Z) : jprog unit :=
  match fuel with
  | O => Stop Fuel
  | S fuel =>
      l ← jdo (JCheck a deadline);
      match (l : looked bool) with
      | LDone _ | LTimedOut => Ret tt
      | LAsleep => _ ← jdo (JWake a deadline); c_wait_while fuel a deadline
      end
  end.

(** The second half of [wait_task_result], from the wait on. *)
Definition c_wait_registered (fuel : nat) (id : Z) (a : nat) (deadline : Z) : jprog jout :=
  _ ← c_wait_while fuel a deadline;
  r ← jdo (JTryTake id);
  match (r : option R) with
  | Some r => _ ← c_notify id; Ret (Got id r)
  | None => Ret WaitTimedOut
  end.

Definition c_register (id : Z) : jprog nat :=
  arc ← jdo (JGetWait id);
  match (arc : option nat) with
  | Some arc => Ret arc
  | None =>
      r ← jdo (JInsertWait id);
      if ((r : bool * nat).1) then Ret r.2
      else Stop (Panics "assertion failed: self.waits.insert(task_id, arc.clone()).is_none()")
  end.

(** [wait_task_result] of a thread that is not in a coroutine. *)
Definition c_wait_task_result (fuel : nat) (id wait_time : Z) : jprog jout :=
  r ← jdo (JTryTake id);
  match (r : option R) with
  | Some r => _ ← c_notify id; Ret (Got id r)
  | None =>
      a ← c_register id;
      start ← jdo JNow;
      c_wait_registered fuel id a (start + wait_time)
  end.

(** The end of [try_run], once the task has run. *)
Definition c_finish_task (id : Z) (result : R) : jprog jout :=
  unwanted ← jdo (JUnwanted id);
  if (unwanted : bool) then
    _ ← jdo (JSetUnwanted id false);
    Ret (ThrownAway id result)
  else
    old ← jdo (JInsertResult id result);
    match (old : option R) with
    | None => _ ← c_notify id; Ret Finished
    | Some _ => Stop (Panics "The previous result was not retrieved in a timely manner")
    end.

Definition c_clean_task_result (id : Z) : jprog jout :=
  r ← jdo (JTryTake id);
  match (r : option R) with
  | Some r => Ret (ThrownAway id r)
  | None => _ ← jdo (JSetUnwanted id true); Ret Finished
  end.

(** Time passes. *)
Fixpoint c_clock (n : nat) : jprog jout :=
  match n with
  | O => Ret Finished
  | S n => _ ← jdo JTick; c_clock n
  end.

(** ** Results are conserved *)

Definition jgive (a : jact R) : list (Z * R) :=
  match a with JInsertResult id r => [(id, r)] | _ => [] end.

Definition jgot (a : jact R) : jresp a → list (Z * R) :=
  match a return jresp a → list (Z * R) with
  | JTryTake id => λ r, match r with Some r => [(id, r)] | None => [] end
  | JInsertResult id _ => λ r, match r with Some r => [(id, r)] | None => [] end
  | _ => λ _, []
  end.

#[global] Instance join_resources : Resources joins (jact R) (Z * R) := {
  give := jgive;
  got := jgot;
  held σ := map_to_list (j_results σ);
  valid _ := True;
}.

Lemma with_waiter_results {A} σ a (f : cell bool → option (A * cell bool)) r σ' :
  with_waiter σ a f = Some (r, σ') → j_results σ' = j_results σ.
Proof. unfold with_waiter. destruct (with_cell _ _ _) as [[]|]; naive_solver. Qed.

Lemma remove_result (m : gmap Z R) id :
  map_to_list m ≡ₚ (match m !! id with Some r => [(id, r)] | None => [] end)
    ++ map_to_list (delete id m).
Proof.
  destruct (m !! id) as [r|] eqn:E; simpl.
  - by rewrite map_to_list_delete.
  - by rewrite delete_id.
Qed.

Lemma insert_result (m : gmap Z R) id r :
  (id, r) :: map_to_list m ≡ₚ (match m !! id with Some r => [(id, r)] | None => [] end)
    ++ map_to_list (<[id:=r]> m).
Proof.
  rewrite (remove_result m id), <-insert_delete_eq, map_to_list_insert
    by apply lookup_delete_eq.
  by rewrite Permutation_middle.
Qed.

#[global] Instance join_resource_laws : ResourceLaws joins (jact R) (Z * R).
Proof.
  split; [done|]. intros a σ r σ' rest _ Hx.
  cbn [give got held exec join_resources join_actions] in *.
  destruct a; cbn [jexec jgive jgot] in *; simplify_eq/=; try done.
  - apply remove_result.
  - apply insert_result.
  - apply with_waiter_results in Hx. by rewrite Hx.
  - apply with_waiter_results in Hx. by rewrite Hx.
  - apply with_waiter_results in Hx. by rewrite Hx.
Qed.

(** *** The programs keep what they hold *)

Definition out_results (o : jout) : list (Z * R) :=
  match o with Got id r | ThrownAway id r => [(id, r)] | _ => [] end.
Definition jres (o : jout) (l : list (Z * R)) : Prop := l = out_results o.

#[local] Abbreviation jowns := (owns (S := joins) (Act := jact R)).

Lemma jowns_plain {B} (res : B → list (Z * R) → Prop) l (a : jact R) k :
  jgive a = [] → (∀ r, jgot a r = []) → (∀ r, jowns res l (k r)) →
  jowns res l (jdo a ≫= k).
Proof.
  intros Hg Hr Hk. apply owns_act with l; simpl; [by rewrite Hg|].
  intros r. rewrite Hr. apply Hk.
Qed.

Ltac plain := apply jowns_plain; [done|done|intros ?].

Lemma notify_owns {B} (res : B → list (Z * R) → Prop) l id k :
  jowns res l (k tt) → jowns res l (c_notify id ≫= k).
Proof. intros Hk. unfold c_notify. plain. destruct r as [a|]; [|done]. plain. done. Qed.

Lemma wait_while_owns {B} (res : B → list (Z * R) → Prop) l fuel a d k :
  jowns res l (k tt) → jowns res l (c_wait_while fuel a d ≫= k).
Proof.
  intros Hk. induction fuel as [|fuel IH]; [done|]. plain. destruct r; [done..|]. plain. apply IH.
Qed.

(** Taking a result and going on with it, or without. *)
Lemma take_owns {B} (res : B → list (Z * R) → Prop) id k :
  (∀ r, jowns res [(id, r)] (k (Some r))) → jowns res [] (k None) →
  jowns res [] (jdo (JTryTake id) ≫= k).
Proof. intros Hs Hn. apply owns_act with []; [done|]. intros [r|]; [apply Hs|apply Hn]. Qed.

Lemma wait_registered_owns fuel id a d : jowns jres [] (c_wait_registered fuel id a d).
Proof.
  apply wait_while_owns, take_owns; [intros r; apply notify_owns|]; by apply owns_ret.
Qed.

Lemma wait_owns fuel id wt : jowns jres [] (c_wait_task_result fuel id wt).
Proof.
  apply take_owns; [intros r; apply notify_owns; by apply owns_ret|].
  assert (∀ a, jowns jres [] (start ← jdo JNow; c_wait_registered fuel id a (start + wt)))
    as Hrest by (intros a; plain; apply wait_registered_owns).
  unfold c_register. plain. destruct r as [a|]; [apply Hrest|]. plain.
  destruct r as [[] a]; [apply Hrest|done].
Qed.

Lemma finish_owns id r : jowns jres [(id, r)] (c_finish_task id r).
Proof.
  plain. destruct r0; [plain; by apply owns_ret|]. apply owns_act with []; [done|].
  intros [old|]; [done|]. apply notify_owns. by apply owns_ret.
Qed.

Lemma clean_owns id : jowns jres [] (c_clean_task_result id).
Proof. apply take_owns; [intros r; by apply owns_ret|]. plain. by apply owns_ret. Qed.

Lemma clock_owns n : jowns jres [] (c_clock n).
Proof. induction n as [|n IH]; [by apply owns_ret|]. plain. apply IH. Qed.

(** A thread joins, finishes a task, drops a handle or lets time pass. *)
Inductive jop : Type :=
| OpWait (id wait_time : Z)
| OpFinish (id : Z) (r : R)
| OpClean (id : Z)
| OpClock (n : nat).

Definition c_jop (fuel : nat) (o : jop) : jprog jout :=
  match o with
  | OpWait id wait_time => c_wait_task_result fuel id wait_time
  | OpFinish id r => c_finish_task id r
  | OpClean id => c_clean_task_result id
  | OpClock n => c_clock n
  end.

Definition op_results (o : jop) : list (Z * R) :=
  match o with OpFinish id r => [(id, r)] | _ => [] end.

Lemma jop_owns fuel o : jowns jres (op_results o) (c_jop fuel o).
Proof.
  destruct o; [apply wait_owns|apply finish_owns|apply clean_owns|apply clock_owns].
Qed.

Definition jthreads (fuel : nat) (ops : list jop) : list (jprog jout) := c_jop fuel <$> ops.
Definition all_results (ops : list jop) σ : list (Z * R) :=
  concat (op_results <$> ops) ++ map_to_list (j_results σ).

Lemma jthreads_balanced fuel ops σ0 ts σ :
  reachable (jthreads fuel ops, σ0) (ts, σ) → balanced jres (all_results ops σ0) (ts, σ).
Proof.
  apply conserved; [done|]. exists (op_results <$> ops). split; [|done]. simpl.
  apply Forall2_fmap, Forall_Forall2_diag, Forall_true. intros o. apply jop_owns.
Qed.

(** C22. However the steps of any number of joining threads, finishing tasks and
    dropped handles interleave, a result is handed out at most once and under the
    id of the task that made it: at every moment the results joined or thrown away
    so far and those still stored are among the results made and stored at the
    beginning; and when all have returned none is missing. *)
Theorem results_delivered_once fuel ops σ0 ts σ :
  reachable (jthreads fuel ops, σ0) (ts, σ) →
  concat (returned_with out_results <$> ts) ++ map_to_list (j_results σ)
    ⊆+ all_results ops σ0
  ∧ ∀ outs, ts = Ret <$> outs →
    concat (out_results <$> outs) ++ map_to_list (j_results σ) ≡ₚ all_results ops σ0.
Proof.
  intros Hb%jthreads_balanced. split; [exact (balanced_returned out_results _ _ _ Hb)|].
  intros outs ->. destruct (balanced_done _ _ _ _ Hb) as (ls & Hls & Ht).
  rewrite <-Ht. simpl. apply Permutation_app_tail. apply reflexive_eq. f_equal. clear -Hls.
  induction Hls as [|out l outs ls -> _ IH]; simpl; [done|]. by f_equal.
Qed.
End join_races.
Arguments joins : clear implicits.
Arguments jout : clear implicits.
Arguments jop : clear implicits.

(** ** Wake-ups *)

Section wakeups.
Context {R : Type} (id : Z) (r : R) (a : nat) (fuel : nat) (deadline : Z).
Implicit Types σ : joins R.
#[local] Abbreviation jprog := (prog (S := joins R) (jact R)).

(** The points of a registered waiter, of a worker that finishes its task, and
    the programs that are left there. *)
Inductive wpoint : Type := WCheck | WAsleep | WRecheck | WTake | WNotify | WDone.
Inductive fpoint : Type := FUnwanted | FInsert | FRemove | FSignal | FDone.

Definition after_wait : jprog (jout R) :=
  r ← jdo (JTryTake id);
  match (r : option R) with
  | Some r => _ ← c_notify id; Ret (Got id r)
  | None => Ret WaitTimedOut
  end.

Definition wprog (w : wpoint) : jprog (jout R) :=
  match w with
  | WCheck => c_wait_registered (S (S fuel)) id a deadline
  | WAsleep =>
      _ ← jdo (JWake a deadline);
      _ ← c_wait_while (S fuel) a deadline; after_wait
  | WRecheck => c_wait_registered (S fuel) id a deadline
  | WTake => after_wait
  | WNotify => _ ← c_notify id; Ret (Got id r)
  | WDone => Ret (Got id r)
  end.

Definition fprog (f : fpoint) : jprog (jout R) :=
  match f with
  | FUnwanted => c_finish_task id r
  | FInsert =>
      old ← jdo (JInsertResult id r);
      match (old : option R) with
      | None => _ ← c_notify id; Ret Finished
      | Some _ => Stop (Panics "The previous result was not retrieved in a timely manner")
      end
  | FRemove => _ ← c_notify id; Ret Finished
  | FSignal => _ ← (_ ← jdo (JSignal a); Ret tt); Ret Finished
  | FDone => Ret Finished
  end.

(** The shared state at two points: until the signal the waiter has not passed
    its check; from then on nothing holds it back. *)
Definition woken (f : fpoint) : bool := match f with FDone => true | _ => false end.

Definition waiter_at (w : wpoint) (f : fpoint) : cell bool :=
  mkCell (negb (woken f)) (match w with WAsleep => 1 | _ => 0 end)
    (match w with WAsleep => if woken f then 1 else 0 | _ => 0 end).

Definition stored (w : wpoint) (f : fpoint) : bool :=
  match f, w with
  | (FUnwanted | FInsert), _ | _, (WNotify | WDone) => false
  | _, _ => true
  end.

Definition at_points (w : wpoint) (f : fpoint) (m : nat) σ : Prop :=
  (woken f = false → w = WCheck ∨ w = WAsleep)
  ∧ j_results σ !! id = (if stored w f then Some r else None)
  ∧ j_waits σ !! id = (match f with FSignal | FDone => None | _ => Some a end)
  ∧ j_waiters σ !! a = Some (waiter_at w f)
  ∧ (id ∉ j_no_waits σ) ∧ j_clock σ + Z.of_nat m < deadline.

Definition points (w : wpoint) (f : fpoint) (m : nat) σ : config (jact R) (jout R) :=
  ([wprog w; fprog f; c_clock m], σ).

(** A thread without a step, and a step of one of the three. *)
Definition steps_to (i : nat) (w : wpoint) (f : fpoint) (m : nat) σ : Prop :=
  step_of i (points w f m σ) = None
  ∨ ∃ w' f' m' σ', step_of i (points w f m σ) = Some (points w' f' m' σ')
      ∧ at_points w' f' m' σ'.

Lemma with_waiter_at {A} σ w (g : cell bool → option (A * cell bool)) :
  j_waiters σ !! a = Some w →
  with_waiter σ a g = (match g w with
                       | Some (x, w) => Some (x, set_waiters σ (<[a:=w]> (j_waiters σ)))
                       | None => None
                       end).
Proof.
  intros H. unfold with_waiter. rewrite (with_cell_at _ _ _ _ H). by destruct (g w) as [[]|].
Qed.

(** The step of a thread, from what is known of the state; then the points and
    the state that follow. *)
Ltac make_step :=
  erewrite step_of_do by reflexivity; cbn [exec join_actions jexec];
  repeat match goal with
  | H : j_waiters _ !! a = Some _ |- _ => rewrite (with_waiter_at _ _ _ H)
  | H : j_results _ !! id = _ |- _ => rewrite H
  | H : j_waits _ !! id = _ |- _ => rewrite H
  end; cbn.
Ltac now_at w f m := right; eexists w, f, m, _; split; [reflexivity|].
Ltac same_state :=
  split_and!; cbn in *; try done; try lia; try (by eapply set_cell_at); auto.

Lemma waiter_steps w f m σ : at_points w f m σ → steps_to 0 w f m σ.
Proof.
  intros (Hw & Hres & Hwt & Ha & Hn & Hc). unfold steps_to, points at 1 2.
  assert (Ht : (deadline <=? j_clock σ) = false) by (apply Z.leb_gt; lia).
  destruct (woken f) eqn:Ef.
  - destruct f; try done. clear Hw. destruct w; unfold waiter_at in Ha; cbn in Ha, Hres, Hwt.
    + make_step. now_at WTake FDone m. same_state.
    + make_step. now_at WRecheck FDone m. same_state.
    + make_step. now_at WTake FDone m. same_state.
    + make_step. now_at WNotify FDone m. same_state. apply lookup_delete_eq.
    + make_step. now_at WDone FDone m. same_state. apply lookup_delete_eq.
    + by left.
  - destruct (Hw eq_refl) as [-> | ->]; unfold waiter_at in Ha; rewrite Ef in Ha; cbn in Ha.
    + make_step. unfold look. cbn. rewrite Ht. now_at WAsleep f m.
      unfold at_points, waiter_at. rewrite Ef. split_and!; cbn; auto.
      by eapply set_cell_at.
    + left. make_step. unfold wake. cbn. by rewrite Ht.
Qed.

Lemma worker_steps w f m σ : at_points w f m σ → steps_to 1 w f m σ.
Proof.
  intros (Hw & Hres & Hwt & Ha & Hn & Hc). unfold steps_to, points at 1 2.
  destruct f; cbn in Hres, Hwt, Hw.
  - make_step. rewrite bool_decide_eq_false_2 by done. now_at w FInsert m. same_state.
  - make_step. now_at w FRemove m. same_state. rewrite lookup_insert_eq.
    by destruct (Hw eq_refl) as [-> | ->].
  - make_step. now_at w FSignal m. same_state. apply lookup_delete_eq.
  - destruct (Hw eq_refl) as [-> | ->]; make_step; now_at WCheck FDone m || now_at WAsleep FDone m;
      same_state.
  - by left.
Qed.

Lemma clock_steps w f m σ : at_points w f m σ → steps_to 2 w f m σ.
Proof.
  intros (Hw & Hres & Hwt & Ha & Hn & Hc). unfold steps_to, points at 1 2.
  destruct m as [|m]; [by left|]. make_step. now_at w f m. same_state.
Qed.

Lemma points_step w f m σ c :
  at_points w f m σ → step (points w f m σ) c →
  ∃ w' f' m' σ', c = points w' f' m' σ' ∧ at_points w' f' m' σ'.
Proof.
  intros Hp [i Hi]%step_step_of.
  assert (steps_to i w f m σ) as [E|(w' & f' & m' & σ' & E & Hp')].
  { destruct i as [|[|[|i]]]; [by apply waiter_steps|by apply worker_steps
      |by apply clock_steps|by left]. }
  - by rewrite E in Hi.
  - rewrite E in Hi. simplify_eq. eauto 6.
Qed.

(** Wherever the three are, one of them has a step, or all are done. *)
Lemma points_progress w f m σ :
  at_points w f m σ →
  (∃ c, step (points w f m σ) c) ∨ (w = WDone ∧ f = FDone ∧ m = 0%nat).
Proof.
  intros Hp. pose proof Hp as (Hw & Hres & Hwt & Ha & _).
  assert (∀ i, step_of i (points w f m σ) ≠ None → ∃ c, step (points w f m σ) c) as Hstep.
  { intros i Hi. destruct (step_of i _) as [c|] eqn:E; [|done]. exists c.
    by eapply step_of_step. }
  destruct f; try (left; apply (Hstep 1%nat); unfold points; make_step; done).
  destruct w; try (left; apply (Hstep 0%nat); unfold points, waiter_at in *; make_step; done).
  destruct m as [|m]; [by right|]. left. apply (Hstep 2%nat). unfold points. by make_step.
Qed.

(** *** A waiter that came too late *)

(** Asleep at the waiter [b], when nobody is left to signal. *)
Definition asleep_at (b : nat) : jprog (jout R) :=
  _ ← jdo (JWake b deadline);
  _ ← c_wait_while fuel b deadline; after_wait.

Definition late (b : nat) (c : config (jact R) (jout R)) : Prop :=
  deadline ≤ j_clock c.2
  ∨ ∃ m, c.1 = [asleep_at b; Ret Finished; c_clock m]
      ∧ j_results c.2 !! id = Some r ∧ j_waiters c.2 !! b = Some (mkCell true 1 0).

Lemma clock_grows (c c' : config (jact R) (jout R)) : step c c' → j_clock c.2 ≤ j_clock c'.2.
Proof.
  intros [i x k y ts σ σ' _ Hx]. simpl. cbn [exec join_actions] in Hx.
  assert (∀ A (g : cell bool → option (A * cell bool)) b (z : A),
    with_waiter σ b g = Some (z, σ') → j_clock σ' = j_clock σ) as Hw.
  { intros A g b z. unfold with_waiter. destruct (with_cell _ _ _) as [[]|]; naive_solver. }
  destruct x; cbn [jexec] in Hx; simplify_eq/=; try lia; apply Hw in Hx; lia.
Qed.

Lemma late_step b c c' : late b c → step c c' → late b c'.
Proof.
  intros [Hc|(m & Hts & Hr & Hb)] Hs.
  { left. apply clock_grows in Hs. lia. }
  destruct c as [ts σ]. cbn [fst snd] in Hts, Hr, Hb. subst ts.
  destruct (decide (deadline ≤ j_clock σ)) as [Hd|Hd].
  { left. apply clock_grows in Hs. simpl in Hs. lia. }
  apply step_step_of in Hs as [i Hi]. destruct i as [|[|[|i]]]; try done.
  - exfalso. revert Hi. unfold asleep_at. erewrite step_of_do by reflexivity. cbn [exec join_actions jexec].
    unfold with_waiter, with_cell. rewrite Hb. unfold wake. cbn.
    by rewrite (proj2 (Z.leb_gt _ _)) by lia.
  - destruct m as [|m]; [done|]. revert Hi. erewrite step_of_do by reflexivity. cbn.
    intros; simplify_eq. right. by exists m.
Qed.
End wakeups.

Section wakeup_theorems.
Context {R : Type}.
Implicit Types σ : joins R.

Ltac go i := eapply (reach_do i); [reflexivity|reflexivity|]; cbn [list_insert insert].

(** C23. A thread that has registered as a waiter before the result is stored is
    woken and gets it: whatever the interleaving of its wait with the worker
    that finishes the task and with the passing of time (short of its limit),
    every run ends, and it cannot end otherwise than with the result handed over,
    taken out of the map, and the registration gone. *)
Theorem registered_waiter_is_woken id (r : R) a fuel deadline n σ :
  j_waits σ !! id = Some a → j_waiters σ !! a = Some (mkCell true 0 0) →
  j_results σ !! id = None → id ∉ j_no_waits σ →
  j_clock σ + Z.of_nat n < deadline → (2 ≤ fuel)%nat →
  let c0 := ([c_wait_registered fuel id a deadline; c_finish_task id r; c_clock n], σ) in
  sn step c0
  ∧ ∀ c, reachable c0 c → (∃ c', step c c')
      ∨ (c.1 = [Ret (Got id r); Ret Finished; Ret Finished]
         ∧ j_results c.2 !! id = None ∧ j_waits c.2 !! id = None).
Proof.
  intros Hwt Ha Hr Hn Hc Hf c0. split; [apply steps_end|]. intros c Hreach.
  destruct fuel as [|[|fuel]]; [lia|lia|].
  set (inv := λ c, ∃ w f m σ', c = points id r a fuel deadline w f m σ'
    ∧ at_points id r a deadline w f m σ').
  assert (inv c) as (w & f & m & σ' & -> & Hp).
  { apply (invariant_reachable inv c0 c); [| |done].
    - intros c1 c2 (w & f & m & σ1 & -> & Hp) Hs. by eapply points_step.
    - exists WCheck, FUnwanted, n, σ. split; [done|]. split_and!; auto. }
  destruct (points_progress id r a fuel deadline w f m σ' Hp) as [|(-> & -> & ->)]; [by left|].
  right. destruct Hp as (_ & Hres & Hwaits & _). done.
Qed.

(** A wake-up can be lost: between the moment at which [wait_task_result] finds
    no result and the moment at which it registers, a worker can store the result
    and find nobody to notify. From there on, whatever happens, the thread does
    not return before its whole time limit is over, although the worker has
    returned and the result is in the map all the time. For [join] the limit
    is the largest 64-bit number of nanoseconds. *)
Theorem late_registration_sleeps id (r : R) fuel wait_time n σ :
  j_results σ !! id = None → j_waits σ !! id = None → id ∉ j_no_waits σ →
  0 < wait_time → (1 ≤ fuel)%nat →
  ∃ c1, reachable ([c_wait_task_result fuel id wait_time; c_finish_task id r; c_clock n], σ) c1
    ∧ c1.1 !! 1%nat = Some (Ret Finished)
    ∧ ∀ c2, reachable c1 c2 → j_clock c2.2 < j_clock σ + wait_time →
        (∀ o, c2.1 !! 0%nat ≠ Some (Ret o)) ∧ j_results c2.2 !! id = Some r.
Proof.
  intros Hr Hwt Hn Hw Hf. destruct fuel as [|fuel]; [lia|].
  set (b := length (j_waiters σ)). set (d := j_clock σ + wait_time).
  eexists ([asleep_at id fuel d b; Ret Finished; c_clock n], _).
  split; [|split; [reflexivity|]].
  - go 0%nat. rewrite Hr. go 1%nat. rewrite bool_decide_eq_false_2 by done.
    go 1%nat. cbn [j_results set_results]. rewrite lookup_delete_eq.
    go 1%nat. cbn [j_waits set_results]. rewrite Hwt.
    go 0%nat. cbn [j_waits set_results set_waits]. rewrite lookup_delete_eq.
    go 0%nat. cbn [j_waits j_waiters set_results set_waits fst snd].
    rewrite bool_decide_eq_true_2 by apply lookup_delete_eq. go 0%nat.
    eapply (reach_do 0); [reflexivity| |].
    { cbn [exec join_actions jexec]. rewrite (with_waiter_at b _ (mkCell true 0 0));
        [|by apply list_lookup_middle]. unfold look. cbn.
      rewrite (proj2 (Z.leb_gt _ _)) by lia. reflexivity. }
    apply rtc_refl.
  - intros c2 Hc2 Hclock.
    assert (late id r fuel d b c2) as [?|(m & Ht & Hres & _)]; [|lia|].
    { revert Hc2. apply (invariant_reachable (late id r fuel d b)).
      - intros c c'. apply late_step.
      - right. exists n. cbn. split_and!; [done|by rewrite lookup_insert_eq|].
        by rewrite list_lookup_insert_eq by (rewrite length_app; simpl; subst b; lia). }
    rewrite Ht. split; [by intros o [=]|done].
Qed.
End wakeup_theorems.

(** ** Concrete threads *)

Module JoinRaceExamples.

Definition nobody : joins Z := mkJoins ∅ ∅ ∅ [] 0.

(** Join first, finish later: the result is handed over. *)
Definition in_time : list nat := [0; 0; 0; 0; 0; 1; 1; 1; 1; 0; 0; 0; 0]%nat.

Example in_time_outcome :
  observe (λ σ, map_to_list (j_results σ))
    (run_schedule in_time (jthreads 2 [OpWait 1 100; OpFinish 1 42], nobody))
  = Some ([Got 1 42; Finished], []).
Proof. vm_compute. reflexivity. Qed.

(** Two threads that join the same task at the same time: one panics. *)
Definition panicked (c : option (config (S := joins Z) (jact Z) (jout Z))) : bool :=
  match c with Some ([_; Stop (Panics _)], _) => true | _ => false end.

Example double_join_panics :
  panicked (run_schedule [0; 1; 0; 1; 0; 1]%nat
    (jthreads 2 [OpWait 1 100; OpWait 1 100], nobody)) = true.
Proof. vm_compute. reflexivity. Qed.

(** A handle dropped while its task finishes: the result is stored for good and
    the id is marked as unwanted. *)
Example dropped_while_finishing :
  observe (λ σ, (map_to_list (j_results σ), elements (j_no_waits σ)))
    (run_schedule [0; 1; 1; 1; 0]%nat (jthreads 2 [OpClean 1; OpFinish 1 42], nobody))
  = Some ([Finished; Finished], ([(1, 42)], [1])).
Proof. vm_compute. reflexivity. Qed.

Lemma results_delivered_once_witness :
  ∃ σ, reachable (jthreads 2 [OpWait 1 100; OpFinish 1 42], nobody)
         (Ret <$> [Got 1 42; Finished], σ)
    ∧ concat (out_results <$> [Got 1 42; Finished]) ++ map_to_list (j_results σ)
      ≡ₚ [(1, 42)].
Proof.
  destruct (observe_reachable _ _ _ _ _ in_time_outcome) as (σ & Hr & _).
  exists σ. split; [exact Hr|].
  exact (proj2 (results_delivered_once 2 [OpWait 1 100; OpFinish 1 42] nobody _ σ Hr)
    _ eq_refl).
Defined.

(** A registered waiter. *)
Definition registered : joins Z := mkJoins ∅ {[1 := 0%nat]} ∅ [mkCell true 0 0] 0.

Lemma registered_waiter_is_woken_witness :
  let c0 := ([c_wait_registered 2 1 0 100; c_finish_task 1 42; c_clock 5], registered) in
  sn step c0
  ∧ ∀ c, reachable c0 c → (∃ c', step c c')
      ∨ (c.1 = [Ret (Got 1 42); Ret Finished; Ret Finished]
         ∧ j_results c.2 !! 1 = None ∧ j_waits c.2 !! 1 = None).
Proof.
  apply (registered_waiter_is_woken 1 42 0 2 100 5 registered);
    [reflexivity|reflexivity|reflexivity|set_solver|simpl; lia|lia].
Defined.

Lemma late_registration_sleeps_witness :
  ∃ c1, reachable ([c_wait_task_result 1 1 100; c_finish_task 1 42; c_clock 5], nobody) c1
    ∧ c1.1 !! 1%nat = Some (Ret Finished)
    ∧ ∀ c2, reachable c1 c2 → j_clock c2.2 < 0 + 100 →
        (∀ o, c2.1 !! 0%nat ≠ Some (Ret o)) ∧ j_results c2.2 !! 1 = Some 42.
Proof.
  apply (late_registration_sleeps 1 42 1 100 5 nobody);
    [reflexivity|reflexivity|set_solver|lia|lia].
Defined.
End JoinRaceExamples.
