(* ===== verification/Selector.v ===== *)
(** * Selector: interests in file descriptors

    Models [core/src/net/selector/mod.rs] (the records all event loops share
    and the provided methods of the trait [Selector]) and
    [core/src/net/selector/mio_adapter.rs] (the poller of a unix event loop).
    The crate [mio] is a parameter: the class [Mio] has its calls, [MioLaws]
    what its documentation promises. A poller is named by a number, since the
    records are static and every event loop has a poller of its own. *)

From stdpp Require Import sorting base numbers strings gmap list.
From S2P Require Import Prelude Common.

(** [mio::Interest] as [Interest::read], [write] and [read_and_write] build it. *)
Inductive Interest : Type := READABLE | WRITABLE | READABLE_WRITABLE.

#[global] Instance Interest_eq_dec : EqDecision Interest.
Proof. solve_decision. Defined.

(** [mio::event::Event] *)
Record Event : Type := mkEvent { ev_token : Z; ev_readable : bool; ev_writable : bool }.

(** ** The poller of mio *)

Class Mio (P : Type) : Type := {
  mio_register : nat → Z → Z → Interest → P → io_result unit * P;
  mio_reregister : nat → Z → Z → Interest → P → io_result unit * P;
  mio_deregister : nat → Z → P → io_result unit * P;
  mio_poll : nat → option Z → P → io_result unit * list Event * P;
  (** what a poller is registered for *)
  mio_interest : nat → P → gmap Z (Z * Interest);
}.

(** A descriptor is registered at most once, only what is registered can be
    changed or removed, a call that fails changes nothing, and polling leaves
    the registrations alone. *)
Class MioLaws (P : Type) `{!Mio P} : Prop := {
  mio_register_spec p fd token i s :
    match mio_register p fd token i s with
    | (IoOk _, s') => mio_interest p s !! fd = None
        ∧ mio_interest p s' = <[fd := (token, i)]> (mio_interest p s)
    | (IoErr _, s') => mio_interest p s' = mio_interest p s
    end;
  mio_reregister_spec p fd token i s :
    match mio_reregister p fd token i s with
    | (IoOk _, s') => is_Some (mio_interest p s !! fd)
        ∧ mio_interest p s' = <[fd := (token, i)]> (mio_interest p s)
    | (IoErr _, s') => mio_interest p s' = mio_interest p s
    end;
  mio_deregister_spec p fd s :
    match mio_deregister p fd s with
    | (IoOk _, s') => is_Some (mio_interest p s !! fd)
        ∧ mio_interest p s' = delete fd (mio_interest p s)
    | (IoErr _, s') => mio_interest p s' = mio_interest p s
    end;
  mio_poll_spec p timeout s : mio_interest p (mio_poll p timeout s).2 = mio_interest p s;
}.

Section selector.
Context {P : Type} `{!Mio P}.

(** The static records, and of every poller whether a thread polls it and
    whether its blocker has been notified. *)
Record Sel : Type := mkSel {
  TOKEN_FD : gmap Z Z;
  READABLE_RECORDS : gset Z;
  READABLE_TOKEN_RECORDS : gmap Z Z;
  WRITABLE_RECORDS : gset Z;
  WRITABLE_TOKEN_RECORDS : gmap Z Z;
  waiting : gset nat;
  notified : gset nat;
  mio : P;
}.

Definition set_token_fd (x : gmap Z Z) (s : Sel) : Sel :=
  mkSel x (READABLE_RECORDS s) (READABLE_TOKEN_RECORDS s) (WRITABLE_RECORDS s)
    (WRITABLE_TOKEN_RECORDS s) (waiting s) (notified s) (mio s).
Definition set_readable (r : gset Z) (t : gmap Z Z) (s : Sel) : Sel :=
  mkSel (TOKEN_FD s) r t (WRITABLE_RECORDS s)
    (WRITABLE_TOKEN_RECORDS s) (waiting s) (notified s) (mio s).
Definition set_writable (r : gset Z) (t : gmap Z Z) (s : Sel) : Sel :=
  mkSel (TOKEN_FD s) (READABLE_RECORDS s) (READABLE_TOKEN_RECORDS s) r t (waiting s)
    (notified s) (mio s).
Definition set_waiting (x : gset nat) (s : Sel) : Sel :=
  mkSel (TOKEN_FD s) (READABLE_RECORDS s) (READABLE_TOKEN_RECORDS s) (WRITABLE_RECORDS s)
    (WRITABLE_TOKEN_RECORDS s) x (notified s) (mio s).
Definition set_notified (x : gset nat) (s : Sel) : Sel :=
  mkSel (TOKEN_FD s) (READABLE_RECORDS s) (READABLE_TOKEN_RECORDS s) (WRITABLE_RECORDS s)
    (WRITABLE_TOKEN_RECORDS s) (waiting s) x (mio s).
Definition set_mio (x : P) (s : Sel) : Sel :=
  mkSel (TOKEN_FD s) (READABLE_RECORDS s) (READABLE_TOKEN_RECORDS s) (WRITABLE_RECORDS s)
    (WRITABLE_TOKEN_RECORDS s) (waiting s) (notified s) x.

(** A call of mio. *)
Definition mio_call {A} (f : P → A * P) : M Sel A := λ s,
  let '(r, m) := f (mio s) in Done r (set_mio m s).

(** ** mio_adapter.rs *)

(** [Token((token >> 32) as u32 ^ token as u32)] *)
Definition fold_token (token : Z) : Z :=
  Z.lxor (wrap 32 (Z.shiftr token 32)) (wrap 32 token).

Definition do_register (p : nat) (fd token : Z) (interests : Interest)
  : M Sel (io_result unit) := mio_call (mio_register p fd (fold_token token) interests).
Definition do_reregister (p : nat) (fd token : Z) (interests : Interest)
  : M Sel (io_result unit) := mio_call (mio_reregister p fd (fold_token token) interests).
Definition do_deregister (p : nat) (fd : Z) (_ : Z) : M Sel (io_result unit) :=
  mio_call (mio_deregister p fd).
Definition do_select (p : nat) (timeout : option Z) : M Sel (io_result unit * list Event) :=
  mio_call (mio_poll p timeout).

(** ** mod.rs *)

Definition register (p : nat) (fd token : Z) (interests : Interest) : M Sel (io_result unit) :=
  _ <-? do_register p fd token interests;
  _ ← modify (λ s, set_token_fd (<[token := fd]> (TOKEN_FD s)) s);
  mret (IoOk tt).

Definition reregister (p : nat) (fd token : Z) (interests : Interest) : M Sel (io_result unit) :=
  _ <-? do_reregister p fd token interests;
  _ ← modify (λ s, set_token_fd (<[token := fd]> (TOKEN_FD s)) s);
  mret (IoOk tt).

Definition deregister (p : nat) (fd token : Z) : M Sel (io_result unit) :=
  _ <-? do_deregister p fd token;
  _ ← modify (λ s, set_token_fd (delete token (TOKEN_FD s)) s);
  mret (IoOk tt).

(** What [select] does with one event. *)
Definition clean_event (e : Event) (s : Sel) : Sel :=
  let fd := default 0 (TOKEN_FD s !! ev_token e) in
  let s := set_token_fd (delete (ev_token e) (TOKEN_FD s)) s in
  let s := if ev_readable e
           then set_readable (READABLE_RECORDS s) (delete fd (READABLE_TOKEN_RECORDS s)) s
           else s in
  if ev_writable e
  then set_writable (WRITABLE_RECORDS s) (delete fd (WRITABLE_TOKEN_RECORDS s)) s
  else s.

(** [select]: the result and the events. A thread that finds another one
    polling waits on the blocker instead. *)
Definition select (p : nat) (timeout : option Z) : M Sel (io_result unit * list Event) :=
  s ← gets id;
  if decide (p ∈ waiting s) then
    _ ← modify (λ s, set_notified (notified s ∖ {[ p ]}) s);
    mret (IoOk tt, [])
  else
    _ ← modify (λ s, set_waiting (waiting s ∪ {[ p ]}) s);
    '(result, events) ← do_select p timeout;
    _ ← modify (λ s, set_waiting (waiting s ∖ {[ p ]}) s);
    _ ← modify (λ s, foldl (λ s e, clean_event e s) s events);
    mret (result, events).

Definition add_read_event (p : nat) (fd token : Z) : M Sel (io_result unit) :=
  s ← gets id;
  if decide (fd ∈ READABLE_RECORDS s) then mret (IoOk tt)
  else
    _ <-? (if decide (fd ∈ WRITABLE_RECORDS s) then
             r ← reregister p fd token READABLE_WRITABLE;
             if is_ok r then mret r else register p fd token READABLE_WRITABLE
           else register p fd token READABLE);
    _ ← modify (λ s, set_readable (READABLE_RECORDS s ∪ {[ fd ]})
          (<[fd := token]> (READABLE_TOKEN_RECORDS s)) s);
    mret (IoOk tt).

Definition add_write_event (p : nat) (fd token : Z) : M Sel (io_result unit) :=
  s ← gets id;
  if decide (fd ∈ WRITABLE_RECORDS s) then mret (IoOk tt)
  else
    _ <-? (if decide (fd ∈ READABLE_RECORDS s) then
             r ← reregister p fd token READABLE_WRITABLE;
             if is_ok r then mret r else register p fd token READABLE_WRITABLE
           else register p fd token WRITABLE);
    _ ← modify (λ s, set_writable (WRITABLE_RECORDS s ∪ {[ fd ]})
          (<[fd := token]> (WRITABLE_TOKEN_RECORDS s)) s);
    mret (IoOk tt).

(** The argument of [or] is evaluated too: both token records are cleared. *)
Definition del_event (p : nat) (fd : Z) : M Sel (io_result unit) :=
  s ← gets id;
  if decide (fd ∈ READABLE_RECORDS s ∨ fd ∈ WRITABLE_RECORDS s) then
    let token := default 0 (match READABLE_TOKEN_RECORDS s !! fd with
                            | Some t => Some t
                            | None => WRITABLE_TOKEN_RECORDS s !! fd
                            end) in
    _ ← modify (λ s, set_readable (READABLE_RECORDS s) (delete fd (READABLE_TOKEN_RECORDS s)) s);
    _ ← modify (λ s, set_writable (WRITABLE_RECORDS s) (delete fd (WRITABLE_TOKEN_RECORDS s)) s);
    _ <-? deregister p fd token;
    _ ← modify (λ s, set_readable (READABLE_RECORDS s ∖ {[ fd ]}) (READABLE_TOKEN_RECORDS s) s);
    _ ← modify (λ s, set_writable (WRITABLE_RECORDS s ∖ {[ fd ]}) (WRITABLE_TOKEN_RECORDS s) s);
    mret (IoOk tt)
  else mret (IoOk tt).

Definition del_read_event (p : nat) (fd : Z) : M Sel (io_result unit) :=
  s ← gets id;
  if decide (fd ∈ READABLE_RECORDS s) then
    if decide (fd ∈ WRITABLE_RECORDS s) then
      let token := default 0 (WRITABLE_TOKEN_RECORDS s !! fd) in
      _ <-? reregister p fd token WRITABLE;
      s ← gets id;
      _ ← modify (λ s, set_readable (READABLE_RECORDS s ∖ {[ fd ]}) (READABLE_TOKEN_RECORDS s) s);
      _ ← assert_ (bool_decide (fd ∈ READABLE_RECORDS s)) "Clean READABLE_RECORDS failed !";
      _ ← modify (λ s, set_readable (READABLE_RECORDS s) (delete fd (READABLE_TOKEN_RECORDS s)) s);
      mret (IoOk tt)
    else
      _ <-? del_event p fd; mret (IoOk tt)
  else mret (IoOk tt).

Definition del_write_event (p : nat) (fd : Z) : M Sel (io_result unit) :=
  s ← gets id;
  if decide (fd ∈ WRITABLE_RECORDS s) then
    if decide (fd ∈ READABLE_RECORDS s) then
      let token := default 0 (READABLE_TOKEN_RECORDS s !! fd) in
      _ <-? reregister p fd token READABLE;
      s ← gets id;
      _ ← modify (λ s, set_writable (WRITABLE_RECORDS s ∖ {[ fd ]}) (WRITABLE_TOKEN_RECORDS s) s);
      _ ← assert_ (bool_decide (fd ∈ WRITABLE_RECORDS s)) "Clean WRITABLE_RECORDS failed !";
      _ ← modify (λ s, set_writable (WRITABLE_RECORDS s) (delete fd (WRITABLE_TOKEN_RECORDS s)) s);
      mret (IoOk tt)
    else
      _ <-? del_event p fd; mret (IoOk tt)
  else mret (IoOk tt).
End selector.

Arguments Sel : clear implicits.

(** ** The records and the poller *)

(** The specification: the descriptors somebody wants to read and to write. *)
Record interests : Type := mkInterests { want_read : gset Z; want_write : gset Z }.

Definition wanted (i : interests) (fd : Z) : option Interest :=
  if decide (fd ∈ want_read i) then
    if decide (fd ∈ want_write i) then Some READABLE_WRITABLE else Some READABLE
  else if decide (fd ∈ want_write i) then Some WRITABLE else None.

Inductive sel_op : Type :=
| AddRead (fd token : Z)
| AddWrite (fd token : Z)
| Del (fd : Z)
| DelRead (fd : Z)
| DelWrite (fd : Z)
| Select (timeout : option Z).

Definition sel_spec (o : sel_op) (i : interests) : interests :=
  match o with
  | AddRead fd _ => mkInterests (want_read i ∪ {[ fd ]}) (want_write i)
  | AddWrite fd _ => mkInterests (want_read i) (want_write i ∪ {[ fd ]})
  | Del fd => mkInterests (want_read i ∖ {[ fd ]}) (want_write i ∖ {[ fd ]})
  | DelRead fd => mkInterests (want_read i ∖ {[ fd ]}) (want_write i)
  | DelWrite fd => mkInterests (want_read i) (want_write i ∖ {[ fd ]})
  | Select _ => i
  end.

Section properties.
Context {P : Type} `{!Mio P, !MioLaws P}.
Implicit Types (s : Sel P) (fd token : Z).

Definition run_sel_op (p : nat) (o : sel_op) : M (Sel P) (io_result unit) :=
  match o with
  | AddRead fd token => add_read_event p fd token
  | AddWrite fd token => add_write_event p fd token
  | Del fd => del_event p fd
  | DelRead fd => del_read_event p fd
  | DelWrite fd => del_write_event p fd
  | Select timeout => r ← select p timeout; mret r.1
  end.

(** The calls in order, each with its result. *)
Fixpoint run_sel_ops (p : nat) (os : list sel_op) : M (Sel P) (list (io_result unit)) :=
  match os with
  | [] => mret []
  | o :: os => r ← run_sel_op p o; rs ← run_sel_ops p os; mret (r :: rs)
  end.

Definition records s : interests := mkInterests (READABLE_RECORDS s) (WRITABLE_RECORDS s).

(** The poller is registered for what the records say, and a token is on
    record only for a recorded interest. *)
Definition sel_inv (p : nat) s : Prop :=
  (∀ fd, snd <$> mio_interest p (mio s) !! fd = wanted (records s) fd)
  ∧ dom (READABLE_TOKEN_RECORDS s) ⊆ READABLE_RECORDS s
  ∧ dom (WRITABLE_TOKEN_RECORDS s) ⊆ WRITABLE_RECORDS s.

(** Everything but the poller and [TOKEN_FD] is the same. *)
Definition same_records s s' : Prop :=
  READABLE_RECORDS s' = READABLE_RECORDS s
  ∧ READABLE_TOKEN_RECORDS s' = READABLE_TOKEN_RECORDS s
  ∧ WRITABLE_RECORDS s' = WRITABLE_RECORDS s
  ∧ WRITABLE_TOKEN_RECORDS s' = WRITABLE_TOKEN_RECORDS s.

Lemma register_world p fd token i s :
  ∃ r s', register p fd token i s = Done r s' ∧ same_records s s'
    ∧ match r with
      | IoOk _ => mio_interest p (mio s) !! fd = None
          ∧ mio_interest p (mio s') = <[fd := (fold_token token, i)]> (mio_interest p (mio s))
      | IoErr _ => mio_interest p (mio s') = mio_interest p (mio s)
      end.
Proof.
  pose proof (mio_register_spec p fd (fold_token token) i (mio s)) as Hm.
  unfold register, do_register, mio_call, try_, mbind, M_bind.
  destruct (mio_register _ _ _ _ _) as [[[]|e] m]; eexists _, _; (split; [reflexivity|]);
    by split.
Qed.

Lemma reregister_world p fd token i s :
  ∃ r s', reregister p fd token i s = Done r s' ∧ same_records s s'
    ∧ match r with
      | IoOk _ => is_Some (mio_interest p (mio s) !! fd)
          ∧ mio_interest p (mio s') = <[fd := (fold_token token, i)]> (mio_interest p (mio s))
      | IoErr _ => mio_interest p (mio s') = mio_interest p (mio s)
      end.
Proof.
  pose proof (mio_reregister_spec p fd (fold_token token) i (mio s)) as Hm.
  unfold reregister, do_reregister, mio_call, try_, mbind, M_bind.
  destruct (mio_reregister _ _ _ _ _) as [[[]|e] m]; eexists _, _; (split; [reflexivity|]);
    by split.
Qed.

Lemma deregister_world p fd token s :
  ∃ r s', deregister p fd token s = Done r s' ∧ same_records s s'
    ∧ match r with
      | IoOk _ => mio_interest p (mio s') = delete fd (mio_interest p (mio s))
      | IoErr _ => mio_interest p (mio s') = mio_interest p (mio s)
      end.
Proof.
  pose proof (mio_deregister_spec p fd (mio s)) as Hm.
  unfold deregister, do_deregister, mio_call, try_, mbind, M_bind.
  destruct (mio_deregister _ _ _) as [[[]|e] m]; eexists _, _; (split; [reflexivity|]);
    split; try done. by destruct Hm.
Qed.

(** An operation on [fd] leaves the other descriptors alone, so the invariant
    has to be checked at [fd] only. *)
Lemma sel_inv_at p fd s s' :
  sel_inv p s →
  (∀ fd', fd' ≠ fd → mio_interest p (mio s') !! fd' = mio_interest p (mio s) !! fd'
     ∧ (fd' ∈ READABLE_RECORDS s' ↔ fd' ∈ READABLE_RECORDS s)
     ∧ (fd' ∈ WRITABLE_RECORDS s' ↔ fd' ∈ WRITABLE_RECORDS s)) →
  snd <$> mio_interest p (mio s') !! fd = wanted (records s') fd →
  dom (READABLE_TOKEN_RECORDS s') ⊆ READABLE_RECORDS s' →
  dom (WRITABLE_TOKEN_RECORDS s') ⊆ WRITABLE_RECORDS s' →
  sel_inv p s'.
Proof.
  intros (Hi & _) Hoth Hfd Hr Hw. split_and!; try done. intros fd'.
  destruct (decide (fd' = fd)) as [->|Hne]; [done|].
  destruct (Hoth fd' Hne) as (-> & HR & HW). rewrite Hi. unfold wanted. simpl.
  repeat case_decide; naive_solver.
Qed.

Lemma clean_event_frame e s :
  records (clean_event e s) = records s ∧ mio (clean_event e s) = mio s
  ∧ dom (READABLE_TOKEN_RECORDS (clean_event e s)) ⊆ dom (READABLE_TOKEN_RECORDS s)
  ∧ dom (WRITABLE_TOKEN_RECORDS (clean_event e s)) ⊆ dom (WRITABLE_TOKEN_RECORDS s).
Proof.
  unfold clean_event. destruct (ev_readable e), (ev_writable e); simpl;
    split_and!; try done; rewrite dom_delete; set_solver.
Qed.

Lemma clean_events_frame es s :
  records (foldl (λ s e, clean_event e s) s es) = records s
  ∧ mio (foldl (λ s e, clean_event e s) s es) = mio s.
Proof.
  revert s. induction es as [|e es IH]; intros s; [done|]. simpl.
  destruct (clean_event_frame e s) as (Hrec & Hm & _), (IH (clean_event e s)) as [-> ->]. done.
Qed.

Lemma clean_events_inv p es s :
  sel_inv p s → sel_inv p (foldl (λ s e, clean_event e s) s es).
Proof.
  revert s. induction es as [|e es IH]; intros s Hinv; [done|]. simpl. apply IH.
  destruct (clean_event_frame e s) as (Hrec & Hm & Hr & Hw).
  destruct Hinv as (Hi & HR & HW). split_and!; rewrite ?Hm, ?Hrec; try done.
  - injection Hrec as -> _. set_solver.
  - injection Hrec as _ ->. set_solver.
Qed.

(** What an operation with result [r] has done to invariant and records. *)
Definition sel_done (p : nat) (o : sel_op) s (r : io_result unit) s' : Prop :=
  sel_inv p s' ∧ records s' = if is_ok r then sel_spec o (records s) else records s.

(** Check the invariant at the descriptor an operation was about. *)
Ltac at_fd p fd s :=
  apply (sel_inv_at p fd s); simpl;
  repeat match goal with H : _ ?s' = _ ?s |- context [_ ?s'] => rewrite H end;
  rewrite ?dom_insert_L, ?dom_delete_L;
  [ done
  | intros ? ?; rewrite ?lookup_insert_ne, ?lookup_delete_ne by done; set_solver
  | rewrite ?lookup_insert_eq, ?lookup_delete_eq; unfold wanted; simpl;
    repeat match goal with H : _ ?s' = _ ?s |- context [_ ?s'] => rewrite H end;
    repeat case_decide; set_solver
  | set_solver
  | set_solver ].

(** Registering [fd] for one more kind of event. *)
Lemma want_more p fd token both alone (Q : Prop) `{!Decision Q} s :
  ∃ r s', (if decide Q then
             r ← reregister p fd token both;
             if is_ok r then mret r else register p fd token both
           else register p fd token alone) s = Done r s'
    ∧ same_records s s'
    ∧ mio_interest p (mio s')
      = if is_ok r
        then <[fd := (fold_token token, if decide Q then both else alone)]>
               (mio_interest p (mio s))
        else mio_interest p (mio s).
Proof.
  destruct (decide Q) as [HQ|HQ].
  - destruct (reregister_world p fd token both s) as (r & s1 & Hr1 & Hs1 & Hm1).
    erewrite bind_done by exact Hr1. destruct r as [[]|e]; cbn [is_ok is_err negb].
    + eexists _, s1. split; [reflexivity|]. simpl. split; [done|]. by destruct Hm1.
    + destruct (register_world p fd token both s1) as (r & s2 & Hr2 & Hs2 & Hm2).
      exists r, s2. split; [done|].
      split; [unfold same_records in *; intuition congruence|].
      destruct r; simpl; rewrite Hm1 in Hm2; intuition.
  - destruct (register_world p fd token alone s) as (r & s1 & Hr1 & Hs1 & Hm1).
    exists r, s1. split_and!; try done. destruct r; simpl; intuition.
Qed.

Lemma add_read_spec p fd token s : sel_inv p s →
  ∃ r s', add_read_event p fd token s = Done r s' ∧ sel_done p (AddRead fd token) s r s'.
Proof.
  intros Hinv. unfold add_read_event. erewrite bind_done by reflexivity. unfold id.
  destruct (decide (fd ∈ READABLE_RECORDS s)) as [Hr|Hr].
  { eexists _, s. split; [reflexivity|]. split; [done|]. unfold records. simpl.
    f_equal. set_solver. }
  destruct (want_more p fd token READABLE_WRITABLE READABLE (fd ∈ WRITABLE_RECORDS s) s)
    as (r & s1 & Hr1 & (HR & HRT & HW & HWT) & Hm).
  unfold try_. erewrite bind_done by exact Hr1. pose proof Hinv as (_ & Hdr & Hdw).
  destruct r as [[]|e]; simpl in Hm.
  - erewrite bind_done by reflexivity. eexists _, _. split; [reflexivity|]. split.
    + at_fd p fd s.
    + unfold records. simpl. by rewrite HR, HW.
  - eexists _, s1. split; [reflexivity|]. split; [|unfold records; by rewrite HR, HW].
    unfold sel_inv, records. by rewrite Hm, HR, HW, HRT, HWT.
Qed.

Lemma add_write_spec p fd token s : sel_inv p s →
  ∃ r s', add_write_event p fd token s = Done r s' ∧ sel_done p (AddWrite fd token) s r s'.
Proof.
  intros Hinv. unfold add_write_event. erewrite bind_done by reflexivity. unfold id.
  destruct (decide (fd ∈ WRITABLE_RECORDS s)) as [Hr|Hr].
  { eexists _, s. split; [reflexivity|]. split; [done|]. unfold records. simpl.
    f_equal. set_solver. }
  destruct (want_more p fd token READABLE_WRITABLE WRITABLE (fd ∈ READABLE_RECORDS s) s)
    as (r & s1 & Hr1 & (HR & HRT & HW & HWT) & Hm).
  unfold try_. erewrite bind_done by exact Hr1. pose proof Hinv as (_ & Hdr & Hdw).
  destruct r as [[]|e]; simpl in Hm.
  - erewrite bind_done by reflexivity. eexists _, _. split; [reflexivity|]. split.
    + at_fd p fd s.
    + unfold records. simpl. by rewrite HR, HW.
  - eexists _, s1. split; [reflexivity|]. split; [|unfold records; by rewrite HR, HW].
    unfold sel_inv, records. by rewrite Hm, HR, HW, HRT, HWT.
Qed.

Lemma del_event_spec p fd s : sel_inv p s →
  ∃ r s', del_event p fd s = Done r s' ∧ sel_done p (Del fd) s r s'.
Proof.
  intros Hinv. pose proof Hinv as (Hi & Hdr & Hdw).
  unfold del_event. erewrite bind_done by reflexivity.
  destruct (decide _) as [Hin|Hin].
  - erewrite bind_done by reflexivity. erewrite bind_done by reflexivity.
    set (s1 := set_writable _ _ _). unfold try_.
    match goal with |- context [deregister p fd ?t] =>
      destruct (deregister_world p fd t s1) as (r & s2 & Hr & (HR & HRT & HW & HWT) & Hm) end.
    erewrite bind_done by exact Hr. simpl in HR, HRT, HW, HWT, Hm. destruct r as [[]|e].
    + erewrite bind_done by reflexivity. erewrite bind_done by reflexivity.
      eexists _, _. split; [reflexivity|].
      split; [|unfold records; simpl; by rewrite HR, HW].
      at_fd p fd s.
    + eexists _, s2. split; [reflexivity|].
      split; [|unfold records; simpl; by rewrite HR, HW].
      unfold sel_inv, records. rewrite Hm, HR, HW, HRT, HWT, !dom_delete_L.
      split_and!; [done|set_solver|set_solver].
  - eexists _, s. split; [reflexivity|]. split; [done|]. unfold records. simpl.
    f_equal; set_solver.
Qed.

Lemma del_read_spec p fd s : sel_inv p s →
  ∃ r s', del_read_event p fd s = Done r s' ∧ sel_done p (DelRead fd) s r s'.
Proof.
  intros Hinv. pose proof Hinv as (Hi & Hdr & Hdw).
  unfold del_read_event. erewrite bind_done by reflexivity. unfold id.
  destruct (decide (fd ∈ READABLE_RECORDS s)) as [Hr|Hr].
  2: { eexists _, s. split; [reflexivity|]. split; [done|]. unfold records. simpl.
       f_equal; set_solver. }
  unfold try_. destruct (decide (fd ∈ WRITABLE_RECORDS s)) as [Hw|Hw].
  - match goal with |- context [reregister p fd ?t] =>
      destruct (reregister_world p fd t WRITABLE s) as (r & s1 & Hr1 & (HR & HRT & HW & HWT) & Hm) end.
    erewrite bind_done by exact Hr1. destruct r as [[]|e].
    + erewrite bind_done by reflexivity. erewrite bind_done by reflexivity.
      erewrite bind_done by (unfold assert_; by rewrite bool_decide_eq_true_2 by by rewrite HR).
      erewrite bind_done by reflexivity. eexists _, _. split; [reflexivity|].
      split; [|unfold records; simpl; by rewrite HR, HW]. destruct Hm as [_ Hm].
      at_fd p fd s.
    + eexists _, s1. split; [reflexivity|]. split; [|unfold records; by rewrite HR, HW].
      unfold sel_inv, records. by rewrite Hm, HR, HW, HRT, HWT.
  - destruct (del_event_spec p fd s Hinv) as (r & s1 & Hd & Hi1 & Hrec).
    erewrite bind_done by exact Hd. destruct r as [[]|e]; eexists _, s1; (split; [reflexivity|]);
      split; try done. rewrite Hrec. simpl. f_equal. set_solver.
Qed.

Lemma del_write_spec p fd s : sel_inv p s →
  ∃ r s', del_write_event p fd s = Done r s' ∧ sel_done p (DelWrite fd) s r s'.
Proof.
  intros Hinv. pose proof Hinv as (Hi & Hdr & Hdw).
  unfold del_write_event. erewrite bind_done by reflexivity. unfold id.
  destruct (decide (fd ∈ WRITABLE_RECORDS s)) as [Hw|Hw].
  2: { eexists _, s. split; [reflexivity|]. split; [done|]. unfold records. simpl.
       f_equal; set_solver. }
  unfold try_. destruct (decide (fd ∈ READABLE_RECORDS s)) as [Hr|Hr].
  - match goal with |- context [reregister p fd ?t] =>
      destruct (reregister_world p fd t READABLE s) as (r & s1 & Hr1 & (HR & HRT & HW & HWT) & Hm) end.
    erewrite bind_done by exact Hr1. destruct r as [[]|e].
    + erewrite bind_done by reflexivity. erewrite bind_done by reflexivity.
      erewrite bind_done by (unfold assert_; by rewrite bool_decide_eq_true_2 by by rewrite HW).
      erewrite bind_done by reflexivity. eexists _, _. split; [reflexivity|].
      split; [|unfold records; simpl; by rewrite HR, HW]. destruct Hm as [_ Hm].
      at_fd p fd s.
    + eexists _, s1. split; [reflexivity|]. split; [|unfold records; by rewrite HR, HW].
      unfold sel_inv, records. by rewrite Hm, HR, HW, HRT, HWT.
  - destruct (del_event_spec p fd s Hinv) as (r & s1 & Hd & Hi1 & Hrec).
    erewrite bind_done by exact Hd. destruct r as [[]|e]; eexists _, s1; (split; [reflexivity|]);
      split; try done. rewrite Hrec. simpl. f_equal. set_solver.
Qed.

Lemma select_world p timeout s :
  ∃ r es s', select p timeout s = Done (r, es) s'
    ∧ records s' = records s ∧ mio_interest p (mio s') = mio_interest p (mio s)
    ∧ (sel_inv p s → sel_inv p s').
Proof.
  unfold select. erewrite bind_done by reflexivity. unfold id.
  destruct (decide (p ∈ waiting s)) as [Hp|Hp].
  { eexists _, _, _. split; [reflexivity|]. by split_and!. }
  erewrite bind_done by reflexivity. set (s1 := set_waiting _ s).
  pose proof (mio_poll_spec p timeout (mio s)) as Hpoll.
  destruct (mio_poll p timeout (mio s)) as [[result events] m] eqn:Em. cbn [snd] in Hpoll.
  erewrite bind_done by (unfold do_select, mio_call; cbn [mio s1 set_waiting]; by rewrite Em).
  cbv beta iota. erewrite bind_done by reflexivity. erewrite bind_done by reflexivity.
  set (s2 := set_waiting _ (set_mio m s1)). eexists _, _, _. split; [reflexivity|].
  destruct (clean_events_frame events s2) as [Hrec Hm]. rewrite Hrec, Hm. split_and!; try done.
  intros Hinv. apply clean_events_inv. destruct Hinv as (Hi & ? & ?). split_and!; try done.
  intros fd. change (mio s2) with m. by rewrite Hpoll.
Qed.

Lemma select_spec p timeout s : sel_inv p s →
  ∃ r s', run_sel_op p (Select timeout) s = Done r s' ∧ sel_done p (Select timeout) s r s'.
Proof.
  intros Hinv. simpl. destruct (select_world p timeout s) as (r & es & s' & Hs & Hrec & _ & Hi).
  erewrite bind_done by exact Hs. eexists r, s'. split; [done|]. split; [by apply Hi|].
  rewrite Hrec. by destruct (is_ok r).
Qed.

Lemma run_sel_op_spec p o s : sel_inv p s →
  ∃ r s', run_sel_op p o s = Done r s' ∧ sel_done p o s r s'.
Proof.
  destruct o; [apply add_read_spec|apply add_write_spec|apply del_event_spec|apply del_read_spec
    |apply del_write_spec|apply select_spec].
Qed.

(** The interests after the calls that succeeded. *)
Fixpoint granted (os : list sel_op) (rs : list (io_result unit)) (i : interests) : interests :=
  match os, rs with
  | o :: os, r :: rs => granted os rs (if is_ok r then sel_spec o i else i)
  | _, _ => i
  end.

(** C18. The records of the selector are what its poller is registered for: a
    poller goes through any sequence of interests added and removed and of
    polls, whichever of its calls fail, without a panic; afterwards the records
    hold exactly the interests whose calls reported success, the poller is
    registered for exactly those, and tokens are on record for no others. *)
Theorem selector_refines p os s : sel_inv p s →
  ∃ rs s', run_sel_ops p os s = Done rs s' ∧ length rs = length os
    ∧ sel_inv p s' ∧ records s' = granted os rs (records s).
Proof.
  revert s. induction os as [|o os IH]; intros s Hinv; [by exists [], s|]. simpl.
  destruct (run_sel_op_spec p o s Hinv) as (r & s1 & Hr & Hi1 & Hrec1).
  erewrite bind_done by exact Hr. destruct (IH s1 Hi1) as (rs & s2 & Hrs & Hlen & Hi2 & Hrec2).
  erewrite bind_done by exact Hrs. exists (r :: rs), s2. split_and!; try done.
  - simpl. by rewrite Hlen.
  - by rewrite Hrec2, Hrec1.
Qed.

(** ** Tokens *)

Lemma wrap32_small t : 0 ≤ t < 2 ^ 32 → wrap 32 t = t.
Proof. intros. unfold wrap. by apply Z.mod_small. Qed.

Lemma fold_token_small t : 0 ≤ t < 2 ^ 32 → fold_token t = t.
Proof.
  intros H. unfold fold_token. rewrite (wrap32_small t H), Z.shiftr_div_pow2 by lia.
  rewrite Z.div_small by done. done.
Qed.

Lemma fold_token_bound t : 0 ≤ t → 0 ≤ fold_token t < 2 ^ 32.
Proof.
  intros Ht. unfold fold_token, wrap.
  set (a := Z.shiftr t 32 mod 2 ^ 32). set (b := t mod 2 ^ 32).
  assert (0 ≤ a < 2 ^ 32) by (apply Z.mod_pos_bound; lia).
  assert (0 ≤ b < 2 ^ 32) by (apply Z.mod_pos_bound; lia).
  assert (0 ≤ Z.lxor a b) by (apply Z.lxor_nonneg; lia). split; [done|].
  destruct (decide (Z.lxor a b = 0)) as [->|Hn]; [lia|].
  apply Z.log2_lt_pow2; [lia|]. eapply Z.le_lt_trans; [apply Z.log2_lxor; lia|].
  destruct (decide (a = 0)) as [->|], (decide (b = 0)) as [->|];
    try apply Z.max_lub_lt; try (apply Z.log2_lt_pow2; lia); simpl; try lia.
Qed.

(** The poller reports a descriptor under the 32-bit folding of its token,
    while the token itself is what the records know. One readable event of a
    descriptor registered as [token] clears the token from the records when
    the token has at most 32 bits. For a wider token, which is what the hash
    of a coroutine's name is, nothing about the descriptor is found or cleared:
    the event is attributed to descriptor 0. *)
Theorem event_token_lost p timeout fd token s m :
  p ∉ waiting s → in_u64 token → fd ≠ 0 →
  TOKEN_FD s = {[ token := fd ]} → READABLE_TOKEN_RECORDS s = {[ fd := token ]} →
  mio_poll p timeout (mio s) = (IoOk tt, [mkEvent (fold_token token) true false], m) →
  ∃ s', select p timeout s = Done (IoOk tt, [mkEvent (fold_token token) true false]) s'
    ∧ if decide (token < 2 ^ 32)
      then TOKEN_FD s' = ∅ ∧ READABLE_TOKEN_RECORDS s' = ∅
      else TOKEN_FD s' = TOKEN_FD s ∧ READABLE_TOKEN_RECORDS s' = READABLE_TOKEN_RECORDS s.
Proof.
  intros Hp [Ht _] Hfd Htf Hrt Hpoll. unfold select. erewrite bind_done by reflexivity.
  unfold id. destruct (decide (p ∈ waiting s)) as [?|_]; [done|].
  erewrite bind_done by reflexivity.
  erewrite bind_done by (unfold do_select, mio_call; cbn [mio set_waiting]; by rewrite Hpoll).
  eexists. split; [reflexivity|].
  pose proof (fold_token_bound token Ht) as Hb. pose proof (fold_token_small token) as Hs.
  generalize dependent (fold_token token). intros t Hpoll Hb Hs. cbn. rewrite Htf, Hrt.
  destruct (decide (token < 2 ^ 32)) as [Hlt|Hlt].
  - rewrite Hs by lia. rewrite lookup_singleton_eq. cbn. by rewrite !delete_singleton_eq.
  - rewrite lookup_singleton_ne by lia. cbn. by rewrite !delete_singleton_ne by lia.
Qed.

(** A descriptor that has been waited for keeps its first token. After a
    coroutine has waited for [fd] and its poller has reported events, another
    wait for [fd], on the same poller or on the poller of another event loop,
    is told that all is well, but no poller learns of it: the first one still
    reports the old token, and another one is not registered for [fd]. *)
Theorem second_waiter_unregistered p q fd token token' timeout s s1 r s2 :
  sel_inv p s → fd ∉ READABLE_RECORDS s → fd ∉ WRITABLE_RECORDS s →
  add_read_event p fd token s = Done (IoOk tt) s1 → select p timeout s1 = Done r s2 →
  add_read_event q fd token' s2 = Done (IoOk tt) s2
  ∧ mio_interest p (mio s2) !! fd = Some (fold_token token, READABLE).
Proof.
  intros Hinv HnR HnW Hadd Hsel.
  assert (mio_interest p (mio s1) !! fd = Some (fold_token token, READABLE)
    ∧ fd ∈ READABLE_RECORDS s1) as [Hi1 Hr1].
  { revert Hadd. unfold add_read_event. erewrite bind_done by reflexivity. unfold id.
    rewrite decide_False by done. destruct (want_more p fd token READABLE_WRITABLE READABLE
      (fd ∈ WRITABLE_RECORDS s) s) as (r1 & s' & Hr & (HR & _) & Hm).
    unfold try_. erewrite bind_done by exact Hr. destruct r1 as [[]|e]; [|done].
    erewrite bind_done by reflexivity. intros [= <-]. simpl in *.
    rewrite Hm, lookup_insert_eq, decide_False by done. split; [done|set_solver]. }
  destruct (select_world p timeout s1) as (r' & es & s' & Hs & Hrec & Hm & _).
  rewrite Hs in Hsel. injection Hsel as _ <-. rewrite Hm. split; [|done].
  unfold add_read_event. erewrite bind_done by reflexivity. unfold id.
  rewrite decide_True; [done|]. by injection Hrec as -> _.
Qed.
End properties.

(** ** A poller in memory *)

Module SelectorExamples.

(** The registrations of every poller and the events its next poll returns. *)
Record Polls : Type := mkPolls { regs : gmap nat (gmap Z (Z * Interest)); pending : list Event }.

Definition registered (p : nat) (s : Polls) : gmap Z (Z * Interest) := default ∅ (regs s !! p).
Definition set_registered (p : nat) (m : gmap Z (Z * Interest)) (s : Polls) : Polls :=
  mkPolls (<[p := m]> (regs s)) (pending s).

#[export] Instance Polls_mio : Mio Polls := {
  mio_register p fd token i s :=
    match registered p s !! fd with
    | None => (IoOk tt, set_registered p (<[fd := (token, i)]> (registered p s)) s)
    | Some _ => (IoErr (OsError 17), s)
    end;
  mio_reregister p fd token i s :=
    match registered p s !! fd with
    | Some _ => (IoOk tt, set_registered p (<[fd := (token, i)]> (registered p s)) s)
    | None => (IoErr (OsError 2), s)
    end;
  mio_deregister p fd s :=
    match registered p s !! fd with
    | Some _ => (IoOk tt, set_registered p (delete fd (registered p s)) s)
    | None => (IoErr (OsError 2), s)
    end;
  mio_poll p _ s := (IoOk tt, pending s, mkPolls (regs s) []);
  mio_interest := registered;
}.

Lemma registered_set p m s : registered p (set_registered p m s) = m.
Proof. unfold registered, set_registered. simpl. by rewrite lookup_insert_eq. Qed.

#[export] Instance Polls_laws : MioLaws Polls.
Proof.
  split; intros; simpl.
  - destruct (registered p s !! fd) eqn:E; [done|]. by rewrite registered_set.
  - destruct (registered p s !! fd) eqn:E; [|done]. rewrite registered_set. split; by eexists.
  - destruct (registered p s !! fd) eqn:E; [|done]. rewrite registered_set. split; by eexists.
  - done.
Qed.

Definition idle (es : list Event) : Sel Polls := mkSel ∅ ∅ ∅ ∅ ∅ ∅ ∅ (mkPolls ∅ es).

Lemma idle_inv p es : sel_inv p (idle es).
Proof. split_and!; [|done|done]. intros fd. reflexivity. Qed.

Definition some_ops : list sel_op :=
  [AddRead 5 100; AddWrite 5 101; DelRead 5; Select None; AddRead 6 102; Del 5; DelWrite 6].

(** Descriptor 6 is left, for reading. *)
Lemma selector_refines_witness :
  ∃ rs s', run_sel_ops 0 some_ops (idle []) = Done rs s' ∧ length rs = length some_ops
    ∧ sel_inv 0 s' ∧ records s' = granted some_ops rs (records (idle []))
    ∧ granted some_ops rs (records (idle [])) = mkInterests {[ 6 ]} ∅.
Proof.
  destruct (selector_refines 0 some_ops (idle []) (idle_inv 0 [])) as (rs & s' & H & Hl & Hi & Hr).
  exists rs, s'. split_and!; try done. rewrite <-Hr.
  assert (match run_sel_ops 0 some_ops (idle []) with
          | Done _ s' => records s' = mkInterests {[ 6 ]} ∅
          | _ => False
          end) as Hc by (vm_compute; reflexivity).
  by rewrite H in Hc.
Defined.

Definition wide : Z := 2 ^ 32 + 7.
Definition reading (token : Z) : Sel Polls :=
  mkSel {[ token := 5 ]} {[ 5 ]} {[ 5 := token ]} ∅ ∅ ∅ ∅
    (mkPolls {[ 0%nat := {[ 5 := (fold_token token, READABLE) ]} ]}
       [mkEvent (fold_token token) true false]).

(** The coroutine's token is still on record after its event. *)
Lemma event_token_lost_witness :
  ∃ s', select 0 None (reading wide)
      = Done (IoOk tt, [mkEvent (fold_token wide) true false]) s'
    ∧ TOKEN_FD s' = {[ wide := 5 ]} ∧ READABLE_TOKEN_RECORDS s' = {[ 5 := wide ]}.
Proof.
  destruct (event_token_lost 0 None 5 wide (reading wide)
    (mkPolls {[ 0%nat := {[ 5 := (fold_token wide, READABLE) ]} ]} [])) as (s' & H & Ht);
    [set_solver|unfold in_u64, wide, u64_max; lia|done|reflexivity|reflexivity|reflexivity|].
  exists s'. split; [exact H|]. rewrite decide_False in Ht by (unfold wide; lia). exact Ht.
Defined.

Definition first_wait : Sel Polls :=
  match add_read_event 0 5 100 (idle []) with Done _ s => s | _ => idle [] end.

(** The second coroutine waits on poller 1, which never hears of descriptor 5. *)
Lemma second_waiter_unregistered_witness :
  ∃ s2, select 0 None first_wait = Done (IoOk tt, []) s2
    ∧ add_read_event 1 5 200 s2 = Done (IoOk tt) s2
    ∧ mio_interest 0 (mio s2) !! 5 = Some (fold_token 100, READABLE)
    ∧ mio_interest 1 (mio s2) !! 5 = None.
Proof.
  eexists. split; [reflexivity|].
  destruct (second_waiter_unregistered 0 1 5 100 200 None (idle []) first_wait (IoOk tt, [])
    (match select 0 None first_wait with Done _ s => s | _ => idle [] end)) as [H1 H2].
  - apply idle_inv.
  - set_solver.
  - set_solver.
  - reflexivity.
  - reflexivity.
  - split; [exact H1|]. split; [exact H2|]. reflexivity.
Defined.

End SelectorExamples.
