(* ===== verification/Polling.v ===== *)
(** * Polling: the poller over the crate polling

    Models [core/src/net/selector/polling_adapter.rs], the poller that event
    loops use on Windows. The crate is the class [Polling] with the laws its
    documentation states. The adapter is shown to be an implementation of the
    interface [Mio] of [Selector], for descriptors that are not negative, so
    that everything that is proved about the selector holds on Windows too. *)

From stdpp Require Import sorting base numbers strings gmap list.
From S2P Require Import Prelude Common Selector.

(** [polling::Event] and [polling::PollMode] *)
Record PEvent : Type := mkPEvent { key : Z; p_readable : bool; p_writable : bool }.
Inductive PollMode : Type := Edge | Level.

(** ** The crate *)

Class Polling (P : Type) : Type := {
  supports_edge : nat → P → bool;
  add_with_mode : nat → Z → PEvent → PollMode → P → io_result unit * P;
  modify_with_mode : nat → Z → PEvent → PollMode → P → io_result unit * P;
  poll_delete : nat → Z → P → io_result unit * P;
  poll_wait : nat → option Z → P → io_result unit * list PEvent * P;
  (** what a poller is registered for *)
  poll_sources : nat → P → gmap Z PEvent;
}.

Class PollingLaws (P : Type) `{!Polling P} : Prop := {
  add_spec p fd e m s :
    match add_with_mode p fd e m s with
    | (IoOk _, s') => poll_sources p s !! fd = None ∧ poll_sources p s' = <[fd := e]> (poll_sources p s)
    | (IoErr _, s') => poll_sources p s' = poll_sources p s
    end;
  modify_spec p fd e m s :
    match modify_with_mode p fd e m s with
    | (IoOk _, s') => is_Some (poll_sources p s !! fd) ∧ poll_sources p s' = <[fd := e]> (poll_sources p s)
    | (IoErr _, s') => poll_sources p s' = poll_sources p s
    end;
  delete_spec p fd s :
    match poll_delete p fd s with
    | (IoOk _, s') => is_Some (poll_sources p s !! fd) ∧ poll_sources p s' = delete fd (poll_sources p s)
    | (IoErr _, s') => poll_sources p s' = poll_sources p s
    end;
  wait_spec p timeout s : poll_sources p (poll_wait p timeout s).2 = poll_sources p s;
}.

(** ** The adapter *)

(** [Interest::read], [write] and [read_and_write] of a token. *)
Definition interest (i : Interest) (token : Z) : PEvent :=
  match i with
  | READABLE => mkPEvent (fold_token token) true false
  | WRITABLE => mkPEvent (fold_token token) false true
  | READABLE_WRITABLE => mkPEvent (fold_token token) true true
  end.

(** [get_token], [readable] and [writable] of an event. *)
Definition to_event (e : PEvent) : Event := mkEvent (key e) (p_readable e) (p_writable e).

Section adapter.
Context {P : Type} `{!Polling P}.
(** Whether the target is Windows. *)
Variable windows : bool.

Definition mode (p : nat) (s : P) : PollMode := if supports_edge p s then Edge else Level.

(** [RawSocket::from(u32::try_from(fd).expect("overflow"))] *)
Definition source (fd : Z) : M P Z :=
  _ ← (if windows then assert_ (0 <=? fd) "overflow" else mret tt); mret fd.

Definition call {A} (f : P → A * P) : M P A := λ s, let '(r, s') := f s in Done r s'.

Definition polling_register (p : nat) (fd token : Z) (i : Interest) : M P (io_result unit) :=
  fd ← source fd;
  call (λ s, add_with_mode p fd (interest i token) (mode p s) s).
Definition polling_reregister (p : nat) (fd token : Z) (i : Interest) : M P (io_result unit) :=
  fd ← source fd;
  call (λ s, modify_with_mode p fd (interest i token) (mode p s) s).
Definition polling_deregister (p : nat) (fd : Z) (_ : Z) : M P (io_result unit) :=
  fd ← source fd;
  call (poll_delete p fd).
Definition polling_select (p : nat) (timeout : option Z) : M P (io_result unit * list Event) :=
  call (λ s, let '(r, es, s') := poll_wait p timeout s in (r, to_event <$> es, s')).
End adapter.

(** ** The adapter as the poller of the selector *)

Section as_mio.
Context {P : Type} `{!Polling P, !PollingLaws P}.

Definition of_key (i : Interest) (k : Z) : PEvent :=
  match i with
  | READABLE => mkPEvent k true false
  | WRITABLE => mkPEvent k false true
  | READABLE_WRITABLE => mkPEvent k true true
  end.
Definition interest_of (e : PEvent) : Z * Interest :=
  (key e, if p_readable e then if p_writable e then READABLE_WRITABLE else READABLE else WRITABLE).

Lemma interest_of_key i k : interest_of (of_key i k) = (k, i).
Proof. by destruct i. Qed.

#[export] Instance polling_mio : Mio P := {
  mio_register p fd token i s := add_with_mode p fd (of_key i token) (mode p s) s;
  mio_reregister p fd token i s := modify_with_mode p fd (of_key i token) (mode p s) s;
  mio_deregister := poll_delete;
  mio_poll p timeout s := let '(r, es, s') := poll_wait p timeout s in (r, to_event <$> es, s');
  mio_interest p s := interest_of <$> poll_sources p s;
}.

#[export] Instance polling_mio_laws : MioLaws P.
Proof.
  split; simpl.
  - intros p fd token i s. pose proof (add_spec p fd (of_key i token) (mode p s) s) as H.
    destruct (add_with_mode _ _ _ _ _) as [[u|e] s']; [|by rewrite H].
    destruct H as [Hn ->]. by rewrite lookup_fmap, Hn, fmap_insert, interest_of_key.
  - intros p fd token i s. pose proof (modify_spec p fd (of_key i token) (mode p s) s) as H.
    destruct (modify_with_mode _ _ _ _ _) as [[u|e] s']; [|by rewrite H].
    destruct H as [Hn ->]. by rewrite lookup_fmap, fmap_is_Some, fmap_insert, interest_of_key.
  - intros p fd s. pose proof (delete_spec p fd s) as H.
    destruct (poll_delete _ _ _) as [[u|e] s']; [|by rewrite H].
    destruct H as [Hn ->]. by rewrite lookup_fmap, fmap_is_Some, fmap_delete.
  - intros p timeout s. pose proof (wait_spec p timeout s) as H.
    destruct (poll_wait _ _ _) as [[r es] s']. simpl in *. by rewrite H.
Qed.

(** A computation of the poller, run on the poller of a selector. *)
Definition on_poller {A} (m : M P A) : M (Sel P) A := λ s,
  match m (mio s) with
  | Done a x => Done a (set_mio x s)
  | Panic msg x => Panic msg (set_mio x s)
  | NoFuel => NoFuel
  end.

(** The adapter over polling is the poller of the selector: for descriptors
    that are not negative, and all of them outside of Windows, the four calls
    of the adapter are those the selector makes, with the same folding of the
    token; a negative descriptor makes the adapter panic on Windows. *)
Theorem polling_is_poller (windows : bool) p fd token i timeout (s : Sel P) :
  (windows = true → 0 ≤ fd) →
  on_poller (polling_register windows p fd token i) s = Selector.do_register p fd token i s
  ∧ on_poller (polling_reregister windows p fd token i) s = Selector.do_reregister p fd token i s
  ∧ on_poller (polling_deregister windows p fd token) s = Selector.do_deregister p fd token s
  ∧ on_poller (polling_select p timeout) s = Selector.do_select p timeout s.
Proof.
  intros Hfd.
  assert (∀ (A : Type) (m : Z → P → A * P),
    on_poller (fd' ← source windows fd; call (m fd')) s = mio_call (m fd) s) as Hcall.
  { intros A m. unfold on_poller, source, call, mio_call, mbind, M_bind, assert_, mret, M_ret.
    destruct windows; [rewrite (proj2 (Z.leb_le 0 fd)) by auto|]; by destruct (m fd (mio s)). }
  split_and!.
  - pose proof (Hcall _ (λ fd s, add_with_mode p fd (interest i token) (mode p s) s)) as H.
    destruct i; exact H.
  - pose proof (Hcall _ (λ fd s, modify_with_mode p fd (interest i token) (mode p s) s)) as H.
    destruct i; exact H.
  - exact (Hcall _ (λ fd, poll_delete p fd)).
  - unfold on_poller, polling_select, call, do_select, mio_call. simpl.
    by destruct (poll_wait p timeout (mio s)) as [[r es] s'].
Qed.
End as_mio.

(** ** Polls in memory *)

Module PollingExamples.

(** The sources and the events to come; only the level mode is supported. *)
Record Polled : Type := mkPolled { sources : gmap Z PEvent; coming : list PEvent }.

#[export] Instance polled : Polling Polled := {
  supports_edge _ _ := false;
  add_with_mode _ fd e _ s :=
    if decide (sources s !! fd = None) then (IoOk tt, mkPolled (<[fd := e]> (sources s)) (coming s))
    else (IoErr (OsError 17), s);
  modify_with_mode _ fd e _ s :=
    if decide (sources s !! fd = None) then (IoErr (OsError 2), s)
    else (IoOk tt, mkPolled (<[fd := e]> (sources s)) (coming s));
  poll_delete _ fd s :=
    if decide (sources s !! fd = None) then (IoErr (OsError 2), s)
    else (IoOk tt, mkPolled (delete fd (sources s)) (coming s));
  poll_wait _ _ s := (IoOk tt, coming s, mkPolled (sources s) []);
  poll_sources _ s := sources s;
}.

#[export] Instance polled_laws : PollingLaws Polled.
Proof.
  split; simpl; try done; intros; case_decide; simpl; try done; (split; [|done]);
    by apply not_eq_None_Some.
Qed.

Definition quiet : Sel Polled := mkSel ∅ ∅ ∅ ∅ ∅ ∅ ∅ (mkPolled ∅ [mkPEvent 5 true false]).

(** Reading and writing interest through the selector: one source for both. *)
Example both_interests :
  match (_ ← Selector.add_read_event 0 3 5; Selector.add_write_event 0 3 5) quiet with
  | Done r s => r = IoOk tt ∧ sources (mio s) !! 3 = Some (mkPEvent 5 true true)
  | _ => False
  end.
Proof. vm_compute. done. Qed.

Example negative_socket_panics :
  polling_register true 0 (-1) 5 READABLE (mio quiet) = Panic "overflow" (mio quiet).
Proof. reflexivity. Qed.
End PollingExamples.
