(* ===== verification/Syscall.v ===== *)
(** * Syscall: the layers of a hooked system call

    Models [core/src/syscall/unix/mod.rs]: the layers that the macros
    [impl_facade!], [impl_io_uring!] and its variants, [impl_nio_read!] and its
    variants and [impl_raw!] put around a system call, and the helpers for
    [errno], blocking mode and time limits. The C library is a parameter (the
    record [Libc]), as are the next layer ([inner]), the waits of the event
    loops and what happens while a coroutine is switched out ([switch]). *)

From stdpp Require Import sorting base numbers strings gmap list.
From S2P Require Import Prelude Common Coroutine.

(** ** libc on Linux *)

Definition EINTR : Z := 4.
Definition EAGAIN : Z := 11.
Definition EBUSY : Z := 16.
Definition EINVAL : Z := 22.
Definition ENOTSOCK : Z := 88.
Definition ETIMEDOUT : Z := 110.
Definition EALREADY : Z := 114.
Definition EINPROGRESS : Z := 115.
Definition O_NONBLOCK : Z := 2048.
Definition S_IFMT : Z := 61440.
Definition S_IFSOCK : Z := 49152.

Record timeval : Type := mkTimeval { tv_sec : Z; tv_usec : Z }.
Record iovec : Type := mkIovec { iov_base : Z; iov_len : Z }.

(** [std::io::Error::kind] of an [errno], as far as the layers look at it. *)
Inductive ErrorKind : Type := WouldBlock | KindInterrupted | OtherKind.

Definition kind (errno : Z) : ErrorKind :=
  if errno =? EAGAIN then WouldBlock
  else if errno =? EINTR then KindInterrupted
  else OtherKind.

(** ** The state of the layers *)

Record Sys : Type := mkSys {
  errno : Z;
  SEND_TIME_LIMIT : gmap Z Z;
  RECV_TIME_LIMIT : gmap Z Z;
}.

(** The state is part of the extension of the world. *)
Class HasSys (X : Type) : Type := { sys : X → Sys; set_sys : (Sys → Sys) → X → X }.
Class HasSysLaws (X : Type) `{!HasSys X} : Prop := {
  sys_set_sys (f : Sys → Sys) (x : X) : sys (set_sys f x) = f (sys x);
}.

(** The calls of the C library that the helpers use. [getsockopt] answers a
    time limit, or fails. *)
Record Libc (W : Type) : Type := mkLibc {
  fcntl_getfl : Z → M W Z;
  fcntl_setfl : Z → Z → M W Z;
  fstat_mode : Z → M W (option Z);
  getsockopt_timeo : bool → Z → M W (option timeval);
}.
Arguments fcntl_getfl {W}.
Arguments fcntl_setfl {W}.
Arguments fstat_mode {W}.
Arguments getsockopt_timeo {W}.

Section layers.
Context {I X : Type} `{!HasSys X}.
Abbreviation Ret := (option Z).
Abbreviation W := (World unit Ret I X).

Variable clock : nat → Z.
Variable listener_call : nat → handle → event unit Ret → M W unit.
Variable libc : Libc W.
(** The rest of the program, from the switch out of a coroutine until it is
    resumed. *)
Variable switch : M W unit.
(** [EventLoops::wait_read_event] and [wait_write_event] of a descriptor for a
    time. *)
Variable wait_read_event : Z → Z → M W (io_result unit).
Variable wait_write_event : Z → Z → M W (io_result unit).

Definition set_errno_ (e : Z) (s : Sys) : Sys := mkSys e (SEND_TIME_LIMIT s) (RECV_TIME_LIMIT s).
Definition set_send_limit (m : gmap Z Z) (s : Sys) : Sys :=
  mkSys (errno s) m (RECV_TIME_LIMIT s).
Definition set_recv_limit (m : gmap Z Z) (s : Sys) : Sys :=
  mkSys (errno s) (SEND_TIME_LIMIT s) m.

Definition set_errno (e : Z) : M W unit := modify (set_ext (set_sys (set_errno_ e))).
Definition reset_errno : M W unit := set_errno 0.
(** [std::io::Error::last_os_error] *)
Definition last_os_error : M W Z := gets (λ w, errno (sys (ext w))).

(** ** Blocking mode *)

Definition set_non_blocking_flag (fd : Z) (on : bool) : M W bool :=
  flags ← fcntl_getfl libc fd;
  if flags <? 0 then mret false
  else
    r ← fcntl_setfl libc fd
          (if on then Z.lor flags O_NONBLOCK else Z.ldiff flags O_NONBLOCK);
    mret (r =? 0).

Definition set_non_blocking (fd : Z) : M W unit :=
  b ← set_non_blocking_flag fd true; assert_ b "set_non_blocking failed !".
Definition set_blocking (fd : Z) : M W unit :=
  b ← set_non_blocking_flag fd false; assert_ b "set_blocking failed !".

Definition is_non_blocking (fd : Z) : M W bool :=
  flags ← fcntl_getfl libc fd;
  mret (if flags <? 0 then false else negb (Z.land flags O_NONBLOCK =? 0)).
Definition is_blocking (fd : Z) : M W bool := b ← is_non_blocking fd; mret (negb b).

Definition is_socket (fd : Z) : M W bool :=
  m ← fstat_mode libc fd;
  mret match m with
       | Some st_mode => Z.land st_mode S_IFMT =? S_IFSOCK
       | None => false
       end.

(** The frame of every nio layer: the descriptor is made non-blocking for the
    body and blocking again afterwards, if it was. *)
Definition with_non_blocking {A} (fd : Z) (body : M W A) : M W A :=
  blocking ← is_blocking fd;
  _ ← (if (blocking : bool) then set_non_blocking fd else mret tt);
  r ← body;
  _ ← (if (blocking : bool) then set_blocking fd else mret tt);
  mret r.

(** ** Time limits *)

Definition get_time_limit (tv : timeval) : M W Z :=
  _ ← assert_ (0 <=? tv_sec tv) "overflow";
  _ ← assert_ (0 <=? tv_usec tv) "overflow";
  let time_limit := sat_add u64_max (sat_mul u64_max (tv_sec tv) 1000000000)
                      (sat_mul u64_max (tv_usec tv) 1000) in
  mret (if time_limit =? 0 then u64_max else time_limit).

Definition send_time_limit (fd : Z) : M W Z :=
  w ← gets id;
  match SEND_TIME_LIMIT (sys (ext w)) !! fd with
  | Some v => mret v
  | None =>
      r ← getsockopt_timeo libc true fd;
      match r with
      | None =>
          e ← last_os_error;
          if e =? ENOTSOCK then mret u64_max else panic "getsockopt failed"
      | Some tv =>
          time_limit ← get_time_limit tv;
          w ← gets id;
          let m := SEND_TIME_LIMIT (sys (ext w)) in
          _ ← modify (set_ext (set_sys (set_send_limit (<[fd := time_limit]> m))));
          _ ← assert_ (bool_decide (m !! fd = None)) "assertion failed";
          mret time_limit
      end
  end.

Definition recv_time_limit (fd : Z) : M W Z :=
  w ← gets id;
  match RECV_TIME_LIMIT (sys (ext w)) !! fd with
  | Some v => mret v
  | None =>
      r ← getsockopt_timeo libc false fd;
      match r with
      | None =>
          e ← last_os_error;
          if e =? ENOTSOCK then mret u64_max else panic "getsockopt failed"
      | Some tv =>
          time_limit ← get_time_limit tv;
          w ← gets id;
          let m := RECV_TIME_LIMIT (sys (ext w)) in
          _ ← modify (set_ext (set_sys (set_recv_limit (<[fd := time_limit]> m))));
          _ ← assert_ (bool_decide (m !! fd = None)) "assertion failed";
          mret time_limit
      end
  end.

(** After [WouldBlock]: the time left since [start_time] and a wait of at most
    a slice of it; the new [left_time] and what the wait returned. *)
Definition wait_read (fd start_time : Z) : M W (Z * io_result unit) :=
  limit ← recv_time_limit fd;
  n ← now_ clock;
  let left_time := sat_sub (sat_add u64_max start_time limit) n in
  r ← wait_read_event fd (Z.min left_time SLICE);
  mret (left_time, r).

Definition wait_write (fd start_time : Z) : M W (Z * io_result unit) :=
  limit ← send_time_limit fd;
  n ← now_ clock;
  let left_time := sat_sub (sat_add u64_max start_time limit) n in
  r ← wait_write_event fd (Z.min left_time SLICE);
  mret (left_time, r).

(** [usize::try_from(r).expect(..)] and [received.try_into().expect(..)]. *)
Definition to_size (r : Z) : M W Z := _ ← assert_ (0 <=? r) "r overflow"; mret r.
Definition to_ssize (n : Z) : M W Z := _ ← assert_ (n <=? i64_max) "overflow"; mret n.

(** ** impl_nio_read! *)

Fixpoint nio_read_loop (fuel : nat) (inner : M W Z) (fd start_time left_time r : Z) : M W Z :=
  if 0 <? left_time then
    match fuel with
    | O => out_of_fuel
    | S fuel =>
        r ← inner;
        if negb (r =? -1) then _ ← reset_errno; mret r
        else
          e ← last_os_error;
          match kind e with
          | WouldBlock =>
              '(left_time, w) ← wait_read fd start_time;
              if is_err w then mret r
              else nio_read_loop fuel inner fd start_time left_time r
          | KindInterrupted => nio_read_loop fuel inner fd start_time left_time r
          | OtherKind => mret r
          end
    end
  else mret r.

Definition nio_read (fuel : nat) (inner : M W Z) (fd : Z) : M W Z :=
  s ← is_socket fd;
  if negb s then inner
  else with_non_blocking fd (
    start_time ← now_ clock;
    left_time ← recv_time_limit fd;
    nio_read_loop fuel inner fd start_time left_time (-1)).

(** ** impl_nio_read_buf! *)

Fixpoint nio_read_buf_loop (fuel : nat) (inner : Z → Z → M W Z) (fd buf len start_time
  left_time received r : Z) : M W Z :=
  if (received <? len) && (0 <? left_time) then
    match fuel with
    | O => out_of_fuel
    | S fuel =>
        r ← inner (wrap 64 (buf + received)) (len - received);
        (* [inl]: leave the loop with this value *)
        st ← (if negb (r =? -1) then
                _ ← reset_errno;
                n ← to_size r;
                let received := received + n in
                if (len <=? received) || (r =? 0)
                then r ← to_ssize received; mret (inl r)
                else mret (inr received)
              else mret (inr received));
        match st with
        | inl r => mret r
        | inr received =>
            e ← last_os_error;
            match kind e with
            | WouldBlock =>
                '(left_time, w) ← wait_read fd start_time;
                if is_err w then to_ssize received
                else nio_read_buf_loop fuel inner fd buf len start_time left_time received r
            | KindInterrupted =>
                nio_read_buf_loop fuel inner fd buf len start_time left_time received r
            | OtherKind => mret r
            end
        end
    end
  else mret r.

Definition nio_read_buf (fuel : nat) (inner : Z → Z → M W Z) (fd buf len : Z) : M W Z :=
  s ← is_socket fd;
  if negb s then inner buf len
  else with_non_blocking fd (
    start_time ← now_ clock;
    left_time ← recv_time_limit fd;
    nio_read_buf_loop fuel inner fd buf len start_time left_time 0 (-1)).
(** ** impl_nio_read_iovec!

    The lengths of the buffers are added up without wrap-around: buffers that
    exist fit into the address space. *)

(** [arg[0]] moved by [offset] in place. *)
Definition shift_first (offset : Z) (arg : list iovec) : M W (list iovec) :=
  if offset =? 0 then mret arg
  else match arg with
       | [] => panic "index out of bounds"
       | i :: arg => mret (mkIovec (wrap 64 (iov_base i + offset)) (wrap 64 (iov_len i - offset))
                             :: arg)
       end.

(** The inner loop, for one buffer: [inl r] returns [r] from the call,
    [inr (received, r, left_time)] goes on with the next buffer. *)
Fixpoint read_iovec_while (fuel : nat) (inner : list iovec → M W Z) (fd start_time stage length : Z)
  (arg : list iovec) (offset received r left_time : Z) : M W (Z + Z * Z * Z) :=
  if (received <? length) && (0 <? left_time) then
    match fuel with
    | O => out_of_fuel
    | S fuel =>
        arg ← shift_first offset arg;
        _ ← assert_ (Zlen arg <=? i32_max) "iovcnt overflow";
        r ← inner arg;
        if r =? 0 then r ← to_ssize received; mret (inl r)
        else
          st ← (if negb (r =? -1) then
                  _ ← reset_errno;
                  n ← to_size r;
                  let received := received + n in
                  if length <=? received
                  then r ← to_ssize received; mret (inl (received, r))
                  else mret (inr (received, sat_sub received stage))
                else mret (inr (received, offset)));
          match st with
          | inl (received, r) => mret (inr (received, r, left_time))
          | inr (received, offset) =>
              e ← last_os_error;
              match kind e with
              | WouldBlock =>
                  '(left_time, w) ← wait_read fd start_time;
                  if is_err w then r ← to_ssize received; mret (inl r)
                  else read_iovec_while fuel inner fd start_time stage length arg offset
                         received r left_time
              | KindInterrupted =>
                  read_iovec_while fuel inner fd start_time stage length arg offset
                    received r left_time
              | OtherKind => mret (inl r)
              end
          end
    end
  else mret (inr (received, r, left_time)).

(** The outer loop, over the buffers. *)
Fixpoint read_iovec_for (fuel : nat) (inner : list iovec → M W Z) (fd start_time : Z)
  (vec todo : list iovec) (length received r : Z) (index : nat) (left_time : Z) : M W Z :=
  match todo with
  | [] => mret r
  | iovec :: todo =>
      let stage := length in
      let offset := sat_sub received stage in
      let length := length + iov_len iovec in
      if length <? received then
        read_iovec_for fuel inner fd start_time vec todo length received r (S index) left_time
      else
        x ← read_iovec_while fuel inner fd start_time stage length (drop index vec) offset
              received r left_time;
        match x with
        | inl r => mret r
        | inr (received, r, left_time) =>
            read_iovec_for fuel inner fd start_time vec todo length received r
              (if length <=? received then S index else index) left_time
        end
  end.

Definition nio_read_iovec (fuel : nat) (inner : list iovec → M W Z) (fd : Z) (iov : list iovec)
  : M W Z :=
  s ← is_socket fd;
  if negb s then inner iov
  else with_non_blocking fd (
    start_time ← now_ clock;
    left_time ← recv_time_limit fd;
    read_iovec_for fuel inner fd start_time iov iov 0 0 (-1) 0 left_time).

(** ** impl_nio_write_buf! *)

Fixpoint nio_write_buf_loop (fuel : nat) (inner : Z → Z → M W Z) (fd buf len start_time
  left_time sent r : Z) : M W Z :=
  if (sent <? len) && (0 <? left_time) then
    match fuel with
    | O => out_of_fuel
    | S fuel =>
        r ← inner (wrap 64 (buf + sent)) (len - sent);
        st ← (if negb (r =? -1) then
                _ ← reset_errno;
                n ← to_size r;
                let sent := sent + n in
                if len <=? sent then r ← to_ssize sent; mret (inl r) else mret (inr sent)
              else mret (inr sent));
        match st with
        | inl r => mret r
        | inr sent =>
            e ← last_os_error;
            match kind e with
            | WouldBlock =>
                '(left_time, w) ← wait_write fd start_time;
                if is_err w then to_ssize sent
                else nio_write_buf_loop fuel inner fd buf len start_time left_time sent r
            | KindInterrupted =>
                nio_write_buf_loop fuel inner fd buf len start_time left_time sent r
            | OtherKind => mret r
            end
        end
    end
  else mret r.

Definition nio_write_buf (fuel : nat) (inner : Z → Z → M W Z) (fd buf len : Z) : M W Z :=
  s ← is_socket fd;
  if negb s then inner buf len
  else with_non_blocking fd (
    start_time ← now_ clock;
    left_time ← send_time_limit fd;
    nio_write_buf_loop fuel inner fd buf len start_time left_time 0 (-1)).

(** ** impl_nio_write_iovec! *)

Fixpoint write_iovec_while (fuel : nat) (inner : list iovec → M W Z) (fd start_time stage
  length : Z) (arg : list iovec) (offset sent r left_time : Z) : M W (Z + Z * Z * Z) :=
  if (sent <? length) && (0 <? left_time) then
    match fuel with
    | O => out_of_fuel
    | S fuel =>
        arg ← shift_first offset arg;
        _ ← assert_ (Zlen arg <=? i32_max) "iovcnt overflow";
        r ← inner arg;
        st ← (if negb (r =? -1) then
                _ ← reset_errno;
                n ← to_size r;
                let sent := sent + n in
                if length <=? sent
                then r ← to_ssize sent; mret (inl (sent, r))
                else mret (inr (sent, sat_sub sent stage))
              else mret (inr (sent, offset)));
        match st with
        | inl (sent, r) => mret (inr (sent, r, left_time))
        | inr (sent, offset) =>
            e ← last_os_error;
            match kind e with
            | WouldBlock =>
                '(left_time, w) ← wait_write fd start_time;
                if is_err w then r ← to_ssize sent; mret (inl r)
                else write_iovec_while fuel inner fd start_time stage length arg offset
                       sent r left_time
            | KindInterrupted =>
                write_iovec_while fuel inner fd start_time stage length arg offset
                  sent r left_time
            | OtherKind => mret (inl r)
            end
        end
    end
  else mret (inr (sent, r, left_time)).

Fixpoint write_iovec_for (fuel : nat) (inner : list iovec → M W Z) (fd start_time : Z)
  (vec todo : list iovec) (length sent r : Z) (index : nat) (left_time : Z) : M W Z :=
  match todo with
  | [] => mret r
  | iovec :: todo =>
      let stage := length in
      let offset := sat_sub sent stage in
      let length := length + iov_len iovec in
      if length <? sent then
        write_iovec_for fuel inner fd start_time vec todo length sent r (S index) left_time
      else
        x ← write_iovec_while fuel inner fd start_time stage length (drop index vec) offset
              sent r left_time;
        match x with
        | inl r => mret r
        | inr (sent, r, left_time) =>
            write_iovec_for fuel inner fd start_time vec todo length sent r
              (if length <=? sent then S index else index) left_time
        end
  end.

Definition nio_write_iovec (fuel : nat) (inner : list iovec → M W Z) (fd : Z) (iov : list iovec)
  : M W Z :=
  s ← is_socket fd;
  if negb s then inner iov
  else with_non_blocking fd (
    start_time ← now_ clock;
    left_time ← send_time_limit fd;
    write_iovec_for fuel inner fd start_time iov iov 0 0 (-1) 0 left_time).
(** ** impl_raw! and impl_facade! *)

(** The original function when the caller has it, the C library's otherwise. *)
Definition raw (fn_ptr : option (M W Z)) (libc_call : M W Z) : M W Z :=
  match fn_ptr with Some f => f | None => libc_call end.

Definition facade (name : SyscallName) (inner : M W Z) : M W Z :=
  co ← current;
  _ ← match co with
      | Some h => _ ← syscall listener_call h tt name Executing; mret tt
      | None => mret tt
      end;
  r ← inner;
  co ← current;
  _ ← match co with
      | Some h => _ ← running clock listener_call h; mret tt
      | None => mret tt
      end;
  mret r.

(** ** impl_io_uring!, impl_io_uring_read! and impl_io_uring_write! *)

(** What the current coroutine does in state [Syscall]; [None] otherwise. *)
Definition in_syscall {A} (k : handle → SyscallName → SyscallState → M W (option A))
  : M W (option A) :=
  co ← current;
  match co with
  | None => mret None
  | Some h =>
      s ← state h;
      match s with
      | Syscall _ name st => k h name st
      | _ => mret None
      end
  end.

(** [suspender.suspend()], when there is a suspender. *)
Definition suspend_current : M W unit :=
  s ← gets (λ w, head (SUSPENDER (tls w)));
  match s with
  | Some h => _ ← suspend_enter; _ ← switch; suspend_leave h
  | None => mret tt
  end.

(** The result of the ring: [fits] is the range of the result's type. *)
Definition uring_result (fits : Z → bool) (wait_result : M W Z) : M W Z :=
  result ← wait_result;
  _ ← assert_ (fits result) "io_uring syscall result overflow";
  if result <? 0 then
    _ ← assert_ (- result <=? i32_max) "io_uring errno overflow";
    _ ← set_errno (- result);
    mret (-1)
  else mret result.

Definition to_suspend (t : M W Z) : M W (option unit) :=
  in_syscall (λ h name st,
    match st with
    | Executing => t ← t; _ ← syscall listener_call h tt name (SSuspend t); mret None
    | _ => mret None
    end).

(** [submit] hands the call to the ring of the event loop and returns the
    handle to wait on; when it fails the next layer is tried. *)
Definition io_uring {T} (fits : Z → bool) (submit : M W (io_result T)) (wait_result : T → M W Z)
  (inner : M W Z) : M W Z :=
  r ← submit;
  match r with
  | IoErr _ => inner
  | IoOk arc =>
      _ ← to_suspend (mret u64_max);
      _ ← suspend_current;
      _ ← in_syscall (λ h name st,
            match st with
            | Callback => _ ← syscall listener_call h tt name Executing; mret (@None unit)
            | _ => mret None
            end);
      uring_result fits (wait_result arc)
  end.

(** After the switch back: a timed-out call fails with [ETIMEDOUT]. *)
Definition after_timed_suspend : M W (option Z) :=
  in_syscall (λ h name st,
    match st with
    | Timeout => _ ← set_errno ETIMEDOUT; mret (Some (-1))
    | Callback => _ ← syscall listener_call h tt name Executing; mret None
    | _ => mret None
    end).

Definition io_uring_read {T} (fits : Z → bool) (submit : M W (io_result T))
  (wait_result : T → M W Z) (fd : Z) (inner : M W Z) : M W Z :=
  r ← submit;
  match r with
  | IoErr _ => inner
  | IoOk arc =>
      _ ← to_suspend (n ← now_ clock; limit ← recv_time_limit fd; mret (sat_add u64_max n limit));
      _ ← suspend_current;
      x ← after_timed_suspend;
      match x with
      | Some r => mret r
      | None => uring_result fits (wait_result arc)
      end
  end.

Definition io_uring_write {T} (fits : Z → bool) (submit : M W (io_result T))
  (wait_result : T → M W Z) (fd : Z) (inner : M W Z) : M W Z :=
  r ← submit;
  match r with
  | IoErr _ => inner
  | IoOk arc =>
      _ ← to_suspend (n ← now_ clock; limit ← send_time_limit fd; mret (sat_add u64_max n limit));
      _ ← suspend_current;
      x ← after_timed_suspend;
      match x with
      | Some r => mret r
      | None => uring_result fits (wait_result arc)
      end
  end.
End layers.

(** ** The facade *)

Section facade_properties.
Context {I X : Type} `{!HasSys X}.
Abbreviation W := (World unit (option Z) I X).
Implicit Types (w : W) (h : handle).
Context (clock : nat → Z) (listener_call : nat → handle → event unit (option Z) → M W unit)
  (wrel : W → W → Prop) `{!Allowed wrel} (lok : listeners_ok listener_call wrel).

(** [h] is the current coroutine and is in state [s]. *)
Definition current_in h (s : CoroutineState unit (option Z)) w : Prop :=
  head (COROUTINE (tls w)) = Some h ∧ co_state_of w h = Some s.

Lemma current_in_co h s w : current_in h s w → ∃ c, cos w !! h = Some c ∧ co_state c = s.
Proof.
  intros [_ Hs]. unfold co_state_of in Hs. destruct (cos w !! h) as [c|]; [|done].
  exists c. split; [done|]. by injection Hs.
Qed.

Lemma moved_current h s s' w w' :
  current_in h s w → moved wrel h s' w w' → current_in h s' w'.
Proof.
  intros Hc Hm. destruct (current_in_co h s w Hc) as (c & Hco & _). destruct Hc as [Hh _].
  split; [by rewrite (moved_tls _ _ _ _ _ Hm)|]. eapply moved_state; [by eexists|done].
Qed.

(** [syscall] in a system call of the same name. *)
Lemma syscall_spec h nm st st' w :
  current_in h (Syscall tt nm st) w →
  ∃ w', syscall listener_call h tt nm st' w = Done (IoOk tt) w'
    ∧ current_in h (Syscall tt nm st') w'.
Proof.
  intros Hc. destruct (current_in_co h _ w Hc) as (c & Hco & Hs).
  destruct (run_op_spec clock listener_call wrel lok h (OpSyscall tt nm st') w c Hco)
    as (r & w' & Hr & Hp). unfold op_post in Hp. rewrite Hs in Hp.
  destruct r as [[]|e].
  - destruct Hp as (s & Hstep & Hm). exists w'. split; [done|].
    assert (s = Syscall tt nm st') as -> by (clear -Hstep; by inversion Hstep).
    by eapply moved_current.
  - destruct Hp as [_ Hno]. exfalso. eapply Hno. by constructor.
Qed.

Lemma facade_aux nm inner (Q : Z → SyscallState → Prop) h w :
  current_in h Running w →
  (∀ w1, current_in h (Syscall tt nm Executing) w1 → tls w1 = tls w →
     ∃ r st w2, inner w1 = Done r w2 ∧ current_in h (Syscall tt nm st) w2 ∧ Q r st) →
  ∃ r st w', facade clock listener_call nm inner w = Done r w' ∧ Q r st
    ∧ current_in h (if decide (st = Executing) then Running else Syscall tt nm st) w'.
Proof.
  intros Hcur Hin. destruct (current_in_co h _ w Hcur) as (c & Hco & Hs).
  unfold facade. erewrite bind_done by reflexivity. rewrite (proj1 Hcur). cbv beta iota.
  destruct (run_op_spec clock listener_call wrel lok h (OpSyscall tt nm Executing) w c Hco)
    as (r0 & w1 & Hr0 & Hp0). unfold op_post in Hp0. rewrite Hs in Hp0.
  destruct r0 as [[]|e].
  2: { destruct Hp0 as [_ Hno]. exfalso. eapply Hno. by constructor. }
  destruct Hp0 as (s1 & Hstep & Hm). assert (s1 = Syscall tt nm Executing) as ->
    by (clear -Hstep; by inversion Hstep).
  rewrite bind_assoc. erewrite bind_done by exact Hr0. erewrite bind_done by reflexivity.
  destruct (Hin w1) as (r & st & w2 & Hr & Hc2 & HQ); [by eapply moved_current|by eapply moved_tls|].
  erewrite bind_done by exact Hr. erewrite bind_done by reflexivity. rewrite (proj1 Hc2).
  cbv beta iota. destruct (current_in_co h _ w2 Hc2) as (c2 & Hco2 & Hs2).
  destruct (run_op_spec clock listener_call wrel lok h OpRunning w2 c2 Hco2)
    as (r3 & w3 & Hr3 & Hp3). unfold op_post in Hp3. rewrite Hs2 in Hp3.
  rewrite bind_assoc. erewrite bind_done by exact Hr3. erewrite bind_done by reflexivity.
  exists r, st, w3. split; [done|]. split; [done|]. destruct r3 as [u|e].
  - destruct Hp3 as (s3 & Hstep3 & Hm3).
    pose proof (moved_current _ _ _ _ _ Hc2 Hm3) as Hc3. destruct st; inversion Hstep3; by subst.
  - destruct Hp3 as [Hf Hno]. assert (st ≠ Executing) as Hne.
    { intros ->. eapply Hno. constructor. }
    rewrite decide_False by done. split.
    + destruct Hf as [(-> & _) _]. apply Hc2.
    + rewrite (frame_state wrel w2 w3 h); [apply Hc2|by eexists|done].
Qed.

(** The facade brackets a system call: a running coroutine is in state
    [Syscall] with the call's name and [Executing] while the inner layer runs,
    and the caller gets the inner layer's result. Afterwards the coroutine
    runs again if the inner layer left it [Executing]; left in any other
    phase, such as [Timeout], it stays in the system call. *)
Theorem facade_brackets nm inner (Q : Z → SyscallState → Prop) h w :
  current_in h Running w →
  (∀ w1, current_in h (Syscall tt nm Executing) w1 → tls w1 = tls w →
     ∃ r st w2, inner w1 = Done r w2 ∧ current_in h (Syscall tt nm st) w2 ∧ Q r st) →
  ∃ r st w', facade clock listener_call nm inner w = Done r w' ∧ Q r st
    ∧ current_in h (if decide (st = Executing) then Running else Syscall tt nm st) w'.
Proof. apply facade_aux. Qed.

Lemma to_suspend_spec h nm (t : M W Z) w :
  current_in h (Syscall tt nm Executing) w →
  (∀ w1, current_in h (Syscall tt nm Executing) w1 →
     ∃ v w2, t w1 = Done v w2 ∧ current_in h (Syscall tt nm Executing) w2
       ∧ SUSPENDER (tls w2) = SUSPENDER (tls w1)) →
  ∃ v w', to_suspend listener_call t w = Done None w'
    ∧ current_in h (Syscall tt nm (SSuspend v)) w'
    ∧ SUSPENDER (tls w') = SUSPENDER (tls w).
Proof.
  intros Hc Ht. destruct (current_in_co h _ w Hc) as (c & Hco & Hs).
  unfold to_suspend, in_syscall. erewrite bind_done by reflexivity. rewrite (proj1 Hc).
  erewrite bind_done by (unfold state, with_co; rewrite Hco; reflexivity). rewrite Hs.
  cbv beta iota. destruct (Ht w Hc) as (v & w1 & Hv & Hc1 & Ht1).
  erewrite bind_done by exact Hv.
  destruct (syscall_spec h nm Executing (SSuspend v) w1 Hc1) as (w2 & Hr & Hc2).
  erewrite bind_done by exact Hr. exists v, w2. split; [done|]. split; [done|].
  rewrite <-Ht1.
  by rewrite (run_op_tls clock listener_call wrel lok h (OpSyscall tt nm (SSuspend v)) w1 _ w2 Hr).
Qed.

(** The deadline of a timed call. *)
Lemma deadline_spec (time_limit : M W Z) h nm :
  (∀ s w1, current_in h s w1 → ∃ limit w2, time_limit w1 = Done limit w2
     ∧ current_in h s w2 ∧ SUSPENDER (tls w2) = SUSPENDER (tls w1)) →
  ∀ w1, current_in h (Syscall tt nm Executing) w1 →
     ∃ v w2, (n ← now_ clock; limit ← time_limit; mret (sat_add u64_max n limit)) w1 = Done v w2
       ∧ current_in h (Syscall tt nm Executing) w2
       ∧ SUSPENDER (tls w2) = SUSPENDER (tls w1).
Proof.
  intros Hlim w1 Hc. erewrite bind_done by reflexivity.
  destruct (Hlim _ (tick_world w1) Hc) as (limit & w2 & Hl & Hc2 & Ht2).
  erewrite bind_done by exact Hl. by eexists _, w2.
Qed.

(** The switch of a coroutine whose call gets to phase [st] meanwhile. *)
Lemma suspend_into switch h nm st v w :
  current_in h (Syscall tt nm (SSuspend v)) w → is_Some (head (SUSPENDER (tls w))) →
  (∀ t w1, current_in h (Syscall tt nm (SSuspend t)) w1 →
     ∃ w2, switch w1 = Done tt w2 ∧ current_in h (Syscall tt nm st) w2) →
  ∃ w', suspend_current switch w = Done tt w' ∧ current_in h (Syscall tt nm st) w'.
Proof.
  intros Hc [hs Hs] Hsw. unfold suspend_current. erewrite bind_done by reflexivity. rewrite Hs.
  erewrite bind_done by reflexivity.
  match goal with |- context [set_tls tls_pop_susp w] =>
    destruct (Hsw v (set_tls tls_pop_susp w) Hc) as (w2 & Hw2 & Hc2) end.
  erewrite bind_done by exact Hw2. by eexists.
Qed.

Lemma after_timeout h nm w :
  current_in h (Syscall tt nm Timeout) w →
  ∃ w', after_timed_suspend listener_call w = Done (Some (-1)) w'
    ∧ current_in h (Syscall tt nm Timeout) w'.
Proof.
  intros Hc. destruct (current_in_co h _ w Hc) as (c & Hco & Hs).
  unfold after_timed_suspend, in_syscall. erewrite bind_done by reflexivity.
  rewrite (proj1 Hc).
  erewrite bind_done by (unfold state, with_co; rewrite Hco; reflexivity). rewrite Hs.
  cbv beta iota. erewrite bind_done by reflexivity. by eexists.
Qed.

(** A system call that times out in the ring leaves its coroutine behind:
    the call fails with [ETIMEDOUT], but the coroutine stays in state
    [Syscall] with phase [Timeout], so that it can no longer complete (nor
    suspend or be cancelled): the state change is refused. *)
Theorem uring_timeout_sticks {T} libc switch fits (submit : M W (io_result T)) wait_result fd
  inner nm h w :
  current_in h Running w → is_Some (head (SUSPENDER (tls w))) →
  (∀ s w1, current_in h s w1 → ∃ arc w2, submit w1 = Done (IoOk arc) w2
     ∧ current_in h s w2 ∧ SUSPENDER (tls w2) = SUSPENDER (tls w1)) →
  (∀ s w1, current_in h s w1 → ∃ limit w2, recv_time_limit libc fd w1 = Done limit w2
     ∧ current_in h s w2 ∧ SUSPENDER (tls w2) = SUSPENDER (tls w1)) →
  (∀ t w1, current_in h (Syscall tt nm (SSuspend t)) w1 →
     ∃ w2, switch w1 = Done tt w2 ∧ current_in h (Syscall tt nm Timeout) w2) →
  ∃ w', facade clock listener_call nm
      (io_uring_read clock listener_call libc switch fits submit wait_result fd inner) w
      = Done (-1) w'
    ∧ current_in h (Syscall tt nm Timeout) w'
    ∧ ∀ v, complete listener_call h v w' = Done (IoErr (Other "unexpected state")) w'.
Proof.
  intros Hc Hsusp Hsub Hlim Hsw.
  destruct (facade_aux nm (io_uring_read clock listener_call libc switch fits submit wait_result
    fd inner) (λ r st, r = -1 ∧ st = Timeout) h w Hc) as (r & st & w' & Hr & [-> ->] & Hc').
  { intros w1 Hc1 Ht1. unfold io_uring_read.
    destruct (Hsub _ w1 Hc1) as (arc & w2 & H2 & Hc2 & Ht2).
    erewrite bind_done by exact H2.
    destruct (to_suspend_spec h nm _ w2 Hc2 (deadline_spec _ h nm Hlim))
      as (v & w3 & H3 & Hc3 & Ht3).
    erewrite bind_done by exact H3.
    destruct (suspend_into switch h nm Timeout v w3) as (w4 & H4 & Hc4); try done.
    { by rewrite Ht3, Ht2, Ht1. }
    erewrite bind_done by exact H4.
    destruct (after_timeout h nm w4 Hc4) as (w5 & H5 & Hc5).
    erewrite bind_done by exact H5.
    by exists (-1), Timeout, w5. }
  exists w'. split; [done|]. rewrite decide_False in Hc' by done. split; [done|].
  intros v. destruct (current_in_co h _ w' Hc') as (c & Hco & Hs).
  unfold complete. erewrite bind_done by (unfold state, with_co; rewrite Hco; reflexivity).
  by rewrite Hs.
Qed.
End facade_properties.

(** ** The nio layers *)

(** The five layers with their arguments, and what they hand to the next one. *)
Inductive nio_layer : Type :=
| LRead
| LReadBuf (buf len : Z)
| LReadIovec (iov : list iovec)
| LWriteBuf (buf len : Z)
| LWriteIovec (iov : list iovec).

Inductive nio_args : Type := ANone | ABuf (buf len : Z) | AIovec (iov : list iovec).

Section nio_properties.
Context {I X : Type} `{!HasSys X}.
Abbreviation W := (World unit (option Z) I X).
Implicit Types (w : W).
Context (clock : nat → Z) (libc : Libc W)
  (wait_read_event wait_write_event : Z → Z → M W (io_result unit)).

Definition run_nio (fuel : nat) (l : nio_layer) (inner : nio_args → M W Z) (fd : Z) : M W Z :=
  match l with
  | LRead => nio_read clock libc wait_read_event fuel (inner ANone) fd
  | LReadBuf buf len =>
      nio_read_buf clock libc wait_read_event fuel (λ b n, inner (ABuf b n)) fd buf len
  | LReadIovec iov =>
      nio_read_iovec clock libc wait_read_event fuel (λ v, inner (AIovec v)) fd iov
  | LWriteBuf buf len =>
      nio_write_buf clock libc wait_write_event fuel (λ b n, inner (ABuf b n)) fd buf len
  | LWriteIovec iov =>
      nio_write_iovec clock libc wait_write_event fuel (λ v, inner (AIovec v)) fd iov
  end.

(** Something observed of the world through its extension. *)
Section observed.
Context (fd : Z) {O : Type} (obs : X → O).

(** A computation that leaves it alone. *)
Definition holds {A} (m : M W A) : Prop :=
  ∀ w r w', m w = Done r w' → obs (ext w') = obs (ext w).

(** None of the calls around the inner layer changes it. *)
Record obs_laws : Prop := {
  obs_sys f x : obs (set_sys f x) = obs x;
  obs_stat : holds (fstat_mode libc fd);
  obs_sockopt b : holds (getsockopt_timeo libc b fd);
  obs_wait_read t : holds (wait_read_event fd t);
  obs_wait_write t : holds (wait_write_event fd t);
}.
Context (laws : obs_laws).

(** Where [F] is observed, [m1] and [m2] do the same and leave it so. *)
Definition agree {A} (F : O) (m1 m2 : M W A) : Prop :=
  ∀ w, obs (ext w) = F → m1 w = m2 w ∧ ∀ r w', m2 w = Done r w' → obs (ext w') = F.

Lemma agree_bind {A B} F (m1 m2 : M W A) (k1 k2 : A → M W B) :
  agree F m1 m2 → (∀ a, agree F (k1 a) (k2 a)) → agree F (m1 ≫= k1) (m2 ≫= k2).
Proof.
  intros Hm Hk w HF. destruct (Hm w HF) as [Heq Hf]. unfold mbind, M_bind. rewrite Heq.
  destruct (m2 w) as [a w1| |]; try done. apply Hk. by apply (Hf a).
Qed.

Lemma agree_holds {A} F (m : M W A) : holds m → agree F m m.
Proof. intros Hm w HF. split; [done|]. intros r w' Hr. rewrite (Hm w r w' Hr). done. Qed.

Lemma holds_ret {A} (a : A) : holds (mret a).
Proof. by intros w r w' [= <- <-]. Qed.
Lemma holds_gets {A} (f : W → A) : holds (gets f).
Proof. by intros w r w' [= <- <-]. Qed.
Lemma holds_assert b msg : holds (assert_ b msg).
Proof. intros w r w'. unfold assert_. destruct b; [by intros [= _ <-]|done]. Qed.
Lemma holds_panic {A} msg : holds (@panic W A msg).
Proof. by intros w r w'. Qed.
Lemma holds_fuel {A} : holds (@out_of_fuel W A).
Proof. by intros w r w'. Qed.
Lemma holds_now : holds (now_ clock).
Proof. by intros w r w' [= <- <-]. Qed.
Lemma holds_sys f : holds (modify (set_ext (set_sys f))).
Proof. intros w r w' [= <- <-]. simpl. apply (obs_sys laws). Qed.
Lemma holds_bind {A B} (m : M W A) (k : A → M W B) :
  holds m → (∀ a, holds (k a)) → holds (m ≫= k).
Proof.
  intros Hm Hk w r w' (a & w1 & H1 & H2)%bind_done_inv.
  rewrite (Hk a _ _ _ H2). by apply (Hm _ _ _ H1).
Qed.

Create HintDb flags discriminated.
Hint Resolve holds_ret holds_gets holds_assert holds_panic holds_fuel holds_now holds_sys
  obs_stat obs_sockopt obs_wait_read obs_wait_write laws : flags.

(** Both notions go through a computation sequence by sequence and branch by
    branch. *)
Ltac holding :=
  repeat first
  [ solve [eauto with flags]
  | apply holds_bind; [|intros ?]
  | case_match ].
Ltac agreeing :=
  repeat first
  [ solve [eauto with flags]
  | solve [apply agree_holds; holding]
  | apply agree_bind; [|intros ?]
  | case_match ].

Lemma holds_recv_limit : holds (recv_time_limit libc fd).
Proof. unfold recv_time_limit, last_os_error, get_time_limit. holding. Qed.
Lemma holds_send_limit : holds (send_time_limit libc fd).
Proof. unfold send_time_limit, last_os_error, get_time_limit. holding. Qed.
Hint Resolve holds_recv_limit holds_send_limit : flags.

Lemma holds_wait_read st : holds (wait_read clock libc wait_read_event fd st).
Proof. unfold wait_read. holding. Qed.
Lemma holds_wait_write st : holds (wait_write clock libc wait_write_event fd st).
Proof. unfold wait_write. holding. Qed.
Hint Resolve holds_wait_read holds_wait_write : flags.

Lemma holds_is_socket : holds (is_socket libc fd).
Proof. unfold is_socket. holding. Qed.

Lemma holds_shift offset arg : holds (shift_first offset arg).
Proof. unfold shift_first. holding. Qed.
Hint Resolve holds_shift : flags.

Section inners.
Context (F : O) (inner1 inner2 : nio_args → M W Z) (Hinner : ∀ a, agree F (inner1 a) (inner2 a)).
Hint Resolve Hinner : flags.

Ltac loop := unfold last_os_error, reset_errno, set_errno, to_size, to_ssize; agreeing.

Lemma agree_read_loop fuel start left_time r :
  agree F (nio_read_loop clock libc wait_read_event fuel (inner1 ANone) fd start left_time r)
    (nio_read_loop clock libc wait_read_event fuel (inner2 ANone) fd start left_time r).
Proof. revert left_time r. induction fuel; intros; simpl; loop. Qed.

Lemma agree_read_buf_loop fuel buf len start left_time received r :
  agree F (nio_read_buf_loop clock libc wait_read_event fuel (λ b n, inner1 (ABuf b n)) fd
             buf len start left_time received r)
    (nio_read_buf_loop clock libc wait_read_event fuel (λ b n, inner2 (ABuf b n)) fd
             buf len start left_time received r).
Proof. revert left_time received r. induction fuel; intros; simpl; loop. Qed.

Lemma agree_write_buf_loop fuel buf len start left_time sent r :
  agree F (nio_write_buf_loop clock libc wait_write_event fuel (λ b n, inner1 (ABuf b n)) fd
             buf len start left_time sent r)
    (nio_write_buf_loop clock libc wait_write_event fuel (λ b n, inner2 (ABuf b n)) fd
             buf len start left_time sent r).
Proof. revert left_time sent r. induction fuel; intros; simpl; loop. Qed.

Lemma agree_read_iovec_while fuel start stage length arg offset received r left_time :
  agree F (read_iovec_while clock libc wait_read_event fuel (λ v, inner1 (AIovec v)) fd
             start stage length arg offset received r left_time)
    (read_iovec_while clock libc wait_read_event fuel (λ v, inner2 (AIovec v)) fd
             start stage length arg offset received r left_time).
Proof. revert arg offset received r left_time. induction fuel; intros; simpl; loop. Qed.

Lemma agree_write_iovec_while fuel start stage length arg offset sent r left_time :
  agree F (write_iovec_while clock libc wait_write_event fuel (λ v, inner1 (AIovec v)) fd
             start stage length arg offset sent r left_time)
    (write_iovec_while clock libc wait_write_event fuel (λ v, inner2 (AIovec v)) fd
             start stage length arg offset sent r left_time).
Proof. revert arg offset sent r left_time. induction fuel; intros; simpl; loop. Qed.
Hint Resolve agree_read_loop agree_read_buf_loop agree_write_buf_loop agree_read_iovec_while
  agree_write_iovec_while : flags.

Lemma agree_read_iovec_for fuel start vec todo length received r index left_time :
  agree F (read_iovec_for clock libc wait_read_event fuel (λ v, inner1 (AIovec v)) fd
             start vec todo length received r index left_time)
    (read_iovec_for clock libc wait_read_event fuel (λ v, inner2 (AIovec v)) fd
             start vec todo length received r index left_time).
Proof. revert length received r index left_time. induction todo; intros; simpl; loop. Qed.

Lemma agree_write_iovec_for fuel start vec todo length sent r index left_time :
  agree F (write_iovec_for clock libc wait_write_event fuel (λ v, inner1 (AIovec v)) fd
             start vec todo length sent r index left_time)
    (write_iovec_for clock libc wait_write_event fuel (λ v, inner2 (AIovec v)) fd
             start vec todo length sent r index left_time).
Proof. revert length sent r index left_time. induction todo; intros; simpl; loop. Qed.
End inners.
End observed.

(** *** Blocking mode *)

(** [fl x fd] is the flag word of the descriptor. *)
Section blocking_mode.
Context (fl : X → Z → Z) (fd : Z).

Definition non_blocking_mode w : Prop := Z.land (fl (ext w) fd) O_NONBLOCK ≠ 0.

(** [fcntl] reads and writes the flags of an open descriptor; nothing else
    that the layers call does. *)
Record fd_laws : Prop := {
  fl_obs : obs_laws fd (λ x, fl x fd);
  fl_open w : 0 ≤ fl (ext w) fd;
  fl_get w : fcntl_getfl libc fd w = Done (fl (ext w) fd) w;
  fl_set flags w : 0 ≤ flags →
    ∃ w', fcntl_setfl libc fd flags w = Done 0 w' ∧ fl (ext w') fd = flags;
}.
Context (laws : fd_laws).
Abbreviation agree := (agree (λ x, fl x fd)).
Abbreviation holds := (holds (λ x, fl x fd)).

Lemma set_clear_nonblock f : Z.land f O_NONBLOCK = 0 → Z.ldiff (Z.lor f O_NONBLOCK) O_NONBLOCK = f.
Proof.
  intros Hz. apply Z.bits_inj. intros i. rewrite Z.ldiff_spec, Z.lor_spec.
  assert (Z.testbit f i && Z.testbit O_NONBLOCK i = false) as Hb.
  { by rewrite <-Z.land_spec, Hz, Z.bits_0. }
  by destruct (Z.testbit f i), (Z.testbit O_NONBLOCK i).
Qed.

Lemma nonblock_set f : Z.land (Z.lor f O_NONBLOCK) O_NONBLOCK ≠ 0.
Proof.
  intros H. apply (f_equal (λ z, Z.testbit z 11)) in H.
  rewrite Z.land_spec, Z.lor_spec, Z.bits_0 in H.
  change (Z.testbit O_NONBLOCK 11) with true in H. by rewrite orb_true_r in H.
Qed.

Lemma is_blocking_spec w :
  is_blocking libc fd w = Done (Z.land (fl (ext w) fd) O_NONBLOCK =? 0) w.
Proof.
  unfold is_blocking, is_non_blocking. rewrite bind_assoc.
  rewrite (bind_done _ _ _ _ _ (fl_get laws w)).
  pose proof (fl_open laws w). destruct (fl (ext w) fd <? 0) eqn:E; breflect; [lia|].
  munfold. by destruct (Z.land _ _ =? 0).
Qed.

Lemma set_flag_spec on w :
  ∃ w', set_non_blocking_flag libc fd on w = Done true w'
    ∧ fl (ext w') fd = if on then Z.lor (fl (ext w) fd) O_NONBLOCK
                       else Z.ldiff (fl (ext w) fd) O_NONBLOCK.
Proof.
  pose proof (fl_open laws w) as Hop. unfold set_non_blocking_flag.
  rewrite (bind_done _ _ _ _ _ (fl_get laws w)).
  destruct (fl (ext w) fd <? 0) eqn:E; breflect; [lia|].
  match goal with |- context [fcntl_setfl libc fd ?f] =>
    destruct (fl_set laws f w) as (w' & Hs & Hf) end.
  { destruct on; [apply Z.lor_nonneg|apply Z.ldiff_nonneg]; split || left; done. }
  erewrite bind_done by exact Hs. exists w'. split; [done|]. rewrite Hf. by destruct on.
Qed.

(** Inside the frame the descriptor does not block, afterwards it has its old
    flags. *)
Lemma with_non_blocking_spec {A} (body1 body2 : M W A) w :
  (∀ F, Z.land F O_NONBLOCK ≠ 0 → agree F body1 body2) →
  with_non_blocking libc fd body1 w = with_non_blocking libc fd body2 w
  ∧ ∀ r w', with_non_blocking libc fd body2 w = Done r w' →
      fl (ext w') fd = fl (ext w) fd.
Proof.
  intros Hb. unfold with_non_blocking.
  rewrite !(bind_done _ _ _ _ _ (is_blocking_spec w)).
  destruct (Z.land (fl (ext w) fd) O_NONBLOCK =? 0) eqn:E; breflect.
  - destruct (set_flag_spec true w) as (w1 & Hs & Hf).
    assert (set_non_blocking libc fd w = Done tt w1) as Hs1.
    { unfold set_non_blocking. by erewrite bind_done by exact Hs. }
    rewrite !(bind_done _ _ _ _ _ Hs1).
    destruct (Hb _ (nonblock_set (fl (ext w) fd)) w1 Hf) as [Heq Hk].
    unfold mbind, M_bind. rewrite Heq. split; [done|]. intros r w'.
    destruct (body2 w1) as [a w2| |]; try done. specialize (Hk a w2 eq_refl).
    destruct (set_flag_spec false w2) as (w3 & Hs3 & Hf3). unfold set_blocking.
    unfold mbind, M_bind. rewrite Hs3. intros [= _ <-]. rewrite Hf3, Hk.
    by apply set_clear_nonblock.
  - erewrite !(bind_done (mret tt)) by reflexivity.
    destruct (Hb _ E w eq_refl) as [Heq Hk]. unfold mbind, M_bind. rewrite Heq.
    split; [done|]. intros r w'. destruct (body2 w) as [a w2| |]; try done.
    intros [= _ <-]. by apply (Hk a).
Qed.

(** A layer on a socket is its loop in the frame. *)
Lemma run_nio_spec fuel l inner1 inner2 w w1 :
  is_socket libc fd w = Done true w1 →
  (∀ F, Z.land F O_NONBLOCK ≠ 0 → ∀ a, agree F (inner1 a) (inner2 a)) →
  run_nio fuel l inner1 fd w = run_nio fuel l inner2 fd w
  ∧ ∀ r w', run_nio fuel l inner2 fd w = Done r w' → fl (ext w') fd = fl (ext w) fd.
Proof.
  intros Hs Hin. pose proof (holds_is_socket fd _ (fl_obs laws)) as Hso.
  rewrite <-(Hso _ _ _ Hs).
  destruct l; simpl; unfold nio_read, nio_read_buf, nio_read_iovec, nio_write_buf, nio_write_iovec;
    rewrite !(bind_done _ _ _ _ _ Hs); apply with_non_blocking_spec; intros F HF;
    specialize (Hin F HF); apply agree_bind; try (intros ?; apply agree_bind);
    try (apply agree_holds; by eauto using holds_now, holds_recv_limit, holds_send_limit, fl_obs);
    intros ?.
  - by eapply agree_read_loop; [apply laws|].
  - by eapply agree_read_buf_loop; [apply laws|].
  - by eapply agree_read_iovec_for; [apply laws|].
  - by eapply agree_write_buf_loop; [apply laws|].
  - by eapply agree_write_iovec_for; [apply laws|].
Qed.


End blocking_mode.

(** *** Counting bytes *)

(** [cnt x] is how many bytes the kernel has moved so far. *)
Section counting.
Context `{!HasSysLaws X} (fd : Z) (cnt : X → Z) (laws : obs_laws fd cnt)
  (getfl : holds cnt (fcntl_getfl libc fd)) (setfl : ∀ flags, holds cnt (fcntl_setfl libc fd flags)).
Context (inner : Z → Z → M W Z)
  (moves : ∀ buf n w r w', 0 ≤ n → inner buf n w = Done r w' →
     -1 ≤ r ≤ n ∧ cnt (ext w') = cnt (ext w) + Z.max 0 r).

(** The result [v] of a call of at most [len] bytes tells what was moved. *)
Definition told (len v : Z) w w' : Prop :=
  -1 ≤ v ≤ len ∧ cnt (ext w') = cnt (ext w) + Z.max 0 v.

Lemma frame_told {A} (body : M W A) w v w' :
  with_non_blocking libc fd body w = Done v w' →
  ∃ w1 w2, body w1 = Done v w2 ∧ cnt (ext w1) = cnt (ext w) ∧ cnt (ext w') = cnt (ext w2).
Proof.
  assert (∀ on, holds cnt (set_non_blocking_flag libc fd on)) as Hset.
  { intros on. unfold set_non_blocking_flag. apply holds_bind; [done|]. intros flags.
    case_match; [apply holds_ret|]. apply holds_bind; [done|]. intros ?. apply holds_ret. }
  assert (∀ (b : bool) (m : M W unit), holds cnt m → holds cnt (if b then m else mret tt)) as Hif.
  { intros [] m Hm; [done|apply holds_ret]. }
  intros (b & w1 & Hb & (u & w2 & Hu & (a & w3 & Ha & (u' & w4 & Hu' & [= <- <-])
    %bind_done_inv)%bind_done_inv)%bind_done_inv)%bind_done_inv.
  exists w2, w3. split; [done|]. split.
  - transitivity (cnt (ext w1)).
    + eapply Hif; [|exact Hu]. apply holds_bind; [apply Hset|]. intros ?. apply holds_assert.
    + eapply holds_bind; [|intros ?; apply holds_ret|exact Hb].
      apply holds_bind; [done|]. intros ?. apply holds_ret.
  - eapply Hif; [|exact Hu']. apply holds_bind; [apply Hset|]. intros ?. apply holds_assert.
Qed.

(** What the inner layer reports is final as soon as it moved something, since
    the errno is then reset; so the loop never adds up. *)
Lemma reset_errno_kind w u w' e w'' :
  reset_errno w = Done u w' → last_os_error w' = Done e w'' → kind e = OtherKind ∧ w'' = w'.
Proof.
  intros [= <- <-] [= <- <-]. simpl. by rewrite sys_set_sys.
Qed.

Lemma to_size_told r w n w' : to_size r w = Done n w' → n = r ∧ w' = w ∧ 0 ≤ r.
Proof.
  intros (u & w1 & Ha & [= <- <-])%bind_done_inv. revert Ha. unfold assert_.
  destruct (0 <=? r) eqn:E; breflect; [|done]. by intros [= _ <-].
Qed.

Lemma to_ssize_told r w n w' : to_ssize r w = Done n w' → n = r ∧ w' = w.
Proof.
  intros (u & w1 & Ha & [= <- <-])%bind_done_inv. revert Ha. unfold assert_.
  destruct (r <=? i64_max); [|done]. by intros [= _ <-].
Qed.

(** One attempt: try again, or end with what the inner layer said. *)
Ltac attempt IH wait_holds :=
  intros (r & w1 & Hr & (st & w2 & Hst & Hk)%bind_done_inv)%bind_done_inv;
  apply moves in Hr as [Hb Hc]; [|lia];
  destruct (r =? -1) eqn:Er; breflect; cbn [negb] in Hst;
  [ injection Hst as <- <-; subst r; apply bind_done_inv in Hk as (e & w2 & [= <- <-] & Hk);
    destruct (kind _);
    [ apply bind_done_inv in Hk as ([left' wr] & w2 & Hw & Hk); apply wait_holds in Hw;
      destruct (is_err wr);
      [ apply to_ssize_told in Hk as [-> ->]; unfold told; lia
      | apply IH in Hk as [? ?]; unfold told; lia ]
    | apply IH in Hk as [? ?]; unfold told; lia
    | injection Hk as <- <-; unfold told; lia ]
  | apply bind_done_inv in Hst as (u & w3 & Hre & (n & w4 & Hn & Hst)%bind_done_inv);
    pose proof (holds_sys fd cnt laws (set_errno_ 0) w1 u w3 Hre) as Hc3;
    apply to_size_told in Hn as (-> & -> & Hr0); rewrite Z.add_0_l in *;
    match type of Hst with (if ?b then _ else _) _ = _ => destruct b eqn:Ef end;
    [ apply bind_done_inv in Hst as (r' & w6 & [-> ->]%to_ssize_told & [= <- <-]);
      injection Hk as <- <-; unfold told; lia
    | injection Hst as <- <-; apply bind_done_inv in Hk as (e & w2 & He & Hk);
      destruct (reset_errno_kind _ _ _ _ _ Hre He) as [Hkind ->];
      rewrite Hkind in Hk; injection Hk as <- <-; unfold told; lia ] ].

Lemma read_buf_loop_told fuel buf len start left_time w v w' :
  0 ≤ len →
  nio_read_buf_loop clock libc wait_read_event fuel inner fd buf len start left_time 0 (-1) w
    = Done v w' → told len v w w'.
Proof.
  intros Hlen. revert left_time w.
  induction fuel as [|fuel IH]; intros left_time w; cbn [nio_read_buf_loop];
    (destruct ((0 <? len) && (0 <? left_time)) eqn:E;
      [|intros [= <- <-]; unfold told; lia]); [done|].
  attempt IH (holds_wait_read fd cnt laws).
Qed.

Lemma write_buf_loop_told fuel buf len start left_time w v w' :
  0 ≤ len →
  nio_write_buf_loop clock libc wait_write_event fuel inner fd buf len start left_time 0 (-1) w
    = Done v w' → told len v w w'.
Proof.
  intros Hlen. revert left_time w.
  induction fuel as [|fuel IH]; intros left_time w; cbn [nio_write_buf_loop];
    (destruct ((0 <? len) && (0 <? left_time)) eqn:E;
      [|intros [= <- <-]; unfold told; lia]); [done|].
  attempt IH (holds_wait_write fd cnt laws).
Qed.

(** C17. Reads and writes of one buffer report what happened: whatever the
    kernel answers to the attempts (short counts, [EAGAIN], [EINTR], errors)
    and however the waits end, a result [v >= 0] means that exactly [v] bytes
    were moved, at most as many as asked for, and -1 that none were. *)
Theorem nio_buf_told (sending : bool) fuel buf len w v w' :
  0 ≤ len →
  (if sending then nio_write_buf clock libc wait_write_event fuel inner fd buf len
   else nio_read_buf clock libc wait_read_event fuel inner fd buf len) w = Done v w' →
  told len v w w'.
Proof.
  intros Hlen H.
  assert (∃ w1, cnt (ext w1) = cnt (ext w) ∧ told len v w1 w') as (w1 & Hc1 & Hb & Hc).
  2: { unfold told. by rewrite <-Hc1. }
  destruct sending; unfold nio_write_buf, nio_read_buf in H;
    apply bind_done_inv in H as (b & w0 & Hs & H);
    apply (holds_is_socket fd cnt laws) in Hs; (destruct b; cbn [negb] in H;
    [|exists w0; split; [done|]; apply moves in H; done]);
    apply frame_told in H as (w1 & w2 & (n & w3 & [= <- <-] & H)%bind_done_inv & Hc1 & Hc2);
    apply bind_done_inv in H as (limit & w4 & Hlim & H).
  - apply (holds_send_limit fd cnt laws) in Hlim. exists w4. split; [by rewrite Hlim, <-Hs, <-Hc1|].
    apply write_buf_loop_told in H as [? ?]; [|done]. split; [done|]. lia.
  - apply (holds_recv_limit fd cnt laws) in Hlim. exists w4. split; [by rewrite Hlim, <-Hs, <-Hc1|].
    apply read_buf_loop_told in H as [? ?]; [|done]. split; [done|]. lia.
Qed.
End counting.

(** *** Vectors of buffers *)

Definition errno_reset w : W := set_ext (set_sys (set_errno_ 0)) w.

(** Take the branch that arithmetic leaves open. *)
Ltac branch :=
  match goal with
  | |- context [if ?b then _ else _] => destruct b eqn:?; breflect; try (exfalso; lia)
  end.

(** One successful attempt of the inner loop at the start of a buffer. *)
Lemma iovec_attempt `{!HasSysLaws X} (sending : bool) fuel (inner : list iovec → M W Z) fd start
  stage length arg received r left_time n w w1 :
  0 < left_time → Zlen arg ≤ i32_max → 0 < n → 0 ≤ received → received < length →
  received + n ≤ i64_max → inner arg w = Done n w1 →
  (if sending
   then write_iovec_while clock libc wait_write_event (S fuel) inner fd start stage length arg 0
          received r left_time
   else read_iovec_while clock libc wait_read_event (S fuel) inner fd start stage length arg 0
          received r left_time) w
  = Done (if length <=? received + n then inr (received + n, received + n, left_time) else inl n)
      (errno_reset w1).
Proof.
  intros Hl Harg Hn Hr Hlen Hmax Hin.
  assert (errno (sys (ext (errno_reset w1))) = 0) as He by (simpl; by rewrite sys_set_sys).
  assert (to_size n (errno_reset w1) = Done n (errno_reset w1)) as Hn1.
  { unfold to_size, assert_, mbind, M_bind. by branch. }
  assert (to_ssize (received + n) (errno_reset w1) = Done (received + n) (errno_reset w1)) as Hn2.
  { unfold to_ssize, assert_, mbind, M_bind. by branch. }
  assert (∀ w', assert_ (Zlen arg <=? i32_max) "iovcnt overflow" w' = Done tt w') as Has.
  { intros w'. unfold assert_. by branch. }
  destruct sending; cbn [write_iovec_while read_iovec_while]; branch;
    erewrite bind_done by reflexivity; erewrite bind_done by apply Has;
    erewrite bind_done by exact Hin; try (replace (n =? 0) with false by lia);
    replace (n =? -1) with false by lia; cbn [negb];
    rewrite ?bind_assoc; erewrite bind_done by reflexivity;
    fold (errno_reset w1); rewrite bind_assoc; erewrite bind_done by exact Hn1; cbv beta zeta;
    match goal with |- context [Z.leb ?a ?b] => destruct (Z.leb a b) end;
    rewrite ?bind_assoc; try (by erewrite bind_done by exact Hn2);
    erewrite bind_done by reflexivity; cbv beta iota; erewrite bind_done by reflexivity;
    by rewrite He.
Qed.

(** Reads and writes of a vector lose count. When the kernel fills (or
    sends) exactly the first of two buffers, and then [m] bytes of the second,
    fewer than it holds, the caller is told [m] although the first buffer's
    bytes have been moved as well. *)
Theorem iovec_count_lost `{!HasSysLaws X} (sending : bool) fuel
  (inner : list iovec → M W Z) fd a b m left_time w w0 w1 w2 :
  is_socket libc fd w = Done true w → is_blocking libc fd w = Done false w →
  (if sending then send_time_limit libc fd else recv_time_limit libc fd) (tick_world w)
    = Done left_time w0 → 0 < left_time →
  0 < iov_len a → 0 < m < iov_len b → iov_len a + iov_len b ≤ i64_max →
  inner [a; b] w0 = Done (iov_len a) w1 → inner [b] (errno_reset w1) = Done m w2 →
  (if sending then nio_write_iovec clock libc wait_write_event (S fuel) inner fd [a; b]
   else nio_read_iovec clock libc wait_read_event (S fuel) inner fd [a; b]) w
  = Done m (errno_reset w2).
Proof.
  intros Hs Hb Hlim Hl Ha Hm Hmax H1 H2.
  pose proof (iovec_attempt sending fuel inner fd (clock (w_tick w)) 0 (0 + iov_len a) [a; b] 0
    (-1) left_time (iov_len a) w0 w1) as Hfirst.
  pose proof (iovec_attempt sending fuel inner fd (clock (w_tick w)) (0 + iov_len a)
    (0 + iov_len a + iov_len b) [b] (0 + iov_len a) (0 + iov_len a) left_time m
    (errno_reset w1) w2) as Hsecond.
  do 6 (specialize (Hfirst ltac:(unfold Zlen, i32_max, i64_max in *; simpl; lia))).
  do 6 (specialize (Hsecond ltac:(unfold Zlen, i32_max, i64_max in *; simpl; lia))).
  specialize (Hfirst H1). specialize (Hsecond H2).
  replace (0 + iov_len a <=? 0 + iov_len a) with true in Hfirst by lia.
  replace (0 + iov_len a + iov_len b <=? 0 + iov_len a + m) with false in Hsecond by lia.
  destruct sending; unfold nio_write_iovec, nio_read_iovec, with_non_blocking;
    erewrite bind_done by exact Hs; cbn [negb]; erewrite bind_done by exact Hb;
    erewrite bind_done by reflexivity;
    rewrite bind_assoc; erewrite bind_done by reflexivity; fold (tick_world w);
    rewrite bind_assoc; erewrite bind_done by exact Hlim;
    cbn [write_iovec_for read_iovec_for drop]; cbv zeta;
    (replace (0 + iov_len a <? 0) with false by lia);
    change (sat_sub 0 0) with 0; rewrite bind_assoc; erewrite bind_done by exact Hfirst;
    cbv beta iota;
    (replace (0 + iov_len a <=? 0 + iov_len a) with true by lia);
    (replace (0 + iov_len a + iov_len b <? 0 + iov_len a) with false by lia);
    (replace (sat_sub (0 + iov_len a) (0 + iov_len a)) with 0 by (unfold sat_sub; lia));
    rewrite bind_assoc; cbn [drop]; erewrite bind_done by exact Hsecond; reflexivity.
Qed.

(** *** Time limits *)

Section deadline.
Context (fd limit : Z) (advances : ∀ k, clock k < clock (S k)).

(** The limit of [fd] is known. *)
Definition limited w : Prop := RECV_TIME_LIMIT (sys (ext w)) !! fd = Some limit.

(** A call that returns; the limit stays known and time does not go back. *)
Definition returns {A} (m : M W A) (Q : A → W → Prop) : Prop :=
  ∀ w, limited w → ∃ r w', m w = Done r w' ∧ limited w' ∧ (w_tick w ≤ w_tick w')%nat ∧ Q r w'.

Lemma clock_mono k k' : (k ≤ k')%nat → clock k ≤ clock k'.
Proof. induction 1 as [|k' _ IH]; [done|]. pose proof (advances k'). lia. Qed.

Lemma read_loop_returns inner fuel start left_time (r0 : Z) w :
  returns inner (λ r w', r = -1 → errno (sys (ext w')) ≠ EINTR) →
  (∀ t, returns (wait_read_event fd t) (λ _ _, True)) →
  limited w → Z.max 0 (start + limit - clock (w_tick w)) < Z.of_nat fuel →
  ∃ r w', nio_read_loop clock libc wait_read_event fuel inner fd start left_time r0 w = Done r w'.
Proof.
  intros Hin Hwait. revert left_time r0 w.
  induction fuel as [|fuel IH]; intros left_time r0 w Hlim Hf; [lia|]. cbn [nio_read_loop].
  destruct (0 <? left_time); [|by eexists _, w].
  destruct (Hin w Hlim) as (r1 & w1 & H1 & Hl1 & Ht1 & HQ). erewrite bind_done by exact H1.
  destruct (r1 =? -1) eqn:Er; breflect; cbn [negb].
  2: { erewrite bind_done by reflexivity. by eexists _, _. }
  erewrite bind_done by reflexivity. specialize (HQ Er). unfold kind.
  destruct (_ =? EAGAIN) eqn:Ee; [|destruct (_ =? EINTR) eqn:Ei; breflect; [done|by eexists _, w1]].
  assert (recv_time_limit libc fd w1 = Done limit w1) as Hrl.
  { unfold recv_time_limit. erewrite bind_done by reflexivity. unfold id, limited in *.
    by rewrite Hl1. }
  unfold wait_read. rewrite bind_assoc. erewrite bind_done by exact Hrl. rewrite bind_assoc.
  erewrite bind_done by reflexivity. cbv zeta. rewrite bind_assoc. fold (tick_world w1).
  set (left' := sat_sub _ _).
  destruct (Hwait (Z.min left' SLICE) (tick_world w1) Hl1) as (r2 & w2 & H2 & Hl2 & Ht2 & _).
  erewrite bind_done by exact H2. erewrite bind_done by reflexivity. cbv beta iota.
  destruct (is_err r2); [by eexists _, w2|].
  destruct (0 <? left') eqn:El; breflect.
  - apply IH; [done|]. simpl in Ht2. pose proof (clock_mono _ _ Ht1).
    pose proof (advances (w_tick w1)). pose proof (clock_mono _ _ Ht2).
    unfold left', sat_sub, sat_add, u64_max in El. lia.
  - destruct fuel; cbn [nio_read_loop]; rewrite (proj2 (Z.ltb_ge 0 left') El); by eexists _, w2.
Qed.

End deadline.
End nio_properties.
