(* ===== verification/Calls.v ===== *)
(** * Calls: the system calls with logic of their own

    Models the calls of [core/src/syscall/unix] that are not made of the layers
    of [Syscall] alone: the sleeps, [poll] and [select], [connect], the
    waits of pthreads, [close], [shutdown], [setsockopt] and [write]. Parameters: the C library,
    the next layer of each call ([inner]), and the waits and registrations of
    the event loops. *)

From stdpp Require Import sorting base numbers strings gmap list.
From S2P Require Import Prelude Common Coroutine Syscall.

Definition SOL_SOCKET : Z := 1.
Definition SO_RCVTIMEO : Z := 20.
Definition SO_SNDTIMEO : Z := 21.
Definition SHUT_RD : Z := 0.
Definition SHUT_WR : Z := 1.
Definition SHUT_RDWR : Z := 2.
Definition STDOUT_FILENO : Z := 1.
Definition STDERR_FILENO : Z := 2.

Record timespec : Type := mkTimespec { ts_sec : Z; ts_nsec : Z }.

(** A time that [nanosleep] and [pthread_cond_timedwait] reject. *)
Definition bad_timespec (t : timespec) : bool :=
  (ts_sec t <? 0) || (ts_nsec t <? 0) || (999999999 <? ts_nsec t).

(** [Duration::new(tv_sec, tv_nsec)] in nanoseconds. *)
Definition timespec_ns (t : timespec) : Z := ts_sec t * 1000000000 + ts_nsec t.

Section calls.
Context {I X : Type} `{!HasSys X}.
Abbreviation Ret := (option Z).
Abbreviation W := (World unit Ret I X).

Variable clock : nat → Z.
Variable listener_call : nat → handle → event unit Ret → M W unit.
Variable libc : Libc W.
(** [EventLoops::wait_event] for a time in nanoseconds, and the other
    functions of [EventLoops] the calls use. *)
Variable wait_event : Z → M W (io_result unit).
Variable wait_write_event : Z → Z → M W (io_result unit).
Variable del_event del_read_event del_write_event : Z → M W (io_result unit).

(** ** sleep.rs, usleep.rs and nanosleep.rs *)

(** The current coroutine will be in its call until the time is over. *)
Definition suspend_for (name : SyscallName) (time : Z) : M W unit :=
  co ← current;
  match co with
  | Some h =>
      n ← now_ clock;
      _ ← syscall listener_call h tt name (SSuspend (get_timeout_time n time));
      mret tt
  | None => mret tt
  end.

Definition nio_sleep (secs : Z) : M W Z :=
  let time := secs * 1000000000 in
  _ ← suspend_for sleep time;
  _ ← wait_event time;
  _ ← reset_errno;
  mret 0.

Definition nio_usleep (microseconds : Z) : M W Z :=
  let time := match try_u64 (microseconds * 1000) with
              | Some v => v
              | None => u64_max * 1000000000 + 999999999
              end in
  _ ← suspend_for usleep time;
  _ ← wait_event time;
  _ ← reset_errno;
  mret 0.

(** The result and what is written to [rmtp]. *)
Definition nio_nanosleep (rqtp : timespec) (rmtp : option timespec) : M W (Z * option timespec) :=
  if bad_timespec rqtp then _ ← set_errno EINVAL; mret (-1, rmtp)
  else
    let time := timespec_ns rqtp in
    _ ← suspend_for nanosleep time;
    _ ← wait_event time;
    _ ← reset_errno;
    mret (0, match rmtp with Some _ => Some (mkTimespec 0 0) | None => None end).

(** ** poll.rs *)

(** [inner] polls the descriptors without waiting. *)
Fixpoint poll_loop (fuel : nat) (inner : M W Z) (t x : Z) : M W Z :=
  match fuel with
  | O => out_of_fuel
  | S fuel =>
      r ← inner;
      if negb (r =? 0) || (t =? 0) then mret r
      else
        _ ← wait_event (Z.min t x * 1000000);
        let t := if t =? i32_max then t else if x <? t then t - x else 0 in
        let x := if x <? 16 then Z.shiftl x 1 else x in
        poll_loop fuel inner t x
  end.

Definition nio_poll (fuel : nat) (inner : M W Z) (timeout : Z) : M W Z :=
  poll_loop fuel inner (if timeout <? 0 then i32_max else timeout) 1.

(** ** select.rs *)

(** The three sets a caller may pass; [S] is the type [fd_set]. *)
Record fd_sets (S : Type) : Type :=
  mkFdSets { readfds : option S; writefds : option S; errorfds : option S }.
Arguments mkFdSets {S}.
Arguments readfds {S}.
Arguments writefds {S}.
Arguments errorfds {S}.

(** [inner] selects without waiting and overwrites the sets; [s] are the
    caller's sets, restored before every further round. *)
Fixpoint select_loop {S : Type} (fuel : nat) (inner : fd_sets S → M W (Z * fd_sets S))
  (s now_sets : fd_sets S) (t x : Z) : M W (Z * fd_sets S) :=
  match fuel with
  | O => out_of_fuel
  | Datatypes.S fuel =>
      '(r, now_sets) ← inner now_sets;
      if negb (r =? 0) || (t =? 0) then mret (r, now_sets)
      else
        _ ← wait_event (Z.min t x * 1000000);
        let t := if t =? u32_max then t else sat_sub t x in
        let x := if x <? 16 then Z.shiftl x 1 else x in
        select_loop fuel inner s s t x
  end.

Definition nio_select {S : Type} (fuel : nat) (inner : fd_sets S → M W (Z * fd_sets S))
  (fds : fd_sets S) (timeout : option timeval) : M W (Z * fd_sets S) :=
  t ← match timeout with
      | None => mret u32_max
      | Some tv =>
          _ ← assert_ ((0 <=? tv_sec tv) && (tv_sec tv <=? u32_max)) "overflow";
          _ ← assert_ ((0 <=? tv_usec tv) && (tv_usec tv <=? u32_max)) "overflow";
          mret (sat_add u32_max (sat_mul u32_max (tv_sec tv) 1000000) (tv_usec tv))
      end;
  select_loop fuel inner fds fds t 1.

(** ** connect.rs *)

Fixpoint connect_loop (fuel : nat) (getpeername : M W Z) (getsockopt_error : M W (Z * Z))
  (fd start_time left_time r : Z) : M W Z :=
  if 0 <? left_time then
    match fuel with
    | O => out_of_fuel
    | S fuel =>
        if r =? 0 then _ ← reset_errno; mret r
        else
          e ← last_os_error;
          if (e =? EINPROGRESS) || (e =? EALREADY) || (e =? EAGAIN) then
            '(left_time, w) ← wait_write clock libc wait_write_event fd start_time;
            if is_err w then mret r
            else
              p ← getpeername;
              let connected := p =? 0 in
              '(r, err) ← getsockopt_error;
              if negb (r =? 0) then mret (-1)
              else if negb (err =? 0) then _ ← set_errno err; mret (-1)
              else if negb connected then
                _ ← set_errno EINPROGRESS;
                connect_loop fuel getpeername getsockopt_error fd start_time left_time (-1)
              else connect_loop fuel getpeername getsockopt_error fd start_time left_time r
          else if negb (e =? EINTR) then mret r
          else connect_loop fuel getpeername getsockopt_error fd start_time left_time r
    end
  else mret r.

Definition nio_connect (fuel : nat) (inner getpeername : M W Z) (getsockopt_error : M W (Z * Z))
  (fd : Z) : M W Z :=
  with_non_blocking libc fd (
    start_time ← now_ clock;
    left_time ← send_time_limit libc fd;
    r ← inner;
    r ← connect_loop fuel getpeername getsockopt_error fd start_time left_time r;
    e ← last_os_error;
    _ ← (if (r =? -1) && (e =? ETIMEDOUT) then set_errno EINPROGRESS else mret tt);
    mret r).

(** ** pthread_cond_timedwait.rs and pthread_mutex_lock.rs *)

Definition wait_time (left_time : Z) : Z :=
  if 10000000 <? left_time then 10000000 else left_time.

Fixpoint cond_timedwait_loop (fuel : nat) (inner : option timespec → M W Z) (abstimeout : Z)
  : M W Z :=
  match fuel with
  | O => out_of_fuel
  | S fuel =>
      n ← now_ clock;
      let left_time := sat_sub abstimeout n in
      if left_time =? 0 then mret ETIMEDOUT
      else
        n ← now_ clock;
        let next_timeout := sat_add u64_max n (wait_time left_time) in
        r ← inner (Some (mkTimespec (next_timeout / 1000000000) (next_timeout mod 1000000000)));
        if negb (r =? ETIMEDOUT) then mret r
        else
          n ← now_ clock;
          let left_time := sat_sub abstimeout n in
          if left_time =? 0 then mret ETIMEDOUT
          else
            w ← wait_event (wait_time left_time);
            if is_err w then mret r else cond_timedwait_loop fuel inner abstimeout
  end.

(** [in_monitor]: the thread is the monitor's (feature [preemptive]). *)
Definition nio_pthread_cond_timedwait (fuel : nat) (in_monitor : bool)
  (inner : option timespec → M W Z) (abstime : option timespec) : M W Z :=
  if in_monitor then inner abstime
  else match abstime with
       | None => cond_timedwait_loop fuel inner u64_max
       | Some t =>
           if bad_timespec t then mret EINVAL
           else cond_timedwait_loop fuel inner (default u64_max (try_u64 (timespec_ns t)))
       end.

Fixpoint mutex_lock_loop (fuel : nat) (trylock : M W Z) : M W Z :=
  match fuel with
  | O => out_of_fuel
  | S fuel =>
      r ← trylock;
      if (r =? 0) || negb (r =? EBUSY) then mret r
      else
        w ← wait_event SLICE;
        if is_err w then mret r else mutex_lock_loop fuel trylock
  end.

Definition nio_pthread_mutex_lock (fuel : nat) (inner trylock : M W Z) : M W Z :=
  co ← current;
  match co with None => inner | Some _ => mutex_lock_loop fuel trylock end.

(** ** close.rs, shutdown.rs, setsockopt.rs *)

Definition nio_close (inner : M W Z) (fd : Z) : M W Z := _ ← del_event fd; inner.

Definition nio_shutdown (inner : M W Z) (fd how : Z) : M W Z :=
  if how =? SHUT_RD then _ ← del_read_event fd; inner
  else if how =? SHUT_WR then _ ← del_write_event fd; inner
  else if how =? SHUT_RDWR then _ ← del_event fd; inner
  else _ ← set_errno EINVAL; mret (-1).

Definition nio_setsockopt (inner : M W Z) (fd level name : Z) (value : timeval) : M W Z :=
  r ← inner;
  if (r =? 0) && (level =? SOL_SOCKET) then
    if name =? SO_SNDTIMEO then
      time_limit ← get_time_limit value;
      m ← gets (λ w : W, SEND_TIME_LIMIT (sys (ext w)));
      _ ← modify (set_ext (set_sys (set_send_limit (<[fd := time_limit]> m))));
      _ ← assert_ (bool_decide (m !! fd = None)) "assertion failed";
      mret r
    else if name =? SO_RCVTIMEO then
      time_limit ← get_time_limit value;
      m ← gets (λ w : W, RECV_TIME_LIMIT (sys (ext w)));
      _ ← modify (set_ext (set_sys (set_recv_limit (<[fd := time_limit]> m))));
      _ ← assert_ (bool_decide (m !! fd = None)) "assertion failed";
      mret r
    else mret r
  else mret r.

(** ** write.rs

    What the logger writes bypasses the layers. *)
Definition write_facade (inner raw : M W Z) (fd : Z) : M W Z :=
  if (fd =? STDOUT_FILENO) || (fd =? STDERR_FILENO) then raw
  else facade clock listener_call write inner.
End calls.

Arguments mkFdSets {S}.
Arguments readfds {S}.
Arguments writefds {S}.
Arguments errorfds {S}.

(** ** The chains

    [impl_syscall!] and [impl_syscall2!] of every call, in a build without the
    feature [io_uring]: the facade, the nio layer if the call has one, and the
    raw call. [A] are the further arguments, handed on unchanged; [fn_ptr] is the
    original function, [call] the one of the C library. *)
Section chains.
Context {I X : Type} `{!HasSys X}.
Abbreviation W := (World unit (option Z) I X).

Variable clock : nat → Z.
Variable listener_call : nat → handle → event unit (option Z) → M W unit.
Variable libc : Libc W.
Variable wait_event : Z → M W (io_result unit).
Variable wait_read_event wait_write_event : Z → Z → M W (io_result unit).
Variable del_event del_read_event del_write_event : Z → M W (io_result unit).
Variable fuel : nat.

(** Calls that nothing but the facade wraps. *)
Definition chain {A : Type} (name : SyscallName) (fn_ptr : option (A → M W Z)) (call : A → M W Z)
  (args : A) : M W Z :=
  facade clock listener_call name (raw ((λ f, f args) <$> fn_ptr) (call args)).

Definition chain_read {A : Type} (name : SyscallName) (fn_ptr : option (Z → A → M W Z))
  (call : Z → A → M W Z) (fd : Z) (args : A) : M W Z :=
  facade clock listener_call name
    (nio_read clock libc wait_read_event fuel (raw ((λ f, f fd args) <$> fn_ptr) (call fd args)) fd).

Definition chain_read_buf {A : Type} (name : SyscallName) (fn_ptr : option (Z → Z → Z → A → M W Z))
  (call : Z → Z → Z → A → M W Z) (fd buf len : Z) (args : A) : M W Z :=
  facade clock listener_call name
    (nio_read_buf clock libc wait_read_event fuel
       (λ b n, raw ((λ f, f fd b n args) <$> fn_ptr) (call fd b n args)) fd buf len).

Definition chain_write_buf {A : Type} (name : SyscallName) (fn_ptr : option (Z → Z → Z → A → M W Z))
  (call : Z → Z → Z → A → M W Z) (fd buf len : Z) (args : A) : M W Z :=
  facade clock listener_call name
    (nio_write_buf clock libc wait_write_event fuel
       (λ b n, raw ((λ f, f fd b n args) <$> fn_ptr) (call fd b n args)) fd buf len).

Definition chain_read_iovec {A : Type} (name : SyscallName)
  (fn_ptr : option (Z → list iovec → A → M W Z))
  (call : Z → list iovec → A → M W Z) (fd : Z) (iov : list iovec) (args : A) : M W Z :=
  facade clock listener_call name
    (nio_read_iovec clock libc wait_read_event fuel
       (λ v, raw ((λ f, f fd v args) <$> fn_ptr) (call fd v args)) fd iov).

Definition chain_write_iovec {A : Type} (name : SyscallName)
  (fn_ptr : option (Z → list iovec → A → M W Z))
  (call : Z → list iovec → A → M W Z) (fd : Z) (iov : list iovec) (args : A) : M W Z :=
  facade clock listener_call name
    (nio_write_iovec clock libc wait_write_event fuel
       (λ v, raw ((λ f, f fd v args) <$> fn_ptr) (call fd v args)) fd iov).

(** The arguments beside the descriptor (and the buffer): addresses, lengths,
    flags and offsets. *)
Definition sys_accept := @chain_read (Z * Z) accept.
Definition sys_accept4 := @chain_read (Z * Z * Z) accept4.
Definition sys_read := @chain_read_buf unit read.
Definition sys_recv := @chain_read_buf Z recv.
Definition sys_recvfrom := @chain_read_buf (Z * Z * Z) recvfrom.
Definition sys_pread := @chain_read_buf Z pread.
Definition sys_readv := @chain_read_iovec unit readv.
Definition sys_preadv := @chain_read_iovec Z preadv.
Definition sys_send := @chain_write_buf Z send.
Definition sys_sendto := @chain_write_buf (Z * Z * Z) sendto.
Definition sys_pwrite := @chain_write_buf Z pwrite.
Definition sys_writev := @chain_write_iovec unit writev.
Definition sys_pwritev := @chain_write_iovec Z pwritev.
Definition sys_listen := @chain (Z * Z) listen.
Definition sys_socket := @chain (Z * Z * Z) socket.
Definition sys_fsync := @chain Z fsync.
Definition sys_lseek := @chain (Z * Z * Z) lseek.
Definition sys_mkdir := @chain (Z * Z) mkdir.
Definition sys_mkdirat := @chain (Z * Z * Z) mkdirat.
Definition sys_rmdir := @chain Z rmdir.
Definition sys_link := @chain (Z * Z) link.
Definition sys_unlink := @chain Z unlink.
Definition sys_renameat := @chain (Z * Z * Z * Z) renameat.
Definition sys_renameat2 := @chain (Z * Z * Z * Z * Z) renameat2.
Definition sys_pthread_mutex_trylock := @chain Z pthread_mutex_trylock.
Definition sys_pthread_mutex_unlock := @chain Z pthread_mutex_unlock.

(** [write] has a facade of its own. *)
Definition sys_write (fn_ptr : option (Z → Z → Z → M W Z)) (call : Z → Z → Z → M W Z)
  (fd buf len : Z) : M W Z :=
  let direct b n := raw ((λ f, f fd b n) <$> fn_ptr) (call fd b n) in
  write_facade clock listener_call
    (nio_write_buf clock libc wait_write_event fuel direct fd buf len) (direct buf len) fd.

Definition sys_sleep (secs : Z) : M W Z :=
  facade clock listener_call sleep (nio_sleep clock listener_call wait_event secs).
Definition sys_usleep (microseconds : Z) : M W Z :=
  facade clock listener_call usleep (nio_usleep clock listener_call wait_event microseconds).
Definition sys_poll (fn_ptr : option (Z → Z → Z → M W Z)) (call : Z → Z → Z → M W Z)
  (fds nfds timeout : Z) : M W Z :=
  facade clock listener_call poll
    (nio_poll wait_event fuel (raw ((λ f, f fds nfds 0) <$> fn_ptr) (call fds nfds 0)) timeout).
Definition sys_close (fn_ptr : option (Z → M W Z)) (call : Z → M W Z) (fd : Z) : M W Z :=
  facade clock listener_call close
    (nio_close del_event (raw ((λ f, f fd) <$> fn_ptr) (call fd)) fd).
Definition sys_shutdown (fn_ptr : option (Z → Z → M W Z)) (call : Z → Z → M W Z) (fd how : Z)
  : M W Z :=
  facade clock listener_call shutdown
    (nio_shutdown del_event del_read_event del_write_event
       (raw ((λ f, f fd how) <$> fn_ptr) (call fd how)) fd how).
End chains.

Section properties.
Context {I X : Type} `{!HasSys X, !HasSysLaws X}.
Abbreviation W := (World unit (option Z) I X).
Implicit Types (w : W).
Context (clock : nat → Z) (libc : Libc W) (wait_event : Z → M W (io_result unit))
  (wait_write_event : Z → Z → M W (io_result unit)).

(** ** Polling *)

(** [slept x] is how long the event loops have been told to wait. *)
Section polling.
Context (slept : X → Z)
  (sleeps : ∀ t w, ∃ r w', wait_event t w = Done r w' ∧ slept (ext w') = slept (ext w) + t).

Lemma poll_loop_sleeps inner fuel t x w :
  (∀ w, ∃ w', inner w = Done 0 w' ∧ slept (ext w') = slept (ext w)) →
  0 ≤ t < i32_max → 0 < x → t < Z.of_nat fuel →
  ∃ w', poll_loop wait_event fuel inner t x w = Done 0 w'
    ∧ slept (ext w') = slept (ext w) + t * 1000000.
Proof.
  intros Hin. revert t x w. induction fuel as [|fuel IH]; intros t x w Ht Hx Hf; [lia|].
  cbn [poll_loop]. destruct (Hin w) as (w1 & H1 & Hs1). erewrite bind_done by exact H1.
  cbn [negb Z.eqb orb]. destruct (t =? 0) eqn:E0; breflect; cbn [orb].
  { exists w1. split; [done|]. lia. }
  destruct (sleeps (Z.min t x * 1000000) w1) as (r & w2 & H2 & Hs2).
  erewrite bind_done by exact H2. cbv zeta.
  destruct (t =? i32_max) eqn:Em; breflect; [lia|].
  destruct (IH (if x <? t then t - x else 0) (if x <? 16 then Z.shiftl x 1 else x) w2)
    as (w3 & H3 & Hs3).
  - destruct (x <? t) eqn:?; breflect; lia.
  - rewrite Z.shiftl_mul_pow2 by lia. destruct (x <? 16); lia.
  - destruct (x <? t) eqn:?; breflect; lia.
  - exists w3. split; [done|]. destruct (x <? t) eqn:?; breflect; lia.
Qed.

(** [poll] with a timeout of [t] milliseconds and nothing to report
    returns 0 after having waited for exactly [t] milliseconds, in steps of 1,
    2, 4, 8 and then 16 milliseconds; [t + 1] rounds are always enough. *)
Theorem poll_waits_timeout inner timeout w :
  (∀ w, ∃ w', inner w = Done 0 w' ∧ slept (ext w') = slept (ext w)) →
  0 ≤ timeout < i32_max →
  ∃ w', nio_poll wait_event (S (Z.to_nat timeout)) inner timeout w = Done 0 w'
    ∧ slept (ext w') = slept (ext w) + timeout * 1000000.
Proof.
  intros Hin Ht. unfold nio_poll. destruct (timeout <? 0) eqn:E; breflect; [lia|].
  apply poll_loop_sleeps; try done; lia.
Qed.

Lemma select_loop_sleeps {S : Type} (inner : fd_sets S → M W (Z * fd_sets S)) empty s cur fuel t x w :
  (∀ fds w, ∃ w', inner fds w = Done (0, empty) w' ∧ slept (ext w') = slept (ext w)) →
  0 ≤ t < u32_max → 0 < x → t < Z.of_nat fuel →
  ∃ w', select_loop wait_event fuel inner s cur t x w = Done (0, empty) w'
    ∧ slept (ext w') = slept (ext w) + t * 1000000.
Proof.
  intros Hin. revert cur t x w. induction fuel as [|fuel IH]; intros cur t x w Ht Hx Hf; [lia|].
  cbn [select_loop]. destruct (Hin cur w) as (w1 & H1 & Hs1). erewrite bind_done by exact H1.
  cbv beta iota. cbn [negb Z.eqb orb]. destruct (t =? 0) eqn:E0; breflect; cbn [orb].
  { exists w1. split; [done|]. lia. }
  destruct (sleeps (Z.min t x * 1000000) w1) as (r & w2 & H2 & Hs2).
  erewrite bind_done by exact H2. cbv zeta.
  destruct (t =? u32_max) eqn:Em; breflect; [lia|].
  destruct (IH s (sat_sub t x) (if x <? 16 then Z.shiftl x 1 else x) w2) as (w3 & H3 & Hs3).
  - unfold sat_sub. lia.
  - rewrite Z.shiftl_mul_pow2 by lia. destruct (x <? 16); lia.
  - unfold sat_sub. lia.
  - exists w3. split; [done|]. unfold sat_sub in Hs3. lia.
Qed.

(** [select] waits a thousand times too long: with nothing to report and a
    timeout of [tv_sec] seconds and [tv_usec] microseconds it counts the
    microseconds of the timeout but waits as many milliseconds. *)
Theorem select_waits_thousandfold {S : Type} (inner : fd_sets S → M W (Z * fd_sets S)) empty fds tv w :
  (∀ fds w, ∃ w', inner fds w = Done (0, empty) w' ∧ slept (ext w') = slept (ext w)) →
  0 ≤ tv_sec tv → 0 ≤ tv_usec tv → tv_sec tv * 1000000 + tv_usec tv < u32_max →
  let micros := tv_sec tv * 1000000 + tv_usec tv in
  ∃ w', nio_select wait_event (Datatypes.S (Z.to_nat micros)) inner fds (Some tv) w
      = Done (0, empty) w'
    ∧ slept (ext w') = slept (ext w) + 1000 * (micros * 1000).
Proof.
  intros Hin Hs Hu Hmax micros. unfold nio_select.
  assert (sat_add u32_max (sat_mul u32_max (tv_sec tv) 1000000) (tv_usec tv) = micros) as Hm.
  { unfold sat_add, sat_mul, micros. lia. }
  destruct (select_loop_sleeps inner empty fds fds (Datatypes.S (Z.to_nat micros)) micros 1 w)
    as (w' & H & Hsl); try done; try lia.
  exists w'. split; [|lia].
  rewrite bind_assoc. erewrite bind_done by
    (unfold assert_; replace (_ && _) with true by lia; reflexivity).
  rewrite bind_assoc. erewrite bind_done by
    (unfold assert_; replace (_ && _) with true by lia; reflexivity).
  erewrite bind_done by reflexivity. by rewrite Hm.
Qed.
End polling.

(** ** connect *)

(** A [connect] that is interrupted by a signal never returns: the loop
    neither calls [connect] again nor waits nor looks at the clock, and so
    spins for ever while the descriptor's time limit is positive. *)
Theorem connect_interrupted_spins fuel inner getpeername getsockopt_error fd limit w w1 w2 w3 w4 :
  is_blocking libc fd w = Done true w1 → set_non_blocking libc fd w1 = Done tt w2 →
  send_time_limit libc fd (tick_world w2) = Done limit w3 → 0 < limit →
  inner w3 = Done (-1) w4 → errno (sys (ext w4)) = EINTR →
  nio_connect clock libc wait_write_event fuel inner getpeername getsockopt_error fd w = NoFuel.
Proof.
  intros Hb Hn Hl Hpos Hin He. unfold nio_connect, with_non_blocking.
  erewrite bind_done by exact Hb. erewrite bind_done by exact Hn.
  assert (∀ k, connect_loop clock libc wait_write_event fuel getpeername getsockopt_error fd
    k limit (-1) w4 = NoFuel) as Hspin.
  { intros k. induction fuel as [|fuel IH]; cbn [connect_loop];
      (destruct (0 <? limit) eqn:E; breflect; [|lia]); [done|]. cbn [Z.eqb].
    erewrite bind_done by reflexivity. by rewrite He. }
  unfold mbind, M_bind. simpl. unfold mbind, M_bind in Hl. fold (tick_world w2).
  by rewrite Hl, Hin, Hspin.
Qed.

(** ** setsockopt *)

(** The branch of a receive time limit that the kernel accepted. *)
Ltac recv_option :=
  change ((0 =? 0) && (SOL_SOCKET =? SOL_SOCKET)) with true;
  change (SO_RCVTIMEO =? SO_SNDTIMEO) with false;
  change (SO_RCVTIMEO =? SO_RCVTIMEO) with true; cbv iota.

(** A time limit can be set once: the first [setsockopt] of a receive time
    limit records it in nanoseconds (zero meaning none), a second one for the
    same descriptor panics after the kernel has already accepted it. *)
Theorem setsockopt_second_panics inner fd tv w :
  (∀ w, ∃ w', inner w = Done 0 w' ∧ sys (ext w') = sys (ext w)) →
  0 ≤ tv_sec tv → 0 ≤ tv_usec tv → RECV_TIME_LIMIT (sys (ext w)) !! fd = None →
  ∃ limit w1 w2, nio_setsockopt inner fd SOL_SOCKET SO_RCVTIMEO tv w = Done 0 w1
    ∧ RECV_TIME_LIMIT (sys (ext w1)) !! fd = Some limit ∧ 0 < limit ≤ u64_max
    ∧ nio_setsockopt inner fd SOL_SOCKET SO_RCVTIMEO tv w1 = Panic "assertion failed" w2.
Proof.
  intros Hin Hs Hu Hnone.
  assert (∀ w, ∃ limit, get_time_limit tv w = Done limit w ∧ 0 < limit ≤ u64_max) as Hlim.
  { intros w'. unfold get_time_limit, assert_, mbind, M_bind.
    rewrite (proj2 (Z.leb_le _ _) Hs), (proj2 (Z.leb_le _ _) Hu).
    eexists. split; [reflexivity|]. unfold sat_add, sat_mul, u64_max in *.
    destruct (_ =? 0) eqn:E; breflect; lia. }
  destruct (Hin w) as (w1 & H1 & He1). destruct (Hlim w1) as (limit & Hl & Hb).
  set (w2 := set_ext (set_sys (set_recv_limit (<[fd := limit]> (RECV_TIME_LIMIT (sys (ext w1)))))) w1).
  assert (RECV_TIME_LIMIT (sys (ext w2)) !! fd = Some limit) as Hset.
  { simpl. rewrite sys_set_sys. simpl. by rewrite lookup_insert_eq. }
  destruct (Hin w2) as (w3 & H3 & He3). destruct (Hlim w3) as (limit' & Hl' & _).
  eexists limit, w2, _. split_and!; [|done|lia|lia|].
  - unfold nio_setsockopt. erewrite bind_done by exact H1. recv_option.
    erewrite bind_done by exact Hl. erewrite bind_done by reflexivity.
    erewrite bind_done by reflexivity.
    unfold assert_, mbind, M_bind.
    rewrite bool_decide_eq_true_2 by (rewrite He1; done). reflexivity.
  - unfold nio_setsockopt. erewrite bind_done by exact H3. recv_option.
    erewrite bind_done by exact Hl'. erewrite bind_done by reflexivity.
    erewrite bind_done by reflexivity.
    unfold assert_, mbind, M_bind.
    rewrite bool_decide_eq_false_2 by (rewrite He3, Hset; done). reflexivity.
Qed.

(** ** pthread_cond_timedwait *)

Lemma cond_loop_deadline (inner : option timespec → M W Z) fuel abst w :
  (∀ k, clock k < clock (S k)) →
  (∀ t w, ∃ w', inner t w = Done ETIMEDOUT w' ∧ (w_tick w ≤ w_tick w')%nat) →
  (∀ t w, ∃ w', wait_event t w = Done (IoOk tt) w' ∧ (w_tick w ≤ w_tick w')%nat) →
  Z.max 0 (abst - clock (w_tick w)) < Z.of_nat fuel →
  ∃ w' k, cond_timedwait_loop clock wait_event fuel inner abst w = Done ETIMEDOUT w'
    ∧ w_tick w' = S k ∧ abst ≤ clock k.
Proof.
  intros Hadv Hin Hwait. revert w. induction fuel as [|fuel IH]; intros w Hf; [lia|].
  cbn [cond_timedwait_loop]. erewrite bind_done by reflexivity. cbv zeta.
  destruct (sat_sub abst (clock (w_tick w)) =? 0) eqn:E; breflect.
  { apply sat_sub_zero in E. eexists _, (w_tick w). by split_and!. }
  erewrite bind_done by reflexivity. fold (tick_world w). fold (tick_world (tick_world w)).
  match goal with |- context [inner ?t] =>
    destruct (Hin t (tick_world (tick_world w))) as (w1 & H1 & Ht1) end.
  erewrite bind_done by exact H1. cbn [negb Z.eqb Pos.eqb ETIMEDOUT].
  erewrite bind_done by reflexivity. fold (tick_world w1).
  destruct (sat_sub abst (clock (w_tick w1)) =? 0) eqn:E1; breflect.
  { apply sat_sub_zero in E1. eexists _, (w_tick w1). by split_and!. }
  match goal with |- context [wait_event ?t] =>
    destruct (Hwait t (tick_world w1)) as (w2 & H2 & Ht2) end.
  erewrite bind_done by exact H2. cbn [is_err]. apply IH. simpl in Ht1, Ht2.
  pose proof (clock_mono clock Hadv (S (w_tick w)) (w_tick w2) ltac:(lia)).
  pose proof (Hadv (w_tick w)). unfold sat_sub in E. lia.
Qed.

(** A timed wait on a condition that nobody signals ends with [ETIMEDOUT]
    at its deadline: never before the absolute time given, and, the clock
    advancing, after finitely many slices. *)
Theorem cond_timedwait_deadline (inner : option timespec → M W Z) t w :
  (∀ k, clock k < clock (S k)) →
  (∀ t w, ∃ w', inner t w = Done ETIMEDOUT w' ∧ (w_tick w ≤ w_tick w')%nat) →
  (∀ t w, ∃ w', wait_event t w = Done (IoOk tt) w' ∧ (w_tick w ≤ w_tick w')%nat) →
  bad_timespec t = false → timespec_ns t ≤ u64_max →
  ∃ w' k, nio_pthread_cond_timedwait clock wait_event
      (S (Z.to_nat (timespec_ns t - clock (w_tick w)))) false inner (Some t) w
      = Done ETIMEDOUT w'
    ∧ w_tick w' = S k ∧ timespec_ns t ≤ clock k.
Proof.
  intros Hadv Hin Hwait Hbad Hmax. unfold nio_pthread_cond_timedwait. rewrite Hbad.
  assert (default u64_max (try_u64 (timespec_ns t)) = timespec_ns t) as ->.
  { unfold try_u64. destruct (_ <=? _) eqn:E; breflect; [done|lia]. }
  apply cond_loop_deadline; try done. lia.
Qed.
End properties.
