(* ===== verification/Msg.v ===== *)
(** * Msg: recvmsg and sendmsg

    Models the nio layers of [core/src/syscall/unix/recvmsg.rs] and
    [sendmsg.rs] on Linux: like the vectored layers of [Syscall], but over the
    vector of a [msghdr], which is copied for each attempt. The facade, ring
    and raw layers are those of [Syscall]. *)

From stdpp Require Import sorting base numbers strings gmap list.
From S2P Require Import Prelude Common Coroutine Syscall.

(** [msghdr]; the vector lives where [msg_iov] points, and [msg_iovlen] says how
    many entries of it the kernel is to use. *)
Record msghdr : Type := mkMsg {
  msg_name : Z;
  msg_namelen : Z;
  msg_iov : list iovec;
  msg_iovlen : Z;
  msg_control : Z;
  msg_controllen : Z;
  msg_flags : Z;
}.

Definition msg_with_iov (m : msghdr) (iov : list iovec) (len : Z) : msghdr :=
  mkMsg (msg_name m) (msg_namelen m) iov len (msg_control m) (msg_controllen m) (msg_flags m).

Section msg.
Context {I X : Type} `{!HasSys X}.
Abbreviation W := (World unit (option Z) I X).
Variable clock : nat → Z.
Variable libc : Libc W.
Variable wait_read_event : Z → Z → M W (io_result unit).
Variable wait_write_event : Z → Z → M W (io_result unit).

(** ** recvmsg *)

(** The inner loop: [inl r] returns [r] from the call, [inr] goes on with the
    next buffer. [iov] is changed in place, [msg_iovlen] is the length of the
    caller's vector. *)
Fixpoint recvmsg_while (fuel : nat) (inner : msghdr → M W Z) (fd : Z) (msg : msghdr)
  (start_time length : Z) (iov : list iovec) (offset received r left_time : Z)
  : M W (Z + Z * Z * Z) :=
  if (received <? length) && (0 <? left_time) then
    match fuel with
    | O => out_of_fuel
    | S fuel =>
        iov ← shift_first offset iov;
        r ← inner (msg_with_iov msg iov (msg_iovlen msg));
        if r =? 0 then mret (inl r)
        else
          st ← (if negb (r =? -1) then
                  _ ← reset_errno;
                  n ← to_size r;
                  let received := received + n in
                  if length <=? received
                  then r ← to_ssize received; mret (inl (received, r))
                  else mret (inr (received, sat_sub received length))
                else mret (inr (received, offset)));
          match st with
          | inl (received, r) => mret (inr (received, r, left_time))
          | inr (received, offset) =>
              e ← last_os_error;
              match kind e with
              | WouldBlock =>
                  '(left_time, w) ← wait_read clock libc wait_read_event fd start_time;
                  if is_err w then mret (inl r)
                  else recvmsg_while fuel inner fd msg start_time length iov offset received r
                         left_time
              | KindInterrupted =>
                  recvmsg_while fuel inner fd msg start_time length iov offset received r left_time
              | OtherKind => mret (inl r)
              end
          end
    end
  else mret (inr (received, r, left_time)).

Fixpoint recvmsg_for (fuel : nat) (inner : msghdr → M W Z) (fd : Z) (msg : msghdr)
  (start_time : Z) (vec todo : list iovec) (length received r : Z) (index : nat) (left_time : Z)
  : M W Z :=
  match todo with
  | [] => mret r
  | iovec :: todo =>
      let offset := sat_sub received length in
      let length := length + iov_len iovec in
      if length <? received then
        recvmsg_for fuel inner fd msg start_time vec todo length received r (S index) left_time
      else
        x ← recvmsg_while fuel inner fd msg start_time length (drop index vec) offset received r
              left_time;
        match x with
        | inl r => mret r
        | inr (received, r, left_time) =>
            recvmsg_for fuel inner fd msg start_time vec todo length received r
              (if length <=? received then S index else index) left_time
        end
  end.

(** The vector is taken to have [msg_iovlen] entries. *)
Definition nio_recvmsg (fuel : nat) (inner : msghdr → M W Z) (fd : Z) (msg : msghdr) : M W Z :=
  with_non_blocking libc fd (
    start_time ← now_ clock;
    left_time ← recv_time_limit libc fd;
    let vec := take (Z.to_nat (msg_iovlen msg)) (msg_iov msg) in
    recvmsg_for fuel inner fd msg start_time vec vec 0 0 0 0 left_time).

(** ** sendmsg: no special case for a result of zero *)

Fixpoint sendmsg_while (fuel : nat) (inner : msghdr → M W Z) (fd : Z) (msg : msghdr)
  (start_time length : Z) (iov : list iovec) (offset sent r left_time : Z)
  : M W (Z + Z * Z * Z) :=
  if (sent <? length) && (0 <? left_time) then
    match fuel with
    | O => out_of_fuel
    | S fuel =>
        iov ← shift_first offset iov;
        r ← inner (msg_with_iov msg iov (msg_iovlen msg));
        st ← (if negb (r =? -1) then
                _ ← reset_errno;
                n ← to_size r;
                let sent := sent + n in
                if length <=? sent
                then r ← to_ssize sent; mret (inl (sent, r))
                else mret (inr (sent, sat_sub sent length))
              else mret (inr (sent, offset)));
        match st with
        | inl (sent, r) => mret (inr (sent, r, left_time))
        | inr (sent, offset) =>
            e ← last_os_error;
            match kind e with
            | WouldBlock =>
                '(left_time, w) ← wait_write clock libc wait_write_event fd start_time;
                if is_err w then mret (inl r)
                else sendmsg_while fuel inner fd msg start_time length iov offset sent r left_time
            | KindInterrupted =>
                sendmsg_while fuel inner fd msg start_time length iov offset sent r left_time
            | OtherKind => mret (inl r)
            end
        end
    end
  else mret (inr (sent, r, left_time)).

Fixpoint sendmsg_for (fuel : nat) (inner : msghdr → M W Z) (fd : Z) (msg : msghdr)
  (start_time : Z) (vec todo : list iovec) (length sent r : Z) (index : nat) (left_time : Z)
  : M W Z :=
  match todo with
  | [] => mret r
  | iovec :: todo =>
      let offset := sat_sub sent length in
      let length := length + iov_len iovec in
      if length <? sent then
        sendmsg_for fuel inner fd msg start_time vec todo length sent r (S index) left_time
      else
        x ← sendmsg_while fuel inner fd msg start_time length (drop index vec) offset sent r
              left_time;
        match x with
        | inl r => mret r
        | inr (sent, r, left_time) =>
            sendmsg_for fuel inner fd msg start_time vec todo length sent r
              (if length <=? sent then S index else index) left_time
        end
  end.

Definition nio_sendmsg (fuel : nat) (inner : msghdr → M W Z) (fd : Z) (msg : msghdr) : M W Z :=
  with_non_blocking libc fd (
    start_time ← now_ clock;
    left_time ← send_time_limit libc fd;
    let vec := take (Z.to_nat (msg_iovlen msg)) (msg_iov msg) in
    sendmsg_for fuel inner fd msg start_time vec vec 0 0 0 0 left_time).

(** ** The calls: facade, nio and raw layer, in a build without the ring *)

Variable listener_call : nat → nat → event unit (option Z) → M W unit.

Definition sys_recvmsg (fuel : nat) (fn_ptr : option (msghdr → M W Z)) (libc_call : msghdr → M W Z)
  (fd : Z) (msg : msghdr) : M W Z :=
  facade clock listener_call Common.recvmsg
    (nio_recvmsg fuel (λ m, raw (option_map (λ f, f m) fn_ptr) (libc_call m)) fd msg).

Definition sys_sendmsg (fuel : nat) (fn_ptr : option (msghdr → M W Z)) (libc_call : msghdr → M W Z)
  (fd : Z) (msg : msghdr) : M W Z :=
  facade clock listener_call Common.sendmsg
    (nio_sendmsg fuel (λ m, raw (option_map (λ f, f m) fn_ptr) (libc_call m)) fd msg).

(** ** One buffer: the plain retry loop

    The reference: repeat the call while it would block or is interrupted and time
    is left; [wait] waits and tells the time that is left; [zero_resets] is
    whether a result of zero resets the errno. *)
Fixpoint retry (fuel : nat) (call : M W Z) (wait : M W (Z * io_result unit)) (zero_resets : bool)
  (left_time r : Z) : M W Z :=
  if 0 <? left_time then
    match fuel with
    | O => out_of_fuel
    | S fuel =>
        r ← call;
        if negb (r =? -1) then
          _ ← (if (r =? 0) && negb zero_resets then mret tt else reset_errno);
          mret r
        else
          e ← last_os_error;
          match kind e with
          | WouldBlock =>
              '(left_time, w) ← wait;
              if is_err w then mret r else retry fuel call wait zero_resets left_time r
          | KindInterrupted => retry fuel call wait zero_resets left_time r
          | OtherKind => mret r
          end
    end
  else mret r.
End msg.

Section msg_properties.
Context {I X : Type} `{!HasSys X, !HasSysLaws X}.
Abbreviation W := (World unit (option Z) I X).
Context (clock : nat → Z) (libc : Libc W)
  (wait_read_event wait_write_event : Z → Z → M W (io_result unit)).
Implicit Types (w : W) (msg : msghdr) (v : iovec).

Abbreviation recvmsg_while := (recvmsg_while clock libc wait_read_event).
Abbreviation recvmsg_for := (recvmsg_for clock libc wait_read_event).
Abbreviation nio_recvmsg := (nio_recvmsg clock libc wait_read_event).
Abbreviation sendmsg_while := (sendmsg_while clock libc wait_write_event).
Abbreviation sendmsg_for := (sendmsg_for clock libc wait_write_event).
Abbreviation nio_sendmsg := (nio_sendmsg clock libc wait_write_event).

(** A result of the C library: an error or a count. *)
Definition counts (call : M W Z) : Prop :=
  ∀ w r w', call w = Done r w' → -1 ≤ r ≤ i64_max.

Lemma bind_ext {A B} (m : M W A) (k1 k2 : A → M W B) w :
  (∀ a w1, m w = Done a w1 → k1 a w1 = k2 a w1) → (m ≫= k1) w = (m ≫= k2) w.
Proof. intros H. unfold mbind, M_bind. destruct (m w); [by apply H|done..]. Qed.

Lemma single_msg msg v :
  msg_iov msg = [v] → msg_iovlen msg = 1 → msg_with_iov msg [v] (msg_iovlen msg) = msg.
Proof. intros H1 H2. rewrite <-H1. by destruct msg. Qed.

(** What follows the loop over the one buffer. *)
Definition leave (x : Z + Z * Z * Z) : M W Z :=
  match x with inl r => mret r | inr (_, r, _) => mret r end.

Section one_buffer.
Context (inner : msghdr → M W Z) (fd : Z) (msg : msghdr) (v : iovec) (start_time : Z).
Context (Hiov : msg_iov msg = [v]) (Hlen : msg_iovlen msg = 1) (Hv : 0 < iov_len v).
Context (Hcounts : counts (inner msg)).

Lemma recv_single fuel left_time r w :
  (recvmsg_while fuel inner fd msg start_time (iov_len v) [v] 0 0 r left_time ≫= leave) w
  = retry fuel (inner msg) (wait_read clock libc wait_read_event fd start_time) false left_time r w.
Proof.
  revert left_time r w. induction fuel as [|fuel IH]; intros left_time r w;
    cbn [Msg.recvmsg_while retry]; rewrite (proj2 (Z.ltb_lt 0 (iov_len v)) Hv); simpl andb;
    destruct (0 <? left_time) eqn:El; try done.
  rewrite bind_assoc. unfold shift_first at 1. simpl. erewrite bind_done by reflexivity.
  rewrite (single_msg msg v Hiov Hlen), bind_assoc. apply bind_ext. intros r1 w1 Hr1.
  apply Hcounts in Hr1. destruct (r1 =? 0) eqn:E0; breflect.
  { subst r1. by erewrite !bind_done by reflexivity. }
  rewrite bind_assoc. destruct (r1 =? -1) eqn:E1; breflect; simpl negb; cbv iota.
  - erewrite bind_done by reflexivity. cbv iota beta.
    rewrite bind_assoc. apply bind_ext. intros e w2 _. destruct (kind e); [|apply IH|done].
    rewrite bind_assoc. apply bind_ext. intros [lt x] w3 _. destruct (is_err x); [done|apply IH].
  - unfold reset_errno, set_errno. rewrite bind_assoc. erewrite !bind_done by reflexivity.
    unfold to_size, to_ssize, assert_. munfold.
    destruct (0 <=? r1) eqn:Ep; breflect; [|lia]. rewrite Z.add_0_l.
    destruct (iov_len v <=? r1) eqn:Eq; breflect.
    + destruct (r1 <=? i64_max) eqn:Em; breflect; [done|lia].
    + simpl. by rewrite sys_set_sys.
Qed.

Lemma send_single fuel left_time r w :
  (sendmsg_while fuel inner fd msg start_time (iov_len v) [v] 0 0 r left_time ≫= leave) w
  = retry fuel (inner msg) (wait_write clock libc wait_write_event fd start_time) true left_time r w.
Proof.
  revert left_time r w. induction fuel as [|fuel IH]; intros left_time r w;
    cbn [Msg.sendmsg_while retry]; rewrite (proj2 (Z.ltb_lt 0 (iov_len v)) Hv); simpl andb;
    destruct (0 <? left_time) eqn:El; try done.
  rewrite bind_assoc. unfold shift_first at 1. simpl. erewrite bind_done by reflexivity.
  rewrite (single_msg msg v Hiov Hlen), bind_assoc. apply bind_ext. intros r1 w1 Hr1.
  apply Hcounts in Hr1. rewrite andb_false_r, bind_assoc.
  destruct (r1 =? -1) eqn:E1; breflect; simpl negb; cbv iota.
  - erewrite bind_done by reflexivity. cbv iota beta.
    rewrite bind_assoc. apply bind_ext. intros e w2 _. destruct (kind e); [|apply IH|done].
    rewrite bind_assoc. apply bind_ext. intros [lt x] w3 _. destruct (is_err x); [done|apply IH].
  - unfold reset_errno, set_errno. rewrite bind_assoc. erewrite !bind_done by reflexivity.
    unfold to_size, to_ssize, assert_. munfold.
    destruct (0 <=? r1) eqn:Ep; breflect; [|lia]. rewrite Z.add_0_l.
    destruct (iov_len v <=? r1) eqn:Eq; breflect.
    + destruct (r1 <=? i64_max) eqn:Em; breflect; [done|lia].
    + simpl. by rewrite sys_set_sys.
Qed.
End one_buffer.

Lemma with_non_blocking_ext {A} fd (body1 body2 : M W A) w :
  (∀ w, body1 w = body2 w) → with_non_blocking libc fd body1 w = with_non_blocking libc fd body2 w.
Proof.
  intros Hb. unfold with_non_blocking. apply bind_ext. intros b w1 _. apply bind_ext.
  intros u w2 _. unfold mbind, M_bind. by rewrite Hb.
Qed.

(** The loop over one buffer that is not empty. *)
Lemma recvmsg_for_single fuel inner fd msg v start left_time w :
  0 < iov_len v →
  recvmsg_for fuel inner fd msg start [v] [v] 0 0 0 0 left_time w
  = (recvmsg_while fuel inner fd msg start (iov_len v) [v] 0 0 0 left_time ≫= leave) w.
Proof.
  intros Hv. cbn [Msg.recvmsg_for]. rewrite (proj2 (Z.ltb_ge (0 + iov_len v) 0)) by lia.
  rewrite Z.add_0_l. simpl drop. apply bind_ext. intros x w1 _. by destruct x as [|[[? ?] ?]].
Qed.

Lemma sendmsg_for_single fuel inner fd msg v start left_time w :
  0 < iov_len v →
  sendmsg_for fuel inner fd msg start [v] [v] 0 0 0 0 left_time w
  = (sendmsg_while fuel inner fd msg start (iov_len v) [v] 0 0 0 left_time ≫= leave) w.
Proof.
  intros Hv. cbn [Msg.sendmsg_for]. rewrite (proj2 (Z.ltb_ge (0 + iov_len v) 0)) by lia.
  rewrite Z.add_0_l. simpl drop. apply bind_ext. intros x w1 _. by destruct x as [|[[? ?] ?]].
Qed.


(** A kernel that takes only as many entries as there are. *)
Definition checked (kernel : msghdr → M W Z) (m : msghdr) : M W Z :=
  if msg_iovlen m <=? Zlen (msg_iov m) then kernel m else panic "reads past the vector".

Section two_buffers.
Context (kernel : msghdr → M W Z) (fd : Z) (msg : msghdr) (v1 v2 : iovec) (rest : list iovec).
Context (Hiov : msg_iov msg = v1 :: v2 :: rest) (Hlen : msg_iovlen msg = Zlen (msg_iov msg)).
Context (Hv : 0 < iov_len v1).

Lemma msg_self : msg_with_iov msg (v1 :: v2 :: rest) (msg_iovlen msg) = msg.
Proof. rewrite <-Hiov. by destruct msg. Qed.

Lemma checked_first w : checked kernel msg w = kernel msg w.
Proof. unfold checked. by rewrite Hlen, Z.leb_refl. Qed.

Lemma checked_over i : checked kernel (msg_with_iov msg (i :: rest) (msg_iovlen msg))
  = panic "reads past the vector".
Proof.
  unfold checked. cbn [msg_iovlen msg_with_iov msg_iov].
  rewrite Hlen, Hiov, !Zlen_cons. by rewrite (proj2 (Z.leb_gt _ _)) by lia.
Qed.

(** Walk through the first attempt, which fills the first buffer. *)
Ltac first_attempt Hk r left_time :=
  rewrite (proj2 (Z.ltb_ge (0 + iov_len v1) 0)) by lia;
  rewrite Z.add_0_l, (proj2 (Z.ltb_lt 0 (iov_len v1))), (proj2 (Z.ltb_lt 0 left_time)) by lia;
  simpl andb; cbv iota; rewrite bind_assoc; unfold shift_first at 1; simpl sat_sub; simpl drop;
  erewrite bind_done by reflexivity; rewrite msg_self, bind_assoc;
  erewrite bind_done by (rewrite checked_first; exact Hk);
  rewrite ?(proj2 (Z.eqb_neq r 0)), (proj2 (Z.eqb_neq r (-1))) by lia; simpl negb; cbv iota;
  unfold reset_errno, set_errno, to_size, to_ssize; munfold;
  rewrite (proj2 (Z.leb_le 0 r)), Z.add_0_l, (proj2 (Z.leb_le (iov_len v1) r)),
    (proj2 (Z.leb_le r i64_max)) by lia.

(** Walk into the second attempt, which is made with too few entries. *)
Ltac second_attempt r left_time :=
  rewrite (proj2 (Z.ltb_ge (iov_len v1 + iov_len v2) r)) by lia;
  rewrite (proj2 (Z.ltb_lt r (iov_len v1 + iov_len v2))), (proj2 (Z.ltb_lt 0 left_time)) by lia;
  rewrite (proj2 (Z.leb_le (iov_len v1) r)) by lia;
  cbn [andb drop]; destruct (sat_sub r (iov_len v1) =? 0); cbv iota beta;
  rewrite checked_over; by eexists.

Lemma recvmsg_overrun fuel start left_time r w w1 :
  kernel msg w = Done r w1 → iov_len v1 ≤ r → r < iov_len v1 + iov_len v2 → r ≤ i64_max →
  0 < left_time →
  ∃ w', recvmsg_for (S fuel) (checked kernel) fd msg start (v1 :: v2 :: rest) (v1 :: v2 :: rest)
    0 0 0 0 left_time w = Panic "reads past the vector" w'.
Proof.
  intros Hk H1 H2 Hm Hleft. cbn [Msg.recvmsg_for Msg.recvmsg_while].
  first_attempt Hk r left_time. second_attempt r left_time.
Qed.

Lemma sendmsg_overrun fuel start left_time r w w1 :
  kernel msg w = Done r w1 → iov_len v1 ≤ r → r < iov_len v1 + iov_len v2 → r ≤ i64_max →
  0 < left_time →
  ∃ w', sendmsg_for (S fuel) (checked kernel) fd msg start (v1 :: v2 :: rest) (v1 :: v2 :: rest)
    0 0 0 0 left_time w = Panic "reads past the vector" w'.
Proof.
  intros Hk H1 H2 Hm Hleft. cbn [Msg.sendmsg_for Msg.sendmsg_while].
  first_attempt Hk r left_time. second_attempt r left_time.
Qed.
End two_buffers.

(** The frame around a body that panics, on a descriptor that does not block. *)
Lemma with_non_blocking_panics {A} fd (body : M W A) w w1 str w2 :
  is_blocking libc fd w = Done false w1 → body w1 = Panic str w2 →
  with_non_blocking libc fd body w = Panic str w2.
Proof.
  intros Hb Hp. unfold with_non_blocking. erewrite bind_done by exact Hb.
  erewrite bind_done by reflexivity. munfold. by rewrite Hp.
Qed.

(** A short [recvmsg] or [sendmsg] makes the kernel read past a vector: when
    the first attempt fills the first of several buffers but not the second,
    the layer tries again with the remaining buffers, yet tells the kernel
    the number of all of them. With a kernel that refuses to read entries that
    are not there, both calls fail at that point. *)
Theorem short_message_overruns fuel kernel fd msg v1 v2 rest w w1 left_recv w2 r2 w3 left_send
  w4 r4 w5 :
  msg_iov msg = v1 :: v2 :: rest → msg_iovlen msg = Zlen (msg_iov msg) → 0 < iov_len v1 →
  is_blocking libc fd w = Done false w1 →
  recv_time_limit libc fd (tick_world w1) = Done left_recv w2 → 0 < left_recv →
  kernel msg w2 = Done r2 w3 → iov_len v1 ≤ r2 < iov_len v1 + iov_len v2 → r2 ≤ i64_max →
  send_time_limit libc fd (tick_world w1) = Done left_send w4 → 0 < left_send →
  kernel msg w4 = Done r4 w5 → iov_len v1 ≤ r4 < iov_len v1 + iov_len v2 → r4 ≤ i64_max →
  (∃ w', nio_recvmsg (S fuel) (checked kernel) fd msg w = Panic "reads past the vector" w')
  ∧ ∃ w', nio_sendmsg (S fuel) (checked kernel) fd msg w = Panic "reads past the vector" w'.
Proof.
  intros Hiov Hlen Hv Hb Hrl Hl2 Hk2 Hr2 Hm2 Hsl Hl4 Hk4 Hr4 Hm4.
  assert (take (Z.to_nat (msg_iovlen msg)) (msg_iov msg) = v1 :: v2 :: rest) as Hvec.
  { rewrite Hlen. unfold Zlen. by rewrite Nat2Z.id, firstn_all. }
  split.
  - destruct (recvmsg_overrun kernel fd msg v1 v2 rest Hiov Hlen Hv fuel (clock (w_tick w1))
      left_recv r2 w2 w3) as [w' Hp]; try lia; [done|]. exists w'.
    eapply with_non_blocking_panics; [exact Hb|]. erewrite bind_done by reflexivity.
    erewrite bind_done by exact Hrl. by rewrite Hvec.
  - destruct (sendmsg_overrun kernel fd msg v1 v2 rest Hiov Hlen Hv fuel (clock (w_tick w1))
      left_send r4 w4 w5) as [w' Hp]; try lia; [done|]. exists w'.
    eapply with_non_blocking_panics; [exact Hb|]. erewrite bind_done by reflexivity.
    erewrite bind_done by exact Hsl. by rewrite Hvec.
Qed.

(** *** Blocking mode *)

Section flags.
Context (fl : X → Z → Z) (fd : Z).
Context (laws : fd_laws libc wait_read_event wait_write_event fl fd).
Abbreviation holds := (holds (λ x, fl x fd)).

Ltac holding :=
  repeat first
  [ solve [eauto using holds_ret, holds_gets, holds_assert, holds_panic, holds_fuel, holds_now,
      holds_sys, holds_recv_limit, holds_send_limit, holds_wait_read, holds_wait_write,
      holds_shift, fl_obs]
  | apply holds_bind; [|intros ?]
  | case_match ].

Lemma holds_recvmsg_while inner msg fuel start length iov offset received r left_time :
  (∀ m, holds (inner m)) →
  holds (recvmsg_while fuel inner fd msg start length iov offset received r left_time).
Proof.
  intros Hin. revert iov offset received r left_time. induction fuel; intros; simpl;
    unfold last_os_error, reset_errno, set_errno, to_size, to_ssize; holding.
Qed.

Lemma holds_sendmsg_while inner msg fuel start length iov offset sent r left_time :
  (∀ m, holds (inner m)) →
  holds (sendmsg_while fuel inner fd msg start length iov offset sent r left_time).
Proof.
  intros Hin. revert iov offset sent r left_time. induction fuel; intros; simpl;
    unfold last_os_error, reset_errno, set_errno, to_size, to_ssize; holding.
Qed.

Lemma holds_recvmsg_for inner msg fuel start vec todo length received r index left_time :
  (∀ m, holds (inner m)) →
  holds (recvmsg_for fuel inner fd msg start vec todo length received r index left_time).
Proof.
  intros Hin. revert length received r index left_time. induction todo; intros; simpl; holding;
    eauto using holds_recvmsg_while.
Qed.

Lemma holds_sendmsg_for inner msg fuel start vec todo length sent r index left_time :
  (∀ m, holds (inner m)) →
  holds (sendmsg_for fuel inner fd msg start vec todo length sent r index left_time).
Proof.
  intros Hin. revert length sent r index left_time. induction todo; intros; simpl; holding;
    eauto using holds_sendmsg_while.
Qed.

(** The descriptor keeps its flags, its blocking mode included. *)
Theorem msg_restores_flags fuel inner msg w r w' :
  (∀ m, holds (inner m)) →
  nio_recvmsg fuel inner fd msg w = Done r w' ∨ nio_sendmsg fuel inner fd msg w = Done r w' →
  fl (ext w') fd = fl (ext w) fd.
Proof.
  intros Hin [Hr|Hr].
  - eapply (with_non_blocking_spec libc wait_read_event wait_write_event fl fd laws);
      [|exact Hr]. intros F _. apply agree_holds.
    holding. by apply holds_recvmsg_for.
  - eapply (with_non_blocking_spec libc wait_read_event wait_write_event fl fd laws);
      [|exact Hr]. intros F _. apply agree_holds.
    holding. by apply holds_sendmsg_for.
Qed.
End flags.
End msg_properties.
