(* ===== verification/Operator.v ===== *)
(** * Operator: submissions to io_uring

    Models [core/src/net/operator/linux/mod.rs]: the operator of an event loop,
    which turns system calls into submission entries, pushes them to the
    submission queue of its ring, or to a backlog when the queue is full, and
    drains the backlog when it selects. The crate [io_uring] with the kernel
    behind it is a parameter: the class [Ring] has its calls, [RingLaws] what
    is relied on. *)

From stdpp Require Import sorting base numbers strings gmap list.
From S2P Require Import Prelude Common.

(** The opcodes the operator probes for. *)
Inductive Opcode : Type :=
| OAsyncCancel | OEpollCtl | OPollAdd | OPollRemove | OTimeout | OTimeoutUpdate
| OTimeoutRemove | OOpenAt | OMkDirAt | ORenameAt | OFsync | OSocket | OAccept | OConnect
| OShutdown | OClose | ORecv | ORead | OReadv | ORecvMsg | OSend | OSendZc | OWrite | OWritev
| OSendMsg.

#[global] Instance Opcode_eq_dec : EqDecision Opcode.
Proof. solve_decision. Defined.

(** The builders with their arguments; an optional one is set by a builder
    method. Pointers are addresses; [timespec] is the address of the
    [Timespec]. *)
Inductive Sqe : Type :=
| AsyncCancel (user_data : Z)
| EpollCtl (epfd fd op event : Z)
| PollAdd (fd flags : Z)
| PollRemove (user_data : Z)
| TimeoutAdd (timespec : Z)
| TimeoutUpdate (user_data timespec : Z)
| TimeoutRemove (user_data : Z)
| OpenAt (dir_fd pathname flags mode : Z)
| MkDirAt (dir_fd pathname mode : Z)
| RenameAt (old_dir_fd old_path new_dir_fd new_path : Z) (flags : option Z)
| Fsync (fd : Z)
| Socket (domain ty protocol : Z)
| Accept (fd address address_len : Z) (flags : option Z)
| Connect (fd address len : Z)
| Shutdown (fd how : Z)
| Close (fd : Z)
| Recv (fd buf len flags : Z)
| Read (fd buf len : Z) (offset : option Z)
| Readv (fd iov iovcnt : Z) (offset : option Z)
| RecvMsg (fd msg flags : Z)
| Send (fd buf len flags : Z)
| SendZc (fd buf len flags addr addrlen : Z)
| Write (fd buf len : Z) (offset : option Z)
| Writev (fd iov iovcnt : Z) (offset : option Z)
| SendMsg (fd msg flags : Z).

#[global] Instance Sqe_eq_dec : EqDecision Sqe.
Proof. solve_decision. Defined.

(** [squeue::Entry]: the entry of [timeout_remove] has no user data. *)
Record Entry : Type := mkEntry { e_sqe : Sqe; e_user_data : option Z }.

#[global] Instance Entry_eq_dec : EqDecision Entry.
Proof. solve_decision. Defined.

(** ** The ring *)

Class Ring (R : Type) : Type := {
  (** [submission_shared().push]; [None] when the queue is full *)
  ring_push : Entry → R → option R;
  ring_is_full : R → bool;
  ring_submit : R → io_result Z * R;
  ring_submit_and_wait : Z → R → io_result Z * R;
  ring_sync : R → R;
  (** the completions at hand: user data and result of each *)
  ring_completions : R → list (Z * Z) * R;
  (** every entry the ring was ever given, in order *)
  ring_log : R → list Entry;
}.

(** A push that succeeds is the only thing that gives the ring an entry. *)
Class RingLaws (R : Type) `{!Ring R} : Prop := {
  ring_push_log e r r' : ring_push e r = Some r' → ring_log r' = ring_log r ++ [e];
  ring_submit_log r : ring_log (ring_submit r).2 = ring_log r;
  ring_submit_and_wait_log n r : ring_log (ring_submit_and_wait n r).2 = ring_log r;
  ring_sync_log r : ring_log (ring_sync r) = ring_log r;
  ring_completions_log r : ring_log (ring_completions r).2 = ring_log r;
}.

Definition raw_os_error (e : io_error) : option Z :=
  match e with OsError n => Some n | Interrupted => Some 4 | _ => None end.
(** [EBUSY] or [EINTR] *)
Definition busy_or_interrupted (e : io_error) : bool :=
  match raw_os_error e with Some n => (n =? 16) || (n =? 4) | None => false end.

Section operator.
Context {R : Type} `{!Ring R}.

(** The operator, the instants at which the clock is read and the stack slots
    that are in scope. *)
Record Op : Type := mkOp {
  ring : R;
  entering : bool;
  backlog : list Entry;
  op_tick : nat;
  in_scope : gset Z;
}.

(** [support_io_uring()], what the probe says of an opcode, and
    [Instant::now()] in nanoseconds. *)
Variable support_io_uring : bool.
Variable is_supported : Opcode → bool.
Variable instant : nat → Z.

Definition set_ring (r : R) (s : Op) : Op :=
  mkOp r (entering s) (backlog s) (op_tick s) (in_scope s).
Definition set_entering (b : bool) (s : Op) : Op :=
  mkOp (ring s) b (backlog s) (op_tick s) (in_scope s).
Definition set_backlog (l : list Entry) (s : Op) : Op :=
  mkOp (ring s) (entering s) l (op_tick s) (in_scope s).
Definition set_scope (x : gset Z) (s : Op) : Op :=
  mkOp (ring s) (entering s) (backlog s) (op_tick s) x.

Definition operator_new (r : R) : Op := mkOp r false [] 0 ∅.

Definition ring_call {A} (f : R → A * R) : M Op A := λ s,
  let '(a, r) := f (ring s) in Done a (set_ring r s).
Definition instant_now : M Op Z := λ s,
  Done (instant (op_tick s))
    (mkOp (ring s) (entering s) (backlog s) (S (op_tick s)) (in_scope s)).

Definition push_sq (entry : Entry) : M Op (io_result unit) :=
  _ ← (λ s, match ring_push entry (ring s) with
            | Some r => Done tt (set_ring r s)
            | None => Done tt (set_backlog (backlog s ++ [entry]) s)
            end);
  r ← ring_call ring_submit;
  match r with
  | IoOk _ => mret (IoOk tt)
  | IoErr err => mret (if bool_decide (raw_os_error err = Some 4) then IoOk tt else IoErr err)
  end.

(** [support!]: the entry is only built when the opcode is supported. *)
Definition support (code : Opcode) (impls : M Op Entry) : M Op (io_result unit) :=
  if support_io_uring && is_supported code then e ← impls; push_sq e
  else mret (IoErr (Unsupported "unsupported")).

(** [x.try_into().expect(msg)] into [u32] and [u64]. *)
Definition into_u32 (msg : string) (x : Z) : M Op Z :=
  _ ← assert_ ((0 <=? x) && (x <=? u32_max)) msg; mret x.
Definition into_u64 (msg : string) (x : Z) : M Op Z :=
  _ ← assert_ ((0 <=? x) && (x <=? u64_max)) msg; mret x.

(** A local [Timespec]: in scope while [m] runs. *)
Definition with_timespec {A} (m : Z → M Op A) : M Op A :=
  p ← gets (λ s, fresh (in_scope s));
  _ ← modify (λ s, set_scope (in_scope s ∪ {[ p ]}) s);
  r ← m p;
  _ ← modify (λ s, set_scope (in_scope s ∖ {[ p ]}) s);
  mret r.

Definition timeout_add (user_data : Z) (timeout : option Z) : M Op (io_result unit) :=
  match timeout with
  | Some _ => with_timespec (λ p,
      support OTimeout (mret (mkEntry (TimeoutAdd p) (Some user_data))))
  | None => mret (IoOk tt)
  end.

Definition timeout_remove (user_data : Z) : M Op (io_result unit) :=
  support OTimeoutRemove (mret (mkEntry (TimeoutRemove user_data) None)).

Definition timeout_update (user_data : Z) (timeout : option Z) : M Op (io_result unit) :=
  match timeout with
  | Some _ => with_timespec (λ p,
      support OTimeoutUpdate (mret (mkEntry (TimeoutUpdate user_data p) (Some user_data))))
  | None => timeout_remove user_data
  end.

(** *** do_select and select *)

(** The loop that cleans the backlog. *)
Fixpoint clean_backlog (fuel : nat) : M Op (io_result unit) :=
  match fuel with
  | O => out_of_fuel
  | S fuel =>
      s ← gets id;
      (* [Some r] leaves the loop *)
      x ← (if ring_is_full (ring s) then
             r ← ring_call ring_submit;
             match r with
             | IoOk _ => mret None
             | IoErr err =>
                 mret (Some (if busy_or_interrupted err then IoOk tt else IoErr err))
             end
           else mret None);
      match x with
      | Some r => mret r
      | None =>
          _ ← modify (λ s, set_ring (ring_sync (ring s)) s);
          s ← gets id;
          match backlog s with
          | [] => mret (IoOk tt)
          | sqe :: rest =>
              match ring_push sqe (ring s) with
              | Some r =>
                  _ ← modify (λ s, set_backlog rest (set_ring r s));
                  clean_backlog fuel
              | None => mret (IoOk tt)
              end
          end
      end
  end.

(** The completion queue itself is read by the caller. *)
Definition do_select (fuel : nat) (timeout : option Z) (want : Z)
  : M Op (io_result (Z * option Z)) :=
  start_time ← instant_now;
  _ <-? timeout_add IO_URING_TIMEOUT_USERDATA timeout;
  r ← ring_call (ring_submit_and_wait want);
  count <-? mret match r with
                 | IoOk count => IoOk count
                 | IoErr err => if busy_or_interrupted err then IoOk 0 else IoErr err
                 end;
  _ <-? clean_backlog fuel;
  n ← instant_now;
  let cost := sat_sub n start_time in
  mret (IoOk (count, (λ t, sat_sub t cost) <$> timeout)).

Definition select (fuel : nat) (timeout : option Z) (want : Z)
  : M Op (io_result (Z * option Z)) :=
  if support_io_uring then
    s ← gets id;
    if entering s then mret (IoOk (0, timeout))
    else
      _ ← modify (set_entering true);
      result ← do_select fuel timeout want;
      _ ← modify (set_entering false);
      mret result
  else mret (IoErr (Unsupported "unsupported")).

(** *** System calls as submissions *)

Definition async_cancel (user_data : Z) : M Op (io_result unit) :=
  support OAsyncCancel (mret (mkEntry (AsyncCancel user_data) (Some user_data))).
Definition epoll_ctl (user_data epfd op fd event : Z) : M Op (io_result unit) :=
  support OEpollCtl (mret (mkEntry (EpollCtl epfd fd op event) (Some user_data))).
Definition poll_add (user_data fd flags : Z) : M Op (io_result unit) :=
  support OPollAdd
    (f ← into_u32 "flags overflow" flags; mret (mkEntry (PollAdd fd f) (Some user_data))).
Definition poll_remove (user_data : Z) : M Op (io_result unit) :=
  support OPollRemove (mret (mkEntry (PollRemove user_data) (Some user_data))).
Definition openat (user_data dir_fd pathname flags mode : Z) : M Op (io_result unit) :=
  support OOpenAt (mret (mkEntry (OpenAt dir_fd pathname flags mode) (Some user_data))).
Definition mkdirat (user_data dir_fd pathname mode : Z) : M Op (io_result unit) :=
  support OMkDirAt (mret (mkEntry (MkDirAt dir_fd pathname mode) (Some user_data))).
Definition renameat (user_data old_dir_fd old_path new_dir_fd new_path : Z)
  : M Op (io_result unit) :=
  support ORenameAt
    (mret (mkEntry (RenameAt old_dir_fd old_path new_dir_fd new_path None) (Some user_data))).
Definition renameat2 (user_data old_dir_fd old_path new_dir_fd new_path flags : Z)
  : M Op (io_result unit) :=
  support ORenameAt
    (mret (mkEntry (RenameAt old_dir_fd old_path new_dir_fd new_path (Some flags))
      (Some user_data))).
Definition fsync (user_data fd : Z) : M Op (io_result unit) :=
  support OFsync (mret (mkEntry (Fsync fd) (Some user_data))).
Definition socket (user_data domain ty protocol : Z) : M Op (io_result unit) :=
  support OSocket (mret (mkEntry (Socket domain ty protocol) (Some user_data))).
Definition accept (user_data fd address address_len : Z) : M Op (io_result unit) :=
  support OAccept (mret (mkEntry (Accept fd address address_len None) (Some user_data))).
Definition accept4 (user_data fd addr len flg : Z) : M Op (io_result unit) :=
  support OAccept (mret (mkEntry (Accept fd addr len (Some flg)) (Some user_data))).
Definition connect (user_data fd address len : Z) : M Op (io_result unit) :=
  support OConnect (mret (mkEntry (Connect fd address len) (Some user_data))).
Definition shutdown (user_data fd how : Z) : M Op (io_result unit) :=
  support OShutdown (mret (mkEntry (Shutdown fd how) (Some user_data))).
Definition close (user_data fd : Z) : M Op (io_result unit) :=
  support OClose (mret (mkEntry (Close fd) (Some user_data))).
Definition recv (user_data fd buf len flags : Z) : M Op (io_result unit) :=
  support ORecv
    (n ← into_u32 "len overflow" len; mret (mkEntry (Recv fd buf n flags) (Some user_data))).
Definition read (user_data fd buf count : Z) : M Op (io_result unit) :=
  support ORead
    (n ← into_u32 "count overflow" count; mret (mkEntry (Read fd buf n None) (Some user_data))).
Definition pread (user_data fd buf count offset : Z) : M Op (io_result unit) :=
  support ORead
    (n ← into_u32 "count overflow" count;
     o ← into_u64 "offset overflow" offset;
     mret (mkEntry (Read fd buf n (Some o)) (Some user_data))).
Definition readv (user_data fd iov iovcnt : Z) : M Op (io_result unit) :=
  support OReadv
    (n ← into_u32 "iovcnt overflow" iovcnt; mret (mkEntry (Readv fd iov n None) (Some user_data))).
Definition preadv (user_data fd iov iovcnt offset : Z) : M Op (io_result unit) :=
  support OReadv
    (n ← into_u32 "iovcnt overflow" iovcnt;
     o ← into_u64 "offset overflow" offset;
     mret (mkEntry (Readv fd iov n (Some o)) (Some user_data))).
Definition recvmsg (user_data fd msg flags : Z) : M Op (io_result unit) :=
  support ORecvMsg
    (f ← into_u32 "flags overflow" flags; mret (mkEntry (RecvMsg fd msg f) (Some user_data))).
Definition send (user_data fd buf len flags : Z) : M Op (io_result unit) :=
  support OSend
    (n ← into_u32 "len overflow" len; mret (mkEntry (Send fd buf n flags) (Some user_data))).
Definition sendto (user_data fd buf len flags addr addrlen : Z) : M Op (io_result unit) :=
  support OSendZc
    (n ← into_u32 "len overflow" len;
     mret (mkEntry (SendZc fd buf n flags addr addrlen) (Some user_data))).
Definition write (user_data fd buf count : Z) : M Op (io_result unit) :=
  support OWrite
    (n ← into_u32 "count overflow" count; mret (mkEntry (Write fd buf n None) (Some user_data))).
Definition pwrite (user_data fd buf count offset : Z) : M Op (io_result unit) :=
  support OWrite
    (n ← into_u32 "count overflow" count;
     o ← into_u64 "offset overflow" offset;
     mret (mkEntry (Write fd buf n (Some o)) (Some user_data))).
Definition writev (user_data fd iov iovcnt : Z) : M Op (io_result unit) :=
  support OWritev
    (n ← into_u32 "iovcnt overflow" iovcnt;
     mret (mkEntry (Writev fd iov n None) (Some user_data))).
Definition pwritev (user_data fd iov iovcnt offset : Z) : M Op (io_result unit) :=
  support OWritev
    (n ← into_u32 "iovcnt overflow" iovcnt;
     o ← into_u64 "offset overflow" offset;
     mret (mkEntry (Writev fd iov n (Some o)) (Some user_data))).
Definition sendmsg (user_data fd msg flags : Z) : M Op (io_result unit) :=
  support OSendMsg
    (f ← into_u32 "flags overflow" flags; mret (mkEntry (SendMsg fd msg f) (Some user_data))).
End operator.

Arguments Op : clear implicits.

(** ** The calls as data *)

Inductive uring_op : Type :=
| UAsyncCancel
| UEpollCtl (epfd op fd event : Z)
| UPollAdd (fd flags : Z)
| UPollRemove
| UTimeoutRemove
| UOpenAt (dir_fd pathname flags mode : Z)
| UMkDirAt (dir_fd pathname mode : Z)
| URenameAt (old_dir_fd old_path new_dir_fd new_path : Z)
| URenameAt2 (old_dir_fd old_path new_dir_fd new_path flags : Z)
| UFsync (fd : Z)
| USocket (domain ty protocol : Z)
| UAccept (fd address address_len : Z)
| UAccept4 (fd addr len flg : Z)
| UConnect (fd address len : Z)
| UShutdown (fd how : Z)
| UClose (fd : Z)
| URecv (fd buf len flags : Z)
| URead (fd buf count : Z)
| UPread (fd buf count offset : Z)
| UReadv (fd iov iovcnt : Z)
| UPreadv (fd iov iovcnt offset : Z)
| URecvMsg (fd msg flags : Z)
| USend (fd buf len flags : Z)
| USendTo (fd buf len flags addr addrlen : Z)
| UWrite (fd buf count : Z)
| UPwrite (fd buf count offset : Z)
| UWritev (fd iov iovcnt : Z)
| UPwritev (fd iov iovcnt offset : Z)
| USendMsg (fd msg flags : Z).

#[global] Instance uring_op_eq_dec : EqDecision uring_op.
Proof. solve_decision. Defined.

(** The kernel's operation a call asks for. *)
Definition call_code (o : uring_op) : Opcode :=
  match o with
  | UAsyncCancel => OAsyncCancel
  | UEpollCtl _ _ _ _ => OEpollCtl
  | UPollAdd _ _ => OPollAdd
  | UPollRemove => OPollRemove
  | UTimeoutRemove => OTimeoutRemove
  | UOpenAt _ _ _ _ => OOpenAt
  | UMkDirAt _ _ _ => OMkDirAt
  | URenameAt _ _ _ _ | URenameAt2 _ _ _ _ _ => ORenameAt
  | UFsync _ => OFsync
  | USocket _ _ _ => OSocket
  | UAccept _ _ _ | UAccept4 _ _ _ _ => OAccept
  | UConnect _ _ _ => OConnect
  | UShutdown _ _ => OShutdown
  | UClose _ => OClose
  | URecv _ _ _ _ => ORecv
  | URead _ _ _ | UPread _ _ _ _ => ORead
  | UReadv _ _ _ | UPreadv _ _ _ _ => OReadv
  | URecvMsg _ _ _ => ORecvMsg
  | USend _ _ _ _ => OSend
  | USendTo _ _ _ _ _ _ => OSendZc
  | UWrite _ _ _ | UPwrite _ _ _ _ => OWrite
  | UWritev _ _ _ | UPwritev _ _ _ _ => OWritev
  | USendMsg _ _ _ => OSendMsg
  end.

(** The operation of an entry. *)
Definition sqe_code (e : Sqe) : Opcode :=
  match e with
  | AsyncCancel _ => OAsyncCancel
  | EpollCtl _ _ _ _ => OEpollCtl
  | PollAdd _ _ => OPollAdd
  | PollRemove _ => OPollRemove
  | TimeoutAdd _ => OTimeout
  | TimeoutUpdate _ _ => OTimeoutUpdate
  | TimeoutRemove _ => OTimeoutRemove
  | OpenAt _ _ _ _ => OOpenAt
  | MkDirAt _ _ _ => OMkDirAt
  | RenameAt _ _ _ _ _ => ORenameAt
  | Fsync _ => OFsync
  | Socket _ _ _ => OSocket
  | Accept _ _ _ _ => OAccept
  | Connect _ _ _ => OConnect
  | Shutdown _ _ => OShutdown
  | Close _ => OClose
  | Recv _ _ _ _ => ORecv
  | Read _ _ _ _ => ORead
  | Readv _ _ _ _ => OReadv
  | RecvMsg _ _ _ => ORecvMsg
  | Send _ _ _ _ => OSend
  | SendZc _ _ _ _ _ _ => OSendZc
  | Write _ _ _ _ => OWrite
  | Writev _ _ _ _ => OWritev
  | SendMsg _ _ _ => OSendMsg
  end.

(** The sizes and flags of a call that must fit 32 bits, and its file offset. *)
Definition call_u32 (o : uring_op) : option Z :=
  match o with
  | UPollAdd _ x | URecv _ _ x _ | URead _ _ x | UPread _ _ x _ | UReadv _ _ x | UPreadv _ _ x _
  | URecvMsg _ _ x | USend _ _ x _ | USendTo _ _ x _ _ _ | UWrite _ _ x | UPwrite _ _ x _
  | UWritev _ _ x | UPwritev _ _ x _ | USendMsg _ _ x => Some x
  | _ => None
  end.
Definition call_offset (o : uring_op) : option Z :=
  match o with
  | UPread _ _ _ x | UPreadv _ _ _ x | UPwrite _ _ _ x | UPwritev _ _ _ x => Some x
  | _ => None
  end.

Definition fits (bound : Z) (x : option Z) : bool :=
  match x with Some x => (0 <=? x) && (x <=? bound) | None => true end.
Definition call_fits (o : uring_op) : bool :=
  fits u32_max (call_u32 o) && fits u64_max (call_offset o).

(** The descriptor a call is about, and that of an entry. *)
Definition call_fd (o : uring_op) : option Z :=
  match o with
  | UEpollCtl _ _ fd _ | UPollAdd fd _ | UFsync fd | UAccept fd _ _ | UAccept4 fd _ _ _
  | UConnect fd _ _ | UShutdown fd _ | UClose fd | URecv fd _ _ _ | URead fd _ _
  | UPread fd _ _ _ | UReadv fd _ _ | UPreadv fd _ _ _ | URecvMsg fd _ _ | USend fd _ _ _
  | USendTo fd _ _ _ _ _ | UWrite fd _ _ | UPwrite fd _ _ _ | UWritev fd _ _
  | UPwritev fd _ _ _ | USendMsg fd _ _ => Some fd
  | _ => None
  end.
Definition sqe_fd (e : Sqe) : option Z :=
  match e with
  | EpollCtl _ fd _ _ | PollAdd fd _ | Fsync fd | Accept fd _ _ _ | Connect fd _ _
  | Shutdown fd _ | Close fd | Recv fd _ _ _ | Read fd _ _ _ | Readv fd _ _ _ | RecvMsg fd _ _
  | Send fd _ _ _ | SendZc fd _ _ _ _ _ | Write fd _ _ _ | Writev fd _ _ _
  | SendMsg fd _ _ => Some fd
  | _ => None
  end.
(** The size or flags and the offset an entry carries. *)
Definition sqe_u32 (e : Sqe) : option Z :=
  match e with
  | PollAdd _ x | Recv _ _ x _ | Read _ _ x _ | Readv _ _ x _ | RecvMsg _ _ x | Send _ _ x _
  | SendZc _ _ x _ _ _ | Write _ _ x _ | Writev _ _ x _ | SendMsg _ _ x => Some x
  | _ => None
  end.
Definition sqe_offset (e : Sqe) : option Z :=
  match e with
  | Read _ _ _ x | Readv _ _ _ x | Write _ _ _ x | Writev _ _ _ x => x
  | _ => None
  end.

Section properties.
Context {R : Type} `{!Ring R, !RingLaws R}.
Context (support_io_uring : bool) (is_supported : Opcode → bool) (instant : nat → Z).
Implicit Types (s : Op R) (e : Entry).

Definition run_uring_op (user_data : Z) (o : uring_op) : M (Op R) (io_result unit) :=
  let '(u, p, d) := (support_io_uring, is_supported, user_data) in
  match o with
  | UAsyncCancel => async_cancel u p d
  | UEpollCtl epfd op fd event => epoll_ctl u p d epfd op fd event
  | UPollAdd fd flags => poll_add u p d fd flags
  | UPollRemove => poll_remove u p d
  | UTimeoutRemove => timeout_remove u p d
  | UOpenAt dir path flags mode => openat u p d dir path flags mode
  | UMkDirAt dir path mode => mkdirat u p d dir path mode
  | URenameAt od op nd np => renameat u p d od op nd np
  | URenameAt2 od op nd np flags => renameat2 u p d od op nd np flags
  | UFsync fd => fsync u p d fd
  | USocket domain ty protocol => socket u p d domain ty protocol
  | UAccept fd a l => accept u p d fd a l
  | UAccept4 fd a l f => accept4 u p d fd a l f
  | UConnect fd a l => connect u p d fd a l
  | UShutdown fd how => shutdown u p d fd how
  | UClose fd => close u p d fd
  | URecv fd b l f => recv u p d fd b l f
  | URead fd b c => read u p d fd b c
  | UPread fd b c o => pread u p d fd b c o
  | UReadv fd i c => readv u p d fd i c
  | UPreadv fd i c o => preadv u p d fd i c o
  | URecvMsg fd m f => recvmsg u p d fd m f
  | USend fd b l f => send u p d fd b l f
  | USendTo fd b l f a al => sendto u p d fd b l f a al
  | UWrite fd b c => write u p d fd b c
  | UPwrite fd b c o => pwrite u p d fd b c o
  | UWritev fd i c => writev u p d fd i c
  | UPwritev fd i c o => pwritev u p d fd i c o
  | USendMsg fd m f => sendmsg u p d fd m f
  end.

(** Everything that has been handed to the operator. *)
Definition given s : list Entry := ring_log (ring s) ++ backlog s.

(** The rest of the operator. *)
Definition same_flags s s' : Prop :=
  entering s' = entering s ∧ in_scope s' = in_scope s ∧ op_tick s' = op_tick s.

Lemma submit_world s :
  ∃ s', ring_call ring_submit s = Done (ring_submit (ring s)).1 s'
    ∧ given s' = given s ∧ backlog s' = backlog s ∧ same_flags s s'.
Proof.
  pose proof (ring_submit_log (ring s)) as Hl. unfold ring_call.
  destruct (ring_submit (ring s)) as [r rg]. eexists. split; [reflexivity|].
  unfold given. simpl in *. by rewrite Hl.
Qed.

(** The entry is queued whatever [submit] says. *)
Lemma push_sq_spec e s :
  ∃ r s', push_sq e s = Done r s' ∧ given s' ≡ₚ e :: given s ∧ same_flags s s'
    ∧ (length (backlog s') ≤ S (length (backlog s)))%nat.
Proof.
  unfold push_sq.
  assert (∃ s1, match ring_push e (ring s) with
    | Some r => Done tt (set_ring r s)
    | None => Done tt (set_backlog (backlog s ++ [e]) s)
    end = Done tt s1 ∧ given s1 ≡ₚ e :: given s ∧ same_flags s s1
    ∧ (length (backlog s1) ≤ S (length (backlog s)))%nat) as (s1 & H1 & Hg & Hf & Hb).
  { destruct (ring_push e (ring s)) as [r|] eqn:E; (eexists; split; [reflexivity|]).
    - unfold given. simpl. rewrite (ring_push_log _ _ _ E). split_and!; try done; [|lia].
      rewrite <-app_assoc. symmetry. apply Permutation_middle.
    - unfold given. simpl. split_and!; try done; [|rewrite length_app; simpl; lia].
      rewrite app_assoc. symmetry. apply Permutation_cons_append. }
  erewrite bind_done by exact H1. destruct (submit_world s1) as (s2 & H2 & Hg2 & Hb2 & Hf2).
  erewrite bind_done by exact H2.
  destruct (ring_submit (ring s1)).1; eexists _, s2; (split; [reflexivity|]);
    rewrite Hg2, Hb2; unfold same_flags in *; intuition congruence.
Qed.

Lemma support_spec code e s :
  ∃ r s', support support_io_uring is_supported code (mret e) s = Done r s'
    ∧ same_flags s s' ∧ (length (backlog s') ≤ S (length (backlog s)))%nat
    ∧ if support_io_uring && is_supported code then given s' ≡ₚ e :: given s
      else s' = s ∧ r = IoErr (Unsupported "unsupported").
Proof.
  unfold support. destruct (_ && _).
  - destruct (push_sq_spec e s) as (r & s' & Hr & ? & ? & ?).
    erewrite bind_done by reflexivity. by exists r, s'.
  - eexists _, s. split; [reflexivity|]. split_and!; try done. lia.
Qed.

(** What a call pushes. *)
Definition entry_of (user_data : Z) (o : uring_op) (e : Entry) : Prop :=
  sqe_code (e_sqe e) = call_code o ∧ sqe_fd (e_sqe e) = call_fd o
  ∧ sqe_u32 (e_sqe e) = call_u32 o ∧ sqe_offset (e_sqe e) = call_offset o
  ∧ e_user_data e = if decide (o = UTimeoutRemove) then None else Some user_data.

(** Every call is a [support!] of its opcode around a builder that makes the
    entry of the call, or panics when an argument does not fit. *)
Lemma call_builds user_data o :
  ∃ impls, run_uring_op user_data o = support support_io_uring is_supported (call_code o) impls
    ∧ ∀ s, if call_fits o then ∃ e, impls s = Done e s ∧ entry_of user_data o e
           else ∃ msg, impls s = Panic msg s.
Proof.
  destruct o; (eexists; split; [reflexivity|]); intros s;
    unfold call_fits, fits, call_u32, call_offset, into_u32, into_u64;
    rewrite ?andb_true_r; unfold mbind, M_bind, assert_;
    repeat match goal with |- context [?a <=? ?b] => destruct (a <=? b) end;
    simpl; (eexists; split; [reflexivity|]; by repeat split) || by eexists.
Qed.

Lemma support_builds code impls s :
  support support_io_uring is_supported code impls s
  = if support_io_uring && is_supported code then (e ← impls; push_sq e) s
    else Done (IoErr (Unsupported "unsupported")) s.
Proof. unfold support. by destruct (_ && _). Qed.

Lemma run_uring_op_spec user_data o s :
  if support_io_uring && is_supported (call_code o) then
    if call_fits o then
      ∃ e r s', run_uring_op user_data o s = Done r s' ∧ entry_of user_data o e
        ∧ given s' ≡ₚ e :: given s ∧ same_flags s s'
        ∧ (length (backlog s') ≤ S (length (backlog s)))%nat
    else ∃ msg, run_uring_op user_data o s = Panic msg s
  else run_uring_op user_data o s = Done (IoErr (Unsupported "unsupported")) s.
Proof.
  destruct (call_builds user_data o) as (impls & -> & Hb). rewrite support_builds.
  destruct (_ && _); [|done]. specialize (Hb s). destruct (call_fits o).
  - destruct Hb as (e & He & Heo). erewrite bind_done by exact He.
    destruct (push_sq_spec e s) as (r & s' & ? & ? & ? & ?). by exists e, r, s'.
  - destruct Hb as [msg Hm]. exists msg. unfold mbind, M_bind. by rewrite Hm.
Qed.

(** A ring that refuses to submit has the entry all the same. *)
Lemma run_uring_op_fails user_data o err s :
  support_io_uring = true → is_supported (call_code o) = true → call_fits o = true →
  (∀ r, (ring_submit r).1 = IoErr err) → raw_os_error err ≠ Some 4 →
  ∃ e s', run_uring_op user_data o s = Done (IoErr err) s' ∧ entry_of user_data o e
    ∧ given s' ≡ₚ e :: given s.
Proof.
  intros Hs Ho Hfit Hfail Herr. destruct (call_builds user_data o) as (impls & -> & Hb).
  rewrite support_builds, Hs, Ho. cbn [andb]. specialize (Hb s). rewrite Hfit in Hb.
  destruct Hb as (e & He & Heo). erewrite bind_done by exact He.
  destruct (push_sq_spec e s) as (r & s' & Hr & Hg & _). exists e, s'. split; [|done].
  rewrite Hr. f_equal. revert Hr. unfold push_sq.
  intros (u & s1 & _ & (x & s2 & H2 & H3)%bind_done_inv)%bind_done_inv.
  assert (x = IoErr err) as ->.
  { revert H2. unfold ring_call. specialize (Hfail (ring s1)).
    destruct (ring_submit (ring s1)). simpl in Hfail. congruence. }
  rewrite bool_decide_eq_false_2 in H3 by done. by injection H3.
Qed.


(** *** Selecting *)

(** The ring has taken all it could: there is no backlog, or the ring refused
    its first entry or said it was busy. *)
Definition drained s : Prop :=
  backlog s = []
  ∨ (∃ e l, backlog s = e :: l ∧ ring_push e (ring s) = None)
  ∨ ∃ r0 err, ring_submit r0 = (IoErr err, ring s) ∧ busy_or_interrupted err = true.

(** One round per backlog entry; the order of the entries stays. *)
Lemma clean_backlog_spec fuel s :
  (length (backlog s) < fuel)%nat →
  ∃ r s', clean_backlog fuel s = Done r s' ∧ given s' = given s ∧ same_flags s s'
    ∧ (r = IoOk tt → drained s').
Proof.
  revert s. induction fuel as [|fuel IH]; intros s Hf; [lia|]. cbn [clean_backlog].
  erewrite bind_done by reflexivity. unfold id.
  set (m := if ring_is_full (ring s) then _ else _).
  assert (∃ x s1, m s = Done x s1 ∧ given s1 = given s ∧ backlog s1 = backlog s ∧ same_flags s s1
    ∧ (x = Some (IoOk tt) → drained s1)) as (x & s1 & Hm & Hg & Hb & Hsf & Hd).
  { unfold m. destruct (ring_is_full (ring s)); [|by exists None, s].
    destruct (submit_world s) as (s1 & H1 & Hg & Hb & Hsf).
    assert (ring s1 = (ring_submit (ring s)).2) as Hr1.
    { revert H1. unfold ring_call. destruct (ring_submit (ring s)). by intros [= <-]. }
    erewrite bind_done by exact H1.
    destruct (ring_submit (ring s)) as [[v|err] rg] eqn:E; simpl in *; [by eexists None, s1|].
    eexists _, s1. split_and!; try done. destruct (busy_or_interrupted err) eqn:Eb; [|done].
    intros _. right. right. exists (ring s), err. by rewrite Hr1. }
  erewrite bind_done by exact Hm. destruct x as [r|].
  { exists r, s1. split_and!; try done. intros ->. by apply Hd. }
  erewrite bind_done by reflexivity. set (s2 := set_ring (ring_sync (ring s1)) s1).
  assert (given s2 = given s) as Hg2.
  { unfold given in *. simpl. by rewrite ring_sync_log, Hg. }
  erewrite bind_done by reflexivity. cbv beta. change (backlog s2) with (backlog s1). rewrite Hb.
  destruct (backlog s) as [|sqe rest] eqn:El.
  { eexists _, s2. split_and!; try done. intros _. left. done. }
  destruct (ring_push sqe (ring s2)) as [rg|] eqn:Ep.
  - erewrite bind_done by reflexivity. set (s3 := set_backlog rest (set_ring rg s2)).
    destruct (IH s3) as (r & s4 & H4 & Hg4 & Hsf4 & Hd4); [simpl in *; lia|].
    exists r, s4. split_and!; try done.
    + rewrite Hg4, <-Hg2. unfold given. simpl. rewrite (ring_push_log _ _ _ Ep).
      rewrite <-app_assoc. simpl. by rewrite Hb.
    + unfold same_flags in *. simpl in *. intuition congruence.
  - eexists _, s2. split_and!; try done. intros _. right. left. exists sqe, rest.
    split; [|done]. simpl. by rewrite Hb.
Qed.

Definition timer (user_data : Z) e : Prop :=
  ∃ p, e = mkEntry (TimeoutAdd p) (Some user_data).

Lemma timeout_add_spec user_data timeout s :
  ∃ r s', timeout_add support_io_uring is_supported user_data timeout s = Done r s'
    ∧ entering s' = entering s ∧ op_tick s' = op_tick s
    ∧ (length (backlog s') ≤ S (length (backlog s)))%nat
    ∧ ∃ es, given s' ≡ₚ es ++ given s ∧ Forall (timer user_data) es ∧ (length es ≤ 1)%nat
        ∧ (es = [] → backlog s' = backlog s).
Proof.
  unfold timeout_add. destruct timeout as [t|].
  2: { eexists _, s. split; [reflexivity|]. split_and!; try done; [lia|]. exists [].
       split_and!; try done. simpl. lia. }
  unfold with_timespec. erewrite bind_done by reflexivity. erewrite bind_done by reflexivity.
  set (p := fresh (in_scope s)). set (s1 := set_scope _ s).
  destruct (support_spec OTimeout (mkEntry (TimeoutAdd p) (Some user_data)) s1)
    as (r & s2 & H2 & (He & _ & Ht) & Hb & Hg).
  erewrite bind_done by exact H2. erewrite bind_done by reflexivity.
  eexists r, _. split; [reflexivity|]. simpl. split_and!; try done.
  change (given s1) with (given s) in Hg. destruct (_ && _).
  - exists [mkEntry (TimeoutAdd p) (Some user_data)]. split_and!; try done.
    by repeat constructor; eexists.
  - destruct Hg as [-> _]. exists []. split_and!; try done. simpl. lia.
Qed.

(** What a poll did: the answer, and the entries it added. *)
Definition selected (timeout : option Z) s (r : io_result (Z * option Z)) s' : Prop :=
  (∃ es, given s' ≡ₚ es ++ given s ∧ Forall (timer IO_URING_TIMEOUT_USERDATA) es
     ∧ (length es ≤ 1)%nat)
  ∧ match r with
    | IoOk (count, left_time) => drained s'
        ∧ ∃ k, (op_tick s < k)%nat
          ∧ left_time = (λ t, sat_sub t (sat_sub (instant k) (instant (op_tick s)))) <$> timeout
    | IoErr _ => True
    end.

Lemma do_select_spec fuel timeout want s :
  (S (length (backlog s)) < fuel)%nat →
  ∃ r s', do_select support_io_uring is_supported instant fuel timeout want s = Done r s'
    ∧ entering s' = entering s ∧ selected timeout s r s'.
Proof.
  intros Hf. unfold do_select. erewrite bind_done by reflexivity. set (s0 := mkOp _ _ _ _ _).
  destruct (timeout_add_spec IO_URING_TIMEOUT_USERDATA timeout s0)
    as (r1 & s1 & H1 & He1 & Ht1 & Hb1 & es & Hg1 & Hes & Hlen & _).
  change (given s0) with (given s) in Hg1. unfold try_ at 1. erewrite bind_done by exact H1.
  destruct r1 as [[]|err]; [|eexists _, s1; split; [reflexivity|]; split; [done|]; split; [by exists es|done]].
  assert (∃ r2 s2, ring_call (ring_submit_and_wait want) s1 = Done r2 s2
    ∧ given s2 = given s1 ∧ backlog s2 = backlog s1 ∧ same_flags s1 s2)
    as (r2 & s2 & H2 & Hg2 & Hb2 & He2 & _ & Ht2).
  { pose proof (ring_submit_and_wait_log want (ring s1)) as Hl. unfold ring_call.
    destruct (ring_submit_and_wait want (ring s1)) as [r rg]. eexists _, _.
    split; [reflexivity|]. unfold given. simpl in *. by rewrite Hl. }
  erewrite bind_done by exact H2. unfold try_ at 1. erewrite bind_done by reflexivity.
  assert (∀ s', given s' = given s1 → ∃ es, given s' ≡ₚ es ++ given s
    ∧ Forall (timer IO_URING_TIMEOUT_USERDATA) es ∧ (length es ≤ 1)%nat) as Hes'.
  { intros s' ->. by exists es. }
  set (x := match r2 with IoOk count => IoOk count | IoErr err => _ end).
  destruct x as [count|err].
  2: { eexists _, s2. split; [reflexivity|]. split; [simpl in *; congruence|].
       split; [by apply Hes'|done]. }
  destruct (clean_backlog_spec fuel s2) as (r3 & s3 & H3 & Hg3 & (He3 & _ & Ht3) & Hd3).
  { rewrite Hb2. change (backlog s0) with (backlog s) in Hb1. lia. }
  unfold try_. erewrite bind_done by exact H3. destruct r3 as [[]|err].
  2: { eexists _, s3. split; [reflexivity|]. split; [simpl in *; congruence|].
       split; [apply Hes'; congruence|done]. }
  erewrite bind_done by reflexivity. eexists _, _. split; [reflexivity|]. simpl.
  split; [simpl in *; congruence|]. split; [apply Hes'; change (given s3 = given s1); congruence|].
  split; [by apply Hd3|]. exists (op_tick s3). split; [|done].
  rewrite Ht3, Ht2, Ht1. simpl. lia.
Qed.

Lemma select_free fuel timeout want s :
  support_io_uring = true → entering s = false → (S (length (backlog s)) < fuel)%nat →
  ∃ r s', select support_io_uring is_supported instant fuel timeout want s = Done r s'
    ∧ entering s' = false ∧ selected timeout s r s'.
Proof.
  intros Hs He Hf. unfold select. rewrite Hs. erewrite bind_done by reflexivity. unfold id.
  rewrite He. erewrite bind_done by reflexivity.
  destruct (do_select_spec fuel timeout want (set_entering true s) Hf) as (r & s1 & H1 & _ & Hsel).
  rewrite Hs in H1. erewrite bind_done by exact H1. erewrite bind_done by reflexivity.
  exists r, (set_entering false s1). split; [done|]. split; [done|]. exact Hsel.
Qed.

(** Free or not, [select] returns. *)
Lemma select_returns fuel timeout want s :
  (S (length (backlog s)) < fuel)%nat →
  ∃ r s', select support_io_uring is_supported instant fuel timeout want s = Done r s'.
Proof.
  intros Hf. destruct support_io_uring eqn:Hs; [|by eexists _, s].
  destruct (entering s) eqn:He.
  - unfold select. erewrite bind_done by reflexivity. unfold id. rewrite He. by eexists _, s.
  - rewrite <-Hs. destruct (select_free fuel timeout want s Hs He Hf) as (r & s' & ? & _).
    by exists r, s'.
Qed.

(** A selection ends and loses nothing: with one round for each entry of the
    backlog and one for its timer, [select] returns; the operator is free for
    the next selection whether it succeeded or failed; everything submitted is
    still with the ring or in the backlog, with at most one timer more; and on
    success the backlog is empty unless the ring has no room or is busy, and
    the time left is the time limit less what the clock says has passed. *)
Theorem select_ends fuel timeout want s :
  support_io_uring = true → entering s = false → (S (length (backlog s)) < fuel)%nat →
  ∃ r s', select support_io_uring is_supported instant fuel timeout want s = Done r s'
    ∧ entering s' = false ∧ selected timeout s r s'.
Proof. apply select_free. Qed.

(** A timer outlives its time: [timeout_add] puts the address of a local
    variable into its entry. When the ring has no room the entry waits in the
    backlog, and by then the variable is out of scope: whoever submits the
    backlog later hands the kernel an address that is no longer the timer's. *)
Theorem timer_dangles user_data t s :
  support_io_uring = true → is_supported OTimeout = true →
  (∀ e, ring_push e (ring s) = None) →
  ∃ r s' p, timeout_add support_io_uring is_supported user_data (Some t) s = Done r s'
    ∧ backlog s' = backlog s ++ [mkEntry (TimeoutAdd p) (Some user_data)]
    ∧ p ∉ in_scope s'.
Proof.
  intros Hs Ho Hfull. unfold timeout_add, with_timespec. erewrite bind_done by reflexivity.
  erewrite bind_done by reflexivity. set (p := fresh (in_scope s)).
  unfold support. rewrite Hs, Ho. cbn [andb]. rewrite bind_assoc. erewrite bind_done by reflexivity.
  set (e := mkEntry (TimeoutAdd p) (Some user_data)). set (s1 := set_scope _ s).
  assert (∃ r s2, push_sq e s1 = Done r s2 ∧ backlog s2 = backlog s ++ [e]) as (r & s2 & H2 & Hb2).
  { unfold push_sq. change (ring s1) with (ring s).
    erewrite bind_done by (cbv beta; change (ring s1) with (ring s); rewrite Hfull; reflexivity).
    destruct (submit_world (set_backlog (backlog s1 ++ [e]) s1)) as (s2 & H2 & _ & Hb & _).
    erewrite bind_done by exact H2. destruct (ring_submit _).1; by eexists _, s2. }
  erewrite bind_done by exact H2. erewrite bind_done by reflexivity.
  eexists r, _, p. split; [reflexivity|]. simpl. split; [done|]. set_solver.
Qed.
End properties.

(** ** A ring in memory *)

Module OperatorExamples.

(** The entries given, those in the queue and the room of the queue; [submit]
    hands the queue to the kernel, or fails as the field [fails] says. *)
Record MemRing : Type := mkRing {
  log : list Entry;
  queued : nat;
  room : nat;
  fails : option io_error;
}.

Definition mem_submit (r : MemRing) : io_result Z * MemRing :=
  match fails r with
  | Some e => (IoErr e, r)
  | None => (IoOk (Z.of_nat (queued r)), mkRing (log r) 0 (room r) None)
  end.

#[export] Instance mem_ring : Ring MemRing := {
  ring_push e r := if (queued r <? room r)%nat
                   then Some (mkRing (log r ++ [e]) (S (queued r)) (room r) (fails r)) else None;
  ring_is_full r := negb (queued r <? room r)%nat;
  ring_submit := mem_submit;
  ring_submit_and_wait _ := mem_submit;
  ring_sync r := r;
  ring_completions r := ([], r);
  ring_log := log;
}.

#[export] Instance mem_ring_laws : RingLaws MemRing.
Proof.
  split; simpl; try done.
  - intros e r r'. by destruct (queued r <? room r)%nat; intros [= <-].
  - intros r. unfold mem_submit. by destruct (fails r).
  - intros _ r. unfold mem_submit. by destruct (fails r).
Qed.

Definition all (_ : Opcode) : bool := true.
Definition instants (k : nat) : Z := 10 * Z.of_nat k.
(** A ring without room and one entry waiting for it. *)
Definition full : Op MemRing :=
  mkOp (mkRing [] 0 0 (Some (OsError 16))) false [mkEntry (Close 3) (Some 7)] 0 ∅.
(** The same with room. *)
Definition roomy : Op MemRing :=
  mkOp (mkRing [] 0 8 None) false [mkEntry (Close 3) (Some 7)] 0 ∅.


(** The backlog is drained and ten nanoseconds have passed. *)
Lemma select_ends_witness :
  ∃ r s', select true all instants 3 (Some 25) 0 roomy = Done r s'
    ∧ entering s' = false ∧ selected instants (Some 25) roomy r s'.
Proof. apply (select_ends true all instants 3 (Some 25) 0 roomy); [done|done|simpl; lia]. Defined.

Example select_drains :
  match select true all instants 3 (Some 25) 0 roomy with
  | Done (IoOk (_, left_time)) s => left_time = Some 15 ∧ backlog s = []
      ∧ length (log (ring s)) = 2%nat
  | _ => False
  end.
Proof. vm_compute. done. Qed.

Lemma timer_dangles_witness :
  ∃ r s' p, timeout_add true all 9 (Some 25) full = Done r s'
    ∧ backlog s' = [mkEntry (Close 3) (Some 7); mkEntry (TimeoutAdd p) (Some 9)]
    ∧ p ∉ in_scope s'.
Proof. apply (timer_dangles true all 9 25 full); done. Defined.
End OperatorExamples.
