(* ===== verification/UringCalls.v ===== *)
(** * UringCalls: the system calls in a build with the feature io_uring

    Models what [impl_syscall!] and [impl_syscall2!] compose when the feature
    [io_uring] is on: the facade, the layer of the ring, the nio layer if the
    call has one, and the raw call. Parameters: those of [Calls], the
    submission to the ring of an event loop ([submit], the functions of
    [EventLoops] that [impl_io_uring!] defines), the wait for its result
    and the switch to the scheduler. *)

From stdpp Require Import sorting base numbers strings gmap list.
From S2P Require Import Prelude Common Coroutine Syscall Calls Msg Operator.

(** Which of [impl_io_uring!], [impl_io_uring_read!] and [impl_io_uring_write!]
    a call is defined with: how long it may stay in the ring. *)
Inductive ring_limit : Type := NoLimit | RecvLimit (fd : Z) | SendLimit (fd : Z).

Section chains.
Context {I X : Type} `{!HasSys X}.
Abbreviation W := (World unit (option Z) I X).

Variable clock : nat → Z.
Variable listener_call : nat → handle → event unit (option Z) → M W unit.
Variable libc : Libc W.
Variable switch : M W unit.
Variable submit : uring_op → M W (io_result nat).
Variable wait_result : nat → M W Z.
Variable wait_read_event wait_write_event : Z → Z → M W (io_result unit).
Variable del_event del_read_event del_write_event : Z → M W (io_result unit).
Variable fuel : nat.

(** The ranges of [c_int] and of [ssize_t], the results of the calls. *)
Definition fits_int (r : Z) : bool := (- 2 ^ 31 <=? r) && (r <=? i32_max).
Definition fits_ssize (r : Z) : bool := (- 2 ^ 63 <=? r) && (r <=? i64_max).

(** The layer of the ring. *)
Definition ring_layer (l : ring_limit) (fits : Z → bool) (o : uring_op) (inner : M W Z) : M W Z :=
  match l with
  | NoLimit => io_uring listener_call switch fits (submit o) wait_result inner
  | RecvLimit fd =>
      io_uring_read clock listener_call libc switch fits (submit o) wait_result fd inner
  | SendLimit fd =>
      io_uring_write clock listener_call libc switch fits (submit o) wait_result fd inner
  end.

(** The whole chain; [inner] is what follows the ring. *)
Definition ring_chain (name : SyscallName) (l : ring_limit) (fits : Z → bool) (o : uring_op)
  (inner : M W Z) : M W Z :=
  facade clock listener_call name (ring_layer l fits o inner).

(** What follows the ring, per nio layer. *)
Definition then_read {A : Type} (fn_ptr : option (Z → A → M W Z)) (call : Z → A → M W Z)
  (fd : Z) (args : A) : M W Z :=
  nio_read clock libc wait_read_event fuel (raw ((λ f, f fd args) <$> fn_ptr) (call fd args)) fd.
Definition then_read_buf {A : Type} (fn_ptr : option (Z → Z → Z → A → M W Z))
  (call : Z → Z → Z → A → M W Z) (fd buf len : Z) (args : A) : M W Z :=
  nio_read_buf clock libc wait_read_event fuel
    (λ b n, raw ((λ f, f fd b n args) <$> fn_ptr) (call fd b n args)) fd buf len.
Definition then_write_buf {A : Type} (fn_ptr : option (Z → Z → Z → A → M W Z))
  (call : Z → Z → Z → A → M W Z) (fd buf len : Z) (args : A) : M W Z :=
  nio_write_buf clock libc wait_write_event fuel
    (λ b n, raw ((λ f, f fd b n args) <$> fn_ptr) (call fd b n args)) fd buf len.
Definition then_read_iovec {A : Type} (fn_ptr : option (Z → list iovec → A → M W Z))
  (call : Z → list iovec → A → M W Z) (fd : Z) (iov : list iovec) (args : A) : M W Z :=
  nio_read_iovec clock libc wait_read_event fuel
    (λ v, raw ((λ f, f fd v args) <$> fn_ptr) (call fd v args)) fd iov.
Definition then_write_iovec {A : Type} (fn_ptr : option (Z → list iovec → A → M W Z))
  (call : Z → list iovec → A → M W Z) (fd : Z) (iov : list iovec) (args : A) : M W Z :=
  nio_write_iovec clock libc wait_write_event fuel
    (λ v, raw ((λ f, f fd v args) <$> fn_ptr) (call fd v args)) fd iov.
Definition then_raw {A : Type} (fn_ptr : option (A → M W Z)) (call : A → M W Z) (args : A)
  : M W Z := raw ((λ f, f args) <$> fn_ptr) (call args).

(** ** The calls

    The further arguments come in the tuples [Calls] has for them. The ring is
    given the address of a vector ([iov_at]) or message ([msg_at]), the nio layer
    what lies there. *)
Definition uring_accept (fn_ptr : option (Z → Z * Z → M W Z)) (call : Z → Z * Z → M W Z)
  (fd address address_len : Z) : M W Z :=
  ring_chain Common.accept (RecvLimit fd) fits_int (UAccept fd address address_len)
    (then_read fn_ptr call fd (address, address_len)).
Definition uring_accept4 (fn_ptr : option (Z → Z * Z * Z → M W Z)) (call : Z → Z * Z * Z → M W Z)
  (fd address address_len flg : Z) : M W Z :=
  ring_chain Common.accept4 NoLimit fits_int (UAccept4 fd address address_len flg)
    (then_read fn_ptr call fd (address, address_len, flg)).
Definition uring_read (fn_ptr : option (Z → Z → Z → unit → M W Z))
  (call : Z → Z → Z → unit → M W Z) (fd buf len : Z) : M W Z :=
  ring_chain Common.read (RecvLimit fd) fits_ssize (URead fd buf len)
    (then_read_buf fn_ptr call fd buf len tt).
Definition uring_recv (fn_ptr : option (Z → Z → Z → Z → M W Z)) (call : Z → Z → Z → Z → M W Z)
  (fd buf len flags : Z) : M W Z :=
  ring_chain Common.recv (RecvLimit fd) fits_ssize (URecv fd buf len flags)
    (then_read_buf fn_ptr call fd buf len flags).
Definition uring_pread (fn_ptr : option (Z → Z → Z → Z → M W Z)) (call : Z → Z → Z → Z → M W Z)
  (fd buf count offset : Z) : M W Z :=
  ring_chain Common.pread (RecvLimit fd) fits_ssize (UPread fd buf count offset)
    (then_read_buf fn_ptr call fd buf count offset).
Definition uring_readv (fn_ptr : option (Z → list iovec → unit → M W Z))
  (call : Z → list iovec → unit → M W Z) (fd iov_at : Z) (iov : list iovec) : M W Z :=
  ring_chain Common.readv (RecvLimit fd) fits_ssize (UReadv fd iov_at (Z.of_nat (length iov)))
    (then_read_iovec fn_ptr call fd iov tt).
Definition uring_preadv (fn_ptr : option (Z → list iovec → Z → M W Z))
  (call : Z → list iovec → Z → M W Z) (fd iov_at : Z) (iov : list iovec) (offset : Z) : M W Z :=
  ring_chain Common.preadv (RecvLimit fd) fits_ssize (UPreadv fd iov_at (Z.of_nat (length iov)) offset)
    (then_read_iovec fn_ptr call fd iov offset).
Definition uring_recvmsg (fn_ptr : option (msghdr → M W Z)) (call : msghdr → M W Z)
  (fd msg_at flags : Z) (msg : msghdr) : M W Z :=
  ring_chain Common.recvmsg (RecvLimit fd) fits_ssize (URecvMsg fd msg_at flags)
    (nio_recvmsg clock libc wait_read_event fuel
       (λ m, raw (option_map (λ f, f m) fn_ptr) (call m)) fd msg).
Definition uring_send (fn_ptr : option (Z → Z → Z → Z → M W Z)) (call : Z → Z → Z → Z → M W Z)
  (fd buf len flags : Z) : M W Z :=
  ring_chain Common.send (SendLimit fd) fits_ssize (USend fd buf len flags)
    (then_write_buf fn_ptr call fd buf len flags).
Definition uring_sendto (fn_ptr : option (Z → Z → Z → Z * Z * Z → M W Z))
  (call : Z → Z → Z → Z * Z * Z → M W Z) (fd buf len flags addr addrlen : Z) : M W Z :=
  ring_chain Common.sendto (SendLimit fd) fits_ssize (USendTo fd buf len flags addr addrlen)
    (then_write_buf fn_ptr call fd buf len (flags, addr, addrlen)).
Definition uring_pwrite (fn_ptr : option (Z → Z → Z → Z → M W Z)) (call : Z → Z → Z → Z → M W Z)
  (fd buf count offset : Z) : M W Z :=
  ring_chain Common.pwrite (SendLimit fd) fits_ssize (UPwrite fd buf count offset)
    (then_write_buf fn_ptr call fd buf count offset).
Definition uring_writev (fn_ptr : option (Z → list iovec → unit → M W Z))
  (call : Z → list iovec → unit → M W Z) (fd iov_at : Z) (iov : list iovec) : M W Z :=
  ring_chain Common.writev (SendLimit fd) fits_ssize (UWritev fd iov_at (Z.of_nat (length iov)))
    (then_write_iovec fn_ptr call fd iov tt).
Definition uring_pwritev (fn_ptr : option (Z → list iovec → Z → M W Z))
  (call : Z → list iovec → Z → M W Z) (fd iov_at : Z) (iov : list iovec) (offset : Z) : M W Z :=
  ring_chain Common.pwritev (SendLimit fd) fits_ssize (UPwritev fd iov_at (Z.of_nat (length iov)) offset)
    (then_write_iovec fn_ptr call fd iov offset).
Definition uring_sendmsg (fn_ptr : option (msghdr → M W Z)) (call : msghdr → M W Z)
  (fd msg_at flags : Z) (msg : msghdr) : M W Z :=
  ring_chain Common.sendmsg (SendLimit fd) fits_ssize (USendMsg fd msg_at flags)
    (nio_sendmsg clock libc wait_write_event fuel
       (λ m, raw (option_map (λ f, f m) fn_ptr) (call m)) fd msg).
Definition uring_connect (fn_ptr : option (M W Z)) (call getpeername : M W Z)
  (getsockopt_error : M W (Z * Z)) (fd address len : Z) : M W Z :=
  ring_chain Common.connect (SendLimit fd) fits_int (UConnect fd address len)
    (nio_connect clock libc wait_write_event fuel (raw fn_ptr call) getpeername
       getsockopt_error fd).
Definition uring_close (fn_ptr : option (Z → M W Z)) (call : Z → M W Z) (fd : Z) : M W Z :=
  ring_chain Common.close NoLimit fits_int (UClose fd) (nio_close del_event (then_raw fn_ptr call fd) fd).
Definition uring_shutdown (fn_ptr : option (Z → Z → M W Z)) (call : Z → Z → M W Z) (fd how : Z)
  : M W Z :=
  ring_chain Common.shutdown NoLimit fits_int (UShutdown fd how)
    (nio_shutdown del_event del_read_event del_write_event
       (raw ((λ f, f fd how) <$> fn_ptr) (call fd how)) fd how).

(** [impl_syscall2!]: no nio layer. *)
Definition uring_socket (fn_ptr : option (Z * Z * Z → M W Z)) (call : Z * Z * Z → M W Z)
  (domain ty protocol : Z) : M W Z :=
  ring_chain Common.socket NoLimit fits_int (USocket domain ty protocol)
    (then_raw fn_ptr call (domain, ty, protocol)).
Definition uring_fsync (fn_ptr : option (Z → M W Z)) (call : Z → M W Z) (fd : Z) : M W Z :=
  ring_chain Common.fsync NoLimit fits_int (UFsync fd) (then_raw fn_ptr call fd).
Definition uring_mkdirat (fn_ptr : option (Z * Z * Z → M W Z)) (call : Z * Z * Z → M W Z)
  (dirfd pathname mode : Z) : M W Z :=
  ring_chain Common.mkdirat NoLimit fits_int (UMkDirAt dirfd pathname mode)
    (then_raw fn_ptr call (dirfd, pathname, mode)).
Definition uring_renameat (fn_ptr : option (Z * Z * Z * Z → M W Z))
  (call : Z * Z * Z * Z → M W Z) (olddirfd oldpath newdirfd newpath : Z) : M W Z :=
  ring_chain Common.renameat NoLimit fits_int (URenameAt olddirfd oldpath newdirfd newpath)
    (then_raw fn_ptr call (olddirfd, oldpath, newdirfd, newpath)).
Definition uring_renameat2 (fn_ptr : option (Z * Z * Z * Z * Z → M W Z))
  (call : Z * Z * Z * Z * Z → M W Z) (olddirfd oldpath newdirfd newpath flags : Z) : M W Z :=
  ring_chain Common.renameat2 NoLimit fits_int (URenameAt2 olddirfd oldpath newdirfd newpath flags)
    (then_raw fn_ptr call (olddirfd, oldpath, newdirfd, newpath, flags)).

(** [write] has a facade of its own. *)
Definition uring_write (fn_ptr : option (Z → Z → Z → M W Z)) (call : Z → Z → Z → M W Z)
  (fd buf len : Z) : M W Z :=
  let direct b n := raw ((λ f, f fd b n) <$> fn_ptr) (call fd b n) in
  write_facade clock listener_call
    (ring_layer (SendLimit fd) fits_ssize (UWrite fd buf len)
       (nio_write_buf clock libc wait_write_event fuel direct fd buf len)) (direct buf len) fd.
End chains.

(** ** What the ring changes *)

Section properties.
Context {I X : Type} `{!HasSys X}.
Abbreviation W := (World unit (option Z) I X).
Implicit Types (w : W) (h : handle) (inner : M W Z).
Context (clock : nat → Z) (listener_call : nat → handle → event unit (option Z) → M W unit)
  (libc : Libc W) (switch : M W unit) (submit : uring_op → M W (io_result nat))
  (wait_result : nat → M W Z).

Abbreviation ring_layer := (ring_layer clock listener_call libc switch submit wait_result).
Abbreviation ring_chain := (ring_chain clock listener_call libc switch submit wait_result).

Lemma bind_ext_l {A B} (m1 m2 : M W A) (k : A → M W B) w :
  (∀ w1, m1 w1 = m2 w1) → (a ← m1; k a) w = (a ← m2; k a) w.
Proof. intros Hm. unfold mbind, M_bind. by rewrite Hm. Qed.

Lemma facade_ext nm inner1 inner2 w :
  (∀ w1, inner1 w1 = inner2 w1) →
  facade clock listener_call nm inner1 w = facade clock listener_call nm inner2 w.
Proof.
  intros Hi. unfold facade. do 2 (apply bind_ext; intros ? ? _). by apply bind_ext_l.
Qed.

(** *** A ring that refuses *)

Definition refuses : Prop := ∀ o w, ∃ e, submit o w = Done (IoErr e) w.

Lemma ring_layer_refused l fits o inner w : refuses → ring_layer l fits o inner w = inner w.
Proof.
  intros Hno. destruct (Hno o w) as [e He].
  destruct l; unfold ring_layer, io_uring, io_uring_read, io_uring_write;
    by erewrite bind_done by exact He.
Qed.

Lemma ring_chain_refused nm l fits o inner w :
  refuses → ring_chain nm l fits o inner w = facade clock listener_call nm inner w.
Proof. intros Hno. apply facade_ext. intros w1. by apply ring_layer_refused. Qed.

Section fallback.
Context (wait_read_event wait_write_event : Z → Z → M W (io_result unit))
  (del_event del_read_event del_write_event : Z → M W (io_result unit)) (fuel : nat).

(** With a ring that refuses every submission (the kernel lacks it, or the
    operation), the calls that move data are those of a build without it. *)
Theorem refused_transfers w : refuses →
  (∀ fn call fd a n,
     uring_accept clock listener_call libc switch submit wait_result wait_read_event fuel
       fn call fd a n w
     = sys_accept clock listener_call libc wait_read_event fuel fn call fd (a, n) w)
  ∧ (∀ fn call fd a n flg,
     uring_accept4 clock listener_call libc switch submit wait_result wait_read_event fuel
       fn call fd a n flg w
     = sys_accept4 clock listener_call libc wait_read_event fuel fn call fd (a, n, flg) w)
  ∧ (∀ fn call fd buf len,
     uring_read clock listener_call libc switch submit wait_result wait_read_event fuel
       fn call fd buf len w
     = sys_read clock listener_call libc wait_read_event fuel fn call fd buf len tt w)
  ∧ (∀ fn call fd buf len flags,
     uring_recv clock listener_call libc switch submit wait_result wait_read_event fuel
       fn call fd buf len flags w
     = sys_recv clock listener_call libc wait_read_event fuel fn call fd buf len flags w)
  ∧ (∀ fn call fd buf len offset,
     uring_pread clock listener_call libc switch submit wait_result wait_read_event fuel
       fn call fd buf len offset w
     = sys_pread clock listener_call libc wait_read_event fuel fn call fd buf len offset w)
  ∧ (∀ fn call fd at_ iov,
     uring_readv clock listener_call libc switch submit wait_result wait_read_event fuel
       fn call fd at_ iov w
     = sys_readv clock listener_call libc wait_read_event fuel fn call fd iov tt w)
  ∧ (∀ fn call fd at_ iov offset,
     uring_preadv clock listener_call libc switch submit wait_result wait_read_event fuel
       fn call fd at_ iov offset w
     = sys_preadv clock listener_call libc wait_read_event fuel fn call fd iov offset w)
  ∧ (∀ fn call fd at_ flags msg,
     uring_recvmsg clock listener_call libc switch submit wait_result wait_read_event fuel
       fn call fd at_ flags msg w
     = sys_recvmsg clock libc wait_read_event listener_call fuel fn call fd msg w)
  ∧ (∀ fn call fd buf len flags,
     uring_send clock listener_call libc switch submit wait_result wait_write_event fuel
       fn call fd buf len flags w
     = sys_send clock listener_call libc wait_write_event fuel fn call fd buf len flags w)
  ∧ (∀ fn call fd buf len flags addr addrlen,
     uring_sendto clock listener_call libc switch submit wait_result wait_write_event fuel
       fn call fd buf len flags addr addrlen w
     = sys_sendto clock listener_call libc wait_write_event fuel fn call fd buf len
         (flags, addr, addrlen) w)
  ∧ (∀ fn call fd buf len offset,
     uring_pwrite clock listener_call libc switch submit wait_result wait_write_event fuel
       fn call fd buf len offset w
     = sys_pwrite clock listener_call libc wait_write_event fuel fn call fd buf len offset w)
  ∧ (∀ fn call fd at_ iov,
     uring_writev clock listener_call libc switch submit wait_result wait_write_event fuel
       fn call fd at_ iov w
     = sys_writev clock listener_call libc wait_write_event fuel fn call fd iov tt w)
  ∧ (∀ fn call fd at_ iov offset,
     uring_pwritev clock listener_call libc switch submit wait_result wait_write_event fuel
       fn call fd at_ iov offset w
     = sys_pwritev clock listener_call libc wait_write_event fuel fn call fd iov offset w)
  ∧ (∀ fn call fd at_ flags msg,
     uring_sendmsg clock listener_call libc switch submit wait_result wait_write_event fuel
       fn call fd at_ flags msg w
     = sys_sendmsg clock libc wait_write_event listener_call fuel fn call fd msg w)
  ∧ (∀ fn call fd buf len,
     uring_write clock listener_call libc switch submit wait_result wait_write_event fuel
       fn call fd buf len w
     = sys_write clock listener_call libc wait_write_event fuel fn call fd buf len w).
Proof.
  intros Hno. repeat split; intros; try (by apply ring_chain_refused).
  unfold uring_write, sys_write, write_facade. case_match; [done|].
  apply facade_ext. intros w1. by apply ring_layer_refused.
Qed.
End fallback.

(** *** A ring that accepts *)

Lemma ring_chain_accepted nm l fits o inner1 inner2 w :
  (∀ w1, ∃ arc w2, submit o w1 = Done (IoOk arc) w2) →
  ring_chain nm l fits o inner1 w = ring_chain nm l fits o inner2 w.
Proof.
  intros Hok. apply facade_ext. intros w1. destruct (Hok w1) as (arc & w2 & H2).
  destruct l; unfold ring_layer, io_uring, io_uring_read, io_uring_write;
    by rewrite !(bind_done _ _ _ _ _ H2).
Qed.

(** A descriptor closed by the ring stays registered: while the ring accepts
    [close], nothing that [del_event] does has an effect on the call, so the
    selectors keep the records of the descriptor. *)
Theorem ring_close_keeps_records del_event1 del_event2 fn_ptr call fd w :
  (∀ w1, ∃ arc w2, submit (UClose fd) w1 = Done (IoOk arc) w2) →
  uring_close clock listener_call libc switch submit wait_result del_event1 fn_ptr call fd w
  = uring_close clock listener_call libc switch submit wait_result del_event2 fn_ptr call fd w.
Proof. apply ring_chain_accepted. Qed.

(** The result of the ring in the convention of the C library. *)
Lemma uring_result_spec fits (wait : M W Z) r w w1 :
  wait w = Done r w1 → fits r = true → - i32_max ≤ r →
  uring_result fits wait w
  = Done (Z.max (-1) r) (if r <? 0 then set_ext (set_sys (set_errno_ (- r))) w1 else w1).
Proof.
  intros Hw Hf Hr. unfold uring_result. erewrite bind_done by exact Hw. rewrite Hf.
  erewrite bind_done by reflexivity. destruct (Z.ltb_spec r 0) as [H|H].
  - rewrite (proj2 (Z.leb_le _ _)) by lia. erewrite bind_done by reflexivity.
    erewrite bind_done by reflexivity. by rewrite Z.max_l by lia.
  - by rewrite Z.max_r by lia.
Qed.

Section completion.
Context (wrel : W → W → Prop) `{!Allowed wrel} (lok : listeners_ok listener_call wrel).
Context (nm : SyscallName) (h : handle) (o : uring_op) (r : Z).

(** A computation of the thread that leaves the current coroutine alone. *)
Definition keeps_current {A} (m : M W A) (P : A → Prop) : Prop :=
  ∀ s w, current_in h s w → ∃ a w', m w = Done a w' ∧ P a
    ∧ current_in h s w' ∧ SUSPENDER (tls w') = SUSPENDER (tls w).

(** Meanwhile the completion comes: the loop resumes the coroutine. *)
Definition comes_back : Prop :=
  ∀ t w, current_in h (Syscall tt nm (SSuspend t)) w →
    ∃ w', switch w = Done tt w' ∧ current_in h (Syscall tt nm Callback) w'.

Definition limit_read (l : ring_limit) : Prop :=
  match l with
  | NoLimit => True
  | RecvLimit fd => keeps_current (recv_time_limit libc fd) (λ _, True)
  | SendLimit fd => keeps_current (send_time_limit libc fd) (λ _, True)
  end.

Lemma back_to_executing {A} (k : handle → SyscallName → SyscallState → M W (option A)) w :
  current_in h (Syscall tt nm Callback) w →
  (∀ w1, k h nm Callback w1
     = (_ ← syscall listener_call h tt nm Executing; mret None) w1) →
  ∃ w', in_syscall k w = Done None w' ∧ current_in h (Syscall tt nm Executing) w'.
Proof.
  intros Hc Hk. destruct (current_in_co h _ w Hc) as (c & Hco & Hs).
  unfold in_syscall. erewrite bind_done by reflexivity. rewrite (proj1 Hc).
  erewrite bind_done by (unfold state, with_co; rewrite Hco; reflexivity). rewrite Hs.
  rewrite Hk. destruct (syscall_spec clock listener_call wrel lok h nm Callback Executing w Hc)
    as (w2 & Hr & Hc2).
  erewrite bind_done by exact Hr. by exists w2.
Qed.

(** Into the ring, out to the scheduler, and back: [t] is the deadline. *)
Lemma suspended_comes_back (t : M W Z) w :
  (∀ w1, current_in h (Syscall tt nm Executing) w1 →
     ∃ v w2, t w1 = Done v w2 ∧ current_in h (Syscall tt nm Executing) w2
       ∧ SUSPENDER (tls w2) = SUSPENDER (tls w1)) →
  comes_back → current_in h (Syscall tt nm Executing) w → is_Some (head (SUSPENDER (tls w))) →
  ∃ w1 w2, to_suspend listener_call t w = Done None w1
    ∧ suspend_current switch w1 = Done tt w2 ∧ current_in h (Syscall tt nm Callback) w2.
Proof.
  intros Ht Hback Hc Hsu.
  destruct (to_suspend_spec clock listener_call wrel lok h nm t w Hc Ht) as (v & w1 & H1 & Hc1 & Ht1).
  destruct (suspend_into switch h nm Callback v w1 Hc1) as (w2 & H2 & Hc2); [by rewrite Ht1|done|].
  by exists w1, w2.
Qed.

Lemma keeps_current_deadline (time_limit : M W Z) :
  keeps_current time_limit (λ _, True) →
  ∀ w1, current_in h (Syscall tt nm Executing) w1 →
     ∃ v w2, (n ← now_ clock; limit ← time_limit; mret (sat_add u64_max n limit)) w1 = Done v w2
       ∧ current_in h (Syscall tt nm Executing) w2
       ∧ SUSPENDER (tls w2) = SUSPENDER (tls w1).
Proof.
  intros Hl. apply deadline_spec. intros s w Hc.
  destruct (Hl s w Hc) as (a & w' & H & _ & Hc' & Ht). by exists a, w'.
Qed.

Context (fits : Z → bool) (l : ring_limit) (inner : M W Z)
  (accepts : keeps_current (submit o) (λ x, ∃ arc, x = IoOk arc))
  (limits : limit_read l) (back : comes_back)
  (answers : ∀ arc, keeps_current (wait_result arc) (λ a, a = r))
  (in_range : fits r = true) (errno_range : - i32_max ≤ r).

Lemma result_in_call arc w :
  current_in h (Syscall tt nm Executing) w →
  ∃ w', uring_result fits (wait_result arc) w = Done (Z.max (-1) r) w'
    ∧ current_in h (Syscall tt nm Executing) w'.
Proof.
  intros Hc. destruct (answers arc _ w Hc) as (a & w1 & H1 & -> & Hc1 & _).
  eexists. split; [by eapply uring_result_spec|]. by destruct (r <? 0).
Qed.

(** What all layers of the ring do once the call is submitted. *)
Lemma in_ring {A} (t : M W Z) (k : handle → SyscallName → SyscallState → M W (option A))
  (cont : option A → M W Z) arc w :
  (∀ w1, current_in h (Syscall tt nm Executing) w1 →
     ∃ v w2, t w1 = Done v w2 ∧ current_in h (Syscall tt nm Executing) w2
       ∧ SUSPENDER (tls w2) = SUSPENDER (tls w1)) →
  (∀ w1, k h nm Callback w1 = (_ ← syscall listener_call h tt nm Executing; mret None) w1) →
  cont None = uring_result fits (wait_result arc) →
  current_in h (Syscall tt nm Executing) w → is_Some (head (SUSPENDER (tls w))) →
  ∃ w', (_ ← to_suspend listener_call t; _ ← suspend_current switch; x ← in_syscall k; cont x) w
      = Done (Z.max (-1) r) w'
    ∧ current_in h (Syscall tt nm Executing) w'.
Proof.
  intros Ht Hk Hcont Hc Hs.
  destruct (suspended_comes_back t w Ht back Hc Hs) as (w2 & w3 & H2 & H3 & Hc3).
  destruct (back_to_executing k w3 Hc3 Hk) as (w4 & H4 & Hc4).
  erewrite bind_done by exact H2. erewrite bind_done by exact H3. erewrite bind_done by exact H4.
  rewrite Hcont. by apply result_in_call.
Qed.

Lemma ring_layer_completes w :
  current_in h (Syscall tt nm Executing) w → is_Some (head (SUSPENDER (tls w))) →
  ∃ w', ring_layer l fits o inner w = Done (Z.max (-1) r) w'
    ∧ current_in h (Syscall tt nm Executing) w'.
Proof.
  intros Hc Hsu. destruct (accepts _ w Hc) as (x & w1 & H1 & [arc ->] & Hc1 & Ht1).
  rewrite <-Ht1 in Hsu.
  destruct l as [|fd|fd]; unfold UringCalls.ring_layer, io_uring, io_uring_read, io_uring_write;
    erewrite bind_done by exact H1; cbv beta iota.
  - apply (in_ring (mret u64_max) _ (λ _, uring_result fits (wait_result arc)) arc); try done.
    intros w2 Hc2. by exists u64_max, w2.
  - eapply (in_ring _ _ (λ x, match x with Some _ => _ | None => _ end)); try done.
    by apply keeps_current_deadline.
  - eapply (in_ring _ _ (λ x, match x with Some _ => _ | None => _ end)); try done.
    by apply keeps_current_deadline.
Qed.

(** A call the ring takes gives the caller the kernel's result: the coroutine
    that makes it is switched out, resumed when the completion came, and is running
    again afterwards; a negative result is an error, told as [-1] as the C
    library does, and no later layer has a part in it. *)
Theorem ring_completes w :
  current_in h Running w → is_Some (head (SUSPENDER (tls w))) →
  ∃ w', ring_chain nm l fits o inner w = Done (Z.max (-1) r) w' ∧ current_in h Running w'.
Proof.
  intros Hc Hsu.
  destruct (facade_aux clock listener_call wrel lok nm (ring_layer l fits o inner)
    (λ a st, a = Z.max (-1) r ∧ st = Executing) h w Hc) as (a & st & w' & H & [-> ->] & Hc').
  - intros w1 Hc1 Ht1. rewrite <-Ht1 in Hsu.
    destruct (ring_layer_completes w1 Hc1 Hsu) as (w2 & H2 & Hc2). by exists (Z.max (-1) r), Executing, w2.
  - exists w'. split; [done|]. by rewrite decide_True in Hc' by done.
Qed.
End completion.
End properties.
