(* ===== verification/SyscallRuns.v ===== *)
(** * SyscallRuns: system calls on a small kernel

    A concrete kernel for the parameters of [Syscall], [Calls], [Msg] and
    [UringCalls]: one
    descriptor, a socket, whose answers are scripted, with runs of the calls
    on it. *)

From stdpp Require Import sorting base numbers strings gmap list.
From S2P Require Import Prelude Operator UringCalls Common Coroutine Syscall Calls Msg.

(** The kernel: flags of the descriptor, bytes moved, time slept, and the
    answers to the next calls, each a result and an errno. *)
Record kernel : Type := mkKernel {
  k_sys : Sys;
  k_flags : N;
  k_moved : Z;
  k_slept : Z;
  k_answers : list (Z * Z);
}.

#[export] Instance kernel_sys : HasSys kernel := {
  sys := k_sys;
  set_sys f k := mkKernel (f (k_sys k)) (k_flags k) (k_moved k) (k_slept k) (k_answers k);
}.

#[export] Instance kernel_sys_laws : HasSysLaws kernel.
Proof. by split. Qed.

Abbreviation W := (World unit (option Z) unit kernel).

Definition clock (k : nat) : Z := 1000 + Z.of_nat k.

Lemma clock_advances k : clock k < clock (S k).
Proof. unfold clock. lia. Qed.

Definition listener_call (_ : nat) (_ : handle) (_ : event unit (option Z)) : M W unit := mret tt.

Definition free (_ _ : W) : Prop := True.

#[export] Instance free_allowed : Allowed free.
Proof. by split. Qed.

Lemma listeners_free : listeners_ok listener_call free.
Proof. intros l h ev w. exists w. split; [by split|by left]. Qed.

Definition libc : Libc W := {|
  fcntl_getfl := λ _, gets (λ w : W, Z.of_N (k_flags (ext w)));
  fcntl_setfl := λ _ flags, λ w : W, Done 0 (set_ext (λ k, mkKernel (k_sys k) (Z.to_N flags)
                   (k_moved k) (k_slept k) (k_answers k)) w);
  fstat_mode := λ _, mret (Some S_IFSOCK);
  getsockopt_timeo := λ _ _, mret (Some (mkTimeval 0 0));
|}.

(** The next answer of the kernel to a call of at most [n] bytes. *)
Definition answer (n : Z) : M W Z := λ w,
  let k := ext w in
  let '(r, e, rest) := match k_answers k with
                       | [] => (-1, EAGAIN, [])
                       | (r, e) :: rest => (Z.max (-1) (Z.min r n), e, rest)
                       end in
  Done r (set_ext (λ k, mkKernel (if r =? -1 then set_errno_ e (k_sys k) else k_sys k)
    (k_flags k) (k_moved k + Z.max 0 r) (k_slept k) rest) w).

Definition wait_fd (_ _ : Z) : M W (io_result unit) := λ w, Done (IoOk tt) (tick_world w).
Definition wait_for (t : Z) : M W (io_result unit) := λ w,
  Done (IoOk tt) (set_ext (λ k, mkKernel (k_sys k) (k_flags k) (k_moved k) (k_slept k + t)
    (k_answers k)) w).

Definition fl (k : kernel) (_ : Z) : Z := Z.of_N (k_flags k).

Lemma kernel_obs (obs : kernel → Z) :
  (∀ f k, obs (set_sys f k) = obs k) → obs_laws libc wait_fd wait_fd 5 obs.
Proof. intros Hs. split; try done; intros; by intros w r w' [= <- <-]. Qed.

Lemma kernel_fd : fd_laws libc wait_fd wait_fd fl 5.
Proof.
  split; [by apply kernel_obs|intros w; unfold fl; lia|done|].
  intros flags w Hf. eexists. split; [reflexivity|]. unfold fl. simpl. lia.
Qed.

(** A world with one running coroutine in a thread, and its kernel. *)
Definition co (s : CoroutineState unit (option Z)) : Coroutine unit (option Z) unit :=
  mkCo 7 "co" tt s [] [] ∅ None.
Definition world (s : CoroutineState unit (option Z)) (answers : list (Z * Z)) : W :=
  mkWorld {[ 0%nat := co s ]} (mkTls [] [] [0%nat] [0%nat] []) 0
    (mkKernel (mkSys 0 ∅ ∅) 2 0 0 answers).

(** ** The facade *)

Lemma facade_brackets_witness :
  ∃ r st w', facade clock listener_call recv (mret 7) (world Running []) = Done r w'
    ∧ (r = 7 ∧ st = Executing)
    ∧ current_in 0 (if decide (st = Executing) then Running else Syscall tt recv st) w'.
Proof.
  apply (facade_brackets clock listener_call free listeners_free recv (mret 7)
    (λ r st, r = 7 ∧ st = Executing) 0 (world Running [])).
  - by split.
  - intros w1 Hc _. by exists 7, Executing, w1.
Defined.

(** A switch in which the time of the current coroutine's call runs out. *)
Definition time_out : M W unit := λ w,
  Done tt (set_cos (alter (λ c, co_set_state
    (match co_state c with Syscall y nm _ => Syscall y nm Timeout | s => s end) c) 0%nat) w).

Lemma recv_limit_keeps s (w1 : W) :
  current_in 0 s w1 → ∃ limit w2, recv_time_limit libc 5 w1 = Done limit w2
    ∧ current_in 0 s w2 ∧ SUSPENDER (tls w2) = SUSPENDER (tls w1).
Proof.
  intros Hc. unfold recv_time_limit. erewrite bind_done by reflexivity. unfold id.
  destruct (RECV_TIME_LIMIT (sys (ext w1)) !! 5) as [v|] eqn:E.
  - by exists v, w1.
  - erewrite bind_done by reflexivity. cbv beta iota. erewrite bind_done by reflexivity.
    erewrite bind_done by reflexivity. erewrite bind_done by reflexivity.
    unfold assert_, mbind, M_bind, id. rewrite E. eexists _, _. split; [reflexivity|]. done.
Qed.

Lemma phase_set nm st st' (w1 : W) :
  current_in 0 (Syscall tt nm st) w1 →
  current_in 0 (Syscall tt nm st') (set_cos (alter (λ c, co_set_state
    (match co_state c with Syscall y nm _ => Syscall y nm st' | s => s end) c) 0%nat) w1).
Proof.
  intros [Hh Hs]. split; [done|]. unfold co_state_of in *. simpl. rewrite lookup_alter_eq.
  destruct (cos w1 !! 0%nat) as [c|]; [|done]. simpl in *. by injection Hs as ->.
Qed.

Lemma uring_timeout_sticks_witness :
  ∃ w', facade clock listener_call recv (io_uring_read clock listener_call libc time_out
      (λ _, true) (mret (IoOk tt)) (λ _, mret 0) 5 (mret 0)) (world Running []) = Done (-1) w'
    ∧ current_in 0 (Syscall tt recv Timeout) w'
    ∧ ∀ v, complete listener_call 0 v w' = Done (IoErr (Other "unexpected state")) w'.
Proof.
  apply (uring_timeout_sticks clock listener_call free listeners_free libc time_out (λ _, true)
    (mret (IoOk tt)) (λ _, mret 0) 5 (mret 0) recv 0 (world Running [])).
  - by split.
  - by eexists.
  - intros s w1 Hc. by exists tt, w1.
  - apply recv_limit_keeps.
  - intros t w1 Hc. eexists. split; [reflexivity|]. by eapply phase_set.
Defined.

(** A switch in which the completion of the current coroutine's call comes. *)
Definition complete_call : M W unit := λ w,
  Done tt (set_cos (alter (λ c, co_set_state
    (match co_state c with Syscall y nm _ => Syscall y nm Callback | s => s end) c) 0%nat) w).

(** A [recv] refused by the peer: the ring answers [-104]. *)
Lemma ring_completes_witness :
  ∃ w', ring_chain clock listener_call libc complete_call (λ _, mret (IoOk 3%nat))
      (λ _, mret (-104)) recv (RecvLimit 5) fits_ssize (URecv 5 4096 10 0) (mret 0)
      (world Running []) = Done (Z.max (-1) (-104)) w'
    ∧ current_in 0 Running w'.
Proof.
  apply (ring_completes clock listener_call libc complete_call (λ _, mret (IoOk 3%nat))
    (λ _, mret (-104)) free listeners_free recv 0 (URecv 5 4096 10 0) (-104) fits_ssize
    (RecvLimit 5) (mret 0)).
  - intros s w Hc. exists (IoOk 3%nat), w. split; [done|]. split; [by eexists|done].
  - intros s w Hc. destruct (recv_limit_keeps s w Hc) as (v & w2 & H & Hc2 & Ht).
    by exists v, w2.
  - intros t w Hc. eexists. split; [reflexivity|]. by eapply phase_set.
  - intros arc s w Hc. by exists (-104), w.
  - reflexivity.
  - unfold i32_max. lia.
  - by split.
  - by eexists.
Defined.

(** ** The nio layers *)

Definition inner (a : nio_args) : M W Z :=
  match a with
  | ANone => answer 100
  | ABuf _ n => answer n
  | AIovec v => answer (foldr (λ i n, iov_len i + n) 0 v)
  end.

Lemma inner_flags a : holds (λ k, fl k 5) (inner a).
Proof.
  destruct a; intros w r w'; unfold inner, answer;
    destruct (k_answers (ext w)) as [|[r' e] rest]; by intros [= _ <-].
Qed.

(** Blocked once, interrupted once, then six bytes. *)
Definition bumpy : W := world Running [(-1, EAGAIN); (-1, EINTR); (6, 0)].


(** A next layer that panics where a call would block the thread. *)
Definition careful (a : nio_args) : M W Z := λ w,
  if decide (Z.land (fl (ext w) 5) O_NONBLOCK ≠ 0) then inner a w else Panic "blocked" w.


Lemma answer_moves n w r w' :
  0 ≤ n → answer n w = Done r w' →
  -1 ≤ r ≤ n ∧ k_moved (ext w') = k_moved (ext w) + Z.max 0 r.
Proof.
  intros Hn. unfold answer. destruct (k_answers (ext w)) as [|[r' e] rest];
    intros [= <- <-]; simpl; lia.
Qed.

Lemma nio_buf_told_witness :
  ∃ w', nio_read_buf clock libc wait_fd 9 (λ _ n, answer n) 5 4096 10 bumpy = Done 6 w'
    ∧ told k_moved 10 6 bumpy w'.
Proof.
  eexists. split; [vm_compute; reflexivity|].
  apply (nio_buf_told clock libc wait_fd wait_fd 5 k_moved) with (sending := false) (fuel := 9%nat)
    (inner := λ _ n, answer n) (buf := 4096).
  - by apply kernel_obs.
  - by intros w r w' [= <- <-].
  - intros flags w r w' [= <- <-]. done.
  - intros buf n w r w'. apply answer_moves.
  - lia.
  - vm_compute. reflexivity.
Defined.

(** The kernel takes the four bytes of the first buffer and two of the second:
    six are sent, two are reported. *)
Definition two_buffers : list iovec := [mkIovec 4096 4; mkIovec 8192 4].
Definition quick : W := set_ext (λ k, mkKernel (k_sys k) 2050 (k_moved k) (k_slept k) (k_answers k))
  (world Running [(4, 0); (2, 0)]).
Definition vector_inner (v : list iovec) : M W Z := inner (AIovec v).

Lemma iovec_count_lost_witness :
  ∃ w', nio_write_iovec clock libc wait_fd 3 vector_inner 5 two_buffers quick = Done 2 w'
    ∧ k_moved (ext w') = 6.
Proof.
  eexists. split.
  - apply (iovec_count_lost clock libc wait_fd wait_fd true 2 vector_inner 5 (mkIovec 4096 4)
      (mkIovec 8192 4) 2 u64_max quick
      (match send_time_limit libc 5 (tick_world quick) with Done _ w => w | _ => quick end)
      (match send_time_limit libc 5 (tick_world quick) with
       | Done _ w => match vector_inner two_buffers w with Done _ w => w | _ => quick end
       | _ => quick
       end)); try reflexivity;
      unfold i64_max, u64_max; simpl; lia.
  - reflexivity.
Defined.

(** A kernel that never has anything to read. *)
Definition again : M W Z := _ ← set_errno EAGAIN; mret (-1).
Definition limited_world : W := mkWorld (cos (world Running [])) (tls (world Running [])) 1
  (mkKernel (mkSys 0 ∅ {[ 5 := 20 ]}) 2050 0 0 []).


(** ** The other calls *)

Definition idle : M W Z := mret 0.

Lemma poll_waits_timeout_witness :
  ∃ w', nio_poll wait_for 101 idle 100 (world Running []) = Done 0 w'
    ∧ k_slept (ext w') = 100 * 1000000.
Proof.
  apply (poll_waits_timeout wait_for k_slept) with (timeout := 100) (inner := idle)
    (w := world Running []).
  - intros t w. by eexists _, _.
  - intros w. by exists w.
  - unfold i32_max. lia.
Defined.

Definition no_fds (_ : fd_sets (gset Z)) : M W (Z * fd_sets (gset Z)) :=
  mret (0, mkFdSets (Some ∅) None None).

(** Five milliseconds become five seconds. *)
Lemma select_waits_thousandfold_witness :
  ∃ w', nio_select wait_for 5001 no_fds (mkFdSets (Some {[ 5 ]}) None None)
      (Some (mkTimeval 0 5000)) (world Running [])
      = Done (0, mkFdSets (Some ∅) None None) w'
    ∧ k_slept (ext w') = 5 * 1000000000.
Proof.
  apply (select_waits_thousandfold wait_for k_slept) with (tv := mkTimeval 0 5000)
    (inner := no_fds) (w := world Running []).
  - intros t w. by eexists _, _.
  - intros fds w. by exists w.
  - simpl. lia.
  - simpl. lia.
  - unfold u32_max. simpl. lia.
Defined.

Definition interrupted : M W Z := _ ← set_errno EINTR; mret (-1).
Definition after {A} (m : M W A) (w : W) : W := match m w with Done _ w => w | _ => w end.

Lemma connect_interrupted_spins_witness :
  nio_connect clock libc wait_fd 1000 interrupted (mret 0) (mret (0, 0)) 5 (world Running [])
  = NoFuel.
Proof.
  apply (connect_interrupted_spins clock libc wait_fd 1000 interrupted (mret 0) (mret (0, 0)) 5
    u64_max (world Running []) (world Running [])
    (after (set_non_blocking libc 5) (world Running []))
    (after (send_time_limit libc 5) (tick_world (after (set_non_blocking libc 5) (world Running []))))
    (after interrupted (after (send_time_limit libc 5)
       (tick_world (after (set_non_blocking libc 5) (world Running []))))));
    try reflexivity.
Defined.

Lemma setsockopt_second_panics_witness :
  ∃ limit w1 w2,
    nio_setsockopt idle 5 SOL_SOCKET SO_RCVTIMEO (mkTimeval 2 0) (world Running []) = Done 0 w1
    ∧ RECV_TIME_LIMIT (sys (ext w1)) !! 5 = Some limit ∧ 0 < limit ≤ u64_max
    ∧ nio_setsockopt idle 5 SOL_SOCKET SO_RCVTIMEO (mkTimeval 2 0) w1
      = Panic "assertion failed" w2.
Proof.
  apply (setsockopt_second_panics idle 5 (mkTimeval 2 0) (world Running [])).
  - intros w. by exists w.
  - simpl. lia.
  - simpl. lia.
  - reflexivity.
Defined.

(** 50 ns until the deadline, at one nanosecond per look at the clock. *)
Lemma cond_timedwait_deadline_witness :
  ∃ w' k, nio_pthread_cond_timedwait clock wait_for 51 false (λ _, mret ETIMEDOUT)
      (Some (mkTimespec 0 1050)) (world Running []) = Done ETIMEDOUT w'
    ∧ w_tick w' = S k ∧ 1050 ≤ clock k.
Proof.
  apply (cond_timedwait_deadline clock wait_for (λ _, mret ETIMEDOUT) (mkTimespec 0 1050)
    (world Running [])).
  - apply clock_advances.
  - intros t w. by exists w.
  - intros t w. by eexists.
  - reflexivity.
  - unfold timespec_ns, u64_max. simpl. lia.
Defined.

(** ** Messages *)

Definition one_message : msghdr := mkMsg 0 0 [mkIovec 100 8] 1 0 0 0.

Lemma answer_counts n : n ≤ i64_max → counts (answer n).
Proof.
  intros Hn w r w'. unfold answer. destruct (k_answers (ext w)) as [|[r0 e] rest]; intros [= <- _];
    unfold i64_max in *; lia.
Qed.


(** Would block, would block, five bytes. *)
Example recvmsg_retries :
  match nio_recvmsg clock libc wait_fd 9 (λ _, answer 8) 5 one_message
          (world Running [(-1, EAGAIN); (-1, EAGAIN); (5, 0)]) with
  | Done r w => r = 5 ∧ k_flags (ext w) = 2%N
  | _ => False
  end.
Proof. vm_compute. done. Qed.

Definition two_parts : msghdr := mkMsg 0 0 [mkIovec 100 4; mkIovec 200 4] 2 0 0 0.
Definition non_blocking_world (answers : list (Z * Z)) : W :=
  set_ext (λ k, mkKernel (k_sys k) 2048 (k_moved k) (k_slept k) answers) (world Running []).

(** Six bytes for two buffers of four. *)
Lemma short_message_overruns_witness :
  (∃ w', nio_recvmsg clock libc wait_fd 9 (checked (λ _, answer 8)) 5 two_parts
      (non_blocking_world [(6, 0)]) = Panic "reads past the vector" w')
  ∧ ∃ w', nio_sendmsg clock libc wait_fd 9 (checked (λ _, answer 8)) 5 two_parts
      (non_blocking_world [(6, 0)]) = Panic "reads past the vector" w'.
Proof.
  pose (w := non_blocking_world [(6, 0)]).
  apply (short_message_overruns clock libc wait_fd wait_fd 8 (λ _, answer 8) 5 two_parts
    (mkIovec 100 4) (mkIovec 200 4) [] w w
    u64_max (after (recv_time_limit libc 5) (tick_world w)) 6
    (after (answer 8) (after (recv_time_limit libc 5) (tick_world w)))
    u64_max (after (send_time_limit libc 5) (tick_world w)) 6
    (after (answer 8) (after (send_time_limit libc 5) (tick_world w))));
    try reflexivity; try (simpl; unfold i64_max, u64_max; lia).
Defined.
