(* ===== verification/Beans.v ===== *)
(** * Beans: named boxes

    Models [core/src/common/beans.rs] (the factory of named global objects) and
    [core/src/coroutine/local.rs] (the local variables of a coroutine). Both are
    maps from names to addresses of boxes that were leaked on purpose; a heap
    of boxes stands for the allocator. The type parameter of the methods is
    erased: [V] is the type of whatever is stored. *)

From stdpp Require Import sorting base numbers strings gmap list.
From S2P Require Import Prelude.

Section boxes.
Context {V : Type}.

(** A [DashMap<&str, usize>] and the heap its addresses point into. *)
Definition Boxes : Type := gmap string Z * gmap Z V.

(** [Box::leak(Box::new(v))], [*Box::from_raw(p)], [&*p] and a write through
    [&mut *p]; what the program would read from a freed box is not defined. *)
Definition leak (v : V) : M Boxes Z := λ s,
  let p := fresh (dom s.2) in Done p (s.1, <[p := v]> s.2).
Definition from_raw (p : Z) : M Boxes V := λ s,
  match s.2 !! p with
  | Some v => Done v (s.1, delete p s.2)
  | None => Panic "use after free" s
  end.
Definition deref (p : Z) : M Boxes V := λ s,
  match s.2 !! p with
  | Some v => Done v s
  | None => Panic "use after free" s
  end.
Definition deref_mut (p : Z) (f : V → V) : M Boxes V := λ s,
  match s.2 !! p with
  | Some v => Done (f v) (s.1, <[p := f v]> s.2)
  | None => Panic "use after free" s
  end.

(** [DashMap::get], [insert] (the previous value) and [remove]. *)
Definition dm_get (key : string) : M Boxes (option Z) := gets (λ s, s.1 !! key).
Definition dm_insert (key : string) (p : Z) : M Boxes (option Z) := λ s,
  Done (s.1 !! key) (<[key := p]> s.1, s.2).
Definition dm_remove (key : string) : M Boxes (option Z) := λ s,
  Done (s.1 !! key) (delete key s.1, s.2).

(** [Option::map] with a computation. *)
Definition map_ {A B} (x : option A) (k : A → M Boxes B) : M Boxes (option B) :=
  match x with
  | Some a => b ← k a; mret (Some b)
  | None => mret None
  end.

(** ** local.rs *)

Definition put (key : string) (val : V) : M Boxes (option V) :=
  v ← leak val;
  old ← dm_insert key v;
  map_ old from_raw.

Definition local_get (key : string) : M Boxes (option V) :=
  p ← dm_get key; map_ p deref.

(** [get_mut] with what the caller writes through the reference. *)
Definition local_get_mut (key : string) (f : V → V) : M Boxes (option V) :=
  p ← dm_get key; map_ p (λ p, deref_mut p f).

Definition local_remove (key : string) : M Boxes (option V) :=
  p ← dm_remove key; map_ p from_raw.

(** ** beans.rs *)

(** The static [INSTANCE] and the factories that were ever leaked. *)
Record Factory : Type := mkFactory {
  INSTANCE : Z;
  factories : gmap Z (gmap string Z);
  box_heap : gmap Z V;
}.

Definition load_instance : M Factory Z := gets INSTANCE.
Definition store_instance (p : Z) : M Factory unit :=
  modify (λ s, mkFactory p (factories s) (box_heap s)).
(** [Box::leak(Box::default())]; no address is zero. *)
Definition leak_factory : M Factory Z := λ s,
  let p := fresh ({[ 0 ]} ∪ dom (factories s)) in
  Done p (mkFactory (INSTANCE s) (<[p := ∅]> (factories s)) (box_heap s)).

Definition get_instance : M Factory Z :=
  ret ← load_instance;
  if ret =? 0 then
    ret ← leak_factory;
    _ ← store_instance ret;
    mret ret
  else mret ret.

(** Run [m] on the map of the factory [p]. *)
Definition in_factory {A} (p : Z) (m : M Boxes A) : M Factory A := λ s,
  match factories s !! p with
  | None => Panic "dangling factory" s
  | Some names =>
      match m (names, box_heap s) with
      | Done a b => Done a (mkFactory (INSTANCE s) (<[p := b.1]> (factories s)) b.2)
      | Panic msg b => Panic msg (mkFactory (INSTANCE s) (<[p := b.1]> (factories s)) b.2)
      | NoFuel => NoFuel
      end
  end.

(** The methods below after [get_instance]. *)
Definition init_in (bean_name : string) (bean : V) : M Boxes unit :=
  p ← dm_get bean_name;
  match p with
  | Some _ => mret tt
  | None =>
      b ← leak bean;
      old ← dm_insert bean_name b;
      assert_ (bool_decide (old = None)) "assertion failed"
  end.
Definition get_or_default_in (dflt : V) (bean_name : string) : M Boxes V :=
  p ← dm_get bean_name;
  match p with
  | Some p => deref p
  | None => b ← leak dflt; _ ← dm_insert bean_name b; deref b
  end.
Definition get_mut_or_default_in (dflt : V) (bean_name : string) (f : V → V) : M Boxes V :=
  p ← dm_get bean_name;
  match p with
  | Some p => deref_mut p f
  | None => b ← leak dflt; _ ← dm_insert bean_name b; deref_mut b f
  end.

Definition init_bean (bean_name : string) (bean : V) : M Factory unit :=
  i ← get_instance; in_factory i (init_in bean_name bean).
Definition remove_bean (bean_name : string) : M Factory (option V) :=
  i ← get_instance; in_factory i (p ← dm_remove bean_name; map_ p from_raw).
Definition get_bean (bean_name : string) : M Factory (option V) :=
  i ← get_instance; in_factory i (p ← dm_get bean_name; map_ p deref).
Definition get_mut_bean (bean_name : string) (f : V → V) : M Factory (option V) :=
  i ← get_instance; in_factory i (p ← dm_get bean_name; map_ p (λ p, deref_mut p f)).
Definition get_or_default (dflt : V) (bean_name : string) : M Factory V :=
  i ← get_instance; in_factory i (get_or_default_in dflt bean_name).
Definition get_mut_or_default (dflt : V) (bean_name : string) (f : V → V) : M Factory V :=
  i ← get_instance; in_factory i (get_mut_or_default_in dflt bean_name f).

(** ** get_instance in steps, for several threads *)

Inductive pc : Type := AtLoad | AtLeak | AtStore (p : Z) | Got (p : Z).

Definition instance_step (c : pc) : M Factory pc :=
  match c with
  | AtLoad => ret ← load_instance; mret (if ret =? 0 then AtLeak else Got ret)
  | AtLeak => p ← leak_factory; mret (AtStore p)
  | AtStore p => _ ← store_instance p; mret (Got p)
  | Got p => mret (Got p)
  end.

(** The steps of the threads [sched] names, in that order. *)
Fixpoint interleave (sched : list nat) (cs : list pc) : M Factory (list pc) :=
  match sched with
  | [] => mret cs
  | i :: sched =>
      match cs !! i with
      | None => interleave sched cs
      | Some c => c' ← instance_step c; interleave sched (<[i := c']> cs)
      end
  end.
End boxes.

Arguments Boxes : clear implicits.
Arguments Factory : clear implicits.

(** ** What named boxes promise: a map from names to values *)

Inductive box_op (V : Type) : Type :=
| BInit (key : string) (v : V)
| BPut (key : string) (v : V)
| BGet (key : string)
| BGetMut (key : string) (f : V → V)
| BGetOrDefault (dflt : V) (key : string)
| BGetMutOrDefault (dflt : V) (key : string) (f : V → V)
| BRemove (key : string).
Arguments BInit {V}.
Arguments BPut {V}.
Arguments BGet {V}.
Arguments BGetMut {V}.
Arguments BGetOrDefault {V}.
Arguments BGetMutOrDefault {V}.
Arguments BRemove {V}.

Section properties.
Context {V : Type}.
Implicit Types (s : Boxes V) (m : gmap string V) (k : string) (p : Z) (v : V).

Definition box_spec (o : box_op V) m : option V * gmap string V :=
  match o with
  | BInit k v => (None, if decide (m !! k = None) then <[k := v]> m else m)
  | BPut k v => (m !! k, <[k := v]> m)
  | BGet k => (m !! k, m)
  | BGetMut k f => (f <$> m !! k, alter f k m)
  | BGetOrDefault d k =>
      let v := default d (m !! k) in (Some v, <[k := v]> m)
  | BGetMutOrDefault d k f =>
      let v := f (default d (m !! k)) in (Some v, <[k := v]> m)
  | BRemove k => (m !! k, delete k m)
  end.

(** The operations of a coroutine's locals and, inside one factory, of beans. *)
Definition run_box_op (o : box_op V) : M (Boxes V) (option V) :=
  match o with
  | BInit k v => _ ← init_in k v; mret None
  | BPut k v => put k v
  | BGet k => local_get k
  | BGetMut k f => local_get_mut k f
  | BGetOrDefault d k => v ← get_or_default_in d k; mret (Some v)
  | BGetMutOrDefault d k f => v ← get_mut_or_default_in d k f; mret (Some v)
  | BRemove k => local_remove k
  end.

(** The values by name. *)
Definition contents s : gmap string V := omap (λ p, s.2 !! p) s.1.

(** Every name has a box of its own and every box has a name: nothing dangles,
    nothing is shared and nothing is lost. *)
Definition boxes_wf s : Prop :=
  (∀ k p, s.1 !! k = Some p → is_Some (s.2 !! p))
  ∧ (∀ k k' p, s.1 !! k = Some p → s.1 !! k' = Some p → k = k')
  ∧ (∀ p, is_Some (s.2 !! p) → ∃ k, s.1 !! k = Some p).

Lemma contents_lookup s k : contents s !! k = s.1 !! k ≫= λ p, s.2 !! p.
Proof. unfold contents. apply lookup_omap. Qed.

Lemma contents_none s k : boxes_wf s → contents s !! k = None ↔ s.1 !! k = None.
Proof.
  intros (Hd & _). rewrite contents_lookup. destruct (s.1 !! k) as [p|] eqn:E; simpl; [|done].
  destruct (Hd k p E) as [v ->]. done.
Qed.

Lemma fresh_box s : s.2 !! fresh (dom s.2) = None.
Proof. apply not_elem_of_dom, is_fresh. Qed.

(** A new box under a new name. *)
Lemma boxes_new s k p v :
  boxes_wf s → s.1 !! k = None → s.2 !! p = None →
  boxes_wf (<[k := p]> s.1, <[p := v]> s.2)
  ∧ contents (<[k := p]> s.1, <[p := v]> s.2) = <[k := v]> (contents s).
Proof.
  intros (Hd & Hi & Hl) Hk Hp.
  assert (∀ k' p', s.1 !! k' = Some p' → p' ≠ p) as Hne.
  { intros k' p' Hk' ->. destruct (Hd _ _ Hk'). congruence. }
  split; [split_and!|]; simpl.
  - intros k' p' [[<- <-]|[? Hk']]%lookup_insert_Some; [by rewrite lookup_insert_eq|].
    rewrite lookup_insert_ne by (by apply not_eq_sym, (Hne k')). by apply Hd in Hk'.
  - intros k1 k2 p' [[<- <-]|[? H1]]%lookup_insert_Some
      [[<- Hp2]|[? H2]]%lookup_insert_Some; try done.
    + by destruct (Hne _ _ H2).
    + subst. by destruct (Hne _ _ H1).
    + by apply (Hi k1 k2 p').
  - intros p' [v' [[<- <-]|[? Hv]]%lookup_insert_Some].
    + exists k. by rewrite lookup_insert_eq.
    + destruct (Hl p') as [k' Hk']; [by eexists|]. exists k'.
      rewrite lookup_insert_ne; [done|]. congruence.
  - apply map_eq. intros k'. rewrite contents_lookup. simpl.
    destruct (decide (k = k')) as [<-|Hkk].
    + rewrite !lookup_insert_eq. simpl. by rewrite lookup_insert_eq.
    + rewrite !lookup_insert_ne, contents_lookup by done.
      destruct (s.1 !! k') as [p'|] eqn:E; simpl; [|done].
      rewrite lookup_insert_ne; [done|]. by apply not_eq_sym, (Hne k').
Qed.

(** Freeing the box of a name together with the name. *)
Lemma boxes_free s k p :
  boxes_wf s → s.1 !! k = Some p →
  boxes_wf (delete k s.1, delete p s.2)
  ∧ contents (delete k s.1, delete p s.2) = delete k (contents s).
Proof.
  intros (Hd & Hi & Hl) Hk.
  assert (∀ k' p', s.1 !! k' = Some p' → k ≠ k' → p ≠ p') as Hne.
  { intros k' p' Hk' Hn ->. by destruct (Hi k k' p'). }
  split; [split_and!|]; simpl.
  - intros k' p' [Hn Hk']%lookup_delete_Some.
    rewrite lookup_delete_ne by by apply (Hne k'). by apply Hd in Hk'.
  - intros k1 k2 p' [_ H1]%lookup_delete_Some [_ H2]%lookup_delete_Some. by apply (Hi k1 k2 p').
  - intros p' [v [Hn Hv]%lookup_delete_Some]. destruct (Hl p') as [k' Hk']; [by eexists|].
    exists k'. rewrite lookup_delete_ne; [done|]. congruence.
  - apply map_eq. intros k'. rewrite contents_lookup. simpl.
    destruct (decide (k = k')) as [<-|Hkk]; [by rewrite !lookup_delete_eq|].
    rewrite !lookup_delete_ne, contents_lookup by done.
    destruct (s.1 !! k') as [p'|] eqn:E; simpl; [|done].
    by rewrite lookup_delete_ne by by apply (Hne k').
Qed.

(** Writing into the box of a name. *)
Lemma boxes_write s k p v :
  boxes_wf s → s.1 !! k = Some p →
  boxes_wf (s.1, <[p := v]> s.2) ∧ contents (s.1, <[p := v]> s.2) = <[k := v]> (contents s).
Proof.
  intros (Hd & Hi & Hl) Hk. split; [split_and!|]; simpl.
  - intros k' p' Hk'. destruct (decide (p = p')) as [<-|]; [by rewrite lookup_insert_eq|].
    rewrite lookup_insert_ne by done. by apply Hd in Hk'.
  - done.
  - intros p' [v' [[<- <-]|[? Hv]]%lookup_insert_Some]; [by exists k|]. apply Hl. by eexists.
  - apply map_eq. intros k'. rewrite contents_lookup. simpl.
    destruct (decide (k = k')) as [<-|Hkk].
    + rewrite Hk, !lookup_insert_eq. simpl. by rewrite lookup_insert_eq.
    + rewrite (lookup_insert_ne _ k k') by done. rewrite contents_lookup.
      destruct (s.1 !! k') as [p'|] eqn:E; simpl; [|done].
      rewrite lookup_insert_ne; [done|]. intros ->. by destruct (Hi k k' p').
Qed.

Lemma box_of s k p : boxes_wf s → s.1 !! k = Some p → ∃ v, s.2 !! p = Some v ∧ contents s !! k = Some v.
Proof.
  intros (Hd & _) Hk. destruct (Hd k p Hk) as [v Hv]. exists v. split; [done|].
  by rewrite contents_lookup, Hk.
Qed.

(** What one operation does: the answer and the contents of the specification. *)
Definition box_done (o : box_op V) s : Prop :=
  ∃ s', run_box_op o s = Done (box_spec o (contents s)).1 s'
    ∧ boxes_wf s' ∧ contents s' = (box_spec o (contents s)).2.

(** No box has the name: the operations that make one. *)
Lemma box_fresh_name s k v :
  boxes_wf s → s.1 !! k = None →
  let s' := (<[k := fresh (dom s.2)]> s.1, <[fresh (dom s.2) := v]> s.2) in
  boxes_wf s' ∧ contents s' = <[k := v]> (contents s).
Proof. intros Hw Hk. apply boxes_new; [done|done|apply fresh_box]. Qed.

Lemma put_spec k v s : boxes_wf s → box_done (BPut k v) s.
Proof.
  intros Hw. unfold box_done. simpl. unfold put. erewrite bind_done by reflexivity.
  erewrite bind_done by reflexivity. simpl. set (q := fresh (dom s.2)).
  pose proof (fresh_box s : s.2 !! q = None) as Hq.
  destruct (s.1 !! k) as [p|] eqn:E.
  - destruct (box_of s k p Hw E) as (v0 & Hv0 & Hc). rewrite Hc. unfold map_.
    assert (q ≠ p) as Hqp by congruence.
    erewrite bind_done by (unfold from_raw; simpl; by rewrite lookup_insert_ne, Hv0).
    eexists. split; [reflexivity|]. simpl. destruct (boxes_free s k p Hw E) as [Hw1 Hc1].
    destruct (boxes_new (delete k s.1, delete p s.2) k q v Hw1) as [Hw2 Hc2]; simpl.
    { by rewrite lookup_delete_eq. }
    { by rewrite lookup_delete_ne. }
    rewrite Hc1 in Hc2. simpl in Hw2, Hc2.
    rewrite insert_delete_eq, insert_delete_eq in Hc2. rewrite insert_delete_eq in Hw2.
    by rewrite delete_insert_ne by done.
  - eexists. assert (contents s !! k = None) as -> by by apply contents_none.
    split; [reflexivity|]. by apply box_fresh_name.
Qed.

Lemma get_spec k s : boxes_wf s → box_done (BGet k) s.
Proof.
  intros Hw. unfold box_done. simpl. unfold local_get. erewrite bind_done by reflexivity.
  destruct (s.1 !! k) as [p|] eqn:E; simpl.
  - destruct (box_of s k p Hw E) as (v & Hv & ->). eexists.
    erewrite bind_done by (unfold deref; by rewrite Hv). by split_and!.
  - exists s. by rewrite (proj2 (contents_none s k Hw)).
Qed.

Lemma get_mut_spec k f s : boxes_wf s → box_done (BGetMut k f) s.
Proof.
  intros Hw. unfold box_done. simpl. unfold local_get_mut. erewrite bind_done by reflexivity.
  destruct (s.1 !! k) as [p|] eqn:E; simpl.
  - destruct (box_of s k p Hw E) as (v & Hv & Hc).
    erewrite bind_done by (unfold deref_mut; by rewrite Hv).
    eexists. rewrite Hc. split; [reflexivity|]. simpl.
    destruct (boxes_write s k p (f v) Hw E) as [? Hc']. split; [done|]. rewrite Hc'.
    apply map_eq. intros k'. destruct (decide (k = k')) as [<-|].
    + by rewrite lookup_insert_eq, lookup_alter_eq, Hc.
    + by rewrite lookup_insert_ne, lookup_alter_ne.
  - exists s. pose proof (proj2 (contents_none s k Hw) E) as Hn. rewrite Hn.
    split_and!; try done. apply map_eq. intros k'. destruct (decide (k = k')) as [<-|].
    + by rewrite lookup_alter_eq, Hn.
    + by rewrite lookup_alter_ne.
Qed.

Lemma remove_spec k s : boxes_wf s → box_done (BRemove k) s.
Proof.
  intros Hw. unfold box_done. simpl. unfold local_remove. erewrite bind_done by reflexivity.
  destruct (s.1 !! k) as [p|] eqn:E; simpl.
  - destruct (box_of s k p Hw E) as (v & Hv & ->).
    erewrite bind_done by (unfold from_raw; simpl; by rewrite Hv). eexists.
    split; [reflexivity|]. by apply boxes_free.
  - pose proof (proj2 (contents_none s k Hw) E) as Hn. rewrite Hn.
    eexists. split; [reflexivity|]. rewrite (delete_id (contents s)) by done.
    rewrite delete_id by done. by destruct s.
Qed.

Lemma init_spec k v s : boxes_wf s → box_done (BInit k v) s.
Proof.
  intros Hw. unfold box_done. simpl. unfold init_in. rewrite bind_assoc.
  erewrite bind_done by reflexivity. destruct (s.1 !! k) as [p|] eqn:E.
  - destruct (box_of s k p Hw E) as (v0 & Hv & Hc). rewrite decide_False by congruence. by exists s.
  - rewrite decide_True by by apply contents_none. eexists. split; [|by apply box_fresh_name].
    munfold. simpl. by rewrite E.
Qed.

Lemma get_or_default_spec d k s : boxes_wf s → box_done (BGetOrDefault d k) s.
Proof.
  intros Hw. unfold box_done. simpl. unfold get_or_default_in. rewrite bind_assoc.
  erewrite bind_done by reflexivity. destruct (s.1 !! k) as [p|] eqn:E.
  - destruct (box_of s k p Hw E) as (v & Hv & Hc). rewrite Hc. simpl.
    erewrite bind_done by (unfold deref; by rewrite Hv).
    exists s. split_and!; try done. by rewrite insert_id.
  - pose proof (proj2 (contents_none s k Hw) E) as Hn. rewrite Hn. simpl.
    unfold mbind, M_bind, deref. simpl. rewrite lookup_insert_eq.
    eexists. split; [reflexivity|]. by apply box_fresh_name.
Qed.

Lemma get_mut_or_default_spec d k f s : boxes_wf s → box_done (BGetMutOrDefault d k f) s.
Proof.
  intros Hw. unfold box_done. simpl. unfold get_mut_or_default_in. rewrite bind_assoc.
  erewrite bind_done by reflexivity. destruct (s.1 !! k) as [p|] eqn:E.
  - destruct (box_of s k p Hw E) as (v & Hv & Hc). rewrite Hc. simpl.
    erewrite bind_done by (unfold deref_mut; by rewrite Hv).
    eexists. split; [reflexivity|]. by apply boxes_write.
  - pose proof (proj2 (contents_none s k Hw) E) as Hn. rewrite Hn. simpl.
    unfold mbind, M_bind, deref_mut. simpl. rewrite lookup_insert_eq.
    eexists. split; [reflexivity|]. simpl. rewrite insert_insert_eq. by apply box_fresh_name.
Qed.

Lemma run_box_op_spec o s : boxes_wf s → box_done o s.
Proof.
  destruct o; [apply init_spec|apply put_spec|apply get_spec|apply get_mut_spec
    |apply get_or_default_spec|apply get_mut_or_default_spec|apply remove_spec].
Qed.

(** A sequence of operations with its answers, and the specification's. *)
Fixpoint run_box_ops (os : list (box_op V)) : M (Boxes V) (list (option V)) :=
  match os with
  | [] => mret []
  | o :: os => r ← run_box_op o; rs ← run_box_ops os; mret (r :: rs)
  end.

Fixpoint box_specs (os : list (box_op V)) m : list (option V) * gmap string V :=
  match os with
  | [] => ([], m)
  | o :: os =>
      let '(r, m) := box_spec o m in
      let '(rs, m) := box_specs os m in (r :: rs, m)
  end.


(** *** The factory *)

Implicit Types (f : Factory V).

Definition beans f : Boxes V := (default ∅ (factories f !! INSTANCE f), box_heap f).

(** Before the first use there is nothing; afterwards [INSTANCE] names a
    factory that exists. *)
Definition factory_ok f : Prop :=
  boxes_wf (beans f)
  ∧ if decide (INSTANCE f = 0) then factories f = ∅ ∧ box_heap f = ∅
    else is_Some (factories f !! INSTANCE f).

Lemma get_instance_spec f :
  factory_ok f →
  ∃ f', get_instance f = Done (INSTANCE f') f' ∧ factory_ok f' ∧ beans f' = beans f
    ∧ is_Some (factories f' !! INSTANCE f').
Proof.
  intros [Hw Hi]. unfold get_instance. erewrite bind_done by reflexivity.
  destruct (INSTANCE f =? 0) eqn:E; breflect.
  - rewrite decide_True in Hi by done. destruct Hi as [Hf Hb].
    erewrite bind_done by reflexivity. erewrite bind_done by reflexivity. simpl.
    set (p := fresh _). assert (p ≠ 0) as Hp.
    { assert (p ∉ ({[0]} ∪ dom (factories f) : gset Z)) as Hp by apply is_fresh. set_solver. }
    exists (mkFactory p (<[p := ∅]> (factories f)) (box_heap f)). split; [reflexivity|].
    unfold factory_ok, beans. simpl.
    rewrite lookup_insert_eq. rewrite decide_False by done. split_and!; try by eexists.
    + unfold beans in Hw. by rewrite Hf, lookup_empty in Hw.
    + by rewrite Hf, lookup_empty.
  - exists f. rewrite decide_False in Hi by done. split_and!; try done. split; [done|].
    by rewrite decide_False.
Qed.

Lemma in_factory_spec {A} (m : M (Boxes V) A) f a b :
  factory_ok f → is_Some (factories f !! INSTANCE f) → m (beans f) = Done a b → boxes_wf b →
  ∃ f', in_factory (INSTANCE f) m f = Done a f' ∧ factory_ok f' ∧ beans f' = b.
Proof.
  intros [_ Hok] [names Hn] Hm Hb. unfold in_factory, beans in *. rewrite Hn in *. simpl in Hm.
  rewrite Hm. eexists. split; [reflexivity|]. unfold factory_ok, beans. simpl.
  rewrite lookup_insert_eq. simpl. rewrite decide_False.
  - split_and!; [by destruct b|by eexists|by destruct b].
  - intros H0. rewrite decide_True in Hok by done. destruct Hok as [He _].
    by rewrite He, lookup_empty in Hn.
Qed.

(** The methods of the factory; [put] is a method of locals only. *)
Definition run_bean_op (o : box_op V) : M (Factory V) (option V) :=
  match o with
  | BInit k v => _ ← init_bean k v; mret None
  | BPut k v => i ← get_instance; in_factory i (put k v)
  | BGet k => get_bean k
  | BGetMut k g => get_mut_bean k g
  | BGetOrDefault d k => v ← get_or_default d k; mret (Some v)
  | BGetMutOrDefault d k g => v ← get_mut_or_default d k g; mret (Some v)
  | BRemove k => remove_bean k
  end.

Lemma in_factory_ret {A B} i (m : M (Boxes V) A) (g : A → B) f :
  (a ← in_factory i m; mret (g a)) f = in_factory i (a ← m; mret (g a)) f.
Proof.
  unfold mbind, M_bind, in_factory. destruct (factories f !! i) as [names|]; [|done].
  by destruct (m (names, box_heap f)).
Qed.

Lemma bean_op_via o f : run_bean_op o f = (i ← get_instance; in_factory i (run_box_op o)) f.
Proof.
  destruct o; try done; cbn [run_bean_op run_box_op];
    unfold init_bean, get_or_default, get_mut_or_default; rewrite bind_assoc;
    (destruct (get_instance f) as [i f1| |] eqn:E;
     [do 2 (erewrite (bind_done get_instance _ f) by exact E)|unfold mbind, M_bind; by rewrite E..]);
    apply (in_factory_ret _ _ (λ _, None)) || apply (in_factory_ret _ _ Some).
Qed.

Lemma run_bean_op_spec o f :
  factory_ok f →
  ∃ f', run_bean_op o f = Done (box_spec o (contents (beans f))).1 f'
    ∧ factory_ok f' ∧ contents (beans f') = (box_spec o (contents (beans f))).2.
Proof.
  intros Hf. rewrite bean_op_via. destruct (get_instance_spec f Hf) as (f1 & H1 & Hf1 & Hb1 & Hs1).
  erewrite bind_done by exact H1.
  destruct (run_box_op_spec o (beans f1) (proj1 Hf1)) as (b & Hr & Hw & Hc).
  destruct (in_factory_spec (run_box_op o) f1 _ b Hf1 Hs1 Hr Hw) as (f2 & H2 & Hf2 & Hb2).
  exists f2. rewrite Hb2, <-Hb1. split_and!; done.
Qed.

Fixpoint run_bean_ops (os : list (box_op V)) : M (Factory V) (list (option V)) :=
  match os with
  | [] => mret []
  | o :: os => r ← run_bean_op o; rs ← run_bean_ops os; mret (r :: rs)
  end.

(** On one thread the bean factory is a map from names to beans: from the
    first call on, which creates the factory, every sequence of
    initialisations, lookups, defaults, writes through references and removals
    is answered as a map would; a bean initialised under a new name is the one
    found under that name until it is removed, a second initialisation
    changes nothing, and removal returns the bean and forgets it. *)
Theorem beans_refine_map os f :
  factory_ok f →
  ∃ f', run_bean_ops os f = Done (box_specs os (contents (beans f))).1 f'
    ∧ factory_ok f' ∧ contents (beans f') = (box_specs os (contents (beans f))).2.
Proof.
  revert f. induction os as [|o os IH]; intros f Hw; [by exists f|]. simpl.
  destruct (run_bean_op_spec o f Hw) as (f1 & H1 & Hw1 & Hc1).
  erewrite bind_done by exact H1. destruct (IH f1 Hw1) as (f2 & H2 & Hw2 & Hc2).
  erewrite bind_done by exact H2. rewrite Hc1 in *.
  destruct (box_spec o (contents (beans f))) as [r m]. simpl in *.
  destruct (box_specs os m) as [rs m']. by exists f2.
Qed.

(** Three steps of one thread are [get_instance]. *)
Lemma instance_steps f p f' :
  get_instance f = Done p f' → interleave [0; 0; 0]%nat [AtLoad] f = Done [Got p] f'.
Proof.
  unfold get_instance. simpl. unfold mbind, M_bind, load_instance, gets, mret, M_ret. simpl.
  destruct (INSTANCE f =? 0); [|by intros [= <- <-]]. by intros [= <- <-].
Qed.

Definition new_factory : Factory V := mkFactory 0 ∅ ∅.

Lemma new_factory_ok : factory_ok new_factory.
Proof.
  unfold factory_ok, beans, new_factory. simpl. rewrite lookup_empty. simpl.
  split; [|done]. split_and!; simpl.
  - intros k p. by rewrite lookup_empty.
  - intros k k' p. by rewrite lookup_empty.
  - intros p. rewrite lookup_empty. by intros [? ?].
Qed.

(** The factory is not created once when two threads use it first at the
    same time: both can find the static empty, make a factory each and store
    it. They are left with different factories, and what the first thread
    initialises the second one does not find. One thread after the other, they
    get the same factory. *)
Theorem first_use_races k v :
  (∃ p1 p2 f, interleave [0; 1; 0; 0; 1; 1]%nat [AtLoad; AtLoad] new_factory
      = Done [Got p1; Got p2] f ∧ p1 ≠ p2
    ∧ ∃ f1, in_factory p1 (init_in k v) f = Done tt f1
      ∧ in_factory p2 (local_get k) f1 = Done None f1)
  ∧ ∃ p f, interleave [0; 0; 0; 1; 1; 1]%nat [AtLoad; AtLoad] new_factory
      = Done [Got p; Got p] f.
Proof.
  split.
  - eexists _, _, _. split; [vm_compute; reflexivity|]. split; [done|].
    eexists. unfold in_factory, init_in, local_get. munfold. simpl. split; reflexivity.
  - eexists _, _. vm_compute. reflexivity.
Qed.
End properties.

(** ** Examples *)

Definition demo_ops : list (box_op Z) :=
  [BPut "1" 1; BPut "1" 2; BGet "1"; BGetMut "1" (λ _, 3); BRemove "1"; BGet "1"].


Definition bean_demo : list (box_op Z) :=
  [BInit "a" 1; BInit "a" 2; BGetOrDefault 7 "b"; BGet "a"; BRemove "a"; BGet "a"].

Lemma beans_refine_map_witness :
  ∃ f', run_bean_ops bean_demo new_factory = Done [None; None; Some 7; Some 1; Some 1; None] f'
    ∧ factory_ok f' ∧ contents (beans f') = {[ "b" := 7 ]}.
Proof.
  destruct (beans_refine_map bean_demo new_factory) as (f' & Hr & Hw & Hc).
  - apply new_factory_ok.
  - exists f'. split; [rewrite Hr; vm_compute; reflexivity|]. split; [exact Hw|].
    rewrite Hc. vm_compute. reflexivity.
Defined.
