(* ===== verification/Config.v ===== *)
(** * Config: the configuration

    Models [core/src/config.rs]: the sizes from which the event loops and their
    pools are made, with the checks of the setters. [cpu_count()] is a
    parameter. *)

From stdpp Require Import sorting base numbers strings gmap list.
From S2P Require Import Prelude Common.

Record Config : Type := mkConfig {
  event_loop_size : Z;
  stack_size : Z;
  min_size : Z;
  max_size : Z;
  keep_alive_time : Z;
  min_memory_count : Z;
  memory_keep_alive_time : Z;
  hook : bool;
}.

#[global] Instance Config_eq_dec : EqDecision Config.
Proof. solve_decision. Defined.

Definition config_new (event_loop_size stack_size min_size max_size keep_alive_time
  min_memory_count memory_keep_alive_time : Z) (hook : bool) : Config :=
  mkConfig event_loop_size stack_size min_size max_size keep_alive_time min_memory_count
    memory_keep_alive_time hook.

Definition single : Config := config_new 1 DEFAULT_STACK_SIZE 0 65536 0 0 0 true.
Definition default_config (cpu_count : Z) : Config :=
  config_new cpu_count DEFAULT_STACK_SIZE 0 65536 0 0 0 true.

(** ** Setters: the checks, then the write. *)

Definition set_event_loop_size (x : Z) : M Config unit :=
  _ ← assert_ (0 <? x) "event_loop_size must be greater than 0";
  modify (λ c, mkConfig x (stack_size c) (min_size c) (max_size c) (keep_alive_time c)
    (min_memory_count c) (memory_keep_alive_time c) (hook c)).
Definition set_stack_size (x : Z) : M Config unit :=
  _ ← assert_ (0 <? x) "stack_size must be greater than 0";
  modify (λ c, mkConfig (event_loop_size c) x (min_size c) (max_size c) (keep_alive_time c)
    (min_memory_count c) (memory_keep_alive_time c) (hook c)).
Definition set_min_size (x : Z) : M Config unit :=
  modify (λ c, mkConfig (event_loop_size c) (stack_size c) x (max_size c) (keep_alive_time c)
    (min_memory_count c) (memory_keep_alive_time c) (hook c)).
Definition set_max_size (x : Z) : M Config unit :=
  _ ← assert_ (0 <? x) "max_size must be greater than 0";
  m ← gets min_size;
  _ ← assert_ (m <=? x) "max_size must be greater than or equal to min_size";
  modify (λ c, mkConfig (event_loop_size c) (stack_size c) (min_size c) x (keep_alive_time c)
    (min_memory_count c) (memory_keep_alive_time c) (hook c)).
Definition set_keep_alive_time (x : Z) : M Config unit :=
  modify (λ c, mkConfig (event_loop_size c) (stack_size c) (min_size c) (max_size c) x
    (min_memory_count c) (memory_keep_alive_time c) (hook c)).
Definition set_min_memory_count (x : Z) : M Config unit :=
  modify (λ c, mkConfig (event_loop_size c) (stack_size c) (min_size c) (max_size c)
    (keep_alive_time c) x (memory_keep_alive_time c) (hook c)).
Definition set_memory_keep_alive_time (x : Z) : M Config unit :=
  modify (λ c, mkConfig (event_loop_size c) (stack_size c) (min_size c) (max_size c)
    (keep_alive_time c) (min_memory_count c) x (hook c)).
Definition set_hook (x : bool) : M Config unit :=
  modify (λ c, mkConfig (event_loop_size c) (stack_size c) (min_size c) (max_size c)
    (keep_alive_time c) (min_memory_count c) (memory_keep_alive_time c) x).

Inductive config_op : Type :=
| CEventLoopSize (x : Z)
| CStackSize (x : Z)
| CMinSize (x : Z)
| CMaxSize (x : Z)
| CKeepAliveTime (x : Z)
| CMinMemoryCount (x : Z)
| CMemoryKeepAliveTime (x : Z)
| CHook (x : bool).

Definition run_config_op (o : config_op) : M Config unit :=
  match o with
  | CEventLoopSize x => set_event_loop_size x
  | CStackSize x => set_stack_size x
  | CMinSize x => set_min_size x
  | CMaxSize x => set_max_size x
  | CKeepAliveTime x => set_keep_alive_time x
  | CMinMemoryCount x => set_min_memory_count x
  | CMemoryKeepAliveTime x => set_memory_keep_alive_time x
  | CHook x => set_hook x
  end.

Fixpoint run_config_ops (os : list config_op) : M Config unit :=
  match os with
  | [] => mret tt
  | o :: os => _ ← run_config_op o; run_config_ops os
  end.

(** ** Properties *)

(** There is a loop, a stack and room for a coroutine. *)
Definition config_ok (c : Config) : Prop :=
  0 < event_loop_size c ∧ 0 < stack_size c ∧ 0 < max_size c.

Definition sets_min (o : config_op) : bool := match o with CMinSize _ => true | _ => false end.

(** The configuration a computation leaves, by return or by panic. *)
Definition left_by {A} (r : outcome Config A) (Q : Config → Prop) : Prop :=
  match r with Done _ c | Panic _ c => Q c | NoFuel => False end.

Lemma run_config_op_ok o c :
  config_ok c → left_by (run_config_op o c) (λ c', config_ok c'
    ∧ (sets_min o = false → min_size c ≤ max_size c → min_size c' ≤ max_size c')).
Proof.
  intros (? & ? & ?). unfold config_ok.
  destruct o; unfold run_config_op, set_event_loop_size, set_stack_size, set_max_size;
    munfold; simpl; repeat case_match; simpl; breflect; repeat split; intros; simplify_eq; try done; lia.
Qed.


