(* ===== verification/Monitor.v ===== *)
(** * Monitor: preemption of coroutines that run too long

    Models [core/src/monitor.rs] for unix and the two-level flag of its Windows
    part: a listener puts a node (deadline, thread) into the monitor's queue
    when a coroutine starts running and takes it out when the coroutine stops
    running; the monitor thread sends a signal to the threads of due nodes; the
    signal's handler suspends the coroutine if it is still running. The
    bean of the monitor is its state [Mon], which a client's world contains
    ([HasMon]); [NOTIFY_NODE] is kept in the coroutine's local storage with the
    operations of [Beans]. Installing the handler, spawning the thread, the
    order of a hash set and the other threads are parameters. *)

From stdpp Require Import sorting base numbers strings gmap list.
From S2P Require Import Prelude Common Beans Coroutine.

Record NotifyNode : Type := mkNode { timestamp : Z; pthread : Z }.

#[global] Instance NotifyNode_eq_dec : EqDecision NotifyNode.
Proof. solve_decision. Defined.
#[global] Instance NotifyNode_countable : Countable NotifyNode.
Proof.
  apply (inj_countable' (λ n, (timestamp n, pthread n)) (λ p, mkNode p.1 p.2)). by intros [].
Defined.

Inductive MonitorState : Type := MCreated | MRunning | MStopping | MStopped.

#[global] Instance MonitorState_eq_dec : EqDecision MonitorState.
Proof. solve_decision. Defined.

(** The monitor, and the parts of the process and of the running thread it
    works on: whether the panic hook and the handler of SIGURG are installed,
    the threads that were sent the signal, the thread's stack of current
    monitors (its depth), whether the thread masks the signal, the flag
    [PREEMPT_PENDING], and the boxes of the nodes in coroutine locals. *)
Record Mon : Type := mkMon {
  notify_queue : gset NotifyNode;
  m_state : MonitorState;
  m_thread : bool;
  m_blocker : bool;
  m_hook : bool;
  m_handler : bool;
  m_signals : list Z;
  m_tick : nat;
  MONITOR : nat;
  m_masked : bool;
  PREEMPT_PENDING : bool;
  m_nodes : gmap Z NotifyNode;
}.

Definition set_queue (x : gset NotifyNode) (m : Mon) : Mon :=
  mkMon x (m_state m) (m_thread m) (m_blocker m) (m_hook m) (m_handler m) (m_signals m) (m_tick m)
    (MONITOR m) (m_masked m) (PREEMPT_PENDING m) (m_nodes m).
Definition set_m_state (x : MonitorState) (m : Mon) : Mon :=
  mkMon (notify_queue m) x (m_thread m) (m_blocker m) (m_hook m) (m_handler m) (m_signals m)
    (m_tick m) (MONITOR m) (m_masked m) (PREEMPT_PENDING m) (m_nodes m).
Definition set_thread (x : bool) (m : Mon) : Mon :=
  mkMon (notify_queue m) (m_state m) x (m_blocker m) (m_hook m) (m_handler m) (m_signals m)
    (m_tick m) (MONITOR m) (m_masked m) (PREEMPT_PENDING m) (m_nodes m).
Definition set_blocker (x : bool) (m : Mon) : Mon :=
  mkMon (notify_queue m) (m_state m) (m_thread m) x (m_hook m) (m_handler m) (m_signals m)
    (m_tick m) (MONITOR m) (m_masked m) (PREEMPT_PENDING m) (m_nodes m).
Definition set_hooks (x y : bool) (m : Mon) : Mon :=
  mkMon (notify_queue m) (m_state m) (m_thread m) (m_blocker m) x y (m_signals m) (m_tick m)
    (MONITOR m) (m_masked m) (PREEMPT_PENDING m) (m_nodes m).
Definition set_signals (x : list Z) (m : Mon) : Mon :=
  mkMon (notify_queue m) (m_state m) (m_thread m) (m_blocker m) (m_hook m) (m_handler m) x
    (m_tick m) (MONITOR m) (m_masked m) (PREEMPT_PENDING m) (m_nodes m).
Definition set_m_tick (x : nat) (m : Mon) : Mon :=
  mkMon (notify_queue m) (m_state m) (m_thread m) (m_blocker m) (m_hook m) (m_handler m)
    (m_signals m) x (MONITOR m) (m_masked m) (PREEMPT_PENDING m) (m_nodes m).
Definition set_monitor (x : nat) (m : Mon) : Mon :=
  mkMon (notify_queue m) (m_state m) (m_thread m) (m_blocker m) (m_hook m) (m_handler m)
    (m_signals m) (m_tick m) x (m_masked m) (PREEMPT_PENDING m) (m_nodes m).
Definition set_masked (x : bool) (m : Mon) : Mon :=
  mkMon (notify_queue m) (m_state m) (m_thread m) (m_blocker m) (m_hook m) (m_handler m)
    (m_signals m) (m_tick m) (MONITOR m) x (PREEMPT_PENDING m) (m_nodes m).
Definition set_pending (x : bool) (m : Mon) : Mon :=
  mkMon (notify_queue m) (m_state m) (m_thread m) (m_blocker m) (m_hook m) (m_handler m)
    (m_signals m) (m_tick m) (MONITOR m) (m_masked m) x (m_nodes m).
Definition set_nodes (x : gmap Z NotifyNode) (m : Mon) : Mon :=
  mkMon (notify_queue m) (m_state m) (m_thread m) (m_blocker m) (m_hook m) (m_handler m)
    (m_signals m) (m_tick m) (MONITOR m) (m_masked m) (PREEMPT_PENDING m) x.

(** [Monitor::default] *)
Definition mon_default : Mon :=
  mkMon ∅ MCreated false false false false [] 0 0 false false ∅.

(** A client's extension of the world that has the monitor in it. *)
Class HasMon (X : Type) : Type := {
  mon : X → Mon;
  set_mon : Mon → X → X;
  mon_set_mon m x : mon (set_mon m x) = m;
  set_mon_set_mon m m' x : set_mon m (set_mon m' x) = set_mon m x;
  set_mon_mon x : set_mon (mon x) x = x;
}.

Section monitor.
(** What installing the handler and spawning the thread return. *)
Variable sigaction spawn : io_result unit.
(** The thread that runs, its clock readings as monitor thread, the order in which
    a hash set is walked, and what other threads do in the [k]-th wait. *)
Variable pthread_self : Z.
Variable mclock : nat → Z.
Variable walk : gset NotifyNode → list NotifyNode.
Variable others : nat → Mon → Mon.

(** ** The monitor *)

Definition mon_start : M Mon (io_result unit) :=
  st ← gets m_state;
  match st with
  | MCreated =>
      _ ← modify (set_m_state MRunning);
      _ ← modify (set_hooks true false);
      _ <-? mret sigaction;
      _ ← modify (set_hooks true true);
      _ <-? mret spawn;
      _ ← modify (set_thread true);
      mret (IoOk tt)
  | MRunning => mret (IoOk tt)
  | MStopping | MStopped => mret (IoErr (Unsupported "Restart operation is unsupported !"))
  end.

Definition mon_stop : M Mon unit := modify (set_m_state MStopping).

Definition mon_submit (timestamp : Z) : M Mon (io_result NotifyNode) :=
  _ <-? mon_start;
  let node := mkNode timestamp pthread_self in
  _ ← modify (λ m, set_queue ({[ node ]} ∪ notify_queue m) m);
  _ ← modify (set_blocker true);
  mret (IoOk node).

Definition mon_remove (node : NotifyNode) : M Mon bool := λ m,
  Done (bool_decide (node ∈ notify_queue m)) (set_queue (notify_queue m ∖ {[ node ]}) m).

(** ** The monitor thread *)

Definition m_now : M Mon Z := λ m, Done (mclock (m_tick m)) (set_m_tick (S (m_tick m)) m).

Fixpoint for_nodes (ns : list NotifyNode) : M Mon unit :=
  match ns with
  | [] => mret tt
  | node :: ns =>
      n ← m_now;
      _ ← (if n <? timestamp node then mret tt
           else modify (λ m, set_signals (m_signals m ++ [pthread node]) m));
      for_nodes ns
  end.

(** [blocker.block]: other threads run, then the condition is reset. *)
Definition mon_block (k : nat) : M Mon unit :=
  _ ← modify (others k); modify (set_blocker false).

Fixpoint monitor_loop (fuel k : nat) : M Mon unit :=
  match fuel with
  | O => out_of_fuel
  | S fuel =>
      m ← gets id;
      if bool_decide (m_state m = MRunning) || negb (bool_decide (notify_queue m = ∅)) then
        _ ← for_nodes (walk (notify_queue m));
        _ ← mon_block k;
        monitor_loop fuel (S k)
      else mret tt
  end.

Definition monitor_thread_main (fuel : nat) : M Mon unit :=
  _ ← modify (λ m, set_monitor (S (MONITOR m)) m);
  _ ← monitor_loop fuel 0;
  _ ← modify (λ m, set_monitor (pred (MONITOR m)) m);
  old ← gets m_state;
  _ ← modify (set_m_state MStopped);
  assert_ (bool_decide (old = MStopping)) "assertion failed".

(** ** On the threads of the coroutines *)

Context {R I X : Type} `{!EqDecision R, !HasMon X}.
Abbreviation W := (World unit R I X).
Variable clock : nat → Z.
Variable listener_call : nat → nat → event unit R → M W unit.

Definition on_mon {A} (m : M Mon A) : M W A := λ w,
  match m (mon (ext w)) with
  | Done a s => Done a (set_ext (set_mon s) w)
  | Panic msg s => Panic msg (set_ext (set_mon s) w)
  | NoFuel => NoFuel
  end.

(** An operation on the local storage of coroutine [h]. *)
Definition on_local {A} (h : nat) (m : M (Boxes NotifyNode) A) : M W A :=
  with_co h (λ c w,
    let put_back (s : Boxes NotifyNode) :=
      set_ext (λ x, set_mon (set_nodes s.2 (mon x)) x)
        (set_cos (alter (co_set_local s.1) h) w) in
    match m (co_local c, m_nodes (mon (ext w))) with
    | Done a s => Done a (put_back s)
    | Panic msg s => Panic msg (put_back s)
    | NoFuel => NoFuel
    end).

Definition NOTIFY_NODE : string := "MONITOR_NODE".

(** The time a coroutine may run: ten milliseconds. *)
Definition TIME_SLICE : Z := 10000000.

(** [MonitorListener]: the one callback it implements. *)
Definition monitor_listener (h : nat) (ev : event unit R) : M W unit :=
  match ev with
  | on_state_changed _ new_state =>
      depth ← gets (λ w, MONITOR (mon (ext w)));
      if bool_decide (depth ≠ 0%nat) then mret tt
      else
        match new_state with
        | Ready => mret tt
        | Running =>
            n ← now_ clock;
            r ← on_mon (mon_submit (get_timeout_time n TIME_SLICE));
            match r with
            | IoOk node => _ ← on_local h (put NOTIFY_NODE node); mret tt
            | IoErr _ => mret tt
            end
        | _ =>
            node ← on_local h (local_get NOTIFY_NODE);
            match node with
            | Some node => _ ← on_mon (mon_remove node); mret tt
            | None => mret tt
            end
        end
  | _ => mret tt
  end.

(** [sigurg_handler] up to the switch; [mask_ok] is whether the signal mask
    could be read. The result says whether the coroutine is switched away. *)
Definition may_preempt : M W bool :=
  co ← current;
  match co with
  | Some h => s ← state h; mret (match s with Running => true | _ => false end)
  | None => mret true
  end.

Definition suspend_current : M W bool :=
  susp ← gets (λ w, head (SUSPENDER (tls w)));
  match susp with
  | Some _ => _ ← suspend_enter; mret true
  | None => mret false
  end.

Definition sigurg_handler (mask_ok : bool) : M W bool :=
  if mask_ok then
    ok ← may_preempt;
    if (ok : bool) then _ ← on_mon (modify (set_masked false)); suspend_current
    else mret false
  else mret false.

(** [do_preempt] on Windows, up to the switch. *)
Definition do_preempt : M W bool :=
  pending ← gets (λ w, PREEMPT_PENDING (mon (ext w)));
  if (pending : bool) then
    _ ← on_mon (modify (set_pending false));
    ok ← may_preempt;
    if (ok : bool) then suspend_current else mret false
  else _ ← on_mon (modify (set_pending true)); mret false.

(** The panic hook; [print] is the printing, with what happens meanwhile. *)
Definition panic_hook (print : M W unit) : M W unit :=
  co ← current;
  _ ← match co with
      | Some h => _ ← syscall listener_call h tt panicking Executing; mret tt
      | None => mret tt
      end;
  _ ← print;
  co ← current;
  match co with
  | Some h => _ ← running clock listener_call h; mret tt
  | None => mret tt
  end.
End monitor.

(** ** The listener as a listener

    Every coroutine has the monitor's listener under the number [monitor_id]
    next to those of the client. *)

Section listener.
Context {R I X : Type} `{!EqDecision R, !HasMon X}.
Abbreviation W := (World unit R I X).
Context (sigaction spawn : io_result unit) (pthread_self : Z) (clock : nat → Z).
Context (monitor_id : nat) (other : nat → nat → event unit R → M W unit).
Implicit Types (w : W) (h : nat) (ev : event unit R) (m : Mon).

Definition with_monitor (l h : nat) (ev : event unit R) : M W unit :=
  if decide (l = monitor_id) then monitor_listener sigaction spawn pthread_self clock h ev
  else other l h ev.

(** A change of nothing but the monitor and coroutine locals. *)
Definition touches w w' : Prop :=
  keeps w w' ∧ dom (cos w') = dom (cos w) ∧ ext w' = set_mon (mon (ext w')) (ext w).

#[export] Instance touches_preorder : PreOrder touches.
Proof.
  split.
  - intros w. split_and!; [done..|]. by rewrite set_mon_mon.
  - intros w1 w2 w3 (Hk1 & Hd1 & H1) (Hk2 & Hd2 & H2).
    split_and!; [by etrans|congruence|]. rewrite H2 at 1. by rewrite H1, set_mon_set_mon.
Qed.

Lemma touches_tick w : touches w (tick_world w).
Proof.
  split_and!; simpl; [|done|by rewrite set_mon_mon].
  split_and!; simpl; [done|lia|]. intros h c Hc. exists (co_local c). by destruct c.
Qed.

Lemma touches_set_mon w m : touches w (set_ext (set_mon m) w).
Proof.
  split_and!; simpl; [|done|by rewrite mon_set_mon].
  split_and!; simpl; [done|lia|]. intros h c Hc. exists (co_local c). by destruct c.
Qed.

Lemma touches_local w h l : touches w (set_cos (alter (co_set_local l) h) w).
Proof.
  split_and!; simpl; [|by rewrite dom_alter_L|by rewrite set_mon_mon].
  split_and!; simpl; [done|lia|]. intros h' c Hc. destruct (decide (h = h')) as [->|Hne].
  - rewrite lookup_alter_eq, Hc. by exists l.
  - rewrite lookup_alter_ne by done. rewrite Hc. exists (co_local c). by destruct c.
Qed.

(** The computation returns or panics, and touches no more than it may. *)
Definition tame {A} (m : M W A) : Prop := ∀ w, ∃ w', touches w w'
  ∧ ((∃ a, m w = Done a w') ∨ ∃ msg, m w = Panic msg w').

Lemma tame_ret {A} (a : A) : tame (mret a).
Proof. intros w. exists w. split; [done|]. left. by exists a. Qed.

Lemma tame_bind {A B} (m : M W A) (k : A → M W B) : tame m → (∀ a, tame (k a)) → tame (m ≫= k).
Proof.
  intros Hm Hk w. destruct (Hm w) as (w1 & H1 & [[a Ha]|[msg Hp]]).
  - destruct (Hk a w1) as (w2 & H2 & Hr). exists w2. split; [by etrans|].
    by erewrite bind_done by exact Ha.
  - exists w1. split; [done|]. right. exists msg. munfold. by rewrite Hp.
Qed.

Lemma tame_gets {A} (f : W → A) : tame (gets f).
Proof. intros w. exists w. split; [done|]. left. by exists (f w). Qed.

Lemma tame_now : tame (now_ clock).
Proof. intros w. exists (tick_world w). split; [apply touches_tick|]. left. by eexists. Qed.

Lemma tame_on_mon {A} (m : M Mon A) : (∀ s, m s ≠ NoFuel) → tame (on_mon m).
Proof.
  intros Hm w. unfold on_mon. specialize (Hm (mon (ext w))).
  destruct (m (mon (ext w))) as [a s|msg s|]; [| |done];
    (eexists; split; [apply touches_set_mon|]; eauto).
Qed.

Lemma tame_on_local {A} h (m : M (Boxes NotifyNode) A) : (∀ s, m s ≠ NoFuel) → tame (on_local h m).
Proof.
  intros Hm w. unfold on_local, with_co. destruct (cos w !! h) as [c|] eqn:Hc.
  2:{ exists w. split; [done|]. right. by eexists. }
  specialize (Hm (co_local c, m_nodes (mon (ext w)))).
  assert (∀ s : Boxes NotifyNode, touches w (set_ext (λ x, set_mon (set_nodes s.2 (mon x)) x)
    (set_cos (alter (co_set_local s.1) h) w))) as Ht.
  { intros s. etrans; [apply (touches_local _ h s.1)|].
    apply (touches_set_mon _ (set_nodes s.2 (mon (ext w)))). }
  destruct (m _) as [a s|msg s|]; [| |done]; (eexists; split; [apply (Ht s)|eauto]).
Qed.

Lemma mon_submit_returns t m : mon_submit sigaction spawn pthread_self t m ≠ NoFuel.
Proof.
  unfold mon_submit, mon_start, try_. run. destruct (m_state m); simpl; try done.
  destruct sigaction; simpl; [|done]. by destruct spawn.
Qed.

Lemma put_returns key n (s : Boxes NotifyNode) : put key n s ≠ NoFuel.
Proof.
  unfold put, leak, dm_insert, map_, from_raw. munfold. simpl.
  destruct (s.1 !! key) as [p|]; [|done]. simpl. by destruct (_ !! p).
Qed.

Lemma local_get_returns key (s : Boxes NotifyNode) : local_get key s ≠ NoFuel.
Proof.
  unfold local_get, dm_get, map_, deref. munfold. simpl.
  destruct (s.1 !! key) as [p|]; [|done]. simpl. by destruct (_ !! p).
Qed.

Lemma monitor_listener_tame h ev :
  tame (monitor_listener sigaction spawn pthread_self clock h ev).
Proof.
  destruct ev as [old new|old|old|old|old|old|old r|old msg]; simpl; try apply tame_ret.
  apply tame_bind; [apply tame_gets|]. intros depth. case_bool_decide; [apply tame_ret|].
  assert (tame (node ← on_local h (local_get NOTIFY_NODE);
    match node with
    | Some node => _ ← on_mon (mon_remove node); mret tt
    | None => mret tt
    end)) as Hout.
  { apply tame_bind; [apply tame_on_local, local_get_returns|]. intros [node|]; [|apply tame_ret].
    apply tame_bind; [by apply tame_on_mon|]. intros. apply tame_ret. }
  destruct new; try exact Hout; try apply tame_ret.
  apply tame_bind; [apply tame_now|]. intros n.
  apply tame_bind; [apply tame_on_mon, mon_submit_returns|]. intros [node|]; [|apply tame_ret].
  apply tame_bind; [apply tame_on_local, put_returns|]. intros. apply tame_ret.
Qed.

(** A client's frame tolerates the monitor when it does not look at it. *)
Class Tolerant (wrel : W → W → Prop) : Prop := { tolerant w w' : touches w w' → wrel w w' }.

(** The monitor's listener keeps the contract of listeners. *)
Lemma with_monitor_ok (wrel : W → W → Prop) `{!Allowed wrel, !Tolerant wrel} :
  listeners_ok other wrel → listeners_ok with_monitor wrel.
Proof.
  intros Hok l h ev w. unfold with_monitor. destruct (decide (l = monitor_id)); [|apply Hok].
  destruct (monitor_listener_tame h ev w) as (w' & Ht & Hr). exists w'. split.
  - split; [apply Ht|by apply tolerant].
  - destruct Hr as [[[] Hd]|[msg Hp]]; [by left|right; by exists msg].
Qed.
End listener.

(** ** The queue and the running coroutines *)

Section watching.
Context {R I X : Type} `{!EqDecision R, !HasMon X}.
Abbreviation W := (World unit R I X).
Context (sigaction spawn : io_result unit) (pthread_self : Z) (clock : nat → Z).
Context (monitor_id : nat) (other : nat → nat → event unit R → M W unit).
Implicit Types (w : W) (h : nat) (ev : event unit R) (m : Mon) (n : NotifyNode).

Abbreviation monitor_listener := (monitor_listener sigaction spawn pthread_self clock).
Abbreviation with_monitor := (with_monitor sigaction spawn pthread_self clock monitor_id other).

(** The address of a coroutine's node, and the node. *)
Definition node_ptr w h : option Z := c ← cos w !! h; co_local c !! NOTIFY_NODE.
Definition node_of w h : option NotifyNode := p ← node_ptr w h; m_nodes (mon (ext w)) !! p.

(** A running coroutine that has the monitor's listener. *)
Definition watched w h : Prop := ∃ c, cos w !! h = Some c ∧ monitor_id ∈ co_listeners c.
Definition runs w h : Prop := watched w h ∧ co_state_of w h = Some Running.

(** What other listeners do: they leave the monitor and its nodes alone. *)
Definition quiet w w' : Prop :=
  mon (ext w') = mon (ext w)
  ∧ (∀ h, is_Some (cos w !! h) → node_ptr w' h = node_ptr w h)
  ∧ ∀ h c, cos w !! h = None → cos w' !! h = Some c →
      co_state c = Ready ∧ node_ptr w' h = None ∧ NoDup (co_listeners c).

#[export] Instance quiet_allowed : Allowed quiet.
Proof.
  split.
  - intros w. split_and!; [done..|]. intros h c H1 H2. by rewrite H1 in H2.
  - intros w. split_and!; [done..|]. intros h c H1 H2. simpl in H2. by rewrite H1 in H2.
  - intros w1 w2 w3 (_ & _ & Hk1) (Hm1 & Hp1 & Hn1) (_ & _ & Hk2) (Hm2 & Hp2 & Hn2).
    split_and!; [congruence| |].
    + intros h [c Hc]. destruct (Hk1 h c Hc) as [l Hl]. rewrite Hp2 by by eexists.
      apply Hp1. by eexists.
    + intros h c H1 H3. destruct (cos w2 !! h) as [c2|] eqn:H2; [|by apply (Hn2 h)].
      destruct (Hn1 h c2 H1 H2) as (Hst & Hpt & Hnd). destruct (Hk2 h c2 H2) as [l Hl].
      rewrite Hl in H3. injection H3 as <-. simpl. split_and!; try done.
      rewrite Hp2 by by eexists. done.
Qed.

(** The clock is strictly increasing and far from its end for the first [K]
    readings, and the monitor can be started. *)
Context (K : nat).
Context (Hclock : ∀ k, (k < K)%nat → clock k < clock (S k)).
Context (Hend : clock K + TIME_SLICE ≤ u64_max).
Context (Hsigaction : sigaction = IoOk tt) (Hspawn : spawn = IoOk tt).
Context (Hother : listeners_ok other quiet).

(** The invariant, for all coroutines but [x], whose node may be in the queue if
    [b] says so. *)
Record watch_inv (x : option nat) (b : bool) w : Prop := {
  wi_depth : MONITOR (mon (ext w)) = 0%nat;
  wi_state : m_state (mon (ext w)) = MCreated ∨ m_state (mon (ext w)) = MRunning;
  wi_listeners h c : cos w !! h = Some c → NoDup (co_listeners c);
  wi_alive h p : node_ptr w h = Some p → is_Some (m_nodes (mon (ext w)) !! p);
  wi_boxes h h' p : node_ptr w h = Some p → node_ptr w h' = Some p → h = h';
  wi_past h n : node_of w h = Some n → ∃ k, (k < w_tick w)%nat
    ∧ timestamp n = clock k + TIME_SLICE ∧ pthread n = pthread_self;
  wi_nodes h h' n : node_of w h = Some n → node_of w h' = Some n → h = h';
  wi_queue n : n ∈ notify_queue (mon (ext w)) → pthread n = pthread_self →
    (∃ h, Some h ≠ x ∧ runs w h ∧ node_of w h = Some n)
    ∨ b = true ∧ ∃ h, x = Some h ∧ node_of w h = Some n;
  wi_runs h : Some h ≠ x → runs w h → ∃ n, node_of w h = Some n ∧ n ∈ notify_queue (mon (ext w));
}.

Lemma clock_le j k : (j ≤ k)%nat → (k ≤ K)%nat → clock j ≤ clock k.
Proof.
  intros Hjk. induction Hjk as [|k Hjk IH]; intros Hk; [done|].
  specialize (IH ltac:(lia)). specialize (Hclock k ltac:(lia)). lia.
Qed.

Lemma clock_lt j k : (j < k)%nat → (k ≤ K)%nat → clock j < clock k.
Proof.
  intros Hjk Hk. pose proof (Hclock j ltac:(lia)). pose proof (clock_le (S j) k Hjk Hk). lia.
Qed.

(** Dereferencing goes through keeps. *)
Lemma keeps_listeners w w' h c : keeps w w' → cos w !! h = Some c →
  ∃ c', cos w' !! h = Some c' ∧ co_listeners c' = co_listeners c ∧ co_state c' = co_state c.
Proof. intros (_ & _ & Hk) Hc. destruct (Hk h c Hc) as [l Hl]. by exists (co_set_local l c). Qed.

Lemma keeps_runs w w' h : keeps w w' → is_Some (cos w !! h) → (runs w' h ↔ runs w h).
Proof.
  intros Hk [c Hc]. destruct (keeps_listeners w w' h c Hk Hc) as (c' & Hc' & Hl & Hs).
  unfold runs, watched, co_state_of. rewrite Hc, Hc'. simpl. rewrite Hs.
  split; intros [(d & [= <-] & Hd) Hr]; (split; [|done]); (eexists; split; [done|]; congruence).
Qed.

Lemma runs_dom w h : runs w h → is_Some (cos w !! h).
Proof. intros [(c & Hc & _) _]. by eexists. Qed.

Lemma node_ptr_dom w h p : node_ptr w h = Some p → is_Some (cos w !! h).
Proof. unfold node_ptr. destruct (cos w !! h); [by eexists|done]. Qed.

Lemma node_of_ptr w h n : node_of w h = Some n → ∃ p, node_ptr w h = Some p
  ∧ m_nodes (mon (ext w)) !! p = Some n.
Proof. unfold node_of. intros (p & Hp & Hn)%bind_Some. by exists p. Qed.

Lemma quiet_ptr w w' h : frame quiet w w' → node_ptr w' h = node_ptr w h.
Proof.
  intros [Hk (_ & Hp & Hn)]. destruct (cos w !! h) as [c|] eqn:Hc; [apply Hp; by eexists|].
  unfold node_ptr at 2. rewrite Hc. simpl. destruct (cos w' !! h) as [c'|] eqn:Hc'.
  - by apply (Hn h c').
  - unfold node_ptr. by rewrite Hc'.
Qed.

Lemma quiet_node w w' h : frame quiet w w' → node_of w' h = node_of w h.
Proof. intros Hf. unfold node_of. rewrite (quiet_ptr w w' h Hf). by destruct Hf as [_ (-> & _)]. Qed.

Lemma quiet_runs w w' h : frame quiet w w' → (runs w' h ↔ runs w h).
Proof.
  intros [Hk (_ & _ & Hn)]. destruct (cos w !! h) as [c|] eqn:Hc;
    [apply keeps_runs; [done|by eexists]|].
  split; intros Hr.
  - destruct (runs_dom _ _ Hr) as [c' Hc']. destruct (Hn h c' Hc Hc') as (Hs & _).
    destruct Hr as [_ Hr]. unfold co_state_of in Hr. rewrite Hc' in Hr. simpl in Hr. congruence.
  - destruct (runs_dom _ _ Hr) as [c' Hc']. congruence.
Qed.

Lemma quiet_inv x b w w' : frame quiet w w' → watch_inv x b w → watch_inv x b w'.
Proof.
  intros Hf [Hd Hs Hl Ha Hb Hp Hn Hq Hr]. pose proof Hf as [Hk (Hm & _ & Hnew)].
  split; rewrite ?Hm; try done.
  - intros h c Hc. destruct (cos w !! h) as [c0|] eqn:Hc0; [|by apply (Hnew h)].
    destruct (keeps_listeners w w' h c0 Hk Hc0) as (c' & Hc' & Hls & _). rewrite Hc in Hc'.
    injection Hc' as <-. rewrite Hls. by apply (Hl h).
  - intros h p. rewrite (quiet_ptr w w' h Hf). apply Ha.
  - intros h h' p. rewrite (quiet_ptr w w' h Hf), (quiet_ptr w w' h' Hf). apply Hb.
  - intros h n. rewrite (quiet_node w w' h Hf). intros (k & Hk' & ?)%Hp.
    exists k. destruct Hk as (_ & ? & _). split; [lia|done].
  - intros h h' n. rewrite (quiet_node w w' h Hf), (quiet_node w w' h' Hf). apply Hn.
  - intros n Hin Hth. destruct (Hq n Hin Hth) as [(h & ? & ? & ?)|(? & h & ? & ?)].
    + left. exists h. rewrite (quiet_runs w w' h Hf), (quiet_node w w' h Hf). done.
    + right. split; [done|]. exists h. by rewrite (quiet_node w w' h Hf).
  - intros h Hx Hrun. rewrite (quiet_node w w' h Hf). apply Hr; [done|].
    by apply (quiet_runs w w' h Hf).
Qed.

(** *** Changing the state of a coroutine *)

Lemma set_state_ptr h h' s w : node_ptr (set_cos (alter (co_set_state s) h) w) h' = node_ptr w h'.
Proof.
  unfold node_ptr. simpl. destruct (decide (h = h')) as [->|Hne].
  - rewrite lookup_alter_eq. by destruct (cos w !! h').
  - by rewrite lookup_alter_ne.
Qed.

Lemma set_state_node h h' s w : node_of (set_cos (alter (co_set_state s) h) w) h' = node_of w h'.
Proof. unfold node_of. by rewrite set_state_ptr. Qed.

Lemma set_state_runs h h' s w :
  h ≠ h' → (runs (set_cos (alter (co_set_state s) h) w) h' ↔ runs w h').
Proof. intros Hne. unfold runs, watched, co_state_of. simpl. by rewrite !lookup_alter_ne. Qed.

Lemma set_state_watched h h' s w :
  watched (set_cos (alter (co_set_state s) h) w) h' ↔ watched w h'.
Proof.
  unfold watched. simpl. destruct (decide (h = h')) as [->|Hne].
  - rewrite lookup_alter_eq. destruct (cos w !! h') as [c|]; simpl; [|done].
    split; intros (d & [= <-] & Hd); by eexists.
  - by rewrite lookup_alter_ne.
Qed.

Lemma set_state_listeners h s w :
  (∀ h' c, cos w !! h' = Some c → NoDup (co_listeners c)) →
  ∀ h' c, cos (set_cos (alter (co_set_state s) h) w) !! h' = Some c → NoDup (co_listeners c).
Proof.
  intros Hl h' c. simpl. destruct (decide (h = h')) as [->|Hne].
  - rewrite lookup_alter_eq. intros (d & Hd & ->)%fmap_Some. by apply (Hl h' d).
  - rewrite lookup_alter_ne by done. apply Hl.
Qed.

(** The coroutine becomes the exception; its node may be queued if it ran. *)
Lemma set_state_inv h s w c :
  cos w !! h = Some c → watch_inv None false w →
  watch_inv (Some h) (bool_decide (co_state c = Running)) (set_cos (alter (co_set_state s) h) w).
Proof.
  intros Hc [Hd Hs Hl Ha Hb Hp Hn Hq Hr]. split; simpl; try done.
  - by apply set_state_listeners.
  - intros h' p. rewrite set_state_ptr. apply Ha.
  - intros h1 h2 p. rewrite !set_state_ptr. apply Hb.
  - intros h' n. rewrite set_state_node. apply Hp.
  - intros h1 h2 n. rewrite !set_state_node. apply Hn.
  - intros n Hin Hth. destruct (Hq n Hin Hth) as [(h' & _ & Hrun & Hnode)|[? _]]; [|done].
    destruct (decide (h = h')) as [<-|Hne].
    + right. split; [|exists h; by rewrite set_state_node].
      destruct Hrun as [_ Hrun]. unfold co_state_of in Hrun. rewrite Hc in Hrun.
      apply bool_decide_eq_true. simpl in Hrun. congruence.
    + left. exists h'. rewrite set_state_node, set_state_runs by done. split_and!; congruence.
  - intros h' Hne Hrun. rewrite set_state_node. apply Hr; [done|].
    rewrite set_state_runs in Hrun; [done|congruence].
Qed.

(** A coroutine that is not watched may change its state freely. *)
Lemma set_state_unwatched h s w :
  ¬ watched w h → watch_inv None false w →
  watch_inv None false (set_cos (alter (co_set_state s) h) w).
Proof.
  intros Hw [Hd Hs Hl Ha Hb Hp Hn Hq Hr].
  assert (∀ h', runs (set_cos (alter (co_set_state s) h) w) h' ↔ runs w h') as Hruns.
  { intros h'. destruct (decide (h = h')) as [<-|Hne]; [|by apply set_state_runs].
    split; intros [Hx _]; exfalso; apply Hw; [by apply set_state_watched in Hx|done]. }
  split; simpl; try done.
  - by apply set_state_listeners.
  - intros h' p. rewrite set_state_ptr. apply Ha.
  - intros h1 h2 p. rewrite !set_state_ptr. apply Hb.
  - intros h' n. rewrite set_state_node. apply Hp.
  - intros h1 h2 n. rewrite !set_state_node. apply Hn.
  - intros n Hin Hth. destruct (Hq n Hin Hth) as [(h' & ? & Hrun & Hnode)|[? _]]; [|done].
    left. exists h'. by rewrite set_state_node, Hruns.
  - intros h' Hne Hrun. rewrite set_state_node. apply Hr; [done|]. by apply Hruns.
Qed.

(** *** The listener *)

(** Without the exception, if the node of [h] is not queued. *)
Lemma drop_exception h b w s :
  watch_inv (Some h) b w → co_state_of w h = Some s → s ≠ Running →
  (∀ n, n ∈ notify_queue (mon (ext w)) → node_of w h ≠ Some n) →
  watch_inv None false w.
Proof.
  intros [Hd Hs Hl Ha Hb Hp Hn Hq Hr] Hst Hne Hout. split; try done.
  - intros n Hin Hth. destruct (Hq n Hin Hth) as [(h' & ? & Hrun & Hnode)|(_ & h' & [= <-] & Hx)].
    + left. by exists h'.
    + by destruct (Hout n Hin).
  - intros h' _ Hrun. apply Hr; [|done]. intros [= ->]. destruct Hrun as [_ Hrun]. congruence.
Qed.

(** Only running coroutines have queued nodes. *)
Lemma exception_out h w n :
  watch_inv (Some h) false w → node_of w h = Some n → n ∉ notify_queue (mon (ext w)).
Proof.
  intros Hi Hn Hin. destruct (wi_past _ _ _ Hi h n Hn) as (_ & _ & _ & Hth).
  destruct (wi_queue _ _ _ Hi n Hin Hth) as [(h' & Hne & _ & Hn')|[? _]]; [|done].
  by rewrite (wi_nodes _ _ _ Hi h h' n Hn Hn') in Hne.
Qed.

Lemma local_get_node h w c :
  cos w !! h = Some c →
  (∀ p, node_ptr w h = Some p → is_Some (m_nodes (mon (ext w)) !! p)) →
  on_local h (local_get NOTIFY_NODE) w = Done (node_of w h) w.
Proof.
  intros Hc Ha. unfold on_local, with_co. rewrite Hc.
  assert (set_ext (λ x, set_mon (set_nodes (m_nodes (mon (ext w))) (mon x)) x)
    (set_cos (alter (co_set_local (co_local c)) h) w) = w) as Hid.
  { destruct w as [cs t k x]. unfold set_ext, set_cos. simpl in *. f_equal.
    - apply map_eq. intros h'. destruct (decide (h = h')) as [<-|Hne];
        [|by rewrite lookup_alter_ne].
      rewrite lookup_alter_eq, Hc. simpl. by destruct c.
    - transitivity (set_mon (mon x) x); [|apply set_mon_mon]. f_equal. by destruct (mon x). }
  unfold local_get, dm_get, map_, deref, node_of, node_ptr in *. rewrite Hc in *. munfold. simpl in *.
  destruct (co_local c !! NOTIFY_NODE) as [p|] eqn:Hp; simpl; [|by rewrite Hid].
  destruct (Ha p eq_refl) as [n Hn]. rewrite Hn. simpl. by rewrite Hid.
Qed.

(** A coroutine leaves the running state: its node leaves the queue. *)
Lemma listener_out h b w s w2 :
  watch_inv (Some h) b w → co_state_of w h = Some s → s ≠ Running →
  (node ← on_local h (local_get NOTIFY_NODE);
   match node with
   | Some node => _ ← on_mon (mon_remove node); mret tt
   | None => mret tt
   end) w = Done tt w2 →
  watch_inv None false w2.
Proof.
  intros Hi Hst Hs. assert (∃ c, cos w !! h = Some c) as [c Hc].
  { unfold co_state_of in Hst. destruct (cos w !! h); [by eexists|done]. }
  erewrite bind_done by (apply (local_get_node h w c Hc), Hi).
  destruct (node_of w h) as [n|] eqn:Hn.
  2:{ intros [= <-]. eapply drop_exception; try done. intros n _. congruence. }
  erewrite bind_done by reflexivity. intros [= <-].
  set (m := set_queue _ _). set (w2 := set_ext (set_mon m) w).
  assert (watch_inv (Some h) b w2) as Hi2.
  { destruct Hi as [Hd Hms Hl Ha Hb Hp Hnn Hq Hr].
    assert (mon (ext w2) = m) as Hm by apply mon_set_mon.
    assert (∀ h', node_of w2 h' = node_of w h') as Hnode.
    { intros h'. unfold node_of, node_ptr. rewrite Hm. done. }
    split; rewrite ?Hm; try done.
    - intros h' n'. rewrite Hnode. apply Hp.
    - intros h1 h2 n'. rewrite !Hnode. apply Hnn.
    - intros n' Hin Hth. destruct (Hq n') as [(h' & ? & ? & ?)|(-> & h' & ? & ?)];
        [set_solver|done|left; exists h'; by rewrite Hnode|].
      right. split; [done|]. exists h'. by rewrite Hnode.
    - intros h' Hne Hrun. rewrite Hnode. destruct (Hr h' Hne Hrun) as (n' & Hn' & Hin).
      exists n'. split; [done|]. simpl. apply elem_of_difference. split; [done|].
      intros ->%elem_of_singleton. apply Hne. by rewrite (Hnn h' h n). }
  eapply drop_exception; [exact Hi2|exact Hst|done|].
  intros n' Hin Hn'. unfold w2 in Hin. simpl in Hin. rewrite mon_set_mon in Hin.
  assert (node_of w2 h = node_of w h) as Heq.
  { unfold node_of, node_ptr. unfold w2. simpl. by rewrite mon_set_mon. }
  rewrite Heq, Hn in Hn'. injection Hn' as <-. simpl in Hin. set_solver.
Qed.

Lemma mon_submit_ok t m :
  m_state m = MCreated ∨ m_state m = MRunning →
  ∃ m', mon_submit sigaction spawn pthread_self t m = Done (IoOk (mkNode t pthread_self)) m'
    ∧ notify_queue m' = {[ mkNode t pthread_self ]} ∪ notify_queue m
    ∧ m_state m' = MRunning ∧ MONITOR m' = MONITOR m ∧ m_nodes m' = m_nodes m.
Proof.
  intros Hs. unfold mon_submit, mon_start. rewrite Hsigaction, Hspawn. munfold.
  destruct Hs as [E|E]; rewrite E; simpl; (eexists; split; [reflexivity|]); by simpl.
Qed.

(** Storing a node in a fresh box frees the box of the old one. *)
Definition new_box (old : option Z) (p : Z) n (nodes : gmap Z NotifyNode) : gmap Z NotifyNode :=
  match old with Some q => delete q (<[p := n]> nodes) | None => <[p := n]> nodes end.

Lemma new_box_same old p n nodes :
  (∀ q, old = Some q → q ≠ p) → new_box old p n nodes !! p = Some n.
Proof.
  intros Hq. destruct old as [q|]; simpl; [|by rewrite lookup_insert_eq].
  rewrite lookup_delete_ne by (by apply Hq). by rewrite lookup_insert_eq.
Qed.

Lemma new_box_other old p n nodes p' :
  old ≠ Some p' → p' ≠ p → new_box old p n nodes !! p' = nodes !! p'.
Proof.
  intros Hq Hp. destruct old as [q|]; simpl; [rewrite lookup_delete_ne by congruence|];
    by rewrite lookup_insert_ne by done.
Qed.

Lemma put_node h n w c :
  cos w !! h = Some c →
  (∀ p, node_ptr w h = Some p → is_Some (m_nodes (mon (ext w)) !! p)) →
  ∃ p r, m_nodes (mon (ext w)) !! p = None
    ∧ on_local h (put NOTIFY_NODE n) w = Done r
      (set_ext (λ x, set_mon (set_nodes (new_box (node_ptr w h) p n (m_nodes (mon (ext w))))
          (mon x)) x)
        (set_cos (alter (co_set_local (<[NOTIFY_NODE := p]> (co_local c))) h) w)).
Proof.
  intros Hc Ha. set (p := fresh (dom (m_nodes (mon (ext w))))). exists p.
  assert (m_nodes (mon (ext w)) !! p = None) as Hp by apply not_elem_of_dom, is_fresh.
  unfold on_local, with_co. rewrite Hc.
  unfold put, leak, dm_insert, map_, from_raw, node_ptr in *. rewrite Hc in *. munfold. simpl in *.
  fold p. destruct (co_local c !! NOTIFY_NODE) as [q|] eqn:Hq; simpl; [|by eexists].
  destruct (Ha q eq_refl) as [old Hold]. rewrite lookup_insert_ne by congruence.
  rewrite Hold. simpl. by eexists.
Qed.

(** [h] has been given the fresh node [n]. *)
Record started h n w w' : Prop := {
  st_mon : MONITOR (mon (ext w')) = MONITOR (mon (ext w)) ∧ m_state (mon (ext w')) = MRunning
    ∧ notify_queue (mon (ext w')) = {[ n ]} ∪ notify_queue (mon (ext w));
  st_tick : w_tick w' = S (w_tick w);
  st_listeners h' c' : cos w' !! h' = Some c' → ∃ c, cos w !! h' = Some c
    ∧ co_listeners c' = co_listeners c;
  st_runs h' : runs w' h' ↔ runs w h';
  st_new : ∃ p, node_ptr w' h = Some p ∧ m_nodes (mon (ext w)) !! p = None
    ∧ m_nodes (mon (ext w')) = new_box (node_ptr w h) p n (m_nodes (mon (ext w)));
  st_old h' : h' ≠ h → node_ptr w' h' = node_ptr w h';
}.

Lemma started_node h n b x w w' :
  started h n w w' → watch_inv x b w →
  node_of w' h = Some n ∧ ∀ h', h' ≠ h → node_of w' h' = node_of w h'.
Proof.
  intros [_ _ _ _ (p & Hp & Hfresh & Hnodes) Hold] Hi. unfold node_of. split.
  - rewrite Hp, Hnodes. apply new_box_same. intros q Hq.
    destruct (wi_alive _ _ _ Hi h q Hq). congruence.
  - intros h' Hne. rewrite (Hold h' Hne), Hnodes. destruct (node_ptr w h') as [p'|] eqn:E; [|done].
    simpl. destruct (wi_alive _ _ _ Hi h' p' E). apply new_box_other; [|congruence].
    intros Hq. by apply Hne, (wi_boxes _ _ _ Hi h' h p').
Qed.

Lemma started_boxes h n b x w w' h1 h2 p :
  started h n w w' → watch_inv x b w →
  node_ptr w' h1 = Some p → node_ptr w' h2 = Some p → h1 = h2.
Proof.
  intros [_ _ _ _ (p0 & Hp & Hfresh & _) Hold] Hi.
  destruct (decide (h1 = h)) as [->|H1], (decide (h2 = h)) as [->|H2]; intros Hp1 Hp2;
    rewrite ?Hold in * by done; try done.
  - destruct (wi_alive _ _ _ Hi h2 p Hp2). congruence.
  - destruct (wi_alive _ _ _ Hi h1 p Hp1). congruence.
  - by apply (wi_boxes _ _ _ Hi h1 h2 p).
Qed.

Lemma started_alive h n b x w w' h' p :
  started h n w w' → watch_inv x b w →
  node_ptr w' h' = Some p → is_Some (m_nodes (mon (ext w')) !! p).
Proof.
  intros Hst Hi Hp. destruct (started_node _ _ _ _ _ _ Hst Hi) as [Hn Ho].
  destruct (decide (h' = h)) as [->|Hne].
  - unfold node_of in Hn. rewrite Hp in Hn. by eexists.
  - specialize (Ho h' Hne). unfold node_of in Ho. rewrite Hp in Ho. simpl in Ho.
    rewrite Ho. rewrite (st_old _ _ _ _ Hst h' Hne) in Hp. rewrite Hp. simpl.
    by apply (wi_alive _ _ _ Hi h').
Qed.

Lemma started_inv h n w w' :
  started h n w w' → watch_inv (Some h) false w → runs w h →
  timestamp n = clock (w_tick w) + TIME_SLICE → pthread n = pthread_self → (w_tick w < K)%nat →
  watch_inv None false w'.
Proof.
  intros Hst Hi Hh Hts Hth Hk. destruct (started_node _ _ _ _ _ _ Hst Hi) as [Hn Ho].
  pose proof Hst as [(Hd & Hs & Hq) Htick Hl Hruns _ Hold].
  assert (∀ h', h' ≠ h → node_of w' h' ≠ Some n) as Hnew.
  { intros h' Hne. rewrite (Ho h' Hne). intros (k & Hk' & Hkt & _)%(wi_past _ _ _ Hi).
    pose proof (clock_lt k (w_tick w) Hk' ltac:(lia)). lia. }
  split; rewrite ?Hq.
  - rewrite Hd. apply Hi.
  - by right.
  - intros h' c' (c & Hc & ->)%Hl. by apply (wi_listeners _ _ _ Hi h').
  - intros h' p. by apply (started_alive _ _ _ _ _ _ h' p Hst Hi).
  - intros h1 h2 p. by apply (started_boxes _ _ _ _ _ _ h1 h2 p Hst Hi).
  - intros h' n' Hn'. rewrite Htick. destruct (decide (h' = h)) as [->|Hne].
    + exists (w_tick w). assert (n' = n) as -> by congruence. split; [lia|done].
    + rewrite (Ho h' Hne) in Hn'. destruct (wi_past _ _ _ Hi h' n' Hn') as (k & ? & ?).
      exists k. split; [lia|done].
  - intros h1 h2 n'. destruct (decide (h1 = h)) as [->|H1], (decide (h2 = h)) as [->|H2];
      intros E1 E2; try done.
    + destruct (Hnew h2 H2). congruence.
    + destruct (Hnew h1 H1). congruence.
    + rewrite Ho in E1, E2 by done. by apply (wi_nodes _ _ _ Hi h1 h2 n').
  - intros n' [->%elem_of_singleton|Hin]%elem_of_union Hth'; left.
    + exists h. by rewrite Hruns.
    + destruct (wi_queue _ _ _ Hi n' Hin Hth') as [(h' & Hne & Hrun & Hn')|[? _]]; [|done].
      exists h'. rewrite Ho by congruence. by rewrite Hruns.
  - intros h' _ Hrun. destruct (decide (h' = h)) as [->|Hne].
    + exists n. split; [done|]. set_solver.
    + rewrite (Ho h' Hne). destruct (wi_runs _ _ _ Hi h') as (n' & ? & ?);
        [congruence|by apply Hruns|]. exists n'. split; [done|]. set_solver.
Qed.

(** A coroutine starts to run: it gets a node of its own, which is queued. *)
Lemma listener_in h w w2 :
  watch_inv (Some h) false w → runs w h →
  (n ← now_ clock;
   r ← on_mon (mon_submit sigaction spawn pthread_self (get_timeout_time n TIME_SLICE));
   match r with
   | IoOk node => _ ← on_local h (put NOTIFY_NODE node); mret tt
   | IoErr _ => mret tt
   end) w = Done tt w2 → (w_tick w2 ≤ K)%nat →
  watch_inv None false w2.
Proof.
  intros Hi Hw. destruct (runs_dom _ _ Hw) as [c Hc].
  erewrite bind_done by reflexivity. set (w0 := mkWorld _ _ _ _).
  set (ts := get_timeout_time _ _).
  destruct (mon_submit_ok ts (mon (ext w)) (wi_state _ _ _ Hi))
    as (m1 & Hsub & Hq1 & Hs1 & Hd1 & Hn1).
  erewrite bind_done by (unfold on_mon; simpl; by rewrite Hsub).
  set (node := mkNode ts pthread_self). set (w1 := set_ext (set_mon m1) w0).
  assert (mon (ext w1) = m1) as Hm1 by apply mon_set_mon.
  destruct (put_node h node w1 c Hc) as (p & r & Hfresh & Hput).
  { rewrite Hm1, Hn1. apply (wi_alive _ _ _ Hi). }
  erewrite bind_done by exact Hput. intros [= <-] Htick. simpl in Htick. rewrite Hm1, Hn1 in Hfresh.
  assert (ts = clock (w_tick w) + TIME_SLICE) as Hts.
  { unfold ts, get_timeout_time, try_u64, sat_add. simpl.
    pose proof (clock_lt (w_tick w) K ltac:(lia) ltac:(lia)). unfold TIME_SLICE in *. simpl. lia. }
  apply (started_inv h node w); try done. split; simpl; rewrite ?mon_set_mon; try done.
  - intros h' c'. destruct (decide (h = h')) as [<-|Hne].
    + rewrite lookup_alter_eq, Hc. intros [= <-]. by exists c.
    + rewrite lookup_alter_ne by done. intros Hc'. by exists c'.
  - intros h'. unfold runs, watched, co_state_of. simpl. destruct (decide (h = h')) as [<-|Hne].
    + rewrite lookup_alter_eq, Hc. simpl. split; intros [(d & [= <-] & Hd) Hr];
        (split; [|done]); by eexists.
    + by rewrite lookup_alter_ne.
  - exists p. split_and!; [|done|by rewrite Hn1]. unfold node_ptr. simpl.
    rewrite lookup_alter_eq, Hc. simpl. by rewrite lookup_insert_eq.
  - intros h' Hne. unfold node_ptr. simpl. by rewrite lookup_alter_ne.
Qed.

Lemma listener_returns x b h old s w :
  watch_inv x b w → is_Some (cos w !! h) →
  ∃ w2, monitor_listener h (on_state_changed old s) w = Done tt w2.
Proof.
  intros Hi [c Hc]. unfold Monitor.monitor_listener. erewrite bind_done by reflexivity.
  rewrite (wi_depth _ _ _ Hi). simpl.
  assert (∃ w2, (node ← on_local h (local_get NOTIFY_NODE);
    match node with
    | Some node => _ ← on_mon (mon_remove node); mret tt
    | None => mret tt
    end) w = Done tt w2) as Hout.
  { erewrite bind_done by (apply (local_get_node h w c Hc), Hi).
    destruct (node_of w h); by eexists. }
  destruct s; try exact Hout; [by eexists|]. clear Hout.
  erewrite bind_done by reflexivity. set (w0 := mkWorld _ _ _ _).
  destruct (mon_submit_ok (get_timeout_time (clock (w_tick w)) TIME_SLICE) (mon (ext w))
    (wi_state _ _ _ Hi)) as (m1 & Hsub & _ & _ & _ & Hn1).
  erewrite bind_done by (unfold on_mon; simpl; by rewrite Hsub).
  set (node := mkNode _ _). set (w1 := set_ext (set_mon m1) w0).
  destruct (put_node h node w1 c Hc) as (p & r & _ & Hput).
  { unfold w1. simpl. rewrite mon_set_mon, Hn1. apply (wi_alive _ _ _ Hi). }
  erewrite bind_done by exact Hput. by eexists.
Qed.

Lemma listener_change h old s b w w2 :
  watch_inv (Some h) b w → watched w h → co_state_of w h = Some s →
  (b = true → s ≠ Ready ∧ s ≠ Running) →
  monitor_listener h (on_state_changed old s) w = Done tt w2 → (w_tick w2 ≤ K)%nat →
  watch_inv None false w2.
Proof.
  intros Hi Hw Hst Hb. unfold Monitor.monitor_listener. erewrite bind_done by reflexivity.
  rewrite (wi_depth _ _ _ Hi). simpl. destruct s; intros Hr Htick;
    try (by eapply (listener_out h b w); [..|exact Hr]).
  - injection Hr as <-. eapply (drop_exception h b); try done.
    intros n Hin Hn. destruct b; [by destruct Hb|].
    by apply (exception_out h w n Hi Hn).
  - destruct b; [by destruct Hb|]. by eapply listener_in.
Qed.

Definition is_change ev : bool := match ev with on_state_changed _ _ => true | _ => false end.

Lemma broadcast_quiet ls h ev w w' :
  is_change ev = false ∨ monitor_id ∉ ls →
  broadcast_to with_monitor ls h ev w = Done tt w' → frame quiet w w'.
Proof.
  intros Hcase. revert w. induction ls as [|l ls IH]; intros w; simpl; [by intros [= <-]|].
  assert (∃ w1, catch_unwind (with_monitor l h ev) w = Done (inl tt) w1 ∧ frame quiet w w1
    ∨ ∃ msg, catch_unwind (with_monitor l h ev) w = Done (inr msg) w1 ∧ frame quiet w w1)
    as (w1 & Hw1).
  { unfold Monitor.with_monitor. destruct (decide (l = monitor_id)) as [->|Hne].
    - destruct Hcase as [Hev|Hin]; [|set_solver]. exists w. left. split; [|done].
      by destruct ev.
    - destruct (Hother l h ev w) as (w1 & Hf & [Hr|[msg Hr]]); exists w1; unfold catch_unwind;
        rewrite Hr; [by left|right; by exists msg]. }
  destruct Hw1 as [[Hr Hf]|(msg & Hr & Hf)]; erewrite bind_done by exact Hr; intros Hb;
    (etrans; [exact Hf|]; apply IH; [|exact Hb]; destruct Hcase; [by left|right; set_solver]).
Qed.

Lemma broadcast_split ls h ev w w' :
  NoDup ls → monitor_id ∈ ls → broadcast_to with_monitor ls h ev w = Done tt w' →
  ∃ w1 w2 r, frame quiet w w1 ∧ catch_unwind (monitor_listener h ev) w1 = Done r w2
    ∧ frame quiet w2 w'.
Proof.
  revert w. induction ls as [|l ls IH]; intros w Hnd Hin; [set_solver|]. simpl.
  apply NoDup_cons in Hnd as [Hl Hnd]. intros (r & w1 & Hr & Hb)%bind_done_inv.
  unfold Monitor.with_monitor in Hr. destruct (decide (l = monitor_id)) as [->|Hne].
  - exists w, w1, r. split; [reflexivity|]. split; [exact Hr|].
    by apply (broadcast_quiet ls h ev); [right|].
  - apply elem_of_cons in Hin as [|Hin]; [congruence|].
    destruct (IH w1 Hnd Hin Hb) as (w2 & w3 & r' & ? & ? & ?).
    exists w2, w3, r'. split; [|done]. etrans; [|done].
    destruct (Hother l h ev w) as (w1' & Hf & Hc). unfold catch_unwind in Hr.
    by destruct Hc as [Hd|[msg Hd]]; rewrite Hd in Hr; injection Hr as <- <-.
Qed.

Lemma change_state_inv h s w c r w' :
  cos w !! h = Some c → (co_state c = Running → s ≠ Ready ∧ s ≠ Running) →
  watch_inv None false w → change_state with_monitor h s w = Done r w' → (w_tick w' ≤ K)%nat →
  watch_inv None false w'.
Proof.
  intros Hc Hs Hi Hch Htick. unfold change_state, state, with_co in Hch.
  munfold. rewrite Hc in Hch. set (w0 := set_cos (alter (co_set_state s) h) w) in *.
  assert (cos w0 !! h = Some (co_set_state s c)) as Hc0.
  { unfold w0. simpl. by rewrite lookup_alter_eq, Hc. }
  unfold set_state in Hch. munfold. unfold broadcast, with_co in Hch. fold w0 in Hch.
  rewrite Hc0 in Hch.
  destruct (broadcast_to _ _ _ _ w0) as [[] w1| |] eqn:Hb; [|done..]. injection Hch as _ <-.
  destruct (decide (monitor_id ∈ co_listeners c)) as [Hin|Hout].
  - destruct (broadcast_split _ _ _ _ _ (wi_listeners _ _ _ Hi h c Hc) Hin Hb)
      as (w2 & w3 & r' & Hf2 & Hr & Hf3).
    apply (quiet_inv None false w3); [done|].
    assert (watch_inv (Some h) (bool_decide (co_state c = Running)) w2) as Hi2.
    { by apply (quiet_inv _ _ w0), set_state_inv. }
    destruct (frame_dom quiet w0 w2 h) as [c2 Hc2]; [by eexists|done|].
    destruct (listener_returns _ _ h (co_state c) s w2 Hi2) as [w3' Hret]; [by eexists|].
    unfold catch_unwind in Hr. rewrite Hret in Hr. injection Hr as _ <-.
    apply (listener_change h (co_state c) s _ w2 w3' Hi2); try done.
    + apply (keeps_listeners w0 w2 h _ (proj1 Hf2)) in Hc0 as (d & Hd & Hl & _).
      exists d. split; [done|]. by rewrite Hl.
    + rewrite (frame_state quiet w0 w2 h) by (done || by eexists).
      unfold co_state_of. by rewrite Hc0.
    + intros Hb1. apply Hs. by apply bool_decide_eq_true in Hb1.
    + destruct Hf3 as [(_ & ? & _) _]. lia.
  - apply (quiet_inv None false w0).
    + by eapply broadcast_quiet; [right|exact Hb].
    + apply set_state_unwatched; [|done]. intros (d & Hd & Hl). congruence.
Qed.

(** *** Sequences of operations *)

Abbreviation run_op := (run_op clock with_monitor).
Abbreviation run_ops := (run_ops clock with_monitor).

(** An operation changes nothing, or the state of its coroutine, followed by
    a callback. *)
Lemma run_op_form h o w c :
  cos w !! h = Some c → ∃ w0, (w0 = w ∨ w0 = tick_world w)
    ∧ ((∃ r, run_op h o w = Done r w0)
       ∨ ∃ s (ev : CoroutineState unit R → event unit R),
           (∀ old, is_change (ev old) = false)
           ∧ (co_state c = Running → s ≠ Ready ∧ s ≠ Running)
           ∧ run_op h o w = (old_state ← change_state with_monitor h s;
               _ ← broadcast with_monitor h (ev old_state); mret (IoOk tt)) w0).
Proof.
  intros Hc. destruct o; simpl;
    unfold ready, running, suspend, syscall, cancel, complete, error;
    (rewrite (bind_done _ _ _ (co_state c) w); [|unfold state, with_co; by rewrite Hc]);
    destruct (co_state c) as [| |y t|y nm st'| |r|msg'] eqn:E; simpl;
    try (exists w; split; [by left|]; first
      [ left; by eexists
      | right; eexists _, _; split; [|split; [|reflexivity]]; [by intros|done] ]).
  - exists (tick_world w). split; [by right|]. erewrite bind_done by reflexivity.
    destruct (t <=? _); [|left; by eexists].
    right; eexists _, _; split; [|split; [|reflexivity]]; [by intros|done].
  - exists (tick_world w). split; [by right|]. erewrite bind_done by reflexivity.
    destruct (t <=? _); [|left; by eexists].
    right; eexists _, _; split; [|split; [|reflexivity]]; [by intros|done].
  - exists w. split; [by left|]. destruct st'; try (left; by eexists).
    right; eexists _, _; split; [|split; [|reflexivity]]; [by intros|done].
  - exists w. split; [by left|]. destruct (decide (nm = name)); [|left; by eexists].
    right; eexists _, _; split; [|split; [|reflexivity]]; [by intros|done].
Qed.

Lemma tick_watch_inv w : watch_inv None false w → watch_inv None false (tick_world w).
Proof. intros Hi. apply (quiet_inv None false w); [apply tick_frame; apply _|done]. Qed.

Lemma run_op_inv h o w r w' :
  is_Some (cos w !! h) → watch_inv None false w → run_op h o w = Done r w' →
  (w_tick w' ≤ K)%nat → watch_inv None false w'.
Proof.
  intros [c Hc] Hi Hr Htick. destruct (run_op_form h o w c Hc) as (w0 & Hw0 & Hform).
  assert (cos w0 !! h = Some c ∧ watch_inv None false w0) as [Hc0 Hi0].
  { destruct Hw0 as [->| ->]; [done|]. split; [done|by apply tick_watch_inv]. }
  destruct Hform as [[r' Hr']|(s & ev & Hev & Hs & Hr')]; rewrite Hr in Hr'; [by simplify_eq|].
  symmetry in Hr'. apply bind_done_inv in Hr' as (old & w1 & Hch & Hb).
  apply bind_done_inv in Hb as ([] & w2 & Hb & [= _ <-]).
  unfold broadcast, with_co in Hb. destruct (cos w1 !! h) as [c1|]; [|done].
  apply broadcast_quiet in Hb; [|left; apply Hev].
  apply (quiet_inv None false w1); [done|].
  eapply (change_state_inv h s w0 c old w1); try done. destruct Hb as [(_ & ? & _) _]. lia.
Qed.

Definition anything w w' : Prop := True.
#[local] Instance anything_allowed : Allowed anything.
Proof. by split. Qed.
#[local] Instance anything_tolerant : Tolerant anything.
Proof. by split. Qed.

Lemma with_monitor_any : listeners_ok with_monitor anything.
Proof.
  apply (with_monitor_ok _ _ _ _ _ _ anything). intros l h ev w.
  destruct (Hother l h ev w) as (w' & [Hk _] & Hr). exists w'. by split.
Qed.

Lemma run_op_total h o w :
  is_Some (cos w !! h) →
  ∃ r w', run_op h o w = Done r w' ∧ (w_tick w ≤ w_tick w')%nat
    ∧ ∀ h', is_Some (cos w !! h') → is_Some (cos w' !! h').
Proof.
  intros Hd. pose proof Hd as [c Hc].
  destruct (run_op_spec clock with_monitor anything with_monitor_any h o w c Hc)
    as (r & w' & Hr & Hp). exists r, w'. split; [done|]. split.
  - destruct r; [destruct Hp as (? & _ & [(_ & Ht & _) _])|destruct Hp as [[(_ & Ht & _) _] _]];
      exact Ht.
  - intros h' Hh'. by eapply (run_op_dom clock with_monitor anything with_monitor_any h h').
Qed.

Lemma run_ops_inv os w :
  watch_inv None false w → Forall (λ o, is_Some (cos w !! o.1)) os →
  ∃ w', run_ops os w = Done tt w' ∧ (w_tick w ≤ w_tick w')%nat
    ∧ ((w_tick w' ≤ K)%nat → watch_inv None false w').
Proof.
  revert w. induction os as [|[h o] os IH]; intros w Hi Hd; simpl; [by exists w|].
  apply Forall_cons in Hd as [Hh Hd]. simpl in Hh.
  destruct (run_op_total h o w Hh) as (r & w1 & Hr & Htick & Hdom).
  erewrite bind_done by exact Hr.
  assert (Forall (λ o, is_Some (cos w1 !! o.1)) os) as Hd1.
  { eapply Forall_impl; [exact Hd|]. intros o' Ho'. by apply Hdom. }
  destruct (decide (w_tick w1 ≤ K)%nat) as [Hle|Hgt].
  - destruct (IH w1) as (w' & Hr' & Ht' & Hi'); [by eapply run_op_inv|done|].
    exists w'. split_and!; [done|lia|done].
  - assert (∃ w', run_ops os w1 = Done tt w' ∧ (w_tick w1 ≤ w_tick w')%nat) as (w' & Hr' & Ht').
    { clear -Hd1 Hother. revert w1 Hd1. induction os as [|[h o] os IH]; intros w1 Hd1; simpl;
        [by exists w1|].
      apply Forall_cons in Hd1 as [Hh Hd]. destruct (run_op_total h o w1 Hh) as (r & w2 & Hr & Ht & Hdom).
      erewrite bind_done by exact Hr. destruct (IH w2) as (w' & Hr' & Ht').
      { eapply Forall_impl; [exact Hd|]. intros o' Ho'. by apply Hdom. }
      exists w'. split; [done|lia]. }
    exists w'. split_and!; [done|lia|lia].
Qed.


(** *** Preemption *)

(** The invariant looks at the coroutines and at four parts of the monitor. *)
Lemma same_watch x b w w' :
  cos w' = cos w → w_tick w' = w_tick w →
  notify_queue (mon (ext w')) = notify_queue (mon (ext w)) →
  m_state (mon (ext w')) = m_state (mon (ext w)) →
  MONITOR (mon (ext w')) = MONITOR (mon (ext w)) →
  m_nodes (mon (ext w')) = m_nodes (mon (ext w)) →
  watch_inv x b w → watch_inv x b w'.
Proof.
  intros Hc Ht Hq Hs Hm Hn [Hd Hms Hl Ha Hb Hp Hnn Hqq Hr].
  unfold node_of, node_ptr, runs, watched, co_state_of in *.
  split; unfold node_of, node_ptr, runs, watched, co_state_of; rewrite ?Hc, ?Ht, ?Hq, ?Hs, ?Hm, ?Hn;
    done.
Qed.

End watching.

(** ** The monitor thread *)

Section monitor_thread.
Context (sigaction spawn : io_result unit) (mclock : nat → Z).
Implicit Types (m : Mon) (n : NotifyNode) (q : gset NotifyNode).

(** What other threads do to the monitor. *)
Inductive mon_act : Mon → Mon → Prop :=
| act_submit th t r m m' : mon_submit sigaction spawn th t m = Done r m' → mon_act m m'
| act_remove n b m m' : mon_remove n m = Done b m' → mon_act m m'
| act_stop m m' : mon_stop m = Done tt m' → mon_act m m'.

Lemma mon_submit_running th t m :
  m_state m = MRunning →
  mon_submit sigaction spawn th t m = Done (IoOk (mkNode t th))
    (set_blocker true (set_queue ({[ mkNode t th ]} ∪ notify_queue m) m)).
Proof. intros Hs. unfold mon_submit, mon_start. munfold. by rewrite Hs. Qed.

Lemma mon_submit_over th t m :
  m_state m = MStopping ∨ m_state m = MStopped →
  mon_submit sigaction spawn th t m
    = Done (IoErr (Unsupported "Restart operation is unsupported !")) m.
Proof. intros [Hs|Hs]; unfold mon_submit, mon_start; munfold; by rewrite Hs. Qed.

(** A monitor that has been started runs until it is told to stop; its
    thread and the stack of the monitor thread are not touched by others. *)
Lemma mon_acts_started m m' :
  rtc mon_act m m' → m_state m = MRunning ∨ m_state m = MStopping →
  (m_state m' = MRunning ∨ m_state m' = MStopping) ∧ m_thread m' = m_thread m
  ∧ MONITOR m' = MONITOR m
  ∧ (m_state m = MStopping → m_state m' = MStopping ∧ notify_queue m' ⊆ notify_queue m).
Proof.
  induction 1 as [m|m m1 m' Hact _ IH]; intros Hs; [done|].
  assert ((m_state m1 = MRunning ∨ m_state m1 = MStopping) ∧ m_thread m1 = m_thread m
    ∧ MONITOR m1 = MONITOR m
    ∧ (m_state m = MStopping → m_state m1 = MStopping ∧ notify_queue m1 ⊆ notify_queue m))
    as (Hs1 & Ht1 & Hd1 & Hq1).
  { clear IH. destruct Hact as [th t r m m1 Hr|n b m m1 [= _ <-]|m m1 [= <-]]; simpl.
    - destruct Hs as [Hs|Hs].
      + rewrite (mon_submit_running th t m Hs) in Hr. injection Hr as _ <-. simpl.
        split_and!; try done; [by left|congruence].
      + rewrite (mon_submit_over th t m) in Hr by by left. injection Hr as _ <-.
        split_and!; try done. by right.
    - split_and!; try done. intros Hst. split; [done|set_solver].
    - split_and!; try done. by right. }
  destruct (IH Hs1) as (? & ? & ? & Hq). split_and!; try congruence.
  intros Hst. destruct (Hq1 Hst) as [Hs2 ?]. destruct (Hq Hs2). split; [done|set_solver].
Qed.

(** A monitor that could not be started pretends to run: when installing the
    handler or spawning the thread fails, the first submission reports the
    error, but the monitor is in the state of a running one; every later
    submission succeeds, and no thread that watches the queue is ever made. *)
Theorem failed_start_sticks th t m e :
  m_state m = MCreated → m_thread m = false →
  sigaction = IoErr e ∨ sigaction = IoOk tt ∧ spawn = IoErr e →
  ∃ m1, mon_submit sigaction spawn th t m = Done (IoErr e) m1
    ∧ ∀ m2, rtc mon_act m1 m2 → m_thread m2 = false
      ∧ (m_state m2 = MRunning →
         ∀ th' t', ∃ m3, mon_submit sigaction spawn th' t' m2 = Done (IoOk (mkNode t' th')) m3
           ∧ mkNode t' th' ∈ notify_queue m3 ∧ m_thread m3 = false).
Proof.
  intros Hs Ht Hfail.
  assert (∃ m1, mon_submit sigaction spawn th t m = Done (IoErr e) m1 ∧ m_state m1 = MRunning
    ∧ m_thread m1 = false) as (m1 & Hsub & Hs1 & Ht1).
  { unfold mon_submit, mon_start. munfold. rewrite Hs.
    destruct Hfail as [->|[-> ->]]; simpl; eexists; split; done. }
  exists m1. split; [done|]. intros m2 Hacts.
  destruct (mon_acts_started m1 m2 Hacts) as (_ & Hth & _); [by left|].
  split; [congruence|]. intros Hs2 th' t'. rewrite (mon_submit_running th' t' m2 Hs2).
  eexists. split; [reflexivity|]. simpl. split; [set_solver|congruence].
Qed.

Context (walk : gset NotifyNode → list NotifyNode) (Hwalk : ∀ q, walk q ≡ₚ elements q).

Definition due (now : Z) n : Prop := timestamp n ≤ now.

Lemma for_nodes_spec ns m :
  (∀ k, mclock k ≤ mclock (S k)) →
  ∃ ss k, for_nodes mclock ns m = Done tt (set_signals (m_signals m ++ ss) (set_m_tick k m))
    ∧ mclock (m_tick m) ≤ mclock k
    ∧ (∀ n, n ∈ ns → due (mclock (m_tick m)) n → pthread n ∈ ss)
    ∧ ∀ th, th ∈ ss → ∃ n, n ∈ ns ∧ pthread n = th ∧ due (mclock k) n.
Proof.
  intros Hmono. revert m. induction ns as [|n ns IH]; intros m; simpl.
  { exists [], (m_tick m). rewrite app_nil_r. split_and!; [by destruct m|lia|set_solver..]. }
  erewrite bind_done by reflexivity. pose proof (Hmono (m_tick m)) as Hstep.
  destruct (mclock (m_tick m) <? timestamp n) eqn:E; breflect; erewrite bind_done by reflexivity.
  - destruct (IH (set_m_tick (S (m_tick m)) m)) as (ss & k & Hr & Hk & Hall & Hsome). simpl in *.
    exists ss, k. split_and!; [exact Hr|lia| |].
    + intros n' [->|Hin]%elem_of_cons Hdue; unfold due in *; [lia|]. apply Hall; [done|].
      unfold due. lia.
    + intros th (n' & ? & ? & ?)%Hsome. exists n'. set_solver.
  - match goal with |- context [for_nodes mclock ns ?m1] => set (m1' := m1) end.
    destruct (IH m1') as (ss & k & Hr & Hk & Hall & Hsome). simpl in *.
    exists (pthread n :: ss), k. split_and!; [|lia| |].
    + rewrite Hr. unfold m1'. simpl. by rewrite <-app_assoc.
    + intros n' [->|Hin]%elem_of_cons Hdue; [set_solver|]. apply elem_of_cons. right.
      apply Hall; [done|]. unfold due in *. lia.
    + intros th [->|Hin]%elem_of_cons; [exists n; unfold due; split_and!; [set_solver|done|lia]|].
      destruct (Hsome th Hin) as (n' & ? & ? & ?). exists n'. set_solver.
Qed.

(** A round of the monitor signals exactly those who are due: every thread
    with a node that is due when the round starts is signalled, a signalled thread
    has a node that is due by the end of the round, and nodes are neither added nor
    removed. *)
Theorem round_signals_due q m :
  (∀ k, mclock k ≤ mclock (S k)) →
  ∃ ss k, for_nodes mclock (walk q) m
      = Done tt (set_signals (m_signals m ++ ss) (set_m_tick k m))
    ∧ (∀ n, n ∈ q → due (mclock (m_tick m)) n → pthread n ∈ ss)
    ∧ ∀ th, th ∈ ss → ∃ n, n ∈ q ∧ pthread n = th ∧ due (mclock k) n.
Proof.
  intros Hmono. destruct (for_nodes_spec (walk q) m Hmono) as (ss & k & Hr & _ & Hall & Hsome).
  exists ss, k. split_and!; [done| |].
  - intros n Hin. apply Hall. by rewrite Hwalk, elem_of_elements.
  - intros th Hin. destruct (Hsome th Hin) as (n & Hn & ?). exists n.
    by rewrite Hwalk, elem_of_elements in Hn.
Qed.

Context (others : nat → Mon → Mon) (Hothers : ∀ k m, rtc mon_act m (others k m)).

Definition quits m : Prop := m_state m = MStopping ∧ notify_queue m = ∅.

(** A round: the thread leaves, or it goes on after other threads have run. *)
Lemma monitor_loop_round fuel k m :
  (∀ j, mclock j ≤ mclock (S j)) → m_state m = MRunning ∨ m_state m = MStopping →
  monitor_loop mclock walk others (S fuel) k m = Done tt m ∧ quits m
  ∨ ∃ m1, monitor_loop mclock walk others (S fuel) k m
        = monitor_loop mclock walk others fuel (S k) (set_blocker false (others k m1))
      ∧ (m_state (others k m1) = MRunning ∨ m_state (others k m1) = MStopping)
      ∧ MONITOR (others k m1) = MONITOR m.
Proof.
  intros Hmono Hs. cbn [monitor_loop]. erewrite bind_done by reflexivity. simpl.
  destruct (bool_decide (m_state m = MRunning) || _) eqn:E.
  - right. destruct (for_nodes_spec (walk (notify_queue m)) m Hmono) as (ss & j & Hr & _).
    erewrite bind_done by exact Hr. set (m1 := set_signals _ _).
    erewrite bind_done by reflexivity. exists m1. split; [done|].
    by destruct (mon_acts_started _ _ (Hothers k m1) Hs) as (Hs2 & _ & Hd2 & _).
  - left. breflect. split; [done|]. split; [by destruct Hs|done].
Qed.

Lemma monitor_loop_stops N k m :
  (∀ j, mclock j ≤ mclock (S j)) →
  (m_state m = MRunning ∨ m_state m = MStopping) → (∀ m, quits (others (N + k) m)) →
  ∃ m', monitor_loop mclock walk others (S (S N)) k m = Done tt m' ∧ quits m'
    ∧ MONITOR m' = MONITOR m.
Proof.
  intros Hmono. revert k m. induction N as [|N IH]; intros k m Hs Hq.
  - destruct (monitor_loop_round 1 k m Hmono Hs) as [[Hr Hm]|(m1 & -> & Hs1 & Hd1)];
      [by exists m|]. exists (set_blocker false (others k m1)).
    destruct (monitor_loop_round 0 (S k) (set_blocker false (others k m1)) Hmono Hs1)
      as [[Hr Hm]|(m2 & Hr & _)]; [done|].
    destruct (Hq m1) as [Hst Hempty]. simpl in Hst, Hempty. cbn [monitor_loop].
    erewrite bind_done by reflexivity. simpl. unfold quits. simpl. rewrite Hst, Hempty.
    rewrite bool_decide_eq_false_2, bool_decide_eq_true_2 by done. by split_and!.
  - destruct (monitor_loop_round (S (S N)) k m Hmono Hs) as [[Hr Hm]|(m1 & -> & Hs1 & Hd1)];
      [by exists m|].
    destruct (IH (S k) (set_blocker false (others k m1)) Hs1) as (m' & Hr' & Hq' & Hd').
    + intros m3. replace (N + S k)%nat with (S N + k)%nat by lia. apply Hq.
    + exists m'. split_and!; [done..|]. by rewrite Hd'.
Qed.

(** C36. The monitor thread ends when it should: if at some point other threads
    have told it to stop and the last node is gone, the thread leaves its
    loop within one more round, the state is stopped, and the final check of the
    state succeeds. *)
Theorem monitor_thread_ends N m :
  (∀ j, mclock j ≤ mclock (S j)) → m_state m = MRunning → (∀ m', quits (others N m')) →
  ∃ m', monitor_thread_main mclock walk others (S (S N)) m = Done tt m'
    ∧ m_state m' = MStopped ∧ notify_queue m' = ∅ ∧ MONITOR m' = MONITOR m.
Proof.
  intros Hmono Hs Hq. unfold monitor_thread_main. erewrite bind_done by reflexivity.
  set (m1 := set_monitor _ m).
  destruct (monitor_loop_stops N 0 m1 Hmono) as (m2 & Hr & [Hst Hempty] & Hd);
    [by left|by rewrite Nat.add_0_r|].
  erewrite bind_done by exact Hr. repeat erewrite bind_done by reflexivity. simpl.
  rewrite Hst. eexists. split; [reflexivity|]. simpl. rewrite Hd. split_and!; try done.
Qed.
End monitor_thread.

(** ** The panic hook *)

Section hook.
Context {R I X : Type} `{!EqDecision R, !HasMon X}.
Abbreviation W := (World unit R I X).
Context (clock : nat → Z) (listener_call : nat → nat → event unit R → M W unit).
Context (wrel : W → W → Prop) `{!Allowed wrel} (lok : listeners_ok listener_call wrel).
Implicit Types (w : W) (h : nat).

(** Signals that arrive one after the other. *)
Fixpoint arrivals (k : nat) : M W unit :=
  match k with
  | O => mret tt
  | S k => _ ← sigurg_handler true; arrivals k
  end.

(** Only running coroutines are preempted. *)
Lemma handler_skips h s w b :
  head (COROUTINE (tls w)) = Some h → co_state_of w h = Some s → s ≠ Running →
  sigurg_handler b w = Done false w.
Proof.
  intros Hco Hs Hne. destruct b; [|done].
  unfold sigurg_handler, may_preempt, current, state, with_co, co_state_of in *. munfold.
  rewrite Hco. destruct (cos w !! h) as [c|]; [|done]. injection Hs as <-.
  by destruct (co_state c).
Qed.

Lemma arrivals_skip k h s w :
  head (COROUTINE (tls w)) = Some h → co_state_of w h = Some s → s ≠ Running →
  arrivals k w = Done tt w.
Proof.
  intros Hco Hs Hne. induction k as [|k IH]; [done|]. cbn [arrivals].
  by erewrite bind_done by (by apply (handler_skips h s)).
Qed.

(** A panic is reported without being preempted: while the hook prints,
    the coroutine is in a system call, so that signals leave it alone however
    many arrive; afterwards it is running again, also when the panic happened
    inside another system call, so that the panic can be recorded as the
    coroutine's error. *)
Theorem panic_hook_undisturbed k h w c :
  cos w !! h = Some c → head (COROUTINE (tls w)) = Some h →
  (co_state c = Running ∨ ∃ y nm, co_state c = Syscall y nm Executing) →
  ∃ w', panic_hook clock listener_call (arrivals k) w = Done tt w'
    ∧ co_state_of w' h = Some Running ∧ tls w' = tls w.
Proof.
  intros Hc Hco Hst. unfold panic_hook, current. erewrite bind_done by reflexivity. rewrite Hco.
  destruct (run_op_spec clock listener_call wrel lok h (OpSyscall tt panicking Executing) w c Hc)
    as (r & w1 & Hr & Hp). simpl in Hr.
  assert (∃ y nm, co_state_of w1 h = Some (Syscall y nm Executing)) as (y & nm & Hs1).
  { destruct r.
    - destruct Hp as (s & Hs & Hm). eexists _, _. rewrite (moved_state wrel h s w w1);
        [|by eexists|done]. inversion Hs; done.
    - destruct Hp as [Hf Hno]. rewrite (frame_state wrel w w1 h) by (done || by eexists).
      unfold co_state_of. rewrite Hc. simpl. destruct Hst as [E|(y & nm & E)].
      + destruct (Hno (Syscall tt panicking Executing)). rewrite E. constructor.
      + exists y, nm. by rewrite E. }
  assert (tls w1 = tls w) as Ht1.
  { by apply (run_op_tls clock listener_call wrel lok h (OpSyscall tt panicking Executing) w r w1). }
  erewrite bind_done by (by erewrite bind_done by exact Hr).
  erewrite bind_done by (eapply arrivals_skip; [by rewrite Ht1|exact Hs1|done]).
  erewrite bind_done by reflexivity. rewrite Ht1, Hco.
  assert (∃ c1, cos w1 !! h = Some c1 ∧ co_state c1 = Syscall y nm Executing) as (c1 & Hc1 & Hcs1).
  { unfold co_state_of in Hs1. destruct (cos w1 !! h) as [c1|]; [|done]. exists c1.
    split; [done|]. simpl in Hs1. congruence. }
  destruct (run_op_spec clock listener_call wrel lok h OpRunning w1 c1 Hc1)
    as (r2 & w2 & Hr2 & Hp2). simpl in Hr2.
  erewrite bind_done by exact Hr2. exists w2. split; [done|].
  split; [|rewrite <-Ht1; by apply (run_op_tls clock listener_call wrel lok h OpRunning w1 r2 w2)].
  destruct r2.
  - destruct Hp2 as (s & Hs & Hm). rewrite (moved_state wrel h s w1 w2); [|by eexists|done].
    rewrite Hcs1 in Hs. by inversion Hs.
  - destruct Hp2 as [_ Hno]. destruct (Hno Running). rewrite Hcs1. constructor.
Qed.
End hook.
