(* ===== verification/MonitorRuns.v ===== *)
(** * MonitorRuns: the monitor at work

    The monitor as part of a scheduler's world (its listener keeps the
    scheduler's contract), and concrete monitors, coroutines and signals on
    which the theorems of [Monitor] are applied. *)

From stdpp Require Import sorting base numbers strings gmap list.
From S2P Require Import Prelude Common QueueIface Beans Coroutine Scheduler Monitor.

(** ** In the scheduler *)

Section in_scheduler.
Context {Q I X : Type} `{!PQueue nat Q, !HasMon X}.
Abbreviation S' := (Sched Q X).
Abbreviation W := (World unit (option Z) I S').

Definition sched_set_ext (x : X) (s : S') : S' :=
  mkSched (s_name s) (s_stack_size s) (s_listeners s) (s_ready s) (s_suspend s) (s_syscall s)
    (s_syscall_suspend s) (RUNNING_COROUTINES s) (CANCEL_COROUTINES s) (SCHEDULER s) x.

#[export] Program Instance sched_has_mon : HasMon S' := {
  mon s := mon (s_ext s);
  set_mon m s := sched_set_ext (set_mon m (s_ext s)) s;
}.
Next Obligation. intros m s. simpl. apply mon_set_mon. Qed.
Next Obligation. intros m m' s. unfold sched_set_ext. simpl. by rewrite set_mon_set_mon. Qed.
Next Obligation. intros [????? ??????]. unfold sched_set_ext. simpl. by rewrite set_mon_mon. Qed.

Lemma touches_store_ok (w w' : W) : touches w w' → store_ok w → store_ok w'.
Proof.
  intros ((_ & _ & Hk) & Hd & _) [Hu Hs].
  assert (∀ h c', cos w' !! h = Some c' → ∃ c, cos w !! h = Some c ∧ co_id c' = co_id c) as Hback.
  { intros h c' Hc'. assert (h ∈ dom (cos w)) as [c Hc]%elem_of_dom.
    { rewrite <-Hd. by apply elem_of_dom_2 in Hc'. }
    exists c. split; [done|]. destruct (Hk h c Hc) as [l Hl]. by simplify_eq. }
  split.
  - intros h h' c c' (d & Hd1 & E1)%Hback (d' & Hd2 & E2)%Hback Hid.
    by apply (Hu h h' d d'); [..|congruence].
  - by rewrite <-(size_dom (D := gset nat)), Hd, size_dom.
Qed.

#[export] Instance sched_rel_tolerant : Tolerant (R := option Z) (I := I) (X := S') sched_rel.
Proof.
  split. intros w w' Ht. pose proof Ht as (_ & _ & He). pose proof (touches_store_ok w w' Ht) as Hok.
  unfold sched_rel. rewrite He in *. simpl.
  split_and!; try done. exists []. split_and!; try done; [constructor|]. intros h Hh. set_solver.
Qed.

(** A scheduler whose coroutines have the monitor's listener is a scheduler: the
    listener keeps the contract under which the scheduler was verified. *)
Lemma monitored_listeners_ok sigaction spawn pthread_self clock monitor_id
  (other : nat → nat → event unit (option Z) → M W unit) :
  listeners_ok other sched_rel →
  listeners_ok (with_monitor sigaction spawn pthread_self clock monitor_id other) sched_rel.
Proof. intros Hok. apply (with_monitor_ok _ _ _ _ _ _ _ Hok). Qed.
End in_scheduler.

(** ** Runs *)

Module MonitorRun.

#[export] Program Instance mon_has_mon : HasMon Mon := { mon := id; set_mon m _ := m }.
Solve All Obligations with done.

Abbreviation W := (World unit (option Z) unit Mon).

Definition ticks (k : nat) : Z := 100 * Z.of_nat k.
Definition silent (_ _ : nat) (_ : event unit (option Z)) : M W unit := mret tt.
Definition fine : io_result unit := IoOk tt.

Lemma silent_quiet : listeners_ok silent quiet.
Proof. intros l h ev w. exists w. split; [|by left]. split; [done|]. apply (allowed_refl w). Qed.

Definition co_in (id : Z) (st : CoroutineState unit (option Z)) : Coroutine unit (option Z) unit :=
  mkCo id "co" tt st [] [7%nat] ∅ None.

Definition two_ready : W :=
  mkWorld {[ 0%nat := co_in 1 Ready; 1%nat := co_in 2 Ready ]} (mkTls [] [] [] [] []) 0 mon_default.

Lemma ready_inv : watch_inv 9 ticks 7 None false two_ready.
Proof.
  assert (∀ h, node_ptr two_ready h = None) as Hptr.
  { intros h. unfold node_ptr. simpl. destruct (_ !! h) as [c|] eqn:E; [|done].
    apply lookup_insert_Some in E as [[_ <-]|[_ E]]; [done|].
    by apply lookup_singleton_Some in E as [_ <-]. }
  split; try done; unfold node_of; try (intros *; rewrite ?Hptr; done).
  - by left.
  - intros h c. simpl. intros [[_ <-]|[_ [_ <-]%lookup_singleton_Some]]%lookup_insert_Some;
      apply NoDup_singleton.
  - intros h _ [_ Hst]. exfalso. unfold co_state_of in Hst. simpl in Hst.
    destruct (_ !! h) as [c|] eqn:E; [|done].
    by apply lookup_insert_Some in E as [[_ <-]|[_ [_ <-]%lookup_singleton_Some]].
Qed.

(** Both start, the first makes a system call, the second goes to sleep, the
    first runs on. *)
Definition script : list (nat * op unit (option Z)) :=
  [(0, OpRunning); (1, OpRunning); (0, OpSyscall tt Common.read Executing); (1, OpSuspend tt 0);
   (0, OpRunning)]%nat.


Example script_queue :
  match run_ops ticks (with_monitor fine fine 9 ticks 7 silent) script two_ready with
  | Done _ w => elements (notify_queue (ext w)) = [mkNode (200 + TIME_SLICE) 9]
  | _ => False
  end.
Proof. vm_compute. reflexivity. Qed.

(** *** A signal reaches a running coroutine *)

Definition on_stack : W := set_tls (λ _, mkTls [] [] [0%nat] [0%nat] []) two_ready.

Lemma on_stack_inv : watch_inv 9 ticks 7 None false on_stack.
Proof. by apply (same_watch 9 ticks 7 None false two_ready), ready_inv. Qed.

Definition done_world {A} (w0 : W) (r : outcome W A) : W :=
  match r with Done _ w => w | _ => w0 end.

Abbreviation listeners := (with_monitor fine fine 9 ticks 7 silent).

Definition first_runs : W :=
  done_world on_stack (run_ops ticks listeners [(0%nat, OpRunning)] on_stack).

Lemma ticks_mono k : ticks k < ticks (S k).
Proof. unfold ticks. lia. Qed.

Lemma ticks_end : ticks 10 + TIME_SLICE ≤ u64_max.
Proof. unfold ticks, TIME_SLICE, u64_max. lia. Qed.

Lemma first_runs_inv : watch_inv 9 ticks 7 None false first_runs.
Proof.
  destruct (run_ops_inv fine fine 9 ticks 7 silent 10 (λ k _, ticks_mono k) ticks_end eq_refl
    eq_refl silent_quiet [(0%nat, OpRunning)] on_stack on_stack_inv) as (w' & Hr & _ & Hi).
  { apply Forall_cons. split; [by eexists|by apply Forall_nil]. }
  unfold first_runs. rewrite Hr. simpl. apply Hi.
  assert (w_tick (done_world on_stack (run_ops ticks listeners [(0%nat, OpRunning)] on_stack))
    = 1%nat) as Ht by (vm_compute; reflexivity).
  rewrite Hr in Ht. simpl in Ht. lia.
Qed.


Definition any (_ _ : W) : Prop := True.
#[export] Instance any_allowed : Allowed any.
Proof. by split. Qed.

Lemma silent_any : listeners_ok silent any.
Proof. intros l h ev w. exists w. split; [done|by left]. Qed.

Lemma panic_hook_undisturbed_witness :
  ∃ w', panic_hook ticks silent (arrivals 3) first_runs = Done tt w'
    ∧ co_state_of w' 0 = Some Running ∧ tls w' = tls first_runs.
Proof.
  eapply (panic_hook_undisturbed ticks silent any silent_any 3 0 first_runs).
  - vm_compute. reflexivity.
  - vm_compute. reflexivity.
  - left. vm_compute. reflexivity.
Defined.

(** *** The monitor thread *)

Lemma failed_start_sticks_witness :
  ∃ m1, mon_submit (IoErr (OsError 22)) fine 9 5 mon_default = Done (IoErr (OsError 22)) m1
    ∧ ∀ m2, rtc (mon_act (IoErr (OsError 22)) fine) m1 m2 → m_thread m2 = false
      ∧ (m_state m2 = MRunning →
         ∀ th' t', ∃ m3, mon_submit (IoErr (OsError 22)) fine th' t' m2
             = Done (IoOk (mkNode t' th')) m3
           ∧ mkNode t' th' ∈ notify_queue m3 ∧ m_thread m3 = false).
Proof.
  apply (failed_start_sticks (IoErr (OsError 22)) fine 9 5 mon_default (OsError 22)).
  - reflexivity.
  - reflexivity.
  - left. reflexivity.
Defined.

Definition two_nodes : gset NotifyNode := {[ mkNode 150 1; mkNode 900 2 ]}.
Definition watching : Mon :=
  mkMon two_nodes MRunning true false true true [] 2 0 false false ∅.

(** At time 200 the first of two nodes is due. *)
Lemma round_signals_due_witness :
  ∃ ss k, for_nodes ticks (elements two_nodes) watching
      = Done tt (set_signals (m_signals watching ++ ss) (set_m_tick k watching))
    ∧ (∀ n, n ∈ two_nodes →
         due (ticks (m_tick watching)) n → pthread n ∈ ss)
    ∧ ∀ th, th ∈ ss → ∃ n, n ∈ two_nodes
        ∧ pthread n = th ∧ due (ticks k) n.
Proof.
  apply (round_signals_due ticks elements (λ q, reflexivity _)
    two_nodes watching).
  intros k. unfold ticks. lia.
Defined.

(** In the second wait a thread stops the monitor and takes the nodes out. *)
Definition stops_at (k : nat) (m : Mon) : Mon :=
  match k with
  | 1%nat => set_queue (notify_queue m ∖ notify_queue m) (set_m_state MStopping m)
  | _ => m
  end.

Lemma remove_all (ns : list NotifyNode) m :
  rtc (mon_act fine fine) m (set_queue (notify_queue m ∖ list_to_set ns) m).
Proof.
  revert m. induction ns as [|n ns IH]; intros m; simpl.
  - rewrite difference_empty_L. by destruct m.
  - eapply rtc_l; [by eapply (act_remove _ _ n)|].
    specialize (IH (set_queue (notify_queue m ∖ {[n]}) m)). simpl in IH.
    replace (notify_queue m ∖ {[n]} ∖ list_to_set ns)
      with (notify_queue m ∖ ({[n]} ∪ list_to_set ns)) in IH by set_solver. exact IH.
Qed.

Lemma stops_at_acts k m : rtc (mon_act fine fine) m (stops_at k m).
Proof.
  destruct k as [|[|k]]; simpl; [done| |done].
  eapply rtc_l; [by apply act_stop|].
  pose proof (remove_all (elements (notify_queue m)) (set_m_state MStopping m)) as Hr.
  rewrite list_to_set_elements_L in Hr. exact Hr.
Qed.

Lemma monitor_thread_ends_witness :
  ∃ m', monitor_thread_main ticks elements stops_at 3 watching = Done tt m'
    ∧ m_state m' = MStopped ∧ notify_queue m' = ∅ ∧ MONITOR m' = 0%nat.
Proof.
  apply (monitor_thread_ends fine fine ticks elements (λ q, reflexivity _) stops_at stops_at_acts 1
    watching).
  - intros j. unfold ticks. lia.
  - reflexivity.
  - intros m'. split; [reflexivity|]. simpl. set_solver.
Defined.

Example monitor_thread_signals :
  match monitor_thread_main ticks elements stops_at 3 watching with
  | Done _ m => m_signals m = [1; 1]
  | _ => False
  end.
Proof. vm_compute. reflexivity. Qed.

(** *** The two levels of preemption on Windows *)

(** The first coroutine is asked to yield and does; then the second is resumed
    and asked once. *)
Definition asked_once : M W (bool * bool) :=
  a ← do_preempt;
  _ ← suspend listeners 0 tt 0;
  _ ← clean_current;
  _ ← susp_clean_current;
  _ ← init_current 1;
  _ ← running ticks listeners 1;
  _ ← body_enter 1;
  b ← do_preempt;
  mret (a, b).

(** The flag of the first level of preemption belongs to the thread and
    outlives the coroutine it was meant for: a coroutine that yields after
    being asked leaves the flag set, and the next coroutine of the thread is
    suspended by force the first time it is asked. *)
Theorem pending_outlives_coroutine :
  ∃ w, asked_once first_runs = Done (false, true) w
    ∧ co_state_of w 0 = Some (Suspend tt 0) ∧ co_state_of w 1 = Some Running
    ∧ SUSPENDER (tls w) = [].
Proof. eexists. split; [vm_compute; reflexivity|]. vm_compute. done. Qed.
End MonitorRun.
