(* ===== verification/Preempt.v ===== *)
(** * Preempt: redirecting a suspended thread on Windows

    Models [Monitor::preempt_thread] and the two assembly stubs [preempt_asm]
    of [core/src/monitor.rs] (x86_64 and i686): the monitor suspends a thread,
    pushes the address of [do_preempt] and the thread's instruction
    pointer onto its stack and lets it go on in the stub, which saves all
    registers, calls the function and restores everything. Instructions
    are data for a small machine with bytes as memory; the called function is a
    parameter that keeps the calling convention. *)

From stdpp Require Import sorting base numbers strings gmap list.
From S2P Require Import Prelude.

(** ** Bytes *)

Fixpoint load (m : Z → Z) (a : Z) (n : nat) : Z :=
  match n with
  | O => 0
  | S n => m a + 256 * load m (a + 1) n
  end.

Definition store (m : Z → Z) (a : Z) (n : nat) (v : Z) : Z → Z := λ x,
  if (a <=? x) && (x <? a + Z.of_nat n) then (v / 256 ^ (x - a)) mod 256 else m x.

(** ** The machine *)

Inductive reg : Type :=
| RAX | RCX | RDX | RBX | RBP | RSI | RDI | R8 | R9 | R10 | R11 | R12 | R13 | R14 | R15 | RSP.

#[global] Instance reg_eq_dec : EqDecision reg.
Proof. solve_decision. Defined.

(** The instructions the stubs use; the 32-bit stub uses the same ones on the
    lower halves of the registers. *)
Inductive instr : Type :=
| pushf
| push (r : reg)
| sub_rsp (n : Z)
| movups_st (off : Z) (i : nat)
| mov (dst src : reg)
| and_rsp_16
| mov_ld (dst base : reg) (off : Z)
| call (r : reg)
| movups_ld (i : nat) (off : Z)
| add_rsp (n : Z)
| pop (r : reg)
| popf
| ret.

Record Cpu : Type := mkCpu {
  regs : reg → Z;
  xmm : nat → Z;
  flags : Z;
  ip : Z;
  mem : Z → Z;
}.

Definition set_reg (r : reg) (v : Z) (s : Cpu) : Cpu :=
  mkCpu (λ r', if decide (r' = r) then v else regs s r') (xmm s) (flags s) (ip s) (mem s).
Definition set_xmm (i : nat) (v : Z) (s : Cpu) : Cpu :=
  mkCpu (regs s) (λ j, if decide (j = i) then v else xmm s j) (flags s) (ip s) (mem s).
Definition set_flags (v : Z) (s : Cpu) : Cpu := mkCpu (regs s) (xmm s) v (ip s) (mem s).
Definition set_ip (v : Z) (s : Cpu) : Cpu := mkCpu (regs s) (xmm s) (flags s) v (mem s).
Definition set_mem (m : Z → Z) (s : Cpu) : Cpu := mkCpu (regs s) (xmm s) (flags s) (ip s) m.

Section machine.
(** The bytes of a word: 8 or 4. *)
Variable word : nat.
(** Running the function at an address to its return; the address pushed by
    [call]. *)
Variable call_fn : Z → Cpu → Cpu.
Variable return_address : Z.

Definition w_bits : Z := 8 * Z.of_nat word.
Definition W_ : Z := Z.of_nat word.

(** The status flags (carry 0, parity 2, adjust 4, zero 6, sign 7, overflow 11)
    after an arithmetic instruction with the given result; the other flags
    stay. [and] leaves the adjust flag undefined: cleared here. *)
Definition parity (x : Z) : bool :=
  negb (foldr xorb false (Z.testbit x <$> seqZ 0 8)).
Definition sign (x : Z) : bool := Z.testbit x (w_bits - 1).
Definition status (old res : Z) (cf af ovf : bool) : Z :=
  Z.lor (Z.land old (Z.lnot 2261))
    (Z.b2z cf + 4 * Z.b2z (parity res) + 16 * Z.b2z af + 64 * Z.b2z (res =? 0)
     + 128 * Z.b2z (sign res) + 2048 * Z.b2z ovf).
Definition add_flags (old a b : Z) : Z :=
  let res := wrap w_bits (a + b) in
  status old res (2 ^ w_bits <=? a + b) (16 <=? a mod 16 + b mod 16)
    (eqb (sign a) (sign b) && negb (eqb (sign res) (sign a))).
Definition sub_flags (old a b : Z) : Z :=
  let res := wrap w_bits (a - b) in
  status old res (a <? b) (a mod 16 <? b mod 16)
    (negb (eqb (sign a) (sign b)) && negb (eqb (sign res) (sign a))).
Definition and_flags (old res : Z) : Z := status old res false false false.

(** Address arithmetic wraps around. *)
Definition move_rsp (d : Z) (s : Cpu) : Cpu := set_reg RSP (wrap w_bits (regs s RSP + d)) s.
Definition push_val (v : Z) (s : Cpu) : Cpu :=
  let s := move_rsp (- W_) s in set_mem (store (mem s) (regs s RSP) word v) s.
Definition top_val (s : Cpu) : Z := load (mem s) (regs s RSP) word.

Definition exec (i : instr) (s : Cpu) : Cpu :=
  match i with
  | pushf => push_val (flags s) s
  | push r => push_val (regs s r) s
  | sub_rsp n => set_flags (sub_flags (flags s) (regs s RSP) n) (move_rsp (- n) s)
  | movups_st off i => set_mem (store (mem s) (wrap w_bits (regs s RSP + off)) 16 (xmm s i)) s
  | mov dst src => set_reg dst (regs s src) s
  | and_rsp_16 =>
      let res := regs s RSP - regs s RSP mod 16 in
      set_flags (and_flags (flags s) res) (set_reg RSP res s)
  | mov_ld dst base off => set_reg dst (load (mem s) (wrap w_bits (regs s base + off)) word) s
  | call r => call_fn (regs s r) (push_val return_address s)
  | movups_ld i off => set_xmm i (load (mem s) (wrap w_bits (regs s RSP + off)) 16) s
  | add_rsp n => set_flags (add_flags (flags s) (regs s RSP) n) (move_rsp n s)
  | pop r => move_rsp W_ (set_reg r (top_val s) s)
  | popf => move_rsp W_ (set_flags (top_val s) s)
  | ret => move_rsp W_ (set_ip (top_val s) s)
  end.

Fixpoint run_asm (code : list instr) (s : Cpu) : Cpu :=
  match code with
  | [] => s
  | i :: code => run_asm code (exec i s)
  end.

(** ** preempt_thread *)

(** What [preempt_thread] does to the context of the suspended thread. *)
Definition redirect (do_preempt preempt_asm : Z) (s : Cpu) : Cpu :=
  let s := move_rsp (- (2 * W_)) s in
  let s := set_mem (store (mem s) (wrap w_bits (regs s RSP + W_)) word (ip s)) s in
  let s := set_mem (store (mem s) (regs s RSP) word do_preempt) s in
  set_ip preempt_asm s.

(** The thread with its suspend count, and the open handles. *)
Record Win : Type := mkWin { handles : Z; suspends : Z; context : Cpu }.

(** The results of [OpenThread], [SuspendThread], [GetThreadContext] and
    [SetThreadContext]. *)
Record Api : Type := mkApi { opens : bool; suspends_ok : bool; gets_ctx : bool; sets_ctx : bool }.

Definition close_handle : M Win unit := modify (λ t, mkWin (handles t - 1) (suspends t) (context t)).
Definition resume_thread : M Win unit :=
  modify (λ t, mkWin (handles t) (suspends t - 1) (context t)).

Definition preempt_thread (api : Api) (do_preempt preempt_asm : Z) : M Win bool :=
  if negb (opens api) then mret false
  else
    _ ← modify (λ t, mkWin (handles t + 1) (suspends t) (context t));
    if negb (suspends_ok api) then _ ← close_handle; mret false
    else
      _ ← modify (λ t, mkWin (handles t) (suspends t + 1) (context t));
      if negb (gets_ctx api) then _ ← resume_thread; _ ← close_handle; mret false
      else
        ctx ← gets context;
        let ctx := redirect do_preempt preempt_asm ctx in
        (* the stack is written at once, the registers by SetThreadContext *)
        _ ← modify (λ t, mkWin (handles t) (suspends t) (set_mem (mem ctx) (context t)));
        if negb (sets_ctx api) then _ ← resume_thread; _ ← close_handle; mret false
        else
          _ ← modify (λ t, mkWin (handles t) (suspends t) ctx);
          _ ← resume_thread;
          _ ← close_handle;
          mret true.
End machine.

(** ** The stubs *)

Definition preempt_asm_x86_64 : list instr :=
  [ pushf;
    push RAX; push RCX; push RDX; push RBX; push RBP; push RSI; push RDI;
    push R8; push R9; push R10; push R11; push R12; push R13; push R14; push R15;
    sub_rsp 256;
    movups_st 0 0; movups_st 16 1; movups_st 32 2; movups_st 48 3;
    movups_st 64 4; movups_st 80 5; movups_st 96 6; movups_st 112 7;
    movups_st 128 8; movups_st 144 9; movups_st 160 10; movups_st 176 11;
    movups_st 192 12; movups_st 208 13; movups_st 224 14; movups_st 240 15;
    mov R12 RSP;
    and_rsp_16;
    sub_rsp 32;
    mov_ld RAX R12 384;
    call RAX;
    mov RSP R12;
    movups_ld 0 0; movups_ld 1 16; movups_ld 2 32; movups_ld 3 48;
    movups_ld 4 64; movups_ld 5 80; movups_ld 6 96; movups_ld 7 112;
    movups_ld 8 128; movups_ld 9 144; movups_ld 10 160; movups_ld 11 176;
    movups_ld 12 192; movups_ld 13 208; movups_ld 14 224; movups_ld 15 240;
    add_rsp 256;
    pop R15; pop R14; pop R13; pop R12; pop R11; pop R10; pop R9; pop R8;
    pop RDI; pop RSI; pop RBP; pop RBX; pop RDX; pop RCX; pop RAX;
    popf;
    add_rsp 8;
    ret ].

Definition preempt_asm_i686 : list instr :=
  [ pushf;
    push RAX; push RCX; push RDX; push RBX; push RBP; push RSI; push RDI;
    sub_rsp 128;
    movups_st 0 0; movups_st 16 1; movups_st 32 2; movups_st 48 3;
    movups_st 64 4; movups_st 80 5; movups_st 96 6; movups_st 112 7;
    mov RBX RSP;
    and_rsp_16;
    mov_ld RAX RBX 160;
    call RAX;
    mov RSP RBX;
    movups_ld 0 0; movups_ld 1 16; movups_ld 2 32; movups_ld 3 48;
    movups_ld 4 64; movups_ld 5 80; movups_ld 6 96; movups_ld 7 112;
    add_rsp 128;
    pop RDI; pop RSI; pop RBP; pop RBX; pop RDX; pop RCX; pop RAX;
    popf;
    add_rsp 4;
    ret ].

(** Both have one shape, for the registers saved, the number of vector
    registers, the register that keeps the stack pointer, the shadow space
    and the place of the function pointer. *)
Definition stub (rs : list reg) (n : nat) (base : reg) (shadow : list instr) (off word : Z)
  : list instr :=
  [pushf] ++ (push <$> rs) ++ [sub_rsp (16 * Z.of_nat n)]
  ++ ((λ i, movups_st (16 * Z.of_nat i) i) <$> seq 0 n)
  ++ [mov base RSP; and_rsp_16] ++ shadow ++ [mov_ld RAX base off; call RAX; mov RSP base]
  ++ ((λ i, movups_ld i (16 * Z.of_nat i)) <$> seq 0 n)
  ++ [add_rsp (16 * Z.of_nat n)] ++ (pop <$> reverse rs) ++ [popf; add_rsp word; ret].

Definition low_regs : list reg := [RAX; RCX; RDX; RBX; RBP; RSI; RDI].
Definition high_regs : list reg := [R8; R9; R10; R11; R12; R13; R14; R15].

Lemma x86_64_shape :
  preempt_asm_x86_64 = stub (low_regs ++ high_regs) 16 R12 [sub_rsp 32] 384 8.
Proof. reflexivity. Qed.

Lemma i686_shape : preempt_asm_i686 = stub low_regs 8 RBX [] 160 4.
Proof. reflexivity. Qed.

(** ** Loads and stores *)

Lemma load_ext m m' a n :
  (∀ x, a ≤ x < a + Z.of_nat n → m x = m' x) → load m a n = load m' a n.
Proof.
  revert a. induction n as [|n IH]; intros a H; simpl; [done|].
  rewrite H by lia. f_equal. f_equal. apply IH. intros x Hx. apply H. lia.
Qed.

Lemma store_out m a n v x : x < a ∨ a + Z.of_nat n ≤ x → store m a n v x = m x.
Proof. intros H. unfold store. destruct (_ && _) eqn:E; [breflect; lia|done]. Qed.

Lemma load_store_other m a n v b k :
  b + Z.of_nat k ≤ a ∨ a + Z.of_nat n ≤ b → load (store m a n v) b k = load m b k.
Proof. intros H. apply load_ext. intros x Hx. apply store_out. lia. Qed.

Lemma load_store_part m a n v k j :
  0 ≤ k → k + Z.of_nat j ≤ Z.of_nat n →
  load (store m a n v) (a + k) j = (v / 256 ^ k) mod 256 ^ Z.of_nat j.
Proof.
  revert k. induction j as [|j IH]; intros k Hk Hj; cbn [load]; [by rewrite Z.mod_1_r|].
  rewrite <-Z.add_assoc, IH by lia. unfold store at 1.
  replace ((a <=? a + k) && (a + k <? a + Z.of_nat n)) with true
    by (symmetry; apply andb_true_iff; split; [apply Z.leb_le|apply Z.ltb_lt]; lia).
  replace (a + k - a) with k by lia.
  rewrite Z.pow_add_r, Z.pow_1_r, <-Z.div_div by lia.
  rewrite Nat2Z.inj_succ, Z.pow_succ_r, Z.rem_mul_r by lia. lia.
Qed.

Lemma load_store_same m a n v :
  0 ≤ v < 256 ^ Z.of_nat n → load (store m a n v) a n = v.
Proof.
  intros Hv. pose proof (load_store_part m a n v 0 n) as H.
  rewrite Z.add_0_r, Z.div_1_r, Z.mod_small in H by (simpl; lia). apply H; lia.
Qed.

(** ** The phases of a stub *)

Section phases.
Context (word : nat) (call_fn : Z → Cpu → Cpu) (return_address : Z).
Implicit Types (s : Cpu) (r : reg) (rs : list reg).

Abbreviation run_asm := (run_asm word call_fn return_address).
Abbreviation W := (W_ word).
Abbreviation limit := (256 ^ W_ word).

(** Every register holds a word. *)
Record cpu_ok s : Prop := {
  ok_regs r : 0 ≤ regs s r < limit;
  ok_xmm i : 0 ≤ xmm s i < 256 ^ 16;
  ok_ip : 0 ≤ ip s < limit;
}.

(** Nothing but the stack pointer, which moved by [d], flags and memory changed. *)
Record framed (d : Z) s s' : Prop := {
  fr_rsp : regs s' RSP = regs s RSP + d;
  fr_regs r : r ≠ RSP → regs s' r = regs s r;
  fr_xmm i : xmm s' i = xmm s i;
  fr_ip : ip s' = ip s;
}.

Lemma framed_refl s : framed 0 s s.
Proof. split; try done. lia. Qed.

Lemma framed_trans d d' s1 s2 s3 : framed d s1 s2 → framed d' s2 s3 → framed (d + d') s1 s3.
Proof.
  intros [H1 H2 H3 H4] [H1' H2' H3' H4']. split; [lia| | |congruence].
  - intros r Hr. by rewrite H2', H2.
  - intros i. by rewrite H3'.
Qed.

Lemma run_asm_app a b s : run_asm (a ++ b) s = run_asm b (run_asm a s).
Proof. revert s. induction a as [|i a IH]; intros s; simpl; [done|]. apply IH. Qed.

Lemma no_wrap x : 0 ≤ x < limit → wrap (w_bits word) x = x.
Proof.
  intros Hx. unfold wrap, w_bits. rewrite Z.pow_mul_r by lia. by apply Z.mod_small.
Qed.

Lemma move_rsp_framed d s : 0 ≤ regs s RSP + d < limit → framed d s (move_rsp word d s).
Proof.
  intros Hd. split; simpl; try done.
  - by rewrite no_wrap.
  - intros r Hr. by rewrite decide_False.
Qed.

(** An arithmetic instruction on the stack pointer. *)
Lemma alu_framed d f s :
  0 ≤ regs s RSP + d < limit →
  framed d s (set_flags f (move_rsp word d s)) ∧ mem (set_flags f (move_rsp word d s)) = mem s.
Proof. intros Hd. split; [|done]. by destruct (move_rsp_framed d s Hd). Qed.

Lemma push_val_spec v s :
  W ≤ regs s RSP → cpu_ok s →
  framed (- W) s (push_val word v s)
  ∧ mem (push_val word v s) = store (mem s) (regs s RSP - W) word v.
Proof.
  intros Hr Hok. pose proof (ok_regs _ Hok RSP).
  assert (0 ≤ W) by (unfold W_; lia).
  destruct (move_rsp_framed (- W) s ltac:(lia)) as [H1 H2 H3 H4]. split.
  - by split.
  - unfold push_val. simpl in *. rewrite H1. by f_equal.
Qed.

Lemma framed_ok d s s' : framed d s s' → 0 ≤ regs s RSP + d < limit → cpu_ok s → cpu_ok s'.
Proof.
  intros [H1 H2 H3 H4] Hd [Hr Hx Hi]. split.
  - intros r. destruct (decide (r = RSP)) as [->|Hne]; [by rewrite H1|by rewrite H2].
  - intros i. by rewrite H3.
  - by rewrite H4.
Qed.

Lemma pushes_spec rs s :
  RSP ∉ rs → W * Zlen rs ≤ regs s RSP → cpu_ok s →
  framed (- (W * Zlen rs)) s (run_asm (push <$> rs) s)
  ∧ (∀ (j : nat) r, rs !! j = Some r →
       load (mem (run_asm (push <$> rs) s)) (regs s RSP - W * (Z.of_nat j + 1)) word = regs s r)
  ∧ ∀ x, regs s RSP ≤ x → mem (run_asm (push <$> rs) s) x = mem s x.
Proof.
  assert (0 ≤ W) as HW by (unfold W_; lia).
  revert s. induction rs as [|r0 rs IH]; intros s Hn Hroom Hok; simpl.
  { split_and!; [|done|done]. rewrite Zlen_nil, Z.mul_0_r. apply framed_refl. }
  rewrite Zlen_cons in *. pose proof (Zlen_nonneg rs). pose proof (ok_regs _ Hok RSP).
  apply not_elem_of_cons in Hn as [Hr0 Hn].
  destruct (push_val_spec (regs s r0) s ltac:(nia) Hok) as [Hf1 Hm1].
  set (s1 := push_val word (regs s r0) s) in *. pose proof (fr_rsp _ _ _ Hf1) as Hrsp1.
  assert (cpu_ok s1) as Hok1 by (eapply framed_ok; [done|nia|done]). clearbody s1.
  destruct (IH s1 Hn ltac:(nia) Hok1) as (Hf2 & Hl2 & Hm2). split_and!.
  - replace (- (W * (1 + Zlen rs))) with (- W + - (W * Zlen rs)) by lia.
    by eapply framed_trans.
  - intros [|j] r Hj; simplify_eq/=.
    + rewrite (load_ext _ (mem s1)).
      * rewrite Hm1. replace (regs s RSP - W * (Z.of_nat 0 + 1)) with (regs s RSP - W) by lia.
        apply load_store_same, Hok.
      * intros x Hx. apply Hm2. lia.
    + rewrite <-(fr_regs _ _ _ Hf1 r), <-(Hl2 j r Hj); [f_equal; lia|].
      intros ->. apply Hn. by eapply list_elem_of_lookup_2.
  - intros x Hx. rewrite Hm2 by lia. rewrite Hm1. apply store_out. unfold W_ in *. lia.
Qed.

Lemma stores_spec k n s :
  regs s RSP + 16 * Z.of_nat (k + n) ≤ limit → cpu_ok s →
  let s' := run_asm ((λ i, movups_st (16 * Z.of_nat i) i) <$> seq k n) s in
  framed 0 s s'
  ∧ (∀ i, (k ≤ i < k + n)%nat → load (mem s') (regs s RSP + 16 * Z.of_nat i) 16 = xmm s i)
  ∧ ∀ x, x < regs s RSP + 16 * Z.of_nat k ∨ regs s RSP + 16 * Z.of_nat (k + n) ≤ x →
      mem s' x = mem s x.
Proof.
  revert k s. induction n as [|n IH]; intros k s Hroom Hok;
    cbn [seq fmap list_fmap Preempt.run_asm exec].
  { split_and!; [apply framed_refl|lia|done]. }
  pose proof (ok_regs _ Hok RSP). rewrite no_wrap by lia.
  set (s1 := set_mem _ s). assert (framed 0 s s1) as Hf1 by (split; simpl; done || lia).
  assert (cpu_ok s1) as Hok1 by (eapply framed_ok; [done|lia|done]).
  destruct (IH (S k) s1 ltac:(simpl; lia) Hok1) as (Hf2 & Hl2 & Hm2). split_and!.
  - apply (framed_trans 0 0 s s1); done.
  - intros i Hi. destruct (decide (i = k)) as [->|Hne].
    + rewrite (load_ext _ (mem s1)).
      * apply load_store_same, Hok.
      * intros x Hx. apply Hm2. cbn [regs set_mem s1]. lia.
    + apply Hl2. lia.
  - intros x Hx. rewrite Hm2 by (cbn [regs set_mem s1]; lia). apply store_out. lia.
Qed.

(** Restoring the vector registers changes nothing else. *)
Lemma loads_spec k n s :
  regs s RSP + 16 * Z.of_nat (k + n) ≤ limit → 0 ≤ regs s RSP →
  let s' := run_asm ((λ i, movups_ld i (16 * Z.of_nat i)) <$> seq k n) s in
  regs s' = regs s ∧ flags s' = flags s ∧ ip s' = ip s ∧ mem s' = mem s
  ∧ (∀ i, (k ≤ i < k + n)%nat → xmm s' i = load (mem s) (regs s RSP + 16 * Z.of_nat i) 16)
  ∧ ∀ i, (i < k ∨ k + n ≤ i)%nat → xmm s' i = xmm s i.
Proof.
  revert k s. induction n as [|n IH]; intros k s Hroom Hpos; cbn [seq fmap list_fmap Preempt.run_asm].
  { split_and!; try done. lia. }
  cbn [exec]. rewrite no_wrap by lia. set (s1 := set_xmm _ _ s).
  destruct (IH (S k) s1 ltac:(simpl; lia) Hpos) as (Hr & Hf & Hi & Hm & Hin & Hout).
  split_and!; try done.
  - intros i Hk. destruct (decide (i = k)) as [->|Hne].
    + rewrite Hout by lia. simpl. by rewrite decide_True.
    + rewrite Hin by lia. done.
  - intros i Hk. rewrite Hout by lia. simpl. rewrite decide_False; [done|lia].
Qed.

(** Popping a list of registers. *)
Lemma pops_spec rs s :
  RSP ∉ rs → NoDup rs → 0 ≤ regs s RSP → regs s RSP + W * Zlen rs < limit →
  let s' := run_asm (pop <$> rs) s in
  regs s' RSP = regs s RSP + W * Zlen rs
  ∧ (∀ (j : nat) r, rs !! j = Some r →
       regs s' r = load (mem s) (regs s RSP + W * Z.of_nat j) word)
  ∧ (∀ r, r ∉ rs → r ≠ RSP → regs s' r = regs s r)
  ∧ (∀ i, xmm s' i = xmm s i) ∧ flags s' = flags s ∧ ip s' = ip s ∧ mem s' = mem s.
Proof.
  assert (0 ≤ W) as HW by (unfold W_; lia).
  revert s. induction rs as [|r0 rs IH]; intros s Hn Hnd Hpos Hroom;
    cbn [fmap list_fmap Preempt.run_asm].
  { rewrite Zlen_nil. split_and!; try done; lia. }
  rewrite Zlen_cons in *. pose proof (Zlen_nonneg rs).
  apply not_elem_of_cons in Hn as [Hr0 Hn]. apply NoDup_cons in Hnd as [Hr0' Hnd].
  set (s1 := exec word call_fn return_address (pop r0) s).
  assert (regs s1 RSP = regs s RSP + W) as Hrsp1.
  { simpl. rewrite decide_False by done. apply no_wrap. nia. }
  destruct (IH s1 Hn Hnd ltac:(lia) ltac:(nia)) as (Hr & Hin & Hout & Hx & Hf & Hi & Hm).
  split_and!; try done.
  - rewrite Hr, Hrsp1. lia.
  - intros [|j] r Hj; simplify_eq/=.
    + rewrite Hout by congruence. simpl. rewrite decide_False by congruence.
      rewrite decide_True by done. unfold top_val. f_equal. lia.
    + rewrite (Hin j r Hj), Hrsp1. f_equal. lia.
  - intros r [Hne Hr']%not_elem_of_cons Hrsp. rewrite Hout by done. simpl.
    by rewrite !decide_False.
Qed.

(** ** The stub as a whole *)

Context (rs : list reg) (n : nat) (base : reg) (shadow : list instr) (sh : Z).
Context (fn asm stack_top : Z).
Context (Hword : (0 < word)%nat) (Hrs : NoDup rs) (Hsp : RSP ∉ rs).
Context (Hbase : base ≠ RSP) (Hbase' : base ≠ RAX).
Context (Hsh : 0 ≤ sh) (Hsh16 : sh mod 16 = 0).
Context (Hshadow : ∀ s, sh ≤ regs s RSP → cpu_ok s →
  framed (- sh) s (run_asm shadow s) ∧ mem (run_asm shadow s) = mem s).
Context (Hfn : 0 ≤ fn < limit) (Hasm : 0 ≤ asm < limit).

(** The calling convention: a function that is entered with an aligned stack
    returns with the stack pointer above its return address, keeps the
    register [base] and does not write to the stack of its caller. *)
Definition keeps_convention : Prop := ∀ s,
  (regs s RSP + W) mod 16 = 0 →
  regs (call_fn fn s) RSP = regs s RSP + W
  ∧ regs (call_fn fn s) base = regs s base
  ∧ ∀ x, regs s RSP + W + sh ≤ x < stack_top → mem (call_fn fn s) x = mem s x.

(** The bytes the stub needs below the stack pointer of the thread. *)
Definition saved_bytes : Z := 3 * W + W * Zlen rs + 16 * Z.of_nat n.
Definition stub_room : Z := saved_bytes + 16 + sh + W.

(** The state of the interrupted thread, as it lies on its stack from [b] on. *)
Record snapshot s (b : Z) (m : Z → Z) : Prop := {
  sn_xmm i : (i < n)%nat → load m (b + 16 * Z.of_nat i) 16 = xmm s i;
  sn_regs (j : nat) r : rs !! j = Some r →
    load m (regs s RSP - 3 * W - W * (Z.of_nat j + 1)) word = regs s r;
  sn_flags : load m (regs s RSP - 3 * W) word = flags s;
  sn_fn : load m (regs s RSP - 2 * W) word = fn;
  sn_ip : load m (regs s RSP - W) word = ip s;
  sn_mem x : regs s RSP ≤ x < stack_top → m x = mem s x;
}.

Lemma snapshot_ext s m m' :
  regs s RSP ≤ stack_top →
  (∀ x, regs s RSP - saved_bytes ≤ x < stack_top → m' x = m x) →
  snapshot s (regs s RSP - saved_bytes) m → snapshot s (regs s RSP - saved_bytes) m'.
Proof.
  intros Htop Hm [Hx Hr Hf Hc Hp Hmem]. pose proof (Zlen_nonneg rs).
  assert (0 < W) as HW by (unfold W_; lia). assert (W = Z.of_nat word) as HWw by done.
  assert (∀ a k, regs s RSP - saved_bytes ≤ a → a + Z.of_nat k ≤ stack_top →
    load m' a k = load m a k) as Hl.
  { intros a k Ha Hk. apply load_ext. intros x Hx'. apply Hm. lia. }
  unfold saved_bytes in *. split.
  - intros i Hi. rewrite Hl by nia. by apply Hx.
  - intros j r Hj. rewrite Hl; [by apply Hr| |nia].
    apply lookup_lt_Some in Hj. assert (Z.of_nat j + 1 ≤ Zlen rs) by (unfold Zlen; lia). nia.
  - rewrite Hl by nia. done.
  - rewrite Hl by nia. done.
  - rewrite Hl by nia. done.
  - intros x Hx'. rewrite Hm by nia. by apply Hmem.
Qed.

Lemma redirect_spec s :
  2 * W ≤ regs s RSP → cpu_ok s →
  let s0 := redirect word fn asm s in
  regs s0 RSP = regs s RSP - 2 * W ∧ (∀ r, r ≠ RSP → regs s0 r = regs s r)
  ∧ (∀ i, xmm s0 i = xmm s i) ∧ flags s0 = flags s
  ∧ load (mem s0) (regs s RSP - 2 * W) word = fn ∧ load (mem s0) (regs s RSP - W) word = ip s
  ∧ ∀ x, regs s RSP ≤ x → mem s0 x = mem s x.
Proof.
  intros Hroom Hok. pose proof (ok_regs _ Hok RSP).
  assert (0 < W) as HW by (unfold W_; lia). assert (W = Z.of_nat word) as HWw by done.
  destruct (move_rsp_framed (- (2 * W)) s ltac:(lia)) as [H1 H2 H3 H4].
  unfold redirect. set (s1 := move_rsp word (- (2 * W)) s) in *.
  assert (mem s1 = mem s ∧ flags s1 = flags s) as [Hm Hfl] by done. clearbody s1.
  cbn [regs set_mem set_ip mem xmm flags ip]. rewrite H1, H4, Hm.
  replace (regs s RSP + - (2 * W)) with (regs s RSP - 2 * W) by lia.
  rewrite no_wrap by lia. split_and!; try done.
  - apply load_store_same. by rewrite <-HWw.
  - rewrite load_store_other by lia.
    replace (regs s RSP - 2 * W + W) with (regs s RSP - W) by lia.
    apply load_store_same. rewrite <-HWw. apply Hok.
  - intros x Hx. rewrite !store_out by lia. done.
Qed.

(** From the entry of the stub to the saved state. *)
Definition save_code : list instr :=
  [pushf] ++ (push <$> rs) ++ [sub_rsp (16 * Z.of_nat n)]
  ++ ((λ i, movups_st (16 * Z.of_nat i) i) <$> seq 0 n).

Lemma save_frames s0 :
  saved_bytes - 2 * W ≤ regs s0 RSP → cpu_ok s0 → 0 ≤ flags s0 < limit →
  let s4 := run_asm save_code s0 in
  framed (2 * W - saved_bytes) s0 s4 ∧ cpu_ok s4
  ∧ (∀ i, (i < n)%nat → load (mem s4) (regs s4 RSP + 16 * Z.of_nat i) 16 = xmm s0 i)
  ∧ (∀ (j : nat) r, rs !! j = Some r →
       load (mem s4) (regs s0 RSP - W - W * (Z.of_nat j + 1)) word = regs s0 r)
  ∧ load (mem s4) (regs s0 RSP - W) word = flags s0
  ∧ ∀ x, regs s0 RSP ≤ x → mem s4 x = mem s0 x.
Proof.
  intros Hroom Hok Hflags. pose proof (ok_regs _ Hok RSP). pose proof (Zlen_nonneg rs).
  assert (0 < W) as HW by (unfold W_; lia). assert (W = Z.of_nat word) as HWw by done.
  unfold save_code, saved_bytes in *. rewrite !run_asm_app. cbn [Preempt.run_asm exec].
  destruct (push_val_spec (flags s0) s0 ltac:(nia) Hok) as [Hf1 Hm1].
  set (s1 := push_val word (flags s0) s0) in *. clearbody s1.
  assert (cpu_ok s1) as Hok1 by (eapply framed_ok; [exact Hf1|nia|done]).
  pose proof (fr_rsp _ _ _ Hf1) as E1.
  destruct (pushes_spec rs s1 Hsp ltac:(nia) Hok1) as (Hf2 & Hl2 & Hm2).
  set (s2 := run_asm (push <$> rs) s1) in *. clearbody s2.
  assert (cpu_ok s2) as Hok2 by (eapply framed_ok; [exact Hf2|nia|done]).
  pose proof (fr_rsp _ _ _ Hf2) as E2.
  destruct (alu_framed (- (16 * Z.of_nat n))
    (sub_flags word (flags s2) (regs s2 RSP) (16 * Z.of_nat n)) s2 ltac:(nia)) as [Hf3 Hm3].
  set (s3 := set_flags _ (move_rsp word (- (16 * Z.of_nat n)) s2)) in *. clearbody s3.
  assert (cpu_ok s3) as Hok3 by (eapply framed_ok; [exact Hf3|nia|done]).
  pose proof (fr_rsp _ _ _ Hf3) as E3.
  destruct (stores_spec 0 n s3 ltac:(simpl; nia) Hok3) as (Hf4 & Hl4 & Hm4).
  set (s4 := run_asm _ s3) in *. clearbody s4. pose proof (fr_rsp _ _ _ Hf4) as E4.
  assert (framed (- W + - (W * Zlen rs) + - (16 * Z.of_nat n) + 0) s0 s4) as Hf.
  { eapply framed_trans; [|exact Hf4]. eapply framed_trans; [|exact Hf3].
    by eapply framed_trans. }
  assert (∀ x, regs s2 RSP ≤ x → mem s4 x = mem s2 x) as Hup.
  { intros x Hx. rewrite Hm4 by (simpl; lia). by rewrite Hm3. }
  split_and!.
  - replace (2 * W - (3 * W + W * Zlen rs + 16 * Z.of_nat n))
      with (- W + - (W * Zlen rs) + - (16 * Z.of_nat n) + 0) by lia. exact Hf.
  - eapply framed_ok; [exact Hf4|lia|done].
  - intros i Hi. rewrite E4, Z.add_0_r, Hl4 by lia.
    by rewrite (fr_xmm _ _ _ Hf3), (fr_xmm _ _ _ Hf2), (fr_xmm _ _ _ Hf1).
  - intros j r Hj. rewrite <-(fr_regs _ _ _ Hf1 r), <-(Hl2 j r Hj).
    + rewrite E1. rewrite (load_ext _ (mem s2)); [f_equal; lia|].
      intros x Hx. apply Hup. apply lookup_lt_Some in Hj.
      assert (Z.of_nat j + 1 ≤ Zlen rs) by (unfold Zlen; lia). nia.
    + intros ->. apply Hsp. by eapply list_elem_of_lookup_2.
  - rewrite (load_ext _ (mem s1)).
    + rewrite Hm1. apply load_store_same. by rewrite <-HWw.
    + intros x Hx. rewrite Hup by nia. apply Hm2. lia.
  - intros x Hx. rewrite Hup by nia. rewrite Hm2 by lia. rewrite Hm1. apply store_out. lia.
Qed.

Lemma save_spec s :
  saved_bytes ≤ regs s RSP → cpu_ok s → 0 ≤ flags s < limit →
  let s4 := run_asm save_code (redirect word fn asm s) in
  regs s4 RSP = regs s RSP - saved_bytes ∧ cpu_ok s4
  ∧ snapshot s (regs s RSP - saved_bytes) (mem s4).
Proof.
  intros Hroom Hok Hflags. pose proof (ok_regs _ Hok RSP). pose proof (Zlen_nonneg rs).
  assert (0 < W) as HW by (unfold W_; lia). assert (W = Z.of_nat word) as HWw by done.
  destruct (redirect_spec s) as (R1 & R2 & R3 & R4 & R5 & R6 & R7);
    [unfold saved_bytes in *; nia|done|].
  assert (ip (redirect word fn asm s) = asm) as R8 by done.
  set (s0 := redirect word fn asm s) in *. clearbody s0.
  assert (cpu_ok s0) as Hok0.
  { split.
    - intros r. destruct (decide (r = RSP)) as [->|Hr]; [unfold saved_bytes in *; nia|].
      rewrite R2 by done. apply Hok.
    - intros i. rewrite R3. apply Hok.
    - by rewrite R8. }
  destruct (save_frames s0 ltac:(lia) Hok0 ltac:(by rewrite R4)) as (Hf & Hok4 & Hx & Hr & Hfl & Hm).
  set (s4 := run_asm save_code s0) in *. clearbody s4. pose proof (fr_rsp _ _ _ Hf) as E.
  assert (regs s4 RSP = regs s RSP - saved_bytes) as E4 by lia.
  split_and!; [done..|]. split.
  - intros i Hi. rewrite <-E4, Hx by done. apply R3.
  - intros j r Hj. rewrite <-(R2 r), <-(Hr j r Hj); [f_equal; lia|].
    intros ->. apply Hsp. by eapply list_elem_of_lookup_2.
  - rewrite <-R4, <-Hfl. f_equal. lia.
  - rewrite (load_ext _ (mem s0)); [done|]. intros x Hx'. apply Hm. lia.
  - rewrite (load_ext _ (mem s0)); [done|]. intros x Hx'. apply Hm. lia.
  - intros x Hx'. rewrite Hm by lia. apply R7. lia.
Qed.

(** The call: the function is entered with an aligned stack, and what lies from
    [b] on survives. *)
Definition call_code (off : Z) : list instr :=
  [mov base RSP; and_rsp_16] ++ shadow ++ [mov_ld RAX base off; call RAX; mov RSP base].

Lemma call_spec s4 b off :
  keeps_convention → cpu_ok s4 → regs s4 RSP = b → 16 + sh + W ≤ b → 0 ≤ b + off < limit →
  load (mem s4) (b + off) word = fn →
  let s10 := run_asm (call_code off) s4 in
  regs s10 RSP = b ∧ ∀ x, b ≤ x < stack_top → mem s10 x = mem s4 x.
Proof.
  intros Habi Hok Eb Hroom Hoff Hload. pose proof (ok_regs _ Hok RSP) as Hb. rewrite Eb in Hb.
  assert (0 < W) as HW by (unfold W_; lia). assert (W = Z.of_nat word) as HWw by done.
  pose proof (Z.mod_pos_bound b 16 ltac:(lia)) as Hal.
  unfold call_code. rewrite !run_asm_app. cbn [Preempt.run_asm exec].
  set (s5 := set_reg base (regs s4 RSP) s4).
  set (s6 := set_flags _ (set_reg RSP (regs s5 RSP - regs s5 RSP mod 16) s5)).
  assert (regs s6 RSP = b - b mod 16 ∧ regs s6 base = b ∧ mem s6 = mem s4) as (E6 & B6 & M6).
  { unfold s6, s5, set_flags, set_reg. cbn [regs mem]. rewrite <-Eb. repeat case_decide; done || congruence. }
  assert (cpu_ok s6) as Hok6.
  { destruct Hok as [Hr Hx Hi]. split; [|done..]. intros r. destruct (decide (r = RSP)) as [->|Hr'];
      [rewrite E6; lia|]. unfold s6, s5, set_flags, set_reg. cbn [regs]. rewrite decide_False by done.
    case_decide; [rewrite Eb; lia|apply Hr]. }
  clearbody s6. clear s5.
  destruct (Hshadow s6 ltac:(lia) Hok6) as [Hf7 M7]. set (s7 := run_asm shadow s6) in *.
  clearbody s7. pose proof (fr_rsp _ _ _ Hf7) as E7.
  pose proof (fr_regs _ _ _ Hf7 base Hbase) as B7. rewrite B7, B6, no_wrap by done.
  rewrite M7, M6, Hload. set (s8 := set_reg RAX fn s7).
  assert (regs s8 RSP = regs s7 RSP ∧ regs s8 base = b ∧ mem s8 = mem s4 ∧ regs s8 RAX = fn)
    as (E8 & B8 & M8 & A8).
  { unfold s8, set_reg. cbn [regs mem]. rewrite !decide_False by done. rewrite decide_True by done.
    split_and!; congruence. }
  assert (cpu_ok s8) as Hok8.
  { pose proof (framed_ok _ _ _ Hf7 ltac:(lia) Hok6) as [Hr Hx Hi]. split; [|done..].
    intros r. unfold s8, set_reg. cbn [regs]. case_decide; [done|apply Hr]. }
  clearbody s8. rewrite A8.
  destruct (push_val_spec return_address s8 ltac:(lia) Hok8) as [Hf9 M9].
  set (s9 := push_val word return_address s8) in *. clearbody s9.
  pose proof (fr_rsp _ _ _ Hf9) as E9.
  destruct (Habi s9) as (_ & B10 & M10).
  { replace (regs s9 RSP + W) with (b - b mod 16 - sh) by lia.
    clear -Hsh16. dlia. }
  unfold set_reg. cbn [regs mem]. rewrite decide_True by done. split.
  - rewrite B10, (fr_regs _ _ _ Hf9 base Hbase). done.
  - intros x Hx. rewrite M10 by lia. rewrite M9, store_out by lia. by rewrite M8.
Qed.

(** Back from the saved state. *)
Definition restore_code : list instr :=
  ((λ i, movups_ld i (16 * Z.of_nat i)) <$> seq 0 n)
  ++ [add_rsp (16 * Z.of_nat n)] ++ (pop <$> reverse rs) ++ [popf; add_rsp W; ret].

(** The stack as the interrupted thread left it, and its registers. *)
Definition restored s s' : Prop :=
  (∀ r, r ∈ rs → regs s' r = regs s r) ∧ regs s' RSP = regs s RSP
  ∧ (∀ i, (i < n)%nat → xmm s' i = xmm s i) ∧ ip s' = ip s
  ∧ ∀ x, regs s RSP ≤ x < stack_top → mem s' x = mem s x.

Lemma restore_spec s s10 :
  saved_bytes ≤ regs s RSP → cpu_ok s → regs s10 RSP = regs s RSP - saved_bytes →
  snapshot s (regs s RSP - saved_bytes) (mem s10) →
  restored s (run_asm restore_code s10)
  ∧ flags (run_asm restore_code s10) = add_flags word (flags s) (regs s RSP - 2 * W) W.
Proof.
  intros Hroom Hok E10 [Hx Hr Hf Hc Hp Hmem]. pose proof (ok_regs _ Hok RSP).
  pose proof (Zlen_nonneg rs).
  assert (0 < W) as HW by (unfold W_; lia). assert (W = Z.of_nat word) as HWw by done.
  unfold restore_code, saved_bytes in *. rewrite !run_asm_app. cbn [Preempt.run_asm exec].
  destruct (loads_spec 0 n s10 ltac:(simpl; nia) ltac:(nia)) as (R11 & F11 & I11 & M11 & X11 & _).
  set (s11 := run_asm _ s10) in *. clearbody s11.
  destruct (alu_framed (16 * Z.of_nat n)
    (add_flags word (flags s11) (regs s11 RSP) (16 * Z.of_nat n)) s11 ltac:(rewrite R11; nia))
    as [[E12 _ X12 _] M12].
  set (s12 := set_flags _ (move_rsp word (16 * Z.of_nat n) s11)) in *. clearbody s12.
  rewrite R11 in E12. rewrite M11 in M12.
  assert (Zlen (reverse rs) = Zlen rs) as Hrev by (apply Zlen_Permutation, reverse_Permutation).
  destruct (pops_spec (reverse rs) s12) as (E13 & R13 & _ & X13 & _ & _ & M13).
  { by rewrite reverse_Permutation. }
  { by rewrite reverse_Permutation. }
  { nia. }
  { rewrite Hrev. nia. }
  set (s13 := run_asm (pop <$> reverse rs) s12) in *. clearbody s13. rewrite Hrev in E13.
  assert (regs s13 RSP = regs s RSP - 3 * W) as E13' by lia.
  unfold restored. cbn [regs xmm flags ip mem move_rsp set_reg set_ip set_flags].
  rewrite !decide_True by done. unfold top_val.
  cbn [regs xmm flags ip mem move_rsp set_reg set_ip set_flags].
  rewrite !decide_True by done. rewrite E13', M13, M12.
  rewrite (no_wrap (regs s RSP - 3 * W + W)) by lia.
  rewrite (no_wrap (regs s RSP - 3 * W + W + W)) by lia.
  rewrite (no_wrap (regs s RSP - 3 * W + W + W + W)) by lia.
  replace (regs s RSP - 3 * W + W) with (regs s RSP - 2 * W) by lia.
  rewrite Hf. split; [|done]. split_and!.
  - intros r Hin. assert (r ≠ RSP) by (intros ->; done). rewrite !decide_False by done.
    apply list_elem_of_lookup in Hin as [j Hj]. rewrite (R13 (length rs - S j)%nat r).
    + rewrite M12, <-(Hr j r Hj). apply lookup_lt_Some in Hj. f_equal.
      rewrite E12, E10. unfold Zlen. nia.
    + rewrite reverse_lookup by (apply lookup_lt_Some in Hj; lia). rewrite <-Hj.
      f_equal. apply lookup_lt_Some in Hj. lia.
  - lia.
  - intros i Hi. rewrite X13, X12, X11 by lia. rewrite E10. by apply Hx.
  - rewrite <-Hp. f_equal. lia.
  - exact Hmem.
Qed.

(** The whole stub, for any choice of registers. *)
Lemma stub_transparent s :
  keeps_convention → cpu_ok s → 0 ≤ flags s < limit → stub_room ≤ regs s RSP → regs s RSP ≤ stack_top →
  let s' := run_asm (stub rs n base shadow (saved_bytes - 2 * W) W) (redirect word fn asm s) in
  restored s s' ∧ flags s' = add_flags word (flags s) (regs s RSP - 2 * W) W.
Proof.
  intros Habi Hok Hflags Hroom Htop s'. unfold s'. clear s'. pose proof (Zlen_nonneg rs). pose proof (ok_regs _ Hok RSP).
  assert (0 < W) as HW by (unfold W_; lia).
  assert (stub rs n base shadow (saved_bytes - 2 * W) W
    = save_code ++ call_code (saved_bytes - 2 * W) ++ restore_code) as ->.
  { unfold stub, save_code, call_code, restore_code. by rewrite <-!app_assoc. }
  rewrite !run_asm_app. unfold stub_room in Hroom.
  destruct (save_spec s ltac:(lia) Hok Hflags) as (E4 & Hok4 & Hsn).
  set (s4 := run_asm save_code _) in *. clearbody s4.
  destruct (call_spec s4 (regs s RSP - saved_bytes) (saved_bytes - 2 * W)) as (E10 & M10); try done.
  { lia. }
  { unfold saved_bytes in *. nia. }
  { replace (regs s RSP - saved_bytes + (saved_bytes - 2 * W)) with (regs s RSP - 2 * W) by lia.
    apply Hsn. }
  set (s10 := run_asm _ s4) in *. clearbody s10.
  apply restore_spec; [lia|done|done|].
  by apply (snapshot_ext s (mem s4)).
Qed.
End phases.

(** ** The two architectures *)

Inductive arch : Type := x86_64 | i686.

Definition word_of (a : arch) : nat := match a with x86_64 => 8 | i686 => 4 end.
Definition preempt_asm (a : arch) : list instr :=
  match a with x86_64 => preempt_asm_x86_64 | i686 => preempt_asm_i686 end.
Definition regs_of (a : arch) : list reg :=
  match a with x86_64 => low_regs ++ high_regs | i686 => low_regs end.
Definition xmms_of (a : arch) : nat := match a with x86_64 => 16 | i686 => 8 end.
Definition base_of (a : arch) : reg := match a with x86_64 => R12 | i686 => RBX end.
Definition shadow_of (a : arch) : Z := match a with x86_64 => 32 | i686 => 0 end.
(** Bytes below the stack pointer. *)
Definition room_of (a : arch) : Z := match a with x86_64 => 456 | i686 => 188 end.

(** [do_preempt] keeps the calling convention of Windows: [R12] and [RBX] are
    among the registers a function preserves. *)
Definition convention (a : arch) call_fn fn stack_top : Prop :=
  keeps_convention (word_of a) call_fn (base_of a) (shadow_of a) fn stack_top.

Definition restored_on (a : arch) stack_top s s' : Prop :=
  restored (regs_of a) (xmms_of a) stack_top s s'.

Lemma regs_of_NoDup a : NoDup (regs_of a) ∧ RSP ∉ regs_of a.
Proof. destruct a; (split; apply (bool_decide_unpack _); vm_compute; exact I). Qed.

Lemma asm_transparent a call_fn ra fn asm stack_top s :
  convention a call_fn fn stack_top → cpu_ok (word_of a) s →
  0 ≤ flags s < 256 ^ W_ (word_of a) →
  0 ≤ fn < 256 ^ W_ (word_of a) → 0 ≤ asm < 256 ^ W_ (word_of a) →
  room_of a ≤ regs s RSP → regs s RSP ≤ stack_top →
  let s' := run_asm (word_of a) call_fn ra (preempt_asm a) (redirect (word_of a) fn asm s) in
  restored_on a stack_top s s'
  ∧ flags s' = add_flags (word_of a) (flags s) (regs s RSP - 2 * W_ (word_of a)) (W_ (word_of a)).
Proof.
  intros Habi Hok Hfl Hfn Hasm Hroom Htop. destruct (regs_of_NoDup a) as [Hnd Hsp].
  destruct a; simpl preempt_asm; simpl in Hnd, Hsp.
  - rewrite x86_64_shape. apply (stub_transparent 8 call_fn ra (low_regs ++ high_regs) 16 R12
      [sub_rsp 32] 32 fn asm stack_top); try done; [simpl; lia|].
    intros s' Hs Hok'. apply alu_framed. pose proof (ok_regs _ _ Hok' RSP). lia.
  - rewrite i686_shape. apply (stub_transparent 4 call_fn ra low_regs 8 RBX
      [] 0 fn asm stack_top); try done; [simpl; lia|].
    intros s' Hs Hok'. split; [|done]. apply framed_refl.
Qed.

(** The zero flag after an addition says whether the result is zero. *)
Lemma add_flags_zero word old x y :
  Z.testbit (add_flags word old x y) 6 = (wrap (w_bits word) (x + y) =? 0).
Proof.
  unfold add_flags, status. rewrite Z.lor_spec, Z.land_spec, Z.lnot_spec by lia.
  replace (Z.testbit 2261 6) with true by reflexivity. rewrite andb_false_r, orb_false_l.
  generalize (parity (wrap (w_bits word) (x + y))) (sign word (wrap (w_bits word) (x + y))).
  intros pf sf. destruct (wrap (w_bits word) (x + y) =? 0), (2 ^ w_bits word <=? x + y), pf, sf,
    (16 <=? x mod 16 + y mod 16), (eqb (sign word x) (sign word y) && _); reflexivity.
Qed.

Lemma preempt_thread_spec word api fn asm t :
  ∃ t', preempt_thread word api fn asm t
      = Done (opens api && suspends_ok api && gets_ctx api && sets_ctx api) t'
    ∧ handles t' = handles t ∧ suspends t' = suspends t
    ∧ (opens api && suspends_ok api && gets_ctx api && sets_ctx api = true →
       context t' = redirect word fn asm (context t))
    ∧ (opens api && suspends_ok api && gets_ctx api && sets_ctx api = false →
       context t' = context t
       ∨ context t' = set_mem (mem (redirect word fn asm (context t))) (context t)).
Proof.
  unfold preempt_thread, close_handle, resume_thread. munfold.
  destruct api as [[] [] [] []]; simpl; eexists; (split; [reflexivity|]); simpl;
    split_and!; try lia; try done; first [by left | by right].
Qed.


(** The stub does not restore the flags it saved: the addition that skips the
    function pointer comes after [popfq] and overwrites them. A thread that is
    preempted always goes on with the zero flag cleared, so one that was
    interrupted between a comparison that found equality and the jump that
    depends on it takes the wrong branch. *)
Theorem preempt_loses_flags a call_fn ra fn asm stack_top s :
  convention a call_fn fn stack_top → cpu_ok (word_of a) s →
  0 ≤ flags s < 256 ^ W_ (word_of a) →
  0 ≤ fn < 256 ^ W_ (word_of a) → 0 ≤ asm < 256 ^ W_ (word_of a) →
  room_of a ≤ regs s RSP → regs s RSP ≤ stack_top →
  let s' := run_asm (word_of a) call_fn ra (preempt_asm a) (redirect (word_of a) fn asm s) in
  ip s' = ip s ∧ Z.testbit (flags s') 6 = false
  ∧ (Z.testbit (flags s) 6 = true → flags s' ≠ flags s).
Proof.
  intros Habi Hok Hfl Hfn Hasm Hroom Htop s'.
  destruct (asm_transparent a call_fn ra fn asm stack_top s) as [Hr Hf]; try done. fold s' in Hr, Hf.
  assert (Z.testbit (flags s') 6 = false) as H6.
  { rewrite Hf, add_flags_zero. pose proof (ok_regs _ _ Hok RSP) as Hrsp. clear -Hrsp Hroom.
    apply Z.eqb_neq. assert (0 < W_ (word_of a) ∧ 2 * W_ (word_of a) < room_of a) by by destruct a.
    rewrite no_wrap; lia. }
  split_and!; [apply Hr|done|]. intros Hz Heq. rewrite Heq in H6. congruence.
Qed.

Module PreemptExamples.
(** A function that spoils whatever it may. *)
Definition spoil (_ : Z) (s : Cpu) : Cpu :=
  mkCpu (λ r, match r with RSP => regs s RSP + 8 | R12 => regs s R12 | _ => 1 end) (λ _, 2) 3 4
    (λ x, if (x <? regs s RSP + 40) then 5 else mem s x).

Definition busy : Cpu :=
  mkCpu (λ r, match r with RSP => 4001 | RAX => 17 | _ => 40 end) (λ i, Z.of_nat (i mod 16)) 70 77
    (λ x, x mod 256).

Lemma spoil_convention : convention x86_64 spoil 123 5000.
Proof.
  intros s _. simpl. split_and!; try done. intros x Hx. unfold W_ in Hx. simpl in Hx.
  by rewrite (proj2 (Z.ltb_ge _ _)) by lia.
Qed.

Lemma busy_ok : cpu_ok 8 busy.
Proof.
  split; simpl; unfold W_; simpl; try lia.
  intros []; lia.
Qed.


(** The zero flag is set when the thread is interrupted. *)
Lemma preempt_loses_flags_witness :
  let s' := run_asm 8 spoil 999 preempt_asm_x86_64 (redirect 8 123 456 busy) in
  ip s' = 77 ∧ Z.testbit (flags s') 6 = false
  ∧ (Z.testbit (flags busy) 6 = true → flags s' ≠ 70).
Proof.
  apply (preempt_loses_flags x86_64 spoil 999 123 456 5000 busy).
  - exact spoil_convention.
  - exact busy_ok.
  - vm_compute. split; [discriminate|reflexivity].
  - vm_compute. split; [discriminate|reflexivity].
  - vm_compute. split; [discriminate|reflexivity].
  - vm_compute. discriminate.
  - vm_compute. discriminate.
Defined.
End PreemptExamples.
