(* ===== verification/EventLoop.v ===== *)
(** * EventLoop: a pool, a selector and a ring on one thread

    Models [core/src/net/event_loop.rs] for Linux. The loop extends the state
    of its pool: the selector of [Selector], the operator of [Operator] (the
    feature [io_uring]; without it [support_io_uring] is false and the ring is
    never used), the static set of coroutine tokens, the table of pending ring
    submissions, the flags of a stop, and the beans of [Beans]. Parameters
    besides those of the pool: the rest of the program while a coroutine is
    switched out ([switch]), the hash behind a thread's token, spawning a
    thread, and what other threads do while this one waits for a loop to end. *)

From stdpp Require Import sorting base numbers strings gmap list.
From S2P Require Import Prelude Common QueueIface Coroutine Scheduler CoPool Selector Syscall.
From S2P Require Import Operator Beans.

(** What the loop registers in the bean factory: itself and its thread. *)
Inductive bean : Type := BLoop (poller : nat) | BThread.

Section event_loop.
Context {RQ TQ I F P R X : Type}
  `{!PQueue handle RQ, !PQueue (Task F) TQ, !Mio P, !Ring R}.
Abbreviation Ret := (option Z).

Record EL : Type := mkEL {
  el_poller : nat;
  el_sel : Sel P;
  el_operator : Op R;
  COROUTINE_TOKENS : gset Z;
  syscall_wait_table : gmap Z nat;
  arcs : gmap nat (option Z);
  el_stop : bool;
  shared_stop : Z;
  el_beans : Factory bean;
  EVENT_LOOP : nat;
  el_ext : X;
}.

Abbreviation Po := (Pool TQ EL).
Abbreviation W := (World unit Ret I (Sched RQ Po)).

Variable clock : nat → Z.
Variable listener_call : nat → handle → event unit Ret → M W unit.
Variable inner_resume : handle → unit → M W (CoroutineResult unit Ret).
Variable current_thread : Z.
Variable worker : Z → I.
Variable hash : string → Z.
Variable alloc : Z → io_result StackInfo.
Variable page : Z.
Variable uuid : W → string.
Variable switch : M W unit.
Variable thread_token : SyscallName → Z.
Variable support_io_uring : bool.
Variable is_supported : Opcode → bool.
Variable instant : nat → Z.
Variable spawn : M W (io_result unit).
Variable env_stop_wait : Z → M W unit.

Definition p_set_ext (x : EL) (p : Po) : Po :=
  mkPool (p_state p) (p_task_queue p) (p_running p) (p_pop_fail_times p) (p_min_size p)
    (p_max_size p) (p_keep_alive_time p) (p_blocker p) (p_waits p) (p_pending p) (p_results p)
    (p_no_waits p) (RUNNING_TASKS p) (CANCEL_TASKS p) (COROUTINE_POOL p) x.

Definition the_loop (w : W) : EL := p_ext (the_pool w).
Definition el {A} (f : EL → A) : M W A := gets (λ w, f (the_loop w)).
Definition on_el (f : EL → EL) : M W unit := on_pool (λ p, p_set_ext (f (p_ext p)) p).

Definition el_set_sel (x : Sel P) (e : EL) : EL :=
  mkEL (el_poller e) x (el_operator e) (COROUTINE_TOKENS e) (syscall_wait_table e) (arcs e)
    (el_stop e) (shared_stop e) (el_beans e) (EVENT_LOOP e) (el_ext e).
Definition el_set_operator (x : Op R) (e : EL) : EL :=
  mkEL (el_poller e) (el_sel e) x (COROUTINE_TOKENS e) (syscall_wait_table e) (arcs e)
    (el_stop e) (shared_stop e) (el_beans e) (EVENT_LOOP e) (el_ext e).
Definition el_set_tokens (x : gset Z) (e : EL) : EL :=
  mkEL (el_poller e) (el_sel e) (el_operator e) x (syscall_wait_table e) (arcs e)
    (el_stop e) (shared_stop e) (el_beans e) (EVENT_LOOP e) (el_ext e).
Definition el_set_waits (x : gmap Z nat) (y : gmap nat (option Z)) (e : EL) : EL :=
  mkEL (el_poller e) (el_sel e) (el_operator e) (COROUTINE_TOKENS e) x y
    (el_stop e) (shared_stop e) (el_beans e) (EVENT_LOOP e) (el_ext e).
Definition el_set_stop (x : bool) (e : EL) : EL :=
  mkEL (el_poller e) (el_sel e) (el_operator e) (COROUTINE_TOKENS e) (syscall_wait_table e)
    (arcs e) x (shared_stop e) (el_beans e) (EVENT_LOOP e) (el_ext e).
Definition el_set_shared (x : Z) (e : EL) : EL :=
  mkEL (el_poller e) (el_sel e) (el_operator e) (COROUTINE_TOKENS e) (syscall_wait_table e)
    (arcs e) (el_stop e) x (el_beans e) (EVENT_LOOP e) (el_ext e).
Definition el_set_beans (x : Factory bean) (e : EL) : EL :=
  mkEL (el_poller e) (el_sel e) (el_operator e) (COROUTINE_TOKENS e) (syscall_wait_table e)
    (arcs e) (el_stop e) (shared_stop e) x (EVENT_LOOP e) (el_ext e).
Definition el_set_current (x : nat) (e : EL) : EL :=
  mkEL (el_poller e) (el_sel e) (el_operator e) (COROUTINE_TOKENS e) (syscall_wait_table e)
    (arcs e) (el_stop e) (shared_stop e) (el_beans e) x (el_ext e).

(** A part's own computation, run on that part of the loop. *)
Definition zoom {S A} (get : EL → S) (set : S → EL → EL) (m : M S A) : M W A := λ w,
  match m (get (the_loop w)) with
  | Done a s => (_ ← on_el (set s); mret a) w
  | Panic msg s => (_ ← on_el (set s); panic msg) w
  | NoFuel => NoFuel
  end.
Definition on_sel {A} (m : M (Sel P) A) : M W A := zoom el_sel el_set_sel m.
Definition on_operator {A} (m : M (Op R) A) : M W A := zoom el_operator el_set_operator m.
Definition on_beans {A} (m : M (Factory bean) A) : M W A := zoom el_beans el_set_beans m.

(** [EventLoop::new]: the pool with its loop around it; [sel] has the static
    records, [beans] and [shared] are what all loops share. *)
Definition event_loop_new (name : string) (ready : RQ) (task_queue : TQ) (creator poller : nat)
  (stack_size min_size max_size keep_alive_time : Z) (sel : Sel P) (operator : Op R)
  (tokens : gset Z) (shared : Z) (beans : Factory bean) (x : X) : Sched RQ Po :=
  pool_new name stack_size ready task_queue creator min_size max_size keep_alive_time
    (mkEL poller sel operator tokens ∅ ∅ false shared beans 0 x).

(** ** Tokens and interests *)

Definition token (name : SyscallName) : M W Z :=
  co ← current;
  match co with
  | Some h => with_co h (λ c,
      _ ← on_el (λ e, el_set_tokens (COROUTINE_TOKENS e ∪ {[ co_id c ]}) e);
      mret (co_id c))
  | None => mret (thread_token name)
  end.

Definition add_read_event (fd : Z) : M W (io_result unit) :=
  p ← el el_poller; t ← token nio; on_sel (Selector.add_read_event p fd t).
Definition add_write_event (fd : Z) : M W (io_result unit) :=
  p ← el el_poller; t ← token nio; on_sel (Selector.add_write_event p fd t).
Definition del_event (fd : Z) : M W (io_result unit) :=
  p ← el el_poller; on_sel (Selector.del_event p fd).
Definition del_read_event (fd : Z) : M W (io_result unit) :=
  p ← el el_poller; on_sel (Selector.del_read_event p fd).
Definition del_write_event (fd : Z) : M W (io_result unit) :=
  p ← el el_poller; on_sel (Selector.del_write_event p fd).

(** [resume]: only what is on the list of coroutine tokens. *)
Definition resume (token : Z) : M W unit :=
  tokens ← el COROUTINE_TOKENS;
  if decide (token ∈ tokens) then
    _ ← on_el (el_set_tokens (tokens ∖ {[ token ]}));
    try_resume listener_call token
  else mret tt.

(** ** Waiting *)

(** The result of a finished call: whoever waits for it finds it. *)
Definition complete (token result : Z) : M W unit :=
  e ← el id;
  _ ← match syscall_wait_table e !! token with
      | Some arc => on_el (el_set_waits (delete token (syscall_wait_table e))
                       (<[arc := Some result]> (arcs e)))
      | None => mret tt
      end;
  resume token.

(** One completion of the ring. *)
Definition complete_cqe (cqe : Z * Z) : M W unit :=
  let '(token, result) := cqe in
  if token =? IO_URING_TIMEOUT_USERDATA then mret tt else complete token result.

Fixpoint complete_cqes (cq : list (Z * Z)) : M W unit :=
  match cq with
  | [] => mret tt
  | cqe :: cq => _ ← complete_cqe cqe; complete_cqes cq
  end.

Definition adapt_io_uring (ufuel : nat) (left_time : option Z) : M W (io_result (option Z)) :=
  if support_io_uring then
    r <-? on_operator (Operator.select support_io_uring is_supported instant ufuel left_time 0);
    cq ← on_operator (ring_call ring_completions);
    _ ← complete_cqes cq;
    mret (IoOk (if decide (r.2 = left_time) then left_time else Some (default 0 r.2)))
  else mret (IoOk left_time).

Fixpoint resume_events (es : list Event) : M W unit :=
  match es with
  | [] => mret tt
  | e :: es =>
      _ ← (if ev_readable e || ev_writable e then resume (ev_token e) else mret tt);
      resume_events es
  end.

Definition is_interrupted (e : io_error) : bool :=
  match e with Interrupted => true | OsError n => n =? EINTR | _ => false end.

(** The parts of [wait_just] before and after the switch: a coroutine that is
    executing a system call is suspended in it until [timestamp], and one that
    was called back or timed out is executing again. *)
Definition enter_wait (timestamp : Z) : M W unit :=
  _ ← in_syscall (λ h name st,
        match st with
        | Executing => _ ← syscall listener_call h tt name (SSuspend timestamp); mret (@None unit)
        | _ => mret None
        end);
  mret tt.
Definition leave_wait : M W unit :=
  _ ← in_syscall (λ h name st,
        match st with
        | Callback | Timeout => _ ← syscall listener_call h tt name Executing; mret (@None unit)
        | _ => mret None
        end);
  mret tt.

(** [suspender.until(timestamp)], when there is a suspender: nothing is left
    to wait for afterwards. *)
Definition until_current (timestamp time : Z) : M W Z :=
  s ← gets (λ w, head (SUSPENDER (tls w)));
  match s with
  | Some h => _ ← until_enter timestamp; _ ← switch; _ ← suspend_leave h; mret 0
  | None => mret time
  end.

(** The second half: the ring, the selector, and those whose events came. *)
Definition poll_resume (ufuel : nat) (left_time : option Z) : M W (io_result unit) :=
  r ← adapt_io_uring ufuel left_time;
  left_time <-? mret match r with
                     | IoOk t => IoOk t
                     | IoErr e => if is_interrupted e then IoOk left_time else IoErr e
                     end;
  p ← el el_poller;
  '(r, events) ← on_sel (Selector.select p left_time);
  match r with
  | IoErr e =>
      if is_interrupted e then _ ← resume_events events; mret (IoOk tt) else mret (IoErr e)
  | IoOk _ => _ ← resume_events events; mret (IoOk tt)
  end.

Definition wait_just (ufuel : nat) (timeout : option Z) : M W (io_result unit) :=
  left_time ← match timeout with
              | Some time =>
                  n ← now_ clock;
                  let timestamp := get_timeout_time n time in
                  _ ← enter_wait timestamp;
                  left_time ← until_current timestamp time;
                  _ ← leave_wait;
                  mret (Some left_time)
              | None => mret None
              end;
  poll_resume ufuel left_time.

(** The loop of [timed_wait_just], over any way to wait. *)
Fixpoint timed_wait_loop (fuel : nat) (wait : option Z → M W (io_result unit)) (timeout_time : Z)
  : M W (io_result unit) :=
  match fuel with
  | O => out_of_fuel
  | S fuel =>
      n ← now_ clock;
      let left_time := Z.min (sat_sub timeout_time n) 10000000 in
      if left_time =? 0 then wait (Some 0)
      else _ <-? wait (Some left_time); timed_wait_loop fuel wait timeout_time
  end.

Definition timed_wait_just (fuel ufuel : nat) (timeout : option Z) : M W (io_result unit) :=
  timeout_time ← match timeout with
                 | Some t => n ← now_ clock; mret (get_timeout_time n t)
                 | None => mret u64_max
                 end;
  timed_wait_loop fuel (wait_just ufuel) timeout_time.

Definition wait_event (sfuel ufuel : nat) (timeout : option Z) : M W (io_result unit) :=
  co ← current;
  left_time <-? match co with
                | Some _ => mret (IoOk timeout)
                | None =>
                    match timeout with
                    | Some time =>
                        t <-? try_timed_schedule_task clock listener_call inner_resume
                                current_thread worker hash alloc page uuid sfuel time;
                        mret (IoOk (Some t))
                    | None =>
                        _ <-? try_schedule_task clock listener_call inner_resume current_thread
                                worker hash alloc page uuid sfuel;
                        mret (IoOk None)
                    end
                end;
  wait_just ufuel left_time.

(** ** Stopping *)

Definition is_idle : M W bool :=
  p ← pool id; mret (pq_local_empty (p_task_queue p) && (p_running p =? 0)).

Fixpoint do_stop_sync_loop (fuel sfuel ufuel : nat) (timeout_time : Z) : M W (io_result unit) :=
  match fuel with
  | O => out_of_fuel
  | S fuel =>
      n ← now_ clock;
      let left_time := sat_sub timeout_time n in
      if left_time =? 0 then mret (IoErr (TimedOut "stop timeout !"))
      else
        _ <-? wait_event sfuel ufuel (Some (Z.min left_time SLICE));
        idle ← is_idle;
        if (idle : bool) then
          old <-? stopped;
          _ ← assert_ (bool_decide (old = PStopping)) "assertion failed";
          mret (IoOk tt)
        else do_stop_sync_loop fuel sfuel ufuel timeout_time
  end.

Definition do_stop_sync (fuel sfuel ufuel : nat) (wait_time : Z) : M W (io_result unit) :=
  n ← now_ clock;
  do_stop_sync_loop fuel sfuel ufuel (get_timeout_time n wait_time).

Definition stop_sync (fuel sfuel ufuel : nat) (wait_time : Z) : M W (io_result unit) :=
  st ← pool p_state;
  match st with
  | PRunning =>
      old <-? stopping;
      _ ← assert_ (bool_decide (old = PRunning)) "assertion failed";
      do_stop_sync fuel sfuel ufuel wait_time
  | PStopping => do_stop_sync fuel sfuel ufuel wait_time
  | PStopped => mret (IoOk tt)
  end.

(** [Drop], of a thread that is not unwinding, then the pool's. *)
Definition event_loop_drop (fuel sfuel ufuel : nat) : M W unit :=
  r ← stop_sync fuel sfuel ufuel (30 * 1000000000);
  _ ← match r with
      | IoErr _ => panic "Failed to stop event-loop"
      | IoOk _ => mret tt
      end;
  st ← pool p_state;
  _ ← assert_ (bool_decide (st = PStopped)) "The event-loop is not stopped !";
  pool_drop clock listener_call inner_resume current_thread worker hash alloc page uuid fuel sfuel.

(** ** The thread of the loop *)

Definition get_thread_name : M W string := name ← sched s_name; mret (name +:+ "-thread").

(** [start]: a loop whose name is taken is dropped; the thread is given the
    loop that has the name. *)
Definition start (fuel sfuel ufuel : nat) : M W (io_result bean) :=
  _ ← on_el (el_set_stop true);
  thread_name ← get_thread_name;
  bean_name ← sched s_name;
  poller ← el el_poller;
  taken ← on_beans (get_bean bean_name);
  _ ← on_beans (init_bean bean_name (BLoop poller));
  _ ← match taken with
      | Some _ => event_loop_drop fuel sfuel ufuel
      | None => mret tt
      end;
  _ <-? spawn;
  _ ← on_beans (init_bean thread_name BThread);
  b ← on_beans (get_bean bean_name);
  match b with
  | Some b => mret (IoOk b)
  | None => panic "bean not exist !"
  end.

Fixpoint thread_loop (fuel sfuel ufuel : nat) : M W unit :=
  match fuel with
  | O => out_of_fuel
  | S fuel =>
      p ← pool id;
      if bool_decide (p_state p = PRunning) || negb (pq_local_empty (p_task_queue p))
         || (0 <? p_running p)
      then _ ← wait_event sfuel ufuel (Some SLICE); thread_loop fuel sfuel ufuel
      else mret tt
  end.

(** The closure that [start] hands to its thread. *)
Definition thread_main (fuel sfuel ufuel : nat) : M W unit :=
  _ ← on_el (λ e, el_set_shared (wrap 64 (shared_stop e + 1)) e);
  _ ← on_el (λ e, el_set_current (S (EVENT_LOOP e)) e);
  _ ← thread_loop fuel sfuel ufuel;
  _ ← on_el (el_set_stop false);
  _ ← on_el (λ e, el_set_shared (wrap 64 (shared_stop e - 1)) e);
  on_el (λ e, el_set_current (pred (EVENT_LOOP e)) e).

(** [wait_timeout_while]: other threads run until the flag is reset or the
    time is over. *)
Definition wait_stop_flag (wait_time : Z) : M W bool :=
  pending ← el el_stop;
  _ ← (if (pending : bool) then env_stop_wait wait_time else mret tt);
  el el_stop.

(** The loop that is removed from the factory is dropped. *)
Definition do_stop (fuel sfuel ufuel : nat) (wait_time : Z) : M W (io_result unit) :=
  timed_out ← wait_stop_flag wait_time;
  if (timed_out : bool) then mret (IoErr (TimedOut "stop timeout !"))
  else
    old <-? stopped;
    _ ← assert_ (bool_decide (old = PStopping)) "assertion failed";
    name ← sched s_name;
    b ← on_beans (remove_bean name);
    match b with
    | Some _ => _ ← event_loop_drop fuel sfuel ufuel; mret (IoOk tt)
    | None => panic "assertion failed"
    end.

Definition stop (fuel sfuel ufuel : nat) (wait_time : Z) : M W (io_result unit) :=
  st ← pool p_state;
  match st with
  | PRunning =>
      thread_name ← get_thread_name;
      b ← on_beans (remove_bean thread_name);
      match b with
      | Some _ =>
          old <-? stopping;
          _ ← assert_ (bool_decide (old = PRunning)) "assertion failed";
          do_stop fuel sfuel ufuel wait_time
      | None => mret (IoErr (Unsupported "use EventLoop::stop_sync instead !"))
      end
  | PStopping => do_stop fuel sfuel ufuel wait_time
  | PStopped => mret (IoOk tt)
  end.

(** ** Ring submissions *)

(** The calls [impl_io_uring!] is used for. *)
Definition uring_name (o : uring_op) : option SyscallName :=
  match o with
  | UEpollCtl _ _ _ _ => Some Common.epoll_ctl
  | USocket _ _ _ => Some Common.socket
  | UAccept _ _ _ => Some Common.accept
  | UAccept4 _ _ _ _ => Some Common.accept4
  | UShutdown _ _ => Some Common.shutdown
  | UConnect _ _ _ => Some Common.connect
  | UClose _ => Some Common.close
  | URecv _ _ _ _ => Some Common.recv
  | URead _ _ _ => Some Common.read
  | UPread _ _ _ _ => Some Common.pread
  | UReadv _ _ _ => Some Common.readv
  | UPreadv _ _ _ _ => Some Common.preadv
  | URecvMsg _ _ _ => Some Common.recvmsg
  | USend _ _ _ _ => Some Common.send
  | USendTo _ _ _ _ _ _ => Some Common.sendto
  | UWrite _ _ _ => Some Common.write
  | UPwrite _ _ _ _ => Some Common.pwrite
  | UWritev _ _ _ => Some Common.writev
  | UPwritev _ _ _ _ => Some Common.pwritev
  | USendMsg _ _ _ => Some Common.sendmsg
  | UFsync _ => Some Common.fsync
  | UMkDirAt _ _ _ => Some Common.mkdirat
  | URenameAt _ _ _ _ => Some Common.renameat
  | URenameAt2 _ _ _ _ _ => Some Common.renameat2
  | _ => None
  end.

(** [syscall_wait_table.insert(token, arc.clone())]: wait under the token. *)
Definition await_result (t : Z) : M W (io_result nat) :=
  e ← el id;
  let arc := fresh (dom (arcs e)) in
  _ ← on_el (el_set_waits (<[t := arc]> (syscall_wait_table e)) (<[arc := None]> (arcs e)));
  _ ← assert_ (bool_decide (syscall_wait_table e !! t = None))
    "The previous token was not retrieved in a timely manner";
  mret (IoOk arc).

(** [impl_io_uring!]: submit, then wait under the token. *)
Definition uring_submit (name : SyscallName) (o : uring_op) : M W (io_result nat) :=
  t ← token name;
  _ <-? on_operator (run_uring_op support_io_uring is_supported t o);
  await_result t.
End event_loop.

Arguments EL : clear implicits.

(** ** Waking coroutines *)

Section properties.
Context {RQ TQ I F P R X : Type}
  `{!PQueue handle RQ, !PQueue (Task F) TQ, !Mio P, !Ring R}
  `{!PQueueLaws handle RQ, !RingLaws R}.
Abbreviation E := (EL P R X).
Abbreviation Po := (Pool TQ E).
Abbreviation W := (World unit (option Z) I (Sched RQ Po)).
Implicit Types (w : W) (h : handle) (e : E) (hs : list handle).
Context (clock : nat → Z) (clock_mono : ∀ i j, (i ≤ j)%nat → clock i ≤ clock j).

(** What callbacks may do to a loop: submit coroutines; the loop itself they
    leave alone. *)
Definition loop_rel w w' : Prop := sched_rel w w' ∧ the_loop w' = the_loop w.

#[export] Instance loop_rel_allowed : Allowed loop_rel.
Proof.
  split.
  - intros w. split; [apply allowed_refl|done].
  - intros w. split; [apply allowed_tick|done].
  - intros w1 w2 w3 K1 [R1 E1] K2 [R2 E2]. split; [|congruence].
    by apply (allowed_trans w1 w2 w3).
Qed.

Context (listener_call : nat → handle → event unit (option Z) → M W unit)
  (lok : listeners_ok listener_call loop_rel).

Lemma lok_sched : listeners_ok listener_call sched_rel.
Proof.
  intros l h ev w. destruct (lok l h ev w) as (w' & [Hk [Hr _]] & Hd). exists w'.
  split; [by split|done].
Qed.

(** The world with its loop changed. *)
Definition el_world (f : E → E) w : W :=
  set_ext (upd_pool (λ p, p_set_ext (f (p_ext p)) p)) w.

Lemma on_el_done (f : E → E) w : on_el f w = Done tt (el_world f w).
Proof. done. Qed.

Lemma zoom_done {S A} (get : E → S) (set : S → E → E) (m : M S A) w a s :
  m (get (the_loop w)) = Done a s → zoom get set m w = Done a (el_world (set s) w).
Proof. intros Hm. unfold zoom. by rewrite Hm. Qed.

Lemma el_world_inv hs f w : inv clock hs w → inv clock hs (el_world f w).
Proof. intros Hi. split; simpl; apply Hi. Qed.

Lemma the_loop_el f w : the_loop (el_world f w) = f (the_loop w).
Proof. done. Qed.

(** A callback or an operation on a coroutine does not touch the loop. *)
Lemma op_loop h o w r w' :
  run_op clock listener_call h o w = Done r w' → the_loop w' = the_loop w.
Proof.
  intros Hr. destruct (run_op_done_dom clock listener_call h o w r w' Hr) as [c Hc].
  destruct (run_op_spec clock listener_call loop_rel lok h o w c Hc) as (r' & w1 & Hr' & Hp).
  rewrite Hr in Hr'. injection Hr' as <- <-. destruct r.
  - by destruct Hp as (st & _ & [_ [_ ->]]).
  - by destruct Hp as [[_ [_ ->]] _].
Qed.

Lemma push_ready_loop h w u w' : push_ready h w = Done u w' → the_loop w' = the_loop w.
Proof.
  unfold push_ready, with_co. destruct (cos w !! h); [|done].
  destruct (pq_push _ _ _); [|done]. by intros [= <- <-].
Qed.

Lemma try_resume_loop i w u w' : try_resume listener_call i w = Done u w' → the_loop w' = the_loop w.
Proof.
  unfold try_resume. intros (m & w1 & [= <- <-] & H)%bind_done_inv.
  destruct (s_syscall (ext w) !! i) as [h|]; [|by injection H as <- <-].
  apply bind_done_inv in H as (? & w2 & [= <- <-] & H).
  apply bind_done_inv in H as (st & w3 & Hs & H).
  assert (the_loop w3 = the_loop w) as Hl3.
  { revert Hs. unfold state, with_co. destruct (_ !! h); [|done]. by intros [= <- <-]. }
  destruct st as [| |y t|y nm []| | |]; try done.
  apply bind_done_inv in H as (r & w4 & Hop & H).
  apply (op_loop h (OpSyscall y nm Callback)) in Hop. destruct r; [|done].
  apply push_ready_loop in H. congruence.
Qed.

(** What waking tokens does to the coroutines waiting in system calls. *)
Record waking (ts : gset Z) hs w w' : Prop := {
  wk_inv : inv clock hs w';
  wk_tls : tls w' = tls w;
  wk_hand h : h ∈ hs → co_state_of w' h = co_state_of w h;
  wk_kept : kept w w';
  wk_woken i h : s_syscall (ext w) !! i = Some h → i ∈ ts →
    s_syscall (ext w') !! i = None ∧ h ∈ pq_elems (s_ready (ext w'))
    ∧ ∃ nm, co_state_of w' h = Some (Syscall tt nm Callback);
  wk_rest i : i ∉ ts → s_syscall (ext w') !! i = s_syscall (ext w) !! i;
  wk_none i : s_syscall (ext w) !! i = None → s_syscall (ext w') !! i = None;
  wk_progress : progress hs w ∅ hs w' ∅;
}.

Lemma waking_refl hs w w' :
  inv clock hs w → w' = w → waking ∅ hs w w'.
Proof.
  intros Hi ->. split; try done. apply progress_refl.
Qed.

Lemma waking_trans ts1 ts2 hs w1 w2 w3 :
  waking ts1 hs w1 w2 → waking ts2 hs w2 w3 → waking (ts1 ∪ ts2) hs w1 w3.
Proof.
  intros W1 W2. split.
  - apply W2.
  - rewrite (wk_tls _ _ _ _ W2). apply W1.
  - intros h Hh. rewrite (wk_hand _ _ _ _ W2 h Hh). by apply W1.
  - etrans; [apply (wk_kept _ _ _ _ W1)|apply (wk_kept _ _ _ _ W2)].
  - intros i h Hh Hin. destruct (decide (i ∈ ts1)) as [H1|H1].
    + destruct (wk_woken _ _ _ _ W1 i h Hh H1) as (Hn & Hr & nm & Hs).
      destruct (wk_kept _ _ _ _ W2 h Hr) as [? Hs2]. split; [by apply W2|].
      split; [done|]. exists nm. by rewrite Hs2.
    + apply (wk_woken _ _ _ _ W2); [|set_solver]. by rewrite (wk_rest _ _ _ _ W1).
  - intros i Hi. rewrite (wk_rest _ _ _ _ W2), (wk_rest _ _ _ _ W1); set_solver.
  - intros i Hn. by apply (wk_none _ _ _ _ W2), (wk_none _ _ _ _ W1).
  - eapply (progress_trans clock clock_mono); [exact (wk_progress _ _ _ _ W1)|exact (wk_progress _ _ _ _ W2)].
Qed.

(** Changing the loop wakes nobody. *)
Lemma waking_el hs f w : inv clock hs w → waking ∅ hs w (el_world f w).
Proof.
  intros Hi. split; try done.
  - by apply el_world_inv.
  - by apply ext_progress.
Qed.

Lemma loop_resume_spec hs token w :
  inv clock hs w →
  ∃ w', resume listener_call token w = Done tt w'
    ∧ the_loop w' = el_set_tokens (COROUTINE_TOKENS (the_loop w) ∖ {[ token ]}) (the_loop w)
    ∧ waking ({[ token ]} ∩ COROUTINE_TOKENS (the_loop w)) hs w w'.
Proof.
  intros Hi. unfold resume. erewrite bind_done by reflexivity.
  destruct (decide (token ∈ COROUTINE_TOKENS (the_loop w))) as [Hin|Hin].
  - erewrite bind_done by reflexivity. set (w1 := set_ext _ w).
    assert (waking ∅ hs w w1) as Hw1 by (by apply waking_el).
    pose proof (wk_inv _ _ _ _ Hw1) as Hi1.
    assert (∃ w2, try_resume listener_call token w1 = Done tt w2 ∧ waking {[ token ]} hs w1 w2)
      as (w2 & Hr & Hw2).
    { pose proof (try_resume_held clock clock_mono listener_call lok_sched hs w1 token Hi1) as Ht.
      destruct (s_syscall (ext w1) !! token) as [h|] eqn:Eh.
      - destruct Ht as (nm & w2 & Hr & Hi2 & Hin2 & Hst2 & Hsy2 & _ & Hp2 & Hk2 & Ht2 & Hh2).
        exists w2. split; [done|]. split; try done.
        + intros i h' Hh' ->%elem_of_singleton. rewrite Eh in Hh'. injection Hh' as <-.
          rewrite Hsy2, lookup_delete_eq. split_and!; try done. by exists nm.
        + intros i Hn. rewrite Hsy2, lookup_delete_ne by set_solver. done.
        + intros i Hn. rewrite Hsy2. apply lookup_delete_None. by right.
      - exists w1. split; [done|]. split; try done; [|apply progress_refl].
        intros i h' Hh' ->%elem_of_singleton. congruence. }
    exists w2. split; [done|]. split; [by rewrite (try_resume_loop token w1 tt w2 Hr)|].
    replace ({[ token ]} ∩ _) with (∅ ∪ {[ token ]} : gset Z) by set_solver.
    by eapply waking_trans.
  - exists w. split; [done|]. split.
    + replace (COROUTINE_TOKENS (the_loop w) ∖ {[ token ]}) with (COROUTINE_TOKENS (the_loop w))
        by set_solver. by destruct (the_loop w).
    + replace ({[ token ]} ∩ _) with (∅ : gset Z) by set_solver. by apply waking_refl.
Qed.

(** The tokens of the events that wake somebody. *)
Definition ready_tokens (es : list Event) : gset Z :=
  list_to_set (ev_token <$> filter (λ ev, ev_readable ev || ev_writable ev = true) es).

Lemma resume_events_spec hs es w :
  inv clock hs w →
  ∃ w', resume_events listener_call es w = Done tt w'
    ∧ the_loop w' = el_set_tokens (COROUTINE_TOKENS (the_loop w) ∖ ready_tokens es) (the_loop w)
    ∧ waking (ready_tokens es ∩ COROUTINE_TOKENS (the_loop w)) hs w w'.
Proof.
  revert w. induction es as [|ev es IH]; intros w Hi; simpl.
  { exists w. split; [done|]. unfold ready_tokens. simpl. split.
    - rewrite difference_empty_L. by destruct (the_loop w).
    - rewrite intersection_empty_l_L. by apply waking_refl. }
  unfold ready_tokens. rewrite filter_cons.
  destruct (decide (ev_readable ev || ev_writable ev = true)) as [He|He].
  - rewrite He. destruct (loop_resume_spec hs (ev_token ev) w Hi) as (w1 & H1 & Hl1 & Hw1).
    erewrite bind_done by exact H1.
    destruct (IH w1 (wk_inv _ _ _ _ Hw1)) as (w2 & H2 & Hl2 & Hw2). exists w2.
    split; [done|]. rewrite Hl1 in Hl2, Hw2. simpl in *. fold (ready_tokens es). split.
    + rewrite Hl2. unfold el_set_tokens. simpl. f_equal. set_solver.
    + pose proof (waking_trans _ _ _ _ _ _ Hw1 Hw2) as Hw.
      replace ((({[ev_token ev]} ∪ ready_tokens es) ∩ _)) with
        ({[ev_token ev]} ∩ COROUTINE_TOKENS (the_loop w)
         ∪ ready_tokens es ∩ (COROUTINE_TOKENS (the_loop w) ∖ {[ev_token ev]})); [done|].
      apply set_eq. intros i. destruct (decide (i = ev_token ev)); set_solver.
  - apply not_true_is_false in He. rewrite He. erewrite bind_done by reflexivity.
    by apply IH.
Qed.

(** ** Completions of the ring *)

(** What a completion does to the loop: the one who waits for it finds the
    result. *)
Definition hand_over (t v : Z) e : E :=
  let e := match syscall_wait_table e !! t with
           | Some arc => el_set_waits (delete t (syscall_wait_table e)) (<[arc := Some v]> (arcs e)) e
           | None => e
           end in
  el_set_tokens (COROUTINE_TOKENS e ∖ {[ t ]}) e.

Lemma hand_over_tokens t v e : COROUTINE_TOKENS (hand_over t v e) = COROUTINE_TOKENS e ∖ {[ t ]}.
Proof. unfold hand_over. by destruct (syscall_wait_table e !! t). Qed.

Lemma complete_spec hs t v w :
  inv clock hs w →
  ∃ w', complete listener_call t v w = Done tt w'
    ∧ the_loop w' = hand_over t v (the_loop w)
    ∧ waking ({[ t ]} ∩ COROUTINE_TOKENS (the_loop w)) hs w w'.
Proof.
  intros Hi. unfold complete, hand_over. erewrite bind_done by reflexivity. unfold id.
  set (e' := match syscall_wait_table (the_loop w) !! t with
             | Some arc => el_set_waits (delete t (syscall_wait_table (the_loop w)))
                             (<[arc := Some v]> (arcs (the_loop w))) (the_loop w)
             | None => the_loop w
             end).
  assert (∃ w1, (match syscall_wait_table (the_loop w) !! t with
    | Some arc => on_el (el_set_waits (delete t (syscall_wait_table (the_loop w)))
                    (<[arc := Some v]> (arcs (the_loop w))))
    | None => mret tt
    end) w = Done tt w1 ∧ waking ∅ hs w w1 ∧ the_loop w1 = e') as (w1 & H1 & Hw1 & Hl1).
  { unfold e'. destruct (syscall_wait_table (the_loop w) !! t).
    - eexists. split; [reflexivity|]. split; [by apply waking_el|done].
    - exists w. split_and!; try done. by apply waking_refl. }
  erewrite bind_done by exact H1.
  destruct (loop_resume_spec hs t w1 (wk_inv _ _ _ _ Hw1)) as (w2 & H2 & Hl2 & Hw2).
  exists w2. rewrite Hl1 in Hl2, Hw2. split_and!; try done.
  assert (COROUTINE_TOKENS e' = COROUTINE_TOKENS (the_loop w)) as He.
  { unfold e'. by destruct (syscall_wait_table (the_loop w) !! t). }
  rewrite He in Hw2. pose proof (waking_trans _ _ _ _ _ _ Hw1 Hw2) as Hw.
  by rewrite union_empty_l_L in Hw.
Qed.

Definition deliver (cqe : Z * Z) e : E :=
  if cqe.1 =? IO_URING_TIMEOUT_USERDATA then e else hand_over cqe.1 cqe.2 e.

Lemma complete_cqe_spec hs cqe w :
  inv clock hs w →
  ∃ w', complete_cqe listener_call cqe w = Done tt w'
    ∧ the_loop w' = deliver cqe (the_loop w)
    ∧ waking (({[ cqe.1 ]} ∖ {[ IO_URING_TIMEOUT_USERDATA ]}) ∩ COROUTINE_TOKENS (the_loop w))
        hs w w'.
Proof.
  intros Hi. destruct cqe as [t v]. unfold complete_cqe, deliver. simpl.
  destruct (t =? IO_URING_TIMEOUT_USERDATA) eqn:E; breflect.
  - exists w. split_and!; try done. rewrite E, difference_diag_L, intersection_empty_l_L.
    by apply waking_refl.
  - replace ({[ t ]} ∖ {[ IO_URING_TIMEOUT_USERDATA ]}) with ({[ t ]} : gset Z) by set_solver.
    by apply complete_spec.
Qed.

Definition cqe_tokens (cq : list (Z * Z)) : gset Z :=
  list_to_set cq.*1 ∖ {[ IO_URING_TIMEOUT_USERDATA ]}.

Lemma deliver_tokens cqe e :
  COROUTINE_TOKENS (deliver cqe e)
  = COROUTINE_TOKENS e ∖ ({[ cqe.1 ]} ∖ {[ IO_URING_TIMEOUT_USERDATA ]}).
Proof.
  unfold deliver. destruct (cqe.1 =? IO_URING_TIMEOUT_USERDATA) eqn:E; breflect.
  - rewrite E, difference_diag_L, difference_empty_L. done.
  - rewrite hand_over_tokens. set_solver.
Qed.

Lemma complete_cqes_spec hs cq w :
  inv clock hs w →
  ∃ w', complete_cqes listener_call cq w = Done tt w'
    ∧ the_loop w' = foldl (λ e cqe, deliver cqe e) (the_loop w) cq
    ∧ waking (cqe_tokens cq ∩ COROUTINE_TOKENS (the_loop w)) hs w w'.
Proof.
  revert w. induction cq as [|cqe cq IH]; intros w Hi; simpl.
  { exists w. split_and!; try done. unfold cqe_tokens. simpl.
    replace ((∅ ∖ _) ∩ _) with (∅ : gset Z) by set_solver. by apply waking_refl. }
  destruct (complete_cqe_spec hs cqe w Hi) as (w1 & H1 & Hl1 & Hw1).
  erewrite bind_done by exact H1.
  destruct (IH w1 (wk_inv _ _ _ _ Hw1)) as (w2 & H2 & Hl2 & Hw2). exists w2.
  rewrite Hl1 in Hl2, Hw2. rewrite deliver_tokens in Hw2. split_and!; try done.
  pose proof (waking_trans _ _ _ _ _ _ Hw1 Hw2) as Hw.
  replace (cqe_tokens (cqe :: cq) ∩ COROUTINE_TOKENS (the_loop w)) with
    (({[cqe.1]} ∖ {[IO_URING_TIMEOUT_USERDATA]}) ∩ COROUTINE_TOKENS (the_loop w)
     ∪ cqe_tokens cq
       ∩ (COROUTINE_TOKENS (the_loop w) ∖ ({[cqe.1]} ∖ {[IO_URING_TIMEOUT_USERDATA]}))); [done|].
  unfold cqe_tokens. simpl. apply set_eq. intros i.
  destruct (decide (i = cqe.1)), (decide (i = IO_URING_TIMEOUT_USERDATA)); set_solver.
Qed.

Context (support_io_uring : bool) (is_supported : Opcode → bool) (instant : nat → Z).

(** Enough rounds for the backlog of the ring. *)
Definition ring_fuel (ufuel : nat) w : Prop :=
  support_io_uring = true → (S (length (backlog (el_operator (the_loop w)))) < ufuel)%nat.

(** The parts of a loop that completions leave alone. *)
Definition same_loop w w' : Prop :=
  el_sel (the_loop w') = el_sel (the_loop w) ∧ el_poller (the_loop w') = el_poller (the_loop w).

Lemma deliver_all_same cq e :
  el_sel (foldl (λ e cqe, deliver cqe e) e cq) = el_sel e
  ∧ el_poller (foldl (λ e cqe, deliver cqe e) e cq) = el_poller e.
Proof.
  revert e. induction cq as [|cqe cq IH]; intros e; [done|]. simpl.
  destruct (IH (deliver cqe e)) as [-> ->]. unfold deliver, hand_over.
  destruct (cqe.1 =? _); [done|]. by destruct (syscall_wait_table e !! cqe.1).
Qed.

Lemma adapt_spec hs ufuel left_time w :
  inv clock hs w → ring_fuel ufuel w →
  ∃ r ts w', adapt_io_uring listener_call support_io_uring is_supported instant ufuel left_time w
      = Done r w'
    ∧ waking ts hs w w' ∧ same_loop w w' ∧ (w_tick w ≤ w_tick w')%nat
    ∧ (support_io_uring = false → r = IoOk left_time ∧ w' = w).
Proof.
  intros Hi Hf. unfold adapt_io_uring, ring_fuel in *. destruct support_io_uring eqn:Hs.
  2: { eexists _, ∅, w. split; [reflexivity|]. split_and!; try done. by apply waking_refl. }
  destruct (select_returns true is_supported instant ufuel left_time 0
    (el_operator (the_loop w)) (Hf eq_refl)) as (r & o & Hsel).
  unfold try_. erewrite bind_done by (unfold on_operator; by apply zoom_done).
  set (w1 := el_world _ w). pose proof (waking_el hs _ w Hi : waking ∅ hs w w1) as Hw1.
  destruct r as [[n left]|err].
  2: { eexists _, ∅, w1. split; [reflexivity|]. by split_and!. }
  destruct (ring_completions (ring (el_operator (the_loop w1)))) as [cq rg] eqn:Ecq.
  erewrite bind_done by (unfold on_operator; apply zoom_done; unfold ring_call; by rewrite Ecq).
  set (w2 := el_world _ w1).
  pose proof (waking_el hs _ w1 (wk_inv _ _ _ _ Hw1) : waking ∅ hs w1 w2) as Hw2.
  destruct (complete_cqes_spec hs cq w2 (wk_inv _ _ _ _ Hw2)) as (w3 & H3 & Hl3 & Hw3).
  erewrite bind_done by exact H3. eexists _, _, w3. split; [reflexivity|].
  pose proof (waking_trans _ _ _ _ _ _ Hw1 (waking_trans _ _ _ _ _ _ Hw2 Hw3)) as Hw.
  split_and!; [exact Hw| | |done].
  - unfold same_loop. rewrite Hl3. by destruct (deliver_all_same cq (the_loop w2)) as [-> ->].
  - apply (pr_tick _ _ _ _ _ _ (wk_progress _ _ _ _ Hw)).
Qed.

(** *** Polling *)

Abbreviation poll_resume := (poll_resume listener_call support_io_uring is_supported instant).

Lemma select_done p timeout (s : Sel P) r es m :
  p ∉ waiting s → mio_poll p timeout (mio s) = (r, es, m) →
  ∃ s', Selector.select p timeout s = Done (r, es) s'.
Proof.
  intros Hp Hm. unfold Selector.select. erewrite bind_done by reflexivity. unfold id.
  rewrite decide_False by done. erewrite bind_done by reflexivity.
  erewrite bind_done by (unfold Selector.do_select, mio_call; cbn [mio set_waiting]; by rewrite Hm).
  by eexists.
Qed.

Lemma select_some p timeout (s : Sel P) :
  ∃ r es s', Selector.select p timeout s = Done (r, es) s'.
Proof.
  destruct (decide (p ∈ waiting s)) as [Hp|Hp].
  - unfold Selector.select. erewrite bind_done by reflexivity. unfold id.
    rewrite decide_True by done. by eexists _, _, _.
  - destruct (mio_poll p timeout (mio s)) as [[r es] m] eqn:E.
    destruct (select_done p timeout s r es m Hp E) as [s' Hs]. by exists r, es, s'.
Qed.

(** What is done with the events of a poll. *)
Lemma after_select hs (r : io_result unit) es w :
  inv clock hs w →
  ∃ r' ts w', (match r with
    | IoErr e => if is_interrupted e then _ ← resume_events listener_call es; mret (IoOk tt)
                 else mret (IoErr e)
    | IoOk _ => _ ← resume_events listener_call es; mret (IoOk tt)
    end) w = Done r' w'
    ∧ waking ts hs w w'
    ∧ (r = IoOk tt → r' = IoOk tt ∧ ts = ready_tokens es ∩ COROUTINE_TOKENS (the_loop w)).
Proof.
  intros Hi. destruct (resume_events_spec hs es w Hi) as (w' & Hr & _ & Hw).
  assert ((_ ← resume_events listener_call es; mret (IoOk tt)) w = Done (IoOk tt) w') as Hgo
    by (by erewrite bind_done by exact Hr).
  destruct r as [[]|e]; [by eexists _, _, w'|].
  destruct (is_interrupted e); [by eexists _, _, w'|].
  eexists _, ∅, w. split; [reflexivity|]. split; [by apply waking_refl|done].
Qed.

Lemma poll_spec hs ufuel left_time w :
  inv clock hs w → ring_fuel ufuel w →
  ∃ r ts w', poll_resume ufuel left_time w = Done r w' ∧ waking ts hs w w'.
Proof.
  intros Hi Hf. unfold EventLoop.poll_resume.
  destruct (adapt_spec hs ufuel left_time w Hi Hf) as (r1 & ts1 & w1 & H1 & Hw1 & _).
  erewrite bind_done by exact H1. unfold try_. erewrite bind_done by reflexivity.
  set (x := match r1 with IoOk t => _ | IoErr e => _ end). destruct x as [lt|e].
  2: { by eexists _, ts1, w1. }
  erewrite bind_done by reflexivity.
  destruct (select_some (el_poller (the_loop w1)) lt (el_sel (the_loop w1))) as (r2 & es & s & Hs).
  erewrite bind_done by (unfold on_sel; by apply zoom_done). cbv beta iota.
  set (w2 := el_world _ w1). pose proof (waking_el hs _ w1 (wk_inv _ _ _ _ Hw1) : waking ∅ hs w1 w2) as Hw2.
  destruct (after_select hs r2 es w2 (wk_inv _ _ _ _ Hw2)) as (r3 & ts3 & w3 & H3 & Hw3 & _).
  eexists r3, _, w3. split; [exact H3|].
  exact (waking_trans _ _ _ _ _ _ Hw1 (waking_trans _ _ _ _ _ _ Hw2 Hw3)).
Qed.

(** Without the ring, exactly the coroutines of the events are woken. *)
Lemma poll_exact hs ufuel left_time w es m :
  inv clock hs w → support_io_uring = false →
  el_poller (the_loop w) ∉ waiting (el_sel (the_loop w)) →
  mio_poll (el_poller (the_loop w)) left_time (mio (el_sel (the_loop w))) = (IoOk tt, es, m) →
  ∃ w', poll_resume ufuel left_time w = Done (IoOk tt) w'
    ∧ waking (ready_tokens es ∩ COROUTINE_TOKENS (the_loop w)) hs w w'.
Proof.
  intros Hi Hs Hp Hm. unfold EventLoop.poll_resume.
  assert (ring_fuel ufuel w) as Hf by (intros ?; congruence).
  destruct (adapt_spec hs ufuel left_time w Hi Hf) as (r1 & ts1 & w1 & H1 & _ & _ & _ & Hoff).
  destruct (Hoff Hs) as [-> ->].
  erewrite bind_done by exact H1. unfold try_. erewrite bind_done by reflexivity.
  cbv beta iota. erewrite bind_done by reflexivity.
  destruct (select_done _ left_time (el_sel (the_loop w)) _ es m Hp Hm) as (s & Hsel).
  erewrite bind_done by (unfold on_sel; by apply zoom_done). cbv beta iota.
  set (w2 := el_world _ w). pose proof (waking_el hs _ w Hi : waking ∅ hs w w2) as Hw2.
  destruct (after_select hs (IoOk tt) es w2 (wk_inv _ _ _ _ Hw2)) as (r3 & ts3 & w3 & H3 & Hw3 & Hok).
  destruct (Hok eq_refl) as [-> ->]. exists w3. split; [exact H3|].
  pose proof (waking_trans _ _ _ _ _ _ Hw2 Hw3) as Hw. by rewrite union_empty_l_L in Hw.
Qed.

(** *** Waiting on the thread of the loop *)

Section waiting.
Context (switch : M W unit).
Abbreviation wait_just :=
  (wait_just clock listener_call switch support_io_uring is_supported instant).

(** No coroutine is running. *)
Definition on_thread w : Prop := COROUTINE (tls w) = [] ∧ SUSPENDER (tls w) = [].

Lemma in_syscall_none {A} (k : handle → SyscallName → SyscallState → M W (option A)) w :
  COROUTINE (tls w) = [] → in_syscall k w = Done None w.
Proof. intros Hc. unfold in_syscall. erewrite bind_done by reflexivity. by rewrite Hc. Qed.

(** The first half does nothing but read the clock. *)
Lemma wait_just_thread ufuel timeout w :
  on_thread w →
  wait_just ufuel timeout w
  = poll_resume ufuel timeout (match timeout with Some _ => tick_world w | None => w end).
Proof.
  intros [Hc Hs]. unfold EventLoop.wait_just. destruct timeout as [time|]; [|done].
  rewrite bind_assoc. erewrite bind_done by reflexivity. fold (tick_world w).
  unfold enter_wait, leave_wait, until_current. rewrite !bind_assoc.
  erewrite bind_done by (by apply in_syscall_none).
  erewrite bind_done by reflexivity. rewrite !bind_assoc. erewrite bind_done by reflexivity.
  change (tls (tick_world w)) with (tls w). rewrite Hs. cbv beta iota.
  erewrite bind_done by reflexivity. rewrite !bind_assoc.
  erewrite bind_done by (by apply in_syscall_none).
  erewrite bind_done by reflexivity. by erewrite bind_done by reflexivity.
Qed.

Lemma tick_held hs w : inv clock hs w → inv clock hs (tick_world w).
Proof. intros Hi. by apply (tick_inv clock clock_mono hs w ∅). Qed.

Lemma wait_exact ufuel timeout w es m :
  inv clock [] w → on_thread w → support_io_uring = false →
  el_poller (the_loop w) ∉ waiting (el_sel (the_loop w)) →
  mio_poll (el_poller (the_loop w)) timeout (mio (el_sel (the_loop w))) = (IoOk tt, es, m) →
  ∃ w', wait_just ufuel timeout w = Done (IoOk tt) w' ∧ inv clock [] w' ∧ on_thread w'
    ∧ (∀ h, h ∈ pq_elems (s_ready (ext w)) → h ∈ pq_elems (s_ready (ext w')))
    ∧ ∀ i h, s_syscall (ext w) !! i = Some h →
        if decide (i ∈ ready_tokens es ∩ COROUTINE_TOKENS (the_loop w))
        then s_syscall (ext w') !! i = None ∧ h ∈ pq_elems (s_ready (ext w'))
             ∧ ∃ nm, co_state_of w' h = Some (Syscall tt nm Callback)
        else s_syscall (ext w') !! i = Some h.
Proof.
  intros Hi Ht Hs Hp Hm. rewrite (wait_just_thread ufuel timeout w Ht).
  set (w0 := match timeout with Some _ => tick_world w | None => w end).
  assert (inv clock [] w0 ∧ the_loop w0 = the_loop w ∧ ext w0 = ext w ∧ tls w0 = tls w)
    as (Hi0 & Hl0 & He0 & Ht0).
  { unfold w0. destruct timeout; split_and!; try done. by apply tick_held. }
  destruct (poll_exact [] ufuel timeout w0 es m) as (w' & Hr & Hw); rewrite ?Hl0; try done.
  rewrite Hl0 in Hw. exists w'. split; [done|]. split; [apply Hw|]. split.
  { unfold on_thread. rewrite (wk_tls _ _ _ _ Hw), Ht0. exact Ht. }
  split.
  - intros h Hh. apply (wk_kept _ _ _ _ Hw). by rewrite He0.
  - intros i h Hh. rewrite <-He0 in Hh. destruct (decide _) as [Hin|Hin].
    + by apply (wk_woken _ _ _ _ Hw).
    + by rewrite (wk_rest _ _ _ _ Hw i Hin).
Qed.


(** Events do not wake coroutines with wide ids: the poller reports
    descriptors under the 32-bit foldings of their tokens, while the loop's list
    has the ids themselves. When no id on the list fits 32 bits, which is
    nearly always so for the hashes that ids are, a poll, whatever events it
    returns, leaves every coroutine asleep until its time limit. *)
Theorem wide_ids_sleep_on ufuel timeout w es m :
  inv clock [] w → on_thread w → support_io_uring = false →
  el_poller (the_loop w) ∉ waiting (el_sel (the_loop w)) →
  mio_poll (el_poller (the_loop w)) timeout (mio (el_sel (the_loop w))) = (IoOk tt, es, m) →
  (∀ ev, ev ∈ es → ∃ token, 0 ≤ token ∧ ev_token ev = fold_token token) →
  (∀ token, token ∈ COROUTINE_TOKENS (the_loop w) → 2 ^ 32 ≤ token) →
  ∃ w', wait_just ufuel timeout w = Done (IoOk tt) w'
    ∧ ∀ i h, s_syscall (ext w) !! i = Some h → s_syscall (ext w') !! i = Some h.
Proof.
  intros Hi Ht Hs Hp Hm Hes Htok.
  destruct (wait_exact ufuel timeout w es m Hi Ht Hs Hp Hm) as (w' & Hr & _ & _ & _ & Hw).
  exists w'. split; [done|]. intros i h Hh. specialize (Hw i h Hh).
  rewrite decide_False in Hw; [done|]. intros [Hin Hin']%elem_of_intersection.
  apply Htok in Hin'. apply elem_of_list_to_set, list_elem_of_fmap in Hin as (ev & -> & Hev).
  apply list_elem_of_filter in Hev as [_ Hev]. destruct (Hes ev Hev) as (token & Hpos & Heq).
  pose proof (fold_token_bound token Hpos). lia.
Qed.

(** *** Waiting inside a coroutine *)

Lemma in_syscall_some {A} (k : handle → SyscallName → SyscallState → M W (option A)) h nm st w :
  current_in h (Syscall tt nm st) w → in_syscall k w = k h nm st w.
Proof.
  intros Hc. destruct (current_in_co h _ w Hc) as (c & Hco & Hs).
  unfold in_syscall. erewrite bind_done by reflexivity. rewrite (proj1 Hc).
  erewrite bind_done by (unfold state, with_co; rewrite Hco; reflexivity). by rewrite Hs.
Qed.

Lemma syscall_held h nm st st' w :
  inv clock [h] w → current_in h (Syscall tt nm st) w →
  ∃ w', syscall listener_call h tt nm st' w = Done (IoOk tt) w' ∧ inv clock [h] w'
    ∧ current_in h (Syscall tt nm st') w' ∧ tls w' = tls w ∧ the_loop w' = the_loop w.
Proof.
  intros Hi [Hh Hs].
  destruct (op_spec clock clock_mono listener_call lok_sched [h] h (OpSyscall tt nm st') _
    (Syscall tt nm st') w ∅ Hi ltac:(set_solver) Hs) as (w' & Hr & Hi' & _ & Hs' & _ & Ht & _).
  { intros n _. constructor. }
  { by inversion 1. }
  exists w'. split; [exact Hr|]. split; [done|]. split; [split; [by rewrite Ht|done]|].
  split; [done|]. by apply (op_loop h (OpSyscall tt nm st') w _ w' Hr).
Qed.

(** C24. A wait inside a coroutine suspends its system call and brings it back:
    the coroutine is marked as suspended until the deadline and switched out;
    when it is resumed, called back or timed out, it is executing its call
    again, its suspender is current again, and the selector is polled without
    waiting any longer. *)
Theorem wait_returns_to_call ufuel time h nm su w :
  inv clock [h] w →
  current_in h (Syscall tt nm Executing) w → head (SUSPENDER (tls w)) = Some su →
  (∀ w1, inv clock [h] w1 → the_loop w1 = the_loop w →
     current_in h (Syscall tt nm (SSuspend (get_timeout_time (clock (w_tick w)) time))) w1 →
     SUSPENDER (tls w1) = tail (SUSPENDER (tls w)) →
     ∃ st w2, switch w1 = Done tt w2 ∧ (st = Callback ∨ st = Timeout)
       ∧ current_in h (Syscall tt nm st) w2 ∧ inv clock [h] w2 ∧ ring_fuel ufuel w2) →
  ∃ r w', wait_just ufuel (Some time) w = Done r w'
    ∧ current_in h (Syscall tt nm Executing) w' ∧ head (SUSPENDER (tls w')) = Some su
    ∧ inv clock [h] w'.
Proof.
  intros Hi Hc Hsu Hsw. unfold EventLoop.wait_just. rewrite bind_assoc.
  erewrite bind_done by reflexivity. fold (tick_world w).
  set (ts := get_timeout_time (clock (w_tick w)) time) in *.
  unfold enter_wait. rewrite !bind_assoc.
  destruct (syscall_held h nm Executing (SSuspend ts) (tick_world w) (tick_held _ _ Hi) Hc)
    as (w1 & H1 & Hi1 & Hc1 & Ht1 & Hl1). change (tls (tick_world w)) with (tls w) in Ht1.
  erewrite bind_done by (rewrite (in_syscall_some _ h nm Executing) by exact Hc;
    erewrite bind_done by exact H1; reflexivity).
  erewrite bind_done by reflexivity. unfold until_current. rewrite !bind_assoc.
  erewrite bind_done by reflexivity. rewrite Ht1, Hsu. cbv beta iota. rewrite !bind_assoc.
  erewrite bind_done by reflexivity. rewrite !bind_assoc.
  match goal with |- context [(switch ≫= _) ?x] => set (w2 := x) end.
  destruct (Hsw w2) as (st & w3 & H3 & Hst & Hc3 & Hi3 & Hf3); [|exact Hl1|exact Hc1|simpl; by rewrite Ht1|].
  { unfold w2. by do 2 (eapply (tls_inv clock [h] _ _ ∅)). }
  erewrite bind_done by exact H3. rewrite !bind_assoc. erewrite bind_done by reflexivity.
  erewrite bind_done by reflexivity. set (w4 := set_tls (tls_push_susp su) w3).
  assert (inv clock [h] w4) as Hi4.
  { by apply (tls_inv clock [h] (tls_push_susp su) w3 ∅). }
  destruct (syscall_held h nm st Executing w4 Hi4 Hc3) as (w5 & H5 & Hi5 & Hc5 & Ht5 & Hl5).
  unfold leave_wait. rewrite !bind_assoc.
  erewrite bind_done by (rewrite (in_syscall_some _ h nm st) by exact Hc3;
    destruct Hst as [->| ->]; erewrite bind_done by exact H5; reflexivity).
  erewrite bind_done by reflexivity. erewrite bind_done by reflexivity.
  destruct (poll_spec [h] ufuel (Some 0) w5 Hi5) as (r & tks & w6 & H6 & Hw6).
  { unfold ring_fuel. by rewrite Hl5. }
  exists r, w6. split; [exact H6|]. rewrite (wk_tls _ _ _ _ Hw6), Ht5.
  split; [|split; [done|apply Hw6]]. split.
  - rewrite (wk_tls _ _ _ _ Hw6). apply Hc5.
  - rewrite (wk_hand _ _ _ _ Hw6 h) by set_solver. apply Hc5.
Qed.

(** *** Waiting for a whole time *)

Lemma wait_thread_spec ufuel time w :
  inv clock [] w → on_thread w → support_io_uring = false →
  ∃ r w', wait_just ufuel (Some time) w = Done r w' ∧ inv clock [] w' ∧ on_thread w'
    ∧ (w_tick w < w_tick w')%nat.
Proof.
  intros Hi Ht Hs. rewrite (wait_just_thread ufuel (Some time) w Ht).
  destruct (poll_spec [] ufuel (Some time) (tick_world w) (tick_held [] w Hi)) as (r & ts & w' & Hr & Hw).
  { intros ?. congruence. }
  exists r, w'. split; [exact Hr|]. split; [apply Hw|]. split.
  - unfold on_thread. by rewrite (wk_tls _ _ _ _ Hw).
  - pose proof (pr_tick _ _ _ _ _ _ (wk_progress _ _ _ _ Hw)) as Hk. simpl in Hk. lia.
Qed.

Lemma timed_wait_loop_spec fuel ufuel deadline w (n : nat) :
  inv clock [] w → on_thread w → support_io_uring = false →
  deadline ≤ clock n → (n < w_tick w + fuel)%nat → (0 < fuel)%nat →
  ∃ r w', timed_wait_loop clock fuel (wait_just ufuel) deadline w = Done r w'
    ∧ inv clock [] w' ∧ (r = IoOk tt → deadline ≤ clock (w_tick w')).
Proof.
  revert w. induction fuel as [|fuel IH]; intros w Hi Ht Hs Hn Hf Hpos; [lia|].
  cbn [timed_wait_loop]. erewrite bind_done by reflexivity. fold (tick_world w).
  set (left := Z.min _ _). pose proof (tick_held [] w Hi) as Hi0.
  destruct (wait_thread_spec ufuel left (tick_world w) Hi0 Ht Hs) as (r & w1 & H1 & Hi1 & Ht1 & Hk1).
  simpl in Hk1. destruct (left =? 0) eqn:E; breflect.
  - rewrite E in H1. exists r, w1. split; [exact H1|]. split; [done|]. intros _.
    assert (deadline ≤ clock (w_tick w)) by (unfold left, sat_sub in E; lia).
    pose proof (clock_mono (w_tick w) (w_tick w1)). lia.
  - unfold try_. erewrite bind_done by exact H1. destruct r as [[]|err].
    2: { exists (IoErr err), w1. by split_and!. }
    assert (w_tick w < n)%nat as Hlt.
    { apply Nat.nle_gt. intros Hle. apply clock_mono in Hle. unfold left, sat_sub in E. lia. }
    apply IH; try done; lia.
Qed.

End waiting.

(** ** Submissions to the ring *)

Lemma await_result_done t w arc w1 :
  await_result t w = Done (IoOk arc) w1 → syscall_wait_table (the_loop w1) !! t = Some arc.
Proof.
  unfold await_result. erewrite bind_done by reflexivity. erewrite bind_done by reflexivity.
  unfold assert_, mbind, M_bind. destruct (bool_decide _); [|done]. intros [= <- <-]. apply lookup_insert_eq.
Qed.

(** Handing over a result that is waited for. *)
Lemma hand_over_waited t v e arc :
  syscall_wait_table e !! t = Some arc →
  arcs (hand_over t v e) !! arc = Some (Some v) ∧ syscall_wait_table (hand_over t v e) !! t = None.
Proof.
  intros Ht. unfold hand_over. rewrite Ht. simpl. by rewrite lookup_insert_eq, lookup_delete_eq.
Qed.

(** Who submits. *)
Definition submitter (thread_token : SyscallName → Z) (name : SyscallName) w : option Z :=
  match head (COROUTINE (tls w)) with
  | Some h => co_id <$> cos w !! h
  | None => Some (thread_token name)
  end.

Lemma token_done thread_token name t w :
  submitter thread_token name w = Some t →
  ∃ tokens, token thread_token name w = Done t (el_world (el_set_tokens tokens) w).
Proof.
  unfold submitter, token. intros Ht. erewrite bind_done by reflexivity.
  destruct (head (COROUTINE (tls w))) as [h|].
  - unfold with_co. destruct (cos w !! h) as [c|]; [|done]. injection Ht as <-.
    by eexists (COROUTINE_TOKENS (the_loop w) ∪ {[ co_id c ]}).
  - injection Ht as <-. exists (COROUTINE_TOKENS (the_loop w)). unfold mret, M_ret. f_equal.
    destruct w as [? ? ? []]; unfold el_world, set_ext, upd_pool, p_set_ext, el_set_tokens; simpl.
    repeat f_equal. by destruct s_ext as [? ? ? ? ? ? ? ? ? ? ? ? ? ? ? []].
Qed.

(** C26. A result of the ring finds its submitter: a system call is submitted
    under the token of the coroutine, or thread, that makes it, and when the
    ring reports a completion under that token, its result is in the handle
    the submission returned, and the token is free for the next call. *)
Theorem submission_completes hs thread_token name o arc v t w w1 :
  inv clock hs w1 → submitter thread_token name w = Some t → t ≠ IO_URING_TIMEOUT_USERDATA →
  uring_submit thread_token support_io_uring is_supported name o w = Done (IoOk arc) w1 →
  ∃ w2, complete_cqe listener_call (t, v) w1 = Done tt w2
    ∧ arcs (the_loop w2) !! arc = Some (Some v) ∧ syscall_wait_table (the_loop w2) !! t = None
    ∧ inv clock hs w2.
Proof.
  intros Hi Ht Hne Hsub. destruct (token_done thread_token name t w Ht) as [tokens Htok].
  unfold uring_submit in Hsub. erewrite bind_done in Hsub by exact Htok.
  unfold try_ in Hsub. apply bind_done_inv in Hsub as (r & w3 & _ & Hsub).
  destruct r as [[]|]; [|done]. apply await_result_done in Hsub.
  destruct (complete_cqe_spec hs (t, v) w1 Hi) as (w2 & H2 & Hl2 & Hw2).
  exists w2. split; [exact H2|]. rewrite Hl2. unfold deliver. simpl.
  rewrite (proj2 (Z.eqb_neq _ _)) by done.
  destruct (hand_over_waited t v _ _ Hsub) as [-> ->]. split_and!; try done. apply Hw2.
Qed.

(** A submission that fails is made twice: when the ring has taken the entry
    but cannot submit it now, the call is reported as failed, nobody waits for
    its result, and the io_uring layer goes on with the next layer, which
    makes the system call itself; the entry is still with the ring, which will
    make it again. *)
Theorem failed_submission_runs_twice `{!HasSys (Sched RQ Po)} thread_token switch range name o err
  wait inner t w :
  submitter thread_token name w = Some t →
  support_io_uring = true → is_supported (call_code o) = true → call_fits o = true →
  (∀ r, (ring_submit (R := R) r).1 = IoErr err) → raw_os_error err ≠ Some 4 →
  ∃ (en : Entry) w1, io_uring listener_call switch range
      (uring_submit thread_token support_io_uring is_supported name o) wait inner w = inner w1
    ∧ entry_of t o en
    ∧ given (el_operator (the_loop w1)) ≡ₚ en :: given (el_operator (the_loop w))
    ∧ syscall_wait_table (the_loop w1) = syscall_wait_table (the_loop w).
Proof.
  intros Ht Hs Ho Hfit Hfail Herr. destruct (token_done thread_token name t w Ht) as [tokens Htok].
  set (w0 := el_world (el_set_tokens tokens) w) in *.
  destruct (run_uring_op_fails support_io_uring is_supported t o err (el_operator (the_loop w0))
    Hs Ho Hfit Hfail Herr) as (en & s' & Hr & He & Hg).
  exists en, (el_world (el_set_operator s') w0). split; [|by split_and!].
  assert (uring_submit thread_token support_io_uring is_supported name o w
    = Done (IoErr err) (el_world (el_set_operator s') w0)) as Hsub.
  { unfold uring_submit. erewrite bind_done by exact Htok. unfold try_.
    by erewrite bind_done by (unfold on_operator; by apply zoom_done). }
  unfold io_uring. by erewrite bind_done by exact Hsub.
Qed.
End properties.
