(* ===== verification/EventLoops.v ===== *)
(** * EventLoops: the manager of the loops, and join handles

    Models [core/src/net/mod.rs] (the static manager, which spreads work over
    the event loops in turn) and [core/src/net/join.rs] (handles of submitted
    tasks). The manager uses its loops through the interface [LoopOps], whose
    operations are those of [EventLoop]; a loop is named by its position. *)

From stdpp Require Import sorting base numbers strings gmap list.
From S2P Require Import Prelude Common Config Operator.

Abbreviation Ret := (option Z).

(** What the manager and the handles use of the loops; [S] is the state of all
    of them. *)
Record LoopOps (S F I : Type) : Type := mkLoopOps {
  (** [EventLoop::new] and [start] *)
  lo_start : nat → Config → M S (io_result unit);
  (** [EventLoop::current] *)
  lo_current : M S (option nat);
  lo_submit_task : nat → option string → F → option Z → option Z → M S (io_result Z);
  lo_try_cancel_task : Z → M S unit;
  lo_submit_co : nat → I → option Z → option Z → M S (io_result unit);
  lo_timed_wait_just : nat → option Z → M S (io_result unit);
  lo_wait_just : nat → option Z → M S (io_result unit);
  lo_add_read_event : nat → Z → M S (io_result unit);
  lo_add_write_event : nat → Z → M S (io_result unit);
  lo_del_event : nat → Z → M S (io_result unit);
  lo_del_read_event : nat → Z → M S (io_result unit);
  lo_del_write_event : nat → Z → M S (io_result unit);
  lo_uring : nat → uring_op → M S (io_result nat);
  lo_wait_task_result : nat → Z → Z → M S (io_result (Ret + string));
  lo_clean_task_result : nat → Z → M S unit;
  lo_stop : nat → Z → M S (io_result unit);
  (** the counter of running loops, and the other threads while one waits for it *)
  lo_shared_stop : M S Z;
  lo_shared_wait : Z → M S unit;
  (** [Monitor::stop] with the feature [preemptive], nothing without *)
  lo_monitor_stop : M S unit;
  lo_now : M S Z;
}.
Arguments lo_start {S F I}.
Arguments lo_current {S F I}.
Arguments lo_submit_task {S F I}.
Arguments lo_try_cancel_task {S F I}.
Arguments lo_submit_co {S F I}.
Arguments lo_timed_wait_just {S F I}.
Arguments lo_wait_just {S F I}.
Arguments lo_add_read_event {S F I}.
Arguments lo_add_write_event {S F I}.
Arguments lo_del_event {S F I}.
Arguments lo_del_read_event {S F I}.
Arguments lo_del_write_event {S F I}.
Arguments lo_uring {S F I}.
Arguments lo_wait_task_result {S F I}.
Arguments lo_clean_task_result {S F I}.
Arguments lo_stop {S F I}.
Arguments lo_shared_stop {S F I}.
Arguments lo_shared_wait {S F I}.
Arguments lo_monitor_stop {S F I}.
Arguments lo_now {S F I}.

(** [EventLoops]: the index of the next loop and the number of loops. *)
Record EventLoops : Type := mkLoops { index : Z; loops : nat }.

(** [JoinHandle]: a loop and a task id. *)
Record JoinHandle : Type := mkHandle { jh_loop : nat; jh_task : Z }.

Section event_loops.
Context {S F I : Type} (ops : LoopOps S F I).

(** The static [INSTANCE] beside the loops. *)
Record Net : Type := mkNet { INSTANCE : option EventLoops; net : S }.

Definition on_net {A} (m : M S A) : M Net A := λ s,
  match m (net s) with
  | Done a x => Done a (mkNet (INSTANCE s) x)
  | Panic msg x => Panic msg (mkNet (INSTANCE s) x)
  | NoFuel => NoFuel
  end.

(** [EventLoops::new]: the loops are made and started in order. *)
Fixpoint start_loops (ids : list nat) (c : Config) : M S (io_result unit) :=
  match ids with
  | [] => mret (IoOk tt)
  | i :: ids => _ <-? lo_start ops i c; start_loops ids c
  end.

Definition event_loops_new (c : Config) : M Net (io_result EventLoops) :=
  _ <-? on_net (start_loops (seq 0 (Z.to_nat (event_loop_size c))) c);
  mret (IoOk (mkLoops 0 (Z.to_nat (event_loop_size c)))).

Definition init (c : Config) : M Net unit :=
  i ← gets INSTANCE;
  match i with
  | Some _ => mret tt
  | None =>
      r ← event_loops_new c;
      match r with
      | IoErr _ => panic "init default EventLoops failed !"
      | IoOk l => modify (λ s, mkNet (Some l) (net s))
      end
  end.

Definition round_robin : M Net nat :=
  i ← gets INSTANCE;
  match i with
  | None => panic "EventLoops not init !"
  | Some l =>
      _ ← modify (λ s, mkNet (Some (mkLoops (wrap 64 (index l + 1)) (loops l))) (net s));
      if decide (loops l = 0%nat)
      then panic "attempt to calculate the remainder with a divisor of zero"
      else mret (Z.to_nat (index l mod Z.of_nat (loops l)))
  end.

Definition event_loop : M Net nat :=
  c ← on_net (lo_current ops);
  match c with Some i => mret i | None => round_robin end.

(** ** join.rs *)

Definition handle_new (i : nat) (task_id : Z) : JoinHandle := mkHandle i task_id.
Definition handle_err (i : nat) : JoinHandle := handle_new i 0.

Definition handle_id (j : JoinHandle) : io_result Z :=
  if jh_task j =? 0 then IoErr (InvalidInput "Invalid task id") else IoOk (jh_task j).

Definition timeout_at_join (j : JoinHandle) (timeout_time : Z)
  : M Net (io_result (Ret + string)) :=
  task_id <-? mret (handle_id j);
  n ← on_net (lo_now ops);
  on_net (lo_wait_task_result ops (jh_loop j) task_id (sat_sub timeout_time n)).

Definition timeout_join (j : JoinHandle) (dur : Z) : M Net (io_result (Ret + string)) :=
  n ← on_net (lo_now ops); timeout_at_join j (get_timeout_time n dur).
Definition join (j : JoinHandle) : M Net (io_result (Ret + string)) := timeout_at_join j u64_max.

Definition handle_drop (j : JoinHandle) : M Net unit :=
  match handle_id j with
  | IoOk task_id => on_net (lo_clean_task_result ops (jh_loop j) task_id)
  | IoErr _ => mret tt
  end.

(** ** Tasks and coroutines *)

Definition submit_task (name : option string) (func : F) (param : option Z) (priority : option Z)
  : M Net JoinHandle :=
  i ← round_robin;
  r ← on_net (lo_submit_task ops i name func param priority);
  mret match r with IoErr _ => handle_err i | IoOk task_id => handle_new i task_id end.

Definition try_cancel_task (task_id : Z) : M Net unit := on_net (lo_try_cancel_task ops task_id).

Definition submit_co (f : I) (stack_size priority : option Z) : M Net (io_result unit) :=
  i ← round_robin; on_net (lo_submit_co ops i f stack_size priority).

(** ** Events *)

Definition wait_event (timeout : option Z) : M Net (io_result unit) :=
  i ← event_loop; on_net (lo_timed_wait_just ops i timeout).

Definition wait_read_event (fd : Z) (timeout : option Z) : M Net (io_result unit) :=
  i ← event_loop;
  _ <-? on_net (lo_add_read_event ops i fd);
  on_net (lo_wait_just ops i timeout).
Definition wait_write_event (fd : Z) (timeout : option Z) : M Net (io_result unit) :=
  i ← event_loop;
  _ <-? on_net (lo_add_write_event ops i fd);
  on_net (lo_wait_just ops i timeout).

(** One call for each loop, up to the first that fails. *)
Fixpoint for_loops (f : nat → M S (io_result unit)) (ids : list nat) : M S (io_result unit) :=
  match ids with
  | [] => mret (IoOk tt)
  | i :: ids => _ <-? f i; for_loops f ids
  end.

(** The current loop, or else all of them. *)
Definition current_or_all (f : nat → M S (io_result unit)) : M Net (io_result unit) :=
  c ← on_net (lo_current ops);
  match c with
  | Some i => _ <-? on_net (f i); mret (IoOk tt)
  | None =>
      l ← gets INSTANCE;
      match l with
      | None => panic "EventLoops not init !"
      | Some l => on_net (for_loops f (seq 0 (loops l)))
      end
  end.

Definition del_event (fd : Z) : M Net (io_result unit) :=
  current_or_all (λ i, lo_del_event ops i fd).
Definition del_read_event (fd : Z) : M Net (io_result unit) :=
  current_or_all (λ i, lo_del_read_event ops i fd).
Definition del_write_event (fd : Z) : M Net (io_result unit) :=
  current_or_all (λ i, lo_del_write_event ops i fd).

(** [impl_io_uring!] *)
Definition uring (o : uring_op) : M Net (io_result nat) :=
  i ← event_loop; on_net (lo_uring ops i o).

(** ** Stopping *)

(** Every loop is asked, whatever it answers. *)
Fixpoint stop_loops (ids : list nat) : M S unit :=
  match ids with
  | [] => mret tt
  | i :: ids => _ ← lo_stop ops i 0; stop_loops ids
  end.

Definition stop (wait_time : Z) : M Net (io_result unit) :=
  l ← gets INSTANCE;
  match l with
  | None => mret (IoOk tt)
  | Some l =>
      _ ← on_net (stop_loops (seq 0 (loops l)));
      n ← on_net (lo_shared_stop ops);
      _ ← (if 0 <? n then on_net (lo_shared_wait ops wait_time) else mret tt);
      n ← on_net (lo_shared_stop ops);
      if 0 <? n then mret (IoErr (TimedOut "stop timeout !"))
      else _ ← on_net (lo_monitor_stop ops); mret (IoOk tt)
  end.
End event_loops.

Arguments Net : clear implicits.

(** ** Properties *)

Section properties.
Context {S F I : Type} (ops : LoopOps S F I).
Implicit Types (s : Net S) (l : EventLoops) (j : JoinHandle).

(** The loops chosen by [k] calls. *)
Fixpoint round_robins (k : nat) : M (Net S) (list nat) :=
  match k with
  | O => mret []
  | Datatypes.S k => i ← round_robin; ids ← round_robins k; mret (i :: ids)
  end.

Lemma round_robin_done s l :
  INSTANCE s = Some l → loops l ≠ 0%nat →
  round_robin s = Done (Z.to_nat (index l mod Z.of_nat (loops l)))
    (mkNet (Some (mkLoops (wrap 64 (index l + 1)) (loops l))) (net s)).
Proof.
  intros Hi Hn. unfold round_robin. erewrite bind_done by reflexivity. rewrite Hi.
  erewrite bind_done by reflexivity. by rewrite decide_False.
Qed.

Lemma round_robins_done k s l :
  INSTANCE s = Some l → loops l ≠ 0%nat → 0 ≤ index l → index l + Z.of_nat k ≤ 2 ^ 64 →
  round_robins k s
  = Done ((λ i, Z.to_nat ((index l + i) mod Z.of_nat (loops l))) <$> seqZ 0 (Z.of_nat k))
      (mkNet (Some (mkLoops (if decide (k = 0%nat) then index l
                             else wrap 64 (index l + Z.of_nat k)) (loops l))) (net s)).
Proof.
  revert s l. induction k as [|k IH]; intros s l Hi Hn Hpos Hk.
  { simpl. destruct s as [i x]. simpl in Hi. rewrite Hi. by destruct l. }
  cbn [round_robins]. erewrite bind_done by (by apply round_robin_done).
  destruct (decide (k = 0%nat)) as [->|Hk0].
  { simpl. unfold mret, M_ret. rewrite Z.add_0_r. done. }
  assert (wrap 64 (index l + 1) = index l + 1) as Hw.
  { unfold wrap. apply Z.mod_small. lia. }
  erewrite bind_done by (apply (IH _ (mkLoops (wrap 64 (index l + 1)) (loops l))); simpl;
    [reflexivity|done|rewrite Hw; lia|rewrite Hw; lia]).
  rewrite !decide_False by done. unfold mret, M_ret. cbn [index loops net]. rewrite Hw. f_equal.
  - assert (seqZ 0 (Z.of_nat (Datatypes.S k)) = 0 :: (Z.add 1 <$> seqZ 0 (Z.of_nat k))) as ->.
    { rewrite seqZ_cons by lia. rewrite fmap_add_seqZ. do 2 f_equal. lia. }
    rewrite fmap_cons, Z.add_0_r, <-list_fmap_compose. f_equal.
    apply list_fmap_ext. intros ? i _. simpl. do 2 f_equal. lia.
  - replace (index l + 1 + Z.of_nat k) with (index l + Z.of_nat (Datatypes.S k)) by lia. done.
Qed.

(** Work is spread evenly: from any point of the counter that does not run
    over, as many consecutive choices as there are loops take every loop
    exactly once, so that no loop falls behind. Without loops a choice
    panics. *)
Theorem round_robin_fair s l :
  INSTANCE s = Some l → 0 ≤ index l → index l + Z.of_nat (loops l) ≤ 2 ^ 64 →
  (∃ ids s', round_robins (loops l) s = Done ids s' ∧ ids ≡ₚ seq 0 (loops l))
  ∧ (loops l = 0%nat → ∃ msg s', round_robin s = Panic msg s').
Proof.
  intros Hi Hpos Hfit. split.
  - destruct (decide (loops l = 0%nat)) as [Hz|Hz]; [rewrite Hz; by exists [], s|].
    eexists _, _. split; [by apply round_robins_done|]. symmetry.
    apply submseteq_length_Permutation.
    + apply NoDup_submseteq; [apply NoDup_seq|]. intros i Hin%elem_of_seq.
      pose proof (rotation_complete (index l mod Z.of_nat (loops l)) (Z.of_nat (loops l)) i) as Hr.
      assert (i ∈ (λ k, Z.to_nat ((index l mod Z.of_nat (loops l) + k) mod Z.of_nat (loops l)))
        <$> seqZ 0 (Z.of_nat (loops l))) as Hin'.
      { apply Hr; [|lia]. apply Z.mod_pos_bound. lia. }
      apply list_elem_of_fmap in Hin' as (k & -> & Hk). apply list_elem_of_fmap.
      exists k. split; [|done]. by rewrite Zplus_mod_idemp_l.
    + rewrite length_fmap, length_seqZ, length_seq. lia.
  - intros Hz. unfold round_robin. erewrite bind_done by reflexivity. rewrite Hi.
    erewrite bind_done by reflexivity. rewrite decide_True by done. by eexists _, _.
Qed.

(** What a submission returns can be told apart by its handle: when a loop
    accepts a task with a nonzero id, joining the handle waits for that task on
    that loop; when the loop refuses the task, joining reports an invalid id
    and asks no loop, and dropping the handle does nothing. A task whose id
    happens to be zero is treated as a refused one, though it runs. *)
Theorem handle_reports_submission i name func param priority s s1 r x dur :
  round_robin s = Done i s1 → lo_submit_task ops i name func param priority (net s1) = Done r x →
  let s2 := mkNet (INSTANCE s1) x in
  ∃ j, submit_task ops name func param priority s = Done j s2 ∧ jh_loop j = i
    ∧ match r with
      | IoOk task_id => if decide (task_id = 0)
          then join ops j s2 = Done (IoErr (InvalidInput "Invalid task id")) s2
               ∧ handle_drop ops j s2 = Done tt s2
          else timeout_at_join ops j dur s2
               = (n ← on_net (lo_now ops);
                  on_net (lo_wait_task_result ops i task_id (sat_sub dur n))) s2
      | IoErr _ => join ops j s2 = Done (IoErr (InvalidInput "Invalid task id")) s2
          ∧ handle_drop ops j s2 = Done tt s2
      end.
Proof.
  intros Hr Hs s2. unfold submit_task. erewrite bind_done by exact Hr.
  assert (on_net (lo_submit_task ops i name func param priority) s1 = Done r s2) as Hn.
  { unfold on_net. by rewrite Hs. }
  erewrite bind_done by exact Hn. eexists. split; [reflexivity|].
  unfold join, timeout_at_join, handle_drop, handle_id, handle_err, handle_new.
  destruct r as [task_id|e]; simpl; (split; [done|]); [|by split].
  destruct (decide (task_id = 0)) as [->|Hne]; [by split|].
  rewrite (proj2 (Z.eqb_neq _ _)) by done. reflexivity.
Qed.
End properties.
