(* ===== verification/EventLoopRuns.v ===== *)
(** * EventLoopRuns: a concrete event loop

    One event loop on first-in first-out queues, with the poller of [Selector]
    and the ring of [Operator] in memory, behind the manager of [EventLoops]:
    whole runs, and the applications of the theorems about loops, manager and
    handles. *)

From stdpp Require Import sorting base numbers strings gmap list.
From S2P Require Import Prelude Common Config QueueIface Coroutine Scheduler CoPool Selector Syscall.
From S2P Require Import Operator Beans EventLoop EventLoops.
From S2P Require Import CoPoolRuns.
Import SelectorExamples OperatorExamples.

Module LoopRun.

Abbreviation E := (EL Polls MemRing Sys).
Abbreviation Po := (Pool (list (Task job)) E).
Abbreviation Sc := (Sched (list handle) Po).
Abbreviation W := (World unit (option Z) Z Sc).

#[export] Instance loop_sys : HasSys Sc := {
  sys s := el_ext (p_ext (s_ext s));
  set_sys f := upd_pool (λ p, p_set_ext
    (let e := p_ext p in mkEL (el_poller e) (el_sel e) (el_operator e) (COROUTINE_TOKENS e)
       (syscall_wait_table e) (arcs e) (el_stop e) (shared_stop e) (el_beans e) (EVENT_LOOP e)
       (f (el_ext e))) p);
}.

(** A millisecond from one look at the clock to the next. *)
Definition ticks (k : nat) : Z := 1000000 * Z.of_nat k.

Lemma loop_ticks_mono i j : (i ≤ j)%nat → ticks i ≤ ticks j.
Proof. unfold ticks. lia. Qed.

Definition task_call (f : job) (param : option Z) : M W (option Z) :=
  match f with
  | Echo => mret param
  | Give v => mret (Some v)
  | Boom => panic "boom"
  end.

Definition names (w : W) : string := String.concat "" (replicate (size (cos w)) "x").
Definition body (h : handle) (_ : unit) : M W (CoroutineResult unit (option Z)) :=
  with_co h (λ c, worker_run ticks task_call 50 (co_inner c)).
Definition listen (_ : nat) (_ : handle) (ev : event unit (option Z)) : M W unit :=
  creator ticks worker hash alloc 4096 names ev.
(** Listeners that do nothing. *)
Definition silent (_ : nat) (_ : handle) (_ : event unit (option Z)) : M W unit := mret tt.

Definition no_sys : Sys := mkSys 0 ∅ ∅.
Definition no_records (es : list Event) : Sel Polls := mkSel ∅ ∅ ∅ ∅ ∅ ∅ ∅ (mkPolls ∅ es).
Definition idle_ring : Op MemRing := mkOp (mkRing [] 0 8 None) false [] 0 ∅.

Definition new_loop : W :=
  mkWorld ∅ (mkTls [] [] [] [] []) 0
    (event_loop_new "loop" [] [] 0 0 131072 0 2 0 (no_records []) idle_ring ∅ 0 new_factory no_sys).

(** ** The loop behind the manager *)

Definition thread_token (_ : SyscallName) : Z := 77.
Definition no_switch : M W unit := mret tt.
Definition never (_ : Z) : M W unit := mret tt.

(** Without the ring; the other threads do nothing while this one waits. *)
Definition one_loop : LoopOps W job Z := {|
  lo_start _ _ := r ← start ticks listen body 1 worker hash alloc 4096 names no_switch false all
      instants (mret (IoOk tt)) 10 60 5;
    mret match r with IoOk _ => IoOk tt | IoErr e => IoErr e end;
  lo_current := n ← el EVENT_LOOP; mret (match n with O => None | _ => Some 0%nat end);
  lo_submit_task _ := CoPool.submit_task hash names;
  lo_try_cancel_task := CoPool.try_cancel_task (λ _, mret tt);
  lo_submit_co _ := pool_submit_co hash alloc 4096 names;
  lo_timed_wait_just _ :=
    timed_wait_just ticks listen no_switch false all instants 100 5;
  lo_wait_just _ := wait_just ticks listen no_switch false all instants 5;
  lo_add_read_event _ := EventLoop.add_read_event thread_token;
  lo_add_write_event _ := EventLoop.add_write_event thread_token;
  lo_del_event _ := EventLoop.del_event;
  lo_del_read_event _ := EventLoop.del_read_event;
  lo_del_write_event _ := EventLoop.del_write_event;
  lo_uring _ o := match uring_name o with
                  | Some name => uring_submit thread_token false all name o
                  | None => mret (IoErr (Unsupported "unsupported"))
                  end;
  lo_wait_task_result _ := wait_task_result ticks task_call (λ _ _, mret tt) 50;
  lo_clean_task_result _ := clean_task_result;
  lo_stop _ := EventLoop.stop ticks listen body 1 worker hash alloc 4096 names no_switch false all
      instants never 10 60 5;
  lo_shared_stop := el shared_stop;
  lo_shared_wait := never;
  lo_monitor_stop := mret tt;
  lo_now := now_ ticks;
|}.

Definition fresh_net : Net W := mkNet None new_loop.

Definition done_state {S A} (r : outcome S A) (s : S) : S :=
  match r with Done _ s' | Panic _ s' => s' | NoFuel => s end.

(** The manager is made, its loop started, and a task submitted. *)
Definition started : Net W := done_state (init one_loop Config.single fresh_net) fresh_net.
Definition submitted : Net W :=
  done_state (EventLoops.submit_task one_loop (Some "a") (Give 7) None None started) started.
Definition the_handle : JoinHandle := mkHandle 0 1.

(** The thread of the loop runs. *)
Definition run_thread (s : Net W) : Net W :=
  done_state (on_net (thread_main ticks listen body 1 worker hash alloc 4096 names no_switch false
    all instants 40 60 5) s) s.

(** Stopping can be too early: the threads of the loops register when they
    start to run, so that [EventLoops::stop] right after start-up finds nobody
    to wait for and reports success at once, although a task that was submitted
    has not run and its loop is still to run it. Had the thread been running,
    the same call would have waited. *)
Theorem stop_before_threads_run :
  match stop one_loop 1000 submitted with
  | Done r s => r = IoOk tt ∧ p_state (the_pool (net s)) = PStopping
      ∧ p_results (the_pool (net s)) = ∅ ∧ length (p_task_queue (the_pool (net s))) = 1%nat
      ∧ p_results (the_pool (net (run_thread s))) = {[ 1 := inl (Some 7) ]}
  | _ => False
  end
  ∧ match stop one_loop 1000 (mkNet (INSTANCE submitted)
        (el_world (el_set_shared 1) (net submitted))) with
    | Done r _ => r = IoErr (TimedOut "stop timeout !")
    | _ => False
    end.
Proof. vm_compute. split_and!; reflexivity. Qed.

(** ** One coroutine waiting to read *)

Lemma silent_fine : listeners_ok silent loop_rel.
Proof. intros l h ev w. exists w. split; [reflexivity|by left]. Qed.

Definition co_in (id : Z) (st : CoroutineState unit (option Z)) : Coroutine unit (option Z) Z :=
  mkCo id "co" 0 st [] [] ∅ None.

(** The scheduler of a loop with the table [m] and the loop [e]. *)
Definition loop_sched (m : gmap Z handle) (e : E) : Sc :=
  mkSched "loop" 131072 [] [] [] m [] ∅ ∅ 0
    (mkPool PRunning [] 0 0 0 2 0 false ∅ ∅ ∅ ∅ ∅ ∅ 0 e).
Definition loop_with (es : list Event) (tokens : gset Z) (o : Op MemRing) : E :=
  mkEL 0 (no_records es) o tokens ∅ ∅ false 0 new_factory 0 no_sys.

Definition sleeper (id : Z) (es : list Event) : W :=
  mkWorld {[ 0%nat := co_in id (Syscall tt Common.read (SSuspend 5000000)) ]}
    (mkTls [] [] [] [] []) 0 (loop_sched {[ id := 0%nat ]} (loop_with es {[ id ]} idle_ring)).

Lemma small_store (w : W) (c : Coroutine unit (option Z) Z) :
  cos w = {[ 0%nat := c ]} → store_ok w.
Proof.
  intros Hc. unfold store_ok, ids_unique. rewrite Hc. split.
  - intros h1 h2 c1 c2 [<- _]%lookup_singleton_Some [<- _]%lookup_singleton_Some. done.
  - rewrite map_size_singleton. done.
Qed.

Lemma loop_sleeper_inv id es : inv ticks [] (sleeper id es).
Proof.
  split; simpl; try done.
  - unfold owned, containers. simpl. rewrite map_to_list_singleton. simpl. by apply NoDup_singleton.
  - intros h Hh. by apply not_elem_of_nil in Hh.
  - intros h Hh. by apply not_elem_of_nil in Hh.
  - constructor.
  - intros t h Hh. by apply not_elem_of_nil in Hh.
  - intros i h [<- <-]%lookup_singleton_Some. eexists _, _, _. by rewrite lookup_singleton_eq.
  - constructor.
  - by eapply small_store.
Qed.

Definition read_event (token : Z) : Event := mkEvent token true false.


Definition wide : Z := 2 ^ 40 + 12345.

Lemma wide_ids_sleep_on_witness :
  ∃ w', wait_just ticks silent no_switch false all instants 5 (Some 1000000)
      (sleeper wide [read_event (fold_token wide)]) = Done (IoOk tt) w'
    ∧ ∀ i h, s_syscall (ext (sleeper wide [read_event (fold_token wide)])) !! i = Some h →
        s_syscall (ext w') !! i = Some h.
Proof.
  apply (wide_ids_sleep_on ticks loop_ticks_mono silent silent_fine false all instants no_switch 5
    (Some 1000000) (sleeper wide [read_event (fold_token wide)]) [read_event (fold_token wide)]
    (mkPolls ∅ [])).
  - apply loop_sleeper_inv.
  - done.
  - done.
  - apply not_elem_of_empty.
  - reflexivity.
  - intros ev ->%list_elem_of_singleton. exists wide. split; [|reflexivity]. unfold wide. lia.
  - intros token Hin. change (token ∈ ({[ wide ]} : gset Z)) in Hin.
    apply elem_of_singleton in Hin as ->. unfold wide. lia.
Defined.

(** ** A coroutine that waits *)

Definition reader (o : Op MemRing) : W :=
  mkWorld {[ 0%nat := co_in 9 (Syscall tt Common.read Executing) ]}
    (mkTls [] [] [0%nat] [0%nat] []) 0 (loop_sched ∅ (loop_with [] ∅ o)).

Lemma reader_inv o : inv ticks [0%nat] (reader o).
Proof.
  split; simpl; try done.
  - unfold owned, containers. simpl. rewrite map_to_list_empty. by apply NoDup_singleton.
  - intros h ->%list_elem_of_singleton. rewrite lookup_singleton_eq. by eexists.
  - intros h Hh. by apply not_elem_of_nil in Hh.
  - constructor.
  - intros t h Hh. by apply not_elem_of_nil in Hh.
  - constructor.
  - by eapply small_store.
Qed.

(** The rest of the program calls it back. *)
Definition call_back : M W unit :=
  modify (set_cos (alter (co_set_state (Syscall tt Common.read Callback)) 0%nat)).

Lemma wait_returns_to_call_witness :
  ∃ r w', wait_just ticks silent call_back true all instants 5 (Some 1000000) (reader idle_ring)
      = Done r w'
    ∧ current_in 0 (Syscall tt Common.read Executing) w'
    ∧ head (SUSPENDER (tls w')) = Some 0%nat ∧ inv ticks [0%nat] w'.
Proof.
  apply (wait_returns_to_call ticks loop_ticks_mono silent silent_fine true all instants call_back 5
    1000000 0 Common.read 0%nat (reader idle_ring)).
  - apply reader_inv.
  - by split.
  - done.
  - intros w1 Hi Hl [Hh Hs] Hsu. eexists Callback, _. split; [reflexivity|]. split; [by left|].
    split; [|split].
    + split; [done|]. unfold co_state_of in *. simpl. rewrite lookup_alter_eq.
      by destruct (cos w1 !! 0%nat).
    + apply (alter_inv ticks loop_ticks_mono [0%nat] 0%nat (co_set_state _) w1); [|done|done].
      by apply list_elem_of_singleton.
    + unfold ring_fuel. simpl. intros _.
      change (S (length (backlog (el_operator (the_loop w1)))) < 5)%nat. rewrite Hl. simpl. lia.
Defined.


(** ** A read through the ring *)

Definition read_call : uring_op := URead 3 4096 100.
Definition after_submit (w : W) : W :=
  done_state (uring_submit thread_token true all Common.read read_call w) w.

Lemma after_submit_inv : inv ticks [0%nat] (after_submit (reader idle_ring)).
Proof.
  assert (after_submit (reader idle_ring)
    = el_world (λ _, the_loop (after_submit (reader idle_ring))) (reader idle_ring)) as ->
    by (vm_compute; reflexivity).
  apply el_world_inv, reader_inv.
Qed.

Lemma submission_completes_witness :
  ∃ w2, complete_cqe silent (9, 100) (after_submit (reader idle_ring)) = Done tt w2
    ∧ arcs (the_loop w2) !! 0%nat = Some (Some 100)
    ∧ syscall_wait_table (the_loop w2) !! 9 = None ∧ inv ticks [0%nat] w2.
Proof.
  apply (submission_completes ticks loop_ticks_mono silent silent_fine true all [0%nat] thread_token
    Common.read read_call 0%nat 100 9 (reader idle_ring)).
  - apply after_submit_inv.
  - reflexivity.
  - done.
  - vm_compute. reflexivity.
Defined.

(** *** A ring that takes entries but is always busy *)

Record BusyRing : Type := mkBusy { busy_log : list Entry }.

#[export] Instance busy_ring : Ring BusyRing := {
  ring_push e r := Some (mkBusy (busy_log r ++ [e]));
  ring_is_full _ := false;
  ring_submit r := (IoErr (OsError 16), r);
  ring_submit_and_wait _ r := (IoErr (OsError 16), r);
  ring_sync r := r;
  ring_completions r := ([], r);
  ring_log := busy_log;
}.

#[export] Instance busy_ring_laws : RingLaws BusyRing.
Proof. split; simpl; try done. by intros e r r' [= <-]. Qed.

Abbreviation BusySc := (Sched (list handle) (Pool (list (Task job)) (EL Polls BusyRing Sys))).
Abbreviation BusyW := (World unit (option Z) Z BusySc).

#[export] Instance busy_sys : HasSys BusySc := {
  sys s := el_ext (p_ext (s_ext s));
  set_sys f s := s;
}.

Definition busy_reader : BusyW :=
  mkWorld {[ 0%nat := co_in 9 (Syscall tt Common.read Executing) ]}
    (mkTls [] [] [0%nat] [0%nat] []) 0
    (mkSched "loop" 131072 [] [] [] ∅ [] ∅ ∅ 0
      (mkPool PRunning [] 0 0 0 2 0 false ∅ ∅ ∅ ∅ ∅ ∅ 0
        (mkEL 0 (no_records []) (mkOp (mkBusy []) false [] 0 ∅) ∅ ∅ ∅ false 0 new_factory 0
          no_sys))).

(** The call itself reads forty-two bytes. *)
Lemma failed_submission_runs_twice_witness :
  ∃ (en : Entry) w1, io_uring (λ _ _ _, mret tt) (mret tt) (λ _, true)
      (uring_submit thread_token true all Common.read read_call) (λ _, mret 0) (mret 42)
      busy_reader = Done 42 w1
    ∧ entry_of 9 read_call en
    ∧ given (el_operator (the_loop w1)) ≡ₚ [en]
    ∧ syscall_wait_table (the_loop w1) = ∅.
Proof.
  destruct (failed_submission_runs_twice (λ _ _ _, mret tt) true all thread_token (mret tt)
    (λ _, true) Common.read read_call (OsError 16) (λ _, mret 0) (mret 42) 9 busy_reader)
    as (en & w1 & Hr & He & Hg & Ht); [done..|].
  exists en, w1. split; [exact Hr|]. split; [exact He|]. split; [exact Hg|exact Ht].
Defined.

(** ** The manager *)

Definition three_loops : Net W := mkNet (Some (mkLoops 7 3)) new_loop.

Lemma round_robin_fair_witness :
  (∃ ids s', round_robins 3 three_loops = Done ids s' ∧ ids ≡ₚ [0; 1; 2]%nat)
  ∧ (3%nat = 0%nat → ∃ msg s', round_robin three_loops = Panic msg s').
Proof. apply (round_robin_fair three_loops (mkLoops 7 3)); simpl; [done|lia|lia]. Defined.

(** A stopping loop refuses the task. *)
Definition stopping_net : Net W :=
  mkNet (INSTANCE started) (set_ext (upd_pool (p_set_state PStopping)) (net started)).

Lemma handle_reports_submission_witness :
  ∃ j, EventLoops.submit_task one_loop (Some "a") (Give 7) None None stopping_net
      = Done j (mkNet (INSTANCE (done_state (round_robin stopping_net) stopping_net))
          (net stopping_net))
    ∧ jh_loop j = 0%nat
    ∧ join one_loop j (mkNet (INSTANCE (done_state (round_robin stopping_net) stopping_net))
          (net stopping_net))
      = Done (IoErr (InvalidInput "Invalid task id"))
          (mkNet (INSTANCE (done_state (round_robin stopping_net) stopping_net)) (net stopping_net))
    ∧ handle_drop one_loop j
        (mkNet (INSTANCE (done_state (round_robin stopping_net) stopping_net)) (net stopping_net))
      = Done tt
          (mkNet (INSTANCE (done_state (round_robin stopping_net) stopping_net))
            (net stopping_net)).
Proof.
  apply (handle_reports_submission one_loop 0%nat (Some "a") (Give 7) None None stopping_net
    (done_state (round_robin stopping_net) stopping_net)
    (IoErr (Other "The coroutine pool is stopping or stopped !")) (net stopping_net) 0).
  - vm_compute. reflexivity.
  - vm_compute. reflexivity.
Defined.

(** Submitting, joining from another thread after the loop has run, and dropping. *)
Example submit_run_join :
  match join one_loop the_handle (run_thread
      (mkNet (INSTANCE submitted) (set_ext (upd_pool (p_set_state PStopping)) (net submitted)))) with
  | Done r _ => r = IoOk (inl (Some 7))
  | _ => False
  end.
Proof. vm_compute. reflexivity. Qed.
End LoopRun.
