(* ===== verification/RingRaces.v ===== *)
(** * RingRaces: a call handed to the ring by a plain thread

    With the feature [io_uring] (on Windows [iocp]) a hooked call that is made
    outside of coroutines is handed to the ring of some event loop and waited for
    without a time limit. Three parties act at the same time: the calling
    thread ([net/event_loop.rs], [impl_io_uring!], and the wait in
    [syscall/unix/mod.rs]), the kernel, and the thread of the loop, which takes
    completions and looks for their callers ([adapt_io_uring]). [EventLoop] runs
    them one after another; here they interleave. *)

From stdpp Require Import sorting base numbers strings gmap list relations.
From S2P Require Import Prelude Interleave.

Inductive ract : Type :=
| RSubmit (token : Z)
| RInsert (token : Z)
| RCheck (a : nat)
| RWake (a : nat)
| RComplete (token result : Z)
| RTakeCqe
| RRemove (token : Z)
| RSignal (a : nat) (result : Z).

Definition rresp (a : ract) : Type :=
  match a with
  | RSubmit _ => bool
  | RInsert _ => bool * nat
  | RCheck _ => looked (option Z)
  | RTakeCqe => Z * Z
  | RRemove _ => option nat
  | RWake _ | RComplete _ _ | RSignal _ _ => unit
  end.

(** The ring (does it take entries, what is in flight, what is complete), the
    table of waiting calls and their cells. *)
Record ring : Type := mkRing {
  r_accepts : bool;
  r_inflight : list Z;
  r_completed : list (Z * Z);
  r_table : gmap Z nat;
  r_cells : list (cell (option Z));
}.
Implicit Types σ : ring.

Definition with_call {A} σ (a : nat) (f : cell (option Z) → option (A * cell (option Z)))
  : option (A * ring) :=
  match with_cell (r_cells σ) a f with
  | Some (r, cs) => Some (r, mkRing (r_accepts σ) (r_inflight σ) (r_completed σ) (r_table σ) cs)
  | None => None
  end.

Definition is_none (v : option Z) : bool := match v with None => true | Some _ => false end.

(** The kernel completes what is in flight; the loop takes the oldest completion,
    and waits while there is none. *)
Definition rexec (a : ract) σ : option (rresp a * ring) :=
  match a return option (rresp a * ring) with
  | RSubmit token =>
      Some (r_accepts σ,
            if r_accepts σ
            then mkRing true (token :: r_inflight σ) (r_completed σ) (r_table σ) (r_cells σ)
            else σ)
  | RInsert token =>
      let a := length (r_cells σ) in
      Some ((bool_decide (r_table σ !! token = None), a),
            mkRing (r_accepts σ) (r_inflight σ) (r_completed σ)
              (<[token:=a]> (r_table σ)) (r_cells σ ++ [mkCell None 0 0]))
  | RCheck a => with_call σ a (look is_none false)
  | RWake a => with_call σ a (wake false)
  | RComplete token result =>
      if bool_decide (token ∈ r_inflight σ) then
        Some (tt, mkRing (r_accepts σ) (filter (λ t, t ≠ token) (r_inflight σ))
                    (r_completed σ ++ [(token, result)]) (r_table σ) (r_cells σ))
      else None
  | RTakeCqe =>
      match r_completed σ with
      | [] => None
      | cqe :: rest =>
          Some (cqe, mkRing (r_accepts σ) (r_inflight σ) rest (r_table σ) (r_cells σ))
      end
  | RRemove token =>
      Some (r_table σ !! token,
            mkRing (r_accepts σ) (r_inflight σ) (r_completed σ)
              (delete token (r_table σ)) (r_cells σ))
  | RSignal a result => with_call σ a (signal (Some result))
  end.

#[global] Instance ring_actions : Actions ring ract := {
  resp := rresp;
  exec := rexec;
}.

Abbreviation rprog := (prog (S := ring) ract).
Definition rdo (a : ract) : rprog (rresp a) := act a.

(** ** The parties *)

(** What becomes of them: the call has its result, or the next layer is called
    because the ring refused the entry; the others are done. *)
Inductive rout : Type :=
| Called (result : Z)
| NextLayer
| RingDone.

(** [cvar.wait_while(lock, |&mut result| result.is_none())] and what the result
    is unwrapped to; the layer turns a negative one into [errno]. *)
Fixpoint c_wait_result (fuel : nat) (a : nat) : rprog rout :=
  match fuel with
  | O => Stop Fuel
  | S fuel =>
      l ← rdo (RCheck a);
      match (l : looked (option Z)) with
      | LDone (Some result) => Ret (Called result)
      | LDone None | LTimedOut => Stop (Panics "no syscall result")
      | LAsleep => _ ← rdo (RWake a); c_wait_result fuel a
      end
  end.

(** The calling thread: submit, enter the token, wait. *)
Definition c_call (fuel : nat) (token : Z) : rprog rout :=
  ok ← rdo (RSubmit token);
  if (ok : bool) then
    r ← rdo (RInsert token);
    if ((r : bool * nat).1) then c_wait_result fuel r.2
    else Stop (Panics "The previous token was not retrieved in a timely manner")
  else Ret NextLayer.

Definition c_kernel (token result : Z) : rprog rout :=
  _ ← rdo (RComplete token result);
  Ret RingDone.

(** What the loop does for a caller that it found, or did not find. *)
Definition c_hand_over (found : option nat) (result : Z) : rprog rout :=
  match found with
  | Some a => _ ← rdo (RSignal a result); Ret RingDone
  | None => Ret RingDone
  end.

(** One completion in [adapt_io_uring], other than that of the internal timer;
    resuming a coroutine concerns no plain thread. *)
Definition c_loop : rprog rout :=
  cqe ← rdo RTakeCqe;
  found ← rdo (RRemove (cqe : Z * Z).1);
  c_hand_over found cqe.2.

Definition parties (fuel : nat) (token result : Z) σ : config ract rout :=
  ([c_call fuel token; c_kernel token result; c_loop], σ).

(** ** The orders in which the three can act *)

Section orders.
Context (token result : Z) (fuel : nat) (a : nat).

(** The points of the caller once it has entered its token, of the kernel and of
    the loop. *)
Inductive cpoint : Type := CCheck | CAsleep | CRecheck | CDone.
Inductive lpoint : Type := KComplete | LTake | LRemove | LSignal | LEnd.

Definition cprog (c : cpoint) : rprog rout :=
  match c with
  | CCheck => c_wait_result (S (S fuel)) a
  | CAsleep => _ ← rdo (RWake a); c_wait_result (S fuel) a
  | CRecheck => c_wait_result (S fuel) a
  | CDone => Ret (Called result)
  end.

Definition kprog (l : lpoint) : rprog rout :=
  match l with KComplete => c_kernel token result | _ => Ret RingDone end.

Definition lprog (l : lpoint) : rprog rout :=
  match l with
  | KComplete | LTake => c_loop
  | LRemove => found ← rdo (RRemove token); c_hand_over found result
  | LSignal => c_hand_over (Some a) result
  | LEnd => Ret RingDone
  end.

Definition handed (l : lpoint) : bool := match l with LEnd => true | _ => false end.

Definition cell_at (c : cpoint) (l : lpoint) : cell (option Z) :=
  mkCell (if handed l then Some result else None)
    (match c with CAsleep => 1 | _ => 0 end)
    (match c with CAsleep => if handed l then 1 else 0 | _ => 0 end).

Definition entered (c : cpoint) (l : lpoint) σ : Prop :=
  (handed l = false → c = CCheck ∨ c = CAsleep)
  ∧ (l = KComplete → token ∈ r_inflight σ)
  ∧ r_completed σ = (match l with LTake => [(token, result)] | _ => [] end)
  ∧ r_table σ !! token = (match l with LSignal | LEnd => None | _ => Some a end)
  ∧ r_cells σ !! a = Some (cell_at c l).

Definition at_work (c : cpoint) (l : lpoint) σ : config ract rout :=
  ([cprog c; kprog l; lprog l], σ).

Lemma with_call_at {A} σ w (g : cell (option Z) → option (A * cell (option Z))) :
  r_cells σ !! a = Some w →
  with_call σ a g = (match g w with
                     | Some (x, w) =>
                         Some (x, mkRing (r_accepts σ) (r_inflight σ) (r_completed σ) (r_table σ)
                                    (<[a:=w]> (r_cells σ)))
                     | None => None
                     end).
Proof.
  intros H. unfold with_call. rewrite (with_cell_at _ _ _ _ H). by destruct (g w) as [[]|].
Qed.

Definition works_to (i : nat) (c : cpoint) (l : lpoint) σ : Prop :=
  step_of i (at_work c l σ) = None
  ∨ ∃ c' l' σ', step_of i (at_work c l σ) = Some (at_work c' l' σ') ∧ entered c' l' σ'.

Ltac make_step :=
  erewrite step_of_do by reflexivity; cbn [exec ring_actions rexec];
  repeat match goal with
  | H : r_cells _ !! a = Some _ |- _ => rewrite (with_call_at _ _ _ H)
  | H : r_completed _ = _ |- _ => rewrite H
  | H : r_table _ !! token = _ |- _ => rewrite H
  | H : ?t ∈ r_inflight _ |- _ => rewrite (bool_decide_eq_true_2 _ H)
  end; cbn.
Ltac now_at c l := right; eexists c, l, _; split; [reflexivity|].
Ltac same_state := split_and!; cbn in *; try done; try (by eapply set_cell_at); auto.

Lemma caller_works c l σ : entered c l σ → works_to 0 c l σ.
Proof.
  intros (Hc & Hk & Hcq & Ht & Ha). unfold works_to, at_work at 1 2.
  destruct (handed l) eqn:El.
  - destruct l; try done. clear Hc Hk.
    destruct c; unfold cell_at in Ha; cbn in Ha; [| | |by left]; make_step.
    + now_at CDone LEnd. same_state.
    + now_at CRecheck LEnd. same_state.
    + now_at CDone LEnd. same_state.
  - destruct (Hc eq_refl) as [-> | ->]; unfold cell_at in Ha; rewrite El in Ha; cbn in Ha.
    + make_step. now_at CAsleep l. unfold entered, cell_at. rewrite El.
      split_and!; cbn; auto. by eapply set_cell_at.
    + left. by make_step.
Qed.

Lemma kernel_works c l σ : entered c l σ → works_to 1 c l σ.
Proof.
  intros (Hc & Hk & Hcq & Ht & Ha). unfold works_to, at_work at 1 2.
  destruct l; try (by left). specialize (Hk eq_refl). make_step. now_at c LTake. same_state.
Qed.

Lemma loop_works c l σ : entered c l σ → works_to 2 c l σ.
Proof.
  intros (Hc & Hk & Hcq & Ht & Ha). unfold works_to, at_work at 1 2.
  destruct l; cbn in Hcq, Ht.
  - left. make_step. done.
  - make_step. now_at c LRemove. same_state.
  - make_step. now_at c LSignal. same_state. apply lookup_delete_eq.
  - destruct (Hc eq_refl) as [-> | ->]; make_step; now_at CCheck LEnd || now_at CAsleep LEnd;
      same_state.
  - by left.
Qed.

Lemma at_work_step c l σ x :
  entered c l σ → step (at_work c l σ) x →
  ∃ c' l' σ', x = at_work c' l' σ' ∧ entered c' l' σ'.
Proof.
  intros He [i Hi]%step_step_of.
  assert (works_to i c l σ) as [E|(c' & l' & σ' & E & He')].
  { destruct i as [|[|[|i]]]; [by apply caller_works|by apply kernel_works
      |by apply loop_works|by left]. }
  - by rewrite E in Hi.
  - rewrite E in Hi. simplify_eq. eauto.
Qed.

Lemma at_work_progress c l σ :
  entered c l σ → (∃ x, step (at_work c l σ) x) ∨ (c = CDone ∧ l = LEnd).
Proof.
  intros (Hc & Hk & Hcq & Ht & Ha).
  assert (∀ i, step_of i (at_work c l σ) ≠ None → ∃ x, step (at_work c l σ) x) as Hstep.
  { intros i Hi. destruct (step_of i _) as [x|] eqn:E; [|done]. exists x.
    by eapply step_of_step. }
  destruct l; cbn in Hcq, Ht.
  - left. apply (Hstep 1%nat). specialize (Hk eq_refl). unfold at_work. by make_step.
  - left. apply (Hstep 2%nat). unfold at_work. by make_step.
  - left. apply (Hstep 2%nat). unfold at_work. by make_step.
  - left. apply (Hstep 2%nat). unfold at_work. by make_step.
  - destruct c; [left; apply (Hstep 0%nat); unfold at_work, cell_at in *; by make_step..|by right].
Qed.
End orders.

(** C27. A call whose token is in the table before the kernel completes it gets its
    result: whatever the interleaving of the waiting thread, the kernel and the
    thread of the loop, every run ends, and it cannot end otherwise than with
    the thread holding the result of its own call. *)
Theorem entered_call_gets_result token result a fuel σ :
  token ∈ r_inflight σ → r_completed σ = [] → r_table σ !! token = Some a →
  r_cells σ !! a = Some (mkCell None 0 0) → (2 ≤ fuel)%nat →
  let c0 := ([c_wait_result fuel a; c_kernel token result; c_loop], σ) in
  sn step c0
  ∧ ∀ c, reachable c0 c → (∃ c', step c c')
      ∨ c.1 = [Ret (Called result); Ret RingDone; Ret RingDone].
Proof.
  intros Hk Hcq Ht Ha Hf c0. split; [apply steps_end|]. intros c Hreach.
  destruct fuel as [|[|fuel]]; [lia|lia|].
  set (inv := λ c, ∃ p l σ', c = at_work token result fuel a p l σ'
    ∧ entered token result a p l σ').
  assert (inv c) as (p & l & σ' & -> & Hp).
  { apply (invariant_reachable inv c0 c); [| |done].
    - intros c1 c2 (p & l & σ1 & -> & Hp) Hs. by eapply at_work_step.
    - exists CCheck, KComplete, σ. split; [done|]. split_and!; auto. }
  destruct (at_work_progress token result fuel a p l σ' Hp) as [|[-> ->]]; [by left|by right].
Qed.

Ltac go i := eapply (reach_do i); [reflexivity|reflexivity|]; cbn [list_insert insert].

(** The token is entered only after the call was submitted. When the kernel is
    done with the call and the loop takes its completion in between, the loop
    finds no caller, and the calling thread, which waits without a time limit,
    is left with no step of anybody that could wake it: it never returns. *)
Theorem early_completion_hangs token result fuel σ :
  r_accepts σ = true → r_completed σ = [] → r_table σ !! token = None → (1 ≤ fuel)%nat →
  ∃ c1, reachable (parties fuel token result σ) c1
    ∧ c1.1 !! 1%nat = Some (Ret RingDone) ∧ c1.1 !! 2%nat = Some (Ret RingDone)
    ∧ (∀ o, c1.1 !! 0%nat ≠ Some (Ret o)) ∧ ¬ ∃ c2, step c1 c2.
Proof.
  intros Hacc Hcq Ht Hf. destruct fuel as [|fuel]; [lia|]. set (a := length (r_cells σ)).
  eexists ([(_ ← rdo (RWake a); c_wait_result fuel a); Ret RingDone; Ret RingDone], _).
  split; [|split; [reflexivity|split; [reflexivity|split]]].
  - go 0%nat. rewrite Hacc.
    eapply (reach_do 1); [reflexivity| |].
    { cbn [exec ring_actions rexec r_inflight]. rewrite bool_decide_eq_true_2 by set_solver.
      reflexivity. }
    eapply (reach_do 2); [reflexivity| |].
    { cbn [exec ring_actions rexec r_completed]. rewrite Hcq. reflexivity. }
    go 2%nat. cbn [r_table fst]. rewrite Ht.
    go 0%nat. cbn [r_table r_cells fst snd].
    rewrite bool_decide_eq_true_2 by apply lookup_delete_eq.
    eapply (reach_do 0); [reflexivity| |].
    { cbn [exec ring_actions rexec]. rewrite (with_call_at a _ (mkCell None 0 0));
        [reflexivity|by apply list_lookup_middle]. }
    apply rtc_refl.
  - by intros o [=].
  - intros [c2 [i Hi]%step_step_of]. destruct i as [|[|[|i]]]; try done.
    revert Hi. erewrite step_of_do by reflexivity. cbn [exec ring_actions rexec].
    rewrite (with_call_at a _ (mkCell None 1 0)); [by cbn|]. cbn.
    by rewrite list_lookup_insert_eq by (rewrite length_app; simpl; subst a; lia).
Qed.

Module RingRaceExamples.

(** Nothing submitted yet; and a call in flight whose token is entered. *)
Definition idle : ring := mkRing true [] [] ∅ [].
Definition in_flight : ring := mkRing true [7] [] {[7 := 0%nat]} [mkCell None 0 0].

(** The ring is polled after the token is entered, and a refused submission. *)
Example call_outcome :
  observe (λ σ, map_to_list (r_table σ))
    (run_schedule [0; 0; 0; 1; 2; 2; 2; 0; 0]%nat (parties 2 7 99 idle))
  = Some ([Called 99; RingDone; RingDone], []).
Proof. vm_compute. reflexivity. Qed.

Example refused_goes_to_next_layer :
  run_alone (c_call 2 7) (mkRing false [] [] ∅ []) = Some (NextLayer, mkRing false [] [] ∅ []).
Proof. reflexivity. Qed.

Lemma entered_call_gets_result_witness :
  let c0 := ([c_wait_result 2 0; c_kernel 7 99; c_loop], in_flight) in
  sn step c0
  ∧ ∀ c, reachable c0 c → (∃ c', step c c')
      ∨ c.1 = [Ret (Called 99); Ret RingDone; Ret RingDone].
Proof.
  apply (entered_call_gets_result 7 99 0 2 in_flight);
    [simpl; by left|reflexivity|reflexivity|reflexivity|lia].
Defined.

Lemma early_completion_hangs_witness :
  ∃ c1, reachable (parties 1 7 99 idle) c1
    ∧ c1.1 !! 1%nat = Some (Ret RingDone) ∧ c1.1 !! 2%nat = Some (Ret RingDone)
    ∧ (∀ o, c1.1 !! 0%nat ≠ Some (Ret o)) ∧ ¬ ∃ c2, step c1 c2.
Proof.
  apply (early_completion_hangs 7 99 1 idle); [reflexivity|reflexivity|reflexivity|lia].
Defined.
End RingRaceExamples.
