(* ===== verification/Facade.v ===== *)
(** * Facade: the C entry points and the typed interface

    Models [hook/src/lib.rs] (the exported C functions), the macro
    [impl_hook!] of [hook/src/syscall/unix.rs] and [open-coroutine/src/lib.rs]
    (tasks with typed parameters and results, joining one or any of several
    tasks, stack growth, connecting with a time limit). Parameters and results
    cross the C interface as addresses of boxes, so the heap is a part of the
    state of the loops ([HasHeap]). What the facade relies on is the class
    [TaskContract]. *)

From stdpp Require Import sorting base numbers strings gmap list.
From S2P Require Import Prelude Common Config Operator Coroutine EventLoops.

(** [UserTaskFunc] and [UserFunc]: C function pointers. Those of the facade are
    its two trampolines. *)
Inductive UserTaskFunc : Type := TaskMain | Foreign (address : Z).
Inductive UserFunc : Type := ExecuteOnStack | ForeignFn (address : Z).

(** What the facade puts into boxes: a closure with its parameter, a closure
    without one, the result of a task, a plain value. The types of closures
    and values are erased to [U] and [V]. *)
Inductive box (U V : Type) : Type :=
| BTask (f : U) (param : V)
| BThunk (f : U)
| BResult (r : io_result V)
| BValue (v : V).
Arguments BTask {U V} f param.
Arguments BThunk {U V} f.
Arguments BResult {U V} r.
Arguments BValue {U V} v.

(** A state with a heap of boxes. *)
Class HasHeap (S B : Type) := {
  heap : S → gmap Z B;
  set_heap : gmap Z B → S → S;
  heap_set m s : heap (set_heap m s) = m;
}.

(** An allocator returns a new address that is not null and that is positive
    as a [c_longlong], or no address when the memory is used up. *)
Class Alloc (B : Type) := {
  alloc : gmap Z B → option Z;
  alloc_ok m p : alloc m = Some p → m !! p = None ∧ 0 < p ≤ i64_max;
}.

(** A panic that reaches the end of an [extern "C"] function ends the process.
    That end is a panic with a message of its own, which [catch_unwind] does
    not catch. *)
Definition aborted : string := "panic in a function that cannot unwind".

Definition extern_c {S A} (m : M S A) : M S A := λ s,
  match m s with Panic _ s => Panic aborted s | r => r end.

Definition catch_task {S A} (m : M S A) : M S (A + string) := λ s,
  match m s with
  | Done a s => Done (inl a) s
  | Panic msg s => if decide (msg = aborted) then Panic msg s else Done (inr msg) s
  | NoFuel => NoFuel
  end.

(** The static cell of a hooked function: [Lazy] is poisoned when its
    initialisation panics. *)
Inductive lazy_cell : Type := Resolved (fn_ptr : Z) | Poisoned.

Section facade.
Context {S U V I : Type} `{!HasHeap S (box U V), !Alloc (box U V)}.
Context (ops : LoopOps S UserTaskFunc I).
(** The closures of the user, which may change everything, panic or not
    return. *)
Context (call : U → V → M S V) (call_thunk : U → M S V).
(** Functions passed by C programs. *)
Context (foreign : Z → Z → M S Z).
(** [SchedulableCoroutine::maybe_grow_with], and [sysconf(_SC_PAGESIZE)]. *)
Context (grow : Z → Z → M S Z → M S (io_result Z)) (sysconf : Z).

(** The statics of the two crates beside those of [EventLoops]. *)
Record Fac : Type := mkFac {
  HOOK : option bool;
  cells : gmap string lazy_cell;
  PAGE_SIZE : Z;
  DEFAULT_RED_ZONE : Z;
  loops_of : Net S;
}.

Definition set_HOOK (h : option bool) (x : Fac) : Fac :=
  mkFac h (cells x) (PAGE_SIZE x) (DEFAULT_RED_ZONE x) (loops_of x).
Definition set_cells (c : gmap string lazy_cell) (x : Fac) : Fac :=
  mkFac (HOOK x) c (PAGE_SIZE x) (DEFAULT_RED_ZONE x) (loops_of x).
Definition set_caches (p r : Z) (x : Fac) : Fac :=
  mkFac (HOOK x) (cells x) p r (loops_of x).
Definition set_loops (n : Net S) (x : Fac) : Fac :=
  mkFac (HOOK x) (cells x) (PAGE_SIZE x) (DEFAULT_RED_ZONE x) n.

Definition on_loops {A} (m : M (Net S) A) : M Fac A := λ x,
  match m (loops_of x) with
  | Done a n => Done a (set_loops n x)
  | Panic msg n => Panic msg (set_loops n x)
  | NoFuel => NoFuel
  end.
Definition inside {A} (m : M S A) : M Fac A := on_loops (on_net m).

(** ** Boxes

    [Box::leak(Box::new(b))], which ends the process when there is no memory,
    and the reads the facade makes through the addresses it gets back. What is read from a freed box, or as another type, is
    not defined. *)

Definition leak_box (b : box U V) : M S Z := λ s,
  match alloc (heap s) with
  | Some p => Done p (set_heap (<[p := b]> (heap s)) s)
  | None => Panic aborted s
  end.
Definition undefined {A} : M S A := panic "undefined behaviour".

(** [read_unaligned] copies the pair out of the box and leaves the box. *)
Definition read_task (p : Z) : M S (U * V) := λ s,
  match heap s !! p with Some (BTask f v) => Done (f, v) s | _ => undefined s end.
Definition read_thunk (p : Z) : M S U := λ s,
  match heap s !! p with Some (BThunk f) => Done f s | _ => undefined s end.
(** [Box::from_raw] takes the value and frees the box. *)
Definition result_from_raw (p : Z) : M S (io_result V) := λ s,
  match heap s !! p with
  | Some (BResult r) => Done r (set_heap (delete p (heap s)) s)
  | _ => undefined s
  end.
Definition value_from_raw (p : Z) : M S V := λ s,
  match heap s !! p with
  | Some (BValue v) => Done v (set_heap (delete p (heap s)) s)
  | _ => undefined s
  end.

(** ** hook/src/lib.rs *)

Definition hook : M Fac bool := gets (λ x, default false (HOOK x)).

Definition open_coroutine_init (c : Config) : M Fac Z := extern_c (
  _ ← on_loops (init ops c);
  h ← gets HOOK;
  _ ← match h with Some _ => mret tt | None => modify (set_HOOK (Some (Config.hook c))) end;
  mret 0).

Definition open_coroutine_stop (secs : Z) : M Fac Z := extern_c (
  r ← on_loops (stop ops (secs * 1000000000));
  mret (if is_ok r then 0 else -1)).

Definition task_crate (f : UserTaskFunc) (param priority : Z) : M Fac JoinHandle := extern_c (
  on_loops (submit_task ops None f (Some param) (Some priority))).

Definition task_cancel (j : JoinHandle) : M Fac Z := extern_c (
  match handle_id j with
  | IoOk task_id => _ ← on_loops (try_cancel_task ops task_id); mret 0
  | IoErr _ => mret (-1)
  end).

(** The nested [match] of the two joins; [c_longlong::try_from] fails on a
    value of 2^63 or more. *)
Definition join_code (r : io_result (Ret + string)) : M Fac Z :=
  match r with
  | IoOk (inl (Some p)) => if p <=? i64_max then mret p else panic "overflow"
  | IoOk (inl None) => mret 0
  | IoOk (inr _) => mret (-1)
  | IoErr _ => mret (-1)
  end.

Definition task_join (j : JoinHandle) : M Fac Z := extern_c (
  r ← on_loops (EventLoops.join ops j); join_code r).

Definition task_timeout_join (j : JoinHandle) (ns_time : Z) : M Fac Z := extern_c (
  r ← on_loops (EventLoops.timeout_join ops j ns_time); join_code r).

Definition red_zone_default : M Fac Z := λ x,
  let '(r, p, c) := default_red_zone sysconf (PAGE_SIZE x) (DEFAULT_RED_ZONE x) in
  Done r (set_caches p c x).

Definition execute_on_stack (input : Z) : M S Z := extern_c (
  f ← read_thunk input;
  v ← call_thunk f;
  leak_box (BValue v)).

Definition call_user_func (f : UserFunc) (param : Z) : M S Z :=
  match f with ExecuteOnStack => execute_on_stack param | ForeignFn a => foreign a param end.

Definition maybe_grow_stack (red_zone stack_size : Z) (f : UserFunc) (param : Z) : M Fac Z := extern_c (
  red_zone ← (if 0 <? red_zone then mret red_zone else red_zone_default);
  let stack_size := if 0 <? stack_size then stack_size else DEFAULT_STACK_SIZE in
  r ← inside (grow red_zone stack_size (call_user_func f param));
  match r with
  | IoOk r => if r <=? i64_max then mret r else panic "overflow"
  | IoErr _ => mret (-1)
  end).

(** ** hook/src/syscall/unix.rs *)

(** [impl_hook!]: the function the linker finds instead of the one of the C
    library. [dlsym] is the address of the next function of the name, or
    null; [original] calls it and [hooked] is the call of [core/src/syscall];
    [current_is_some] tells whether a coroutine runs, [ci] is the feature. *)
Definition impl_hook {A} (dlsym : string → Z) (current_is_some : M S bool) (ci : bool)
  (syscall : string) (original hooked : Z → M S A) : M Fac A := extern_c (
  c ← gets (λ x, cells x !! syscall);
  fn_ptr ← match c with
    | Some (Resolved p) => mret p
    | Some Poisoned => panic "Lazy instance has previously been poisoned"
    | None =>
        if dlsym syscall =? 0 then
          _ ← modify (λ x, set_cells (<[syscall := Poisoned]> (cells x)) x);
          panic "syscall not found !"
        else
          _ ← modify (λ x, set_cells (<[syscall := Resolved (dlsym syscall)]> (cells x)) x);
          mret (dlsym syscall)
    end;
  h ← hook;
  c ← (if h : bool then mret true else inside current_is_some);
  if (c || ci)%bool then inside (hooked fn_ptr) else inside (original fn_ptr)).

(** ** open-coroutine/src/lib.rs *)

Definition facade_init (c : Config) : M Fac unit :=
  r ← open_coroutine_init c; assert_ (r =? 0) "open-coroutine init failed !".

Definition facade_shutdown : M Fac unit := _ ← open_coroutine_stop 30; mret tt.

(** [task_main]: a panic of the task becomes the error of its result. *)
Definition task_main (input : Z) : M S Z := extern_c (
  '(f, param) ← read_task input;
  r ← catch_task (call f param);
  leak_box (BResult match r with inl v => IoOk v | inr msg => IoErr (Other msg) end)).

(** The closure that [task_crate] submits. *)
Definition task_closure (f : UserTaskFunc) (p : option Z) : M S (option Z) :=
  r ← match f with
      | TaskMain => task_main (default 0 p)
      | Foreign a => foreign a (default 0 p)
      end;
  mret (Some r).

Definition crate_task (f : U) (param : V) (priority : Z) : M Fac JoinHandle :=
  inner ← inside (leak_box (BTask f param));
  task_crate TaskMain inner priority.

(** [match ptr.cmp(&0)] of the two joins. *)
Definition typed_result (what : string) (ptr : Z) : M Fac (io_result (option V)) :=
  match ptr ?= 0 with
  | Lt => mret (IoErr (Other what))
  | Eq => mret (IoOk None)
  | Gt => r <-? inside (result_from_raw ptr); mret (IoOk (Some r))
  end.

(** [dur] is a [Duration] in nanoseconds. *)
Definition timeout_join (j : JoinHandle) (dur : Z) : M Fac (io_result (option V)) :=
  match try_u64 dur with
  | None => panic "overflow"
  | Some ns => ptr ← task_timeout_join j ns; typed_result "timeout join failed" ptr
  end.

Definition drop_handle (j : JoinHandle) : M Fac unit := on_loops (handle_drop ops j).

(** [join] and [try_cancel] consume the handle. *)
Definition join (j : JoinHandle) : M Fac (io_result (option V)) :=
  ptr ← task_join j;
  r ← typed_result "join failed" ptr;
  _ ← drop_handle j;
  mret r.

Definition try_cancel (j : JoinHandle) : M Fac (io_result unit) :=
  r ← task_cancel j;
  _ ← drop_handle j;
  mret (if r =? 0 then IoOk tt else IoErr (Other "cancel failed")).

(** One pass over the handles; [None] at its end. *)
Fixpoint any_pass (timeout_time : Z) (slice : list JoinHandle)
  : M Fac (option (io_result (option V))) :=
  match slice with
  | [] => mret None
  | j :: slice =>
      n ← inside (lo_now ops);
      let left_time := sat_sub timeout_time n in
      if left_time =? 0 then mret (Some (IoErr (Other "timeout join failed")))
      else
        r ← timeout_join j (Z.min left_time SLICE);
        match r with
        | IoOk x => mret (Some (IoOk x))
        | IoErr _ => any_pass timeout_time slice
        end
  end.

Fixpoint any_loop (fuel : nat) (timeout_time : Z) (slice : list JoinHandle)
  : M Fac (io_result (option V)) :=
  match fuel with
  | O => out_of_fuel
  | Datatypes.S fuel =>
      r ← any_pass timeout_time slice;
      match r with Some r => mret r | None => any_loop fuel timeout_time slice end
  end.

Definition any_timeout_join (fuel : nat) (dur : Z) (slice : list JoinHandle)
  : M Fac (io_result (option V)) :=
  match slice with
  | [] => mret (IoOk None)
  | _ =>
      n ← inside (lo_now ops);
      any_loop fuel (get_timeout_time n dur) slice
  end.

(** [Duration::MAX] in nanoseconds. *)
Definition Duration_MAX : Z := u64_max * 1000000000 + 999999999.

Fixpoint each_handle (f : JoinHandle → M Fac unit) (hs : list JoinHandle) : M Fac unit :=
  match hs with [] => mret tt | j :: hs => _ ← f j; each_handle f hs end.

(** [inspect] runs its closure on a result only, and drops it in any case,
    which drops the handles it owns. *)
Definition any_join (fuel : nat) (vec : list JoinHandle) : M Fac (io_result (option V)) :=
  r ← any_timeout_join fuel Duration_MAX vec;
  _ ← (if is_ok r then each_handle (λ j, _ ← try_cancel j; mret tt) vec
       else each_handle drop_handle vec);
  mret r.

Definition maybe_grow (red_zone stack_size : Z) (f : U) : M Fac (io_result V) :=
  inner ← inside (leak_box (BThunk f));
  ptr ← maybe_grow_stack red_zone stack_size ExecuteOnStack inner;
  if ptr <? 0 then mret (IoErr (InvalidInput "grow stack failed"))
  else v ← inside (value_from_raw ptr); mret (IoOk v).

(** [connect_timeout]: [tcp_connect] is [TcpStream::connect_timeout] and
    [to_socket_addrs] the resolution of names. *)
Section connect.
Context {A L : Type} (tcp_connect : A → Z → M S (io_result L)).
Context (to_socket_addrs : M S (io_result (list A))).

(** The inner [loop]: a stream, or the last error when the time is over. *)
Fixpoint connect_one (fuel : nat) (timeout_time : Z) (addr : A) (last_err : option io_error)
  : M Fac (L + option io_error) :=
  match fuel with
  | O => out_of_fuel
  | Datatypes.S fuel =>
      n ← inside (lo_now ops);
      let left_time := sat_sub timeout_time n in
      if left_time =? 0 then mret (inr last_err)
      else
        r ← inside (tcp_connect addr (Z.min left_time SLICE));
        match r with
        | IoOk l => mret (inl l)
        | IoErr e => connect_one fuel timeout_time addr (Some e)
        end
  end.

Fixpoint connect_each (fuel : nat) (timeout_time : Z) (addrs : list A)
  (last_err : option io_error) : M Fac (io_result L) :=
  match addrs with
  | [] => mret (IoErr (default (InvalidInput "could not resolve to any addresses") last_err))
  | addr :: addrs =>
      r ← connect_one fuel timeout_time addr last_err;
      match r with
      | inl l => mret (IoOk l)
      | inr last_err => connect_each fuel timeout_time addrs last_err
      end
  end.

Definition connect_timeout (fuel : nat) (timeout : Z) : M Fac (io_result L) :=
  n ← inside (lo_now ops);
  let timeout_time := get_timeout_time n timeout in
  addrs <-? inside to_socket_addrs;
  connect_each fuel timeout_time addrs None.
End connect.
End facade.

Arguments Fac : clear implicits.

(** ** What the facade relies on

    The promise of the loops about one task. A task that was accepted is
    pending: nobody but the task owns the box its parameter points to. Waiting
    for it either fails, and it stays pending, or hands out what the closure
    returned in one run; the box that holds the result is left alone in
    between. A result is handed out once: afterwards the task is spent, and
    waiting for it again fails. *)
Class TaskContract {S U V I : Type} `{!HasHeap S (box U V), !Alloc (box U V)}
    (ops : LoopOps S UserTaskFunc I) (call : U → V → M S V) (foreign : Z → Z → M S Z) := {
  pending : S → nat → Z → UserTaskFunc → option Z → Prop;
  spent : S → nat → Z → Prop;
  tc_submit i name f p priority s id s' :
    lo_submit_task ops i name f p priority s = Done (IoOk id) s' →
    pending s' i id f p ∧ heap s' = heap s;
  tc_now s n s' :
    lo_now ops s = Done n s' → heap s' = heap s ∧ (∀ i id f p, pending s i id f p → pending s' i id f p)
      ∧ (∀ i id, spent s i id → spent s' i id);
  tc_clean i id s s' : lo_clean_task_result ops i id s = Done tt s' → heap s' = heap s;
  tc_heap m s i id : spent s i id → spent (set_heap m s) i id;
  tc_wait i id f p t s r s' :
    pending s i id f p → lo_wait_task_result ops i id t s = Done r s' →
    match r with
    | IoErr _ => pending s' i id f p ∧ ∀ a, p = Some a → heap s' !! a = heap s !! a
    | IoOk o => spent s' i id ∧ ∃ s1 s2, catch_task (task_closure call foreign f p) s1 = Done o s2
        ∧ (∀ a, p = Some a → heap s1 !! a = heap s !! a)
        ∧ (∀ q, o = inl (Some q) → heap s' !! q = heap s2 !! q)
    end;
  tc_spent i id t s r s' :
    spent s i id → lo_wait_task_result ops i id t s = Done r s' → is_err r ∧ spent s' i id;
}.

(** ** Properties *)

Section properties.
Context {S U V I : Type} `{!HasHeap S (box U V), !Alloc (box U V)}.
Context (ops : LoopOps S UserTaskFunc I).
Context (call : U → V → M S V) (foreign : Z → Z → M S Z).
Implicit Types (x : Fac S) (s : S) (j : JoinHandle).

(** The state of the loops, and a state with another one. *)
Definition at_ x : S := net (loops_of x).
Definition put s x : Fac S := set_loops (mkNet (INSTANCE (loops_of x)) s) x.

Lemma at_put s x : at_ (put s x) = s.
Proof. done. Qed.
Lemma put_put s s' x : put s' (put s x) = put s' x.
Proof. done. Qed.

Lemma inside_done {A} (m : M S A) x a s : m (at_ x) = Done a s → inside m x = Done a (put s x).
Proof. unfold inside, on_loops, on_net, at_. by intros ->. Qed.

Lemma extern_c_done {T A} (m : M T A) (s s' : T) a : m s = Done a s' → extern_c m s = Done a s'.
Proof. unfold extern_c. by intros ->. Qed.
Lemma extern_c_inv {T A} (m : M T A) (s s' : T) a : extern_c m s = Done a s' → m s = Done a s'.
Proof. unfold extern_c. by destruct (m s). Qed.

Lemma extern_c_panic {T A} (m : M T A) (s s' : T) msg : extern_c m s = Panic msg s' → msg = aborted.
Proof. unfold extern_c. destruct (m s); naive_solver. Qed.

Lemma leak_box_inv (b : box U V) s p s' :
  leak_box b s = Done p s' →
  alloc (heap s) = Some p ∧ heap s !! p = None ∧ 0 < p ≤ i64_max
  ∧ s' = set_heap (<[p := b]> (heap s)) s.
Proof.
  unfold leak_box. destruct (alloc (heap s)) as [q|] eqn:E; [|done]. intros [= <- <-].
  destruct (alloc_ok _ _ E) as [??]. done.
Qed.

(** The result of a task whose closure ended with [o]. *)
Definition task_result (o : V + string) : io_result V :=
  match o with inl v => IoOk v | inr msg => IoErr (Other msg) end.

(** [task_main] runs the closure on its parameter once, and returns the
    address of a new box with what became of it. It frees nothing: the box of
    the closure stays. *)
Lemma task_main_spec a u v s q s' :
  heap s !! a = Some (BTask u v) → task_main call a s = Done q s' →
  ∃ o y, catch_task (call u v) s = Done o y ∧ heap y !! q = None ∧ 0 < q ≤ i64_max
    ∧ heap s' = <[q := BResult (task_result o)]> (heap y).
Proof.
  intros Ha Hm%extern_c_inv. apply bind_done_inv in Hm as (p & s1 & Hr & Hm).
  unfold read_task in Hr. rewrite Ha in Hr. injection Hr as <- <-.
  apply bind_done_inv in Hm as (o & y & Hc & Hl).
  apply leak_box_inv in Hl as (_ & Hq & Hr & ->).
  exists o, y. rewrite heap_set. split; [done|]. split; [done|]. split; [done|]. by destruct o.
Qed.

Lemma closure_spec a u v s o s' :
  heap s !! a = Some (BTask u v) → catch_task (task_closure call foreign TaskMain (Some a)) s = Done o s' →
  ∃ o' y q, o = inl (Some q) ∧ catch_task (call u v) s = Done o' y ∧ 0 < q ≤ i64_max
    ∧ heap s' !! q = Some (BResult (task_result o')).
Proof.
  intros Ha. unfold catch_task at 1, task_closure. cbn [default from_option]. unfold id.
  destruct ((r ← task_main call a; mret (Some r)) s) as [r s1|msg s1|] eqn:E; [|  |done].
  - intros [= <- <-]. apply bind_done_inv in E as (q & s2 & Hm & E). injection E as <- <-.
    destruct (task_main_spec _ _ _ _ _ _ Ha Hm) as (o' & y & Hc & _ & Hq & Hh).
    exists o', y, q. repeat split; try done; try lia. by rewrite Hh, lookup_insert_eq.
  - intros H. exfalso. unfold mbind, M_bind in E.
    destruct (task_main call a s) as [r s2|msg' s2|] eqn:Em; try done. injection E as <- <-.
    assert (msg' = aborted) as ->.
    { by apply extern_c_panic in Em. }
    by rewrite decide_True in H.
Qed.

Lemma timeout_at_join_done j t x id n s1 w s2 :
  handle_id j = IoOk id → lo_now ops (at_ x) = Done n s1 →
  lo_wait_task_result ops (jh_loop j) id (sat_sub t n) s1 = Done w s2 →
  on_loops (timeout_at_join ops j t) x = Done w (put s2 x).
Proof.
  intros Hid Hn Hw. unfold on_loops, timeout_at_join, try_. erewrite bind_done by reflexivity.
  rewrite Hid. unfold at_ in Hn. unfold mbind, M_bind, on_net. rewrite Hn. simpl. by rewrite Hw.
Qed.

Context `{!TaskContract ops call foreign}.

(** A new task is pending with its box, unless the loop refused it. *)
Lemma crate_task_spec u v priority x j x' :
  crate_task ops u v priority x = Done j x' →
  (∃ e, handle_id j = IoErr e)
  ∨ ∃ id a, handle_id j = IoOk id ∧ pending (at_ x') (jh_loop j) id TaskMain (Some a)
      ∧ heap (at_ x') !! a = Some (BTask u v).
Proof.
  unfold crate_task. intros H. apply bind_done_inv in H as (a & x0 & Hl & H).
  unfold inside, on_loops, on_net in Hl.
  destruct (leak_box _ _) as [a' s0| |] eqn:El in Hl; try done. injection Hl as <- <-.
  apply leak_box_inv in El as (_ & _ & _ & ->). apply extern_c_inv in H. unfold on_loops in H.
  destruct (submit_task _ _ _ _ _ _) as [j' n| |] eqn:E in H; try done. injection H as <- <-.
  unfold submit_task in E. apply bind_done_inv in E as (i & n1 & Hr & E).
  assert (net n1 = set_heap (<[a' := BTask u v]> (heap (at_ x))) (at_ x)) as Hn1.
  { revert Hr. unfold round_robin. munfold. simpl. repeat case_match; naive_solver. }
  apply bind_done_inv in E as (r & n2 & Hs & E). injection E as <- <-.
  unfold on_net in Hs. destruct (lo_submit_task _ _ _ _ _ _ _) as [r' y| |] eqn:El in Hs; try done.
  injection Hs as <- <-. destruct r' as [id|e]; [|left; by eexists].
  apply tc_submit in El as [Hp Hh]. unfold handle_id, handle_new. simpl.
  destruct (id =? 0); [left; by eexists|]. right. exists id, a'.
  split; [done|]. split; [done|]. unfold at_. simpl. rewrite Hh, Hn1, heap_set.
  apply lookup_insert_eq.
Qed.

(** What waiting for a pending task of the facade gives. *)
Lemma wait_pending i id a u v t s w s' :
  pending s i id TaskMain (Some a) → heap s !! a = Some (BTask u v) →
  lo_wait_task_result ops i id t s = Done w s' →
  match w with
  | IoErr _ => pending s' i id TaskMain (Some a) ∧ heap s' !! a = Some (BTask u v)
  | IoOk o => spent s' i id ∧ ∃ q o' y y', o = inl (Some q) ∧ catch_task (call u v) y = Done o' y'
      ∧ 0 < q ≤ i64_max ∧ heap s' !! q = Some (BResult (task_result o'))
  end.
Proof.
  intros Hp Ha Hw. pose proof (tc_wait _ _ _ _ _ _ _ _ Hp Hw) as H. destruct w as [o|e].
  - destruct H as (Hsp & s1 & s2 & Hc & H1 & H2). split; [done|].
    rewrite <-(H1 a) in Ha by done.
    destruct (closure_spec _ _ _ _ _ _ Ha Hc) as (o' & y & q & -> & Hcall & Hq & Hh).
    exists q, o', s1, y. rewrite (H2 q) by done. done.
  - destruct H as [Hp' Hh]. split; [done|]. by rewrite Hh.
Qed.

Lemma typed_result_box what q x r :
  0 < q → heap (at_ x) !! q = Some (BResult r) →
  typed_result what q x = Done match r with IoOk v => IoOk (Some v) | IoErr e => IoErr e end
    (put (set_heap (delete q (heap (at_ x))) (at_ x)) x).
Proof.
  intros Hq Hh. unfold typed_result. replace (q ?= 0) with Gt by (symmetry; by apply Z.gt_lt_iff).
  unfold try_. erewrite bind_done; [|apply inside_done; unfold result_from_raw; by rewrite Hh].
  by destruct r.
Qed.

Lemma drop_handle_done j x id s :
  handle_id j = IoOk id → lo_clean_task_result ops (jh_loop j) id (at_ x) = Done tt s →
  drop_handle ops j x = Done tt (put s x).
Proof. unfold drop_handle, on_loops, handle_drop, on_net, at_. intros -> Hc. by rewrite Hc. Qed.


(** *** A failed task *)

(** The task is yet to give its result, or has given it. *)
Definition failing i id a u v s : Prop :=
  (pending s i id TaskMain (Some a) ∧ heap s !! a = Some (BTask u v)) ∨ spent s i id.

Lemma failing_now i id a u v s n s' :
  failing i id a u v s → lo_now ops s = Done n s' → failing i id a u v s'.
Proof.
  intros H Hn. destruct (tc_now _ _ _ Hn) as (Hh & Hp & Hs).
  destruct H as [[H1 H2]|H]; [left|right]; eauto. rewrite Hh. eauto.
Qed.

Lemma timeout_join_fails j id a u v msg d x :
  handle_id j = IoOk id → failing (jh_loop j) id a u v (at_ x) →
  (∀ y, ∃ y', call u v y = Panic msg y') → msg ≠ aborted →
  match timeout_join ops j d x with
  | Done (IoOk _) _ => False
  | Done (IoErr _) x' => failing (jh_loop j) id a u v (at_ x')
  | _ => True
  end.
Proof.
  intros Hid Hf Hpanic Hmsg. destruct (timeout_join ops j d x) as [r x'| |] eqn:E; [|done|done].
  unfold timeout_join in E. destruct (try_u64 d) as [ns|]; [|done].
  apply bind_done_inv in E as (ptr & x1 & Hj & E).
  unfold task_timeout_join in Hj. apply extern_c_inv, bind_done_inv in Hj as (w & x2 & Hj & Hcode).
  unfold on_loops, EventLoops.timeout_join, timeout_at_join in Hj.
  revert Hj. munfold. rewrite Hid. unfold on_net.
  destruct (lo_now ops (net (loops_of x))) as [n s1| |] eqn:Hn; try done. simpl.
  destruct (lo_now ops s1) as [n2 s2| |] eqn:Hn2; try done. simpl.
  destruct (lo_wait_task_result ops (jh_loop j) id _ s2) as [w' s3| |] eqn:Hw; try done.
  intros [= <- <-].
  pose proof (failing_now _ _ _ _ _ _ _ _ (failing_now _ _ _ _ _ _ _ _ Hf Hn) Hn2) as [[Hp Ha]|Hs].
  - pose proof (wait_pending _ _ _ _ _ _ _ _ _ Hp Ha Hw) as H. destruct w' as [o|e].
    + destruct H as (Hsp & q & o' & y & y' & -> & Hcall & Hq & Hbox).
      unfold catch_task in Hcall. destruct (Hpanic y) as [y2 Hy]. rewrite Hy, decide_False in Hcall by done.
      injection Hcall as <- <-. simpl in Hcode. rewrite (proj2 (Z.leb_le _ _)) in Hcode by lia.
      injection Hcode as <- <-. erewrite typed_result_box in E; [|lia|exact Hbox].
      injection E as <- <-. right. rewrite at_put. by apply tc_heap.
    + injection Hcode as <- <-. injection E as <- <-. by left.
  - destruct (tc_spent _ _ _ _ _ _ Hs Hw) as [He Hsp]. destruct w' as [o|e]; [done|].
    injection Hcode as <- <-. injection E as <- <-. by right.
Qed.

(** [any_join] of a task that panics never returns: the failure of a task
    is taken for a join that is not yet over, and its result, handed out once,
    is gone. However long the loop goes on, it is not at its end. *)
Theorem any_join_of_failed_diverges fuel j id a u v msg x :
  handle_id j = IoOk id → pending (at_ x) (jh_loop j) id TaskMain (Some a) →
  heap (at_ x) !! a = Some (BTask u v) →
  (∀ y, ∃ y', call u v y = Panic msg y') → msg ≠ aborted →
  (∀ s n s', lo_now ops s = Done n s' → n < u64_max) →
  ∀ r x', any_join ops fuel [j] x ≠ Done r x'.
Proof.
  intros Hid Hp Ha Hpanic Hmsg Hnow r x'.
  assert (∀ k x r x', failing (jh_loop j) id a u v (at_ x) →
    any_loop ops k u64_max [j] x ≠ Done r x') as Hloop.
  { clear x x' r Hp Ha. induction k as [|k IH]; intros x r x' Hf; [done|]. cbn [any_loop any_pass].
    intros H. apply bind_done_inv in H as (o & x2 & Hpass & H).
    apply bind_done_inv in Hpass as (n & x1 & Hn & Hpass).
    unfold inside, on_loops, on_net in Hn.
    destruct (lo_now ops (net (loops_of x))) as [n' s1| |] eqn:En; try done. injection Hn as <- <-.
    rewrite (proj2 (Z.eqb_neq _ _)) in Hpass by (rewrite sat_sub_zero; specialize (Hnow _ _ _ En); lia).
    apply bind_done_inv in Hpass as (t & x3 & Ht & Hpass).
    pose proof (timeout_join_fails j id a u v msg (Z.min (sat_sub u64_max n') SLICE)
      (put s1 x) Hid (failing_now _ _ _ _ _ _ _ _ Hf En) Hpanic Hmsg) as Hfail.
    unfold put in Hfail. rewrite Ht in Hfail. destruct t as [y|e]; [done|]. injection Hpass as <- <-. by eapply IH. }
  intros H. unfold any_join, any_timeout_join in H. apply bind_done_inv in H as (r1 & x1 & H & _).
  apply bind_done_inv in H as (n & x2 & Hn & H).
  unfold inside, on_loops, on_net in Hn.
  destruct (lo_now ops (net (loops_of x))) as [n' s1| |] eqn:En; try done. injection Hn as <- <-.
  eapply (Hloop fuel (put s1 x)); [|exact H]. eapply failing_now; [|exact En]. by left.
Qed.
End properties.

(** ** Time limits *)

Section timing.
Context {S U V I : Type} `{!HasHeap S (box U V), !Alloc (box U V)}.
Context (ops : LoopOps S UserTaskFunc I).
Implicit Types (x : Fac S) (s : S) (j : JoinHandle).

(** The clock of the loops: reading it advances it, up to the largest value
    of [now()]. *)
Context (clk : S → Z).
Context (clk_now : ∀ s, ∃ s', lo_now ops s = Done (clk s) s' ∧ clk s ≤ clk s'
  ∧ (clk s < u64_max → clk s < clk s')).

(** [m] does not turn the clock back, and does not run out of fuel. *)
Definition timely {A} (m : M (Fac S) A) : Prop := ∀ x,
  match m x with
  | Done _ x' | Panic _ x' => clk (at_ x) ≤ clk (at_ x')
  | NoFuel => False
  end.

Lemma timely_ret {A} (a : A) : timely (mret a).
Proof. intros x. simpl. lia. Qed.
Lemma timely_panic {A} msg : timely (@panic _ A msg).
Proof. intros x. simpl. lia. Qed.
Lemma timely_bind {A B} (m : M (Fac S) A) (k : A → M (Fac S) B) :
  timely m → (∀ a, timely (k a)) → timely (m ≫= k).
Proof.
  intros Hm Hk x. specialize (Hm x). unfold mbind, M_bind.
  destruct (m x) as [a x1|msg x1|]; [|done|done]. specialize (Hk a x1).
  destruct (k a x1); [lia|lia|done].
Qed.
Lemma timely_extern_c {A} (m : M (Fac S) A) : timely m → timely (extern_c m).
Proof. intros Hm x. specialize (Hm x). unfold extern_c. by destruct (m x). Qed.
Lemma timely_inside {A} (m : M S A) :
  (∀ s, match m s with Done _ s' | Panic _ s' => clk s ≤ clk s' | NoFuel => False end) →
  timely (inside m).
Proof.
  intros Hm x. specialize (Hm (at_ x)). unfold inside, on_loops, on_net, at_ in *.
  by destruct (m (net (loops_of x))).
Qed.
Lemma timely_now : timely (inside (lo_now ops)).
Proof. apply timely_inside. intros s. destruct (clk_now s) as (s' & -> & H & _). done. Qed.

Create HintDb timely discriminated.
Hint Resolve timely_ret timely_panic timely_bind timely_extern_c timely_now : timely.

(** Waiting for a task returns, and freeing a box takes no time. *)
Context (wait_total : ∀ i id t s, match lo_wait_task_result ops i id t s with
  | Done _ s' | Panic _ s' => clk s ≤ clk s' | NoFuel => False end).
Context (clk_heap : ∀ m s, clk (set_heap m s) = clk s).

Lemma timely_timeout_at_join j t : timely (on_loops (timeout_at_join ops j t)).
Proof.
  intros x. unfold on_loops, timeout_at_join. destruct (handle_id j) as [id|e]; simpl; [|by apply Z.eq_le_incl].
  munfold. unfold on_net at 1. simpl. destruct (clk_now (net (loops_of x))) as (s1 & -> & Hle & _).
  unfold on_net. simpl. specialize (wait_total (jh_loop j) id (sat_sub t (clk (net (loops_of x)))) s1).
  unfold at_. destruct (lo_wait_task_result _ _ _ _ _); simpl; [lia|lia|done].
Qed.

Lemma timely_join j d : timely (on_loops (EventLoops.timeout_join ops j d)).
Proof.
  intros x. pose proof (λ x, timely_timeout_at_join j (get_timeout_time (clk (at_ x)) d)) as H.
  unfold EventLoops.timeout_join, on_loops, mbind, M_bind, on_net at 1.
  destruct (clk_now (net (loops_of x))) as (s1 & Hn & Hle & _). rewrite Hn.
  specialize (H x (put s1 x)). unfold on_loops, at_, put in *. simpl in *.
  destruct (timeout_at_join _ _ _ _); simpl in *; [lia|lia|done].
Qed.

Lemma timely_timeout_join j d : timely (timeout_join ops j d).
Proof.
  unfold timeout_join. destruct (try_u64 d); [|auto with timely]. apply timely_bind.
  - apply timely_extern_c, timely_bind; [apply timely_join|].
    intros [[[p|]|]|]; simpl; try case_match; auto with timely.
  - intros p. unfold typed_result. destruct (p ?= 0); auto with timely. unfold try_. apply timely_bind.
    + apply timely_inside. intros s. unfold result_from_raw.
      destruct (heap s !! p) as [[]|]; simpl; rewrite ?clk_heap; lia.
    + intros []; auto with timely.
Qed.

(** What one pass over the handles may do. *)
Lemma any_pass_spec D slice x :
  D ≤ u64_max →
  match any_pass ops D slice x with
  | NoFuel => False
  | Panic msg x' => ∃ j d x1, j ∈ slice ∧ timeout_join ops j d x1 = Panic msg x'
  | Done None x' => clk (at_ x) ≤ clk (at_ x')
      ∧ (slice = [] ∨ clk (at_ x) < D ∧ clk (at_ x) < clk (at_ x'))
  | Done (Some (IoErr e)) x' => e = Other "timeout join failed" ∧ D ≤ clk (at_ x')
  | Done (Some (IoOk y)) x' => ∃ j d x1, j ∈ slice ∧ d ≤ SLICE
      ∧ timeout_join ops j d x1 = Done (IoOk y) x'
  end.
Proof.
  intros HD. revert x. induction slice as [|j slice IH]; intros x; cbn [any_pass]; [split; [done|by left]|].
  destruct (clk_now (at_ x)) as (s1 & Hn & Hle & Hlt).
  erewrite bind_done by (by apply inside_done). cbn zeta.
  destruct (Z.eqb_spec (sat_sub D (clk (at_ x))) 0) as [H0|H0].
  { apply sat_sub_zero in H0. simpl. rewrite at_put. split; [done|lia]. }
  rewrite sat_sub_zero in H0.
  pose proof (timely_timeout_join j (Z.min (sat_sub D (clk (at_ x))) SLICE) (put s1 x)) as Ht.
  unfold mbind, M_bind. rewrite at_put in Ht.
  destruct (timeout_join _ _ _ _) as [[y|e] x1|msg x1|] eqn:E in Ht |- *; [| | |done].
  - simpl. eexists j, _, _. split; [set_solver|]. split; [|exact E]. lia.
  - specialize (IH x1). destruct (any_pass ops D slice x1) as [[[y|e']|] x2|msg x2|]; [|done| | |done].
    + destruct IH as (j' & d & x3 & Hin & ?). exists j', d, x3. split; [set_solver|done].
    + lia.
    + destruct IH as (j' & d & x3 & Hin & ?). exists j', d, x3. split; [set_solver|done].
  - eexists j, _, _. split; [set_solver|exact E].
Qed.

Lemma any_loop_ends fuel D slice x :
  D ≤ u64_max → slice ≠ [] → Z.max 0 (D - clk (at_ x)) < Z.of_nat fuel →
  match any_loop ops fuel D slice x with
  | NoFuel => False
  | Panic msg x' => ∃ j d x1, j ∈ slice ∧ timeout_join ops j d x1 = Panic msg x'
  | Done (IoErr e) x' => e = Other "timeout join failed" ∧ D ≤ clk (at_ x')
  | Done (IoOk y) x' => ∃ j d x1, j ∈ slice ∧ d ≤ SLICE
      ∧ timeout_join ops j d x1 = Done (IoOk y) x'
  end.
Proof.
  intros HD Hne. revert x. induction fuel as [|fuel IH]; intros x Hfuel; [lia|].
  pose proof (any_pass_spec D slice x HD) as Hp. cbn [any_loop]. unfold mbind, M_bind.
  destruct (any_pass ops D slice x) as [[[y|e]|] x1|msg x1|]; try done.
  destruct Hp as (_ & [?|[Hlt Hadv]]); [done|]. apply IH. lia.
Qed.

(** C14. [any_timeout_join] keeps its time: with fuel for the nanoseconds of
    the limit it comes to an end, whatever the tasks do; a result it gives is
    the result of one of the handles, waited for no longer than a slice, and
    the error it gives is given when the limit is over and not before. No
    handles give no result at once. *)
Theorem any_timeout_join_ends fuel dur slice x :
  let D := get_timeout_time (clk (at_ x)) dur in
  Z.max 0 (D - clk (at_ x)) < Z.of_nat fuel →
  match any_timeout_join ops fuel dur slice x with
  | NoFuel => False
  | Panic msg x' => ∃ j d x1, j ∈ slice ∧ timeout_join ops j d x1 = Panic msg x'
  | Done (IoErr e) x' => e = Other "timeout join failed" ∧ D ≤ clk (at_ x')
  | Done (IoOk y) x' => if decide (slice = []) then y = None ∧ x' = x
      else ∃ j d x1, j ∈ slice ∧ d ≤ SLICE ∧ timeout_join ops j d x1 = Done (IoOk y) x'
  end.
Proof.
  intros D Hfuel. unfold any_timeout_join. destruct slice as [|j slice]; [done|].
  destruct (clk_now (at_ x)) as (s1 & Hn & Hle & _).
  erewrite bind_done by (by apply inside_done). fold D.
  assert (D ≤ u64_max) as HD.
  { unfold D, get_timeout_time, sat_add. case_match; lia. }
  pose proof (any_loop_ends fuel D (j :: slice) (put s1 x) HD) as H.
  rewrite at_put in H. specialize (H ltac:(done) ltac:(lia)).
  by destruct (any_loop _ _ _ _ _) as [[]| |].
Qed.

(** *** Connecting *)

(** What a computation gives, without the state it leaves. *)
Definition value_of {T A} (r : outcome T A) : option (A + string) :=
  match r with Done a _ => Some (inl a) | Panic msg _ => Some (inr msg) | NoFuel => None end.

Section connect.
Context {A L : Type}.
Implicit Types tcp : A → Z → M S (io_result L).

(** When the time is over the remaining addresses are passed over. *)
Lemma connect_each_late tcp fuel D addrs last x :
  D ≤ clk (at_ x) →
  value_of (connect_each ops tcp (Datatypes.S fuel) D addrs last x)
  = Some (inl (IoErr (default (InvalidInput "could not resolve to any addresses") last))).
Proof.
  revert x. induction addrs as [|a addrs IH]; intros x Hx; [done|].
  destruct (clk_now (at_ x)) as (s1 & Hn & Hle & _).
  cbn [connect_each]. rewrite (bind_done _ _ _ (inr last) (put s1 x)).
  - apply IH. rewrite at_put. lia.
  - cbn [connect_one]. erewrite bind_done by (by apply inside_done). cbn zeta.
    by rewrite (proj2 (Z.eqb_eq _ _)) by (by apply sat_sub_zero).
Qed.

(** An address is given up when the time is over, and not before. *)
Lemma connect_one_spec tcp fuel D a last x :
  match connect_one ops tcp fuel D a last x with
  | Done (inr _) x' => D ≤ clk (at_ x')
  | _ => True
  end.
Proof.
  revert last x. induction fuel as [|fuel IH]; intros last x; [done|]. cbn [connect_one].
  destruct (clk_now (at_ x)) as (s1 & Hn & Hle & _).
  erewrite bind_done by (by apply inside_done). cbn zeta.
  destruct (Z.eqb_spec (sat_sub D (clk (at_ x))) 0) as [H0|H0].
  { apply sat_sub_zero in H0. simpl. rewrite at_put. lia. }
  unfold mbind, M_bind. destruct (inside _ _) as [[l|e] x1|msg x1|]; [done|apply IH|done|done].
Qed.

Lemma connect_one_ext tcp tcp' fuel D a last x :
  (∀ d s, tcp a d s = tcp' a d s) →
  connect_one ops tcp fuel D a last x = connect_one ops tcp' fuel D a last x.
Proof.
  intros Heq. revert last x. induction fuel as [|fuel IH]; intros last x; [done|]. cbn [connect_one].
  unfold mbind, M_bind. destruct (inside (lo_now ops) x) as [n x1| |]; [|done|done].
  case_match; [done|].
  assert (inside (tcp a (Z.min (sat_sub D n) SLICE)) x1 = inside (tcp' a (Z.min (sat_sub D n) SLICE)) x1)
    as -> by (unfold inside, on_loops, on_net; by rewrite Heq).
  destruct (inside _ x1) as [[l|e] x2|msg x2|]; [done|apply IH|done|done].
Qed.

(** [connect_timeout] connects to the first address or to none: what it
    returns does not depend on the other addresses, nor on what connecting to
    them would do. The first address is tried until the time is over, and then
    nothing is left for the others. With no time at all the error says that
    the name could not be resolved. *)
Theorem connect_first_or_none tcp tcp' fuel timeout a rest rest' x :
  let resolved addrs : M S (io_result (list A)) := mret (IoOk addrs) in
  (∀ d s, tcp a d s = tcp' a d s) →
  value_of (connect_timeout ops tcp (resolved (a :: rest)) (Datatypes.S fuel) timeout x)
  = value_of (connect_timeout ops tcp' (resolved (a :: rest')) (Datatypes.S fuel) timeout x)
  ∧ (timeout = 0 → in_u64 (clk (at_ x)) →
     value_of (connect_timeout ops tcp (resolved (a :: rest)) (Datatypes.S fuel) timeout x)
     = Some (inl (IoErr (InvalidInput "could not resolve to any addresses")))).
Proof.
  intros resolved Heq. unfold connect_timeout.
  destruct (clk_now (at_ x)) as (s1 & Hn & Hle & _).
  rewrite !(bind_done _ _ _ (clk (at_ x)) (put s1 x)) by (by apply inside_done). cbn zeta.
  set (D := get_timeout_time _ _). unfold try_.
  assert (∀ addrs, inside (resolved addrs) (put s1 x) = Done (IoOk addrs) (put s1 x)) as Hr by done.
  rewrite !(bind_done _ _ _ _ _ (Hr _)). split.
  - cbn [connect_each]. unfold mbind, M_bind.
    rewrite (connect_one_ext tcp tcp' _ _ _ _ _ Heq).
    pose proof (connect_one_spec tcp' (Datatypes.S fuel) D a None (put s1 x)) as H.
    destruct (connect_one _ _ _ _ _ _ _) as [[l|e] x1|msg x1|]; [done| |done|done].
    by rewrite !connect_each_late.
  - intros -> Hx. apply connect_each_late. rewrite at_put. unfold D.
    rewrite get_timeout_time_zero by done. lia.
Qed.

(** Connecting ends: the attempts take no longer than they are told, and the
    fuel is for the nanoseconds of the limit. *)
Lemma connect_one_ends tcp fuel D a last x :
  (∀ a d s, match tcp a d s with Done _ s' | Panic _ s' => clk s ≤ clk s' | NoFuel => False end) →
  D ≤ u64_max → Z.max 0 (D - clk (at_ x)) < Z.of_nat fuel →
  connect_one ops tcp fuel D a last x ≠ NoFuel.
Proof.
  intros Htcp HD. revert last x. induction fuel as [|fuel IH]; intros last x Hf; [lia|].
  cbn [connect_one]. destruct (clk_now (at_ x)) as (s1 & Hn & Hle & Hlt).
  erewrite bind_done by (by apply inside_done). cbn zeta.
  destruct (Z.eqb_spec (sat_sub D (clk (at_ x))) 0) as [H0|H0]; [done|].
  rewrite sat_sub_zero in H0.
  pose proof (timely_inside (tcp a (Z.min (sat_sub D (clk (at_ x))) SLICE)) (Htcp _ _) (put s1 x)) as Ht.
  unfold mbind, M_bind. rewrite at_put in Ht.
  destruct (inside _ _) as [[l|e] x1|msg x1|]; [done| |done|done].
  apply IH. lia.
Qed.

Theorem connect_timeout_ends tcp fuel timeout a rest x :
  (∀ a d s, match tcp a d s with Done _ s' | Panic _ s' => clk s ≤ clk s' | NoFuel => False end) →
  Z.max 0 (get_timeout_time (clk (at_ x)) timeout - clk (at_ x)) < Z.of_nat fuel →
  connect_timeout ops tcp (mret (IoOk (a :: rest))) fuel timeout x ≠ NoFuel.
Proof.
  intros Htcp Hf. unfold connect_timeout.
  destruct (clk_now (at_ x)) as (s1 & Hn & Hle & _).
  rewrite !(bind_done _ _ _ (clk (at_ x)) (put s1 x)) by (by apply inside_done). cbn zeta.
  set (D := get_timeout_time _ _) in *.
  assert (D ≤ u64_max) as HD by (unfold D, get_timeout_time, sat_add; case_match; lia).
  unfold try_. rewrite (bind_done _ _ _ (IoOk (a :: rest)) (put s1 x)) by done.
  destruct fuel as [|fuel]; [lia|].
  pose proof (connect_one_ends tcp (Datatypes.S fuel) D a None (put s1 x) Htcp HD) as H1.
  rewrite at_put in H1. specialize (H1 ltac:(lia)).
  pose proof (connect_one_spec tcp (Datatypes.S fuel) D a None (put s1 x)) as H2.
  cbn [connect_each]. unfold mbind, M_bind.
  destruct (connect_one _ _ _ _ _ _ _) as [[l|e] x1|msg x1|]; try done.
  intros H. pose proof (connect_each_late tcp fuel D rest e x1 H2) as Hl. by rewrite H in Hl.
Qed.
End connect.
End timing.

(** ** Starting, and hooked functions *)

Section hooks.
Context {S I : Type} (ops : LoopOps S UserTaskFunc I).
Implicit Types (x : Fac S) (c : Config).

(** The first initialisation decides: it returns zero, and whether calls are
    hooked is what its configuration says. A later one changes nothing,
    whatever its configuration says. *)
Theorem first_init_decides c c2 x r x1 :
  HOOK x = None → open_coroutine_init ops c x = Done r x1 →
  r = 0 ∧ hook x1 = Done (Config.hook c) x1 ∧ open_coroutine_init ops c2 x1 = Done 0 x1.
Proof.
  intros Hh Hi%extern_c_inv. apply bind_done_inv in Hi as (u & y & Hinit & Hi).
  unfold on_loops in Hinit. destruct (init ops c (loops_of x)) as [u' n| |] eqn:E; try done.
  injection Hinit as <- <-.
  assert (INSTANCE n ≠ None) as Hn.
  { revert E. unfold init. munfold. simpl. repeat case_match; naive_solver. }
  apply bind_done_inv in Hi as (h & y' & Hg & Hi). injection Hg as <- <-. simpl in Hi.
  rewrite Hh in Hi. injection Hi as <- <-. split; [done|]. split; [done|].
  destruct n as [[l|] s]; [|done]. reflexivity.
Qed.

(** A hooked function that was not called before finds the original; it then
    is the hooked call when hooking is on, or inside a coroutine, and the
    original otherwise. When there is no original the process ends. *)
Theorem hooked_or_original {A} dlsym cur ci name (original hooked : Z → M S A) x b s :
  cells x !! name = None → cur (at_ x) = Done b s →
  let p := dlsym name in
  let x1 := set_cells (<[name := Resolved p]> (cells x)) x in
  (p ≠ 0 → impl_hook dlsym cur ci name original hooked x
    = if default false (HOOK x) then extern_c (inside (hooked p)) x1
      else extern_c (inside ((if b || ci then hooked else original) p)) (put s x1))
  ∧ (p = 0 → ∃ x', impl_hook dlsym cur ci name original hooked x = Panic aborted x').
Proof.
  intros Hc Hcur p x1. unfold impl_hook. split; intros Hp; unfold extern_c at 1;
    rewrite (bind_done _ _ _ None x) by (unfold gets; by rewrite Hc); fold p.
  - rewrite (proj2 (Z.eqb_neq _ _)) by done.
    rewrite (bind_done _ _ _ p x1) by done.
    rewrite (bind_done _ _ _ (default false (HOOK x)) x1) by done.
    destruct (default false (HOOK x)).
    + rewrite (bind_done _ _ _ true x1) by done. done.
    + rewrite (bind_done _ _ _ b (put s x1)) by (by apply inside_done).
      by destruct (b || ci)%bool.
  - rewrite (proj2 (Z.eqb_eq _ _)) by done. by eexists.
Qed.
End hooks.

(** ** Growing the stack *)

(** What [maybe_grow] relies on: where it may be called, [grow] fails without
    running the callback, or runs it once and passes on how it ended; the
    boxes are left alone. *)
Class Grows {S B : Type} `{!HasHeap S B} (grow : Z → Z → M S Z → M S (io_result Z)) := {
  growable : S → Prop;
  grow_heap m s : growable s → growable (set_heap m s);
  grow_ok red_zone stack_size m s :
    growable s →
    (∃ e s', grow red_zone stack_size m s = Done (IoErr e) s')
    ∨ ∃ s1, heap s1 = heap s ∧
        match m s1 with
        | Done a s2 => ∃ s3, grow red_zone stack_size m s = Done (IoOk a) s3 ∧ heap s3 = heap s2
        | Panic msg _ => ∃ s3, grow red_zone stack_size m s = Panic msg s3
        | NoFuel => grow red_zone stack_size m s = NoFuel
        end;
}.

Section growing.
Context {S U V : Type} `{!HasHeap S (box U V), !Alloc (box U V)}.
Context (call_thunk : U → M S V) (foreign : Z → Z → M S Z).
Context (grow : Z → Z → M S Z → M S (io_result Z)) (sysconf : Z) `{!Grows grow}.
Implicit Types (x : Fac S) (s : S).

Lemma execute_on_stack_spec a u s :
  heap s !! a = Some (BThunk u) →
  match call_thunk u s with
  | Done v s' => execute_on_stack call_thunk a s
      = match alloc (heap s') with
        | Some q => Done q (set_heap (<[q := BValue v]> (heap s')) s')
        | None => Panic aborted s'
        end
  | Panic _ s' => execute_on_stack call_thunk a s = Panic aborted s'
  | NoFuel => execute_on_stack call_thunk a s = NoFuel
  end.
Proof.
  intros Ha. unfold execute_on_stack, extern_c, mbind, M_bind, read_thunk. rewrite Ha.
  destruct (call_thunk u s) as [v s'| |]; [|done|done]. unfold leak_box. by destruct (alloc (heap s')).
Qed.

Lemma maybe_grow_stack_spec red_zone stack_size f p x :
  growable (at_ x) →
  (∃ x', maybe_grow_stack call_thunk foreign grow sysconf red_zone stack_size f p x = Done (-1) x')
  ∨ ∃ s1, heap s1 = heap (at_ x) ∧
      match call_user_func call_thunk foreign f p s1 with
      | Done a s2 => a ≤ i64_max → ∃ x',
          maybe_grow_stack call_thunk foreign grow sysconf red_zone stack_size f p x = Done a x'
          ∧ heap (at_ x') = heap s2
      | Panic _ _ => ∃ x', maybe_grow_stack call_thunk foreign grow sysconf red_zone stack_size f p x
          = Panic aborted x'
      | NoFuel => maybe_grow_stack call_thunk foreign grow sysconf red_zone stack_size f p x = NoFuel
      end.
Proof.
  intros Hg. unfold maybe_grow_stack.
  assert (∃ rz x1, (if 0 <? red_zone then mret red_zone else red_zone_default sysconf) x = Done rz x1
    ∧ at_ x1 = at_ x) as (rz & x1 & Hrz & Hat).
  { destruct (0 <? red_zone); [by eexists _, _|]. unfold red_zone_default.
    destruct (default_red_zone _ _ _) as [[r pc] c]. by eexists _, _. }
  unfold extern_c. erewrite bind_done by exact Hrz. cbn zeta.
  set (sz := if 0 <? stack_size then stack_size else DEFAULT_STACK_SIZE).
  rewrite <-Hat in Hg.
  destruct (grow_ok rz sz (call_user_func call_thunk foreign f p) (at_ x1) Hg)
    as [(e & s' & He)|(s1 & Hh & Hm)].
  { left. erewrite bind_done by (apply inside_done; exact He). by eexists. }
  right. exists s1. rewrite Hh, Hat. split; [done|]. unfold at_ in Hm. unfold mbind, M_bind, inside, on_loops, on_net.
  destruct (call_user_func _ _ _ _ _) as [a s2|msg s2|].
  - intros Ha. destruct Hm as (s3 & Hgr & Hheap). rewrite Hgr. simpl.
    rewrite (proj2 (Z.leb_le _ _)) by done. by eexists.
  - destruct Hm as (s3 & Hgr). rewrite Hgr. by eexists.
  - by rewrite Hm.
Qed.

(** With memory for its boxes, [maybe_grow] gives what its closure returns: it fails when no stack could
    be allocated, without running the closure; otherwise it runs the closure
    once, returns its value and frees the box of the value; a panic of the
    closure ends the process. The box that held the closure is in the heap of
    that run and is not freed afterwards. *)
Theorem maybe_grow_gives_value red_zone stack_size u x p :
  growable (at_ x) → alloc (heap (at_ x)) = Some p →
  (∃ x', maybe_grow call_thunk foreign grow sysconf red_zone stack_size u x
     = Done (IoErr (InvalidInput "grow stack failed")) x')
  ∨ ∃ s1, heap s1 = <[p := BThunk u]> (heap (at_ x)) ∧
      match call_thunk u s1 with
      | Done v s2 => is_Some (alloc (heap s2)) →
          ∃ x', maybe_grow call_thunk foreign grow sysconf red_zone stack_size u x
            = Done (IoOk v) x' ∧ heap (at_ x') = heap s2
      | Panic _ _ => ∃ x', maybe_grow call_thunk foreign grow sysconf red_zone stack_size u x
          = Panic aborted x'
      | NoFuel => maybe_grow call_thunk foreign grow sysconf red_zone stack_size u x = NoFuel
      end.
Proof.
  intros Hg Hp. unfold maybe_grow.
  set (x0 := put (set_heap (<[p := BThunk u]> (heap (at_ x))) (at_ x)) x).
  rewrite !(bind_done _ _ _ p x0) by (apply inside_done; unfold leak_box; by rewrite Hp).
  assert (heap (at_ x0) = <[p := BThunk u]> (heap (at_ x))) as H0 by apply heap_set.
  destruct (maybe_grow_stack_spec red_zone stack_size ExecuteOnStack p x0)
    as [(x' & Hx')|(s1 & Hh & Hm)]; [by apply grow_heap| |].
  { left. erewrite bind_done by exact Hx'. by eexists. }
  right. exists s1. rewrite Hh, H0. split; [done|].
  pose proof (execute_on_stack_spec p u s1) as He. rewrite Hh, H0 in He.
  specialize (He (lookup_insert_eq _ _ _)). cbn [call_user_func] in Hm.
  destruct (call_thunk u s1) as [v s2|msg s2|]; rewrite He in Hm; clear He.
  - intros [q Hq]. rewrite Hq in Hm. destruct (alloc_ok _ _ Hq) as [Hnew Hr].
    destruct (Hm (proj2 Hr)) as (x' & Hx' & Hheap).
    rewrite (bind_done _ _ _ _ _ Hx'), (proj2 (Z.ltb_ge _ _)) by lia. rewrite heap_set in Hheap.
    rewrite (bind_done _ _ _ v (put (set_heap (heap s2) (at_ x')) x')).
    + eexists. split; [reflexivity|]. rewrite at_put. apply heap_set.
    + apply inside_done. unfold value_from_raw. rewrite Hheap, lookup_insert_eq.
      by rewrite delete_insert_id.
  - destruct Hm as (x' & Hx'). unfold mbind, M_bind. rewrite Hx'. by eexists.
  - unfold mbind, M_bind. by rewrite Hm.
Qed.
End growing.

(** The growth of coroutines keeps that promise, wherever the stack pointer
    lies on the stack that was last recorded. *)
Section coroutine_growth.
Context {Y R I X B : Type} `{!HasHeap X B}.
Context (stack_alloc : Z → io_result StackInfo) (sp : Z).
Abbreviation W := (World Y R I X).

#[export, program] Instance world_heap : HasHeap W B := {
  heap w := heap (ext w);
  set_heap m w := Coroutine.set_ext (set_heap m) w;
}.
Next Obligation. intros m w. apply heap_set. Qed.

Definition on_last_stack (w : W) : Prop :=
  match head (COROUTINE (tls w)) with
  | Some h => ∃ c info, cos w !! h = Some c ∧ last (co_stack_infos c) = Some info
      ∧ stack_bottom info ≤ sp
  | None => match last (STACK_INFOS (tls w)) with
            | Some info => stack_bottom info ≤ sp
            | None => True
            end
  end.

(** Running the callback as it is, or between two steps that keep the heap. *)
Lemma grow_plain (m : M W Z) (w : W) :
  match m w with
  | Done a w2 => ∃ w3, (a ← m; mret (IoOk a)) w = Done (IoOk a) w3 ∧ heap w3 = heap w2
  | Panic msg _ => ∃ w3, (a ← m; mret (IoOk a)) w = @Panic _ (io_result Z) msg w3
  | NoFuel => (a ← m; mret (IoOk a)) w = @NoFuel _ (io_result Z)
  end.
Proof. unfold mbind, M_bind. destruct (m w); [by eexists|by eexists|done]. Qed.

Lemma grow_guarded h stack (m : M W Z) (w : W) :
  ∃ w1, heap w1 = heap w ∧
  match m w1 with
  | Done a w2 => ∃ w3, (a ← on_stack_guarded h stack m; mret (IoOk a)) w = Done (IoOk a) w3
      ∧ heap w3 = heap w2
  | Panic msg _ => ∃ w3, (a ← on_stack_guarded h stack m; mret (IoOk a)) w = @Panic _ (io_result Z) msg w3
  | NoFuel => (a ← on_stack_guarded h stack m; mret (IoOk a)) w = @NoFuel _ (io_result Z)
  end.
Proof.
  exists (set_cos (alter (λ c, co_set_stack_infos (co_stack_infos c ++ [stack]) c) h) w).
  split; [done|]. unfold on_stack_guarded, set_stack_infos. munfold.
  destruct (m _); [by eexists|by eexists|done].
Qed.

(** Outside a coroutine the record of the stacks is the thread's. *)
Definition grow_thread (z : Z) (m : M W Z) : M W (io_result Z) :=
  match stack_alloc z with
  | IoErr e => mret (IoErr e)
  | IoOk stack =>
      _ ← modify (set_tls (λ t, tls_set_stack_infos (STACK_INFOS t ++ [stack]) t));
      a ← m;
      _ ← modify (set_tls (λ t, tls_set_stack_infos (pop_back (STACK_INFOS t)) t));
      mret (IoOk a)
  end.

Lemma grow_thread_spec z (m : M W Z) (w : W) :
  (∃ e w', grow_thread z m w = Done (IoErr e) w')
  ∨ ∃ w1, heap w1 = heap w ∧
    match m w1 with
    | Done a w2 => ∃ w3, grow_thread z m w = Done (IoOk a) w3 ∧ heap w3 = heap w2
    | Panic msg _ => ∃ w3, grow_thread z m w = Panic msg w3
    | NoFuel => grow_thread z m w = NoFuel
    end.
Proof.
  unfold grow_thread. destruct (stack_alloc z) as [stack|e]; [right|left; by eexists _, _].
  exists (set_tls (λ t, tls_set_stack_infos (STACK_INFOS t ++ [stack]) t) w).
  split; [done|]. unfold mbind, M_bind. simpl. destruct (m _); [by eexists|by eexists|done].
Qed.

#[export, program] Instance coroutine_grows : Grows (λ r z m, maybe_grow_with stack_alloc sp r z m) := {
  growable := on_last_stack;
}.
Next Obligation. done. Qed.
Next Obligation.
  intros r z m w Hg. unfold maybe_grow_with, current, on_last_stack in *.
  rewrite (bind_done _ _ _ (head (COROUTINE (tls w))) w) by done.
  destruct (head (COROUTINE (tls w))) as [h|].
  - destruct Hg as (c & info & Hc & Hl & Hb). unfold with_co. rewrite Hc, Hl.
    rewrite (proj2 (Z.ltb_ge _ _)) by done. case_match.
    { right. exists w. split; [done|]. apply grow_plain. }
    destruct (stack_alloc z); [right; apply grow_guarded|left; by eexists _, _].
  - rewrite (bind_done _ _ _ (STACK_INFOS (tls w)) w) by done. cbn zeta.
    fold (grow_thread z m).
    destruct (last (STACK_INFOS (tls w))) as [info|]; [|apply grow_thread_spec].
    rewrite (proj2 (Z.ltb_ge _ _)) by done. case_match; [|apply grow_thread_spec].
    right. exists w. split; [done|]. apply grow_plain.
Qed.
End coroutine_growth.
