(* ===== verification/FacadeRuns.v ===== *)
(** * FacadeRuns: tasks from end to end

    Two ways to run the facade: on a small table of tasks that keeps the
    promise [TaskContract], for the applications of its theorems, and on a whole
    event loop with its pool, its workers and its thread. *)

From stdpp Require Import sorting base numbers strings gmap list.
From S2P Require Import Prelude Common Config QueueIface Coroutine Scheduler CoPool Selector Syscall.
From S2P Require Import Operator Beans EventLoop EventLoops Facade.
From S2P Require Import CoPoolRuns.
Import SelectorExamples OperatorExamples.

(** The closures of the examples: one doubles its parameter, one adds to it,
    one panics. *)
Inductive fn : Type := Double | Add (k : Z) | Explode.
Abbreviation bx := (box fn Z).

Definition call_fn {S} (f : fn) (v : Z) : M S Z :=
  match f with
  | Double => mret (2 * v)
  | Add k => mret (v + k)
  | Explode => panic "boom"
  end.
Definition call_closed {S} (f : fn) : M S Z := call_fn f 21.
Definition no_foreign {S} (_ _ : Z) : M S Z := panic "no such function".

(** Addresses are given out in turn, as long as they are positive. *)
Definition next_address (m : gmap Z bx) : Z := 1 + map_fold (λ k _ acc, Z.max k acc) 0 m.

Lemma next_address_above m k b : m !! k = Some b → k < next_address m.
Proof.
  unfold next_address. revert k b. induction m as [|i b' m Hi Hf IH] using map_first_key_ind; intros k b.
  - by rewrite lookup_empty.
  - rewrite map_fold_insert_first_key by done. intros H%lookup_insert_Some.
    destruct H as [[<- _]|[_ H]]; [lia|]. specialize (IH _ _ H). lia.
Qed.

Lemma next_address_pos m : 0 < next_address m.
Proof.
  unfold next_address. induction m as [|i b' m Hi Hf IH] using map_first_key_ind.
  - rewrite map_fold_empty. lia.
  - rewrite map_fold_insert_first_key by done. lia.
Qed.

#[export, program] Instance next_alloc : Alloc bx := {
  alloc m := if next_address m <=? i64_max then Some (next_address m) else None;
}.
Next Obligation.
  intros m p H. simpl in H. destruct (Z.leb_spec (next_address m) i64_max); [|done].
  injection H as <-. split; [|split; [apply next_address_pos|done]].
  apply eq_None_not_Some. intros [b Hb%next_address_above]. lia.
Qed.

(** ** A table of tasks *)

Module Table.

(** A task is waiting to run, or its result was handed out. *)
Record T : Type := mkT {
  t_heap : gmap Z bx;
  t_clock : nat;
  t_tasks : gmap Z (UserTaskFunc * option Z);
  t_spent : gset Z;
}.

#[export, program] Instance table_heap : HasHeap T bx := {
  heap := t_heap;
  set_heap m t := mkT m (t_clock t) (t_tasks t) (t_spent t);
}.
Next Obligation. done. Qed.

(** The clock has microseconds, and stops at the largest time. *)
Definition clk (t : T) : Z := Z.min u64_max (1000 * Z.of_nat (t_clock t)).
Definition tick (t : T) : T := mkT (t_heap t) (S (t_clock t)) (t_tasks t) (t_spent t).

(** Ids from 1 on. *)
Definition new_id (t : T) : Z := 1 + Z.of_nat (size (t_tasks t) + size (t_spent t)).

(** Waiting runs the task. *)
Definition run_task (id : Z) : M T (io_result (Ret + string)) := λ t,
  if decide (id ∈ t_spent t) then Done (IoErr (TimedOut "wait timeout")) t
  else
    match t_tasks t !! id with
    | None => Done (IoErr (TimedOut "wait timeout")) t
    | Some (f, p) =>
        match catch_task (task_closure call_fn no_foreign f p) t with
        | Done o t' => Done (IoOk o) (mkT (t_heap t') (t_clock t') (delete id (t_tasks t')) ({[ id ]} ∪ t_spent t'))
        | Panic msg t' => Panic msg t'
        | NoFuel => NoFuel
        end
    end.

Definition nothing {A} (r : A) : M T A := mret r.

Definition table_with (time : T → Z) : LoopOps T UserTaskFunc unit := {|
  lo_start _ _ := nothing (IoOk tt);
  lo_current := nothing None;
  lo_submit_task _ _ f p _ := λ t, Done (IoOk (new_id t))
    (mkT (t_heap t) (t_clock t) (<[new_id t := (f, p)]> (t_tasks t)) (t_spent t ∖ {[ new_id t ]}));
  lo_try_cancel_task _ := nothing tt;
  lo_submit_co _ _ _ _ := nothing (IoOk tt);
  lo_timed_wait_just _ _ := nothing (IoOk tt);
  lo_wait_just _ _ := nothing (IoOk tt);
  lo_add_read_event _ _ := nothing (IoOk tt);
  lo_add_write_event _ _ := nothing (IoOk tt);
  lo_del_event _ _ := nothing (IoOk tt);
  lo_del_read_event _ _ := nothing (IoOk tt);
  lo_del_write_event _ _ := nothing (IoOk tt);
  lo_uring _ _ := nothing (IoErr (Unsupported "no ring"));
  lo_wait_task_result _ id _ := run_task id;
  lo_clean_task_result _ _ := nothing tt;
  lo_stop _ _ := nothing (IoOk tt);
  lo_shared_stop := nothing 0;
  lo_shared_wait _ := nothing tt;
  lo_monitor_stop := nothing tt;
  lo_now := λ t, Done (time t) (tick t);
|}.
Definition table : LoopOps T UserTaskFunc unit := table_with clk.

(** A closure of the table changes the heap only. *)
Lemma closure_keeps f p t :
  match catch_task (task_closure call_fn no_foreign f p) t with
  | Done _ t' | Panic _ t' => t_clock t' = t_clock t
  | NoFuel => False
  end.
Proof.
  unfold task_closure. destruct f as [|a]; [|by vm_compute].
  unfold task_main, read_task. munfold. unfold extern_c, catch_task at 1, undefined. simpl.
  destruct (t_heap t !! _) as [[[] v| | |]|]; simpl; unfold leak_box, heap, table_heap; simpl;
    try destruct (next_address _ <=? i64_max); done.
Qed.

#[export, program] Instance table_contract time : TaskContract (table_with time) call_fn no_foreign := {
  pending t _ id f p := (id ∉ t_spent t) ∧ t_tasks t !! id = Some (f, p);
  spent t _ id := id ∈ t_spent t;
}.
Next Obligation.
  intros time i name f p priority t id t' [= <- <-]. simpl. split; [|done].
  split; [set_solver|apply lookup_insert_eq].
Qed.
Next Obligation. intros time t n t' [= <- <-]. by simpl. Qed.
Next Obligation. by intros time i id t t' [= <-]. Qed.
Next Obligation. done. Qed.
Next Obligation.
  intros time i id f p w t r t' [Hs Hp] H. unfold table_with, lo_wait_task_result, run_task in H.
  rewrite decide_False, Hp in H by done.
  destruct (catch_task _ _) as [o t1| |] eqn:E; try done. injection H as <- <-. split.
  - simpl. set_solver.
  - exists t, t1. done.
Qed.
Next Obligation.
  intros time i id w t r t' Hs H. unfold table_with, lo_wait_task_result, run_task in H.
  rewrite decide_True in H by done. by injection H as <- <-.
Qed.

(** *** Applications *)

Definition empty_table : T := mkT ∅ 0 ∅ ∅.
Definition started : Fac T := mkFac (Some true) ∅ 0 0 (mkNet (Some (mkLoops 0 2)) empty_table).

Definition handle_of (r : outcome (Fac T) JoinHandle) : JoinHandle :=
  match r with Done j _ => j | _ => handle_err 0 end.
Definition state_of {A} (r : outcome (Fac T) A) (x : Fac T) : Fac T :=
  match r with Done _ x' | Panic _ x' => x' | NoFuel => x end.

Definition made (f : fn) : Fac T := state_of (crate_task table f 21 0 started) started.
Definition the_task (f : fn) : JoinHandle := handle_of (crate_task table f 21 0 started).

(** A task that doubles 21 gives 42, one that panics gives its message, and in
    both cases one box is left behind: the one that held the closure. *)
Example run_both :
  (value_of (join table (the_task Double) (made Double)),
   map_to_list (heap (at_ (state_of (join table (the_task Double) (made Double)) started))))
  = (Some (inl (IoOk (Some 42))), [(1, BTask Double 21)])
  ∧ (value_of (join table (the_task Explode) (made Explode)),
     map_to_list (heap (at_ (state_of (join table (the_task Explode) (made Explode)) started))))
  = (Some (inl (IoErr (Other "boom"))), [(1, BTask Explode 21)]).
Proof. vm_compute. by split. Qed.


(** *** Time *)

Lemma table_clock t : ∃ t', lo_now table t = Done (clk t) t' ∧ clk t ≤ clk t'
  ∧ (clk t < u64_max → clk t < clk t').
Proof. exists (tick t). unfold clk, tick, u64_max. simpl t_clock. split; [done|lia]. Qed.

Lemma table_waits i id w t :
  match lo_wait_task_result table i id w t with
  | Done _ t' | Panic _ t' => clk t ≤ clk t'
  | NoFuel => False
  end.
Proof.
  unfold table, table_with, lo_wait_task_result, run_task. destruct (decide _); [done|].
  destruct (t_tasks t !! id) as [[f p]|]; [|done]. pose proof (closure_keeps f p t) as H.
  destruct (catch_task _ _) as [o t1|msg t1|]; unfold clk; simpl; try rewrite H; done.
Qed.

(** Applies [any_timeout_join_ends]: a task that panics makes the join fail
    when its three microseconds are over. *)
Lemma any_timeout_join_ends_witness :
  match any_timeout_join table 3001 3000 [the_task Explode] (made Explode) with
  | NoFuel => False
  | Panic msg x' => ∃ j d x1, j ∈ [the_task Explode] ∧ timeout_join table j d x1 = Panic msg x'
  | Done (IoErr e) x' => e = Other "timeout join failed"
      ∧ get_timeout_time (clk (at_ (made Explode))) 3000 ≤ clk (at_ x')
  | Done (IoOk y) x' => if decide ([the_task Explode] = []) then y = None ∧ x' = made Explode
      else ∃ j d x1, j ∈ [the_task Explode] ∧ d ≤ SLICE ∧ timeout_join table j d x1 = Done (IoOk y) x'
  end.
Proof.
  apply (any_timeout_join_ends table clk table_clock table_waits); [done|].
  vm_compute. done.
Defined.

(** A clock that never reaches the largest time. *)
Definition early (t : T) : Z := Z.min (u64_max - 1) (1000 * Z.of_nat (t_clock t)).

(** Applies [any_join_of_failed_diverges]. *)
Lemma any_join_of_failed_diverges_witness :
  (∀ r x', any_join (table_with early) 100 [the_task Explode] (made Explode) ≠ Done r x')
  ∧ any_join (table_with early) 100 [the_task Explode] (made Explode) = NoFuel.
Proof.
  split; [|vm_compute; reflexivity].
  refine (any_join_of_failed_diverges (table_with early) call_fn no_foreign 100
    (the_task Explode) 1 1 Explode 21 "boom" (made Explode) _ _ _ _ _ _).
  - reflexivity.
  - split; [vm_compute; by intros|reflexivity].
  - reflexivity.
  - intros y. by exists y.
  - done.
  - intros t n t' [= <- _]. unfold early, u64_max. lia.
Defined.

(** Two addresses, of which the second accepts at once. *)
Definition tcp (a : nat) (_ : Z) : M T (io_result unit) :=
  match a with 0%nat => mret (IoErr (OsError 111)) | _ => mret (IoOk tt) end.

(** Applies [connect_first_or_none]: with both addresses, and with the first
    alone and nobody accepting, the same refusal comes back. *)
Lemma connect_first_or_none_witness :
  value_of (connect_timeout table tcp (mret (IoOk [0%nat; 1%nat])) 10 3000 started)
  = value_of (connect_timeout table (λ _ _, mret (IoErr (OsError 111))) (mret (IoOk [0%nat])) 10 3000 started)
  ∧ value_of (connect_timeout table tcp (mret (IoOk [0%nat; 1%nat])) 10 3000 started)
    = Some (inl (IoErr (OsError 111))).
Proof.
  split; [|vm_compute; reflexivity].
  apply (connect_first_or_none table clk table_clock tcp (λ _ _, mret (IoErr (OsError 111)))
    9 3000 0%nat [1%nat] [] started). done.
Defined.
End Table.

(** ** On a whole event loop

    The tasks run on the workers of the pool of an event loop, whose thread
    runs while the caller waits. *)

Module LoopTasks.

Abbreviation E := (EL Polls MemRing (Sys * gmap Z bx)).
Abbreviation Po := (Pool (list (Task UserTaskFunc)) E).
Abbreviation Sc := (Sched (list handle) Po).
Abbreviation W := (World unit (option Z) Z Sc).

Definition on_ext (f : Sys * gmap Z bx → Sys * gmap Z bx) : Sc → Sc :=
  upd_pool (λ p, p_set_ext
    (let e := p_ext p in mkEL (el_poller e) (el_sel e) (el_operator e) (COROUTINE_TOKENS e)
       (syscall_wait_table e) (arcs e) (el_stop e) (shared_stop e) (el_beans e) (EVENT_LOOP e)
       (f (el_ext e))) p).

#[export] Instance tasks_sys : HasSys Sc := {
  sys s := (el_ext (p_ext (s_ext s))).1;
  set_sys f := on_ext (λ e, (f e.1, e.2));
}.
#[export, program] Instance tasks_heap : HasHeap Sc bx := {
  heap s := (el_ext (p_ext (s_ext s))).2;
  set_heap m := on_ext (λ e, (e.1, m));
}.
Next Obligation. by intros m []. Qed.

Definition ticks (k : nat) : Z := 1000000 * Z.of_nat k.
Definition hash1 (name : string) : Z := 1 + Z.of_nat (String.length name).
Definition names (w : W) : string := String.concat "" (replicate (size (cos w)) "x").
Definition task_call (f : UserTaskFunc) (p : option Z) : M W (option Z) :=
  task_closure call_fn no_foreign f p.
Definition body (h : handle) (_ : unit) : M W (CoroutineResult unit (option Z)) :=
  with_co h (λ c, worker_run ticks task_call 50 (co_inner c)).
Definition listen (_ : nat) (_ : handle) (ev : event unit (option Z)) : M W unit :=
  creator ticks worker hash1 alloc 4096 names ev.
Definition token (_ : SyscallName) : Z := 77.
Definition no_switch : M W unit := mret tt.
Definition never (_ : Z) : M W unit := mret tt.

Definition new_loop : W :=
  mkWorld ∅ (mkTls [] [] [] [] []) 0
    (event_loop_new "loop" [] [] 0 0 131072 0 2 0 (mkSel ∅ ∅ ∅ ∅ ∅ ∅ ∅ (mkPolls ∅ []))
       (mkOp (mkRing [] 0 8 None) false [] 0 ∅) ∅ 0 new_factory (mkSys 0 ∅ ∅, ∅)).

(** What the other thread, that of the loop, does while the caller waits. *)
Definition thread_runs (_ : nat) (_ : Z) : M W unit := λ w,
  match try_timeout_schedule_task ticks listen body 1 worker hash1 alloc 4096 names 60
    (ticks (w_tick w) + 20000000) w with
  | Done _ w' | Panic _ w' => Done tt w'
  | NoFuel => NoFuel
  end.

Definition loop : LoopOps W UserTaskFunc Z := {|
  lo_start _ _ := mret (IoOk tt);
  lo_current := n ← el EVENT_LOOP; mret (match n with O => None | _ => Some 0%nat end);
  lo_submit_task _ := CoPool.submit_task hash1 names;
  lo_try_cancel_task := CoPool.try_cancel_task (λ _, mret tt);
  lo_submit_co _ := pool_submit_co hash1 alloc 4096 names;
  lo_timed_wait_just _ := timed_wait_just ticks listen no_switch false all instants 100 5;
  lo_wait_just _ := wait_just ticks listen no_switch false all instants 5;
  lo_add_read_event _ := EventLoop.add_read_event token;
  lo_add_write_event _ := EventLoop.add_write_event token;
  lo_del_event _ := EventLoop.del_event;
  lo_del_read_event _ := EventLoop.del_read_event;
  lo_del_write_event _ := EventLoop.del_write_event;
  lo_uring _ _ := mret (IoErr (Unsupported "no ring"));
  lo_wait_task_result _ := wait_task_result ticks task_call thread_runs 50;
  lo_clean_task_result _ := clean_task_result;
  lo_stop _ := EventLoop.stop ticks listen body 1 worker hash1 alloc 4096 names no_switch false all
      instants never 10 60 5;
  lo_shared_stop := el shared_stop;
  lo_shared_wait := never;
  lo_monitor_stop := mret tt;
  lo_now := now_ ticks;
|}.

Definition fresh_fac : Fac W := mkFac None ∅ 0 0 (mkNet None new_loop).

(** Start, make a task, join it. *)
Definition program (f : fn) : M (Fac W) (io_result (option Z)) :=
  _ ← facade_init loop Config.single;
  j ← crate_task loop f 21 0;
  join loop j.

(** From end to end, with nothing between the facade and the coroutine that
    runs the task left out: the value comes back, and so does the panic. *)
Example program_gives_result :
  value_of (program Double fresh_fac) = Some (inl (IoOk (Some 42)))
  ∧ value_of (program Explode fresh_fac) = Some (inl (IoErr (Other "boom"))).
Proof. vm_compute. by split. Qed.
End LoopTasks.
