(* ===== verification/MainMacro.v ===== *)
(** * MainMacro: the attribute open_coroutine::main

    Models [macros/src/lib.rs]: what the attribute makes of its arguments, and
    the function it generates, which configures and starts the runtime, runs
    the body it was put on, and shuts the runtime down. The crate [syn] is
    modelled as far as the source uses it: an argument is a path alone, a path
    with a literal, or a path with something else, and an argument with tokens
    that nobody reads is an error. *)

From stdpp Require Import sorting base numbers strings gmap list.
From S2P Require Import Prelude Common Config EventLoops Facade.

(** ** Arguments *)

(** [LitInt] has no sign; [None] stands for a compilation error. *)
Inductive literal : Type := LitInt (n : Z) | LitBool (b : bool) | LitOther.
Inductive meta : Type := MPath (path : string) | MNameValue (path : string) (l : literal) | MList (path : string).

(** The variables of [main], with the largest number for what was not given. *)
Record Args : Type := mkArgs {
  a_event_loop_size : Z;
  a_stack_size : Z;
  a_min_size : Z;
  a_max_size : Z;
  a_keep_alive_time : Z;
  a_min_memory_count : Z;
  a_memory_keep_alive_time : Z;
  a_hook : bool;
}.

Definition no_args : Args :=
  mkArgs usize_max usize_max usize_max usize_max u64_max usize_max u64_max true.

Definition known (path : string) : bool :=
  bool_decide (path ∈ ["event_loop_size"; "stack_size"; "min_size"; "max_size"; "keep_alive_time";
    "min_memory_count"; "memory_keep_alive_time"; "hook"]).

(** [parse::<LitInt>()?.base10_parse()?] of a 64-bit type, and
    [parse::<LitBool>()?.value()]. *)
Definition lit_int (l : literal) : option Z :=
  match l with LitInt n => if n <=? u64_max then Some n else None | _ => None end.
Definition lit_bool (l : literal) : option bool :=
  match l with LitBool b => Some b | _ => None end.

(** The closure of the parser on a path with a value. *)
Definition set_arg (path : string) (l : literal) (a : Args) : option Args :=
  let '(mkArgs e s mi ma k mm mk h) := a in
  if decide (path = "event_loop_size") then n ← lit_int l; Some (mkArgs n s mi ma k mm mk h)
  else if decide (path = "stack_size") then n ← lit_int l; Some (mkArgs e n mi ma k mm mk h)
  else if decide (path = "min_size") then n ← lit_int l; Some (mkArgs e s n ma k mm mk h)
  else if decide (path = "max_size") then n ← lit_int l; Some (mkArgs e s mi n k mm mk h)
  else if decide (path = "keep_alive_time") then n ← lit_int l; Some (mkArgs e s mi ma n mm mk h)
  else if decide (path = "min_memory_count") then n ← lit_int l; Some (mkArgs e s mi ma k n mk h)
  else if decide (path = "memory_keep_alive_time") then n ← lit_int l; Some (mkArgs e s mi ma k mm n h)
  else if decide (path = "hook") then b ← lit_bool l; Some (mkArgs e s mi ma k mm mk b)
  else None.

Definition parse_meta (m : meta) (a : Args) : option Args :=
  match m with
  | MPath path => if known path then None else Some a
  | MNameValue path l => set_arg path l a
  | MList _ => None
  end.

Fixpoint parse_args (ms : list meta) (a : Args) : option Args :=
  match ms with
  | [] => Some a
  | m :: ms => a ← parse_meta m a; parse_args ms a
  end.

(** ** The generated function *)

Definition given (x m : Z) (set : Z → M Config unit) : M Config unit :=
  if x =? m then mret tt else set x.

Definition configure (a : Args) : M Config unit :=
  _ ← given (a_event_loop_size a) usize_max set_event_loop_size;
  _ ← given (a_stack_size a) usize_max set_stack_size;
  _ ← given (a_min_size a) usize_max set_min_size;
  _ ← given (a_max_size a) usize_max set_max_size;
  _ ← given (a_keep_alive_time a) u64_max set_keep_alive_time;
  _ ← given (a_min_memory_count a) usize_max set_min_memory_count;
  _ ← given (a_memory_keep_alive_time a) u64_max set_memory_keep_alive_time;
  if a_hook a then mret tt else set_hook (a_hook a).

Section expand.
Context {S I : Type} (ops : LoopOps S UserTaskFunc I).

(** The body ends with its value ([inl]), or leaves the function with a
    [return] or a question mark ([inr]). *)
Definition main {A} (cpu_count : Z) (a : Args) (body : M (Fac S) (A + A)) : M (Fac S) A := λ x,
  match configure a (default_config cpu_count) with
  | Done _ c =>
      (_ ← facade_init ops c;
       r ← body;
       match r with
       | inl v => _ ← facade_shutdown ops; mret v
       | inr v => mret v
       end) x
  | Panic msg _ => Panic msg x
  | NoFuel => NoFuel
  end.
End expand.

(** ** Arguments are read as they are written *)

(** The attribute that gives every argument. *)
Definition to_metas (a : Args) : list meta := [
  MNameValue "event_loop_size" (LitInt (a_event_loop_size a));
  MNameValue "stack_size" (LitInt (a_stack_size a));
  MNameValue "min_size" (LitInt (a_min_size a));
  MNameValue "max_size" (LitInt (a_max_size a));
  MNameValue "keep_alive_time" (LitInt (a_keep_alive_time a));
  MNameValue "min_memory_count" (LitInt (a_min_memory_count a));
  MNameValue "memory_keep_alive_time" (LitInt (a_memory_keep_alive_time a));
  MNameValue "hook" (LitBool (a_hook a))].

Definition args_fit (a : Args) : Prop :=
  a_event_loop_size a ≤ u64_max ∧ a_stack_size a ≤ u64_max ∧ a_min_size a ≤ u64_max
  ∧ a_max_size a ≤ u64_max ∧ a_keep_alive_time a ≤ u64_max ∧ a_min_memory_count a ≤ u64_max
  ∧ a_memory_keep_alive_time a ≤ u64_max.

Lemma lit_int_fits n : n ≤ u64_max → lit_int (LitInt n) = Some n.
Proof. intros Hn. simpl. by rewrite (proj2 (Z.leb_le _ _)). Qed.

(** What is written is what is read, whatever was read before. *)
Theorem args_roundtrip a a0 : args_fit a → parse_args (to_metas a) a0 = Some a.
Proof.
  destruct a as [e s mi ma k mm mk h], a0. intros (? & ? & ? & ? & ? & ? & ?). simpl in *.
  unfold set_arg. simpl. rewrite !(proj2 (Z.leb_le _ _)) by done. done.
Qed.

(** ** The configuration *)

Definition or_default (x m d : Z) : Z := if x =? m then d else x.

Definition wanted_config (cpu_count : Z) (a : Args) : Config :=
  mkConfig (or_default (a_event_loop_size a) usize_max cpu_count)
    (or_default (a_stack_size a) usize_max DEFAULT_STACK_SIZE)
    (or_default (a_min_size a) usize_max 0) (or_default (a_max_size a) usize_max 65536)
    (or_default (a_keep_alive_time a) u64_max 0) (or_default (a_min_memory_count a) usize_max 0)
    (or_default (a_memory_keep_alive_time a) u64_max 0) (a_hook a).

(** What the setters check: a maximum that is given, but not a minimum. *)
Definition acceptable (a : Args) : bool :=
  (negb (a_event_loop_size a =? 0) && negb (a_stack_size a =? 0)
   && ((a_max_size a =? usize_max)
       || ((0 <? a_max_size a) && (or_default (a_min_size a) usize_max 0 <=? a_max_size a))))%bool.

Lemma configure_spec cpu_count a :
  0 ≤ a_event_loop_size a → 0 ≤ a_stack_size a →
  if acceptable a then configure a (default_config cpu_count) = Done tt (wanted_config cpu_count a)
  else ∃ msg c, configure a (default_config cpu_count) = Panic msg c.
Proof.
  intros He Hs. unfold acceptable, configure, given, wanted_config, or_default, set_event_loop_size,
    set_stack_size, set_max_size. munfold.
  destruct a as [e s mi ma k mm mk h]. simpl in *.
  replace (e =? 0) with (negb (0 <? e)) by (destruct (Z.ltb_spec 0 e), (Z.eqb_spec e 0); simpl; lia).
  replace (s =? 0) with (negb (0 <? s)) by (destruct (Z.ltb_spec 0 s), (Z.eqb_spec s 0); simpl; lia).
  destruct (0 <? e) eqn:E1; simpl.
  2:{ rewrite (proj2 (Z.eqb_neq e usize_max)) by (breflect; unfold usize_max; lia). by eexists _, _. }
  destruct (0 <? s) eqn:E2; simpl.
  2:{ rewrite (proj2 (Z.eqb_neq s usize_max)) by (breflect; unfold usize_max; lia).
      destruct (e =? usize_max); by eexists _, _. }
  destruct (ma =? usize_max) eqn:E3, (0 <? ma) eqn:E4, (mi =? usize_max) eqn:E5; simpl;
    destruct (e =? usize_max), (s =? usize_max); simpl; destruct (0 <=? ma), (mi <=? ma); simpl;
    try (by eexists _, _); destruct (k =? u64_max), (mm =? usize_max), (mk =? u64_max), h; reflexivity.
Qed.

Section properties.
Context {S I : Type} (ops : LoopOps S UserTaskFunc I).

(** The attribute does what its arguments say: when the arguments are the
    literals of [a] and the setters accept them, the generated function starts
    the runtime with exactly the values given and the defaults for the others,
    runs the body, shuts the runtime down and returns the value of the body;
    when the setters do not accept them, it panics before anything is started.
    A body that leaves by [return] skips the shutdown. *)
Theorem main_runs_configured {A} cpu_count a a0 (body : M (Fac S) (A + A)) x :
  args_fit a → 0 ≤ a_event_loop_size a → 0 ≤ a_stack_size a →
  parse_args (to_metas a) a0 = Some a
  ∧ if acceptable a
    then main ops cpu_count a body x
      = (_ ← facade_init ops (wanted_config cpu_count a); r ← body;
         match r with inl v => _ ← facade_shutdown ops; mret v | inr v => mret v end) x
    else ∃ msg, main ops cpu_count a body x = Panic msg x.
Proof.
  intros Hf He Hs. split; [by apply args_roundtrip|].
  pose proof (configure_spec cpu_count a He Hs) as H. unfold main. destruct (acceptable a).
  - by rewrite H.
  - destruct H as (msg & c & ->). by eexists.
Qed.
End properties.

(** ** Attributes *)

Module MainMacroExamples.
Definition args (ms : list meta) : option Args := parse_args ms no_args.

(** The example of the documentation. *)
Example documented :
  args [MNameValue "event_loop_size" (LitInt 2); MNameValue "max_size" (LitInt 2);
        MNameValue "keep_alive_time" (LitInt 0)]
  = Some (mkArgs 2 usize_max usize_max 2 0 usize_max u64_max true).
Proof. reflexivity. Qed.

(** A misspelt argument without a value is ignored, one with a value is refused. *)
Example misspelt : args [MPath "max_sise"] = Some no_args ∧ args [MNameValue "max_sise" (LitInt 2)] = None.
Proof. done. Qed.

(** A minimum above the default maximum is accepted. *)
Example minimum_alone :
  match configure (mkArgs usize_max usize_max 70000 usize_max u64_max usize_max u64_max true)
    (default_config 8) with
  | Done _ c => max_size c < min_size c
  | _ => False
  end.
Proof. vm_compute. done. Qed.
End MainMacroExamples.
