(* ===== verification/Build.v ===== *)
(** * Build: the build script of the facade crate

    Models [open-coroutine/build.rs]: the script finds the manifest of the hook
    library (beside the crate, or in the registry of cargo), builds it with the
    features of the facade, copies the library that comes out of it to where
    the linker looks, and prints the flags of the linker. Cargo, the metadata
    it reports and the order in which a directory is listed are parameters; the
    log file is left out. *)

From stdpp Require Import sorting base numbers strings gmap list.
From S2P Require Import Prelude.

(** ** Strings and paths *)

(** [str::contains], [str::ends_with], and the last piece of [str::split]. *)
Fixpoint contains (needle s : string) : bool :=
  String.prefix needle s
  || match s with String.EmptyString => false | String.String _ s => contains needle s end.

Fixpoint ends_with (suffix s : string) : bool :=
  String.eqb suffix s
  || match s with String.EmptyString => false | String.String _ s => ends_with suffix s end.

Fixpoint after_last (sep s : string) : option string :=
  match s with
  | String.EmptyString => None
  | String.String _ r =>
      match after_last sep r with
      | Some x => Some x
      | None =>
          if String.prefix sep s
          then Some (String.substring (String.length sep) (String.length s) s)
          else None
      end
  end.
Definition last_piece (sep s : string) : string := default s (after_last sep s).

(** A path is the list of its components. *)
Abbreviation path := (list string).
Definition parent (p : path) : option path :=
  match p with [] => None | _ => Some (removelast p) end.

Section build.

(** ** The environment *)

Inductive os : Type := Linux | MacOs | WindowsOs | OtherOs.

(** [cfg!] and the variables cargo sets for the script. *)
Record Env : Type := mkEnv {
  e_debug : bool;
  e_os : os;
  e_features : string → bool;
  e_OUT_DIR : option path;
  e_TARGET : option string;
  e_CARGO_MANIFEST_DIR : option path;
  e_CARGO_HOME : option path;
  e_RUSTUP_DIST_SERVER : option string;
}.

(** What [cargo_metadata] tells: packages with their dependencies and the first
    comparators of their versions. *)
Record Comparator : Type := mkComparator {
  v_major : Z;
  v_minor : option Z;
  v_patch : option Z;
}.
Record Dependency : Type := mkDependency {
  d_name : string;
  d_default_features : bool;
  d_comparators : list Comparator;
}.
Record Package : Type := mkPackage {
  p_name : string;
  p_dependencies : list Dependency;
}.

(** The files with their contents, and the lines printed for cargo. *)
Record Disk : Type := mkDisk {
  files : gmap path string;
  printed : list string;
}.

Inductive arg : Type := Word (s : string) | PathArg (p : path).

(** Cargo runs on a command line: [None] when it cannot be started, otherwise its
    exit status and the files afterwards. *)
Context (metadata : option (list Package))
  (read_dir : path → gmap path string → option (list string))
  (cargo : list arg → gmap path string → option (Z * gmap path string))
  (decimal : Z → string) (display : path → string).

(** ** The steps of [main] *)

Definition expect {A} (o : option A) (msg : string) : M Disk A :=
  match o with Some a => mret a | None => panic msg end.

(** [n] times [.parent().expect(..)] *)
Fixpoint ancestor (n : nat) (p : path) (msg : string) : M Disk path :=
  match n with
  | O => mret p
  | S n => q ← expect (parent p) msg; ancestor n q msg
  end.

Definition FEATURES : list string :=
  ["log"; "preemptive"; "net"; "io_uring"; "iocp"; "completion_io"; "syscall"].
Definition features (e : Env) : list string :=
  filter (λ f, e_features e f = true) FEATURES.

Definition join (sep : string) (ss : list string) : string := String.concat sep ss.

Definition find_dir (needle : string) (dirs : list string) : option string :=
  snd <$> list_find (λ d, contains needle d = true) dirs.

(** The directory of the registry: the only one, the one of the configured
    server, or that of crates.io. *)
Definition crates_parent (e : Env) (dirs : list string) : M Disk string :=
  match dirs with
  | [d] => mret d
  | _ =>
      match e_RUSTUP_DIST_SERVER e with
      | Some server =>
          let host := last_piece "://" server in
          match find_dir host dirs with
          | Some d => mret d
          | None => expect (find_dir "crates.io" dirs) "host dir not found"
          end
      | None => expect (find_dir "crates.io" dirs) "host dir not found"
      end
  end.

Definition hook_crate (v : Comparator) : string :=
  "open-coroutine-hook-" +:+ decimal (v_major v) +:+ "." +:+ decimal (default 0 (v_minor v))
  +:+ "." +:+ decimal (default 0 (v_patch v)).

(** The manifest of the hook library in the registry. *)
Definition registry_toml (e : Env) (dep : Dependency) : M Disk path :=
  home ← expect (e_CARGO_HOME e) "CARGO_HOME not found";
  let dep_src_dir := home ++ ["registry"; "src"] in
  fs ← gets files;
  dirs ← expect (read_dir dep_src_dir fs) "Failed to read deps";
  dir ← crates_parent e dirs;
  version ← expect (head (d_comparators dep)) "version not found";
  mret (dep_src_dir ++ [dir; hook_crate version; "Cargo.toml"]).

Definition profile (e : Env) : string := if e_debug e then "debug" else "release".

Definition command (e : Env) (target : string) (dep : Dependency) (toml out_dir : path)
  : list arg :=
  [Word "build"; Word "--target"; Word target]
  ++ (if e_debug e then [] else [Word "--release"])
  ++ (if d_default_features dep then [] else [Word "--no-default-features"])
  ++ [Word "--features"; Word (join "," (features e)); Word "--manifest-path"; PathArg toml;
      Word "--target-dir"; PathArg out_dir].

(** The name under which a file of the build is copied, if it is. *)
Definition copied_as (o : os) (file_name : string) : option string :=
  match o with
  | Linux => if ends_with ".so" file_name then Some "libopen_coroutine_hook.so" else None
  | MacOs => if ends_with ".dylib" file_name then Some "libopen_coroutine_hook.dylib" else None
  | WindowsOs =>
      if ends_with ".dll" file_name then Some "open_coroutine_hook.dll"
      else if ends_with ".lib" file_name then Some "open_coroutine_hook.lib"
      else None
  | OtherOs => None
  end.

Definition copy (from to : path) : M Disk unit := λ s,
  match files s !! from with
  | Some content => Done tt (mkDisk (<[to:=content]> (files s)) (printed s))
  | None => Panic ("copy to " +:+ default "" (last to) +:+ " failed!") s
  end.

Fixpoint copy_all (e : Env) (hook_deps deps : path) (names : list string) : M Disk unit :=
  match names with
  | [] => mret tt
  | file_name :: names =>
      _ ← (if negb (contains "open_coroutine_hook" file_name) then mret tt
           else match copied_as (e_os e) file_name with
                | Some to => copy (hook_deps ++ [file_name]) (deps ++ [to])
                | None => mret tt
                end);
      copy_all e hook_deps deps names
  end.

Definition println (line : string) : M Disk unit :=
  modify (λ s, mkDisk (files s) (printed s ++ [line])).

Definition link_lines (deps : path) : list string :=
  ["cargo:rustc-link-search=native=" +:+ display deps;
   "cargo:rustc-link-lib=dylib=open_coroutine_hook"].

(** From the choice of the package on. *)
Definition find_package (hook_exists : bool) : M Disk Package :=
  packages ← expect metadata "read cargo metadata failed";
  expect (if hook_exists
          then snd <$> list_find (λ p, p_name p = "open-coroutine") packages
          else head packages) "read current package failed".

Definition run_cargo (cmd : list arg) : M Disk unit :=
  fs ← gets files;
  match cargo cmd fs with
  | Some (_, fs) => modify (λ s, mkDisk fs (printed s))
  | None => panic "failed to build dylib"
  end.

Definition main (e : Env) : M Disk unit :=
  out_dir ← expect (e_OUT_DIR e) "OUT_DIR not found";
  _ ← ancestor 4 out_dir "can not find deps dir";
  target ← expect (e_TARGET e) "env not found";
  manifest_dir ← expect (e_CARGO_MANIFEST_DIR e) "env not found";
  crates ← expect (parent manifest_dir) "parent not found";
  let hook_toml := crates ++ ["hook"; "Cargo.toml"] in
  fs ← gets files;
  let hook_exists := bool_decide (is_Some (fs !! hook_toml)) in
  package ← find_package hook_exists;
  dep ← expect (snd <$> list_find (λ d, d_name d = "open-coroutine-hook")
                 (p_dependencies package)) "open-coroutine-hook not found";
  hook_toml ← (if hook_exists then mret hook_toml else registry_toml e dep);
  _ ← run_cargo (command e target dep hook_toml out_dir);
  let hook_deps := out_dir ++ [target; profile e; "deps"] in
  grand ← ancestor 3 out_dir "can not find deps dir";
  let deps := grand ++ ["deps"] in
  fs ← gets files;
  names ← expect (read_dir hook_deps fs) "can not find deps dir";
  _ ← copy_all e hook_deps deps names;
  _ ← println ("cargo:rustc-link-search=native=" +:+ display deps);
  println "cargo:rustc-link-lib=dylib=open_coroutine_hook".

(** ** What is copied *)

(** The file that ends up under the name [to]: the last one listed. *)
Definition copied (o : os) (to file_name : string) : Prop :=
  contains "open_coroutine_hook" file_name = true ∧ copied_as o file_name = Some to.
#[local] Instance copied_dec o to n : Decision (copied o to n).
Proof. unfold copied. apply _. Defined.

Definition last_source (o : os) (to : string) (names : list string) : option string :=
  last (filter (copied o to) names).

Definition copies (o : os) (hook_deps deps : path) (names : list string)
  (fs fs' : gmap path string) : Prop :=
  (∀ to, fs' !! (deps ++ [to]) =
     match last_source o to names with
     | Some n => fs !! (hook_deps ++ [n])
     | None => fs !! (deps ++ [to])
     end)
  ∧ ∀ q, (∀ to, q ≠ deps ++ [to]) → fs' !! q = fs !! q.

Lemma last_source_cons o to n names :
  last_source o to (n :: names) =
    match last_source o to names with
    | Some m => Some m
    | None => if decide (copied o to n) then Some n else None
    end.
Proof.
  unfold last_source. rewrite filter_cons. case_decide as Hn; [|by destruct (last _)].
  by rewrite last_cons.
Qed.

Lemma copies_refl o hook_deps deps fs : copies o hook_deps deps [] fs fs.
Proof. done. Qed.

(** A file that is not copied, and one that is. *)
Lemma copies_skip o hook_deps deps n names fs fs' :
  (∀ to, ¬ copied o to n) → copies o hook_deps deps names fs fs' →
  copies o hook_deps deps (n :: names) fs fs'.
Proof.
  intros Hn [H1 H2]. split; [|done]. intros to. rewrite last_source_cons, H1.
  destruct (last_source o to names); [done|]. by rewrite decide_False.
Qed.

Lemma copies_one o hook_deps deps n to names content fs fs' :
  hook_deps ≠ deps → copied o to n → fs !! (hook_deps ++ [n]) = Some content →
  copies o hook_deps deps names (<[deps ++ [to] := content]> fs) fs' →
  copies o hook_deps deps (n :: names) fs fs'.
Proof.
  intros Hne Hn Hc [H1 H2]. split.
  - intros to'. rewrite last_source_cons, H1. destruct (last_source o to' names) as [m|].
    + apply lookup_insert_ne. intros E%app_inj_2; [|done]. by destruct E.
    + destruct (decide (to' = to)) as [->|Ht].
      * by rewrite lookup_insert_eq, decide_True, Hc.
      * rewrite decide_False; [|destruct Hn as [_ Hn]; intros [_ Hn']; congruence].
        apply lookup_insert_ne. intros E%app_inv_head. congruence.
  - intros q Hq. rewrite H2 by done. apply lookup_insert_ne. intros E. by eapply Hq.
Qed.

Lemma copy_all_spec e hook_deps deps names s :
  hook_deps ≠ deps → (∀ n, n ∈ names → is_Some (files s !! (hook_deps ++ [n]))) →
  ∃ s', copy_all e hook_deps deps names s = Done tt s'
    ∧ printed s' = printed s ∧ copies (e_os e) hook_deps deps names (files s) (files s').
Proof.
  intros Hne. revert s. induction names as [|n names IH]; intros s Hs.
  { exists s. split_and!; [done..|]. apply copies_refl. }
  assert ((∀ to, ¬ copied (e_os e) to n) → ∃ s',
    copy_all e hook_deps deps names s = Done tt s' ∧ printed s' = printed s
    ∧ copies (e_os e) hook_deps deps (n :: names) (files s) (files s')) as Hskip.
  { intros Hn. destruct (IH s) as (s' & ? & ? & ?); [intros; apply Hs; set_solver|].
    exists s'. split_and!; [done..|]. by apply copies_skip. }
  cbn [copy_all]. destruct (contains "open_coroutine_hook" n) eqn:Ec; cbn [negb].
  2: { rewrite (bind_done _ _ s tt s) by done. apply Hskip. intros to [Hn _]. congruence. }
  destruct (copied_as (e_os e) n) as [to|] eqn:Et.
  2: { rewrite (bind_done _ _ s tt s) by done. apply Hskip. intros to [_ Hn]. congruence. }
  destruct (Hs n) as [content Hc]; [set_solver|].
  set (s1 := mkDisk (<[deps ++ [to] := content]> (files s)) (printed s)).
  rewrite (bind_done _ _ s tt s1) by (unfold copy; by rewrite Hc).
  destruct (IH s1) as (s' & Hr & Hp & Hcp).
  { intros m Hm. simpl. rewrite lookup_insert_ne; [apply Hs; set_solver|].
    intros E%app_inj_2; [|done]. by destruct E. }
  exists s'. split_and!; [done..|]. by eapply copies_one.
Qed.

Lemma bind_expect {A B} (o : option A) a msg (k : A → M Disk B) s :
  o = Some a → (expect o msg ≫= k) s = k a s.
Proof. by intros ->. Qed.

Lemma bind_gets {A B} (f : Disk → A) (k : A → M Disk B) s : (gets f ≫= k) s = k (f s) s.
Proof. done. Qed.

Lemma parent_snoc (q : path) y : parent (q ++ [y]) = Some q.
Proof.
  unfold parent. destruct (q ++ [y]) eqn:E; [by destruct q|]. by rewrite <-E, removelast_last.
Qed.

Lemma ancestor_snoc n q y msg s : ancestor (S n) (q ++ [y]) msg s = ancestor n q msg s.
Proof. cbn [ancestor]. by rewrite parent_snoc. Qed.

(** The script, beside a checkout of the hook library. Whatever the exit status
    of cargo is, it goes on: the file under each name of the library is the
    last file listed in the output of the build that goes by that name, every
    other file is as cargo left it, and the linker is pointed to the directory.
    A build that failed links what an earlier one left. *)
Theorem main_links_library e s base a b c target crates x toml packages i package j dep
    status fs names :
  base ≠ [] → e_OUT_DIR e = Some (base ++ [a; b; c]) → e_TARGET e = Some target →
  e_CARGO_MANIFEST_DIR e = Some (crates ++ [x]) →
  files s !! (crates ++ ["hook"; "Cargo.toml"]) = Some toml →
  metadata = Some packages →
  list_find (λ p, p_name p = "open-coroutine") packages = Some (i, package) →
  list_find (λ d, d_name d = "open-coroutine-hook") (p_dependencies package) = Some (j, dep) →
  cargo (command e target dep (crates ++ ["hook"; "Cargo.toml"]) (base ++ [a; b; c])) (files s)
    = Some (status, fs) →
  let hook_deps := base ++ [a; b; c] ++ [target; profile e; "deps"] in
  read_dir hook_deps fs = Some names →
  (∀ n, n ∈ names → is_Some (fs !! (hook_deps ++ [n]))) →
  ∃ s', main e s = Done tt s'
    ∧ printed s' = printed s ++ link_lines (base ++ ["deps"])
    ∧ copies (e_os e) hook_deps (base ++ ["deps"]) names fs (files s').
Proof.
  intros Hb Ho Ht Hm Hf Hmd Hp Hd Hc hook_deps Hr Hn.
  assert (base ++ [a; b; c] = ((base ++ [a]) ++ [b]) ++ [c]) as E3 by by rewrite <-!app_assoc.
  destruct (copy_all_spec e hook_deps (base ++ ["deps"]) names (mkDisk fs (printed s)))
    as (s' & Hcp & Hpr & Hcs); [|done|].
  { unfold hook_deps. intros E%app_inv_head. done. }
  exists (mkDisk (files s') (printed s ++ link_lines (base ++ ["deps"]))).
  split; [|done].
  destruct base as [|z base _] using rev_ind; [done|].
  unfold main. rewrite (bind_expect _ _ _ _ _ Ho).
  rewrite (bind_done _ _ s base s); [|by rewrite E3, !ancestor_snoc].
  rewrite (bind_expect _ _ _ _ _ Ht), (bind_expect _ _ _ _ _ Hm).
  rewrite (bind_expect _ _ _ _ _ (parent_snoc crates x)), bind_gets.
  rewrite bool_decide_eq_true_2 by eauto.
  rewrite (bind_done _ _ s package s).
  2: { unfold find_package. rewrite (bind_expect _ _ _ _ _ Hmd). by rewrite Hp. }
  rewrite (bind_expect _ dep) by by rewrite Hd.
  rewrite (bind_done _ _ s (crates ++ ["hook"; "Cargo.toml"]) s) by done.
  rewrite (bind_done _ _ s tt (mkDisk fs (printed s))).
  2: { unfold run_cargo. rewrite bind_gets. by rewrite Hc. }
  rewrite (bind_done _ _ _ (base ++ [z]) (mkDisk fs (printed s)));
    [|by rewrite E3, !ancestor_snoc].
  rewrite bind_gets. cbn [files].
  replace (((base ++ [z]) ++ [a; b; c]) ++ [target; profile e; "deps"]) with hook_deps
    by (unfold hook_deps; by rewrite app_assoc).
  rewrite (bind_expect _ _ _ _ _ Hr).
  rewrite (bind_done _ _ _ tt s' Hcp). unfold println. munfold. cbn. rewrite Hpr.
  cbn. by rewrite <-app_assoc.
Qed.

(** In the registry: the directory of the configured server wins over that of
    crates.io, a single directory over both; a mirror that is neither, among
    several directories, makes the script panic. *)
Theorem crates_parent_choice e dirs s :
  (∀ d, dirs = [d] → crates_parent e dirs s = Done d s)
  ∧ (length dirs ≠ 1%nat →
      let mirror := server ← e_RUSTUP_DIST_SERVER e; find_dir (last_piece "://" server) dirs in
      crates_parent e dirs s =
        match mirror, find_dir "crates.io" dirs with
        | Some d, _ => Done d s
        | None, Some d => Done d s
        | None, None => Panic "host dir not found" s
        end).
Proof.
  split; [by intros d ->|]. intros Hlen. cbv zeta. unfold crates_parent, expect.
  destruct dirs as [|d1 [|d2 dirs]]; [by destruct (e_RUSTUP_DIST_SERVER e)|done|].
  destruct (e_RUSTUP_DIST_SERVER e) as [server|]; cbn [mbind option_bind].
  - destruct (find_dir (last_piece "://" server) (d1 :: d2 :: dirs)); [done|].
    by destruct (find_dir "crates.io" (d1 :: d2 :: dirs)).
  - by destruct (find_dir "crates.io" (d1 :: d2 :: dirs)).
Qed.
End build.

Module BuildExamples.

Definition env : Env := mkEnv false Linux (λ f, bool_decide (f ∈ ["net"; "syscall"]))
  (Some ["target"; "release"; "build"; "oc-1"; "out"]) (Some "x86_64-unknown-linux-gnu")
  (Some ["src"; "open-coroutine"]) (Some ["cargo"]) None.

Definition dep : Dependency := mkDependency "open-coroutine-hook" false [mkComparator 0 (Some 7) None].
Definition packages : list Package :=
  [mkPackage "open-coroutine-core" []; mkPackage "open-coroutine" [dep]].

(** A stale library of an earlier build, and a cargo that fails. *)
Definition out : path := ["target"; "release"; "build"; "oc-1"; "out"].
Definition hook_deps : path := out ++ ["x86_64-unknown-linux-gnu"; "release"; "deps"].
Definition disk : Disk := mkDisk
  {[["src"; "hook"; "Cargo.toml"] := "[package]";
    hook_deps ++ ["libopen_coroutine_hook-old.so"] := "old"]} [].
Definition failing_cargo (_ : list arg) (fs : gmap path string) : option (Z * gmap path string) :=
  Some (101, fs).
Definition listing (_ : path) (_ : gmap path string) : option (list string) :=
  Some ["libopen_coroutine_hook-old.so"].

Example arguments :
  command env "x86_64-unknown-linux-gnu" dep ["src"; "hook"; "Cargo.toml"] out
  = [Word "build"; Word "--target"; Word "x86_64-unknown-linux-gnu"; Word "--release";
     Word "--no-default-features"; Word "--features"; Word "net,syscall";
     Word "--manifest-path"; PathArg ["src"; "hook"; "Cargo.toml"];
     Word "--target-dir"; PathArg out].
Proof. vm_compute. reflexivity. Qed.

Example host_of_server : last_piece "://" "https://rsproxy.cn" = "rsproxy.cn".
Proof. vm_compute. reflexivity. Qed.

Lemma main_links_library_witness :
  ∃ s', main (Some packages) listing failing_cargo (λ _, "0") (λ _, "deps") env disk = Done tt s'
    ∧ printed s' = link_lines (λ _, "deps") ["target"; "release"; "deps"]
    ∧ copies Linux hook_deps ["target"; "release"; "deps"] ["libopen_coroutine_hook-old.so"]
        (files disk) (files s').
Proof.
  apply (main_links_library (Some packages) listing failing_cargo (λ _, "0") (λ _, "deps")
    env disk ["target"; "release"] "build" "oc-1" "out" "x86_64-unknown-linux-gnu" ["src"]
    "open-coroutine" "[package]" packages 1 (mkPackage "open-coroutine" [dep]) 0 dep 101
    (files disk) ["libopen_coroutine_hook-old.so"]); try reflexivity; [done|].
  intros n ->%list_elem_of_singleton. vm_compute. by eexists.
Defined.
End BuildExamples.
