(* ===== verification/WinSyscall.v ===== *)
(** * WinSyscall: the layers of a hooked call on Windows

    Models [core/src/syscall/windows/mod.rs]: the layers that the macros put
    around a call of Winsock and the helpers for the last error, blocking mode
    and time limits. Winsock does not tell whether a socket blocks, so the
    program keeps the set [NON_BLOCKING]. The library is a parameter (the record
    [WinSock]), as are the next layer ([inner]), the waits of the event loops and
    the switch out of a coroutine. *)

From stdpp Require Import sorting base numbers strings gmap list.
From S2P Require Import Prelude Common Coroutine Syscall.

(** ** Winsock *)

Definition WSAEINTR : Z := 10004.
Definition WSAEINVAL : Z := 10022.
Definition WSAEWOULDBLOCK : Z := 10035.
Definition WSAEINPROGRESS : Z := 10036.
Definition WSAEALREADY : Z := 10037.
Definition WSAENOTSOCK : Z := 10038.
Definition WSAETIMEDOUT : Z := 10060.
(** [INVALID_SOCKET] of the 64-bit type [SOCKET], and [SOCKET_ERROR]. *)
Definition INVALID_SOCKET : Z := u64_max.
Definition SOCKET_ERROR : Z := -1.

Record WSABUF : Type := mkWsabuf { wb_buf : Z; wb_len : Z }.

(** [std::io::Error::kind] of an error of Windows. *)
Definition kind (e : Z) : ErrorKind :=
  if e =? WSAEWOULDBLOCK then WouldBlock
  else if e =? WSAEINTR then KindInterrupted
  else OtherKind.

(** ** The state of the layers *)

Record WinSys : Type := mkWin {
  last_error : Z;
  NON_BLOCKING : gset Z;
  SEND_TIME_LIMIT : gmap Z Z;
  RECV_TIME_LIMIT : gmap Z Z;
}.

Class HasWin (X : Type) : Type := { win : X → WinSys; set_win : (WinSys → WinSys) → X → X }.
Class HasWinLaws (X : Type) `{!HasWin X} : Prop := {
  win_set_win (f : WinSys → WinSys) (x : X) : win (set_win f x) = f (win x);
}.

(** What the helpers use: [ioctlsocket] with [FIONBIO], and [getsockopt] for a
    time limit in milliseconds, a [c_int], or [None] when it fails. *)
Record WinSock (W : Type) : Type := mkWinSock {
  ioctl_fionbio : Z → bool → M W Z;
  getsockopt_ms : bool → Z → M W (option Z);
}.
Arguments ioctl_fionbio {W}.
Arguments getsockopt_ms {W}.

Section layers.
Context {I X : Type} `{!HasWin X}.
Abbreviation Ret := (option Z).
Abbreviation W := (World unit Ret I X).

Variable clock : nat → Z.
Variable listener_call : nat → handle → event unit Ret → M W unit.
Variable ws : WinSock W.
Variable switch : M W unit.
Variable wait_read_event : Z → Z → M W (io_result unit).
Variable wait_write_event : Z → Z → M W (io_result unit).

Definition set_last_error (e : Z) (s : WinSys) : WinSys :=
  mkWin e (NON_BLOCKING s) (SEND_TIME_LIMIT s) (RECV_TIME_LIMIT s).
Definition set_modes (f : gset Z → gset Z) (s : WinSys) : WinSys :=
  mkWin (last_error s) (f (NON_BLOCKING s)) (SEND_TIME_LIMIT s) (RECV_TIME_LIMIT s).
Definition set_send_limits (m : gmap Z Z) (s : WinSys) : WinSys :=
  mkWin (last_error s) (NON_BLOCKING s) m (RECV_TIME_LIMIT s).
Definition set_recv_limits (m : gmap Z Z) (s : WinSys) : WinSys :=
  mkWin (last_error s) (NON_BLOCKING s) (SEND_TIME_LIMIT s) m.

Definition on_win (f : WinSys → WinSys) : M W unit := modify (set_ext (set_win f)).
Definition from_win {A} (f : WinSys → A) : M W A := gets (λ w, f (win (ext w))).

Definition set_errno (e : Z) : M W unit := on_win (set_last_error e).
Definition reset_errno : M W unit := set_errno 0.
Definition last_os_error : M W Z := from_win last_error.

(** [u32::try_from(e).unwrap_or_default()] of the [i32] that [raw_os_error]
    makes of the last error. *)
Definition saved_code (e : Z) : Z := if e <=? i32_max then e else 0.

(** ** Blocking mode *)

Definition is_non_blocking (fd : Z) : M W bool := from_win (λ s, bool_decide (fd ∈ NON_BLOCKING s)).
Definition is_blocking (fd : Z) : M W bool := b ← is_non_blocking fd; mret (negb b).

Definition set_non_blocking_flag (fd : Z) (on : bool) : M W bool :=
  non_blocking ← is_non_blocking fd;
  if eqb non_blocking on then mret true
  else
    r ← ioctl_fionbio ws fd on;
    let result := r =? 0 in
    _ ← (if result
         then on_win (set_modes (λ m, if on then m ∪ {[ fd ]} else m ∖ {[ fd ]}))
         else mret tt);
    mret result.

Definition set_non_blocking (fd : Z) : M W unit :=
  b ← set_non_blocking_flag fd true; assert_ b "set_non_blocking failed !".
Definition set_blocking (fd : Z) : M W unit :=
  b ← set_non_blocking_flag fd false; assert_ b "set_blocking failed !".

(** The frame of the nio layers; [failed] tells which results are errors, for
    which the last error is kept across [set_blocking]. *)
Definition with_non_blocking {A} (failed : A → bool) (fd : Z) (body : M W A) : M W A :=
  blocking ← is_blocking fd;
  _ ← (if (blocking : bool) then set_non_blocking fd else mret tt);
  r ← body;
  _ ← (if (blocking : bool) then
         saved ← last_os_error;
         _ ← set_blocking fd;
         if failed r then set_errno (saved_code saved) else mret tt
       else mret tt);
  mret r.

(** ** Time limits *)

Definition limit_of_ms (ms : Z) : M W Z :=
  _ ← assert_ (0 <=? ms) "overflow";
  let time_limit := sat_mul u64_max ms 1000000 in
  mret (if time_limit =? 0 then u64_max else time_limit).

(** What the kernel says; a handle that is no socket has no limit. *)
Definition ask_limit (sending : bool) (fd : Z) : M W (Z + Z) :=
  r ← getsockopt_ms ws sending fd;
  match r with
  | None =>
      e ← last_os_error;
      if e =? WSAENOTSOCK then mret (inl u64_max) else panic "getsockopt failed"
  | Some ms => time_limit ← limit_of_ms ms; mret (inr time_limit)
  end.

(** [entry(fd).or_insert_with(..)] keeps whatever the closure returns. *)
Definition send_time_limit (fd : Z) : M W Z :=
  m ← from_win SEND_TIME_LIMIT;
  match m !! fd with
  | Some v => mret v
  | None =>
      r ← ask_limit true fd;
      let v := match r with inl v | inr v => v end in
      m ← from_win SEND_TIME_LIMIT;
      _ ← on_win (set_send_limits (<[fd := v]> m));
      mret v
  end.

Definition recv_time_limit (fd : Z) : M W Z :=
  m ← from_win RECV_TIME_LIMIT;
  match m !! fd with
  | Some v => mret v
  | None =>
      r ← ask_limit false fd;
      match r with
      | inl v => mret v
      | inr v =>
          m ← from_win RECV_TIME_LIMIT;
          _ ← on_win (set_recv_limits (<[fd := v]> m));
          _ ← assert_ (bool_decide (m !! fd = None)) "assertion failed";
          mret v
      end
  end.

(** After [WouldBlock]. [SOCKET] is converted to a [c_int] for the wait. *)
Definition wait_read (fd start_time : Z) : M W (Z * io_result unit) :=
  limit ← recv_time_limit fd;
  n ← now_ clock;
  let left_time := sat_sub (sat_add u64_max start_time limit) n in
  _ ← assert_ (fd <=? i32_max) "overflow";
  r ← wait_read_event fd (Z.min left_time SLICE);
  mret (left_time, r).

Definition wait_write (fd start_time : Z) : M W (Z * io_result unit) :=
  limit ← send_time_limit fd;
  n ← now_ clock;
  let left_time := sat_sub (sat_add u64_max start_time limit) n in
  _ ← assert_ (fd <=? i32_max) "overflow";
  r ← wait_write_event fd (Z.min left_time SLICE);
  mret (left_time, r).

(** ** impl_nio_read! *)

Fixpoint nio_read_loop (fuel : nat) (inner : M W Z) (fd start_time left_time r : Z) : M W Z :=
  if 0 <? left_time then
    match fuel with
    | O => out_of_fuel
    | S fuel =>
        r ← inner;
        if negb (r =? INVALID_SOCKET) then _ ← reset_errno; mret r
        else
          e ← last_os_error;
          match kind e with
          | WouldBlock =>
              '(left_time, w) ← wait_read fd start_time;
              if is_err w then mret r
              else nio_read_loop fuel inner fd start_time left_time r
          | KindInterrupted => nio_read_loop fuel inner fd start_time left_time r
          | OtherKind => mret r
          end
    end
  else mret r.

Definition nio_read (fuel : nat) (inner : M W Z) (fd : Z) : M W Z :=
  with_non_blocking (λ r, r =? INVALID_SOCKET) fd (
    start_time ← now_ clock;
    left_time ← recv_time_limit fd;
    nio_read_loop fuel inner fd start_time left_time INVALID_SOCKET).

(** ** impl_nio_read_buf! and impl_nio_write_buf! *)

Fixpoint nio_read_buf_loop (fuel : nat) (inner : Z → Z → M W Z) (fd buf len start_time
  left_time received r : Z) : M W Z :=
  if (received <? len) && (0 <? left_time) then
    match fuel with
    | O => out_of_fuel
    | S fuel =>
        _ ← assert_ (0 <=? received) "overflow";
        r ← inner (wrap 64 (buf + received)) (len - received);
        (* [inl]: leave the loop with this value *)
        st ← (if negb (r =? SOCKET_ERROR) then
                _ ← reset_errno;
                let received := received + r in
                if (len <=? received) || (r =? 0) then mret (inl received) else mret (inr received)
              else mret (inr received));
        match st with
        | inl r => mret r
        | inr received =>
            e ← last_os_error;
            match kind e with
            | WouldBlock =>
                '(left_time, w) ← wait_read fd start_time;
                if is_err w then mret received
                else nio_read_buf_loop fuel inner fd buf len start_time left_time received r
            | KindInterrupted =>
                nio_read_buf_loop fuel inner fd buf len start_time left_time received r
            | OtherKind => mret r
            end
        end
    end
  else mret r.

Definition nio_read_buf (fuel : nat) (inner : Z → Z → M W Z) (fd buf len : Z) : M W Z :=
  with_non_blocking (λ r, r =? SOCKET_ERROR) fd (
    start_time ← now_ clock;
    left_time ← recv_time_limit fd;
    nio_read_buf_loop fuel inner fd buf len start_time left_time 0 SOCKET_ERROR).

Fixpoint nio_write_buf_loop (fuel : nat) (inner : Z → Z → M W Z) (fd buf len start_time
  left_time sent r : Z) : M W Z :=
  if (sent <? len) && (0 <? left_time) then
    match fuel with
    | O => out_of_fuel
    | S fuel =>
        _ ← assert_ (0 <=? sent) "overflow";
        r ← inner (wrap 64 (buf + sent)) (len - sent);
        st ← (if negb (r =? SOCKET_ERROR) then
                _ ← reset_errno;
                let sent := sent + r in
                if len <=? sent then mret (inl sent) else mret (inr sent)
              else mret (inr sent));
        match st with
        | inl r => mret r
        | inr sent =>
            e ← last_os_error;
            match kind e with
            | WouldBlock =>
                '(left_time, w) ← wait_write fd start_time;
                if is_err w then mret sent
                else nio_write_buf_loop fuel inner fd buf len start_time left_time sent r
            | KindInterrupted =>
                nio_write_buf_loop fuel inner fd buf len start_time left_time sent r
            | OtherKind => mret r
            end
        end
    end
  else mret r.

Definition nio_write_buf (fuel : nat) (inner : Z → Z → M W Z) (fd buf len : Z) : M W Z :=
  with_non_blocking (λ r, r =? SOCKET_ERROR) fd (
    start_time ← now_ clock;
    left_time ← send_time_limit fd;
    nio_write_buf_loop fuel inner fd buf len start_time left_time 0 SOCKET_ERROR).

(** ** impl_nio_read_iovec! and impl_nio_write_iovec!

    The two macros differ in the time limit and the wait, which are arguments
    here. The count of the bytes moved goes through a pointer of the caller's
    ([recvd] or [sent]); [cell] is the value behind it. *)

(** [arg[0]] moved by [offset] in place. *)
Definition shift_first (offset : Z) (arg : list WSABUF) : M W (list WSABUF) :=
  if offset =? 0 then mret arg
  else match arg with
       | [] => panic "index out of bounds"
       | b :: arg =>
           _ ← assert_ (offset <=? u32_max) "overflow";
           mret (mkWsabuf (wrap 64 (wb_buf b + offset)) (wrap 32 (wb_len b - offset)) :: arg)
       end.

(** [moved.try_into().expect("overflow")] written through the pointer. *)
Definition to_cell (moved : Z) : M W Z := _ ← assert_ (moved <=? u32_max) "overflow"; mret moved.

(** The inner loop, for one buffer: [inl (r, cell)] returns from the call,
    [inr] goes on with the next buffer. *)
Fixpoint iovec_while (fuel : nat) (wait : Z → Z → M W (Z * io_result unit))
  (inner : list WSABUF → Z → M W (Z * Z)) (fd start_time stage length : Z)
  (arg : list WSABUF) (offset moved r left_time cell : Z) : M W (Z * Z + Z * Z * Z * Z) :=
  if (moved <? length) && (0 <? left_time) then
    match fuel with
    | O => out_of_fuel
    | S fuel =>
        arg ← shift_first offset arg;
        _ ← assert_ (Zlen arg <=? u32_max) "iovcnt overflow";
        '(r, cell) ← inner arg cell;
        st ← (if negb (r =? SOCKET_ERROR) then
                _ ← reset_errno;
                let moved := moved + cell in
                if length <=? moved
                then cell ← to_cell moved; mret (inl (moved, cell))
                else mret (inr (moved, sat_sub moved stage))
              else mret (inr (moved, offset)));
        match st with
        | inl (moved, cell) => mret (inr (moved, 0, left_time, cell))
        | inr (moved, offset) =>
            e ← last_os_error;
            match kind e with
            | WouldBlock =>
                '(left_time, w) ← wait fd start_time;
                if is_err w then cell ← to_cell moved; mret (inl (0, cell))
                else iovec_while fuel wait inner fd start_time stage length arg offset
                       moved r left_time cell
            | KindInterrupted =>
                iovec_while fuel wait inner fd start_time stage length arg offset
                  moved r left_time cell
            | OtherKind => mret (inl (r, cell))
            end
        end
    end
  else mret (inr (moved, r, left_time, cell)).

(** The outer loop, over the buffers. *)
Fixpoint iovec_for (fuel : nat) (wait : Z → Z → M W (Z * io_result unit))
  (inner : list WSABUF → Z → M W (Z * Z)) (fd start_time : Z) (vec todo : list WSABUF)
  (length moved r : Z) (index : nat) (left_time cell : Z) : M W (Z * Z) :=
  match todo with
  | [] => mret (r, cell)
  | iovec :: todo =>
      let stage := length in
      let offset := sat_sub moved stage in
      let length := length + wb_len iovec in
      if length <? moved then
        iovec_for fuel wait inner fd start_time vec todo length moved r (S index) left_time cell
      else
        x ← iovec_while fuel wait inner fd start_time stage length (drop index vec) offset
              moved r left_time cell;
        match x with
        | inl res => mret res
        | inr (moved, r, left_time, cell) =>
            iovec_for fuel wait inner fd start_time vec todo length moved r
              (if length <=? moved then S index else index) left_time cell
        end
  end.

Definition nio_read_iovec (fuel : nat) (inner : list WSABUF → Z → M W (Z * Z)) (fd : Z)
  (iov : list WSABUF) (cell : Z) : M W (Z * Z) :=
  with_non_blocking (λ r, r.1 =? SOCKET_ERROR) fd (
    start_time ← now_ clock;
    left_time ← recv_time_limit fd;
    iovec_for fuel wait_read inner fd start_time iov iov 0 0 SOCKET_ERROR 0 left_time cell).

Definition nio_write_iovec (fuel : nat) (inner : list WSABUF → Z → M W (Z * Z)) (fd : Z)
  (iov : list WSABUF) (cell : Z) : M W (Z * Z) :=
  with_non_blocking (λ r, r.1 =? SOCKET_ERROR) fd (
    start_time ← now_ clock;
    left_time ← send_time_limit fd;
    iovec_for fuel wait_write inner fd start_time iov iov 0 0 SOCKET_ERROR 0 left_time cell).

(** ** impl_raw! and impl_facade! *)

(** The original function when the caller has it, the library's otherwise. *)
Definition raw {A} (fn_ptr : option (M W A)) (call : M W A) : M W A :=
  match fn_ptr with Some f => f | None => call end.

Definition facade {A} (name : SyscallName) (inner : M W A) : M W A :=
  co ← current;
  _ ← match co with
      | Some h => _ ← syscall listener_call h tt name Executing; mret tt
      | None => mret tt
      end;
  r ← inner;
  saved_errno ← last_os_error;
  co ← current;
  _ ← match co with
      | Some h => _ ← running clock listener_call h; mret tt
      | None => mret tt
      end;
  _ ← set_errno (saved_code saved_errno);
  mret r.

(** ** impl_iocp!, impl_iocp_read! and impl_iocp_write! *)

(** The result of the completion; [fits] is the range of the result's type.
    [err] is what the call returns on an error. *)
Definition iocp_result (fits : Z → bool) (err : Z) (wait_result : M W Z) : M W Z :=
  result ← wait_result;
  if result <? 0 then
    _ ← assert_ (- result <=? u32_max) "errno overflow";
    _ ← set_errno (- result);
    _ ← assert_ (fits err) "overflow";
    mret err
  else _ ← assert_ (fits result) "overflow"; mret result.

(** The common part: [limit] is what the coroutine is suspended with. *)
Definition iocp_with {T} (limit : M W Z) (finish : T → M W Z) (submit : M W (io_result T))
  (inner : M W Z) : M W Z :=
  r ← submit;
  match r with
  | IoErr _ => inner
  | IoOk arc =>
      _ ← to_suspend listener_call limit;
      _ ← suspend_current switch;
      _ ← in_syscall (λ h name st,
            match st with
            | Callback => _ ← syscall listener_call h tt name Executing; mret (@None unit)
            | _ => mret None
            end);
      finish arc
  end.

Definition impl_iocp {T} (fits : Z → bool) (submit : M W (io_result T)) (wait_result : T → M W Z)
  (inner : M W Z) : M W Z :=
  iocp_with (mret u64_max) (λ arc, iocp_result fits (-1) (wait_result arc)) submit inner.

Definition impl_iocp_read {T} (fits : Z → bool) (submit : M W (io_result T)) (wait_result : T → M W Z)
  (fd : Z) (inner : M W Z) : M W Z :=
  iocp_with (recv_time_limit fd) (λ arc, iocp_result fits (-1) (wait_result arc)) submit inner.

Definition impl_iocp_write {T} (fits : Z → bool) (submit : M W (io_result T)) (wait_result : T → M W Z)
  (fd : Z) (inner : M W Z) : M W Z :=
  iocp_with (send_time_limit fd) (λ arc, iocp_result fits (-1) (wait_result arc)) submit inner.
End layers.

(** ** The facade *)

Section facade_properties.
Context {I X : Type} `{!HasWin X, !HasWinLaws X}.
Abbreviation W := (World unit (option Z) I X).
Context (clock : nat → Z) (listener_call : nat → handle → event unit (option Z) → M W unit).

(** The caller of a hooked function finds the last error that the function
    itself left, whatever the listeners of the coroutine and the bookkeeping do
    to it on the way out. (Codes that do not fit into an [i32] become zero.) *)
Theorem facade_keeps_error {A} name (inner : M W A) w r w' :
  facade clock listener_call name inner w = Done r w' →
  ∃ w1 w2, inner w1 = Done r w2
    ∧ last_error (win (ext w')) = saved_code (last_error (win (ext w2))).
Proof.
  intros (co & w0 & _ & (u & w1 & _ & (a & w2 & Hin & H)%bind_done_inv)%bind_done_inv)%bind_done_inv.
  apply bind_done_inv in H as (e & w3 & [= <- <-] & (co' & w4 & _ & (u' & w5 & _ & H)
    %bind_done_inv)%bind_done_inv).
  apply bind_done_inv in H as (u2 & w6 & [= _ <-] & [= <- <-]).
  exists w1, w2. split; [done|]. simpl. by rewrite win_set_win.
Qed.
End facade_properties.

(** ** The nio layers *)

(** The layers with their arguments, and what they hand to the next one. *)
Inductive nio_layer : Type :=
| LRead
| LReadBuf (buf len : Z)
| LReadIovec (iov : list WSABUF) (cell : Z)
| LWriteBuf (buf len : Z)
| LWriteIovec (iov : list WSABUF) (cell : Z).

Inductive nio_args : Type := ANone | ABuf (buf len : Z) | AIovec (iov : list WSABUF) (cell : Z).

Section nio_properties.
Context {I X : Type} `{!HasWin X, !HasWinLaws X}.
Abbreviation W := (World unit (option Z) I X).
Implicit Types (w : W).
Context (clock : nat → Z) (ws : WinSock W)
  (wait_read_event wait_write_event : Z → Z → M W (io_result unit)).

(** The next layer as a call that returns one value. *)
Definition one (m : M W (Z * Z)) : M W Z := r ← m; mret r.1.

Definition run_nio (fuel : nat) (l : nio_layer) (inner : nio_args → M W (Z * Z)) (fd : Z) : M W (Z * Z) :=
  match l with
  | LRead => r ← nio_read clock ws wait_read_event fuel (one (inner ANone)) fd; mret (r, 0)
  | LReadBuf buf len =>
      r ← nio_read_buf clock ws wait_read_event fuel (λ b n, one (inner (ABuf b n))) fd buf len;
      mret (r, 0)
  | LReadIovec iov cell =>
      nio_read_iovec clock ws wait_read_event fuel (λ v c, inner (AIovec v c)) fd iov cell
  | LWriteBuf buf len =>
      r ← nio_write_buf clock ws wait_write_event fuel (λ b n, one (inner (ABuf b n))) fd buf len;
      mret (r, 0)
  | LWriteIovec iov cell =>
      nio_write_iovec clock ws wait_write_event fuel (λ v c, inner (AIovec v c)) fd iov cell
  end.

(** *** Something observed of the world *)

Section observed.
Context (fd : Z) {O : Type} (obs : X → O).
Abbreviation holds := (@holds I X O obs _).
Abbreviation agree := (@agree I X O obs _).

(** The set of modes may matter to what is observed, the rest of the state of
    the layers does not. *)
Record win_laws : Prop := {
  wl_error e x : obs (set_win (set_last_error e) x) = obs x;
  wl_send m x : obs (set_win (set_send_limits m) x) = obs x;
  wl_recv m x : obs (set_win (set_recv_limits m) x) = obs x;
  wl_sockopt b : holds (getsockopt_ms ws b fd);
  wl_wait_read t : holds (wait_read_event fd t);
  wl_wait_write t : holds (wait_write_event fd t);
}.
Context (laws : win_laws).

Lemma holds_error e : holds (on_win (set_last_error e)).
Proof. intros w r w' [= <- <-]. simpl. apply (wl_error laws). Qed.
Lemma holds_sends m : holds (on_win (set_send_limits m)).
Proof. intros w r w' [= <- <-]. simpl. apply (wl_send laws). Qed.
Lemma holds_recvs m : holds (on_win (set_recv_limits m)).
Proof. intros w r w' [= <- <-]. simpl. apply (wl_recv laws). Qed.

Create HintDb winh discriminated.
Hint Resolve holds_ret holds_gets holds_assert holds_panic holds_fuel holds_now holds_error
  holds_sends holds_recvs wl_sockopt wl_wait_read wl_wait_write laws : winh.

Ltac holding :=
  repeat first
  [ solve [eauto with winh]
  | apply holds_bind; [|intros ?]
  | case_match ].
Ltac agreeing :=
  repeat first
  [ solve [eauto with winh]
  | solve [apply agree_holds; holding]
  | apply agree_bind; [|intros ?]
  | case_match ].

Lemma holds_win_recv : holds (recv_time_limit ws fd).
Proof. unfold recv_time_limit, ask_limit, limit_of_ms, last_os_error, from_win. holding. Qed.
Lemma holds_win_send : holds (send_time_limit ws fd).
Proof. unfold send_time_limit, ask_limit, limit_of_ms, last_os_error, from_win. holding. Qed.
Hint Resolve holds_win_recv holds_win_send : winh.

Lemma holds_win_wait_read st : holds (wait_read clock ws wait_read_event fd st).
Proof. unfold wait_read. holding. Qed.
Lemma holds_win_wait_write st : holds (wait_write clock ws wait_write_event fd st).
Proof. unfold wait_write. holding. Qed.
Hint Resolve holds_win_wait_read holds_win_wait_write : winh.

Lemma holds_win_shift offset arg : holds (shift_first offset arg).
Proof. unfold shift_first. holding. Qed.
Hint Resolve holds_win_shift : winh.

Section inners.
Context (F : O) (inner1 inner2 : nio_args → M W (Z * Z)) (Hinner : ∀ a, agree F (inner1 a) (inner2 a)).

Lemma agree_one a : agree F (one (inner1 a)) (one (inner2 a)).
Proof. unfold one. apply agree_bind; [done|]. intros r. apply agree_holds. holding. Qed.
Hint Resolve Hinner agree_one : winh.

Ltac loop := unfold last_os_error, from_win, reset_errno, set_errno, to_cell; agreeing.

Lemma agree_win_read_loop fuel start left_time r :
  agree F (nio_read_loop clock ws wait_read_event fuel (one (inner1 ANone)) fd start left_time r)
    (nio_read_loop clock ws wait_read_event fuel (one (inner2 ANone)) fd start left_time r).
Proof. revert left_time r. induction fuel; intros; simpl; loop. Qed.

Lemma agree_win_read_buf fuel buf len start left_time received r :
  agree F (nio_read_buf_loop clock ws wait_read_event fuel (λ b n, one (inner1 (ABuf b n))) fd
             buf len start left_time received r)
    (nio_read_buf_loop clock ws wait_read_event fuel (λ b n, one (inner2 (ABuf b n))) fd
             buf len start left_time received r).
Proof. revert left_time received r. induction fuel; intros; simpl; loop. Qed.

Lemma agree_win_write_buf fuel buf len start left_time sent r :
  agree F (nio_write_buf_loop clock ws wait_write_event fuel (λ b n, one (inner1 (ABuf b n))) fd
             buf len start left_time sent r)
    (nio_write_buf_loop clock ws wait_write_event fuel (λ b n, one (inner2 (ABuf b n))) fd
             buf len start left_time sent r).
Proof. revert left_time sent r. induction fuel; intros; simpl; loop. Qed.

Section vectors.
Context (wait : Z → Z → M W (Z * io_result unit)) (Hwait : ∀ st, holds (wait fd st)).
Hint Resolve Hwait : winh.

Lemma agree_iovec_while fuel start stage length arg offset moved r left_time cell :
  agree F (iovec_while fuel wait (λ v c, inner1 (AIovec v c)) fd start stage length arg offset
             moved r left_time cell)
    (iovec_while fuel wait (λ v c, inner2 (AIovec v c)) fd start stage length arg offset
             moved r left_time cell).
Proof. revert arg offset moved r left_time cell. induction fuel; intros; simpl; loop. Qed.
Hint Resolve agree_iovec_while : winh.

Lemma agree_iovec_for fuel start vec todo length moved r index left_time cell :
  agree F (iovec_for fuel wait (λ v c, inner1 (AIovec v c)) fd start vec todo length moved r
             index left_time cell)
    (iovec_for fuel wait (λ v c, inner2 (AIovec v c)) fd start vec todo length moved r
             index left_time cell).
Proof. revert length moved r index left_time cell. induction todo; intros; simpl; loop. Qed.
End vectors.
End inners.
End observed.

(** *** Blocking mode *)

(** [kmode x fd] is the mode the kernel has for the socket: true when it does
    not block. *)
Section blocking_mode.
Context (kmode : X → Z → bool) (fd : Z).

Definition modes (x : X) : bool * bool := (kmode x fd, bool_decide (fd ∈ NON_BLOCKING (win x))).

(** The set tells the truth about the socket. *)
Definition tracked w : Prop := kmode (ext w) fd = bool_decide (fd ∈ NON_BLOCKING (win (ext w))).

(** [ioctlsocket] with [FIONBIO] sets the mode; nothing else that the layers
    call does. *)
Record mode_laws : Prop := {
  mo_win f x : kmode (set_win f x) fd = kmode x fd;
  mo_ioctl on w : ∃ w', ioctl_fionbio ws fd on w = Done 0 w' ∧ kmode (ext w') fd = on
    ∧ NON_BLOCKING (win (ext w')) = NON_BLOCKING (win (ext w));
  mo_sockopt b : holds modes (getsockopt_ms ws b fd);
  mo_wait_read t : holds modes (wait_read_event fd t);
  mo_wait_write t : holds modes (wait_write_event fd t);
}.
Context (laws : mode_laws).

Lemma modes_laws : win_laws fd modes.
Proof.
  split; try apply laws; intros; unfold modes; by rewrite (mo_win laws), win_set_win.
Qed.

Lemma win_set_flag_spec on w :
  tracked w →
  ∃ w', set_non_blocking_flag ws fd on w = Done true w' ∧ modes (ext w') = (on, on).
Proof.
  intros Ht. unfold set_non_blocking_flag, is_non_blocking, from_win.
  erewrite bind_done by reflexivity. cbn beta.
  destruct (eqb _ on) eqn:E.
  { exists w. split; [done|]. apply eqb_prop in E. unfold modes. by rewrite Ht, E. }
  destruct (mo_ioctl laws on w) as (w1 & H1 & Hk & Hs). erewrite bind_done by exact H1.
  eexists. split; [reflexivity|]. unfold modes. simpl. rewrite (mo_win laws), win_set_win, Hk. simpl.
  f_equal. destruct on; [apply bool_decide_true|apply bool_decide_false]; set_solver.
Qed.

Lemma tracked_modes w b : modes (ext w) = (b, b) → tracked w.
Proof. unfold modes, tracked. intros [= -> ->]. done. Qed.

(** Inside the frame the socket does not block, afterwards it has its old
    mode, and the set still tells the truth. *)
Lemma win_frame_spec {A} failed (body1 body2 : M W A) w :
  tracked w → agree modes (true, true) body1 body2 →
  with_non_blocking ws failed fd body1 w = with_non_blocking ws failed fd body2 w
  ∧ ∀ r w', with_non_blocking ws failed fd body2 w = Done r w' → modes (ext w') = modes (ext w).
Proof.
  intros Ht Hb. unfold with_non_blocking.
  assert (is_blocking fd w = Done (negb (kmode (ext w) fd)) w) as Hbl.
  { unfold is_blocking, is_non_blocking, from_win. by rewrite Ht. }
  rewrite !(bind_done _ _ _ _ _ Hbl). destruct (kmode (ext w) fd) eqn:Ek; cbn [negb].
  - rewrite !(bind_done (mret tt) _ _ tt w) by done.
    assert (modes (ext w) = (true, true)) as Hm by (unfold modes; by rewrite <-Ht, Ek).
    destruct (Hb w Hm) as [Heq Hk]. unfold mbind, M_bind. rewrite Heq. split; [done|].
    intros r w'. destruct (body2 w) as [a w2| |]; try done. intros [= _ <-].
    rewrite Hm. by apply (Hk a).
  - destruct (win_set_flag_spec true w Ht) as (w1 & Hs & Hm1).
    assert (set_non_blocking ws fd w = Done tt w1) as Hs1.
    { unfold set_non_blocking. by erewrite bind_done by exact Hs. }
    rewrite !(bind_done _ _ _ _ _ Hs1). destruct (Hb w1 Hm1) as [Heq Hk].
    unfold mbind, M_bind. rewrite Heq. split; [done|].
    intros r w'. destruct (body2 w1) as [a w2| |]; try done. specialize (Hk a w2 eq_refl).
    destruct (win_set_flag_spec false w2 (tracked_modes _ _ Hk)) as (w3 & Hs3 & Hm3).
    simpl. unfold set_blocking, mbind, M_bind. rewrite Hs3. simpl.
    assert (modes (ext w) = (false, false)) as -> by (unfold modes; by rewrite <-Ht, Ek).
    destruct (failed a); intros [= _ <-]; [|done].
    simpl. by rewrite (wl_error _ _ modes_laws).
Qed.

Lemma run_nio_modes fuel l inner1 inner2 w :
  tracked w → (∀ a, agree modes (true, true) (inner1 a) (inner2 a)) →
  run_nio fuel l inner1 fd w = run_nio fuel l inner2 fd w
  ∧ ∀ r w', run_nio fuel l inner2 fd w = Done r w' → modes (ext w') = modes (ext w).
Proof.
  intros Ht Hin. pose proof modes_laws as Hl.
  assert (∀ (m1 m2 : M W Z) w, m1 w = m2 w ∧ (∀ r w', m2 w = Done r w' → modes (ext w') = modes (ext w)) →
    (r ← m1; mret (r, 0)) w = (r ← m2; mret (r, 0)) w
    ∧ ∀ (r : Z * Z) w', (r ← m2; mret (r, 0)) w = Done r w' → modes (ext w') = modes (ext w)) as Hpair.
  { intros m1 m2 w0 [Heq Hk]. unfold mbind, M_bind. rewrite Heq. split; [done|].
    intros r w'. destruct (m2 w0) as [a w1| |]; try done. intros [= _ <-]. by apply (Hk a). }
  destruct l; cbn [run_nio]; try apply Hpair;
    unfold nio_read, nio_read_buf, nio_read_iovec, nio_write_buf, nio_write_iovec;
    apply win_frame_spec; try done;
    (apply agree_bind; [apply agree_holds, holds_now|intros start]);
    (apply agree_bind; [apply agree_holds; by eauto using holds_win_recv, holds_win_send|intros left_time]).
  - by apply agree_win_read_loop.
  - by apply agree_win_read_buf.
  - apply agree_iovec_for; try done. by apply holds_win_wait_read.
  - by apply agree_win_write_buf.
  - apply agree_iovec_for; try done. by apply holds_win_wait_write.
Qed.


(** When the set is wrong about a blocking socket, a layer makes its attempts
    on the socket as it is. *)
Lemma untracked_blocks {A} failed (body : M W A) w :
  fd ∈ NON_BLOCKING (win (ext w)) → with_non_blocking ws failed fd body w = body w.
Proof.
  intros Hin. unfold with_non_blocking.
  rewrite (bind_done _ _ _ false w)
    by (unfold is_blocking, is_non_blocking, from_win; munfold; by rewrite bool_decide_true).
  rewrite (bind_done (mret tt) _ _ tt w) by done. unfold mbind, M_bind. by destruct (body w).
Qed.
End blocking_mode.

(** *** Counting bytes *)

(** [cnt x] is how many bytes the kernel has moved so far. *)
Section counting.
Context (fd : Z) (cnt : X → Z) (laws : win_laws fd cnt)
  (cnt_modes : ∀ f x, cnt (set_win (set_modes f) x) = cnt x)
  (cnt_ioctl : ∀ on, holds cnt (ioctl_fionbio ws fd on)).
Context (inner : Z → Z → M W Z)
  (moves : ∀ buf n w r w', 0 ≤ n → inner buf n w = Done r w' →
     -1 ≤ r ≤ n ∧ cnt (ext w') = cnt (ext w) + Z.max 0 r).

(** The result [v] of a call of at most [len] bytes tells what was moved. *)
Definition told (len v : Z) w w' : Prop :=
  -1 ≤ v ≤ len ∧ cnt (ext w') = cnt (ext w) + Z.max 0 v.

Lemma holds_set_flag on : holds cnt (set_non_blocking_flag ws fd on).
Proof.
  unfold set_non_blocking_flag, is_non_blocking, from_win.
  apply holds_bind; [apply holds_gets|]. intros b. case_match; [apply holds_ret|].
  apply holds_bind; [apply cnt_ioctl|]. intros r. apply holds_bind; [|intros ?; apply holds_ret].
  case_match; [|apply holds_ret]. intros w u w' [= _ <-]. apply cnt_modes.
Qed.

Lemma win_frame_told {A} failed (body : M W A) w v w' :
  with_non_blocking ws failed fd body w = Done v w' →
  ∃ w1 w2, body w1 = Done v w2 ∧ cnt (ext w1) = cnt (ext w) ∧ cnt (ext w') = cnt (ext w2).
Proof.
  intros (b & w1 & [= <- <-] & (u & w2 & Hu & (a & w3 & Ha & (u' & w4 & Hu' & [= <- <-])
    %bind_done_inv)%bind_done_inv)%bind_done_inv)%bind_done_inv.
  exists w2, w3. split; [done|]. split.
  - revert Hu. case_match; [|by intros [= _ <-]]. apply holds_bind; [apply holds_set_flag|].
    intros ?. apply holds_assert.
  - revert Hu'. case_match; [|by intros [= _ <-]]. apply holds_bind; [apply holds_gets|]. intros e.
    apply holds_bind; [apply holds_bind; [apply holds_set_flag|intros ?; apply holds_assert]|].
    intros _. case_match; [by eapply holds_error|apply holds_ret].
Qed.

(** One attempt: try again, or end with what the inner layer said, since the
    error is reset as soon as something was moved. *)
Ltac attempt IH wait_holds :=
  intros (u0 & w0 & [= _ <-] & (r & w1 & Hr & (st & w2 & Hst & Hk)%bind_done_inv)%bind_done_inv)%bind_done_inv;
  apply moves in Hr as [Hb Hc]; [|lia];
  destruct (r =? SOCKET_ERROR) eqn:Er; breflect; cbn [negb] in Hst;
  [ injection Hst as <- <-; subst r; apply bind_done_inv in Hk as (e & w2 & [= <- <-] & Hk);
    destruct (kind _);
    [ apply bind_done_inv in Hk as ([left' wr] & w2 & Hw & Hk); apply wait_holds in Hw;
      destruct (is_err wr);
      [ injection Hk as <- <-; unfold told, SOCKET_ERROR in *; lia
      | apply IH in Hk as [? ?]; unfold told, SOCKET_ERROR in *; lia ]
    | apply IH in Hk as [? ?]; unfold told, SOCKET_ERROR in *; lia
    | injection Hk as <- <-; unfold told, SOCKET_ERROR in *; lia ]
  | apply bind_done_inv in Hst as (u & w3 & Hre & Hst);
    pose proof (holds_error fd cnt laws 0 w1 u w3 Hre) as Hc3; injection Hre as _ <-;
    unfold SOCKET_ERROR in Er;
    match type of Hst with (if ?b then _ else _) _ = _ => destruct b eqn:Ef end;
    injection Hst as <- <-;
    [ injection Hk as <- <-; unfold told, SOCKET_ERROR in *; lia
    | apply bind_done_inv in Hk as (e & w2 & [= <- <-] & Hk); simpl in Hk;
      rewrite win_set_win in Hk; injection Hk as <- <-; unfold told, SOCKET_ERROR in *; simpl in *; lia ] ].

Lemma win_read_buf_loop_told fuel buf len start left_time w v w' :
  0 ≤ len →
  nio_read_buf_loop clock ws wait_read_event fuel inner fd buf len start left_time 0 SOCKET_ERROR w
    = Done v w' → told len v w w'.
Proof.
  intros Hlen. revert left_time w.
  induction fuel as [|fuel IH]; intros left_time w; cbn [nio_read_buf_loop];
    (destruct ((0 <? len) && (0 <? left_time)) eqn:E;
      [|intros [= <- <-]; unfold told, SOCKET_ERROR; lia]); [done|].
  attempt IH (holds_win_wait_read fd cnt laws).
Qed.

Lemma win_write_buf_loop_told fuel buf len start left_time w v w' :
  0 ≤ len →
  nio_write_buf_loop clock ws wait_write_event fuel inner fd buf len start left_time 0 SOCKET_ERROR w
    = Done v w' → told len v w w'.
Proof.
  intros Hlen. revert left_time w.
  induction fuel as [|fuel IH]; intros left_time w; cbn [nio_write_buf_loop];
    (destruct ((0 <? len) && (0 <? left_time)) eqn:E;
      [|intros [= <- <-]; unfold told, SOCKET_ERROR; lia]); [done|].
  attempt IH (holds_win_wait_write fd cnt laws).
Qed.

(** [recv] and [send] report what happened: whatever the library answers to
    the attempts and however the waits end, a result [v >= 0] means that
    exactly [v] bytes were moved, and an error that none were. *)
Theorem win_buf_told (sending : bool) fuel buf len w v w' :
  0 ≤ len →
  (if sending then nio_write_buf clock ws wait_write_event fuel inner fd buf len
   else nio_read_buf clock ws wait_read_event fuel inner fd buf len) w = Done v w' →
  told len v w w'.
Proof.
  intros Hlen H.
  assert (∃ w1, cnt (ext w1) = cnt (ext w) ∧ told len v w1 w') as (w1 & Hc1 & Hb & Hc).
  2: { unfold told. by rewrite <-Hc1. }
  destruct sending; unfold nio_write_buf, nio_read_buf in H;
    apply win_frame_told in H as (w1 & w2 & (n & w3 & [= <- <-] & H)%bind_done_inv & Hc1 & Hc2);
    apply bind_done_inv in H as (limit & w4 & Hlim & H).
  - apply (holds_win_send fd cnt laws) in Hlim. exists w4. split; [by rewrite Hlim, <-Hc1|].
    apply win_write_buf_loop_told in H as [? ?]; [|done]. split; [done|]. lia.
  - apply (holds_win_recv fd cnt laws) in Hlim. exists w4. split; [by rewrite Hlim, <-Hc1|].
    apply win_read_buf_loop_told in H as [? ?]; [|done]. split; [done|]. lia.
Qed.
End counting.

(** *** Vectors of buffers *)

Definition error_reset w : W := set_ext (set_win (set_last_error 0)) w.

(** An attempt that fills the current buffer. *)
Lemma iovec_fills fuel wait (inner : list WSABUF → Z → M W (Z * Z)) fd start stage length arg moved r
  left_time cell m w w1 :
  0 < left_time → Zlen arg ≤ u32_max → moved < length → length ≤ moved + m → moved + m ≤ u32_max →
  inner arg cell w = Done (0, m) w1 →
  iovec_while (S fuel) wait inner fd start stage length arg 0 moved r left_time cell w
  = Done (inr (moved + m, 0, left_time, moved + m)) (error_reset w1).
Proof.
  intros Hl Ha Hlen Hm Hmax Hin. cbn [iovec_while].
  rewrite (proj2 (Z.ltb_lt _ _) Hlen), (proj2 (Z.ltb_lt _ _) Hl). cbn [andb].
  erewrite bind_done by reflexivity. unfold assert_ at 1. rewrite (proj2 (Z.leb_le _ _) Ha).
  erewrite bind_done by reflexivity. erewrite bind_done by exact Hin. cbn [negb].
  change (0 =? SOCKET_ERROR) with false. cbn [negb]. rewrite bind_assoc.
  erewrite bind_done by reflexivity. cbv zeta. rewrite (proj2 (Z.leb_le _ _) Hm).
  unfold to_cell, assert_. rewrite (proj2 (Z.leb_le _ _) Hmax). reflexivity.
Qed.

(** An attempt that would block, after which the time is over. *)
Lemma iovec_times_out fuel wait (inner : list WSABUF → Z → M W (Z * Z)) fd start stage length arg arg'
  offset moved r left_time cell cell' w w1 w2 :
  0 < left_time → Zlen arg' ≤ u32_max → moved < length →
  shift_first offset arg w = Done arg' w →
  inner arg' cell w = Done (SOCKET_ERROR, cell') w1 →
  last_error (win (ext w1)) = WSAEWOULDBLOCK →
  wait fd start w1 = Done (0, IoOk tt) w2 →
  iovec_while (S (S fuel)) wait inner fd start stage length arg offset moved r left_time cell w
  = Done (inr (moved, SOCKET_ERROR, 0, cell')) w2.
Proof.
  intros Hl Ha Hlen Hs Hin He Hw. cbn [iovec_while].
  rewrite (proj2 (Z.ltb_lt _ _) Hlen), (proj2 (Z.ltb_lt _ _) Hl). cbn [andb].
  erewrite bind_done by exact Hs. unfold assert_ at 1. rewrite (proj2 (Z.leb_le _ _) Ha).
  erewrite bind_done by reflexivity. erewrite bind_done by exact Hin.
  change (SOCKET_ERROR =? SOCKET_ERROR) with true. cbn [negb].
  erewrite bind_done by reflexivity. cbv beta iota. erewrite bind_done by reflexivity. rewrite He.
  change (kind WSAEWOULDBLOCK) with WouldBlock. cbv beta iota.
  erewrite bind_done by exact Hw. cbv beta iota. cbn [is_err]. by rewrite andb_false_r.
Qed.

(** [WSARecv] and [WSASend] lose bytes. When the library fills (or sends) the
    first of two buffers and a part of the second, the layer goes on for the
    rest; when the time is over before it comes, the caller is told that the
    call failed, although [m] bytes have been moved. *)
Theorem win_vector_loses fuel wait (inner : list WSABUF → Z → M W (Z * Z)) fd start a b m left_time
  cell cell' w w1 w2 w3 :
  0 < left_time → 0 < wb_len a → wb_len a < m < wb_len a + wb_len b → m ≤ u32_max →
  inner [a; b] cell w = Done (0, m) w1 →
  inner [mkWsabuf (wrap 64 (wb_buf b + (m - wb_len a))) (wrap 32 (wb_len b - (m - wb_len a)))] m
    (error_reset w1) = Done (SOCKET_ERROR, cell') w2 →
  last_error (win (ext w2)) = WSAEWOULDBLOCK → wait fd start w2 = Done (0, IoOk tt) w3 →
  iovec_for (S (S fuel)) wait inner fd start [a; b] [a; b] 0 0 SOCKET_ERROR 0 left_time cell w
  = Done (SOCKET_ERROR, cell') w3.
Proof.
  intros Hl Ha Hm Hmax H1 H2 He Hw. cbn [iovec_for drop]. cbv zeta.
  rewrite !Z.add_0_l, (proj2 (Z.ltb_ge _ _)) by lia. change (sat_sub 0 0) with 0.
  erewrite bind_done by (apply (iovec_fills _ _ _ _ _ _ _ _ _ _ _ _ m _ w1); [done| |lia..|exact H1];
    unfold Zlen, u32_max; simpl; lia).
  cbv beta iota. rewrite Z.add_0_l, (proj2 (Z.leb_le (wb_len a) m)) by lia.
  rewrite (proj2 (Z.ltb_ge _ _)) by lia. cbn [drop].
  rewrite (sat_sub_exact m (wb_len a)) by lia.
  rewrite (bind_done _ _ _ (inr (m, SOCKET_ERROR, 0, cell')) w3); [reflexivity|].
  eapply iovec_times_out; [done| |lia| |exact H2|exact He|exact Hw];
    [unfold Zlen, u32_max; simpl; lia|].
  unfold shift_first. rewrite (proj2 (Z.eqb_neq _ _)) by lia.
  unfold assert_. rewrite (proj2 (Z.leb_le _ _)) by lia. reflexivity.
Qed.
End nio_properties.

(** ** Overlapped calls *)

Section iocp_properties.
Context {I X : Type} `{!HasWin X}.
Abbreviation W := (World unit (option Z) I X).
Context (clock : nat → Z) (listener_call : nat → handle → event unit (option Z) → M W unit)
  (wrel : W → W → Prop) `{!Allowed wrel} (lok : listeners_ok listener_call wrel).

(** A read handed to the completion port suspends its coroutine until the time
    that the limit of the socket is as a time of the clock: a duration is taken
    for a point in time, and is in the past unless the clock is younger than
    the limit. *)
Theorem iocp_suspends_until_limit (ws : WinSock W) fd h nm limit w :
  current_in h (Syscall tt nm Executing) w → RECV_TIME_LIMIT (win (ext w)) !! fd = Some limit →
  ∃ w', to_suspend listener_call (recv_time_limit ws fd) w = Done None w'
    ∧ current_in h (Syscall tt nm (SSuspend limit)) w'.
Proof.
  intros Hc Hl. destruct (current_in_co h _ w Hc) as (c & Hco & Hs).
  unfold to_suspend, in_syscall. erewrite bind_done by reflexivity. rewrite (proj1 Hc).
  erewrite bind_done by (unfold state, with_co; rewrite Hco; reflexivity). rewrite Hs.
  cbv beta iota. rewrite (bind_done _ _ _ limit w).
  - destruct (syscall_spec clock listener_call wrel lok h nm Executing (SSuspend limit) w Hc)
      as (w2 & Hr & Hc2). erewrite bind_done by exact Hr. by exists w2.
  - unfold recv_time_limit, from_win. erewrite bind_done by reflexivity. by rewrite Hl.
Qed.
End iocp_properties.
