(* ===== verification/WinCalls.v ===== *)
(** * WinCalls: the hooked calls of Windows

    Models the files of [core/src/syscall/windows] beside [mod.rs]: the calls
    with logic of their own, and every call as the composition of its layers.
    [WSAPoll] and [select] are, line by line, the loops of [poll] and [select] on
    unix and use the same definitions. *)

From stdpp Require Import sorting base numbers strings gmap list.
From S2P Require Import Prelude Common Coroutine Syscall Calls WinSyscall.

Definition SOL_SOCKET : Z := 65535.
Definition SO_SNDTIMEO : Z := 4101.
Definition SO_RCVTIMEO : Z := 4102.
Definition SD_RECEIVE : Z := 0.
Definition SD_SEND : Z := 1.
Definition SD_BOTH : Z := 2.
Definition ERROR_TIMEOUT : Z := 1460.
Definition FALSE : Z := 0.
Definition TRUE : Z := 1.

Section calls.
Context {I X : Type} `{!HasWin X}.
Abbreviation Ret := (option Z).
Abbreviation W := (World unit Ret I X).

Variable clock : nat → Z.
Variable listener_call : nat → handle → event unit Ret → M W unit.
Variable ws : WinSock W.
Variable switch : M W unit.
Variable wait_event : Z → M W (io_result unit).
Variable wait_write_event : Z → Z → M W (io_result unit).
Variable del_event del_read_event del_write_event : Z → M W (io_result unit).

(** ** Sleep.rs *)

Definition nio_Sleep (dw_milliseconds : Z) : M W unit :=
  let time := dw_milliseconds * 1000000 in
  _ ← suspend_for clock listener_call Sleep time;
  _ ← wait_event time;
  mret tt.

(** ** WSAPoll.rs and select.rs *)

Definition nio_WSAPoll (fuel : nat) (inner : M W Z) (timeout : Z) : M W Z :=
  nio_poll wait_event fuel inner timeout.

Definition win_nio_select {S : Type} (fuel : nat) (inner : fd_sets S → M W (Z * fd_sets S))
  (fds : fd_sets S) (timeout : option timeval) : M W (Z * fd_sets S) :=
  nio_select wait_event fuel inner fds timeout.

(** ** connect.rs *)

Fixpoint connect_loop (fuel : nat) (getpeername : M W Z) (getsockopt_error : M W (Z * Z))
  (fd start_time left_time r : Z) : M W Z :=
  if 0 <? left_time then
    match fuel with
    | O => out_of_fuel
    | S fuel =>
        if r =? 0 then _ ← reset_errno; mret r
        else
          e ← last_os_error;
          if (e =? WSAEINPROGRESS) || (e =? WSAEALREADY) || (e =? WSAEWOULDBLOCK) then
            '(left_time, w) ← wait_write clock ws wait_write_event fd start_time;
            if is_err w then mret r
            else
              p ← getpeername;
              let connected := p =? 0 in
              '(r, err) ← getsockopt_error;
              if negb (r =? 0) then mret (-1)
              else if negb (err =? 0) then _ ← set_errno err; mret (-1)
              else if negb connected then
                _ ← set_errno WSAEINPROGRESS;
                connect_loop fuel getpeername getsockopt_error fd start_time left_time (-1)
              else connect_loop fuel getpeername getsockopt_error fd start_time left_time r
          else if negb (e =? WSAEINTR) then mret r
          else connect_loop fuel getpeername getsockopt_error fd start_time left_time r
    end
  else mret r.

(** Unlike the layers, [connect] does not keep the last error across
    [set_blocking]. *)
Definition nio_connect (fuel : nat) (inner getpeername : M W Z) (getsockopt_error : M W (Z * Z))
  (fd : Z) : M W Z :=
  with_non_blocking ws (λ _, false) fd (
    start_time ← now_ clock;
    left_time ← send_time_limit ws fd;
    r ← inner;
    r ← connect_loop fuel getpeername getsockopt_error fd start_time left_time r;
    e ← last_os_error;
    _ ← (if (r =? -1) && (e =? WSAETIMEDOUT) then set_errno WSAEINPROGRESS else mret tt);
    mret r).

(** ** WaitOnAddress.rs *)

(** [inner] waits for at most the given milliseconds, which are 0 or 1. *)
Fixpoint wait_on_address_loop (fuel : nat) (inner : Z → M W Z) (timeout : Z) : M W Z :=
  match fuel with
  | O => out_of_fuel
  | S fuel =>
      n ← now_ clock;
      let left_time := sat_sub timeout n in
      if left_time =? 0 then _ ← set_errno ERROR_TIMEOUT; mret FALSE
      else
        r ← inner (Z.min (left_time / 1000000) 1);
        if r =? TRUE then _ ← reset_errno; mret r
        else
          n ← now_ clock;
          let left_time := sat_sub timeout n in
          if left_time =? 0 then _ ← set_errno ERROR_TIMEOUT; mret FALSE
          else
            w ← wait_event (if 10000000 <? left_time then 10000000 else left_time);
            if is_err w then mret r else wait_on_address_loop fuel inner timeout
  end.

Definition nio_WaitOnAddress (fuel : nat) (inner : Z → M W Z) (dwmilliseconds : Z) : M W Z :=
  n ← now_ clock;
  wait_on_address_loop fuel inner (get_timeout_time n (dwmilliseconds * 1000000)).

(** ** ioctlsocket.rs *)

(** Its own facade: the coroutine goes back to running only when the call left
    it where it was. *)
Definition ioctlsocket_facade (inner : M W (Z * Z)) : M W (Z * Z) :=
  co ← current;
  _ ← match co with
      | Some h => _ ← syscall listener_call h tt ioctlsocket Executing; mret tt
      | None => mret tt
      end;
  r ← inner;
  _ ← in_syscall (λ h name st,
        if decide (name = ioctlsocket ∧ st = Executing)
        then _ ← running clock listener_call h; mret (@None unit)
        else mret None);
  mret r.

(** [inner] returns its result and the value behind [argp]. The command does
    not matter. *)
Definition nio_ioctlsocket (inner : M W (Z * Z)) (fd : Z) : M W (Z * Z) :=
  '(r, argp) ← inner;
  _ ← (if r =? 0 then
         if argp =? 0 then on_win (set_modes (λ m, m ∖ {[ fd ]}))
         else on_win (set_modes (λ m, m ∪ {[ fd ]}))
       else mret tt);
  mret (r, argp).

(** ** setsockopt.rs and shutdown.rs *)

Definition nio_setsockopt (inner : M W Z) (fd level name value : Z) : M W Z :=
  r ← inner;
  if (r =? 0) && (level =? SOL_SOCKET) then
    if name =? SO_SNDTIMEO then
      time_limit ← limit_of_ms value;
      m ← from_win SEND_TIME_LIMIT;
      _ ← on_win (set_send_limits (<[fd := time_limit]> m));
      _ ← assert_ (bool_decide (m !! fd = None)) "assertion failed";
      mret r
    else if name =? SO_RCVTIMEO then
      time_limit ← limit_of_ms value;
      m ← from_win RECV_TIME_LIMIT;
      _ ← on_win (set_recv_limits (<[fd := time_limit]> m));
      _ ← assert_ (bool_decide (m !! fd = None)) "assertion failed";
      mret r
    else mret r
  else mret r.

Definition nio_shutdown (inner : M W Z) (fd how : Z) : M W Z :=
  _ ← assert_ (fd <=? i32_max) "overflow";
  if how =? SD_RECEIVE then _ ← del_read_event fd; inner
  else if how =? SD_SEND then _ ← del_write_event fd; inner
  else if how =? SD_BOTH then _ ← del_event fd; inner
  else _ ← set_errno WSAEINVAL; mret (-1).

(** ** accept.rs with the feature iocp *)

(** [address]: the caller gave one; [set_family] asks for the protocol of the
    listener and writes the family to the address. *)
Definition accept_result (address : bool) (set_family wait_result : M W Z) : M W Z :=
  result ← wait_result;
  if result <? 0 then
    _ ← assert_ (- result <=? u32_max) "errno overflow";
    _ ← set_errno (- result);
    mret INVALID_SOCKET
  else
    r ← set_family;
    if negb (r =? 0) then mret INVALID_SOCKET
    else _ ← assert_ address "null pointer dereference"; mret result.

Definition iocp_accept {T} (submit : M W (io_result T)) (wait_result : T → M W Z) (address : bool)
  (set_family : M W Z) (fd : Z) (inner : M W Z) : M W Z :=
  iocp_with listener_call switch (recv_time_limit ws fd)
    (λ arc, accept_result address set_family (wait_result arc)) submit inner.
End calls.

(** ** The chains *)

Section chains.
Context {I X : Type} `{!HasWin X}.
Abbreviation W := (World unit (option Z) I X).

Variable clock : nat → Z.
Variable listener_call : nat → handle → event unit (option Z) → M W unit.
Variable ws : WinSock W.
Variable switch : M W unit.
Variable wait_event : Z → M W (io_result unit).
Variable wait_read_event wait_write_event : Z → Z → M W (io_result unit).
Variable del_event del_read_event del_write_event : Z → M W (io_result unit).
Variable fuel : nat.

Definition chain {A : Type} (name : SyscallName) (fn_ptr : option (A → M W Z)) (call : A → M W Z)
  (args : A) : M W Z :=
  facade clock listener_call name (raw ((λ f, f args) <$> fn_ptr) (call args)).

Definition chain_read {A : Type} (name : SyscallName) (fn_ptr : option (Z → A → M W Z))
  (call : Z → A → M W Z) (fd : Z) (args : A) : M W Z :=
  facade clock listener_call name
    (nio_read clock ws wait_read_event fuel (raw ((λ f, f fd args) <$> fn_ptr) (call fd args)) fd).

Definition chain_read_buf {A : Type} (name : SyscallName) (fn_ptr : option (Z → Z → Z → A → M W Z))
  (call : Z → Z → Z → A → M W Z) (fd buf len : Z) (args : A) : M W Z :=
  facade clock listener_call name
    (nio_read_buf clock ws wait_read_event fuel
       (λ b n, raw ((λ f, f fd b n args) <$> fn_ptr) (call fd b n args)) fd buf len).

Definition chain_write_buf {A : Type} (name : SyscallName) (fn_ptr : option (Z → Z → Z → A → M W Z))
  (call : Z → Z → Z → A → M W Z) (fd buf len : Z) (args : A) : M W Z :=
  facade clock listener_call name
    (nio_write_buf clock ws wait_write_event fuel
       (λ b n, raw ((λ f, f fd b n args) <$> fn_ptr) (call fd b n args)) fd buf len).

Definition chain_read_iovec {A : Type} (name : SyscallName)
  (fn_ptr : option (Z → list WSABUF → Z → A → M W (Z * Z)))
  (call : Z → list WSABUF → Z → A → M W (Z * Z)) (fd : Z) (iov : list WSABUF) (cell : Z) (args : A)
  : M W (Z * Z) :=
  facade clock listener_call name
    (nio_read_iovec clock ws wait_read_event fuel
       (λ v c, raw ((λ f, f fd v c args) <$> fn_ptr) (call fd v c args)) fd iov cell).

Definition chain_write_iovec {A : Type} (name : SyscallName)
  (fn_ptr : option (Z → list WSABUF → Z → A → M W (Z * Z)))
  (call : Z → list WSABUF → Z → A → M W (Z * Z)) (fd : Z) (iov : list WSABUF) (cell : Z) (args : A)
  : M W (Z * Z) :=
  facade clock listener_call name
    (nio_write_iovec clock ws wait_write_event fuel
       (λ v c, raw ((λ f, f fd v c args) <$> fn_ptr) (call fd v c args)) fd iov cell).

(** The arguments beside the socket (and the buffer): addresses, lengths and
    flags. *)
Definition win_WSAAccept := @chain_read (Z * Z * Z * Z) WSAAccept.
Definition win_accept := @chain_read (Z * Z) accept.
Definition win_recv := @chain_read_buf Z recv.
Definition win_send := @chain_write_buf Z send.
Definition win_WSARecv := @chain_read_iovec (Z * Z * Z) WSARecv.
Definition win_WSASend := @chain_write_iovec (Z * Z * Z) WSASend.
Definition win_listen := @chain (Z * Z) listen.
Definition win_socket := @chain (Z * Z * Z) socket.
Definition win_WSASocketW := @chain (Z * Z * Z * Z * Z * Z) WSASocketW.
Definition win_CreateFileW := @chain (Z * Z * Z * Z * Z * Z * Z) CreateFileW.
Definition win_SetFilePointerEx := @chain (Z * Z * Z * Z) SetFilePointerEx.

Definition win_Sleep (dw_milliseconds : Z) : M W unit :=
  facade clock listener_call Sleep (nio_Sleep clock listener_call wait_event dw_milliseconds).
Definition win_WSAPoll (fn_ptr : option (Z → Z → Z → M W Z)) (call : Z → Z → Z → M W Z)
  (fds nfds timeout : Z) : M W Z :=
  facade clock listener_call WSAPoll
    (nio_WSAPoll wait_event fuel (raw ((λ f, f fds nfds 0) <$> fn_ptr) (call fds nfds 0)) timeout).
Definition win_WaitOnAddress (fn_ptr : option (Z → Z → Z → Z → M W Z)) (call : Z → Z → Z → Z → M W Z)
  (address compareaddress addresssize dwmilliseconds : Z) : M W Z :=
  facade clock listener_call WaitOnAddress
    (nio_WaitOnAddress clock wait_event fuel
       (λ t, raw ((λ f, f address compareaddress addresssize t) <$> fn_ptr)
               (call address compareaddress addresssize t)) dwmilliseconds).
Definition win_ioctlsocket (fn_ptr : option (Z → Z → Z → M W (Z * Z))) (call : Z → Z → Z → M W (Z * Z))
  (fd cmd argp : Z) : M W (Z * Z) :=
  ioctlsocket_facade clock listener_call
    (nio_ioctlsocket (raw ((λ f, f fd cmd argp) <$> fn_ptr) (call fd cmd argp)) fd).
Definition win_shutdown (fn_ptr : option (Z → Z → M W Z)) (call : Z → Z → M W Z) (fd how : Z) : M W Z :=
  facade clock listener_call shutdown
    (nio_shutdown del_event del_read_event del_write_event
       (raw ((λ f, f fd how) <$> fn_ptr) (call fd how)) fd how).
Definition win_setsockopt (fn_ptr : option (Z → Z → Z → Z → M W Z)) (call : Z → Z → Z → Z → M W Z)
  (fd level name value : Z) : M W Z :=
  facade clock listener_call setsockopt
    (nio_setsockopt (raw ((λ f, f fd level name value) <$> fn_ptr) (call fd level name value))
       fd level name value).
Definition win_connect (fn_ptr : option (Z → Z → Z → M W Z)) (call : Z → Z → Z → M W Z)
  (getpeername : Z → M W Z) (getsockopt_error : Z → M W (Z * Z)) (fd address len : Z) : M W Z :=
  facade clock listener_call connect
    (nio_connect clock ws wait_write_event fuel
       (raw ((λ f, f fd address len) <$> fn_ptr) (call fd address len))
       (getpeername fd) (getsockopt_error fd) fd).
Definition win_select {S : Type} (fn_ptr : option (Z → fd_sets S → M W (Z * fd_sets S)))
  (call : Z → fd_sets S → M W (Z * fd_sets S)) (nfds : Z) (fds : fd_sets S) (timeout : option timeval)
  : M W (Z * fd_sets S) :=
  facade clock listener_call select
    (win_nio_select wait_event fuel
       (λ s, raw ((λ f, f nfds s) <$> fn_ptr) (call nfds s)) fds timeout).
(** With the feature [iocp]. *)
Definition win_iocp_accept {T} (fn_ptr : option (Z → Z * Z → M W Z)) (call : Z → Z * Z → M W Z)
  (submit : M W (io_result T)) (wait_result : T → M W Z) (set_family : M W Z) (fd : Z) (args : Z * Z)
  : M W Z :=
  facade clock listener_call accept
    (iocp_accept listener_call ws switch submit wait_result (negb (args.1 =? 0)) set_family fd
       (nio_read clock ws wait_read_event fuel (raw ((λ f, f fd args) <$> fn_ptr) (call fd args)) fd)).
End chains.

(** ** Properties *)

Section properties.
Context {I X : Type} `{!HasWin X, !HasWinLaws X}.
Abbreviation W := (World unit (option Z) I X).
Implicit Types (w : W).
(** *** ioctlsocket *)

Section modes.
Context (ws : WinSock W) (kmode : X → Z → bool) (fd : Z) (kmode_win : ∀ f x, kmode (set_win f x) fd = kmode x fd).

Lemma ioctlsocket_marks (inner : M W (Z * Z)) argp w w1 :
  inner w = Done (0, argp) w1 →
  ∃ w', nio_ioctlsocket inner fd w = Done (0, argp) w' ∧ kmode (ext w') fd = kmode (ext w1) fd
    ∧ bool_decide (fd ∈ NON_BLOCKING (win (ext w'))) = negb (argp =? 0).
Proof.
  intros Hin. unfold nio_ioctlsocket. erewrite bind_done by exact Hin. cbv beta iota.
  change (0 =? 0) with true. cbv iota.
  destruct (argp =? 0); cbn [negb]; (eexists; split; [reflexivity|]; simpl;
    rewrite kmode_win, win_set_win; split; [done|]; simpl);
    [apply bool_decide_false|apply bool_decide_true]; set_solver.
Qed.

(** The hook of [ioctlsocket] keeps the set [NON_BLOCKING] true for the
    command that sets the mode: when the library made the socket (non-)blocking
    as [argp] says, the set says so too. For any other command it ruins it: when
    one, such as asking how many bytes can be read, leaves a nonzero value on a
    blocking socket, the socket is marked as non-blocking, and from then on a
    hooked call makes its attempts on the blocking socket, and blocks the
    thread with all its coroutines. *)
Theorem ioctlsocket_tracks_any_command (inner : M W (Z * Z)) argp w w1 :
  inner w = Done (0, argp) w1 →
  ∃ w', nio_ioctlsocket inner fd w = Done (0, argp) w'
    ∧ (kmode (ext w1) fd = negb (argp =? 0) → tracked kmode fd w')
    ∧ (kmode (ext w1) fd = false → argp ≠ 0 →
       kmode (ext w') fd = false
       ∧ ∀ A failed (body : M W A), with_non_blocking ws failed fd body w' = body w').
Proof.
  intros Hin. destruct (ioctlsocket_marks inner argp w w1 Hin) as (w' & Hr & Hk & Hs).
  exists w'. split; [done|]. split.
  - intros Hm. unfold tracked. by rewrite Hk, Hm, Hs.
  - intros Hm Ha. rewrite Hk. split; [done|]. intros A failed body.
    apply untracked_blocks. rewrite (proj2 (Z.eqb_neq _ _) Ha) in Hs.
    by apply bool_decide_eq_true in Hs.
Qed.
End modes.

(** *** WaitOnAddress *)

Section waiting.
Context (clock : nat → Z) (wait_event : Z → M W (io_result unit)).

(** A call that does not turn the clock back. *)
Definition forward {A} (m : M W A) (v : A) : Prop :=
  ∀ w, ∃ w', m w = Done v w' ∧ (w_tick w ≤ w_tick w')%nat.

Lemma wait_on_address_deadline (inner : Z → M W Z) fuel timeout w :
  (∀ k, clock k < clock (S k)) → (∀ t, forward (inner t) FALSE) →
  (∀ t, forward (wait_event t) (IoOk tt)) →
  Z.max 0 (timeout - clock (w_tick w)) < Z.of_nat fuel →
  ∃ w' k, wait_on_address_loop clock wait_event fuel inner timeout w = Done FALSE w'
    ∧ last_error (win (ext w')) = ERROR_TIMEOUT ∧ w_tick w' = S k ∧ timeout ≤ clock k.
Proof.
  intros Hadv Hin Hwait. revert w. induction fuel as [|fuel IH]; intros w Hf; [lia|].
  cbn [wait_on_address_loop]. erewrite bind_done by reflexivity. cbv zeta.
  destruct (sat_sub timeout (clock (w_tick w)) =? 0) eqn:E; breflect.
  { apply sat_sub_zero in E. eexists _, (w_tick w). split_and!; [reflexivity| |done|done].
    simpl. by rewrite win_set_win. }
  fold (tick_world w).
  match goal with |- context [inner ?t] =>
    destruct (Hin t (tick_world w)) as (w1 & H1 & Ht1) end.
  erewrite bind_done by exact H1. change (FALSE =? TRUE) with false. cbv iota.
  erewrite bind_done by reflexivity. fold (tick_world w1).
  destruct (sat_sub timeout (clock (w_tick w1)) =? 0) eqn:E1; breflect.
  { apply sat_sub_zero in E1. eexists _, (w_tick w1). split_and!; [reflexivity| |done|done].
    simpl. by rewrite win_set_win. }
  match goal with |- context [wait_event ?t] =>
    destruct (Hwait t (tick_world w1)) as (w2 & H2 & Ht2) end.
  erewrite bind_done by exact H2. cbn [is_err]. apply IH. simpl in Ht1, Ht2.
  pose proof (clock_mono clock Hadv (S (w_tick w)) (w_tick w2) ltac:(lia)).
  pose proof (Hadv (w_tick w)). unfold sat_sub in E. lia.
Qed.

(** Waiting for an address that nobody changes ends when the time is over,
    with [ERROR_TIMEOUT] and not before; fuel for the nanoseconds is enough.
    With a time of zero the address is not looked at at all, so that a change
    that has already happened is reported as a time-out. *)
Theorem wait_on_address_ends (inner : Z → M W Z) ms w :
  (∀ k, clock k < clock (S k)) → 0 ≤ ms → 0 ≤ clock (w_tick w) →
  ((∀ t, forward (inner t) FALSE) → (∀ t, forward (wait_event t) (IoOk tt)) →
   let timeout := get_timeout_time (clock (w_tick w)) (ms * 1000000) in
   ∃ w' k, nio_WaitOnAddress clock wait_event (S (Z.to_nat (timeout - clock (w_tick w)))) inner ms w
       = Done FALSE w'
     ∧ last_error (win (ext w')) = ERROR_TIMEOUT ∧ w_tick w' = S k ∧ timeout ≤ clock k)
  ∧ (ms = 0 → clock (w_tick w) ≤ u64_max →
     ∃ w', nio_WaitOnAddress clock wait_event 1 inner ms w = Done FALSE w').
Proof.
  intros Hadv Hms Hc. split.
  - intros Hin Hwait timeout. unfold nio_WaitOnAddress. erewrite bind_done by reflexivity.
    apply wait_on_address_deadline; try done. cbn [w_tick]. fold timeout.
    pose proof (Hadv (w_tick w)). lia.
  - intros -> Hmax. unfold nio_WaitOnAddress. erewrite bind_done by reflexivity.
    cbn [wait_on_address_loop]. erewrite bind_done by reflexivity. cbv zeta.
    rewrite Z.mul_0_l, get_timeout_time_zero by done. cbn [w_tick].
    rewrite (proj2 (Z.eqb_eq _ _)).
    + eexists. reflexivity.
    + apply sat_sub_zero. pose proof (Hadv (w_tick w)). lia.
Qed.
End waiting.
End properties.
