(* ===== verification/WinRuns.v ===== *)
(** * WinRuns: a small Winsock

    One socket whose library answers what it is told to answer, and the
    applications of the theorems of [WinSyscall] and [WinCalls]. *)

From stdpp Require Import sorting base numbers strings gmap list.
From S2P Require Import Prelude Common Coroutine Syscall Calls WinSyscall WinCalls.

Module WinRun.

(** The sockets that do not block, the answers to come (result, count and
    error), and the time spent waiting. *)
Record Kernel : Type := mkKernel {
  k_win : WinSys;
  k_modes : gset Z;
  k_answers : list (Z * Z * Z);
  k_slept : Z;
}.

#[export] Instance kernel_win : HasWin Kernel := {
  win := k_win;
  set_win f k := mkKernel (f (k_win k)) (k_modes k) (k_answers k) (k_slept k);
}.
#[export] Instance kernel_win_laws : HasWinLaws Kernel.
Proof. done. Qed.

Abbreviation W := (World unit (option Z) unit Kernel).

Definition clock (k : nat) : Z := 1000 * Z.of_nat k.
Definition kmode (k : Kernel) (fd : Z) : bool := bool_decide (fd ∈ k_modes k).

Definition set_k (f : Kernel → Kernel) : M W unit := modify (set_ext f).
Definition set_mode (fd : Z) (on : bool) (k : Kernel) : Kernel :=
  mkKernel (k_win k) (if on then k_modes k ∪ {[ fd ]} else k_modes k ∖ {[ fd ]}) (k_answers k) (k_slept k).

Definition library : WinSock W := {|
  ioctl_fionbio fd on := _ ← set_k (set_mode fd on); mret 0;
  getsockopt_ms _ _ := mret (Some 5);
|}.
Definition wait_fd (_ t : Z) : M W (io_result unit) :=
  _ ← set_k (λ k, mkKernel (k_win k) (k_modes k) (k_answers k) (k_slept k + t)); mret (IoOk tt).

(** The next answer; without one the call fails. *)
Definition answer : M W (Z * Z) := λ w,
  match k_answers (ext w) with
  | [] => Done (SOCKET_ERROR, 0) w
  | (r, n, e) :: rest => Done (r, n) (set_ext (λ k, mkKernel
      (set_last_error e (k_win k)) (k_modes k) rest (k_slept k)) w)
  end.
Definition inner (_ : nio_args) : M W (Z * Z) := answer.
(** A next layer that panics where a call would block the thread. *)
Definition careful (a : nio_args) : M W (Z * Z) := λ w,
  if kmode (ext w) 5 then inner a w else Panic "blocked" w.

Definition world (marked : gset Z) (answers : list (Z * Z * Z)) : W :=
  mkWorld ∅ (mkTls [] [] [] [] []) 0 (mkKernel (mkWin 0 marked ∅ ∅) ∅ answers 0).

(** Would block once, is interrupted once, then six bytes. *)
Definition bumpy : W := world ∅ [(-1, 0, WSAEWOULDBLOCK); (-1, 0, WSAEINTR); (6, 6, 0)].

Lemma library_modes : mode_laws library wait_fd wait_fd kmode 5.
Proof.
  split.
  - done.
  - intros on w. eexists. split; [reflexivity|]. split; [|done]. unfold kmode. simpl.
    destruct on; [apply bool_decide_true|apply bool_decide_false]; set_solver.
  - by intros b w r w' [= _ <-].
  - by intros t w r w' [= _ <-].
  - by intros t w r w' [= _ <-].
Qed.

Lemma inner_modes a : holds (modes kmode 5) (inner a).
Proof.
  intros w r w'. unfold inner, answer. destruct (k_answers (ext w)) as [|[[r' n] e] rest];
    by intros [= _ <-].
Qed.


Lemma kmode_keeps f k : kmode (set_win f k) 5 = kmode k 5.
Proof. done. Qed.

(** [ioctlsocket] with [FIONREAD], which finds six bytes. *)
Definition fionread : M W (Z * Z) := mret (0, 6).

(** Applies [ioctlsocket_tracks_any_command]: after asking for the number of
    bytes the careful next layer panics, since it is called on a blocking socket. *)
Lemma ioctlsocket_tracks_any_command_witness :
  ∃ w', nio_ioctlsocket fionread 5 bumpy = Done (0, 6) w'
    ∧ (kmode (ext w') 5 = false
       ∧ ∀ A failed (body : M W A), with_non_blocking library failed 5 body w' = body w')
    ∧ ∃ w2, run_nio clock library wait_fd wait_fd 9 (LReadBuf 4096 10) careful 5 w' = Panic "blocked" w2.
Proof.
  destruct (ioctlsocket_tracks_any_command library kmode 5 kmode_keeps fionread 6 bumpy bumpy
    eq_refl) as (w' & Hr & _ & Hbad).
  exists w'. split; [exact Hr|]. split; [by apply Hbad|].
  vm_compute in Hr. injection Hr as <-. eexists. vm_compute. reflexivity.
Defined.

(** A vector of two buffers: six of eight bytes come, then nothing until the
    time is over; the call fails although six bytes were taken. *)
Definition fast (k : nat) : Z := 2000000 * Z.of_nat k.

Example vector_fails :
  match run_nio fast library wait_fd wait_fd 20 (LReadIovec [mkWsabuf 4096 4; mkWsabuf 8192 4] 0) inner 5
    (world ∅ ((0, 6, 0) :: replicate 20 (-1, 6, WSAEWOULDBLOCK))) with
  | Done r _ => r = (SOCKET_ERROR, 6)
  | Panic _ _ | NoFuel => False
  end.
Proof. vm_compute. reflexivity. Qed.
End WinRun.
