(* ===== verification/WinOperator.v ===== *)
(** * WinOperator: overlapped calls on a completion port

    Models [core/src/net/operator/windows/mod.rs]: every call leaks a box that
    describes it and hands its address to Windows; [select] gets the addresses
    back from the completion port, takes the boxes and works out the results. The
    Windows API is the interface [Port]; a heap of boxes stands for the
    allocator. *)

From stdpp Require Import sorting base numbers strings gmap list.
From S2P Require Import Prelude Common Syscall WinSyscall.

Definition WSAENETDOWN : Z := 10050.
Definition WSA_IO_PENDING : Z := 997.
Definition ERROR_INVALID_PARAMETER : Z := 87.

(** The errors of Windows whose [std::io::Error::kind] is [TimedOut]. *)
Definition timed_out (e : Z) : bool :=
  bool_decide (e ∈ [121; 258; 594; 995; 1053; 1121; 1460; 5910; 7012; 7040; 8014; 8226; 9705;
    13805; 15402; 15403; WSAETIMEDOUT]).

(** [Overlapped], without the part that only Windows looks at. *)
Record Overlapped : Type := mkOverlapped {
  from_fd : Z;
  token : Z;
  syscall_name : SyscallName;
  ov_socket : Z;
  result : Z;
}.

Definition set_result (r : Z) (o : Overlapped) : Overlapped :=
  mkOverlapped (from_fd o) (token o) (syscall_name o) (ov_socket o) r.

(** The Windows API. Null pointers and failures are [None]; [P] is the protocol
    of a socket, [S] the state of Windows. *)
Record Port (S P : Type) : Type := mkPort {
  create_port : M S (option Z);
  associate : Z → Z → Z → M S (option Z);
  notification_modes : Z → M S bool;
  (** [GetQueuedCompletionStatusEx] of a port for at most some milliseconds:
      addresses of boxes with numbers of bytes *)
  get_status : Z → Z → M S (option (list (Z * Z)));
  protocol : Z → M S (option P);
  new_socket : P → M S Z;
  accept_ex : Z → Z → Z → M S bool;
  update_context : Z → Z → M S bool;
  (** socket, buffers, flags and the address of the box; the cell for the count
      and the completion routine are handed through unseen *)
  wsa_recv : Z → list WSABUF → Z → Z → M S Z;
  wsa_send : Z → list WSABUF → Z → Z → M S Z;
  get_error : M S Z;
  sys_now : M S Z;
  instant : M S Z;
}.
Arguments create_port {S P}.
Arguments associate {S P}.
Arguments notification_modes {S P}.
Arguments get_status {S P}.
Arguments protocol {S P}.
Arguments new_socket {S P}.
Arguments accept_ex {S P}.
Arguments update_context {S P}.
Arguments wsa_recv {S P}.
Arguments wsa_send {S P}.
Arguments get_error {S P}.
Arguments sys_now {S P}.
Arguments instant {S P}.

(** The operator, the leaked boxes and Windows. *)
Record Operator (S : Type) : Type := mkOperator {
  cpu : Z;
  iocp : Z;
  entering : bool;
  boxes : gmap Z Overlapped;
  windows : S;
}.
Arguments mkOperator {S}.
Arguments cpu {S}.
Arguments iocp {S}.
Arguments entering {S}.
Arguments boxes {S}.
Arguments windows {S}.

Section operator.
Context {S P : Type} (api : Port S P).
Abbreviation Operator := (Operator S).

Definition on_windows {A} (m : M S A) : M Operator A := λ o,
  match m (windows o) with
  | Done a s => Done a (mkOperator (cpu o) (iocp o) (entering o) (boxes o) s)
  | Panic msg s => Panic msg (mkOperator (cpu o) (iocp o) (entering o) (boxes o) s)
  | NoFuel => NoFuel
  end.
Definition set_entering (b : bool) : M Operator unit :=
  modify (λ o, mkOperator (cpu o) (iocp o) b (boxes o) (windows o)).
Definition set_boxes (f : gmap Z Overlapped → gmap Z Overlapped) (o : Operator) : Operator :=
  mkOperator (cpu o) (iocp o) (entering o) (f (boxes o)) (windows o).

(** [Box::leak] and [Box::from_raw] of a box of the operator. *)
Definition leak (v : Overlapped) : M Operator Z := λ o,
  let p := fresh (dom (boxes o)) in Done p (set_boxes <[p := v]> o).
Definition from_raw (p : Z) : M Operator Overlapped := λ o,
  match boxes o !! p with
  | Some v => Done v (set_boxes (delete p) o)
  | None => Panic "use after free" o
  end.

(** [Operator::new]: the port, or the error of Windows. *)
Definition operator_new (cpu : Z) : M S (io_result Operator) :=
  p ← create_port api;
  match p with
  | None => e ← get_error api; mret (IoErr (OsError e))
  | Some iocp => s ← gets id; mret (IoOk (mkOperator cpu iocp false ∅ s))
  end.

(** A handle that is bound already makes Windows report an invalid parameter;
    the assertion is one of debug builds and is not made. *)
Definition add_handle (handle : Z) : M Operator (io_result unit) :=
  port ← gets iocp;
  key ← gets cpu;
  ret ← on_windows (associate api handle port key);
  dup ← match ret with
        | Some _ => mret false
        | None => e ← on_windows (get_error api); mret (e =? ERROR_INVALID_PARAMETER)
        end;
  if (dup : bool) then mret (IoOk tt)
  else
    b ← on_windows (notification_modes api handle);
    if (b : bool) then mret (IoOk tt)
    else e ← on_windows (get_error api); mret (IoErr (OsError e)).

(** ** Completions *)

(** The result of a completed call. *)
Definition resolve (cqe : Overlapped) (bytes : Z) : M Operator Z :=
  match syscall_name cqe with
  | accept =>
      ok ← on_windows (update_context api (ov_socket cqe) (from_fd cqe));
      if (ok : bool) then
        _ ← assert_ (ov_socket cqe <=? i64_max) "result overflow"; mret (ov_socket cqe)
      else mret (- WSAENETDOWN)
  | recv | WSARecv | send | WSASend => mret bytes
  | _ => panic "unsupported"
  end.

Fixpoint take_entries (entries : list (Z * Z)) (cq : list Overlapped) : M Operator (list Overlapped) :=
  match entries with
  | [] => mret cq
  | (p, bytes) :: entries =>
      cqe ← from_raw p;
      r ← resolve cqe bytes;
      take_entries entries (cq ++ [set_result r cqe])
  end.

Fixpoint select_loop (fuel : nat) (timeout_time want : Z) (cq : list Overlapped)
  : M Operator (io_result (list Overlapped)) :=
  match fuel with
  | O => out_of_fuel
  | Datatypes.S fuel =>
      n ← on_windows (sys_now api);
      let left_ns := sat_sub timeout_time n in
      if left_ns =? 0 then mret (IoOk cq)
      else
        port ← gets iocp;
        let ms := left_ns / 1000000 in
        r ← on_windows (get_status api port (if ms <=? u32_max then ms else u32_max));
        match r with
        | None =>
            e ← on_windows (get_error api);
            if timed_out e then select_loop fuel timeout_time want cq
            else mret (IoErr (OsError e))
        | Some entries =>
            cq ← take_entries entries cq;
            if want <=? Zlen cq then mret (IoOk cq) else select_loop fuel timeout_time want cq
        end
  end.

Definition do_select (fuel : nat) (timeout : option Z) (want : Z)
  : M Operator (io_result (Z * list Overlapped * option Z)) :=
  start_time ← on_windows (instant api);
  timeout_time ← match timeout with
    | None => mret u64_max
    | Some t => n ← on_windows (sys_now api); mret (get_timeout_time n t)
    end;
  cq <-? select_loop fuel timeout_time want [];
  e ← on_windows (instant api);
  mret (IoOk (Zlen cq, cq, (λ t, sat_sub t (sat_sub e start_time)) <$> timeout)).

Definition select (fuel : nat) (timeout : option Z) (want : Z)
  : M Operator (io_result (Z * list Overlapped * option Z)) :=
  b ← gets entering;
  if (b : bool) then mret (IoOk (0, [], timeout))
  else
    _ ← set_entering true;
    r ← do_select fuel timeout want;
    _ ← set_entering false;
    mret r.

Definition async_cancel (user_data : Z) : M Operator (io_result unit) :=
  panic "not yet implemented: CancelIoEx".

(** ** Submissions *)

(** [while AcceptEx(..) == FALSE]: only a pending call leaves the loop. *)
Fixpoint acceptex_loop (fuel : nat) (fd socket overlapped : Z) : M Operator unit :=
  match fuel with
  | O => out_of_fuel
  | Datatypes.S fuel =>
      b ← on_windows (accept_ex api fd socket overlapped);
      if (b : bool) then mret tt
      else
        e ← on_windows (get_error api);
        if e =? WSA_IO_PENDING then mret tt else acceptex_loop fuel fd socket overlapped
  end.

Definition acceptex (fuel : nat) (user_data fd : Z) (name : SyscallName) : M Operator (io_result unit) :=
  info ← on_windows (protocol api fd);
  match info with
  | None => mret (IoErr (Other "get socket info failed"))
  | Some info =>
      _ <-? add_handle fd;
      socket ← on_windows (new_socket api info);
      if socket =? INVALID_SOCKET then mret (IoErr (Other "add accept operation failed"))
      else
        overlapped ← leak (mkOverlapped fd user_data name socket (- WSAENETDOWN));
        _ ← acceptex_loop fuel fd socket overlapped;
        mret (IoOk tt)
  end.

Definition op_accept (fuel : nat) (user_data fd : Z) : M Operator (io_result unit) :=
  acceptex fuel user_data fd accept.
Definition op_WSAAccept (fuel : nat) (user_data fd : Z) (lpfncondition : bool) : M Operator (io_result unit) :=
  if lpfncondition
  then mret (IoErr (InvalidInput "the WSAAccept in Operator should be called without lpfncondition!"))
  else acceptex fuel user_data fd WSAAccept.

(** [wsarecv] and [wsasend], which differ in the call of Windows; the messages are
    shortened to the part without the name and the error. A zeroed box
    has the socket 0. *)
Definition submit (call : Z → list WSABUF → Z → M S Z) (user_data fd : Z) (buf : list WSABUF)
  (name : SyscallName) : M Operator (io_result unit) :=
  _ <-? add_handle fd;
  overlapped ← leak (mkOverlapped fd user_data name 0 (- WSAEINPROGRESS));
  r ← on_windows (call fd buf overlapped);
  if r =? SOCKET_ERROR then
    errno ← on_windows (get_error api);
    if errno =? WSA_IO_PENDING then mret (IoOk tt) else mret (IoErr (Other "add operation failed"))
  else mret (IoOk tt).

Definition recv_call (flags fd : Z) (buf : list WSABUF) : Z → M S Z := wsa_recv api fd buf flags.
Definition send_call (flags fd : Z) (buf : list WSABUF) : Z → M S Z := wsa_send api fd buf flags.
Definition wsarecv (user_data fd : Z) (buf : list WSABUF) (flags : Z) (name : SyscallName)
  : M Operator (io_result unit) := submit (recv_call flags) user_data fd buf name.
Definition wsasend (user_data fd : Z) (buf : list WSABUF) (flags : Z) (name : SyscallName)
  : M Operator (io_result unit) := submit (send_call flags) user_data fd buf name.

(** [len] and [flags] are [c_int]: negative ones do not fit. *)
Definition op_recv (user_data fd buf len flags : Z) : M Operator (io_result unit) :=
  _ ← assert_ (0 <=? len) "len overflow";
  _ ← assert_ (0 <=? flags) "overflow";
  wsarecv user_data fd [mkWsabuf buf len] flags recv.
Definition op_send (user_data fd buf len flags : Z) : M Operator (io_result unit) :=
  _ ← assert_ (0 <=? len) "len overflow";
  _ ← assert_ (0 <=? flags) "overflow";
  wsasend user_data fd [mkWsabuf buf len] flags send.
Definition op_WSARecv (user_data fd : Z) (buf : list WSABUF) (flags : Z) (lpoverlapped : bool)
  : M Operator (io_result unit) :=
  if lpoverlapped
  then mret (IoErr (InvalidInput "the WSARecv in Operator should be called without lpoverlapped!"))
  else wsarecv user_data fd buf flags WSARecv.
Definition op_WSASend (user_data fd : Z) (buf : list WSABUF) (flags : Z) (lpoverlapped : bool)
  : M Operator (io_result unit) :=
  if lpoverlapped
  then mret (IoErr (InvalidInput "the WSASend in Operator should be called without lpoverlapped!"))
  else wsasend user_data fd buf flags WSASend.
End operator.

(** ** What Windows promises *)

(** [clk] is the clock and [pending] the addresses that Windows holds: a
    selection reports some of them, each once, and gives them up; reading the
    clock takes time and nothing turns it back. *)
Record PortLaws {S P} (api : Port S P) (clk : S → Z) (pending : S → gset Z) : Prop := {
  clk_fits s : 0 ≤ clk s;
  law_now s : ∃ s', sys_now api s = Done (clk s) s' ∧ clk s < clk s' ∧ pending s' = pending s;
  law_instant s : ∃ t s', instant api s = Done t s' ∧ clk s ≤ clk s' ∧ pending s' = pending s;
  law_error s : ∃ e s', get_error api s = Done e s' ∧ clk s ≤ clk s' ∧ pending s' = pending s;
  law_update a b s : ∃ r s', update_context api a b s = Done r s' ∧ clk s ≤ clk s' ∧ pending s' = pending s;
  law_status port ms s : ∃ r s', get_status api port ms s = Done r s' ∧ clk s ≤ clk s'
    ∧ match r with
      | None => pending s' = pending s
      | Some es => NoDup es.*1 ∧ (∀ p, p ∈ es.*1 → p ∈ pending s)
          ∧ pending s' = pending s ∖ list_to_set es.*1
      end;
}.

(** ** Selection *)

(** The calls whose completion [select] understands. *)
Definition resolvable (v : Overlapped) : Prop :=
  match syscall_name v with
  | accept => ov_socket v ≤ i64_max
  | recv | WSARecv | send | WSASend => True
  | _ => False
  end.
(** [r] is the box [v] with the result of a call that moved [n] bytes. *)
Definition resolved (v : Overlapped) (n : Z) (r : Overlapped) : Prop :=
  r = set_result (result r) v ∧
  match syscall_name v with
  | accept => result r = ov_socket v ∨ result r = - WSAENETDOWN
  | _ => result r = n
  end.

Section selection.
Context {S P : Type} (api : Port S P) (clk : S → Z) (pending : S → gset Z).
Context (laws : PortLaws api clk pending).
Implicit Types (o : Operator S) (es : list (Z * Z)) (cq : list Overlapped).

(** Every address that Windows holds is that of a box that can be resolved. *)
Definition wf (o : Operator S) : Prop :=
  ∀ p, p ∈ pending (windows o) → ∃ v, boxes o !! p = Some v ∧ resolvable v.

(** [o'] comes after [o]: the completions [es] were taken out of the boxes and
    away from Windows, and [cq] are their results. *)
Record took (o : Operator S) (es : list (Z * Z)) (cq : list Overlapped) (o' : Operator S) : Prop := {
  took_nodup : NoDup es.*1;
  took_held p : p ∈ es.*1 → p ∈ pending (windows o);
  took_pending : pending (windows o') = pending (windows o) ∖ list_to_set es.*1;
  took_boxes p : boxes o' !! p = if bool_decide (p ∈ es.*1) then None else boxes o !! p;
  took_results : Forall2 (λ e r, ∃ v, boxes o !! e.1 = Some v ∧ resolved v e.2 r) es cq;
  took_same : cpu o' = cpu o ∧ iocp o' = iocp o ∧ entering o' = entering o;
  took_clk : clk (windows o) ≤ clk (windows o');
}.

Lemma took_wf o es cq o' : wf o → took o es cq o' → wf o'.
Proof.
  intros Hwf H p Hp. rewrite (took_pending _ _ _ _ H) in Hp.
  apply elem_of_difference in Hp as [Hp Hn]. rewrite elem_of_list_to_set in Hn.
  destruct (Hwf p Hp) as (v & Hv & Hr). exists v. split; [|done].
  by rewrite (took_boxes _ _ _ _ H), bool_decide_false.
Qed.

Lemma took_none o o' : boxes o' = boxes o → pending (windows o') = pending (windows o) →
  cpu o' = cpu o ∧ iocp o' = iocp o ∧ entering o' = entering o →
  clk (windows o) ≤ clk (windows o') → took o [] [] o'.
Proof.
  intros Hb Hp Hs Hc. split; try done.
  - constructor.
  - intros p Hi. by apply not_elem_of_nil in Hi.
  - rewrite Hp. set_solver.
  - intros p. by rewrite Hb, bool_decide_false by apply not_elem_of_nil.
Qed.

Lemma took_trans o es cq o1 es' cq' o2 :
  took o es cq o1 → took o1 es' cq' o2 → took o (es ++ es') (cq ++ cq') o2.
Proof.
  intros H1 H2.
  assert (Hd : ∀ p, p ∈ es'.*1 → p ∈ pending (windows o) ∧ p ∉ es.*1).
  { intros p Hp. apply (took_held _ _ _ _ H2) in Hp. rewrite (took_pending _ _ _ _ H1) in Hp.
    apply elem_of_difference in Hp as [? Hn]. by rewrite elem_of_list_to_set in Hn. }
  split.
  - rewrite fmap_app. apply NoDup_app. split; [apply H1|]. split; [|apply H2].
    intros p Hp Hp'. by destruct (Hd p Hp').
  - intros p. rewrite fmap_app, elem_of_app. intros [Hp|Hp]; [by apply (took_held _ _ _ _ H1)|by apply Hd].
  - rewrite (took_pending _ _ _ _ H2), (took_pending _ _ _ _ H1), fmap_app, list_to_set_app_L.
    set_solver.
  - intros p. rewrite (took_boxes _ _ _ _ H2), (took_boxes _ _ _ _ H1), fmap_app.
    repeat case_bool_decide; set_solver.
  - apply Forall2_app; [apply H1|]. eapply Forall2_impl; [apply (took_results _ _ _ _ H2)|].
    simpl. intros e r (v & Hv & Hr). exists v. split; [|done].
    rewrite (took_boxes _ _ _ _ H1) in Hv. by case_bool_decide.
  - destruct (took_same _ _ _ _ H1) as (? & ? & ?), (took_same _ _ _ _ H2) as (? & ? & ?).
    split_and!; congruence.
  - pose proof (took_clk _ _ _ _ H1). pose proof (took_clk _ _ _ _ H2). lia.
Qed.

(** ** The steps of a selection *)

(** A call of Windows that leaves the boxes alone. *)
Lemma on_windows_step {A} (m : M S A) o a s' :
  m (windows o) = Done a s' → clk (windows o) ≤ clk s' → pending s' = pending (windows o) →
  ∃ o', on_windows m o = Done a o' ∧ windows o' = s' ∧ took o [] [] o'.
Proof.
  intros Hm Hc Hp. eexists. split; [unfold on_windows; by rewrite Hm|]. split; [done|].
  by apply took_none.
Qed.

Lemma resolve_spec v n o : resolvable v →
  ∃ r o', resolve api v n o = Done r o' ∧ resolved v n (set_result r v) ∧ took o [] [] o'.
Proof.
  intros Hv. unfold resolve, resolvable, resolved in *.
  destruct (syscall_name v) eqn:Hn; try done;
    try (exists n, o; split; [done|]; split; [done|]; by apply took_none).
  destruct (law_update _ _ _ laws (ov_socket v) (from_fd v) (windows o)) as (b & s' & Hu & Hc & Hp).
  destruct (on_windows_step _ o _ _ Hu Hc Hp) as (o' & Ho & _ & Ht).
  destruct b; eexists _, o'; (split; [erewrite bind_done by exact Ho; cbn|]).
  - unfold assert_. rewrite (proj2 (Z.leb_le _ _)) by done. reflexivity.
  - split; [|done]. split; [done|]. by left.
  - reflexivity.
  - split; [|done]. split; [done|]. by right.
Qed.

(** Taking the boxes of completions that Windows has already given up. *)
Lemma take_entries_spec es : ∀ cq o,
  NoDup es.*1 → (∀ p, p ∈ es.*1 → ∃ v, boxes o !! p = Some v ∧ resolvable v) →
  ∃ cq' o', take_entries api es cq o = Done (cq ++ cq') o'
    ∧ Forall2 (λ e r, ∃ v, boxes o !! e.1 = Some v ∧ resolved v e.2 r) es cq'
    ∧ (∀ p, boxes o' !! p = if bool_decide (p ∈ es.*1) then None else boxes o !! p)
    ∧ pending (windows o') = pending (windows o) ∧ clk (windows o) ≤ clk (windows o')
    ∧ cpu o' = cpu o ∧ iocp o' = iocp o ∧ entering o' = entering o.
Proof.
  induction es as [|[p n] es IH]; intros cq o Hnd Hin; simpl.
  - exists [], o. rewrite app_nil_r. split_and!; try done.
  - apply NoDup_cons in Hnd as [Hp Hnd].
    destruct (Hin p) as (v & Hv & Hr); [left|].
    erewrite bind_done by (unfold from_raw; rewrite Hv; reflexivity).
    destruct (resolve_spec v n (set_boxes (delete p) o) Hr) as (r & o1 & H1 & Hres & Ht).
    erewrite bind_done by exact H1.
    assert (Hb1 : ∀ q, boxes o1 !! q = delete p (boxes o) !! q).
    { intros q. rewrite (took_boxes _ _ _ _ Ht). by rewrite bool_decide_false by apply not_elem_of_nil. }
    destruct (IH (cq ++ [set_result r v]) o1 Hnd) as (cq' & o2 & H2 & Hf & Hb & Hpe & Hc & Hs1 & Hs2 & Hs3).
    { intros q Hq. destruct (Hin q) as (w & Hw & ?); [by right|]. exists w. split; [|done].
      rewrite Hb1, lookup_delete_ne; [done|]. by intros ->. }
    exists (set_result r v :: cq'), o2. split; [by rewrite H2, <-app_assoc|]. split_and!.
    + constructor; [by exists v|]. eapply Forall2_impl; [exact Hf|]. simpl.
      intros e r' (w & Hw & ?). exists w. split; [|done]. rewrite Hb1 in Hw.
      by apply lookup_delete_Some in Hw as [_ ?].
    + intros q. rewrite Hb, Hb1. destruct (decide (q = p)) as [->|Hq].
      * rewrite (bool_decide_true (p ∈ _ :: _)) by left. rewrite lookup_delete_eq. by case_bool_decide.
      * rewrite lookup_delete_ne by done. do 2 case_bool_decide; set_solver.
    + rewrite Hpe, (took_pending _ _ _ _ Ht). simpl. set_solver.
    + pose proof (took_clk _ _ _ _ Ht). simpl in *. lia.
    + rewrite Hs1. apply (took_same _ _ _ _ Ht).
    + rewrite Hs2. apply (took_same _ _ _ _ Ht).
    + rewrite Hs3. apply (took_same _ _ _ _ Ht).
Qed.

(** One look at the port: some completions, or the error. *)
Lemma status_spec port ms o : wf o →
  ∃ r o1, on_windows (get_status api port ms) o = Done r o1 ∧
    match r with
    | None => took o [] [] o1
    | Some es => ∀ cq, ∃ cq' o', take_entries api es cq o1 = Done (cq ++ cq') o' ∧ took o es cq' o'
    end.
Proof.
  intros Hwf. destruct (law_status _ _ _ laws port ms (windows o)) as ([es|] & s' & Hg & Hc & Hr).
  - destruct Hr as (Hnd & Hin & Hp). eexists _, _.
    split; [unfold on_windows; rewrite Hg; reflexivity|]. intros cq.
    edestruct (take_entries_spec es cq (mkOperator (cpu o) (iocp o) (entering o) (boxes o) s')) as (cq' & o' & H & Hf & Hb & Hpe & Hcl & Hs); [done| |].
    { intros p Hq. apply Hwf. by apply Hin. }
    exists cq', o'. split; [exact H|]. simpl in *. split; try done.
    + by rewrite Hpe.
    + lia.
  - destruct (on_windows_step _ o _ _ Hg Hc Hr) as (o1 & H1 & _ & Ht). by exists None, o1.
Qed.

Definition loop_ends (deadline want : Z) (cq : list Overlapped) (o : Operator S)
  (r : io_result (list Overlapped)) (o' : Operator S) : Prop :=
  ∃ es cq', took o es cq' o' ∧
    match r with
    | IoOk c => c = cq ++ cq' ∧ (want ≤ Zlen c ∨ deadline ≤ clk (windows o'))
    | IoErr _ => True
    end.

Lemma loop_ends_after deadline want cq o es cq1 o1 r o' :
  took o es cq1 o1 → loop_ends deadline want (cq ++ cq1) o1 r o' → loop_ends deadline want cq o r o'.
Proof.
  intros H1 (es2 & cq2 & H2 & Hr). exists (es ++ es2), (cq1 ++ cq2).
  split; [by eapply took_trans|]. by rewrite app_assoc.
Qed.

Lemma select_loop_spec fuel : ∀ deadline want cq o, wf o →
  (Z.to_nat (deadline - clk (windows o)) < fuel)%nat →
  ∃ r o', select_loop api fuel deadline want cq o = Done r o' ∧ loop_ends deadline want cq o r o'.
Proof.
  induction fuel as [|fuel IH]; intros deadline want cq o Hwf Hf; [lia|]. simpl.
  destruct (law_now _ _ _ laws (windows o)) as (s1 & Hn & Hc & Hp).
  destruct (on_windows_step _ o _ _ Hn ltac:(lia) Hp) as (o1 & H1 & Hw1 & Ht1).
  erewrite bind_done by exact H1.
  unfold sat_sub. destruct (Z.eqb_spec (Z.max 0 (deadline - clk (windows o))) 0) as [Hz|Hz].
  { exists (IoOk cq), o1. split; [done|]. exists [], []. split; [done|]. rewrite app_nil_r.
    split; [done|]. right. rewrite Hw1. lia. }
  erewrite bind_done by reflexivity.
  destruct (status_spec (iocp o1) (let ms := Z.max 0 (deadline - clk (windows o)) / 1000000 in
    if ms <=? u32_max then ms else u32_max) o1 (took_wf _ _ _ _ Hwf Ht1)) as (r & o2 & H2 & Hr).
  erewrite bind_done by exact H2.
  (* going round again *)
  assert (Hgo : ∀ es cq2 o3, took o1 es cq2 o3 → ∃ r o',
    select_loop api fuel deadline want (cq ++ cq2) o3 = Done r o' ∧ loop_ends deadline want cq o r o').
  { intros es cq2 o3 Ht. pose proof (took_trans _ _ _ _ _ _ _ Ht1 Ht) as Ht'.
    destruct (IH deadline want (cq ++ cq2) o3) as (r' & o' & Hs & He).
    - eapply took_wf; [|exact Ht']. done.
    - pose proof (took_clk _ _ _ _ Ht). rewrite Hw1 in *. lia.
    - exists r', o'. split; [done|]. by eapply loop_ends_after. }
  destruct r as [es|].
  - destruct (Hr cq) as (cq2 & o3 & H3 & Ht3). erewrite bind_done by exact H3.
    destruct (Z.leb_spec want (Zlen (cq ++ cq2))) as [Hl|Hl]; [|by eapply Hgo].
    exists (IoOk (cq ++ cq2)), o3. split; [done|]. exists es, cq2.
    split; [exact (took_trans _ _ _ _ _ _ _ Ht1 Ht3)|]. split; [done|]. by left.
  - destruct (law_error _ _ _ laws (windows o2)) as (e & s3 & He & Hc3 & Hp3).
    destruct (on_windows_step _ o2 _ _ He Hc3 Hp3) as (o3 & H3 & _ & Ht3).
    erewrite bind_done by exact H3. pose proof (took_trans _ _ _ _ _ _ _ Hr Ht3) as Ht.
    destruct (timed_out e).
    + specialize (Hgo _ _ _ Ht). simpl in Hgo. by rewrite app_nil_r in Hgo.
    + exists (IoErr (OsError e)), o3. split; [done|]. eexists _, _.
      by split; [exact (took_trans _ _ _ _ _ _ _ Ht1 Ht)|].
Qed.

(** Rounds that are enough: each takes a nanosecond at least. *)
Definition rounds (timeout : option Z) (o : Operator S) : Z :=
  match timeout with Some t => t | None => u64_max - clk (windows o) end.
Definition deadline_of (timeout : option Z) (o : Operator S) : Z :=
  match timeout with Some t => get_timeout_time (clk (windows o)) t | None => u64_max end.

(** What a selection that was let in does: the completions [es] are taken, each
    box once, and unless an error of Windows loses them their results are
    returned, as many as wanted or with the time over. *)
Definition selected (timeout : option Z) (want : Z) (o : Operator S)
  (r : io_result (Z * list Overlapped * option Z)) (o' : Operator S) : Prop :=
  ∃ es cq, took o es cq o' ∧
    match r with
    | IoOk (n, c, left_time) => n = Zlen c ∧ c = cq
        ∧ (want ≤ n ∨ deadline_of timeout o ≤ clk (windows o'))
        ∧ match timeout, left_time with
          | Some t, Some l => 0 ≤ l ≤ Z.max 0 t
          | None, None => True
          | _, _ => False
          end
    | IoErr _ => True
    end.

Lemma iocp_deadline timeout o : (∀ t, timeout = Some t → 0 ≤ t) →
  ∃ d o1, match timeout with
          | None => mret u64_max
          | Some t => n ← on_windows (sys_now api); mret (get_timeout_time n t)
          end o = Done d o1 ∧ took o [] [] o1 ∧ d = deadline_of timeout o
    ∧ d - clk (windows o1) ≤ rounds timeout o.
Proof.
  intros Ht. destruct timeout as [t|]; simpl.
  - destruct (law_now _ _ _ laws (windows o)) as (s1 & Hn & Hc & Hp).
    destruct (on_windows_step _ o _ _ Hn ltac:(lia) Hp) as (o1 & H1 & Hw1 & Ht1).
    erewrite bind_done by exact H1. eexists _, o1. split; [done|]. split; [done|]. split; [done|].
    specialize (Ht t eq_refl). pose proof (clk_fits _ _ _ laws (windows o)).
    unfold get_timeout_time, try_u64, sat_add. rewrite Hw1. cases; breflect; lia.
  - exists u64_max, o. split; [done|]. split; [by apply took_none|]. split; [done|]. lia.
Qed.

Lemma iocp_do_select fuel timeout want o :
  wf o → (∀ t, timeout = Some t → 0 ≤ t) → rounds timeout o < Z.of_nat fuel → (0 < fuel)%nat →
  ∃ r o', do_select api fuel timeout want o = Done r o' ∧ selected timeout want o r o'.
Proof.
  intros Hwf Ht Hf Hpos. unfold do_select.
  destruct (law_instant _ _ _ laws (windows o)) as (t0 & s1 & Hi & Hc & Hp).
  destruct (on_windows_step _ o _ _ Hi Hc Hp) as (o1 & H1 & Hw1 & Ht1).
  erewrite bind_done by exact H1.
  destruct (iocp_deadline timeout o1 Ht) as (d & o2 & H2 & Ht2 & Hd & Hr).
  erewrite bind_done by exact H2. pose proof (took_trans _ _ _ _ _ _ _ Ht1 Ht2) as Ht12.
  destruct (select_loop_spec fuel d want [] o2) as (r & o3 & H3 & es & cq & Ht3 & Hres).
  { by eapply took_wf. }
  { unfold rounds in *. pose proof (took_clk _ _ _ _ Ht1). destruct timeout; lia. }
  pose proof (took_trans _ _ _ _ _ _ _ Ht12 Ht3) as Ht13. simpl in Ht13.
  unfold try_. erewrite bind_done by exact H3. destruct r as [c|e].
  2:{ eexists _, o3. split; [done|]. by exists es, cq. }
  destruct Hres as [-> Hw].
  destruct (law_instant _ _ _ laws (windows o3)) as (t4 & s4 & Hi4 & Hc4 & Hp4).
  destruct (on_windows_step _ o3 _ _ Hi4 Hc4 Hp4) as (o4 & H4 & Hw4 & Ht4).
  erewrite bind_done by exact H4. eexists _, o4. split; [done|]. exists es, cq.
  pose proof (took_trans _ _ _ _ _ _ _ Ht13 Ht4) as Ht14. rewrite !app_nil_r in Ht14.
  split; [done|]. split; [done|]. split; [done|]. split.
  - destruct Hw as [Hw|Hw]; [by left|right]. rewrite Hw4, Hd in *.
    assert (deadline_of timeout o ≤ deadline_of timeout o1); [|lia].
    pose proof (took_clk _ _ _ _ Ht1). destruct timeout; simpl; [|lia].
    unfold get_timeout_time, sat_add. case_match; lia.
  - destruct timeout; simpl; [|done]. unfold sat_sub. lia.
Qed.

(** [select] when no other thread is in it. *)
Lemma iocp_select_free fuel timeout want o :
  wf o → entering o = false → (∀ t, timeout = Some t → 0 ≤ t) →
  rounds timeout o < Z.of_nat fuel → (0 < fuel)%nat →
  ∃ r o', select api fuel timeout want o = Done r o' ∧ entering o' = false ∧ wf o'
    ∧ ∃ o1, selected timeout want (mkOperator (cpu o) (iocp o) true (boxes o) (windows o)) r o1
        ∧ boxes o' = boxes o1 ∧ windows o' = windows o1.
Proof.
  intros Hwf He Ht Hf Hpos. unfold select. erewrite bind_done by reflexivity. rewrite He.
  erewrite bind_done by reflexivity.
  set (o0 := mkOperator (cpu o) (iocp o) true (boxes o) (windows o)).
  assert (Hwf0 : wf o0) by exact Hwf.
  destruct (iocp_do_select fuel timeout want o0 Hwf0 Ht Hf Hpos) as (r & o1 & H1 & Hs).
  erewrite bind_done by exact H1. erewrite bind_done by reflexivity.
  eexists _, _. split; [done|]. split; [done|]. split; [|by exists o1].
  destruct Hs as (es & cq & Htk & _). exact (took_wf _ _ _ _ Hwf0 Htk).
Qed.

(** C29. A selection on the completion port ends and loses no call: when every
    address that Windows holds is that of a box of a supported call, a selection
    by the only thread in the operator returns after at most one round for each
    nanosecond of its time limit. Each completion that Windows reports is taken
    out of the boxes exactly once and no other box is touched; on success the
    results are those completions in order, each the box that was submitted
    with the bytes moved or the accepted socket as its result, and there are as
    many as wanted unless the time is over; and the operator is free for the
    next selection and still well formed. *)
Theorem iocp_select_completes fuel timeout want o :
  wf o → entering o = false → (∀ t, timeout = Some t → 0 ≤ t) →
  rounds timeout o < Z.of_nat fuel → (0 < fuel)%nat →
  ∃ r o', select api fuel timeout want o = Done r o' ∧ entering o' = false ∧ wf o'
    ∧ ∃ o1, selected timeout want (mkOperator (cpu o) (iocp o) true (boxes o) (windows o)) r o1
        ∧ boxes o' = boxes o1 ∧ windows o' = windows o1.
Proof. apply iocp_select_free. Qed.
End selection.

(** ** Submission *)

(** A call that Windows takes holds the address of its box; one that fails does
    not. Binding a handle holds nothing. *)
Record SubmitLaws {S P} (api : Port S P) (pending : S → gset Z)
  (call : Z → list WSABUF → Z → M S Z) : Prop := {
  law_associate h port key s : ∃ r s', associate api h port key s = Done r s' ∧ pending s' = pending s;
  law_modes h s : ∃ r s', notification_modes api h s = Done r s' ∧ pending s' = pending s;
  law_errno s : ∃ e s', get_error api s = Done e s' ∧ pending s' = pending s;
  law_call fd buf p s : ∃ r s', call fd buf p s = Done r s' ∧
    (if r =? SOCKET_ERROR
     then ∃ e s'', get_error api s' = Done e s''
            ∧ pending s'' = if e =? WSA_IO_PENDING then pending s ∪ {[ p ]} else pending s
     else pending s' = pending s ∪ {[ p ]});
}.

Section submission.
Context {S P : Type} (api : Port S P) (clk : S → Z) (pending : S → gset Z).
Context (call : Z → list WSABUF → Z → M S Z) (laws : SubmitLaws api pending call).
Implicit Types o : Operator S.

Lemma on_windows_pending {A} (m : M S A) o a s' :
  m (windows o) = Done a s' →
  ∃ o', on_windows m o = Done a o' ∧ windows o' = s' ∧ boxes o' = boxes o ∧ entering o' = entering o.
Proof. intros Hm. eexists. split; [unfold on_windows; by rewrite Hm|]. done. Qed.

(** [add_handle] succeeds or fails and leaves boxes and pending calls alone. *)
Lemma add_handle_spec h o :
  ∃ r o', add_handle api h o = Done r o' ∧ boxes o' = boxes o ∧ entering o' = entering o
    ∧ pending (windows o') = pending (windows o).
Proof.
  unfold add_handle. do 2 erewrite bind_done by reflexivity.
  destruct (law_associate _ _ _ laws h (iocp o) (cpu o) (windows o)) as (ret & s1 & Ha & Hp1).
  destruct (on_windows_pending _ o _ _ Ha) as (o1 & H1 & Hw1 & Hb1 & He1).
  erewrite bind_done by exact H1.
  assert (∃ dup o2, match ret with
    | Some _ => mret false
    | None => e ← on_windows (get_error api); mret (e =? ERROR_INVALID_PARAMETER)
    end o1 = Done dup o2 ∧ boxes o2 = boxes o ∧ entering o2 = entering o
    ∧ pending (windows o2) = pending (windows o)) as (dup & o2 & H2 & Hb2 & He2 & Hp2).
  { destruct ret; [exists false, o1; by rewrite Hw1|].
    destruct (law_errno _ _ _ laws (windows o1)) as (e & s2 & He & Hp2).
    destruct (on_windows_pending _ o1 _ _ He) as (o2 & H2 & Hw2 & Hb2 & He2).
    erewrite bind_done by exact H2. eexists _, o2. split; [done|]. rewrite Hw2. split_and!; congruence. }
  erewrite bind_done by exact H2. destruct dup; [by eexists _, o2|].
  destruct (law_modes _ _ _ laws h (windows o2)) as (b & s3 & Hm & Hp3).
  destruct (on_windows_pending _ o2 _ _ Hm) as (o3 & H3 & Hw3 & Hb3 & He3).
  erewrite bind_done by exact H3. destruct b.
  { eexists _, o3. split; [done|]. rewrite Hw3. split_and!; congruence. }
  destruct (law_errno _ _ _ laws (windows o3)) as (e & s4 & He & Hp4).
  destruct (on_windows_pending _ o3 _ _ He) as (o4 & H4 & Hw4 & Hb4 & He4).
  erewrite bind_done by exact H4. eexists _, o4. split; [done|]. rewrite Hw4. split_and!; congruence.
Qed.

(** What a submission does: on success one new box, that of the call, is with
    Windows; a call that Windows refuses leaves its box behind. *)
Definition submitted (user_data fd : Z) (name : SyscallName) (o : Operator S) (r : io_result unit)
  (o' : Operator S) : Prop :=
  let p := fresh (dom (boxes o)) in
  let v := mkOverlapped fd user_data name 0 (- WSAEINPROGRESS) in
  match r with
  | IoOk _ => boxes o' = <[p := v]> (boxes o) ∧ pending (windows o') = pending (windows o) ∪ {[ p ]}
  | IoErr _ => (boxes o' = boxes o ∨ boxes o' = <[p := v]> (boxes o))
               ∧ pending (windows o') = pending (windows o)
  end.

Lemma iocp_submit_spec user_data fd buf name o :
  ∃ r o', submit api call user_data fd buf name o = Done r o' ∧ entering o' = entering o
    ∧ submitted user_data fd name o r o'.
Proof.
  unfold submit, try_. destruct (add_handle_spec fd o) as (r & o1 & H1 & Hb1 & He1 & Hp1).
  erewrite bind_done by exact H1. destruct r as [[]|e].
  2:{ eexists _, o1. split; [done|]. split; [done|]. split; [by left|done]. }
  erewrite bind_done by reflexivity. rewrite Hb1. set (p := fresh (dom (boxes o))).
  set (v := mkOverlapped fd user_data name 0 (- WSAEINPROGRESS)).
  set (o2 := set_boxes <[p := v]> o1).
  assert (Hb2 : boxes o2 = <[p := v]> (boxes o)) by (simpl; by rewrite Hb1).
  destruct (law_call _ _ _ laws fd buf p (windows o2)) as (r & s3 & Hc & Hr).
  destruct (on_windows_pending _ o2 _ _ Hc) as (o3 & H3 & Hw3 & Hb3 & He3).
  erewrite bind_done by exact H3. destruct (r =? SOCKET_ERROR).
  - destruct Hr as (e & s4 & He & Hp4). rewrite <-Hw3 in He.
    destruct (on_windows_pending _ o3 _ _ He) as (o4 & H4 & Hw4 & Hb4 & He4).
    erewrite bind_done by exact H4.
    destruct (e =? WSA_IO_PENDING); eexists _, o4; (split; [done|]); (split; [simpl in *; congruence|]);
      rewrite <-Hw4 in Hp4; unfold submitted; fold p v; simpl in Hp4; rewrite Hp4, Hp1; [|split; [right|]];
      try split; congruence.
  - eexists _, o3. split; [done|]. split; [simpl in *; congruence|].
    unfold submitted. fold p v. rewrite Hw3, Hr, Hb3, Hb2. simpl. by rewrite Hp1.
Qed.

Definition transfer (name : SyscallName) : Prop :=
  name = recv ∨ name = WSARecv ∨ name = send ∨ name = WSASend.

Lemma transfer_resolved name v n r : transfer name → resolved v n r → syscall_name v = name →
  resolvable v ∧ result r = n ∧ token r = token v ∧ from_fd r = from_fd v ∧ syscall_name r = name.
Proof.
  unfold resolved, resolvable. intros Hn [Heq Hr] Hv. rewrite Hv in *.
  assert (token r = token v ∧ from_fd r = from_fd v ∧ syscall_name r = name) by (by rewrite Heq).
  destruct Hn as [->|[->|[->| ->]]]; done.
Qed.

Lemma submit_wf user_data fd name o r o' : transfer name →
  wf pending o → submitted user_data fd name o r o' → wf pending o'.
Proof.
  intros Hn Hwf Hs q Hq.
  assert (Hold : q ∈ pending (windows o) → q ≠ fresh (dom (boxes o))).
  { intros Hp ->. destruct (Hwf _ Hp) as (v & Hv & _).
    apply (is_fresh (dom (boxes o))), elem_of_dom. by exists v. }
  destruct r as [u|e]; simpl in Hs.
  - destruct Hs as [-> Hp]. rewrite Hp in Hq. apply elem_of_union in Hq as [Hq|Hq].
    + rewrite lookup_insert_ne by (symmetry; by apply Hold). by apply Hwf.
    + apply elem_of_singleton in Hq as ->. rewrite lookup_insert_eq. eexists. split; [done|].
      unfold resolvable. simpl. by destruct Hn as [->|[->|[->| ->]]].
  - destruct Hs as [Hb Hp]. rewrite Hp in Hq. destruct Hb as [-> | ->]; [by apply Hwf|].
    rewrite lookup_insert_ne by (symmetry; by apply Hold). by apply Hwf.
Qed.

(** C30. A receive or send that Windows takes comes back with its token: the
    submission gives Windows the address of one new box and keeps the operator
    well formed; a later selection that succeeds returns an entry with the
    token, socket and call of the submission and frees the box if Windows is
    through with it, and leaves the box alone if it is not. *)
Theorem iocp_submission_completes user_data fd buf name o o' fuel timeout want n c left_time o2 :
  PortLaws api clk pending → transfer name → wf pending o →
  submit api call user_data fd buf name o = Done (IoOk tt) o' →
  entering o = false → (∀ t, timeout = Some t → 0 ≤ t) →
  rounds clk timeout o' < Z.of_nat fuel → (0 < fuel)%nat →
  select api fuel timeout want o' = Done (IoOk (n, c, left_time)) o2 →
  ∃ p, p ∈ pending (windows o') ∧ (p ∉ dom (boxes o)) ∧ wf pending o2 ∧
    (p ∉ pending (windows o2) → boxes o2 !! p = None ∧
       ∃ r, r ∈ c ∧ token r = user_data ∧ from_fd r = fd ∧ syscall_name r = name) ∧
    (p ∈ pending (windows o2) → boxes o2 !! p = boxes o' !! p).
Proof.
  intros Hport Hn Hwf Hsub He Ht Hf Hpos Hsel.
  destruct (iocp_submit_spec user_data fd buf name o) as (r & o1 & H1 & He1 & Hs).
  rewrite Hsub in H1. injection H1 as <- <-. pose proof (submit_wf _ _ _ _ _ _ Hn Hwf Hs) as Hwf'.
  destruct (iocp_select_free api clk pending Hport fuel timeout want o') as (r & o3 & H3 & _ & Hwf3 & o4 & Hd & Hb & Hw);
    [done|congruence|done..|].
  rewrite Hsel in H3. injection H3 as <- <-. simpl in Hs. destruct Hs as [Hbo Hpo].
  set (p := fresh (dom (boxes o))) in *. destruct Hd as (es & cq & Htk & _ & -> & _).
  exists p. split; [rewrite Hpo; set_solver|]. split; [apply is_fresh|]. split; [done|].
  rewrite Hw, Hb, (took_pending _ _ _ _ _ _ Htk), (took_boxes _ _ _ _ _ _ Htk). simpl. split.
  - intros Hnp. assert (p ∈ es.*1) as Hin.
    { destruct (decide (p ∈ es.*1)); [done|]. exfalso. apply Hnp. rewrite Hpo. set_solver. }
    rewrite bool_decide_true by done. split; [done|].
    apply list_elem_of_fmap in Hin as ([q k] & Hq & Hin). simpl in Hq. subst q.
    apply list_elem_of_lookup in Hin as [i Hi].
    destruct (Forall2_lookup_l _ _ _ _ _ (took_results _ _ _ _ _ _ Htk) Hi) as (r & Hr & v & Hv & Hres).
    simpl in Hv, Hres. rewrite Hbo, lookup_insert_eq in Hv. injection Hv as <-.
    destruct (transfer_resolved name _ _ _ Hn Hres eq_refl) as (_ & _ & ? & ? & ?).
    exists r. split; [by eapply list_elem_of_lookup_2|]. done.
  - intros Hp. rewrite bool_decide_false; [done|]. set_solver.
Qed.

(** A call that Windows refuses leaves its box behind for good: no selection
    ever takes it. *)
Theorem refused_call_leaks user_data fd buf name o e o' :
  submit api call user_data fd buf name o = Done (IoErr e) o' → boxes o' ≠ boxes o → wf pending o →
  let p := fresh (dom (boxes o)) in
  boxes o' !! p ≠ None ∧ (p ∉ pending (windows o'))
  ∧ ∀ es cq o2, took clk pending o' es cq o2 → boxes o2 !! p = boxes o' !! p ∧ p ∉ pending (windows o2).
Proof.
  intros Hsub Hne Hwf p. destruct (iocp_submit_spec user_data fd buf name o) as (r & o1 & H1 & _ & Hs).
  rewrite Hsub in H1. injection H1 as <- <-. simpl in Hs. destruct Hs as [[Hb|Hb] Hp]; [done|].
  fold p in Hb. assert (Hnp : p ∉ pending (windows o')).
  { rewrite Hp. intros Hin. destruct (Hwf _ Hin) as (v & Hv & _).
    apply (is_fresh (dom (boxes o))), elem_of_dom. by exists v. }
  split; [by rewrite Hb, lookup_insert_eq|]. split; [done|]. intros es cq o2 Htk.
  rewrite (took_boxes _ _ _ _ _ _ Htk), (took_pending _ _ _ _ _ _ Htk).
  rewrite bool_decide_false by (intros Hin; by apply Hnp, (took_held _ _ _ _ _ _ Htk)). set_solver.
Qed.
End submission.

(** ** Accepting *)

Section accepting.
Context {S P : Type} (api : Port S P).
Implicit Types o : Operator S.

(** [AcceptEx] on a socket for which it keeps failing, other than with a pending
    call, never leaves the loop: no error of it reaches the caller. *)
Theorem acceptex_spins (bad : S → Prop) fd socket p :
  (∀ s, bad s → ∃ s1 e s2, accept_ex api fd socket p s = Done false s1
     ∧ get_error api s1 = Done e s2 ∧ e ≠ WSA_IO_PENDING ∧ bad s2) →
  ∀ fuel o, bad (windows o) → acceptex_loop api fuel fd socket p o = NoFuel.
Proof.
  intros Hbad fuel. induction fuel as [|fuel IH]; intros o Ho; [done|]. simpl.
  destruct (Hbad _ Ho) as (s1 & e & s2 & Ha & He & Hne & Hb).
  destruct (on_windows_pending _ o _ _ Ha) as (o1 & H1 & Hw1 & _ & _).
  erewrite bind_done by exact H1. rewrite <-Hw1 in He.
  destruct (on_windows_pending _ o1 _ _ He) as (o2 & H2 & Hw2 & _ & _).
  erewrite bind_done by exact H2. rewrite (proj2 (Z.eqb_neq _ _)) by done.
  apply IH. by rewrite Hw2.
Qed.

(** A completed [WSAAccept], which [Operator::WSAAccept] submits, makes the
    selection panic with [entering] set: every later selection returns at once
    with nothing. *)
Theorem wsaaccept_wedges fuel timeout want o p n rest v cq :
  boxes o !! p = Some v → syscall_name v = WSAAccept →
  (∃ o', take_entries api ((p, n) :: rest) cq o = Panic "unsupported" o' ∧ entering o' = entering o)
  ∧ (entering o = true → select api fuel timeout want o = Done (IoOk (0, [], timeout)) o).
Proof.
  intros Hp Hv. split.
  - simpl. erewrite bind_done by (unfold from_raw; rewrite Hp; reflexivity).
    exists (set_boxes (delete p) o). split; [|done]. unfold resolve. rewrite Hv. done.
  - intros He. unfold select. erewrite bind_done by reflexivity. by rewrite He.
Qed.
End accepting.

(** ** A small Windows *)

Module WinOperatorExamples.

(** The time, the addresses held and the last error; every receive is pending
    at first and gets six bytes, every send is refused. *)
Record Os : Type := mkOs { time : Z; held : gset Z; errno : Z }.

Definition tick (s : Os) : Os := mkOs (Z.max 0 (time s) + 10) (held s) (errno s).
Definition clk_of (s : Os) : Z := Z.max 0 (time s).

Definition os : Port Os unit := {|
  create_port := mret (Some 7);
  associate _ _ _ := mret (Some 7);
  notification_modes _ := mret true;
  get_status _ _ := λ s,
    match elements (held s) with
    | [] => Done None (mkOs (time s) (held s) 258)
    | p :: _ => Done (Some [(p, 6)]) (mkOs (time s) (held s ∖ {[ p ]}) 0)
    end;
  protocol _ := mret (Some tt);
  new_socket _ := mret 90;
  accept_ex _ _ _ := mret false;
  update_context _ _ := mret true;
  wsa_recv _ _ _ p := λ s, Done (-1) (mkOs (time s) (held s ∪ {[ p ]}) WSA_IO_PENDING);
  wsa_send _ _ _ _ := λ s, Done (-1) (mkOs (time s) (held s) 10054);
  get_error := gets errno;
  sys_now := λ s, Done (clk_of s) (tick s);
  instant := λ s, Done (clk_of s) (tick s);
|}.

Definition idle : Operator Os := mkOperator 0 7 false ∅ (mkOs 1000 ∅ 0).

Lemma os_laws : PortLaws os clk_of held.
Proof.
  split; unfold clk_of; simpl; try (intros; eexists _, _; split; [reflexivity|]; simpl; split; [lia|done]).
  - intros s. lia.
  - intros s. eexists. split; [reflexivity|]. simpl. split; [lia|done].
  - intros _ _ s. destruct (elements (held s)) as [|p l] eqn:He; eexists _, _; (split; [reflexivity|]);
      simpl; (split; [lia|done]) || split; [lia|].
    assert (p ∈ held s) by (apply elem_of_elements; rewrite He; left).
    split; [apply NoDup_singleton|]. split; [set_solver|]. f_equal. set_solver.
Qed.

Lemma os_recv_laws : SubmitLaws os held (recv_call os 0).
Proof.
  split; intros; simpl; try by eexists _, _.
  eexists _, _. split; [reflexivity|]. eexists _, _. split; [reflexivity|]. done.
Qed.

(** One receive is submitted and selected. *)
Definition one : Operator Os :=
  match submit os (recv_call os 0) 77 5 [mkWsabuf 4096 10] recv idle with
  | Done _ o => o
  | _ => idle
  end.

Lemma idle_wf : wf held idle.
Proof. intros p Hp. by apply not_elem_of_empty in Hp. Qed.
Lemma one_wf : wf held one.
Proof.
  eapply (submit_wf held 77 5 recv idle (IoOk tt)); [by left|apply idle_wf|]. split; reflexivity.
Qed.

Lemma iocp_select_completes_witness :
  ∃ r o', select os 30 (Some 25) 1 one = Done r o' ∧ entering o' = false ∧ wf held o'
    ∧ ∃ o1, selected clk_of held (Some 25) 1 (mkOperator (cpu one) (iocp one) true (boxes one) (windows one)) r o1
        ∧ boxes o' = boxes o1 ∧ windows o' = windows o1.
Proof.
  apply (iocp_select_completes os clk_of held os_laws 30 (Some 25) 1 one one_wf).
  - reflexivity.
  - by intros t [= <-].
  - reflexivity.
  - lia.
Defined.

Example one_selected :
  match select os 30 (Some 25) 1 one with
  | Done (IoOk (n, c, left_time)) o => n = 1 ∧ token <$> c = [77] ∧ result <$> c = [6]
      ∧ left_time = Some 0 ∧ size (boxes o) = 0%nat
  | _ => False
  end.
Proof. vm_compute. done. Qed.

Lemma iocp_submission_completes_witness :
  ∃ n c l o2, select os 30 (Some 25) 1 one = Done (IoOk (n, c, l)) o2 ∧
  ∃ p, p ∈ held (windows one) ∧ (p ∉ dom (boxes idle)) ∧ wf held o2 ∧
    (p ∉ held (windows o2) → boxes o2 !! p = None ∧
       ∃ r, r ∈ c ∧ token r = 77 ∧ from_fd r = 5 ∧ syscall_name r = recv) ∧
    (p ∈ held (windows o2) → boxes o2 !! p = boxes one !! p).
Proof.
  eexists _, _, _, _. split; [vm_compute; reflexivity|].
  eapply (iocp_submission_completes os clk_of held (recv_call os 0) os_recv_laws 77 5
    [mkWsabuf 4096 10] recv idle one 30 (Some 25) 1 _ _ _ _ os_laws).
  - by left.
  - apply idle_wf.
  - reflexivity.
  - reflexivity.
  - by intros t [= <-].
  - reflexivity.
  - lia.
  - vm_compute. reflexivity.
Defined.

(** A refused send leaves its box behind. *)
Example send_leaks :
  match submit os (send_call os 0) 78 5 [mkWsabuf 4096 10] send idle with
  | Done r o => r = IoErr (Other "add operation failed") ∧ size (boxes o) = 1%nat ∧ held (windows o) = ∅
  | _ => False
  end.
Proof. vm_compute. done. Qed.
End WinOperatorExamples.
