(* ===== verification/WinLoop.v ===== *)
(** * WinLoop: an event loop over a completion port

    Models the parts of [core/src/net/event_loop.rs] for Windows with the
    feature [iocp]: [adapt_iocp], and the macro [impl_iocp!] that submits calls.
    The operator of [WinOperator] is kept in the extension of the loop; tokens,
    the table of waiting calls and the resumption of coroutines are those of
    [EventLoop]. *)

From stdpp Require Import sorting base numbers strings gmap list.
From S2P Require Import Prelude Common QueueIface Coroutine Scheduler CoPool Selector Operator Beans.
From S2P Require Import EventLoop EventLoopRuns CoPoolRuns WinSyscall WinOperator.

(** The operator of a loop. *)
Class HasIocp (S X : Type) : Type := {
  iocp_of : X → Operator S;
  set_iocp : Operator S → X → X;
}.
Class HasIocpLaws (S X : Type) `{!HasIocp S X} : Prop := {
  iocp_set_iocp (o : Operator S) (x : X) : iocp_of (set_iocp o x) = o;
}.

(** The calls that [impl_iocp!] makes. *)
Inductive iocp_op : Type :=
| IAccept (fd : Z)
| IRecv (fd buf len flags : Z)
| IWSARecv (fd : Z) (buf : list WSABUF) (flags : Z) (lpoverlapped : bool)
| ISend (fd buf len flags : Z)
| IWSASend (fd : Z) (buf : list WSABUF) (flags : Z) (lpoverlapped : bool).

Section win_loop.
Context {RQ TQ I F P R X S PI : Type}
  `{!PQueue handle RQ, !PQueue (Task F) TQ, !Mio P, !Ring R, !HasIocp S X}.
Abbreviation Ret := (option Z).
Abbreviation E := (EL P R X).
Abbreviation Po := (Pool TQ E).
Abbreviation W := (World unit Ret I (Sched RQ Po)).

Variable api : Port S PI.
Variable listener_call : nat → handle → event unit Ret → M W unit.
Variable thread_token : SyscallName → Z.

Definition el_set_ext (x : X) (e : E) : E :=
  mkEL (el_poller e) (el_sel e) (el_operator e) (COROUTINE_TOKENS e) (syscall_wait_table e)
    (arcs e) (el_stop e) (shared_stop e) (el_beans e) (EVENT_LOOP e) x.
Definition el_iocp (e : E) : Operator S := iocp_of (el_ext e).
Definition el_set_iocp (o : Operator S) (e : E) : E := el_set_ext (set_iocp o (el_ext e)) e.
Definition on_iocp {A} (m : M (Operator S) A) : M W A := zoom el_iocp el_set_iocp m.

Fixpoint complete_all (cq : list Overlapped) : M W unit :=
  match cq with
  | [] => mret tt
  | cqe :: cq => _ ← complete listener_call (token cqe) (result cqe); complete_all cq
  end.

Definition adapt_iocp (fuel : nat) (left_time : option Z) : M W (io_result (option Z)) :=
  r <-? on_iocp (WinOperator.select api fuel left_time 0);
  let '(count, cq, rest) := r in
  _ ← (if 0 <? count then complete_all cq else mret tt);
  mret (IoOk (if decide (rest = left_time) then left_time else Some (default 0 rest))).

Definition run_iocp_op (fuel : nat) (t : Z) (o : iocp_op) : M (Operator S) (io_result unit) :=
  match o with
  | IAccept fd => op_accept api fuel t fd
  | IRecv fd buf len flags => op_recv api t fd buf len flags
  | IWSARecv fd buf flags ov => op_WSARecv api t fd buf flags ov
  | ISend fd buf len flags => op_send api t fd buf len flags
  | IWSASend fd buf flags ov => op_WSASend api t fd buf flags ov
  end.
Definition iocp_name (o : iocp_op) : SyscallName :=
  match o with
  | IAccept _ => Common.accept
  | IRecv _ _ _ _ => Common.recv
  | IWSARecv _ _ _ _ => Common.WSARecv
  | ISend _ _ _ _ => Common.send
  | IWSASend _ _ _ _ => Common.WSASend
  end.

(** [impl_iocp!] *)
Definition iocp_submit (fuel : nat) (o : iocp_op) : M W (io_result nat) :=
  t ← EventLoop.token thread_token (iocp_name o);
  _ <-? on_iocp (run_iocp_op fuel t o);
  await_result t.
End win_loop.

(** ** Completions wake their coroutines *)

Section properties.
Context {RQ TQ I F P R X S PI : Type}
  `{!PQueue handle RQ, !PQueue (Task F) TQ, !Mio P, !Ring R, !HasIocp S X, !HasIocpLaws S X}
  `{!PQueueLaws handle RQ, !RingLaws R}.
Abbreviation E := (EL P R X).
Abbreviation Po := (Pool TQ E).
Abbreviation W := (World unit (option Z) I (Sched RQ Po)).
Implicit Types (w : W) (hs : list handle) (e : E) (cq : list Overlapped).
Context (clock : nat → Z) (clock_mono : ∀ i j, (i ≤ j)%nat → clock i ≤ clock j).
Context (listener_call : nat → handle → event unit (option Z) → M W unit)
  (lok : listeners_ok listener_call loop_rel).
Context (api : Port S PI) (clk : S → Z) (pending : S → gset Z) (laws : PortLaws api clk pending).

Definition tokens_of (cq : list Overlapped) : gset Z := list_to_set (token <$> cq).
Definition hand_over_all (cq : list Overlapped) (e : E) : E :=
  foldl (λ e v, hand_over (token v) (result v) e) e cq.

Lemma complete_all_spec hs cq w :
  inv clock hs w →
  ∃ w', complete_all listener_call cq w = Done tt w' ∧ the_loop w' = hand_over_all cq (the_loop w)
    ∧ waking clock (tokens_of cq ∩ COROUTINE_TOKENS (the_loop w)) hs w w'.
Proof.
  revert w. induction cq as [|v cq IH]; intros w Hi; simpl.
  { exists w. split_and!; try done. unfold tokens_of. simpl. rewrite intersection_empty_l_L.
    by apply waking_refl. }
  destruct (complete_spec clock clock_mono listener_call lok hs (token v) (result v) w Hi)
    as (w1 & H1 & Hl1 & Hw1).
  erewrite bind_done by exact H1.
  destruct (IH w1 (wk_inv _ _ _ _ _ Hw1)) as (w2 & H2 & Hl2 & Hw2). exists w2.
  split; [done|]. rewrite Hl1 in Hl2, Hw2. rewrite hand_over_tokens in Hw2. split; [done|].
  replace (tokens_of (v :: cq) ∩ COROUTINE_TOKENS (the_loop w)) with
    ({[token v]} ∩ COROUTINE_TOKENS (the_loop w)
     ∪ tokens_of cq ∩ (COROUTINE_TOKENS (the_loop w) ∖ {[token v]})); [by eapply waking_trans|].
  unfold tokens_of. simpl. apply set_eq. intros i. destruct (decide (i = token v)); set_solver.
Qed.

Lemma the_iocp_set o w : el_iocp (the_loop (el_world (el_set_iocp o) w)) = o.
Proof. apply iocp_set_iocp. Qed.

Lemma hand_over_all_iocp cq e : el_iocp (hand_over_all cq e) = el_iocp e.
Proof.
  revert e. induction cq as [|v cq IH]; intros e; simpl; [done|]. unfold hand_over_all in *. rewrite IH.
  unfold hand_over, el_iocp. by destruct (syscall_wait_table e !! token v).
Qed.

(** The operator as it is during a selection. *)
Definition entered (o : Operator S) : Operator S :=
  mkOperator (cpu o) (iocp o) true (boxes o) (windows o).

(** C31. Completions of the port wake their coroutines: a look at the port
    returns, takes every completion that Windows reports out of the boxes,
    puts its result where the call that waits under its token finds it, and
    makes ready exactly the coroutines of those tokens that wait in a system
    call; the operator is free and well formed afterwards. Only an error of
    the port drops the completions taken before it, and then nobody is woken. *)
Theorem iocp_wakes_callers hs fuel left_time w :
  inv clock hs w → wf pending (el_iocp (the_loop w)) → entering (el_iocp (the_loop w)) = false →
  (∀ t, left_time = Some t → 0 ≤ t) →
  rounds clk left_time (el_iocp (the_loop w)) < Z.of_nat fuel → (0 < fuel)%nat →
  ∃ r w' es cq o1, adapt_iocp api listener_call fuel left_time w = Done r w'
    ∧ took clk pending (entered (el_iocp (the_loop w))) es cq o1
    ∧ boxes (el_iocp (the_loop w')) = boxes o1 ∧ wf pending (el_iocp (the_loop w'))
    ∧ entering (el_iocp (the_loop w')) = false
    ∧ if is_ok r
      then the_loop w' = hand_over_all cq (el_set_iocp (el_iocp (the_loop w')) (the_loop w))
           ∧ waking clock (tokens_of cq ∩ COROUTINE_TOKENS (the_loop w)) hs w w'
      else waking clock ∅ hs w w'.
Proof.
  intros Hi Hwf He Ht Hf Hpos. unfold adapt_iocp, try_.
  destruct (iocp_select_free api clk pending laws fuel left_time 0 _ Hwf He Ht Hf Hpos)
    as (r & o' & Hs & He' & Hwf' & o1 & (es & cq & Htk & Hr) & Hb & _).
  erewrite bind_done by (unfold on_iocp; apply zoom_done; exact Hs).
  set (w1 := el_world _ w). pose proof (waking_el clock hs _ w Hi : waking clock ∅ hs w w1) as Hw1.
  destruct r as [[[n c] left_t]|err].
  2:{ exists (IoErr err), w1, es, cq, o1. split; [done|]. unfold w1. rewrite the_iocp_set. by split_and!. }
  destruct Hr as (-> & -> & _).
  destruct (complete_all_spec hs cq w1 (wk_inv _ _ _ _ _ Hw1)) as (w2 & H2 & Hl2 & Hw2).
  assert ((if 0 <? Zlen cq then complete_all listener_call cq else mret tt) w1 = Done tt w2) as Hd.
  { destruct cq as [|v cq]; [|done]. simpl in H2. done. }
  erewrite bind_done by exact Hd. eexists _, w2, es, cq, o1. split; [reflexivity|].
  assert (el_iocp (the_loop w2) = o') as Ho'.
  { rewrite Hl2, hand_over_all_iocp. apply the_iocp_set. }
  rewrite Ho'. split_and!; try done. simpl. split; [exact Hl2|].
  rewrite <-(union_empty_l_L (_ ∩ _)). by eapply waking_trans.
Qed.
End properties.

(** ** A coroutine that waits for a receive *)

Module WinLoopExamples.
Import SelectorExamples OperatorExamples WinOperatorExamples.

#[export] Instance self_iocp : HasIocp Os (Operator Os) := { iocp_of x := x; set_iocp o _ := o }.
#[export] Instance self_iocp_laws : HasIocpLaws Os (Operator Os).
Proof. done. Qed.

Abbreviation E := (EL Polls MemRing (Operator Os)).
Abbreviation Po := (Pool (list (Task job)) E).
Abbreviation W := (World unit (option Z) Z (Sched (list handle) Po)).

Definition quiet (_ : nat) (_ : handle) (_ : event unit (option Z)) : M W unit := mret tt.
Lemma quiet_fine : listeners_ok quiet loop_rel.
Proof. intros l h ev w. exists w. split; [reflexivity|by left]. Qed.

(** Coroutine 77 has submitted the receive of [WinOperatorExamples.one]. *)
Definition receiver : W :=
  mkWorld {[ 0%nat := LoopRun.co_in 77 (Syscall tt Common.recv (SSuspend 5000000)) ]}
    (mkTls [] [] [] [] []) 0
    (mkSched "loop" 131072 [] [] [] {[ 77 := 0%nat ]} [] ∅ ∅ 0
      (mkPool PRunning [] 0 0 0 2 0 false ∅ ∅ ∅ ∅ ∅ ∅ 0
        (mkEL 0 (LoopRun.no_records []) LoopRun.idle_ring {[ 77 ]} {[ 77 := 0%nat ]} {[ 0%nat := None ]}
           false 0 new_factory 0 one))).

Lemma receiver_inv : inv LoopRun.ticks [] receiver.
Proof.
  split; simpl; try done.
  - unfold owned, containers. simpl. by apply NoDup_singleton.
  - intros h Hh. by apply not_elem_of_nil in Hh.
  - intros h Hh. by apply not_elem_of_nil in Hh.
  - constructor.
  - intros t h Hh. by apply not_elem_of_nil in Hh.
  - intros i h [<- <-]%lookup_singleton_Some. eexists _, _, _. by rewrite lookup_singleton_eq.
  - constructor.
  - split.
    + intros h1 h2 c1 c2. simpl. intros [<- _]%lookup_singleton_Some [<- _]%lookup_singleton_Some. done.
    + simpl. rewrite map_size_singleton. done.
Qed.

(** Applies [iocp_wakes_callers]: the coroutine finds six bytes and is ready. *)
Lemma iocp_wakes_callers_witness :
  ∃ w', adapt_iocp os quiet 30 (Some 25) receiver = Done (IoOk (Some 0)) w'
    ∧ arcs (the_loop w') !! 0%nat = Some (Some 6)
    ∧ 0%nat ∈ pq_elems (s_ready (ext w')) ∧ wf held (el_iocp (the_loop w')).
Proof.
  destruct (iocp_wakes_callers LoopRun.ticks LoopRun.loop_ticks_mono quiet quiet_fine os clk_of held os_laws
    [] 30 (Some 25) receiver receiver_inv) as (r & w' & es & cq & o1 & Hr & _ & _ & Hwf & _ & _).
  - exact one_wf.
  - reflexivity.
  - by intros t [= <-].
  - reflexivity.
  - lia.
  - vm_compute in Hr. injection Hr as <- <-. eexists. split; [vm_compute; reflexivity|].
    split; [vm_compute; reflexivity|]. split; [vm_compute; by left|]. exact Hwf.
Defined.
End WinLoopExamples.
