(* ===== verification/WinHook.v ===== *)
(** * WinHook: hooked functions of Windows

    Models [hook/src/syscall/windows.rs]: the library patches functions of the
    system's own libraries when it is loaded. The crate MinHook is the interface
    [MinHook] with laws; [hook()] and the current coroutine are parameters, as in
    [Facade], and so are the calls of [core/src/syscall]. *)

From stdpp Require Import sorting base numbers strings gmap list.
From S2P Require Import Prelude Common.

Definition DLL_PROCESS_DETACH : Z := 0.
Definition DLL_PROCESS_ATTACH : Z := 1.

(** What [attach] hooks, with the library that has the function. *)
Definition hooks : list (string * SyscallName) := [
  ("kernel32.dll", Sleep); ("kernel32.dll", CreateFileW); ("kernel32.dll", SetFilePointerEx);
  ("ws2_32.dll", accept); ("ws2_32.dll", WSAAccept); ("ws2_32.dll", connect); ("ws2_32.dll", ioctlsocket);
  ("ws2_32.dll", listen); ("ws2_32.dll", recv); ("ws2_32.dll", send); ("ws2_32.dll", shutdown);
  ("ws2_32.dll", socket); ("ws2_32.dll", setsockopt); ("ws2_32.dll", WSARecv); ("ws2_32.dll", WSASend);
  ("ws2_32.dll", WSASocketW); ("ws2_32.dll", select); ("ws2_32.dll", WSAPoll)].

(** MinHook: [create_hook_api] returns the address under which the original can
    still be called; hooks that were created take effect when they are enabled.
    [patched] is what a caller of the function gets. *)
Record MinHook (S : Type) : Type := mkMinHook {
  create_hook_api : string → SyscallName → M S (option Z);
  enable_all_hooks : M S bool;
  disable_all_hooks : M S bool;
  made : S → SyscallName → bool;
  patched : S → SyscallName → bool;
}.
Arguments create_hook_api {S}.
Arguments enable_all_hooks {S}.
Arguments disable_all_hooks {S}.
Arguments made {S}.
Arguments patched {S}.

Record MinHookLaws {S} (mh : MinHook S) : Prop := {
  create_spec lib f s : ∃ r s', create_hook_api mh lib f s = Done r s'
    ∧ (∀ g, patched mh s' g = patched mh s g)
    ∧ ∀ g, made mh s' g = made mh s g || (bool_decide (g = f) && bool_decide (is_Some r));
  enable_spec s : ∃ b s', enable_all_hooks mh s = Done b s'
    ∧ ∀ g, made mh s' g = made mh s g ∧ (b = true → patched mh s' g = made mh s g);
  disable_spec s : ∃ b s', disable_all_hooks mh s = Done b s' ∧ ∀ g, b = true → patched mh s' g = false;
}.

Section hook.
Context {S : Type} (mh : MinHook S).
(** [hook()], whether a coroutine runs, and the feature [ci]. *)
Context (hook current_is_some : M S bool) (ci : bool).

(** The static cells of the hooked functions, and the rest. *)
Record Dll : Type := mkDll { cells : SyscallName → option Z; rest : S }.

Definition set_cell (f : SyscallName) (ptr : Z) (d : Dll) : Dll :=
  mkDll (λ g, if decide (g = f) then Some ptr else cells d g) (rest d).

Definition inside {A} (m : M S A) : M Dll A := λ d,
  match m (rest d) with
  | Done a s => Done a (mkDll (cells d) s)
  | Panic msg s => Panic msg (mkDll (cells d) s)
  | NoFuel => NoFuel
  end.

(** [get_or_init] of the cell, as [impl_hook!] uses it. *)
Definition install (lib : string) (f : SyscallName) : M Dll unit :=
  c ← gets (λ d, cells d f);
  match c with
  | Some _ => mret tt
  | None =>
      r ← inside (create_hook_api mh lib f);
      match r with
      | None => panic "hook failed !"
      | Some ptr =>
          _ ← assert_ (negb (ptr =? 0)) "syscall not found !";
          modify (set_cell f ptr)
      end
  end.

Fixpoint install_all (l : list (string * SyscallName)) : M Dll unit :=
  match l with
  | [] => mret tt
  | (lib, f) :: l => _ ← install lib f; install_all l
  end.

Definition attach : M Dll (io_result unit) :=
  _ ← install_all hooks;
  b ← inside (enable_all_hooks mh);
  mret (if (b : bool) then IoOk tt else IoErr (Other "init all hooks failed !")).

(** A panic that reaches the end of an [extern] function ends the process. *)
Definition extern_system {A} (m : M Dll A) : M Dll A := λ d,
  match m d with Panic _ d => Panic "panic in a function that cannot unwind" d | r => r end.

Definition DllMain (call_reason : Z) : M Dll Z := extern_system (
  if call_reason =? DLL_PROCESS_ATTACH then
    r ← attach; mret (if is_ok r then 1 else 0)
  else if call_reason =? DLL_PROCESS_DETACH then
    b ← inside (disable_all_hooks mh); mret (if (b : bool) then 1 else 0)
  else mret 1).

(** The function that callers get once the hook is enabled. *)
Definition hooked_function {A} (f : SyscallName) (original hooked : Z → M S A) : M Dll A := extern_system (
  c ← gets (λ d, cells d f);
  match c with
  | None => panic "hook failed !"
  | Some fn_ptr =>
      h ← inside hook;
      c ← (if (h : bool) then mret true else inside current_is_some);
      if (c || ci)%bool then inside (hooked fn_ptr) else inside (original fn_ptr)
  end).
End hook.
Arguments Dll : clear implicits.
Arguments mkDll {S}.
Arguments cells {S}.
Arguments rest {S}.

(** ** Attaching *)

Section properties.
Context {S : Type} (mh : MinHook S) (laws : MinHookLaws mh).
Implicit Types d : Dll S.

(** The cells of the functions that MinHook has hooked hold their originals. *)
Definition cells_ok (d : Dll S) : Prop :=
  ∀ f, made mh (rest d) f = bool_decide (is_Some (cells d f)).

Lemma install_spec lib f d : cells_ok d →
  match install mh lib f d with
  | Done _ d' => cells_ok d' ∧ is_Some (cells d' f) ∧ (∀ g, is_Some (cells d g) → cells d' g = cells d g)
      ∧ ∀ g, patched mh (rest d') g = patched mh (rest d) g
  | Panic _ d' => ∀ g, patched mh (rest d') g = patched mh (rest d) g
  | NoFuel => False
  end.
Proof.
  intros Hok. unfold install. erewrite bind_done by reflexivity.
  destruct (cells d f) as [q|] eqn:Hc; [by split_and!; [|rewrite Hc; eexists| |]|].
  destruct (create_spec _ laws lib f (rest d)) as (r & s' & Hr & Hp & Hm).
  rewrite (bind_done _ _ _ r (mkDll (cells d) s')) by (unfold inside; by rewrite Hr).
  destruct r as [ptr|]; [|exact Hp]. unfold assert_, mbind, M_bind.
  destruct (ptr =? 0); [exact Hp|]. simpl. split_and!; [| |intros g [q Hq]|exact Hp].
  - intros g. simpl. rewrite Hm, Hok. case_decide as Hg.
    + subst g. rewrite (bool_decide_true (f = f)), (bool_decide_true (is_Some (Some ptr))) by (done || by eexists).
      by rewrite orb_true_r.
    + rewrite (bool_decide_false (g = f)) by done. by rewrite orb_false_r.
  - rewrite decide_True by done. by eexists.
  - rewrite decide_False; [done|]. intros ->. congruence.
Qed.

Lemma install_all_spec l : ∀ d, cells_ok d →
  match install_all mh l d with
  | Done _ d' => cells_ok d' ∧ (∀ f, f ∈ l.*2 → is_Some (cells d' f))
      ∧ (∀ g, is_Some (cells d g) → cells d' g = cells d g)
      ∧ ∀ g, patched mh (rest d') g = patched mh (rest d) g
  | Panic _ d' => ∀ g, patched mh (rest d') g = patched mh (rest d) g
  | NoFuel => False
  end.
Proof.
  induction l as [|[lib f] l IH]; intros d Hok; simpl.
  { split_and!; try done. intros f Hf. by apply not_elem_of_nil in Hf. }
  pose proof (install_spec lib f d Hok) as H. unfold mbind, M_bind.
  destruct (install mh lib f d) as [u d1|msg d1|]; [|exact H|done].
  destruct H as (Hok1 & Hf1 & Hk1 & Hp1). specialize (IH d1 Hok1).
  destruct (install_all mh l d1) as [u' d2|msg d2|]; [|intros g; by rewrite IH, Hp1|done].
  destruct IH as (Hok2 & Hf2 & Hk2 & Hp2). split_and!; try done.
  - intros g Hg. apply elem_of_cons in Hg as [->|Hg]; [|by apply Hf2]. by rewrite Hk2.
  - intros g Hg. rewrite Hk2; [by apply Hk1|]. by rewrite Hk1.
  - intros g. by rewrite Hp2.
Qed.

(** Loading the library is all or nothing: when [DllMain] reports success,
    every function of the list is patched and its cell holds the original, so
    that the hooked function never finds its cell empty; when a hook cannot be
    created the process ends, and when enabling fails the library is refused. *)
Theorem attach_is_complete d : cells_ok d → (∀ f, patched mh (rest d) f = false) →
  match DllMain mh DLL_PROCESS_ATTACH d with
  | Done r d' => (r = 1 ∨ r = 0) ∧ ∀ f, f ∈ hooks.*2 → ∃ ptr, cells d' f = Some ptr
      ∧ (r = 1 → patched mh (rest d') f = true)
  | Panic _ d' => ∀ f, patched mh (rest d') f = false
  | NoFuel => False
  end.
Proof.
  intros Hok Hno. unfold DllMain, extern_system. rewrite Z.eqb_refl. unfold attach. rewrite bind_assoc.
  pose proof (install_all_spec hooks d Hok) as H. remember hooks as hs eqn:Hhs.
  unfold mbind at 1, M_bind at 1.
  destruct (install_all mh hs d) as [u d1|msg d1|]; [|intros f; by rewrite H|done].
  destruct H as (Hok1 & Hf1 & _ & Hp1).
  destruct (enable_spec _ laws (rest d1)) as (b & s' & Hb & He).
  rewrite bind_assoc. rewrite (bind_done _ _ _ b (mkDll (cells d1) s')) by (unfold inside; by rewrite Hb).
  simpl. split; [destruct b; tauto|]. intros f Hf. destruct (Hf1 f Hf) as [ptr Hptr].
  exists ptr. split; [done|]. destruct b; [|done]. intros _. destruct (He f) as [_ ->]; [|done].
  rewrite Hok1. apply bool_decide_true. by eexists.
Qed.

(** A patched function calls the layers with the original when hooking is on
    or a coroutine runs, and the original otherwise. *)
Theorem hooked_function_calls {A} hook cur ci f (original hooked : Z → M S A) d ptr h s c s' :
  cells d f = Some ptr → hook (rest d) = Done h s → (h = false → cur s = Done c s') →
  hooked_function hook cur ci f original hooked d
  = extern_system (inside ((if (h || c || ci)%bool then hooked else original) ptr))
      (mkDll (cells d) (if h then s else s')).
Proof.
  intros Hc Hh Hcur. unfold hooked_function, extern_system at 1.
  rewrite (bind_done _ _ _ (Some ptr) d) by (unfold gets; by rewrite Hc).
  rewrite (bind_done _ _ _ h (mkDll (cells d) s)) by (unfold inside; by rewrite Hh).
  destruct h; simpl.
  - by erewrite bind_done by reflexivity.
  - rewrite (bind_done _ _ _ c (mkDll (cells d) s')) by (unfold inside; simpl; by rewrite Hcur).
    by destruct (c || ci)%bool.
Qed.
End properties.

(** ** A MinHook in memory *)

Module WinHookExamples.

(** The hooks made and those in effect. *)
Record Patches : Type := mkPatches {
  hooked_made : list SyscallName; active : list SyscallName; broken : bool }.

Definition minhook : MinHook Patches := {|
  create_hook_api _ f := λ s, Done (Some 4096) (mkPatches (f :: hooked_made s) (active s) (broken s));
  enable_all_hooks := λ s,
    if broken s then Done false s else Done true (mkPatches (hooked_made s) (hooked_made s) (broken s));
  disable_all_hooks := λ s, Done true (mkPatches (hooked_made s) [] (broken s));
  made s f := bool_decide (f ∈ hooked_made s);
  patched s f := bool_decide (f ∈ active s);
|}.

Lemma minhook_laws : MinHookLaws minhook.
Proof.
  split; simpl.
  - intros lib f s. eexists _, _. split; [reflexivity|]. split; [done|]. intros g. simpl.
    rewrite andb_true_r, <-bool_decide_or. apply bool_decide_ext. rewrite elem_of_cons. tauto.
  - intros s. destruct (broken s); eexists _, _; (split; [reflexivity|]); by intros g.
  - intros s. eexists _, _. split; [reflexivity|]. done.
Qed.

Definition fresh (broken : bool) : Dll Patches := mkDll (λ _, None) (mkPatches [] [] broken).

Example attach_works :
  match DllMain minhook DLL_PROCESS_ATTACH (fresh false) with
  | Done r d => r = 1 ∧ forallb (patched minhook (rest d)) hooks.*2 = true
  | _ => False
  end.
Proof. vm_compute. done. Qed.

Example attach_refused :
  match DllMain minhook DLL_PROCESS_ATTACH (fresh true) with
  | Done r d => r = 0 ∧ forallb (λ f, negb (patched minhook (rest d) f)) hooks.*2 = true
  | _ => False
  end.
Proof. vm_compute. done. Qed.
End WinHookExamples.
